(* ===== verification/_CoqProject ===== *)
-Q . S2P
Prelude.v
GoStd.v
Decimal.v
Money.v
Uuid.v
UuidGen.v
Json.v
Ledger.v
Schema.v
Pgx.v
Store.v
Service.v
LedgerSpec.v
LedgerFacts.v
StorerSpec.v
ServiceSpec.v
Numeric.v
SchemaFacts.v
StoreBlocks.v
Amounts.v
StoreRefines.v
Guarantee.v
Clients.v
Progress.v
Migrations.v
Downgrade.v
Correctness.v
StoreFacts.v
Divergences.v
Prog.v
Machine.v
Locking.v
Frames.v
Serial.v
Liveness.v
Scheduler.v
Solo.v
Atomic.v
Trail.v
Knowledge.v
Answers.v
Reads.v
Books.v
Concurrent.v
Http.v
HttpFacts.v
Mux.v
Routes.v
RoutesFacts.v
WebFacts.v
WebAnswers.v
WebConcurrent.v
Idempotency.v
Restart.v
AuditTrail.v
JsonFacts.v
Render.v
RenderFacts.v
Server.v
ServerFacts.v
Loadtest.v
LoadtestFacts.v
