(* ===== verification/Prelude.v ===== *)
(** * Banking ledger service: verification library

    The program is a double-entry banking ledger: an HTTP API over a ledger
    service over a PostgreSQL store.  A client posts transfers, reversals and
    deposits with an idempotency key; the service checks the request, looks the
    key up, and moves the money inside one database transaction that locks both
    accounts in a fixed order, rewrites both balances and records the transaction
    with a debit and a credit entry; every attempt is written to an audit log
    outside of that transaction.  Several server processes may share a database.
    A load test drives a server with transfers and checks that no money is lost.

    ** The parts of the program and the files that model them

    - [Prelude] (this file): results, the sequencing notations [let!], [let?] and
      [let^], tactics, hint databases, lemmas on lists, maps and sums.
    - [GoStd]: what the code uses of Go's standard library: byte strings,
      [strconv], the decimal text of [math/big], the [errors] package.  [Json]:
      the text of [encoding/json].  [Mux]: the [ServeMux] of [net/http].
    - [Decimal]: [vendor/github.com/shopspring/decimal/decimal.go], the operations
      that the program calls.  [Uuid]: [vendor/github.com/google/uuid], its texts;
      [UuidGen]: its generators.
    - [Money]: [internal/money/money.go].  A [Money] is its [Decimal].
    - [Ledger]: [internal/ledger/types.go] and [errors.go].
    - [Service]: [internal/ledger/service.go].  [Storer] is the Go interface of
      that name as a type class; [Transfer], [Reverse], [Deposit] and the audit
      writers are written once over any monad that has it.  The callback given to
      [WithTx] is a definition of its own ([transfer_tx], [reverse_tx],
      [deposit_tx]); the code after [WithTx], the same text in the three methods up
      to its arguments, is [finish].
    - [Store]: [internal/store/*.go], over any monad with the driver [Pgx].  The
      pool ([New], [Close]) is in [Server].
    - [Schema]: [migrations/0001_init.up.sql] and the SQL statements of the store,
      one constructor of [sql] for each, with their meaning on the tables.
    - [Migrations]: the seed migrations [0002] and [0003]; [Downgrade]: the same
      two undone.
    - [Pgx]: the driver and the runtime as classes, and [PgM], their implementation
      over an explicit [World] and an arbitrary environment [Env].
    - [Http]: the handlers of [internal/httpapi/handlers.go]; [Routes]: its
      [RegisterRoutes], and a web request from its path and body text to its answer;
      [Render]: the bodies that [writeJSON] sends.
    - [Server]: [cmd/server/main.go], [main] as the tree of its calls to the
      operating system, the migration library, the pool and [net/http], and a
      process as its goroutines over what they share.
    - [Loadtest]: [cmd/loadtest/main.go], from the two balances it reads to the
      summary it prints and its exit status, over any monad with an HTTP client.

    ** The specification and the refinement

    - [LedgerSpec] is the abstract ledger: accounts with balances in
      ten-thousandths, transactions with their legs, the audit trail; the one
      movement [move] and when it may be recorded ([can_move]); the invariant
      [ledger_inv]; the relation [rely] in which other clients may change a ledger.
      [LedgerFacts] proves that a movement preserves the invariant.
    - [StorerSpec] is the contract of the [Storer] interface in terms of the
      abstract ledger.  [ServiceSpec] proves the service against that contract only.
    - [StoreRefines] discharges the contract for [Store] over [PgM], with
      [Numeric] (amounts through NUMERIC columns), [SchemaFacts] (each statement
      seen from the abstract ledger) and [StoreBlocks] (the store's methods inside
      a block, over any driver that keeps [BlockSpec]).
    - [Guarantee] and [Clients] show that each operation gives the other clients
      what it relies on of them, so that the argument closes for any number of
      processes.  [Progress] gives the converse direction: with no failure and no
      interference, an operation that the ledger allows succeeds.

    ** Concurrency

    In [PgM] a transaction block runs as a unit.  That this is sound is itself
    proved, on a finer machine where the calls of all sessions interleave:

    - [Prog] runs the same code of [Store], [Service] and [Http] at the free monad,
      where an operation is the tree of its driver calls.
    - [Machine] executes any number of such sessions call by call on one server at
      READ COMMITTED, with row locks, unique-index reservations and foreign-key
      locks acquired one at a time, private writes until the commit, a failure
      possible at every call, and the loss of a connection at any moment.
    - [Locking] is a type system for programs: every operation locks its two
      accounts by one ordered read before it writes.  [Frames] and [Serial] derive
      that the committed tables are those of the committed blocks one after the
      other, in the order of their commits.  [Liveness] derives that no set of
      sessions deadlocks and that every schedule ends; [Scheduler] is an executable
      schedule.
    - [Atomic] is on blocks themselves: what a callback does is all applied or not at
      all, for any tree of calls, and what the deferred trigger lets through.
    - [Solo], [Knowledge] and [Answers] show that a block, once serialised, performs
      the one movement that its call requested, even where the call read the ledger
      before the block began ([Reverse]); and they follow what a session knows of the
      ledger, and of the tables that have been, to its answer: a success shows what
      is recorded, a refusal has its grounds.  [Reads] does the same for the reads of
      the store, [Trail] for the lines of the audit trail: what a true line says, and
      that a session owes one line for the movement it has made.
    - [Books] puts these together for any well-behaved programs; [Concurrent] is the
      instance for the service's calls, [WebAnswers] and [WebConcurrent] for web
      requests, and [Idempotency] draws the consequence for requests that share a key.
      [Restart] is a sequence of lives of the process on one database, each ended
      anywhere; [AuditTrail] is the invariant of the audit trail over such lives.

    ** What the theorems show

    - Any number of requests served at once ([WebConcurrent], [Restart], [AuditTrail];
      C1-C5, C7, C8): the books are those of the committed movements one after the
      other, a 201 shows what is recorded, a refusal has moved nothing and its reason
      held at some moment, a 200 shows what was committed at some moment, the most recent
      rows first where it is a page, a key moves
      money at most once and an answer holds even if the process dies and is started
      again, the audit trail reports no success that is not in the books and none
      twice, every request is answered, and the blocks are serializable.
      [Concurrent] (C15): every call keeps the lock discipline.
    - Each operation against the abstract ledger ([Correctness]; C6, C9, C10,
      C17-C22): the refinement under any failure and interference, the exact effect
      when nothing interferes, the replay of a key, and the refusals.
    - The server ([WebFacts], [RoutesFacts], [RenderFacts], [HttpFacts]; C11, C12, C23,
      C32, C38): what any traffic preserves, which handler serves which request, that
      reads write nothing, that a client reads every record of a body back by its fields,
      and the status of each error.  [ServerFacts] (C14, C24): the process serves only
      over a migrated database, and what its exit status tells; a signal kills it only
      while it is not registered for.
    - Amounts and identifiers ([Amounts], [UuidGen]; C25-C31): decimals are exact
      rationals, money is fixed-point arithmetic, rounding is to nearest, texts are
      read back as written, and the identifiers a process draws are increasing.
    - The store and the schema ([StoreFacts], [Atomic], [Downgrade]; C16, C33-C37): the
      classification of constraint violations, atomicity of [WithTx] for arbitrary
      callbacks, what the deferred trigger enforces for arbitrary entries, paging, that
      a migration may be run again, and what undoing one leaves behind.
    - The load test ([LoadtestFacts]; C13, C39): its check passes on this server when
      its transfers have been answered before it reads the balances again, and what it
      counts as a success.
    - [Divergences] (C40): behaviours that the documents describe differently.

    ** The environment

    Each external call consumes a tick of the [World], and [Env] says for each tick
    whether the call goes through, fails without effect, or takes effect with its
    acknowledgement lost; whether a failing query fails at once or while its rows
    are read; which UUID is drawn and what the clock shows; in which order the
    server returns rows that the query leaves unordered (any of them, [shuffle]); and what the other clients
    have committed since.  Cancelled contexts, deadlines, lost connections and
    deadlock victims are such failures.  In [Machine] the others are sessions like
    any other, and what remains of the environment is the schedule and the outcome
    of each call.  Sequence values that a rolled-back transaction drew stay consumed.

    ** Bounds and fuel

    Integers are [Z] where Go uses [big.Int]; [Atoi] and the int64 paths check the
    64-bit range.  [NUMERIC(20,4)] holds less than [numeric_limit] = 10^20
    ten-thousandths, and BIGSERIAL columns stop at [max_bigint].  [dec_digits]
    takes the bit length of its argument as fuel, which is at least the number of
    decimal digits; [contains_from] takes one more than the length of the text,
    at least the number of start positions.  The parser of [Json] takes the length
    of the text, of which every call consumes at least one byte, and refuses at
    [encoding/json]'s nesting depth of 10000 as Go does.  The schedules of
    [Scheduler] are lists of turns.  No other definition has fuel.

    ** What is not modelled

    The internals of pgx; panics (a callback of [WithTx] returns, and no call of it
    panics on the values the store gives it, so that the deferred [Rollback] runs after
    a return only); PostgreSQL's text encoding (it refuses NUL bytes and
    invalid UTF-8); the int32 width of a decimal's exponent, which [NewFromString]
    checks and [Round] sets to -4; [0001] down, which drops the tables; the
    migration library's own bookkeeping; the text of a time, which depends on the
    process's time zone and is a parameter of [Render]; the quoting of [%q] and the
    formatting of measured times, parameters of [Loadtest] (the one other [%q], in an
    error of uuid.Parse that its callers replace, is left out); the parsing of its flags;
    uuid's pool of random bytes, which the program does not enable; the contents of
    the static files and the web page.  [time.Time] is a count of microseconds.
    That PostgreSQL keeps what it has committed, and its sequences, over a crash of
    its own is taken from it: in [Restart] it is the program that dies.

    ** What could follow

    Which movements have their line in the audit trail: [Correctness] says it where
    blocks run as units and nothing fails, [AuditTrail] shows a crash that leaves a
    movement without one.  The text of times. *)

From Stdlib Require Export ZArith Lia.
From stdpp Require Export base tactics numbers option strings gmap fin_maps sorting list_numbers list.
From stdpp Require Import options.

(** ** Results

    A Go function that returns [(T, error)] returns a [result E T] here: the
    zero value that accompanies a non-nil error is never read by a caller. *)

Inductive result (E A : Type) : Type :=
| Ok (a : A)
| Err (e : E).
Arguments Ok {E A} a.
Arguments Err {E A} e.

Definition is_ok {E A} (r : result E A) : bool :=
  match r with Ok _ => true | Err _ => false end.

Definition map_err {E F A} (f : E → F) (r : result E A) : result F A :=
  match r with Ok a => Ok a | Err e => Err (f e) end.

Definition map_ok {E A B} (f : A → B) (r : result E A) : result E B :=
  match r with Ok a => Ok (f a) | Err e => Err e end.

(** ** Monads

    The store and the service are written once, over any monad that offers
    their interface.  [let!] is plain sequencing; [let?] is Go's
    [if err != nil { return err }]. *)

Declare Scope go_scope.
Delimit Scope go_scope with go.
Open Scope go_scope.

Notation "'let!' x ':=' m 'in' k" := (mbind (λ x, k) m)
  (at level 10, x name, m at level 100, k at level 200,
   format "'let!'  x  ':='  m  'in' '//' k") : go_scope.
Notation "'let!' ' p ':=' m 'in' k" := (mbind (λ x, match x with p => k end) m)
  (at level 10, p pattern, m at level 100, k at level 200,
   format "'let!'  ' p  ':='  m  'in' '//' k") : go_scope.
Notation "'let?' x ':=' m 'in' k" :=
  (mbind (λ r, match r with Ok x => k | Err e => mret (Err e) end) m)
  (at level 10, x name, m at level 100, k at level 200,
   format "'let?'  x  ':='  m  'in' '//' k") : go_scope.
Notation "'let?' ' p ':=' m 'in' k" :=
  (mbind (λ r, match r with Ok p => k | Err e => mret (Err e) end) m)
  (at level 10, p pattern, m at level 100, k at level 200,
   format "'let?'  ' p  ':='  m  'in' '//' k") : go_scope.

(** The error bind on pure results. *)
Notation "'let^' x ':=' r 'in' k" :=
  (match r with Ok x => k | Err e => Err e end)
  (at level 10, x name, r at level 100, k at level 200,
   format "'let^'  x  ':='  r  'in' '//' k") : go_scope.

(** ** Automation *)

Create HintDb ledger.
Create Rewrite HintDb ledger.

(** Case analysis on the matches of the goal or of a hypothesis that evaluates
    to a constructor, keeping the equation. *)
Ltac destr_in H :=
  repeat (match type of H with
          | context [match ?x with _ => _ end] =>
              let E := fresh "E" in destruct x eqn:E; simplify_eq/=
          end).

(** ** Lists and sums *)

Section sumZ.
Context {A : Type}.

(** The sum of [f] over a list of rows, as SQL's [SUM]. *)
Definition sumZ (f : A → Z) (l : list A) : Z := foldr (λ a s, (f a + s)%Z) 0%Z l.

Lemma sumZ_nil f : sumZ f [] = 0%Z.
Proof. done. Qed.

Lemma sumZ_cons f a l : sumZ f (a :: l) = (f a + sumZ f l)%Z.
Proof. done. Qed.

Lemma sumZ_app f l1 l2 : sumZ f (l1 ++ l2) = (sumZ f l1 + sumZ f l2)%Z.
Proof. induction l1 as [|a l1 IH]; simpl; [done | rewrite IH; lia]. Qed.

Lemma sumZ_ext f g l : (∀ a, a ∈ l → f a = g a) → sumZ f l = sumZ g l.
Proof.
  induction l as [|a l IH]; intros H; simpl; [done |].
  rewrite H by set_solver. rewrite IH; [done | set_solver].
Qed.

Lemma sumZ_add f g l : sumZ (λ a, f a + g a)%Z l = (sumZ f l + sumZ g l)%Z.
Proof. induction l as [|a l IH]; simpl; [done | rewrite IH; lia]. Qed.

Lemma sumZ_zero f l : (∀ a, a ∈ l → f a = 0%Z) → sumZ f l = 0%Z.
Proof.
  induction l as [|a l IH]; intros H; simpl; [done |].
  rewrite H by set_solver. rewrite IH; [done | set_solver].
Qed.

Lemma sumZ_filter (P : A → Prop) `{∀ x, Decision (P x)} f l :
  sumZ f (filter P l) = sumZ (λ a, if decide (P a) then f a else 0)%Z l.
Proof.
  induction l as [|a l IH]; simpl; [done |].
  rewrite filter_cons. case_decide; simpl; rewrite IH; lia.
Qed.

Global Instance sumZ_Permutation f : Proper ((≡ₚ) ==> (=)) (sumZ f).
Proof. induction 1; simpl in *; lia. Qed.
End sumZ.

Lemma sumZ_fmap {A B} (f : B → Z) (g : A → B) l : sumZ f (g <$> l) = sumZ (f ∘ g) l.
Proof. induction l as [|a l IH]; [done |]. rewrite fmap_cons, !sumZ_cons, IH. done. Qed.

(** Sums over two lists can be exchanged. *)
Lemma sumZ_swap {A B} (f : A → B → Z) (l1 : list A) (l2 : list B) :
  sumZ (λ a, sumZ (f a) l2) l1 = sumZ (λ b, sumZ (λ a, f a b) l1) l2.
Proof.
  induction l1 as [|a l1 IH]; simpl.
  - by rewrite sumZ_zero.
  - by rewrite IH, <-sumZ_add.
Qed.

(** A sum that picks one element of a duplicate-free list. *)
Lemma sumZ_single `{EqDecision A} (k : A) (v : Z) (l : list A) :
  NoDup l → k ∈ l → sumZ (λ a, if decide (k = a) then v else 0)%Z l = v.
Proof.
  intros Hnd Hin. induction Hnd as [|a l Ha Hnd IH]; [by apply not_elem_of_nil in Hin |].
  simpl. apply elem_of_cons in Hin. case_decide as Hk.
  - subst a. rewrite sumZ_zero; [lia |]. intros a Hal. case_decide; congruence.
  - rewrite IH; [lia |]. destruct Hin; [congruence | done].
Qed.

#[export] Hint Rewrite @sumZ_nil @sumZ_cons @sumZ_app : ledger.

(** The sum of a function over the values of a finite map. *)
Definition map_sumZ `{Countable K} {A} (f : A → Z) (m : gmap K A) : Z :=
  sumZ (λ p, f p.2) (map_to_list m).

Section map_sumZ.
Context `{Countable K} {A : Type} (f : A → Z).
Implicit Types m : gmap K A.

Lemma map_sumZ_empty : map_sumZ f (∅ : gmap K A) = 0%Z.
Proof. unfold map_sumZ. by rewrite map_to_list_empty. Qed.

Lemma map_sumZ_insert_None m i x :
  m !! i = None → map_sumZ f (<[i:=x]> m) = (f x + map_sumZ f m)%Z.
Proof. intros Hi. unfold map_sumZ. by rewrite map_to_list_insert. Qed.

Lemma map_sumZ_insert_Some m i x y :
  m !! i = Some y → map_sumZ f (<[i:=x]> m) = (map_sumZ f m + f x - f y)%Z.
Proof.
  intros Hi. rewrite <-(insert_delete_id m i y Hi) at 2.
  rewrite <-insert_delete_eq.
  rewrite !map_sumZ_insert_None by apply lookup_delete_eq. lia.
Qed.

Lemma map_sumZ_ext (g : A → Z) m :
  (∀ i x, m !! i = Some x → f x = g x) → map_sumZ f m = map_sumZ g m.
Proof.
  intros Hfg. apply sumZ_ext. intros [i x] Hin.
  apply elem_of_map_to_list in Hin. by apply (Hfg i).
Qed.
End map_sumZ.

(** ** Sorted lists *)

Lemma filter_none {A} (P : A → Prop) `{∀ x, Decision (P x)} (l : list A) :
  (∀ x, x ∈ l → ¬ P x) → filter P l = [].
Proof.
  induction l as [|a l IH]; intros Hl; [done |].
  rewrite filter_cons_False by (apply Hl; left). apply IH. intros x Hx. apply Hl. by right.
Qed.

Lemma StronglySorted_filter {A} (R : relation A) (P : A → Prop) `{∀ x, Decision (P x)} (l : list A) :
  StronglySorted R l → StronglySorted R (filter P l).
Proof.
  induction 1 as [|a l Hs IH Ha]; [constructor |].
  rewrite filter_cons. case_decide; [|done]. constructor; [done |].
  rewrite Forall_forall in *. intros x [_ Hx]%list_elem_of_filter. auto.
Qed.

Section merge_sort_id.
Context {A : Type} (R : relation A) `{!RelDecision R} (key : A → Z).

Lemma strict_same_key l x y :
  StronglySorted (λ x y, key x < key y)%Z l → x ∈ l → y ∈ l → key x = key y → x = y.
Proof.
  induction 1 as [|a l Hs IH Ha]; intros Hx Hy Heq; [by apply not_elem_of_nil in Hx |].
  rewrite Forall_forall in Ha.
  apply elem_of_cons in Hx, Hy. destruct Hx as [->|Hx], Hy as [->|Hy]; [done | | | auto].
  - specialize (Ha y Hy). lia.
  - specialize (Ha x Hx). lia.
Qed.

(** Sorting rows that already come in strictly increasing key order. *)
Lemma merge_sort_strict l :
  (∀ x y, R x y ↔ (key x <= key y)%Z) →
  StronglySorted (λ x y, key x < key y)%Z l → merge_sort R l = l.
Proof.
  intros HR Hs.
  assert (Total R) by (intros x y; rewrite !HR; lia).
  assert (Transitive R) by (intros x y z; rewrite !HR; lia).
  apply (StronglySorted_unique_strong R).
  - intros x y Hx Hy Hxy Hyx. rewrite merge_sort_Permutation in Hx.
    apply HR in Hxy, Hyx. apply (strict_same_key l); [done..|lia].
  - by apply StronglySorted_merge_sort.
  - clear -Hs HR. induction Hs as [|a l Hs IH Ha]; constructor; [done |].
    rewrite Forall_forall in *. intros x Hx. apply HR. specialize (Ha x Hx). lia.
  - apply merge_sort_Permutation.
Qed.
End merge_sort_id.

(** A partial map that is defined everywhere on a list. *)
Lemma omap_total {A B} (f : A → option B) (g : A → B) (l : list A) :
  (∀ x, x ∈ l → f x = Some (g x)) → omap f l = g <$> l.
Proof.
  induction l as [|a l IH]; intros H; [done |].
  csimpl. rewrite H by left. f_equal. apply IH. intros x Hx. apply H. by right.
Qed.

(** A search through the rows of a map. *)
Lemma existsb_map_false `{Countable K} {V} (f : K * V → bool) (m : gmap K V) :
  existsb f (map_to_list m) = false ↔ ∀ i x, m !! i = Some x → f (i, x) = false.
Proof.
  rewrite <-not_true_iff_false, existsb_exists. split.
  - intros Hn i x Hx. apply not_true_is_false. intros Hf. apply Hn. exists (i, x).
    split; [by apply list_elem_of_In, elem_of_map_to_list | done].
  - intros Hall ([i x]&Hin&Hf). apply list_elem_of_In, elem_of_map_to_list in Hin.
    by rewrite (Hall i x Hin) in Hf.
Qed.

(** ** Orders

    The [n]-th way to order the elements of a list: its mixed-radix digits say where
    each element goes among those that follow it. *)
Fixpoint shuffle {A} (n : nat) (l : list A) : list A :=
  match l with
  | [] => []
  | x :: l' =>
      let k := S (length l') in
      let s := shuffle (n `div` k)%nat l' in
      take (n `mod` k)%nat s ++ x :: drop (n `mod` k)%nat s
  end.

Lemma shuffle_Permutation {A} n (l : list A) : shuffle n l ≡ₚ l.
Proof.
  revert n. induction l as [|x l IH]; intros n; [done |]. cbn [shuffle].
  rewrite <-Permutation_middle, take_drop. by rewrite IH.
Qed.

(** Every order of the elements is one of them. *)
Lemma shuffle_all {A} (l l' : list A) : l' ≡ₚ l → ∃ n, shuffle n l = l'.
Proof.
  revert l'. induction l as [|x l IH]; intros l' Hp.
  { exists 0. by apply Permutation_nil_r in Hp as ->. }
  assert (Hx : x ∈ l') by (rewrite Hp; left). apply list_elem_of_split in Hx as (l1&l2&->).
  rewrite <-Permutation_middle in Hp. apply Permutation_cons_inv in Hp. destruct (IH _ Hp) as [n Hn].
  assert (Hlen : length l1 < S (length l)) by (rewrite <-(Permutation_length Hp), length_app; lia).
  exists (length l1 + n * S (length l)). cbn [shuffle].
  rewrite Nat.div_add, Nat.div_small, Nat.Div0.mod_add, Nat.mod_small by lia. simpl. rewrite Hn.
  by rewrite take_app_length, drop_app_length.
Qed.

(** ** Finite searches and well-founded updates *)

(** One position where [P] holds, or [Q] everywhere. *)
Lemma lookup_search {A} (P Q : nat → A → Prop) (l : list A) :
  (∀ i x, l !! i = Some x → P i x ∨ Q i x) →
  (∃ i x, l !! i = Some x ∧ P i x) ∨ ∀ i x, l !! i = Some x → Q i x.
Proof.
  revert P Q. induction l as [|a l IH]; intros P Q H; [by right |].
  destruct (H 0 a eq_refl) as [|Ha]; [left; by exists 0, a |].
  destruct (IH (λ i, P (S i)) (λ i, Q (S i))) as [(i&x&?&?)|Hl]; [by intros i; apply (H (S i)) | |].
  - left. by exists (S i), x.
  - right. intros [|i] x; [by intros [= <-] | apply Hl].
Qed.

Lemma maximal_exists {A} (R : relation A) `{!RelDecision R, !Irreflexive R, !Transitive R} (l : list A) :
  l ≠ [] → ∃ x, x ∈ l ∧ ∀ y, y ∈ l → ¬ R x y.
Proof.
  induction l as [|a l IH]; [done |]. intros _. destruct l as [|b l].
  { exists a. split; [left |]. intros y ->%list_elem_of_singleton. by apply irreflexivity. }
  destruct IH as (x&Hx&Hmax); [done |]. destruct (decide (R x a)) as [Hxa|Hxa].
  - exists a. split; [left |]. intros y [->|Hy]%elem_of_cons Hay; [by apply (irreflexivity R a) |].
    by apply (Hmax y Hy); transitivity a.
  - exists x. split; [by right |]. intros y [->|Hy]%elem_of_cons; [done | by apply Hmax].
Qed.

(** Descending in one component at a time. *)
Definition update_at {A} (R : relation A) (l' l : list A) : Prop :=
  ∃ i x x', l !! i = Some x ∧ R x' x ∧ l' = <[i := x']> l.

Lemma update_at_cons {A} (R : relation A) (a : A) (l : list A) :
  Acc R a → Acc (update_at R) l → Acc (update_at R) (a :: l).
Proof.
  intros Ha. revert l. induction Ha as [a _ IHa]. intros l Hl. induction Hl as [l Hl IHl].
  constructor. intros l' (i&x&x'&Hx&HR&->). destruct i as [|i]; simpl in *.
  - injection Hx as ->. apply IHa; [done | by constructor].
  - apply IHl. by exists i, x, x'.
Qed.

Lemma update_at_wf {A} (R : relation A) : well_founded R → well_founded (update_at R).
Proof.
  intros HR l. induction l as [|a l IH]; [|by apply update_at_cons].
  constructor. by intros l' (i&x&x'&[=]&_).
Qed.
