(* ===== verification/GoStd.v ===== *)
(** * The parts of Go's standard library the service uses

    Byte strings, [strconv]'s decimal integers, [math/big]'s decimal text and
    the [errors] package.  A Go string is a sequence of bytes: it is a [string]
    (bytes are [ascii]), and the routines that index into it work on the list
    of its bytes. *)

From Stdlib Require Import Ascii.
From Stdlib Require String.
From S2P Require Import Prelude.
From stdpp Require Import options.
Open Scope Z_scope.

Abbreviation bytes := (list ascii).
Abbreviation s2b := Stdlib.Strings.String.list_ascii_of_string.
Abbreviation b2s := Stdlib.Strings.String.string_of_list_ascii.

Lemma s2b_b2s b : s2b (b2s b) = b.
Proof. apply Stdlib.Strings.String.list_ascii_of_string_of_list_ascii. Qed.

Lemma b2s_s2b s : b2s (s2b s) = s.
Proof. apply Stdlib.Strings.String.string_of_list_ascii_of_string. Qed.

(** The double quote, byte 34. *)
Definition quote : ascii := "034"%char.

(** ** Decimal digits *)

Definition digit_val (c : ascii) : option Z :=
  let n := Z.of_N (N_of_ascii c) in
  if (48 <=? n) && (n <=? 57) then Some (n - 48) else None.

Definition digit_char (d : Z) : ascii := ascii_of_N (Z.to_N (48 + d)).

Definition is_digit (c : ascii) : bool :=
  match digit_val c with Some _ => true | None => false end.

(** The value of a run of decimal digits that follows the digits of [acc]. *)
Fixpoint parse_digits (acc : Z) (s : bytes) : option Z :=
  match s with
  | [] => Some acc
  | c :: s' => match digit_val c with
               | Some d => parse_digits (acc * 10 + d) s'
               | None => None
               end
  end.

(** An optional sign, as [strconv.ParseInt] and [big.Int.SetString] read it:
    [true] for a minus. *)
Definition split_sign (s : bytes) : bool * bytes :=
  match s with
  | "+"%char :: s' => (false, s')
  | "-"%char :: s' => (true, s')
  | _ => (false, s)
  end.

Inductive num_error := ErrSyntax | ErrRange.

(** [strconv.ParseUint(s, 10, bitSize)]: the first offending byte decides
    between a syntax and a range error. *)
Fixpoint parse_uint (maxVal n : Z) (s : bytes) : result num_error Z :=
  match s with
  | [] => Ok n
  | c :: s' =>
      match digit_val c with
      | None => Err ErrSyntax
      | Some d =>
          let n' := n * 10 + d in
          if maxVal <? n' then Err ErrRange else parse_uint maxVal n' s'
      end
  end.

(** [strconv.ParseInt(s, 10, bitSize)]. *)
Definition ParseInt (bitSize : Z) (s : bytes) : result num_error Z :=
  let '(neg, ds) := split_sign s in
  match ds with
  | [] => Err ErrSyntax
  | _ =>
      match parse_uint (2 ^ bitSize - 1) 0 ds with
      | Err e => Err e
      | Ok un =>
          let cutoff := 2 ^ (bitSize - 1) in
          if negb neg && (cutoff <=? un) then Err ErrRange
          else if neg && (cutoff <? un) then Err ErrRange
          else Ok (if neg then - un else un)
      end
  end.

(** [strconv.Atoi] on a 64-bit platform. *)
Definition Atoi (s : bytes) : result num_error Z := ParseInt 64 s.

(** [big.Int.SetString(s, 10)]. *)
Definition big_SetString (s : bytes) : option Z :=
  let '(neg, ds) := split_sign s in
  match ds with
  | [] => None
  | _ => match parse_digits 0 ds with
         | Some n => Some (if neg then - n else n)
         | None => None
         end
  end.

(** [big.Int.String] of a non-negative integer; the number of bits bounds the
    number of decimal digits. *)
Fixpoint dec_digits (fuel : nat) (n : Z) (acc : bytes) : bytes :=
  match fuel with
  | O => acc
  | S fuel' =>
      let acc' := digit_char (n mod 10) :: acc in
      if n <? 10 then acc' else dec_digits fuel' (n / 10) acc'
  end.

Definition nat_String (n : Z) : bytes := dec_digits (S (Z.to_nat (Z.log2 n))) n [].

Definition big_String (z : Z) : bytes :=
  if z <? 0 then "-"%char :: nat_String (- z) else nat_String z.

(** ** Facts about decimal text *)

Lemma digit_val_char d : 0 <= d <= 9 → digit_val (digit_char d) = Some d.
Proof.
  intros H. assert (d = 0 ∨ d = 1 ∨ d = 2 ∨ d = 3 ∨ d = 4 ∨ d = 5 ∨ d = 6 ∨
                    d = 7 ∨ d = 8 ∨ d = 9) as Hd by lia.
  repeat (destruct Hd as [->|Hd]; [done |]). by subst.
Qed.

Lemma digit_val_bounds c d : digit_val c = Some d → 0 <= d <= 9.
Proof. unfold digit_val. case_match eqn:E; intros; simplify_eq. lia. Qed.

Lemma parse_digits_app acc s1 s2 :
  parse_digits acc (s1 ++ s2) =
    match parse_digits acc s1 with Some n => parse_digits n s2 | None => None end.
Proof.
  revert acc. induction s1 as [|c s1 IH]; intros acc; simpl; [done |].
  destruct (digit_val c); [apply IH | done].
Qed.

Lemma parse_digits_zeros acc n :
  parse_digits acc (replicate n "0"%char) = Some (acc * 10 ^ Z.of_nat n).
Proof.
  revert acc. induction n as [|n IH]; intros acc; simpl parse_digits.
  - by rewrite Z.mul_1_r.
  - change (digit_val "0") with (Some 0). simpl. rewrite IH. f_equal.
    rewrite Nat2Z.inj_succ, Z.pow_succ_r by lia. lia.
Qed.

Lemma parse_digits_nonneg acc s n : 0 <= acc → parse_digits acc s = Some n → 0 <= n.
Proof.
  revert acc. induction s as [|c s IH]; intros acc Hacc; simpl; [by intros; simplify_eq |].
  destruct (digit_val c) as [d|] eqn:Ed; [|done].
  apply digit_val_bounds in Ed. apply IH. lia.
Qed.

(** The accumulator only shifts the value by the number of digits read. *)
Lemma parse_digits_shift acc s n :
  parse_digits 0 s = Some n →
  parse_digits acc s = Some (acc * 10 ^ Z.of_nat (length s) + n).
Proof.
  cut (∀ a b m, parse_digits a s = Some m →
         parse_digits (b + a) s = Some (b * 10 ^ Z.of_nat (length s) + m)).
  { intros H Hn. specialize (H 0 acc n Hn). by rewrite Z.add_0_r in H. }
  clear acc n. induction s as [|c s IH]; intros a b m; simpl.
  - intros; simplify_eq. f_equal. lia.
  - destruct (digit_val c) as [d|]; [|done]. intros Hm.
    replace ((b + a) * 10 + d) with (b * 10 + (a * 10 + d)) by lia.
    rewrite (IH (a * 10 + d) (b * 10) m Hm). f_equal.
    change (S (length s)) with (1 + length s)%nat. rewrite Nat2Z.inj_add, Z.pow_add_r by lia. lia.
Qed.

Lemma parse_digits_is_digit acc s n :
  parse_digits acc s = Some n → Forall (λ c, is_digit c = true) s.
Proof.
  revert acc. induction s as [|c s IH]; intros acc; simpl; [by constructor |].
  destruct (digit_val c) eqn:Ed; [|done]. intros H.
  constructor; [unfold is_digit; by rewrite Ed | by eapply IH].
Qed.

Lemma dec_digits_acc fuel n acc : dec_digits fuel n acc = dec_digits fuel n [] ++ acc.
Proof.
  revert n acc. induction fuel as [|fuel IH]; intros n acc; simpl; [done |].
  case_match; [done |]. rewrite IH, (IH (n / 10) [_]), <-app_assoc. done.
Qed.

Lemma parse_dec_digits fuel n :
  0 <= n → n < 10 ^ Z.of_nat fuel →
  parse_digits 0 (dec_digits fuel n []) = Some n.
Proof.
  revert n. induction fuel as [|fuel IH]; intros n Hn Hlt; [simpl in *; f_equal; lia |].
  rewrite Nat2Z.inj_succ, Z.pow_succ_r in Hlt by lia. simpl dec_digits.
  pose proof (Z.mod_pos_bound n 10 ltac:(lia)).
  case_match eqn:Hc.
  - simpl. rewrite digit_val_char by lia. f_equal. rewrite Z.mod_small; lia.
  - rewrite dec_digits_acc, parse_digits_app, IH.
    + simpl. rewrite digit_val_char by lia. f_equal.
      pose proof (Z.div_mod n 10 ltac:(lia)). lia.
    + apply Z.div_pos; lia.
    + apply Z.div_lt_upper_bound; lia.
Qed.

(** A non-negative integer is read back from its decimal text. *)
Lemma parse_nat_String n : 0 <= n → parse_digits 0 (nat_String n) = Some n.
Proof.
  intros Hn. apply parse_dec_digits; [done |].
  rewrite Nat2Z.inj_succ, Z2Nat.id by apply Z.log2_nonneg.
  destruct (decide (n = 0)) as [->|]; [done |].
  pose proof (Z.log2_spec n ltac:(lia)) as [_ Hlt].
  eapply Z.lt_le_trans; [exact Hlt |].
  apply Z.pow_le_mono_l. lia.
Qed.

Lemma nat_String_nonempty n : nat_String n ≠ [].
Proof.
  unfold nat_String. simpl. case_match; [done |].
  rewrite dec_digits_acc. intros [_ ?]%app_eq_nil. done.
Qed.

Lemma nat_String_digits n : 0 <= n → Forall (λ c, is_digit c = true) (nat_String n).
Proof. intros Hn. eapply parse_digits_is_digit, parse_nat_String, Hn. Qed.

Lemma split_sign_digits s :
  Forall (λ c, is_digit c = true) s → split_sign s = (false, s).
Proof.
  destruct s as [|c s]; [done |]. intros Hs. inversion_clear Hs as [|? ? Hc _].
  destruct c as [[] [] [] [] [] [] [] []]; done.
Qed.

(** ** [strings] *)

(** [strings.IndexAny(s, "Ee")], as the split around the first such byte. *)
Fixpoint split_exponent (s : bytes) : bytes * option bytes :=
  match s with
  | [] => ([], None)
  | c :: s' =>
      if bool_decide (c = "E"%char ∨ c = "e"%char) then ([], Some s')
      else let '(m, e) := split_exponent s' in (c :: m, e)
  end.

Lemma split_exponent_none s :
  Forall (λ c, c ≠ "E"%char ∧ c ≠ "e"%char) s → split_exponent s = (s, None).
Proof.
  induction 1 as [|c s [H1 H2] Hs IH]; [done |]. simpl.
  rewrite bool_decide_false by (by intros [?|?]). by rewrite IH.
Qed.

(** ** [errors]

    An error value is a sentinel declared with [errors.New], an error wrapped
    with [fmt.Errorf("prefix: %w", err)], the server's [pgconn.PgError], or an
    error whose type nobody inspects.  Sentinels are compared by identity; the
    sentinels of the program have distinct texts, so the text is the identity. *)

Inductive error : Type :=
| Sentinel (msg : string)
| Wrapf (prefix : string) (inner : error)
| PgError (Code ConstraintName Detail Message : string)
| Opaque (msg : string).

#[export] Instance error_eq_dec : EqDecision error.
Proof. solve_decision. Defined.



(** [err.Error()]. *)
Fixpoint Error (e : error) : string :=
  match e with
  | Sentinel m => m
  | Wrapf p e' => p +:+ ": " +:+ Error e'
  | PgError c _ _ m => "ERROR: " +:+ m +:+ " (SQLSTATE " +:+ c +:+ ")"
  | Opaque m => m
  end.

(** [errors.Is(err, target)]. *)
Fixpoint errors_Is (e target : error) : bool :=
  bool_decide (e = target) ||
  match e with Wrapf _ e' => errors_Is e' target | _ => false end.

Record pg_fields := PgFields {
  pg_Code : string; pg_ConstraintName : string; pg_Detail : string; pg_Message : string }.

(** [errors.As(err, &pgErr)] for [pgErr *pgconn.PgError]. *)
Fixpoint errors_As_PgError (e : error) : option pg_fields :=
  match e with
  | PgError c n d m => Some (PgFields c n d m)
  | Wrapf _ e' => errors_As_PgError e'
  | _ => None
  end.

Lemma errors_Is_refl e : errors_Is e e = true.
Proof. destruct e; simpl; by rewrite bool_decide_true. Qed.

Lemma errors_Is_wrap p e target :
  errors_Is e target = true → errors_Is (Wrapf p e) target = true.
Proof. intros H. simpl. rewrite H. apply orb_true_r. Qed.

(** [errors.Is] against a sentinel looks through every wrapper. *)
Lemma errors_Is_Sentinel_wrap p e m :
  errors_Is (Wrapf p e) (Sentinel m) = errors_Is e (Sentinel m).
Proof. done. Qed.
