(* ===== verification/Decimal.v ===== *)
(** * shopspring/decimal

    The operations of [vendor/github.com/shopspring/decimal/decimal.go] that
    [internal/money] and the store use.  A [Decimal] is [value * 10 ^ exp].
    A nil [*big.Int] stands for zero in the package (each method calls
    [ensureInitialized] or tests for nil), so [value] is an integer here. *)

From Stdlib Require Import Ascii.
From S2P Require Import Prelude GoStd.
From stdpp Require Import options.
Open Scope Z_scope.

Module Decimal.

Record Decimal := MkDecimal { value : Z; exp : Z }.

#[global] Instance Decimal_eq_dec : EqDecision Decimal.
Proof. solve_decision. Defined.

Definition New (v e : Z) : Decimal := MkDecimal v e.
Definition NewFromInt (v : Z) : Decimal := MkDecimal v 0.
Definition Zero : Decimal := New 0 1.

(** ** Arithmetic *)

Definition rescale (d : Decimal) (e : Z) : Decimal :=
  if d.(exp) =? e then d
  else
    let diff := Z.abs (e - d.(exp)) in
    let expScale := 10 ^ diff in
    if d.(exp) <? e then MkDecimal (Z.quot d.(value) expScale) e
    else MkDecimal (d.(value) * expScale) e.

Definition RescalePair (d1 d2 : Decimal) : Decimal * Decimal :=
  if d1.(exp) <? d2.(exp) then (d1, rescale d2 d1.(exp))
  else if d2.(exp) <? d1.(exp) then (rescale d1 d2.(exp), d2)
  else (d1, d2).

Definition Add (d d2 : Decimal) : Decimal :=
  let '(rd, rd2) := RescalePair d d2 in MkDecimal (rd.(value) + rd2.(value)) rd.(exp).

Definition Sub (d d2 : Decimal) : Decimal :=
  let '(rd, rd2) := RescalePair d d2 in MkDecimal (rd.(value) - rd2.(value)) rd.(exp).

Definition Neg (d : Decimal) : Decimal := MkDecimal (- d.(value)) d.(exp).

Definition Cmp (d d2 : Decimal) : comparison :=
  if d.(exp) =? d2.(exp) then Z.compare d.(value) d2.(value)
  else let '(rd, rd2) := RescalePair d d2 in Z.compare rd.(value) rd2.(value).

Definition Equal (d d2 : Decimal) : bool :=
  match Cmp d d2 with Eq => true | _ => false end.

Definition LessThan (d d2 : Decimal) : bool :=
  match Cmp d d2 with Lt => true | _ => false end.

Definition Sign (d : Decimal) : Z := Z.sgn d.(value).
Definition IsPositive (d : Decimal) : bool := Sign d =? 1.
Definition IsZero (d : Decimal) : bool := Sign d =? 0.

(** Truncate to one digit more than asked, add half a unit away from zero, and
    divide by ten: [big.Int.DivMod] is Euclidean, so a negative quotient with a
    remainder is moved back up by one. *)
Definition Round (d : Decimal) (places : Z) : Decimal :=
  if d.(exp) =? - places then d
  else
    let ret := rescale d (- places - 1) in
    let v1 := if Z.sgn ret.(value) <? 0 then ret.(value) - 5 else ret.(value) + 5 in
    let q := v1 / 10 in
    let m := v1 mod 10 in
    let v2 := if (Z.sgn q <? 0) && negb (m =? 0) then q + 1 else q in
    MkDecimal v2 (ret.(exp) + 1).

(** ** Text *)

(** The loop that drops the trailing zeros of the fractional part. *)
Fixpoint drop_zeros (rev_frac : bytes) : bytes :=
  match rev_frac with
  | "0"%char :: s => drop_zeros s
  | s => s
  end.

Definition trim_zeros (frac : bytes) : bytes := reverse (drop_zeros (reverse frac)).

Definition string_ (trimTrailingZeros : bool) (d : Decimal) : bytes :=
  if 0 <=? d.(exp) then big_String (rescale d 0).(value)
  else
    let str := nat_String (Z.abs d.(value)) in
    let k := Z.to_nat (- d.(exp)) in
    let n := length str in
    let '(intPart, fractionalPart) :=
      if (k <? n)%nat then (take (n - k) str, drop (n - k) str)
      else (["0"%char], replicate (k - n) "0"%char ++ str) in
    let fractionalPart :=
      if trimTrailingZeros then trim_zeros fractionalPart else fractionalPart in
    let number :=
      match fractionalPart with
      | [] => intPart
      | _ => intPart ++ "."%char :: fractionalPart
      end in
    if Z.sgn d.(value) <? 0 then "-"%char :: number else number.

Definition String (d : Decimal) : string := b2s (string_ true d).

Definition StringFixed (d : Decimal) (places : Z) : string :=
  b2s (string_ false (Round d places)).

(** The scan for the decimal point: [None] when a second one is met. *)
Fixpoint point_index (i : nat) (pIndex : option nat) (s : bytes) : option (option nat) :=
  match s with
  | [] => Some pIndex
  | c :: s' =>
      if bool_decide (c = "."%char) then
        match pIndex with
        | Some _ => None
        | None => point_index (S i) (Some i) s'
        end
      else point_index (S i) pIndex s'
  end.

(** The integer text is read with [strconv.ParseInt] when it is short enough
    not to overflow, with [big.Int.SetString] otherwise. *)
Definition parse_int_text (intString : bytes) : option Z :=
  if (length intString <=? 18)%nat then
    match ParseInt 64 intString with Ok n => Some n | Err _ => None end
  else big_SetString intString.

Definition MinInt32 : Z := - 2 ^ 31.
Definition MaxInt32 : Z := 2 ^ 31 - 1.

Definition convert_error (value : bytes) (reason : string) : error :=
  Opaque ("can't convert " +:+ b2s value +:+ " to decimal" +:+ reason).

Definition parse_exponent (value : bytes) : result error (bytes * Z) :=
  match split_exponent value with
  | (_, None) => Ok (value, 0)
  | (mantissa, Some e) =>
      match ParseInt 32 e with
      | Ok expInt => Ok (mantissa, expInt)
      | Err ErrRange => Err (convert_error value ": fractional part too long")
      | Err ErrSyntax => Err (convert_error value ": exponent is not numeric")
      end
  end.

Definition NewFromBytes (originalInput : bytes) : result error Decimal :=
  let^ p := parse_exponent originalInput in
  let '(value, exp0) := p in
  match point_index 0 None value with
  | None => Err (convert_error value ": too many .s")
  | Some pIndex =>
      let '(intString, exp) :=
        match pIndex with
        | None => (value, exp0)
        | Some i => (take i value ++ drop (S i) value,
                     exp0 - Z.of_nat (length (drop (S i) value)))
        end in
      match parse_int_text intString with
      | None => Err (convert_error value "")
      | Some dValue =>
          if (exp <? MinInt32) || (MaxInt32 <? exp)
          then Err (convert_error originalInput ": fractional part too long")
          else Ok (MkDecimal dValue exp)
      end
  end.

Definition NewFromString (s : string) : result error Decimal := NewFromBytes (s2b s).

(** ** Database values: [driver.Valuer] and [sql.Scanner] *)

Definition Value (d : Decimal) : string := String d.

Definition unquoteIfQuoted (s : bytes) : bytes :=
  if (2 <? length s)%nat && bool_decide (list.head s = Some quote)
     && bool_decide (list.last s = Some quote)
  then take (length s - 2) (drop 1 s)
  else s.

(** [Scan] of the text the driver hands over for a [NUMERIC] column. *)
Definition Scan (s : string) : result error Decimal := NewFromBytes (unquoteIfQuoted (s2b s)).

(** ** Rounding *)

(** The integer nearest to [n / m] for [m > 0], halves going away from zero. *)
Definition round_half_away (n m : Z) : Z := Z.sgn n * ((2 * Z.abs n + m) / (2 * m)).

Lemma round_half_away_nearest n m :
  0 < m → 2 * Z.abs (round_half_away n m * m - n) <= m.
Proof.
  intros Hm. unfold round_half_away.
  pose proof (Z.div_mod (2 * Z.abs n + m) (2 * m) ltac:(lia)).
  pose proof (Z.mod_pos_bound (2 * Z.abs n + m) (2 * m) ltac:(lia)).
  set (q := (2 * Z.abs n + m) / (2 * m)) in *. clearbody q.
  destruct (Z.sgn_spec n) as [[? ->]|[[? ->]|[? ->]]]; nia.
Qed.

(** Dropping [k] digits, adding 5 and dropping one more digit rounds the whole
    number at once. *)
Lemma div_half_up v k :
  0 <= v → 0 <= k →
  (v / 10 ^ k + 5) / 10 = (2 * v + 10 ^ (k + 1)) / (2 * 10 ^ (k + 1)).
Proof.
  intros Hv Hk.
  assert (0 < 10 ^ k) by (apply Z.pow_pos_nonneg; lia).
  rewrite Z.pow_add_r, Z.pow_1_r by lia.
  replace (2 * v + 10 ^ k * 10) with ((v + 5 * 10 ^ k) * 2) by lia.
  replace (2 * (10 ^ k * 10)) with ((10 ^ k * 10) * 2) by lia.
  rewrite Z.div_mul_cancel_r by lia.
  rewrite <-Z.div_div by lia. by rewrite Z.div_add by lia.
Qed.

(** The sign-aware last step of [Round] is division away from zero. *)
Lemma round_last_step q :
  let v1 := if Z.sgn q <? 0 then q - 5 else q + 5 in
  (if (Z.sgn (v1 / 10) <? 0) && negb (v1 mod 10 =? 0) then v1 / 10 + 1 else v1 / 10)
  = Z.sgn q * ((Z.abs q + 5) / 10).
Proof.
  simpl. destruct (Z.sgn_spec q) as [[Hq ->]|[[Hq ->]|[Hq ->]]]; simpl.
  - rewrite Z.abs_eq by lia.
    pose proof (Z.div_pos (q + 5) 10 ltac:(lia) ltac:(lia)) as Hpos.
    destruct (Z.sgn_spec ((q + 5) / 10)) as [[? ->]|[[? ->]|[? ->]]]; simpl; lia.
  - subst q. done.
  - rewrite Z.abs_neq by lia. replace (q - 5) with (- (- q + 5)) by lia.
    set (n := - q + 5). assert (0 < n) by lia.
    pose proof (Z.div_mod n 10 ltac:(lia)). pose proof (Z.mod_pos_bound n 10 ltac:(lia)).
    destruct (decide (n mod 10 = 0)) as [Hm|Hm].
    + rewrite Z.mod_opp_l_z, Z.div_opp_l_z by lia. rewrite andb_false_r. lia.
    + rewrite Z.mod_opp_l_nz, Z.div_opp_l_nz by lia.
      assert (0 <= n / 10) by (apply Z.div_pos; lia).
      replace (Z.sgn (- (n / 10) - 1) <? 0) with true; [|symmetry; apply Z.ltb_lt; lia].
      replace (10 - n mod 10 =? 0) with false; [simpl; lia | symmetry; apply Z.eqb_neq; lia].
Qed.

Lemma quot_sgn_abs v m : 0 < m → Z.quot v m = Z.sgn v * (Z.abs v / m).
Proof.
  intros Hm. rewrite Z.quot_div by lia. rewrite (Z.sgn_pos m), (Z.abs_eq m) by lia.
  lia.
Qed.

Lemma Round_exp d p : (Round d p).(exp) = - p.
Proof.
  unfold Round. case_match eqn:E; [lia |].
  simpl. unfold rescale. repeat case_match; simpl; lia.
Qed.

(** A number with no more digits than asked is kept exactly. *)
Lemma Round_exact d p :
  - p <= d.(exp) → (Round d p).(value) = d.(value) * 10 ^ (d.(exp) + p).
Proof.
  intros Hexp. unfold Round. case_match eqn:E.
  { replace (d.(exp) + p) with 0 by lia. lia. }
  assert (Hr : rescale d (- p - 1) = MkDecimal (d.(value) * 10 ^ (d.(exp) + p + 1)) (- p - 1)).
  { unfold rescale. replace (d.(exp) =? - p - 1) with false by (symmetry; apply Z.eqb_neq; lia).
    replace (d.(exp) <? - p - 1) with false by (symmetry; apply Z.ltb_ge; lia).
    do 3 f_equal. lia. }
  rewrite Hr. cbn [value exp]. rewrite round_last_step.
  rewrite Z.pow_add_r, Z.pow_1_r by lia. set (t := d.(value) * 10 ^ (d.(exp) + p)).
  replace (d.(value) * (10 ^ (d.(exp) + p) * 10)) with (t * 10) by (subst t; lia).
  rewrite Z.abs_mul, Z.sgn_mul. change (Z.abs 10) with 10. change (Z.sgn 10) with 1.
  rewrite Z.add_comm, Z.div_add by lia. change (5 / 10) with 0. lia.
Qed.

(** Otherwise the excess digits are rounded half away from zero. *)
Lemma Round_half_away d p :
  d.(exp) < - p →
  (Round d p).(value) = round_half_away d.(value) (10 ^ (- p - d.(exp))).
Proof.
  intros Hexp. unfold Round. case_match eqn:E; [lia |].
  set (k := - p - 1 - d.(exp)). assert (0 <= k) by lia.
  assert (0 < 10 ^ k) by (apply Z.pow_pos_nonneg; lia).
  assert (Hr : rescale d (- p - 1) = MkDecimal (Z.quot d.(value) (10 ^ k)) (- p - 1)).
  { unfold rescale. destruct (d.(exp) =? - p - 1) eqn:E1.
    - replace k with 0 by lia. rewrite Z.pow_0_r, Z.quot_1_r. destruct d; simpl in *. f_equal. lia.
    - replace (d.(exp) <? - p - 1) with true by (symmetry; apply Z.ltb_lt; lia).
      do 3 f_equal. lia. }
  rewrite Hr. cbn [value exp]. rewrite round_last_step, quot_sgn_abs by lia.
  unfold round_half_away. replace (- p - d.(exp)) with (k + 1) by lia.
  rewrite <-(div_half_up (Z.abs d.(value))) by lia.
  assert (0 <= Z.abs d.(value) / 10 ^ k) by (apply Z.div_pos; lia).
  rewrite Z.abs_mul, (Z.abs_eq (_ / _)), Z.sgn_mul by lia.
  destruct (Z.sgn_spec d.(value)) as [[? ->]|[[? ->]|[? ->]]]; simpl Z.abs;
    rewrite ?Z.mul_1_l; [| lia |].
  all: destruct (Z.sgn_spec (Z.abs d.(value) / 10 ^ k)) as [[? ->]|[[<- ->]|[? ->]]]; try lia;
    try (rewrite ?Z.mul_1_r; lia).
  all: change ((0 + 5) / 10) with 0; lia.
Qed.

(** ** Exactness of the arithmetic on decimals with the same exponent *)

Lemma Add_same_exp d1 d2 :
  d1.(exp) = d2.(exp) → Add d1 d2 = MkDecimal (d1.(value) + d2.(value)) d1.(exp).
Proof. destruct d1, d2; simpl. intros <-. unfold Add, RescalePair; simpl. by rewrite Z.ltb_irrefl. Qed.

Lemma Sub_same_exp d1 d2 :
  d1.(exp) = d2.(exp) → Sub d1 d2 = MkDecimal (d1.(value) - d2.(value)) d1.(exp).
Proof. destruct d1, d2; simpl. intros <-. unfold Sub, RescalePair; simpl. by rewrite Z.ltb_irrefl. Qed.

Lemma Cmp_same_exp d1 d2 :
  d1.(exp) = d2.(exp) → Cmp d1 d2 = (d1.(value) ?= d2.(value)).
Proof. intros H. unfold Cmp. by rewrite H, Z.eqb_refl. Qed.

(** ** Reading integers *)

Lemma parse_digits_upper acc s n :
  0 <= acc → parse_digits acc s = Some n → n < (acc + 1) * 10 ^ Z.of_nat (length s).
Proof.
  revert acc. induction s as [|c s IH]; intros acc Hacc; simpl parse_digits.
  - intros; simplify_eq/=. lia.
  - destruct (digit_val c) as [d|] eqn:Ed; [|done]. apply digit_val_bounds in Ed.
    intros Hn. apply IH in Hn; [|lia].
    change (length (c :: s)) with (1 + length s)%nat.
    rewrite Nat2Z.inj_add, Z.pow_add_r by lia. simpl.
    assert (0 < 10 ^ Z.of_nat (length s)) by (apply Z.pow_pos_nonneg; lia). nia.
Qed.

Lemma parse_digits_mono acc s n : 0 <= acc → parse_digits acc s = Some n → acc <= n.
Proof.
  revert acc. induction s as [|c s IH]; intros acc Hacc; simpl; [intros; by simplify_eq |].
  destruct (digit_val c) as [d|] eqn:Ed; [|done]. apply digit_val_bounds in Ed.
  intros Hn. apply IH in Hn; lia.
Qed.

Lemma parse_uint_ok maxVal acc s n :
  0 <= acc → parse_digits acc s = Some n → n <= maxVal → parse_uint maxVal acc s = Ok n.
Proof.
  revert acc. induction s as [|c s IH]; intros acc Hacc; simpl; [intros; by simplify_eq |].
  destruct (digit_val c) as [d|] eqn:Ed; [|done]. apply digit_val_bounds in Ed.
  intros Hn Hmax. pose proof (parse_digits_mono (acc * 10 + d) s n ltac:(lia) Hn).
  replace (maxVal <? acc * 10 + d) with false by (symmetry; apply Z.ltb_ge; lia).
  apply IH; [lia | done | done].
Qed.

Lemma parse_uint_inv maxVal acc s n : parse_uint maxVal acc s = Ok n → parse_digits acc s = Some n.
Proof.
  revert acc. induction s as [|c s IH]; intros acc; simpl; [intros; by simplify_eq |].
  destruct (digit_val c) as [d|]; [|done]. case_match; [done |]. apply IH.
Qed.

Lemma split_sign_length s neg ds : split_sign s = (neg, ds) → (length ds <= length s)%nat.
Proof.
  unfold split_sign. intros H.
  destruct s as [|c s]; [by simplify_eq |].
  destruct c as [[] [] [] [] [] [] [] []]; simplify_eq/=; lia.
Qed.

(** The [int64] shortcut of [NewFromString] computes what [big.Int.SetString]
    computes: eighteen characters cannot overflow. *)
Lemma parse_int_text_big s : parse_int_text s = big_SetString s.
Proof.
  unfold parse_int_text. case_match eqn:Hlen; [|done]. apply Nat.leb_le in Hlen.
  unfold ParseInt, big_SetString. destruct (split_sign s) as [neg ds] eqn:Hs.
  apply split_sign_length in Hs. destruct ds as [|c ds]; [done |].
  destruct (parse_digits 0 (c :: ds)) as [n|] eqn:Hp.
  - pose proof (parse_digits_nonneg 0 _ _ ltac:(lia) Hp).
    pose proof (parse_digits_upper 0 _ _ ltac:(lia) Hp) as Hup.
    assert (10 ^ Z.of_nat (length (c :: ds)) <= 10 ^ 18) by (apply Z.pow_le_mono_r; lia).
    rewrite (parse_uint_ok _ 0 _ n) by (done || lia).
    replace (2 ^ (64 - 1) <=? n) with false by (symmetry; apply Z.leb_gt; lia).
    replace (2 ^ (64 - 1) <? n) with false by (symmetry; apply Z.ltb_ge; lia).
    by rewrite !andb_false_r.
  - destruct (parse_uint _ 0 (c :: ds)) as [n|e] eqn:Hu; [|done].
    apply parse_uint_inv in Hu. congruence.
Qed.

(** ** Printing and reading back *)

Abbreviation digits s := (Forall (λ c, is_digit c = true) s).

Lemma digit_not_special c :
  is_digit c = true → c ≠ "E"%char ∧ c ≠ "e"%char ∧ c ≠ "."%char ∧ c ≠ quote.
Proof. destruct c as [[] [] [] [] [] [] [] []]; done. Qed.

Lemma point_index_none i p s : Forall (λ c, c ≠ "."%char) s → point_index i p s = Some p.
Proof.
  intros Hs. revert i. induction Hs as [|c s Hc Hs IH]; intros i; simpl; [done |].
  by rewrite bool_decide_false.
Qed.

Lemma point_index_some i s1 s2 :
  Forall (λ c, c ≠ "."%char) s1 → Forall (λ c, c ≠ "."%char) s2 →
  point_index i None (s1 ++ "."%char :: s2) = Some (Some (i + length s1)%nat).
Proof.
  intros Hs Hs2. revert i. induction Hs as [|c s Hc Hs IH]; intros i; simpl.
  - rewrite point_index_none by done. do 2 f_equal. lia.
  - rewrite bool_decide_false by done. rewrite IH. do 2 f_equal. lia.
Qed.

Definition sign_text (neg : bool) : bytes := if neg then ["-"%char] else [].

Definition point_text (frac : bytes) : bytes :=
  match frac with [] => [] | _ => "."%char :: frac end.

Lemma big_SetString_sign neg ds n :
  ds ≠ [] → digits ds → parse_digits 0 ds = Some n →
  big_SetString (sign_text neg ++ ds) = Some (if neg then - n else n).
Proof.
  intros Hne Hds Hn. unfold big_SetString. destruct neg; simpl.
  - destruct ds; [done |]. by rewrite Hn.
  - rewrite split_sign_digits by done. destruct ds; [done |]. by rewrite Hn.
Qed.

Lemma digits_no_point s : digits s → Forall (λ c, c ≠ "."%char) s.
Proof. intros H. eapply Forall_impl; [exact H |]. intros c Hc. by apply digit_not_special. Qed.

Lemma sign_no_point neg s : digits s → Forall (λ c, c ≠ "."%char) (sign_text neg ++ s).
Proof. intros H. apply Forall_app. split; [by destruct neg; repeat constructor | by apply digits_no_point]. Qed.

Lemma plain_no_exponent neg ip frac :
  digits ip → digits frac →
  Forall (λ c, c ≠ "E"%char ∧ c ≠ "e"%char) (sign_text neg ++ ip ++ point_text frac).
Proof.
  intros Hip Hfr.
  assert (∀ s, digits s → Forall (λ c, c ≠ "E"%char ∧ c ≠ "e"%char) s) as Hd.
  { intros s Hs. eapply Forall_impl; [exact Hs |]. intros c Hc.
    by destruct (digit_not_special c Hc) as (?&?&_). }
  rewrite !Forall_app. split_and!; [by destruct neg; repeat constructor | by apply Hd |].
  destruct frac as [|c frac]; cbn [point_text]; [constructor |].
  constructor; [done | by apply Hd].
Qed.

(** Reading a plain decimal: an optional minus, digits, and possibly a point
    followed by more digits. *)
Lemma NewFromBytes_plain neg ip frac n :
  ip ≠ [] → digits ip → digits frac →
  parse_digits 0 (ip ++ frac) = Some n →
  Z.of_nat (length frac) <= 2 ^ 31 →
  NewFromBytes (sign_text neg ++ ip ++ point_text frac)
  = Ok (MkDecimal (if neg then - n else n) (- Z.of_nat (length frac))).
Proof.
  intros Hne Hip Hfr Hn Hlen. unfold NewFromBytes, parse_exponent.
  rewrite split_exponent_none by by apply plain_no_exponent.
  assert (digits (ip ++ frac)) by by apply Forall_app.
  assert (ip ++ frac ≠ []) by (intros [? _]%app_eq_nil; done).
  assert (Hb : big_SetString (sign_text neg ++ ip ++ frac) = Some (if neg then - n else n)).
  { by apply big_SetString_sign. }
  assert (Hr : (- Z.of_nat (length frac) <? MinInt32)
               || (MaxInt32 <? - Z.of_nat (length frac)) = false).
  { unfold MinInt32, MaxInt32. apply orb_false_iff.
    split; [apply Z.ltb_ge | apply Z.ltb_ge]; lia. }
  destruct frac as [|c frac]; cbn [point_text].
  - rewrite !app_nil_r in *. rewrite point_index_none by by apply sign_no_point.
    rewrite parse_int_text_big, Hb. simpl. done.
  - rewrite (app_assoc _ ip).
    rewrite point_index_some by (by apply sign_no_point || by apply digits_no_point).
    rewrite Nat.add_0_l, take_app_length.
    replace (drop (S (length (sign_text neg ++ ip))) ((sign_text neg ++ ip) ++ "."%char :: c :: frac))
      with (c :: frac).
    2:{ rewrite drop_app_ge by lia. by rewrite Nat.sub_succ_l, Nat.sub_diag by lia. }
    rewrite <-app_assoc, parse_int_text_big, Hb. rewrite Z.sub_0_l, Hr. done.
Qed.

Lemma drop_zeros_spec s : ∃ j, s = replicate j "0"%char ++ drop_zeros s.
Proof.
  induction s as [|c s [j IH]]; [by exists 0%nat |]. simpl.
  destruct c as [[] [] [] [] [] [] [] []]; simpl; try by exists 0%nat.
  exists (S j). simpl. by rewrite <-IH.
Qed.

Lemma trim_zeros_spec s : ∃ j, s = trim_zeros s ++ replicate j "0"%char.
Proof.
  destruct (drop_zeros_spec (reverse s)) as [j Hj]. exists j. unfold trim_zeros.
  rewrite <-(reverse_involutive s) at 1. rewrite Hj at 1.
  by rewrite reverse_app, reverse_replicate.
Qed.

(** The integer and fractional digits [string] writes for a negative exponent. *)
Definition int_frac (v k : Z) : bytes * bytes :=
  let str := nat_String v in
  let k := Z.to_nat k in
  let n := length str in
  if (k <? n)%nat then (take (n - k) str, drop (n - k) str)
  else (["0"%char], replicate (k - n) "0"%char ++ str).

Lemma int_frac_spec v k ip frac :
  0 <= v → 0 <= k → int_frac v k = (ip, frac) →
  ip ≠ [] ∧ digits ip ∧ digits frac ∧ parse_digits 0 (ip ++ frac) = Some v
  ∧ Z.of_nat (length frac) = k.
Proof.
  intros Hv Hk. unfold int_frac. pose proof (parse_nat_String v Hv) as Hp.
  pose proof (nat_String_digits v Hv) as Hd. set (str := nat_String v) in *.
  destruct (Nat.ltb_spec (Z.to_nat k) (length str)); intros; simplify_eq.
  - split_and!.
    + intros Hnil. apply (f_equal length) in Hnil. rewrite length_take in Hnil. simpl in Hnil. lia.
    + by apply Forall_take.
    + by apply Forall_drop.
    + by rewrite take_drop.
    + rewrite length_drop. lia.
  - split_and!; [done | by repeat constructor | | |].
    + apply Forall_app. split; [by apply Forall_replicate | done].
    + simpl. rewrite parse_digits_app, parse_digits_zeros. simpl. done.
    + rewrite length_app, length_replicate. lia.
Qed.

Lemma string_neg_exp trim d :
  d.(exp) < 0 →
  string_ trim d =
    (let '(ip, frac) := int_frac (Z.abs d.(value)) (- d.(exp)) in
     sign_text (d.(value) <? 0) ++ ip ++ point_text (if trim then trim_zeros frac else frac)).
Proof.
  intros He. unfold string_, int_frac.
  replace (0 <=? d.(exp)) with false by (symmetry; apply Z.leb_gt; lia).
  replace (Z.sgn d.(value) <? 0) with (d.(value) <? 0).
  2:{ destruct (Z.sgn_spec d.(value)) as [[? ->]|[[? ->]|[? ->]]];
        [apply Z.ltb_ge | apply Z.ltb_ge | apply Z.ltb_lt]; lia. }
  set (str := nat_String _). destruct (_ <? length str)%nat.
  all: cbn zeta iota beta.
  all: match goal with |- context [point_text ?f] => generalize f; intros fr end.
  all: destruct fr, (d.(value) <? 0); cbn [point_text sign_text app]; by rewrite ?app_nil_r.
Qed.

Lemma signed_abs v : (if v <? 0 then - Z.abs v else Z.abs v) = v.
Proof. destruct (Z.ltb_spec v 0); lia. Qed.

(** Untrimmed text is read back to the very same decimal. *)
Lemma NewFromBytes_string_false d :
  MinInt32 <= d.(exp) < 0 → NewFromBytes (string_ false d) = Ok d.
Proof.
  unfold MinInt32. intros He. rewrite string_neg_exp by lia.
  destruct (int_frac _ _) as [ip frac] eqn:Hif.
  apply int_frac_spec in Hif as (?&?&?&Hn&Hl); [|lia|lia].
  rewrite (NewFromBytes_plain _ _ _ (Z.abs d.(value))) by (done || lia).
  rewrite signed_abs, Hl, Z.opp_involutive. by destruct d.
Qed.

(** Trimmed text is read back to a decimal with fewer digits and the same value. *)
Lemma NewFromBytes_string_true d :
  MinInt32 <= d.(exp) < 0 →
  ∃ d', NewFromBytes (string_ true d) = Ok d' ∧ d.(exp) <= d'.(exp) <= 0
        ∧ d.(value) = d'.(value) * 10 ^ (d'.(exp) - d.(exp)).
Proof.
  unfold MinInt32. intros He. rewrite string_neg_exp by lia.
  destruct (int_frac _ _) as [ip frac] eqn:Hif.
  apply int_frac_spec in Hif as (?&Hip&Hfr&Hn&Hl); [|lia|lia].
  destruct (trim_zeros_spec frac) as [j Hj].
  rewrite Hj, Forall_app in Hfr. destruct Hfr as [Hfr _].
  rewrite Hj, app_assoc, parse_digits_app in Hn.
  destruct (parse_digits 0 (ip ++ trim_zeros frac)) as [n|] eqn:Hp; [|done].
  rewrite parse_digits_zeros in Hn. injection Hn as Hn.
  rewrite Hj, length_app, length_replicate in Hl.
  rewrite (NewFromBytes_plain _ _ _ n) by (done || lia).
  eexists. split; [done |]. cbn [value exp]. split; [lia |].
  replace (- Z.of_nat (length (trim_zeros frac)) - d.(exp)) with (Z.of_nat j) by lia.
  destruct (Z.ltb_spec d.(value) 0); lia.
Qed.

End Decimal.
