(* ===== verification/Money.v ===== *)
(** * internal/money

    [Money] wraps a [Decimal]; every constructor rounds to four decimal places,
    the scale of the [NUMERIC(20,4)] columns.  [units] is the amount counted in
    ten-thousandths. *)

From Stdlib Require Import Ascii.
From S2P Require Import Prelude GoStd Decimal.
From stdpp Require Import options.
Open Scope Z_scope.

Module Money.

Record Money := MkMoney { d : Decimal.Decimal }.

#[global] Instance Money_eq_dec : EqDecision Money.
Proof. solve_decision. Defined.

Definition FromString (s : string) : result error Money :=
  match Decimal.NewFromString s with
  | Err e => Err (Wrapf "money.FromString" e)
  | Ok x => Ok (MkMoney (Decimal.Round x 4))
  end.

Definition FromInt (n : Z) : Money := MkMoney (Decimal.Round (Decimal.NewFromInt n) 4).
Definition Zero : Money := MkMoney (Decimal.Round Decimal.Zero 4).
Definition NewFromDecimal (x : Decimal.Decimal) : Money := MkMoney (Decimal.Round x 4).

(** Go's zero value of the struct: a nil [big.Int] and exponent 0. *)
Definition zero_value : Money := MkMoney (Decimal.MkDecimal 0 0).

Definition Add (m other : Money) : Money := MkMoney (Decimal.Round (Decimal.Add m.(d) other.(d)) 4).
Definition Sub (m other : Money) : Money := MkMoney (Decimal.Round (Decimal.Sub m.(d) other.(d)) 4).
Definition Neg (m : Money) : Money := MkMoney (Decimal.Round (Decimal.Neg m.(d)) 4).

Definition IsPositive (m : Money) : bool := Decimal.IsPositive m.(d).
Definition IsZero (m : Money) : bool := Decimal.IsZero m.(d).
Definition LessThan (m other : Money) : bool := Decimal.LessThan m.(d) other.(d).
Definition Equal (m other : Money) : bool := Decimal.Equal m.(d) other.(d).

Definition String (m : Money) : string := Decimal.StringFixed m.(d) 4.
Definition Decimal (m : Money) : Decimal.Decimal := m.(d).

Definition MarshalJSON (m : Money) : bytes := quote :: s2b (String m) ++ [quote].

Definition strip_quotes (s : bytes) : bytes :=
  if (2 <=? length s)%nat && bool_decide (list.head s = Some quote)
     && bool_decide (list.last s = Some quote)
  then take (length s - 2) (drop 1 s)
  else s.

Definition UnmarshalJSON (b : bytes) : result error Money := FromString (b2s (strip_quotes b)).

(** ** Scale *)

(** The fixed scale: what every constructor establishes. *)
Definition scaled (m : Money) : Prop := Decimal.exp m.(d) = -4.

#[global] Instance scaled_dec m : Decision (scaled m).
Proof. unfold scaled. apply _. Defined.

(** The amount in ten-thousandths. *)
Definition units (m : Money) : Z := Decimal.value (Decimal.Round m.(d) 4).

Definition of_units (u : Z) : Money := MkMoney (Decimal.MkDecimal u (-4)).

(** The values a client of the package can hold: its fields are unexported, so
    they come from a constructor or are Go's zero value. *)
Definition proper (m : Money) : Prop := scaled m ∨ m = zero_value.

Lemma units_of_units u : units (of_units u) = u.
Proof. done. Qed.

Lemma of_units_scaled u : scaled (of_units u).
Proof. done. Qed.

Lemma scaled_of_units m : scaled m → m = of_units (units m).
Proof.
  unfold scaled, units, of_units, Decimal.Round. destruct m as [[v e]]; simpl.
  intros ->. done.
Qed.

Lemma round_scaled x : scaled (MkMoney (Decimal.Round x 4)).
Proof. apply Decimal.Round_exp. Qed.

Lemma round_of_units x : MkMoney (Decimal.Round x 4) = of_units (Decimal.value (Decimal.Round x 4)).
Proof.
  pose proof (Decimal.Round_exp x 4) as H. unfold of_units.
  destruct (Decimal.Round x 4) as [v e]; simpl in *. by rewrite H.
Qed.

Lemma NewFromDecimal_units x : units (NewFromDecimal x) = Decimal.value (Decimal.Round x 4).
Proof. unfold NewFromDecimal. rewrite round_of_units. done. Qed.

#[global] Hint Resolve round_scaled of_units_scaled : ledger.

Lemma Add_of_units a b : Add (of_units a) (of_units b) = of_units (a + b).
Proof. unfold Add. rewrite Decimal.Add_same_exp by done. done. Qed.

Lemma Sub_of_units a b : Sub (of_units a) (of_units b) = of_units (a - b).
Proof. unfold Sub. rewrite Decimal.Sub_same_exp by done. done. Qed.

Lemma LessThan_of_units a b : LessThan (of_units a) (of_units b) = (a <? b).
Proof. unfold LessThan, Decimal.LessThan. rewrite Decimal.Cmp_same_exp by done. done. Qed.

Lemma Equal_of_units a b : Equal (of_units a) (of_units b) = (a =? b).
Proof.
  unfold Equal, Decimal.Equal. rewrite Decimal.Cmp_same_exp by done. simpl.
  by rewrite Z.eqb_compare.
Qed.

Lemma sgn_pos_ltb u : (Z.sgn u =? 1) = (0 <? u).
Proof. by destruct u. Qed.

Lemma IsPositive_of_units u : IsPositive (of_units u) = (0 <? u).
Proof. apply sgn_pos_ltb. Qed.

#[global] Hint Rewrite units_of_units Add_of_units Sub_of_units LessThan_of_units
  Equal_of_units IsPositive_of_units : ledger.

Lemma proper_positive m : proper m → IsPositive m = true → scaled m.
Proof. by intros [?| ->]. Qed.

Lemma proper_IsPositive m : proper m → IsPositive m = (0 <? units m).
Proof.
  intros [Hs| ->]; [|done]. rewrite (scaled_of_units m Hs). apply IsPositive_of_units.
Qed.

Lemma IsPositive_units m : IsPositive m = true → scaled m → 0 < units m.
Proof.
  intros Hp Hs. rewrite (scaled_of_units m Hs), IsPositive_of_units in Hp.
  by apply Z.ltb_lt.
Qed.

(** ** Text *)

Lemma String_of_units u : String (of_units u) = b2s (Decimal.string_ false (Decimal.MkDecimal u (-4))).
Proof. done. Qed.

Lemma FromString_String u : FromString (String (of_units u)) = Ok (of_units u).
Proof.
  unfold FromString, Decimal.NewFromString. rewrite String_of_units, s2b_b2s.
  rewrite Decimal.NewFromBytes_string_false by (unfold Decimal.MinInt32; simpl; lia).
  done.
Qed.

Lemma strip_quotes_quoted s : strip_quotes (quote :: s ++ [quote]) = s.
Proof.
  unfold strip_quotes. rewrite length_cons, length_app. simpl length.
  replace (2 <=? S (length s + 1))%nat with true by (symmetry; apply Nat.leb_le; lia).
  rewrite app_comm_cons, last_snoc, bool_decide_true, bool_decide_true by done. simpl.
  replace (length s + 1 - 1)%nat with (length s) by lia. apply take_app_length.
Qed.

End Money.
