(* ===== verification/Uuid.v ===== *)
(** * google/uuid

    The type [UUID [16]byte], its canonical text and the parser of
    [vendor/github.com/google/uuid], which the HTTP layer applies to path
    segments and body fields and whose text gives the lock order. *)

From Stdlib Require Import Ascii.
From S2P Require Import Prelude GoStd.
From stdpp Require Import options.
Open Scope nat_scope.

Module Uuid.

Inductive UUID : Type :=
  MkUUID (b0 b1 b2 b3 b4 b5 b6 b7 b8 b9 b10 b11 b12 b13 b14 b15 : ascii).

Definition to_list (u : UUID) : bytes :=
  let '(MkUUID b0 b1 b2 b3 b4 b5 b6 b7 b8 b9 b10 b11 b12 b13 b14 b15) := u in
  [b0; b1; b2; b3; b4; b5; b6; b7; b8; b9; b10; b11; b12; b13; b14; b15].

Definition of_list (l : bytes) : option UUID :=
  match l with
  | [b0; b1; b2; b3; b4; b5; b6; b7; b8; b9; b10; b11; b12; b13; b14; b15] =>
      Some (MkUUID b0 b1 b2 b3 b4 b5 b6 b7 b8 b9 b10 b11 b12 b13 b14 b15)
  | _ => None
  end.

Lemma of_to_list u : of_list (to_list u) = Some u.
Proof. by destruct u. Qed.

Definition Nil : UUID :=
  MkUUID zero zero zero zero zero zero zero zero zero zero zero zero zero zero zero zero.

#[global] Instance UUID_eq_dec : EqDecision UUID.
Proof. solve_decision. Defined.

#[global] Instance UUID_countable : Countable UUID :=
  inj_countable (λ u, b2s (to_list u)) (λ s, of_list (s2b s))
    (λ u, eq_trans (f_equal of_list (s2b_b2s (to_list u))) (of_to_list u)).

(** ** Text *)

Definition hex_char (n : N) : ascii :=
  if (n <? 10)%N then ascii_of_N (48 + n) else ascii_of_N (87 + n).

(** [hex.Encode]. *)
Definition hex_encode (l : bytes) : bytes :=
  l ≫= λ b, [hex_char (N_of_ascii b / 16); hex_char (N_of_ascii b mod 16)].

Definition encodeHex (u : UUID) : bytes :=
  let b := to_list u in
  hex_encode (take 4 b) ++ "-"%char ::
  hex_encode (take 2 (drop 4 b)) ++ "-"%char ::
  hex_encode (take 2 (drop 6 b)) ++ "-"%char ::
  hex_encode (take 2 (drop 8 b)) ++ "-"%char ::
  hex_encode (drop 10 b).

Definition String (u : UUID) : string := b2s (encodeHex u).

(** The table [xvalues]: the value of a hexadecimal digit, 255 otherwise. *)
Definition xvalues (c : ascii) : N :=
  let n := N_of_ascii c in
  (if (48 <=? n) && (n <=? 57) then n - 48
   else if (65 <=? n) && (n <=? 70) then n - 55
   else if (97 <=? n) && (n <=? 102) then n - 87
   else 255)%N.

Definition xtob (x1 x2 : ascii) : option ascii :=
  let b1 := xvalues x1 in
  let b2 := xvalues x2 in
  if negb (b1 =? 255)%N && negb (b2 =? 255)%N
  then Some (ascii_of_N (N.lor (N.shiftl b1 4) b2))
  else None.

Definition xtob_at (s : bytes) (x : nat) : option ascii :=
  match s !! x, s !! S x with Some x1, Some x2 => xtob x1 x2 | _, _ => None end.

Definition to_lower (c : ascii) : ascii :=
  let n := N_of_ascii c in
  if ((65 <=? n) && (n <=? 90))%N then ascii_of_N (n + 32) else c.

(** [strings.EqualFold] against a text of ASCII letters other than k and s,
    which have no non-ASCII case variants. *)
Definition EqualFold_ascii (s t : bytes) : bool :=
  bool_decide (to_lower <$> s = to_lower <$> t).

Definition invalid_format : error := Opaque "invalid UUID format".

Definition read_bytes (s : bytes) (offsets : list nat) : result error UUID :=
  match mapM (xtob_at s) offsets ≫= of_list with
  | Some u => Ok u
  | None => Err invalid_format
  end.

Definition dashed_offsets : list nat := [0; 2; 4; 6; 9; 11; 14; 16; 19; 21; 24; 26; 28; 30; 32; 34].

Definition plain_offsets : list nat := [0; 2; 4; 6; 8; 10; 12; 14; 16; 18; 20; 22; 24; 26; 28; 30].

Definition parse_dashed (s : bytes) : result error UUID :=
  let dash i := bool_decide (s !! i = Some "-"%char) in
  if dash 8 && dash 13 && dash 18 && dash 23
  then read_bytes s dashed_offsets
  else Err invalid_format.

(** The prefix in the second error is not quoted as [%q] does; the callers replace
    the text. *)
Definition ParseBytes (s : bytes) : result error UUID :=
  let n := length s in
  if n =? 36 then parse_dashed s
  else if n =? 36 + 9 then
    if EqualFold_ascii (take 9 s) (s2b "urn:uuid:")
    then parse_dashed (drop 9 s)
    else Err (Opaque ("invalid urn prefix: " +:+ b2s (take 9 s)))
  else if n =? 36 + 2 then parse_dashed (drop 1 s)
  else if n =? 32 then read_bytes s plain_offsets
  else Err (Opaque ("invalid UUID length: " +:+ b2s (nat_String (Z.of_nat n)))).

Definition Parse (s : string) : result error UUID := ParseBytes (s2b s).

(** [MustParse] panics on malformed text; it is only applied to constants, for
    which [Parse] is evaluated below. *)
Definition MustParse (s : string) : UUID :=
  match Parse s with Ok u => u | Err _ => Nil end.

(** ** Round trip *)

Lemma xtob_hex b :
  xtob (hex_char (N_of_ascii b / 16)) (hex_char (N_of_ascii b mod 16)) = Some b.
Proof. destruct b as [[] [] [] [] [] [] [] []]; vm_compute; done. Qed.

Lemma parse_encodeHex u : ParseBytes (encodeHex u) = Ok u.
Proof.
  destruct u as [b0 b1 b2 b3 b4 b5 b6 b7 b8 b9 b10 b11 b12 b13 b14 b15].
  unfold ParseBytes, encodeHex. cbn [to_list take drop hex_encode mbind list_bind app].
  cbn [length Nat.eqb Nat.add]. unfold parse_dashed, read_bytes, dashed_offsets.
  cbn [lookup list_lookup]. rewrite !bool_decide_true by done. cbn [andb].
  cbn [mapM]. unfold xtob_at. cbn [lookup list_lookup].
  rewrite !xtob_hex. done.
Qed.

(** The other spellings the parser accepts. *)
Definition to_upper (c : ascii) : ascii :=
  let n := N_of_ascii c in
  if ((97 <=? n) && (n <=? 122))%N then ascii_of_N (n - 32) else c.

Lemma xtob_hex_upper b :
  xtob (to_upper (hex_char (N_of_ascii b / 16))) (to_upper (hex_char (N_of_ascii b mod 16))) = Some b.
Proof. destruct b as [[] [] [] [] [] [] [] []]; vm_compute; done. Qed.

Lemma parse_dashed_upper u : ParseBytes (to_upper <$> encodeHex u) = Ok u.
Proof.
  destruct u as [b0 b1 b2 b3 b4 b5 b6 b7 b8 b9 b10 b11 b12 b13 b14 b15].
  unfold ParseBytes, encodeHex. cbn [to_list take drop hex_encode mbind list_bind app].
  cbn [fmap list_fmap length Nat.eqb Nat.add]. unfold parse_dashed, read_bytes, dashed_offsets.
  cbn [lookup list_lookup]. rewrite !bool_decide_true by done. cbn [andb].
  cbn [mapM]. unfold xtob_at. cbn [lookup list_lookup].
  rewrite !xtob_hex_upper. done.
Qed.

Lemma encodeHex_length u : length (encodeHex u) = 36.
Proof. by destruct u. Qed.

Lemma parse_dashed_encodeHex u s : parse_dashed (encodeHex u ++ s) = Ok u.
Proof.
  destruct u as [b0 b1 b2 b3 b4 b5 b6 b7 b8 b9 b10 b11 b12 b13 b14 b15].
  unfold parse_dashed, read_bytes, dashed_offsets, encodeHex.
  cbn [to_list take drop hex_encode mbind list_bind app].
  cbn [lookup list_lookup]. rewrite !bool_decide_true by done. cbn [andb].
  cbn [mapM]. unfold xtob_at. cbn [lookup list_lookup].
  rewrite !xtob_hex. done.
Qed.

Lemma parse_urn u : ParseBytes (s2b "urn:uuid:" ++ encodeHex u) = Ok u.
Proof.
  unfold ParseBytes. rewrite length_app, encodeHex_length. change (length (s2b "urn:uuid:")) with 9. cbn [Nat.add Nat.eqb].
  change (drop 9 (s2b "urn:uuid:" ++ encodeHex u)) with (encodeHex u).
  change (take 9 (s2b "urn:uuid:" ++ encodeHex u)) with (s2b "urn:uuid:").
  unfold EqualFold_ascii. rewrite bool_decide_true by done.
  rewrite <-(app_nil_r (encodeHex u)). apply parse_dashed_encodeHex.
Qed.

Lemma parse_braced u : ParseBytes ("{"%char :: encodeHex u ++ ["}"%char]) = Ok u.
Proof.
  unfold ParseBytes. rewrite length_cons, length_app, encodeHex_length. cbn [length Nat.add Nat.eqb drop].
  apply parse_dashed_encodeHex.
Qed.

Lemma parse_plain u : ParseBytes (hex_encode (to_list u)) = Ok u.
Proof.
  destruct u as [b0 b1 b2 b3 b4 b5 b6 b7 b8 b9 b10 b11 b12 b13 b14 b15].
  unfold ParseBytes. cbn [to_list hex_encode mbind list_bind app]. cbn [length Nat.eqb Nat.add].
  unfold read_bytes, plain_offsets. cbn [mapM]. unfold xtob_at. cbn [lookup list_lookup].
  rewrite !xtob_hex. done.
Qed.

Lemma Parse_String_u u : Parse (String u) = Ok u.
Proof. unfold Parse, String. rewrite s2b_b2s. apply parse_encodeHex. Qed.

#[global] Instance String_inj : Inj (=) (=) String.
Proof. intros u v H. apply (f_equal Parse) in H. rewrite !Parse_String_u in H. congruence. Qed.

(** ** The lock order: canonical text, compared as Go and SQL compare strings *)

Definition le (u v : UUID) : Prop := String.le (String u) (String v).

#[global] Instance le_dec : RelDecision le.
Proof. unfold le. intros u v. apply _. Defined.

#[global] Instance le_total : Total le.
Proof. intros u v. apply String.le_total. Qed.

#[global] Instance le_po : PartialOrder le.
Proof.
  split; [split |].
  - intros u. unfold le. reflexivity.
  - intros u v w. unfold le. apply transitivity.
  - intros u v H1 H2. apply String_inj. by apply (anti_symm String.le).
Qed.

(** [sort.Slice(sorted, func(i, j) { sorted[i].String() < sorted[j].String() })]:
    the elements are distinguished by their text, so every sort gives this list. *)
Definition sort (ids : list UUID) : list UUID := merge_sort le ids.

Lemma sort_Permutation ids : sort ids ≡ₚ ids.
Proof. apply merge_sort_Permutation. Qed.

Lemma sort_StronglySorted ids : StronglySorted le (sort ids).
Proof. apply StronglySorted_merge_sort; apply _. Qed.

(** The sorted list only depends on the ids, not on the order they are given. *)
Lemma sort_proper ids1 ids2 : ids1 ≡ₚ ids2 → sort ids1 = sort ids2.
Proof.
  intros H. eapply (StronglySorted_unique le); [apply sort_StronglySorted.. |].
  by rewrite !sort_Permutation.
Qed.

End Uuid.
Abbreviation UUID := Uuid.UUID.
