(* ===== verification/UuidGen.v ===== *)
(** * google/uuid: the generators

    [version4.go] and [version7.go]: random and time-ordered identifiers.  The
    package keeps the last time it has given out; a generator is a function of what
    the operating system gives it, 16 random bytes or an error and the clock in
    nanoseconds, and of that state. *)

From Stdlib Require Import Ascii.
From S2P Require Import Prelude GoStd Uuid.
From stdpp Require Import options.
Open Scope Z_scope.

Module UuidGen.
Import Uuid.

(** ** Machine integers *)

(** The value of an [int64] after an operation that may overflow. *)
Definition int64 (z : Z) : Z := (z + 2 ^ 63) mod 2 ^ 64 - 2 ^ 63.

(** The conversion [byte(z)]. *)
Definition byte_of (z : Z) : ascii := ascii_of_N (Z.to_N (z mod 256)).

Definition on_byte (f : Z → Z) (b : ascii) : ascii := byte_of (f (Z.of_N (N_of_ascii b))).

(** ** Version 4 *)

(** [NewRandomFromReader]: [read] is what [io.ReadFull] yields. *)
Definition NewRandomFromReader (read : result error UUID) : result error UUID :=
  let^ u := read in
  let '(MkUUID b0 b1 b2 b3 b4 b5 b6 b7 b8 b9 b10 b11 b12 b13 b14 b15) := u in
  Ok (MkUUID b0 b1 b2 b3 b4 b5 (on_byte (λ b, Z.lor (Z.land b 15) 64) b6) b7
        (on_byte (λ b, Z.lor (Z.land b 63) 128) b8) b9 b10 b11 b12 b13 b14 b15).

(** [NewRandom]: the pool is not enabled unless the program asks for it, and this
    program does not. *)
Definition NewRandom (read : result error UUID) : result error UUID := NewRandomFromReader read.

(** ** Version 7 *)

Definition nanoPerMilli : Z := 1000000.

(** [getV7Time]: the milliseconds and the sequence number, and the new [lastV7time]. *)
Definition getV7Time (nano lastV7time : Z) : Z * Z * Z :=
  let milli := Z.quot nano nanoPerMilli in
  let seq := Z.shiftr (int64 (nano - int64 (milli * nanoPerMilli))) 8 in
  let now := int64 (int64 (Z.shiftl milli 12) + seq) in
  if now <=? lastV7time then
    let now := int64 (lastV7time + 1) in
    (Z.shiftr now 12, Z.land now 4095, now)
  else (milli, seq, now).

Definition makeV7 (t s : Z) (u : UUID) : UUID :=
  let '(MkUUID _ _ _ _ _ _ _ _ b8 b9 b10 b11 b12 b13 b14 b15) := u in
  MkUUID (byte_of (Z.shiftr t 40)) (byte_of (Z.shiftr t 32)) (byte_of (Z.shiftr t 24))
    (byte_of (Z.shiftr t 16)) (byte_of (Z.shiftr t 8)) (byte_of t)
    (byte_of (Z.lor 112 (Z.land 15 (Z.shiftr s 8)))) (byte_of s)
    b8 b9 b10 b11 b12 b13 b14 b15.

(** [NewV7]: on an error of the random source the clock is not read. *)
Definition NewV7 (read : result error UUID) (nano lastV7time : Z) : result error UUID * Z :=
  match NewRandom read with
  | Err e => (Err e, lastV7time)
  | Ok u => let '(t, s, last) := getV7Time nano lastV7time in (Ok (makeV7 t s u), last)
  end.

(** The identifiers that successive calls give out, and the state they leave. *)
Fixpoint draws (calls : list (result error UUID * Z)) (lastV7time : Z) : list UUID :=
  match calls with
  | [] => []
  | (read, nano) :: calls =>
      match NewV7 read nano lastV7time with
      | (Ok u, last) => u :: draws calls last
      | (Err _, last) => draws calls last
      end
  end.

(** ** Versions and variants *)

Definition version (u : UUID) : Z :=
  let '(MkUUID _ _ _ _ _ _ b6 _ _ _ _ _ _ _ _ _) := u in Z.shiftr (Z.of_N (N_of_ascii b6)) 4.

Definition variant (u : UUID) : Z :=
  let '(MkUUID _ _ _ _ _ _ _ _ b8 _ _ _ _ _ _ _) := u in Z.shiftr (Z.of_N (N_of_ascii b8)) 6.

Lemma code_byte_of z : Z.of_N (N_of_ascii (byte_of z)) = z mod 256.
Proof.
  unfold byte_of. pose proof (Z.mod_pos_bound z 256 eq_refl).
  rewrite N_ascii_embedding by lia. lia.
Qed.

Lemma NewRandom_version read u : NewRandom read = Ok u → version u = 4 ∧ variant u = 2.
Proof.
  destruct read as [[b0 b1 b2 b3 b4 b5 b6 b7 b8 b9 b10 b11 b12 b13 b14 b15]|e]; [|done].
  intros [= <-]. split.
  - destruct b6 as [[] [] [] [] [] [] [] []]; reflexivity.
  - destruct b8 as [[] [] [] [] [] [] [] []]; reflexivity.
Qed.

Lemma version_byte s : Z.shiftr (Z.lor 112 (Z.land 15 s)) 4 = 7 ∧ 0 <= Z.lor 112 (Z.land 15 s) < 256.
Proof.
  assert (H : ∃ n, Z.land 15 s = Z.of_nat n ∧ (n < 16)%nat).
  { exists (Z.to_nat (s mod 2 ^ 4)). rewrite Z.land_comm. change 15 with (Z.ones 4).
    rewrite Z.land_ones by lia. assert (0 <= s mod 2 ^ 4 < 16) by (by apply Z.mod_pos_bound). lia. }
  destruct H as (n&->&Hn). do 16 (destruct n as [|n]; [by vm_compute |]). lia.
Qed.

Lemma makeV7_version t s u : version (makeV7 t s u) = 7 ∧ variant (makeV7 t s u) = variant u.
Proof.
  destruct u as [b0 b1 b2 b3 b4 b5 b6 b7 b8 b9 b10 b11 b12 b13 b14 b15]. cbn [makeV7 version variant].
  split; [|done]. rewrite code_byte_of. destruct (version_byte (Z.shiftr s 8)) as [H1 H2].
  by rewrite Z.mod_small.
Qed.

(** ** The order of identifiers *)

Definition lt (u v : UUID) : Prop := le u v ∧ u ≠ v.

(** The value of bytes, the most significant first. *)
Definition big_endian (l : bytes) : Z := foldl (λ n b, n * 256 + Z.of_N (N_of_ascii b)) 0 l.

(** The text of a UUID, byte by byte. *)
Definition glyph (i : nat) (b : ascii) : bytes :=
  (if decide (i ∈ [4; 6; 8; 10]%nat) then ["-"%char] else []) ++
  [hex_char (N_of_ascii b / 16); hex_char (N_of_ascii b mod 16)].

Fixpoint glyphs (i : nat) (l : bytes) : bytes :=
  match l with [] => [] | b :: l => glyph i b ++ glyphs (S i) l end.

Lemma encodeHex_glyphs u : encodeHex u = glyphs 0 (to_list u).
Proof. by destruct u. Qed.

(** The first byte in which two lists differ. *)
Inductive precedes : bytes → bytes → Prop :=
| precedes_here a b l l' : (N_of_ascii a < N_of_ascii b)%N → precedes (a :: l) (b :: l')
| precedes_next a l l' : precedes l l' → precedes (a :: l) (a :: l').

Lemma precedes_app l x y : precedes x y → precedes (l ++ x) (l ++ y).
Proof. intros H. induction l; [done | by apply precedes_next]. Qed.

Lemma precedes_extend x y l l' : precedes x y → precedes (x ++ l) (y ++ l').
Proof. induction 1; simpl; [by apply precedes_here | by apply precedes_next]. Qed.

Lemma precedes_le x y : precedes x y → String.le (b2s x) (b2s y).
Proof.
  unfold String.le, Stdlib.Strings.String.leb. induction 1 as [a b l l' Hab|a l l' _ IH]; simpl.
  - unfold Ascii.compare. by apply N.compare_lt_iff in Hab as ->.
  - unfold Ascii.compare. by rewrite N.compare_refl.
Qed.

Lemma precedes_ne x y : precedes x y → x ≠ y.
Proof. induction 1 as [a b l l' Hab|a l l' _ IH]; intros [= Heq]; [subst; lia | done]. Qed.

Lemma hex_precedes a b :
  (N_of_ascii a < N_of_ascii b)%N →
  precedes [hex_char (N_of_ascii a / 16); hex_char (N_of_ascii a mod 16)]
           [hex_char (N_of_ascii b / 16); hex_char (N_of_ascii b mod 16)].
Proof.
  assert (Hmono : ∀ m n, (m < n)%N → (n < 16)%N → (N_of_ascii (hex_char m) < N_of_ascii (hex_char n))%N).
  { intros m n Hmn Hn. unfold hex_char.
    destruct (N.ltb_spec m 10), (N.ltb_spec n 10); rewrite !N_ascii_embedding by lia; lia. }
  pose proof (N_ascii_bounded a). pose proof (N_ascii_bounded b). intros Hab.
  pose proof (N.div_mod (N_of_ascii a) 16 ltac:(done)) as Ea. pose proof (N.div_mod (N_of_ascii b) 16 ltac:(done)) as Eb.
  pose proof (N.mod_lt (N_of_ascii a) 16 ltac:(done)). pose proof (N.mod_lt (N_of_ascii b) 16 ltac:(done)).
  set (qa := (N_of_ascii a / 16)%N) in *. set (qb := (N_of_ascii b / 16)%N) in *.
  set (ra := (N_of_ascii a mod 16)%N) in *. set (rb := (N_of_ascii b mod 16)%N) in *. clearbody qa qb ra rb.
  destruct (N.lt_trichotomy qa qb) as [Hlt|[->|Hgt]]; [| |lia].
  - apply precedes_here, Hmono; [done | lia].
  - apply precedes_next, precedes_here, Hmono; lia.
Qed.

Lemma glyphs_precedes x y : precedes x y → ∀ i, precedes (glyphs i x) (glyphs i y).
Proof.
  induction 1 as [a b l l' Hab|a l l' _ IH]; intros i; simpl.
  - apply precedes_extend. unfold glyph. by apply precedes_app, hex_precedes.
  - by apply precedes_app.
Qed.

Lemma precedes_lt u v : precedes (to_list u) (to_list v) → lt u v.
Proof.
  intros H. split.
  - unfold le, String. rewrite !encodeHex_glyphs. by apply precedes_le, glyphs_precedes.
  - intros ->. by apply precedes_ne in H.
Qed.

Lemma foldl_big_endian l n :
  foldl (λ n b, n * 256 + Z.of_N (N_of_ascii b)) n l = n * 256 ^ Z.of_nat (length l) + big_endian l.
Proof.
  revert n. unfold big_endian. induction l as [|b l IH]; intros n; [simpl; lia |].
  cbn [foldl length]. rewrite IH, (IH (0 * 256 + _)), Nat2Z.inj_succ, Z.pow_succ_r by lia. lia.
Qed.

Lemma big_endian_cons b l :
  big_endian (b :: l) = Z.of_N (N_of_ascii b) * 256 ^ Z.of_nat (length l) + big_endian l.
Proof. unfold big_endian at 1. cbn [foldl]. by rewrite foldl_big_endian. Qed.

Lemma big_endian_bound l : 0 <= big_endian l < 256 ^ Z.of_nat (length l).
Proof.
  induction l as [|b l IH]; [done |]. rewrite big_endian_cons. cbn [length].
  rewrite Nat2Z.inj_succ, Z.pow_succ_r by lia. pose proof (N_ascii_bounded b). nia.
Qed.

Lemma big_endian_precedes x y : length x = length y → big_endian x < big_endian y → precedes x y.
Proof.
  revert y. induction x as [|a x IH]; intros [|b y] Hlen; try done. injection Hlen as Hlen.
  rewrite !big_endian_cons, Hlen. pose proof (big_endian_bound x) as Hx. pose proof (big_endian_bound y) as Hy.
  rewrite Hlen in Hx. intros Hlt.
  destruct (N.lt_trichotomy (N_of_ascii a) (N_of_ascii b)) as [Hab|[Hab|Hab]].
  - by apply precedes_here.
  - rewrite <-(ascii_N_embedding a), <-(ascii_N_embedding b), Hab. apply precedes_next, IH; [done |].
    rewrite Hab in Hlt. lia.
  - nia.
Qed.

(** ** Time stamps *)

Fixpoint be_bytes (n : nat) (z : Z) : bytes :=
  match n with O => [] | S n => be_bytes n (z / 256) ++ [byte_of z] end.

Lemma big_endian_be_bytes n z : big_endian (be_bytes n z) = z mod 256 ^ Z.of_nat n.
Proof.
  revert z. induction n as [|n IH]; intros z; [by rewrite Z.mod_1_r |]. cbn [be_bytes].
  unfold big_endian. rewrite foldl_app. cbn [foldl]. fold (big_endian (be_bytes n (z / 256))).
  rewrite IH, code_byte_of, Nat2Z.inj_succ, Z.pow_succ_r, Z.rem_mul_r by lia. lia.
Qed.

(** The first eight bytes of a version 7 identifier, for [now = t << 12 + s]. *)
Definition stamp (u : UUID) : Z := big_endian (take 8 (to_list u)).
Definition stamp_of (now : Z) : Z := now / 4096 * 65536 + 28672 + now mod 4096.

Lemma stamp_of_mono m n : m < n → stamp_of m < stamp_of n.
Proof.
  intros H. unfold stamp_of. pose proof (Z.div_mod m 4096 ltac:(done)). pose proof (Z.div_mod n 4096 ltac:(done)).
  pose proof (Z.div_le_mono m n 4096 ltac:(done) ltac:(lia)). lia.
Qed.

Lemma seq_bytes s : 0 <= s < 4096 → Z.lor 112 (Z.land 15 (Z.shiftr s 8)) * 256 + s mod 256 = 28672 + s.
Proof.
  intros Hs. rewrite Z.shiftr_div_pow2 by lia. change (2 ^ 8) with 256.
  assert (Hq : 0 <= s / 256 < 16) by (split; [apply Z.div_pos; lia | apply Z.div_lt_upper_bound; lia]).
  assert (Hl : Z.lor 112 (Z.land 15 (s / 256)) = 112 + s / 256).
  { rewrite Z.land_comm. change 15 with (Z.ones 4). rewrite Z.land_ones, Z.mod_small by lia.
    generalize dependent (s / 256). intros q Hq. rewrite <-(Z2Nat.id q) by lia.
    assert (Z.to_nat q < 16)%nat as Hn by lia. revert Hn. generalize (Z.to_nat q). intros n Hn.
    do 16 (destruct n as [|n]; [by vm_compute |]). lia. }
  rewrite Hl. pose proof (Z.div_mod s 256 ltac:(done)). lia.
Qed.

Lemma stamp_makeV7 t s u : 0 <= t < 2 ^ 48 → 0 <= s < 4096 → stamp (makeV7 t s u) = stamp_of (t * 4096 + s).
Proof.
  intros Ht Hs. destruct u as [b0 b1 b2 b3 b4 b5 b6 b7 b8 b9 b10 b11 b12 b13 b14 b15].
  assert (Ht6 : take 8 (to_list (makeV7 t s (MkUUID b0 b1 b2 b3 b4 b5 b6 b7 b8 b9 b10 b11 b12 b13 b14 b15)))
    = be_bytes 6 t ++ [byte_of (Z.lor 112 (Z.land 15 (Z.shiftr s 8))); byte_of s]).
  { cbn [makeV7 to_list take be_bytes app]. rewrite !(Z.shiftr_div_pow2 t), !Z.div_div by lia. done. }
  unfold stamp. rewrite Ht6. unfold big_endian. rewrite foldl_app. fold (big_endian (be_bytes 6 t)).
  rewrite big_endian_be_bytes. change (256 ^ Z.of_nat 6) with (2 ^ 48). rewrite Z.mod_small by done.
  cbn [foldl]. rewrite !code_byte_of. rewrite (Z.mod_small (Z.lor _ _)) by apply version_byte.
  pose proof (seq_bytes s Hs). unfold stamp_of.
  rewrite Z.div_add_l, (Z.div_small s), Z.add_0_r by lia.
  rewrite (Z.add_comm (t * 4096)), Z.mod_add, (Z.mod_small s 4096) by lia. lia.
Qed.

(** ** The generator of version 7 *)

Definition is_int64 (z : Z) : Prop := - 2 ^ 63 <= z < 2 ^ 63.

Lemma int64_id z : is_int64 z → int64 z = z.
Proof. unfold is_int64, int64. intros H. rewrite Z.mod_small; lia. Qed.

(** The times that a process gives out stay below this as long as it makes fewer
    than 2^59 identifiers: the clock's own are below 2^56. *)
Definition time_limit : Z := 2 ^ 60.

(** The parts of a clock reading. *)
Lemma clock_parts nano :
  is_int64 nano →
  let milli := Z.quot nano nanoPerMilli in
  let seq := (nano - milli * nanoPerMilli) / 256 in
  is_int64 (milli * nanoPerMilli) ∧ is_int64 (nano - milli * nanoPerMilli) ∧ is_int64 (milli * 4096) ∧
  is_int64 (milli * 4096 + seq) ∧ milli * 4096 + seq <= 2 ^ 56 ∧
  (0 < milli * 4096 + seq → 0 <= milli ∧ 0 <= seq < 4096).
Proof.
  intros H milli seq. unfold is_int64, nanoPerMilli in *.
  assert (Hm : 0 <= nano ∧ 0 <= milli <= 9223372036854 ∧ 0 <= nano - milli * 1000000 < 1000000 ∨
               nano < 0 ∧ -9223372036854 <= milli <= 0 ∧ -1000000 < nano - milli * 1000000 <= 0).
  { unfold milli. clear seq. Z.to_euclidean_division_equations. lia. }
  clearbody milli. unfold seq. clear seq. Z.to_euclidean_division_equations. lia.
Qed.

Lemma getV7Time_spec nano last :
  is_int64 nano → 0 <= last < time_limit - 1 →
  let '(t, s, now) := getV7Time nano last in
  last < now <= Z.max (last + 1) (2 ^ 56) ∧ now = t * 4096 + s ∧ 0 <= s < 4096 ∧ 0 <= t.
Proof.
  intros Hnano Hlast. unfold time_limit in Hlast. pose proof (clock_parts nano Hnano) as (H1&H2&H3&H4&H5&H6).
  unfold getV7Time. rewrite Z.shiftl_mul_pow2 by lia. change (2 ^ 12) with 4096.
  rewrite (int64_id (_ * nanoPerMilli)) by done. rewrite (int64_id (nano - _)) by done.
  rewrite Z.shiftr_div_pow2 by lia. change (2 ^ 8) with 256.
  rewrite (int64_id (_ * 4096)) by done. rewrite (int64_id (_ + _ / 256)) by done.
  destruct (Z.leb_spec (Z.quot nano nanoPerMilli * 4096 + (nano - Z.quot nano nanoPerMilli * nanoPerMilli) / 256) last).
  - rewrite int64_id by (unfold is_int64; lia). rewrite Z.shiftr_div_pow2 by lia. change (2 ^ 12) with 4096.
    change 4095 with (Z.ones 12). rewrite Z.land_ones by lia. change (2 ^ 12) with 4096.
    pose proof (Z.div_mod (last + 1) 4096 ltac:(done)). pose proof (Z.mod_pos_bound (last + 1) 4096 ltac:(done)).
    pose proof (Z.div_pos (last + 1) 4096 ltac:(lia) ltac:(done)). lia.
  - destruct H6; lia.
Qed.

(** An identifier of version 7 that was drawn after time [last]. *)
Definition drawn_after (last : Z) (u : UUID) : Prop :=
  version u = 7 ∧ variant u = 2 ∧ ∃ now, last < now ∧ stamp u = stamp_of now.

Lemma NewV7_spec read nano last :
  is_int64 nano → 0 <= last → Z.max (last + 1) (2 ^ 56) < time_limit →
  let '(r, now) := NewV7 read nano last in
  last <= now <= Z.max (last + 1) (2 ^ 56) ∧
  ∀ u, r = Ok u → last < now ∧ stamp u = stamp_of now ∧ version u = 7 ∧ variant u = 2.
Proof.
  intros Hn Hl Hlim. unfold NewV7. destruct (NewRandom read) as [u|e] eqn:Hu; [|split; [lia | done]].
  pose proof (getV7Time_spec nano last Hn ltac:(unfold time_limit in *; lia)) as Hspec.
  destruct (getV7Time nano last) as [[t s] now]. destruct Hspec as (Hnow&Heq&Hs&Ht).
  split; [lia |]. intros v [= <-]. destruct (makeV7_version t s u) as [H7 Hv].
  split_and!; [lia | | done | by rewrite Hv; eapply NewRandom_version].
  rewrite Heq. apply stamp_makeV7; [|done]. unfold time_limit in Hlim. lia.
Qed.

Lemma draws_ordered calls last :
  Forall (λ c, is_int64 c.2) calls → 0 <= last →
  Z.max last (2 ^ 56) + Z.of_nat (length calls) < time_limit →
  StronglySorted lt (draws calls last) ∧ Forall (drawn_after last) (draws calls last).
Proof.
  intros Hc. revert last. induction Hc as [|[read nano] calls Hn Hc IH]; intros last Hl Hlim; simpl.
  { split; constructor. }
  cbn [length] in Hlim. pose proof (NewV7_spec read nano last Hn Hl ltac:(lia)) as Hspec.
  destruct (NewV7 read nano last) as [[u|e] now]; destruct Hspec as [Hnow Hu];
    destruct (IH now) as [Hs Hd]; try lia.
  - destruct (Hu u eq_refl) as (Hlt&Hst&H7&Hv). split; constructor; [done | | |].
    + eapply Forall_impl; [exact Hd |]. intros v (_&_&n&Hn'&Hstv). apply precedes_lt.
      rewrite <-(take_drop 8 (to_list u)), <-(take_drop 8 (to_list v)).
      apply precedes_extend, big_endian_precedes; [by destruct u, v |].
      change (stamp u < stamp v). rewrite Hst, Hstv. by apply stamp_of_mono.
    + split_and!; [done | done |]. by exists now.
    + eapply Forall_impl; [exact Hd |]. intros v (?&?&n&?&?). split_and!; [done | done |]. exists n. split; [lia | done].
  - split; [done |]. eapply Forall_impl; [exact Hd |]. intros v (?&?&n&?&?).
    split_and!; [done | done |]. exists n. split; [lia | done].
Qed.

(** C31: the identifiers that a process draws with [NewV7] are strictly increasing
    in the order of their text, hence never the same, whatever the clock shows, also
    when it stands still or is set back, and whatever the random source yields, as
    long as fewer than 2^59 are drawn; and they carry the version and the variant of
    the standard. *)
Theorem v7_identifiers_ordered calls :
  Forall (λ c, is_int64 c.2) calls → Z.of_nat (length calls) < 2 ^ 59 →
  StronglySorted lt (draws calls 0) ∧ NoDup (draws calls 0) ∧
  Forall (λ u, version u = 7 ∧ variant u = 2) (draws calls 0).
Proof.
  intros Hc Hlen. destruct (draws_ordered calls 0 Hc ltac:(done)) as [Hs Hd]; [unfold time_limit; lia |].
  split_and!; [done | |].
  - clear Hd. induction Hs as [|u l _ IH Hall]; constructor; [|done].
    intros Hin. rewrite Forall_forall in Hall. by destruct (Hall u Hin).
  - eapply Forall_impl; [exact Hd |]. by intros u (?&?&_).
Qed.

(** A clock that stands still, is set back before the epoch, and goes on. *)
Definition odd_clock : list (result error UUID * Z) :=
  [(Ok Nil, 1700000000123456789); (Ok Nil, 1700000000123456789); (Err (Opaque "entropy"), 0);
   (Ok Nil, -5); (Ok Nil, 1700000000123999999); (Ok Nil, 2 ^ 63 - 1)].

Lemma v7_identifiers_ordered_witness :
  String <$> draws odd_clock 0 =
    ["018bcfe5-687b-76f8-8000-000000000000"; "018bcfe5-687b-76f9-8000-000000000000";
     "018bcfe5-687b-76fa-8000-000000000000"; "018bcfe5-687b-7f42-8000-000000000000";
     "08637bd0-5af6-7bd6-8000-000000000000"]%string ∧
  StronglySorted lt (draws odd_clock 0).
Proof.
  split; [by vm_compute |].
  apply (v7_identifiers_ordered odd_clock); [repeat constructor; by vm_compute | by vm_compute].
Defined.
End UuidGen.
