(* ===== verification/Json.v ===== *)
(** * encoding/json: the text of values

    Reading: the first JSON value of a text, as a [Decoder] delimits and unquotes
    it.  Writing: strings as [Marshal] quotes them, and the values built of them.  A
    value keeps its source text, which a custom [UnmarshalJSON] is given. *)

From Stdlib Require Import Ascii.
From S2P Require Import Prelude GoStd Uuid.
From stdpp Require Import options.

Module Json.

Inductive json :=
| JNull
| JBool (b : bool)
| JNumber (raw : bytes)
| JString (raw : bytes) (text : string)
| JArray (raw : bytes) (elems : list json)
| JObject (raw : bytes) (members : list (string * json)).

Definition raw_text (v : json) : bytes :=
  match v with
  | JNull => s2b "null"
  | JBool b => if b then s2b "true" else s2b "false"
  | JNumber raw | JString raw _ | JArray raw _ | JObject raw _ => raw
  end.

(** ** UTF-8 *)

Definition code (c : ascii) : N := N_of_ascii c.
Definition within (lo hi : N) (c : ascii) : bool := (lo <=? code c)%N && (code c <=? hi)%N.

(** The length of the well-formed sequence a text starts with, as
    [utf8.DecodeRune] finds it. *)
Definition rune_len (s : bytes) : option nat :=
  match s with
  | [] => None
  | c0 :: s1 =>
      if (code c0 <? 128)%N then Some 1%nat
      else if within 194 223 c0 then
        match s1 with c1 :: _ => if within 128 191 c1 then Some 2%nat else None | _ => None end
      else if within 224 239 c0 then
        let lo := if (code c0 =? 224)%N then 160%N else 128%N in
        let hi := if (code c0 =? 237)%N then 159%N else 191%N in
        match s1 with
        | c1 :: c2 :: _ => if within lo hi c1 && within 128 191 c2 then Some 3%nat else None
        | _ => None
        end
      else if within 240 244 c0 then
        let lo := if (code c0 =? 240)%N then 144%N else 128%N in
        let hi := if (code c0 =? 244)%N then 143%N else 191%N in
        match s1 with
        | c1 :: c2 :: c3 :: _ =>
            if within lo hi c1 && within 128 191 c2 && within 128 191 c3 then Some 4%nat else None
        | _ => None
        end
      else None
  end.

(** [utf8.EncodeRune]; U+FFFD stands for what is not a character. *)
Definition replacement : bytes := ascii_of_N <$> [239; 191; 189]%N.

Definition encode_rune (r : N) : bytes :=
  if (r <? 128)%N then [ascii_of_N r]
  else if (r <? 2048)%N then ascii_of_N <$> [192 + r / 64; 128 + r mod 64]%N
  else if ((55296 <=? r) && (r <=? 57343) || (1114111 <? r))%N then replacement
  else if (r <? 65536)%N then ascii_of_N <$> [224 + r / 4096; 128 + r / 64 mod 64; 128 + r mod 64]%N
  else ascii_of_N <$> [240 + r / 262144; 128 + r / 4096 mod 64; 128 + r / 64 mod 64; 128 + r mod 64]%N.

(** ** Reading *)

Definition is_space (c : ascii) : bool := bool_decide (c ∈ ascii_of_N <$> [32; 9; 10; 13]%N).

Fixpoint skip_space (s : bytes) : bytes :=
  match s with
  | c :: s' => if is_space c then skip_space s' else s
  | [] => []
  end.

Definition hex4 (a b c d : ascii) : option N :=
  let v := Uuid.xvalues in
  if bool_decide (255%N ∈ v <$> [a; b; c; d]) then None
  else Some (((v a * 16 + v b) * 16 + v c) * 16 + v d)%N.

Definition is_surrogate (r : N) : bool := ((55296 <=? r) && (r <=? 57343))%N.

(** The character of a surrogate pair, [utf16.DecodeRune]. *)
Definition surrogate_pair (r1 r2 : N) : option N :=
  if ((55296 <=? r1) && (r1 <? 56320) && (56320 <=? r2) && (r2 <=? 57343))%N
  then Some ((r1 - 55296) * 1024 + (r2 - 56320) + 65536)%N else None.

Definition escape_char (e : ascii) : option ascii :=
  match e with
  | "b"%char => Some (ascii_of_N 8)
  | "f"%char => Some (ascii_of_N 12)
  | "n"%char => Some (ascii_of_N 10)
  | "r"%char => Some (ascii_of_N 13)
  | "t"%char => Some (ascii_of_N 9)
  | "\"%char | "/"%char => Some e
  | _ => if decide (e = quote) then Some quote else None
  end.

Definition put (p : bytes) (r : option (bytes * bytes)) : option (bytes * bytes) := (λ x, (p ++ x.1, x.2)) <$> r.

(** The text of a string after its opening quote, and what follows the closing
    one; the first [keep] bytes are the rest of a well-formed sequence. *)
Fixpoint unquote (keep : nat) (s : bytes) : option (bytes * bytes) :=
  match s with
  | [] => None
  | c :: s1 =>
      match keep with
      | S k => put [c] (unquote k s1)
      | O =>
          if decide (c = quote) then Some ([], s1)
          else if decide (c = "\"%char) then
            match s1 with
            | "u"%char :: h1 :: h2 :: h3 :: h4 :: s2 =>
                match hex4 h1 h2 h3 h4 with
                | None => None
                | Some r =>
                    if is_surrogate r then
                      match s2 with
                      | "\"%char :: "u"%char :: g1 :: g2 :: g3 :: g4 :: s3 =>
                          match (r' ← hex4 g1 g2 g3 g4; surrogate_pair r r') with
                          | Some r' => put (encode_rune r') (unquote 0 s3)
                          | None => put replacement (unquote 0 s2)
                          end
                      | _ => put replacement (unquote 0 s2)
                      end
                    else put (encode_rune r) (unquote 0 s2)
                end
            | e :: s2 =>
                match escape_char e with Some x => put [x] (unquote 0 s2) | None => None end
            | [] => None
            end
          else if (code c <? 32)%N then None
          else match rune_len s with
               | Some n => put [c] (unquote (n - 1) s1)
               | None => put replacement (unquote 0 s1)
               end
      end
  end.

Fixpoint span_digits (s : bytes) : bytes * bytes :=
  match s with
  | c :: s' => if is_digit c then let '(d, r) := span_digits s' in (c :: d, r) else ([], s)
  | [] => ([], [])
  end.

(** The parts of a number after its integer part: an optional run of digits behind
    a point or an exponent; a mark without digits is an error. *)
Definition digits_after (mark : bytes) (s : bytes) : option (bytes * bytes) :=
  match span_digits s with ([], _) => None | (d, r) => Some (mark ++ d, r) end.

Definition fraction (s : bytes) : option (bytes * bytes) :=
  match s with "."%char :: s' => digits_after ["."%char] s' | _ => Some ([], s) end.

Definition exponent (s : bytes) : option (bytes * bytes) :=
  match s with
  | c :: s' =>
      if decide (c = "e"%char ∨ c = "E"%char) then
        match s' with
        | x :: s'' => if decide (x = "+"%char ∨ x = "-"%char) then digits_after [c; x] s'' else digits_after [c] s'
        | [] => None
        end
      else Some ([], s)
  | [] => Some ([], [])
  end.

Definition integer (s : bytes) : option (bytes * bytes) :=
  match s with
  | "0"%char :: s' => Some (["0"%char], s')
  | _ => digits_after [] s
  end.

Definition number (s : bytes) : option (bytes * bytes) :=
  let '(sign, s0) := match s with "-"%char :: s' => (["-"%char], s') | _ => ([], s) end in
  '(i, s1) ← integer s0; '(f, s2) ← fraction s1; '(e, s3) ← exponent s2;
  Some (sign ++ i ++ f ++ e, s3).

(** What was consumed of a text. *)
Definition consumed (s rest : bytes) : bytes := take (length s - length rest) s.

Fixpoint strip (p s : bytes) : option bytes :=
  match p, s with
  | [], _ => Some s
  | a :: p', b :: s' => if decide (a = b) then strip p' s' else None
  | _, [] => None
  end.

Definition literal (v : json) (s : bytes) : option (json * bytes) := (λ r, (v, r)) <$> strip (raw_text v) s.

(** [maxNestingDepth]. *)
Definition max_depth : N := 10000.

(** A value, the members of an object after its brace or a comma, the elements of
    an array likewise; [depth] counts the enclosing objects and arrays. *)
Fixpoint value (fuel : nat) (depth : N) (s : bytes) : option (json * bytes) :=
  match fuel with
  | O => None
  | S fuel =>
      match s with
      | [] => None
      | c :: s1 =>
          if decide (c = quote) then
            '(t, r) ← unquote 0 s1; Some (JString (consumed s r) (b2s t), r)
          else if decide (c = "{"%char) then
            if (max_depth <? depth + 1)%N then None
            else match skip_space s1 with
                 | "}"%char :: r => Some (JObject (consumed s r) [], r)
                 | s2 => '(ms, r) ← members fuel (depth + 1) s2; Some (JObject (consumed s r) ms, r)
                 end
          else if decide (c = "["%char) then
            if (max_depth <? depth + 1)%N then None
            else match skip_space s1 with
                 | "]"%char :: r => Some (JArray (consumed s r) [], r)
                 | s2 => '(l, r) ← elements fuel (depth + 1) s2; Some (JArray (consumed s r) l, r)
                 end
          else if decide (c = "n"%char) then literal JNull s
          else if decide (c = "t"%char) then literal (JBool true) s
          else if decide (c = "f"%char) then literal (JBool false) s
          else '(raw, r) ← number s; Some (JNumber raw, r)
      end
  end
with members (fuel : nat) (depth : N) (s : bytes) : option (list (string * json) * bytes) :=
  match fuel with
  | O => None
  | S fuel =>
      match s with
      | c :: s1 =>
          if decide (c = quote) then
            '(key, s2) ← unquote 0 s1;
            match skip_space s2 with
            | ":"%char :: s3 =>
                '(v, s4) ← value fuel depth (skip_space s3);
                match skip_space s4 with
                | "}"%char :: r => Some ([(b2s key, v)], r)
                | ","%char :: s5 =>
                    '(ms, r) ← members fuel depth (skip_space s5); Some ((b2s key, v) :: ms, r)
                | _ => None
                end
            | _ => None
            end
          else None
      | [] => None
      end
  end
with elements (fuel : nat) (depth : N) (s : bytes) : option (list json * bytes) :=
  match fuel with
  | O => None
  | S fuel =>
      '(v, s1) ← value fuel depth s;
      match skip_space s1 with
      | "]"%char :: r => Some ([v], r)
      | ","%char :: s2 => '(l, r) ← elements fuel depth (skip_space s2); Some (v :: l, r)
      | _ => None
      end
  end.

(** The first value of a text, if there is one: what follows it is not read. *)
Definition parse (s : bytes) : option json :=
  let s := skip_space s in fst <$> value (S (length s)) 0 s.

(** ** Writing *)

Definition hex_digit (n : N) : ascii := if (n <? 10)%N then ascii_of_N (48 + n) else ascii_of_N (87 + n).

(** An ASCII character as [appendString] writes it, HTML characters escaped. *)
Definition escaped (c : ascii) : bytes :=
  if decide (c = quote ∨ c = "\"%char) then ["\"%char; c]
  else match code c with
       | 8%N => s2b "\b" | 12%N => s2b "\f" | 10%N => s2b "\n" | 13%N => s2b "\r" | 9%N => s2b "\t"
       | n => if decide ((n < 32)%N ∨ c = "<"%char ∨ c = ">"%char ∨ c = "&"%char)
              then s2b "\u00" ++ [hex_digit (n / 16); hex_digit (n mod 16)] else [c]
       end.

(** The line and paragraph separators U+2028 and U+2029. *)
Definition separator (s : bytes) : option (ascii * bytes) :=
  match s with
  | c0 :: c1 :: c2 :: s' =>
      if decide (code <$> [c0; c1] = [226; 128]%N) then
        if decide (code c2 = 168%N) then Some ("8"%char, s')
        else if decide (code c2 = 169%N) then Some ("9"%char, s') else None
      else None
  | _ => None
  end.

(** The body of a quoted string; [skip] bytes belong to a separator already
    written, [keep] to a sequence that is copied. *)
Fixpoint quoted (skip keep : nat) (s : bytes) : bytes :=
  match s with
  | [] => []
  | c :: s1 =>
      match skip, keep with
      | S n, _ => quoted n 0 s1
      | O, S k => c :: quoted 0 k s1
      | O, O =>
          if (code c <? 128)%N then escaped c ++ quoted 0 0 s1
          else match separator s with
               | Some (d, _) => s2b "\u202" ++ d :: quoted 2 0 s1
               | None => match rune_len s with
                         | Some n => c :: quoted 0 (n - 1) s1
                         | None => s2b "\ufffd" ++ quoted 0 0 s1
                         end
               end
      end
  end.

Definition quote_text (s : bytes) : bytes := quote :: quoted 0 0 s ++ [quote].

(** The text with what is not UTF-8 replaced. *)
Fixpoint coerced (keep : nat) (s : bytes) : bytes :=
  match s with
  | [] => []
  | c :: s1 =>
      match keep with
      | S k => c :: coerced k s1
      | O => match rune_len s with
             | Some n => c :: coerced (n - 1) s1
             | None => replacement ++ coerced 0 s1
             end
      end
  end.

Definition mk_string (s : string) : json := JString (quote_text (s2b s)) (b2s (coerced 0 (s2b s))).

Definition mk_int (z : Z) : json := JNumber (big_String z).

Fixpoint separated (l : list bytes) : bytes :=
  match l with
  | [] => []
  | [b] => b
  | b :: l' => b ++ ","%char :: separated l'
  end.

Definition member_text (m : string * json) : bytes := quote_text (s2b m.1) ++ ":"%char :: raw_text m.2.

Definition mk_object (ms : list (string * json)) : json :=
  JObject ("{"%char :: separated (member_text <$> ms) ++ ["}"%char]) ms.

Definition mk_array (l : list json) : json :=
  JArray ("["%char :: separated (raw_text <$> l) ++ ["]"%char]) l.

End Json.
