(* ===== verification/Ledger.v ===== *)
(** * internal/ledger: domain types and sentinel errors

    [types.go] and [errors.go].  A pointer field is an [option]; [time.Time] is
    a count of microseconds. *)

From S2P Require Import Prelude GoStd Decimal Money Uuid.
From stdpp Require Import options.

Module Ledger.

(** ** errors.go *)

Definition ErrAccountNotFound : error := Sentinel "account not found".
Definition ErrTransactionNotFound : error := Sentinel "transaction not found".
Definition ErrInsufficientFunds : error := Sentinel "insufficient funds".
Definition ErrSelfTransfer : error := Sentinel "self-transfer not allowed".
Definition ErrAlreadyReversed : error := Sentinel "transaction already reversed".
Definition ErrNotReversible : error := Sentinel "transaction is not reversible".
Definition ErrIdempotencyConflict : error := Sentinel "idempotency key conflict".
Definition ErrInvalidAmount : error := Sentinel "amount must be positive".
Definition ErrSystemAccount : error := Sentinel "operation not permitted on system account".

(** [pgx.ErrNoRows]. *)
Definition ErrNoRows : error := Sentinel "no rows in result set".

(** ** types.go *)

Definition ExternalAccountID : UUID := Uuid.MustParse "00000000-0000-0000-0000-000000000001".

Definition Time := Z.

(** The zero [time.Time], 1 January of year 1, relative to the Unix epoch. *)
Definition zero_time : Time := (-62135596800000000)%Z.

Inductive TransactionKind := KindTransfer | KindReversal | KindDeposit | KindWithdrawal.

#[global] Instance TransactionKind_eq_dec : EqDecision TransactionKind.
Proof. solve_decision. Defined.

Definition kind_text (k : TransactionKind) : string :=
  match k with
  | KindTransfer => "TRANSFER"
  | KindReversal => "REVERSAL"
  | KindDeposit => "DEPOSIT"
  | KindWithdrawal => "WITHDRAWAL"
  end.

Inductive Direction := DirectionDebit | DirectionCredit.

#[global] Instance Direction_eq_dec : EqDecision Direction.
Proof. solve_decision. Defined.

Inductive Outcome := OutcomeSuccess | OutcomeFailure.

#[global] Instance Outcome_eq_dec : EqDecision Outcome.
Proof. solve_decision. Defined.

Record Account := MkAccount {
  acc_ID : UUID;
  acc_Name : string;
  acc_Balance : Money.Money;
  acc_IsSystem : bool;
  acc_CreatedAt : Time;
  acc_UpdatedAt : Time }.

Record Entry := MkEntry {
  ent_ID : Z;
  ent_TransactionID : UUID;
  ent_AccountID : UUID;
  ent_Direction : Direction;
  ent_AccountName : string;
  ent_Amount : Money.Money;
  ent_CreatedAt : Time }.

Record Transaction := MkTransaction {
  txn_ID : UUID;
  txn_Kind : TransactionKind;
  txn_IdempotencyKey : string;
  txn_ReversesTransactionID : option UUID;
  txn_CreatedAt : Time;
  txn_Entries : list Entry }.

Record AuditEntry := MkAuditEntry {
  aud_ID : Z;
  aud_Operation : string;
  aud_FromAccount : option UUID;
  aud_ToAccount : option UUID;
  aud_Amount : option Money.Money;
  aud_Outcome : Outcome;
  aud_ErrorReason : option string;
  aud_TransactionID : option UUID;
  aud_RequestID : option string;
  aud_CreatedAt : Time }.

(** Go's zero values. *)
Definition zero_Account : Account :=
  MkAccount Uuid.Nil "" Money.zero_value false zero_time zero_time.

(** A [Transaction] literal that names its header fields only. *)
Definition new_Transaction (id : UUID) (k : TransactionKind) (key : string) (rev : option UUID)
  : Transaction := MkTransaction id k key rev zero_time [].

(** An [Entry] literal that names the four fields the service fills in. *)
Definition new_Entry (txID accountID : UUID) (dir : Direction) (amount : Money.Money) : Entry :=
  MkEntry 0 txID accountID dir "" amount zero_time.

(** [t.Entries = entries]. *)
Definition with_Entries (t : Transaction) (es : list Entry) : Transaction :=
  MkTransaction t.(txn_ID) t.(txn_Kind) t.(txn_IdempotencyKey)
    t.(txn_ReversesTransactionID) t.(txn_CreatedAt) es.

(** The sign of a leg in a balance: credits add, debits subtract. *)
Definition sign (dir : Direction) : Z :=
  match dir with DirectionCredit => 1 | DirectionDebit => -1 end.

(** The nine sentinels of [errors.go], in order. *)
Definition sentinels : list error :=
  [ErrAccountNotFound; ErrTransactionNotFound; ErrInsufficientFunds; ErrSelfTransfer;
   ErrAlreadyReversed; ErrNotReversible; ErrIdempotencyConflict; ErrInvalidAmount;
   ErrSystemAccount].

(** They are pairwise distinct, so that comparing texts compares identities. *)
Lemma sentinels_NoDup : NoDup (ErrNoRows :: sentinels).
Proof. apply (bool_decide_unpack _). vm_compute. done. Qed.

Lemma ExternalAccountID_parses :
  Uuid.Parse "00000000-0000-0000-0000-000000000001" = Ok ExternalAccountID.
Proof. vm_compute. done. Qed.

End Ledger.
