(* ===== verification/Schema.v ===== *)
(** * The database: schema, statements and their meaning

    The tables, constraints and the deferred trigger of
    [migrations/0001_init.up.sql], and one constructor of [sql] per SQL statement
    that [internal/store] sends, with the meaning SQL gives it.  [NUMERIC(20,4)]
    columns hold ten-thousandths; parameters and results travel as text. *)

From Stdlib Require Import Ascii.
From S2P Require Import Prelude GoStd Decimal Money Uuid Ledger.
From stdpp Require Import options.
Open Scope Z_scope.

Module Schema.
Import Ledger.

(** ** Tables *)

Record account_row := AccountRow {
  ar_name : string; ar_balance : Z; ar_is_system : bool;
  ar_created_at : Time; ar_updated_at : Time }.

Record transaction_row := TransactionRow {
  tr_kind : TransactionKind; tr_idempotency_key : string;
  tr_reverses : option UUID; tr_created_at : Time }.

Record entry_row := EntryRow {
  er_id : Z; er_transaction_id : UUID; er_account_id : UUID;
  er_direction : Direction; er_amount : Z; er_created_at : Time }.

Record audit_row := AuditRow {
  au_id : Z; au_operation : string; au_from_account : option UUID; au_to_account : option UUID;
  au_amount : option Z; au_outcome : Outcome; au_error_reason : option string;
  au_transaction_id : option UUID; au_request_id : option string; au_created_at : Time }.

Record Tables := MkTables {
  accounts : gmap UUID account_row;
  transactions : gmap UUID transaction_row;
  entries : list entry_row;
  audit_log : list audit_row }.

(** The [BIGSERIAL] sequences live beside the tables: a rollback does not undo
    [nextval]. *)
Record DB := MkDB { tables : Tables; entries_seq : Z; audit_seq : Z }.

(** ** SQLSTATEs *)

Definition unique_violation (constraint detail : string) : error :=
  PgError "23505" constraint detail "duplicate key value violates unique constraint".
Definition foreign_key_violation (constraint : string) : error :=
  PgError "23503" constraint "" "insert or update on table violates foreign key constraint".
Definition check_violation (constraint : string) : error :=
  PgError "23514" constraint "" "new row for relation violates check constraint".
Definition numeric_overflow : error :=
  PgError "22003" "" "A field with precision 20, scale 4 must round to an absolute value less than 10^16."
    "numeric field overflow".
Definition invalid_text : error := PgError "22P02" "" "" "invalid input syntax for type numeric".
Definition sequence_limit : error :=
  PgError "2200H" "" "" "nextval: reached maximum value of sequence".
Definition trigger_exception : error :=
  PgError "P0001" "" "" "double-entry invariant violated".
Definition in_failed_transaction : error :=
  PgError "25P02" "" "" "current transaction is aborted, commands ignored until end of transaction block".

(** ** NUMERIC(20,4) *)

Definition numeric_limit : Z := 10 ^ 20.

Fixpoint split_point (s : bytes) : bytes * bytes :=
  match s with
  | [] => ([], [])
  | c :: s' => if bool_decide (c = "."%char) then ([], s')
               else let '(i, f) := split_point s' in (c :: i, f)
  end.

(** The input conversion: sign, digits, optional fraction; the value is rounded
    to the column's scale, and must fit its precision. *)
Definition numeric_in (text : string) : result error Z :=
  let '(neg, ds) := split_sign (s2b text) in
  let '(ip, fp) := split_point ds in
  match ip ++ fp, parse_digits 0 (ip ++ fp) with
  | _ :: _, Some n =>
      let k := Z.of_nat (length fp) in
      let v := if neg then - n else n in
      let u := if k <=? 4 then v * 10 ^ (4 - k)
               else Decimal.round_half_away v (10 ^ (k - 4)) in
      if Z.abs u <? numeric_limit then Ok u else Err numeric_overflow
  | _, _ => Err invalid_text
  end.

Definition pad4 (r : Z) : bytes :=
  [digit_char (r / 1000); digit_char (r / 100 mod 10);
   digit_char (r / 10 mod 10); digit_char (r mod 10)].

(** The output conversion writes the four decimals of the scale. *)
Definition numeric_out (z : Z) : string :=
  b2s ((if z <? 0 then ["-"%char] else []) ++
       nat_String (Z.abs z / 10000) ++ "."%char :: pad4 (Z.abs z mod 10000)).

(** ** Result rows *)

Record account_rec := AccountRec {
  rc_id : UUID; rc_name : string; rc_balance : string; rc_is_system : bool;
  rc_created_at : Time; rc_updated_at : Time }.

Record transaction_rec := TransactionRec {
  rt_id : UUID; rt_kind : TransactionKind; rt_idempotency_key : string;
  rt_reverses : option UUID; rt_created_at : Time }.

Record entry_rec := EntryRec {
  re_id : Z; re_transaction_id : UUID; re_account_id : UUID; re_direction : Direction;
  re_amount : string; re_created_at : Time; re_name : string }.

Record audit_rec := AuditRec {
  ra_id : Z; ra_operation : string; ra_from_account : option UUID; ra_to_account : option UUID;
  ra_amount : option string; ra_outcome : Outcome; ra_error_reason : option string;
  ra_transaction_id : option UUID; ra_request_id : option string; ra_created_at : Time }.

Definition rec_of_account (p : UUID * account_row) : account_rec :=
  let '(id, r) := p in
  AccountRec id r.(ar_name) (numeric_out r.(ar_balance)) r.(ar_is_system)
    r.(ar_created_at) r.(ar_updated_at).

Definition rec_of_transaction (p : UUID * transaction_row) : transaction_rec :=
  let '(id, r) := p in
  TransactionRec id r.(tr_kind) r.(tr_idempotency_key) r.(tr_reverses) r.(tr_created_at).

Definition rec_of_audit (r : audit_row) : audit_rec :=
  AuditRec r.(au_id) r.(au_operation) r.(au_from_account) r.(au_to_account)
    (numeric_out <$> r.(au_amount)) r.(au_outcome) r.(au_error_reason)
    r.(au_transaction_id) r.(au_request_id) r.(au_created_at).

(** The join of an entry with its account. *)
Definition rec_of_entry (accs : gmap UUID account_row) (e : entry_row) : option entry_rec :=
  a ← accs !! e.(er_account_id);
  Some (EntryRec e.(er_id) e.(er_transaction_id) e.(er_account_id) e.(er_direction)
          (numeric_out e.(er_amount)) e.(er_created_at) a.(ar_name)).

(** ** Statements *)

Inductive sql : Type → Type :=
| SelectAccount (id : UUID) : sql (list account_rec)
| SelectUserAccounts : sql (list account_rec)
| SelectAccountsForUpdate (ids : list UUID) : sql (list account_rec)
| UpdateAccountBalance (balance : string) (updated_at : Time) (id : UUID) : sql unit
| InsertAccount (id : UUID) (name : string) : sql (list account_rec)
| InsertTransactionRow (id : UUID) (kind : TransactionKind) (key : string)
    (reverses : option UUID) : sql unit
| InsertEntryRow (txID accountID : UUID) (dir : Direction) (amount : string) : sql unit
| SelectTransactionByKey (key : string) : sql (list transaction_rec)
| SelectTransactionById (id : UUID) : sql (list transaction_rec)
| SelectTransactionsForAccount (accountID : UUID) (limit : Z) : sql (list transaction_rec)
| SelectTransactions (kind : option TransactionKind) (limit offset : Z) : sql (list transaction_rec)
| SelectEntries (txID : UUID) : sql (list entry_rec)
| SelectAuditForAccount (accountID : UUID) (limit : Z) : sql (list audit_rec)
| InsertAudit (operation : string) (from_account to_account : option UUID)
    (amount : option string) (outcome : Outcome) (error_reason : option string)
    (transaction_id : option UUID) (request_id : option string) : sql unit.

(** What the server brings to a statement: the timestamp [now()] of the
    enclosing transaction, the constraint it reports when several are violated,
    and the order in which it scans rows that the statement does not order, as the
    number of that order. *)
Record stmt_ctx := StmtCtx {
  cx_now : Time;
  cx_pick : nat;
  cx_scan : nat }.

Definition id_text_le (r1 r2 : account_rec) : Prop := Uuid.le r1.(rc_id) r2.(rc_id).
#[global] Instance id_text_le_dec : RelDecision id_text_le.
Proof. unfold id_text_le. intros r1 r2. apply _. Defined.

Definition name_le (r1 r2 : account_rec) : Prop := String.le r1.(rc_name) r2.(rc_name).
#[global] Instance name_le_dec : RelDecision name_le.
Proof. unfold name_le. intros r1 r2. apply _. Defined.

Definition entry_id_le (r1 r2 : entry_rec) : Prop := r1.(re_id) <= r2.(re_id).
#[global] Instance entry_id_le_dec : RelDecision entry_id_le.
Proof. unfold entry_id_le. intros r1 r2. apply _. Defined.

Definition txn_newer (r1 r2 : transaction_rec) : Prop := r2.(rt_created_at) <= r1.(rt_created_at).
#[global] Instance txn_newer_dec : RelDecision txn_newer.
Proof. unfold txn_newer. intros r1 r2. apply _. Defined.

(** [ORDER BY created_at DESC, id DESC]. *)
Definition txn_newer_id (r1 r2 : transaction_rec) : Prop :=
  r2.(rt_created_at) < r1.(rt_created_at) ∨
  (r1.(rt_created_at) = r2.(rt_created_at) ∧ Uuid.le r2.(rt_id) r1.(rt_id)).
#[global] Instance txn_newer_id_dec : RelDecision txn_newer_id.
Proof. unfold txn_newer_id. intros r1 r2. apply _. Defined.

Definition audit_newer (r1 r2 : audit_rec) : Prop := r2.(ra_created_at) <= r1.(ra_created_at).
#[global] Instance audit_newer_dec : RelDecision audit_newer.
Proof. unfold audit_newer. intros r1 r2. apply _. Defined.

(** [LIMIT n OFFSET m] for the non-negative values the handlers pass. *)
Definition page {A} (limit offset : Z) (l : list A) : list A :=
  take (Z.to_nat limit) (drop (Z.to_nat offset) l).

Definition with_accounts (t : Tables) (a : gmap UUID account_row) : Tables :=
  MkTables a t.(transactions) t.(entries) t.(audit_log).
Definition with_transactions (t : Tables) (x : gmap UUID transaction_row) : Tables :=
  MkTables t.(accounts) x t.(entries) t.(audit_log).
Definition with_entries (t : Tables) (es : list entry_row) : Tables :=
  MkTables t.(accounts) t.(transactions) es t.(audit_log).
Definition with_audit (t : Tables) (l : list audit_row) : Tables :=
  MkTables t.(accounts) t.(transactions) t.(entries) l.

(** *** accounts *)

(** [CONSTRAINT non_negative_user_balance CHECK (is_system OR balance >= 0)]. *)
Definition balance_check (is_system : bool) (balance : Z) : bool := is_system || (0 <=? balance).

Definition update_balance (text : string) (now : Time) (id : UUID) (t : Tables) : result error Tables :=
  let^ bal := numeric_in text in
  match t.(accounts) !! id with
  | None => Ok t
  | Some r =>
      if balance_check r.(ar_is_system) bal
      then Ok (with_accounts t (<[id := AccountRow r.(ar_name) bal r.(ar_is_system)
                                          r.(ar_created_at) now]> t.(accounts)))
      else Err (check_violation "non_negative_user_balance")
  end.

Definition insert_account (id : UUID) (name : string) (now : Time) (t : Tables) : result error Tables :=
  match t.(accounts) !! id with
  | Some _ => Err (unique_violation "accounts_pkey" "Key (id) already exists.")
  | None => Ok (with_accounts t (<[id := AccountRow name 0 false now now]> t.(accounts)))
  end.

(** *** transactions *)

Definition key_used (key : string) (t : Tables) : bool :=
  existsb (λ p, bool_decide (p.2.(tr_idempotency_key) = key)) (map_to_list t.(transactions)).

Definition reversal_used (rev : option UUID) (t : Tables) : bool :=
  match rev with
  | None => false
  | Some r => existsb (λ p, bool_decide (p.2.(tr_reverses) = Some r)) (map_to_list t.(transactions))
  end.

(** The unique constraints of [transactions] that a new row would violate. *)
Definition violated_uniques (id : UUID) (key : string) (rev : option UUID) (t : Tables) : list error :=
  (if bool_decide (is_Some (t.(transactions) !! id))
   then [unique_violation "transactions_pkey" "Key (id) already exists."] else []) ++
  (if key_used key t
   then [unique_violation "transactions_idempotency_key_key"
           ("Key (idempotency_key)=(" +:+ key +:+ ") already exists.")] else []) ++
  (if reversal_used rev t
   then [unique_violation "transactions_reverses_transaction_id_key"
           "Key (reverses_transaction_id) already exists."] else []).

Definition insert_transaction (cx : stmt_ctx) (id : UUID) (kind : TransactionKind) (key : string)
    (rev : option UUID) (t : Tables) : result error Tables :=
  match violated_uniques id key rev t with
  | e :: es => Err (default e ((e :: es) !! (cx.(cx_pick) mod length (e :: es))%nat))
  | [] =>
      let t' := with_transactions t (<[id := TransactionRow kind key rev cx.(cx_now)]> t.(transactions)) in
      match rev with
      | None => Ok t'
      | Some r => if bool_decide (is_Some (t'.(transactions) !! r)) then Ok t'
                  else Err (foreign_key_violation "transactions_reverses_transaction_id_fkey")
      end
  end.

(** *** entries *)

Definition max_bigint : Z := 2 ^ 63 - 1.

Definition nextval (seq : Z) : result error Z :=
  if seq <? max_bigint then Ok (seq + 1) else Err sequence_limit.

Definition insert_entry (id : Z) (txID accountID : UUID) (dir : Direction) (text : string) (now : Time)
    (t : Tables) : result error Tables :=
  let^ amount := numeric_in text in
  if negb (0 <? amount) then Err (check_violation "entries_amount_check")
  else if existsb (λ e, e.(er_id) =? id) t.(entries)
  then Err (unique_violation "entries_pkey" "Key (id) already exists.")
  else if negb (bool_decide (is_Some (t.(transactions) !! txID)))
  then Err (foreign_key_violation "entries_transaction_id_fkey")
  else if negb (bool_decide (is_Some (t.(accounts) !! accountID)))
  then Err (foreign_key_violation "entries_account_id_fkey")
  else Ok (with_entries t (t.(entries) ++ [EntryRow id txID accountID dir amount now])).

(** [check_double_entry_balance]: the signed sum of a transaction's entries. *)
Definition entries_of (txID : UUID) (t : Tables) : list entry_row :=
  filter (λ e, e.(er_transaction_id) = txID) t.(entries).

Definition signed_amount (e : entry_row) : Z := e.(er_amount) * sign e.(er_direction).

Definition net_sum (txID : UUID) (t : Tables) : Z := sumZ signed_amount (entries_of txID t).

Definition check_double_entry_balance (t : Tables) (txID : UUID) : bool := net_sum txID t =? 0.

(** *** audit_log *)

Definition insert_audit (row : Z → option Z → audit_row) (id : Z) (amount : option string)
    (t : Tables) : result error Tables :=
  match amount with
  | None => Ok (with_audit t (t.(audit_log) ++ [row id None]))
  | Some text => let^ a := numeric_in text in
                 Ok (with_audit t (t.(audit_log) ++ [row id (Some a)]))
  end.

(** *** Queries *)

Definition select_accounts_for_update (ids : list UUID) (t : Tables) : list account_rec :=
  merge_sort id_text_le
    (rec_of_account <$> filter (λ p, p.1 ∈ ids) (map_to_list t.(accounts))).

Definition select_transactions (P : UUID * transaction_row → bool) (t : Tables) : list transaction_rec :=
  rec_of_transaction <$> filter (λ p, P p = true) (map_to_list t.(transactions)).

Definition select_entries (txID : UUID) (t : Tables) : list entry_rec :=
  merge_sort entry_id_le (omap (rec_of_entry t.(accounts)) (entries_of txID t)).

Definition touches (accountID : UUID) (t : Tables) (p : UUID * transaction_row) : bool :=
  existsb (λ e, bool_decide (e.(er_transaction_id) = p.1 ∧ e.(er_account_id) = accountID)) t.(entries).

Definition kind_matches (k : option TransactionKind) (p : UUID * transaction_row) : bool :=
  match k with None => true | Some k => bool_decide (p.2.(tr_kind) = k) end.

Definition audit_touches (accountID : UUID) (r : audit_row) : bool :=
  bool_decide (r.(au_from_account) = Some accountID) || bool_decide (r.(au_to_account) = Some accountID).

(** ** Execution *)

Definition upd_tables (db : DB) (r : result error Tables) : result error unit * DB :=
  match r with
  | Ok t => (Ok tt, MkDB t db.(entries_seq) db.(audit_seq))
  | Err e => (Err e, db)
  end.

Definition sql_exec {A} (cx : stmt_ctx) (q : sql A) (db : DB) : result error A * DB :=
  let t := db.(tables) in
  match q in sql A return result error A * DB with
  | SelectAccount id =>
      (Ok (match t.(accounts) !! id with Some r => [rec_of_account (id, r)] | None => [] end), db)
  | SelectUserAccounts =>
      (Ok (merge_sort name_le (shuffle cx.(cx_scan)
             (rec_of_account <$> filter (λ p, p.2.(ar_is_system) = false) (map_to_list t.(accounts))))), db)
  | SelectAccountsForUpdate ids => (Ok (select_accounts_for_update ids t), db)
  | UpdateAccountBalance bal now id => upd_tables db (update_balance bal now id t)
  | InsertAccount id name =>
      match insert_account id name cx.(cx_now) t with
      | Ok t' => (Ok (match t'.(accounts) !! id with Some r => [rec_of_account (id, r)] | None => [] end),
                  MkDB t' db.(entries_seq) db.(audit_seq))
      | Err e => (Err e, db)
      end
  | InsertTransactionRow id kind key rev => upd_tables db (insert_transaction cx id kind key rev t)
  | InsertEntryRow txID accountID dir amount =>
      match nextval db.(entries_seq) with
      | Err e => (Err e, db)
      | Ok n => upd_tables (MkDB t n db.(audit_seq))
                  (insert_entry n txID accountID dir amount cx.(cx_now) t)
      end
  | SelectTransactionByKey key =>
      (Ok (select_transactions (λ p, bool_decide (p.2.(tr_idempotency_key) = key)) t), db)
  | SelectTransactionById id =>
      (Ok (match t.(transactions) !! id with Some r => [rec_of_transaction (id, r)] | None => [] end), db)
  | SelectTransactionsForAccount acc limit =>
      (Ok (page limit 0 (merge_sort txn_newer (shuffle cx.(cx_scan) (select_transactions (touches acc t) t)))), db)
  | SelectTransactions kind limit offset =>
      (Ok (page limit offset (merge_sort txn_newer_id (select_transactions (kind_matches kind) t))), db)
  | SelectEntries txID => (Ok (select_entries txID t), db)
  | SelectAuditForAccount acc limit =>
      (Ok (page limit 0 (merge_sort audit_newer (shuffle cx.(cx_scan)
             (rec_of_audit <$> filter (λ r, audit_touches acc r = true) t.(audit_log))))), db)
  | InsertAudit op from to amount outcome reason txID reqID =>
      match nextval db.(audit_seq) with
      | Err e => (Err e, db)
      | Ok n => upd_tables (MkDB t db.(entries_seq) n)
                  (insert_audit (λ i a, AuditRow i op from to a outcome reason txID reqID cx.(cx_now))
                     n amount t)
      end
  end.

(** The events a statement queues for the deferred constraint trigger. *)
Definition trigger_events {A} (q : sql A) : list UUID :=
  match q with InsertEntryRow txID _ _ _ => [txID] | _ => [] end.

End Schema.
