(* ===== verification/Pgx.v ===== *)
(** * The database driver and the runtime

    [Pgx] is what the store uses of pgx: statements on the pool, and a
    transaction with begin, statements, commit and rollback.  A statement is sent
    with [Exec] or [QueryRow], which wait for its whole answer, or with [Query],
    which returns a cursor: the rows that [Next] delivers, and what [Err] reports
    once they are exhausted.  [GoRuntime] is what
    the code draws from the process: fresh UUIDs, the clock and the logger.

    [PgM] implements both over an explicit [World].  Nothing of the environment
    is assumed: [Env] decides at each external call whether it fails, before or
    after taking effect, which UUID is drawn, what the clock shows, and what the
    other clients of the database have committed in the meantime.  A transaction
    block runs as a unit: the row locks it takes make it so. *)

From S2P Require Import Prelude GoStd Decimal Money Uuid Ledger Schema.
From stdpp Require Import options.
Import Ledger Schema.

(** ** Interfaces *)

Record Rows (R : Type) := MkRows { rows_data : list R; rows_Err : option error }.
Arguments MkRows {R} rows_data rows_Err.
Arguments rows_data {R} r.
Arguments rows_Err {R} r.

Class Pgx (M : Type → Type) := {
  pool_exec : ∀ {A : Type}, sql A → M (result error A);
  pool_Query : ∀ {R : Type}, sql (list R) → M (result error (Rows R));
  pool_BeginTx : M (result error unit);
  tx_exec : ∀ {A : Type}, sql A → M (result error A);
  tx_Query : ∀ {R : Type}, sql (list R) → M (result error (Rows R));
  tx_Commit : M (result error unit);
  tx_Rollback : M unit }.

Class GoRuntime (M : Type → Type) := {
  uuid_NewV7 : M (result error UUID);
  uuid_New : M UUID;
  time_Now : M Time;
  logger_Error : string → M unit }.

(** ** The world *)

(** What happens to an external call: it goes through, it fails without effect
    (connection, cancelled context, timeout, deadlock victim), or it takes effect
    and its acknowledgement is lost. *)
Inductive Fault := NoFault | FailBefore (msg : string) | AckLost (msg : string).

(** [env_cut] says of a query that fails after how many rows it does, if not at
    once. *)
Record Env := MkEnv {
  env_fault : nat → Fault;
  env_cut : nat → option nat;
  env_uuid : nat → option UUID;
  env_now : nat → Time;
  env_pick : nat → nat;
  env_scan : nat → nat;
  env_others : nat → DB → DB }.

(** A run has one environment: it is found like an instance. *)
Existing Class Env.

Record TxState := MkTx {
  tx_db : DB;
  tx_now : Time;
  tx_aborted : bool;
  tx_pending : list UUID }.

Record World := MkWorld {
  w_db : DB;
  w_tx : option TxState;
  w_tick : nat;
  w_log : list string }.

Definition PgM (A : Type) : Type := World → A * World.

#[export] Instance PgM_ret : MRet PgM := λ A a w, (a, w).
#[export] Instance PgM_bind : MBind PgM := λ A B f m w, let '(a, w') := m w in f a w'.

(** ** Operations *)

Section ops.
Context (env : Env).

Definition stmt_ctx_at (n : nat) (now : Time) : stmt_ctx :=
  StmtCtx now (env_pick env n) (env_scan env n).

(** The committed state as the next call finds it. *)
Definition refreshed (w : World) : DB := env_others env w.(w_tick) w.(w_db).

Definition triggers_pass (db : DB) (pending : list UUID) : bool :=
  forallb (check_double_entry_balance db.(tables)) pending.

(** A statement in its own transaction: it commits unless it fails or its
    deferred triggers do. *)
Definition autocommit {A} (n : nat) (q : sql A) (db : DB) : result error A * DB :=
  match sql_exec (stmt_ctx_at n (env_now env n)) q db with
  | (Ok a, db') =>
      if triggers_pass db' (trigger_events q) then (Ok a, db')
      else (Err trigger_exception, MkDB db.(tables) db'.(entries_seq) db'.(audit_seq))
  | (Err e, db') => (Err e, MkDB db.(tables) db'.(entries_seq) db'.(audit_seq))
  end.

Definition PgM_pool_exec {A} (q : sql A) : PgM (result error A) := λ w,
  let n := w.(w_tick) in
  let db := refreshed w in
  match env_fault env n with
  | NoFault => let '(r, db') := autocommit n q db in
               (r, MkWorld db' w.(w_tx) (S n) w.(w_log))
  | FailBefore e => (Err (Opaque e), MkWorld db w.(w_tx) (S n) w.(w_log))
  | AckLost e => (Err (Opaque e), MkWorld (autocommit n q db).2 w.(w_tx) (S n) w.(w_log))
  end.

(** A cursor: a failure shows at once or after some of the rows. *)
Definition cursor {R} (n : nat) (rows : list R) (r : result error (list R)) : result error (Rows R) :=
  match r with
  | Ok l => Ok (MkRows l None)
  | Err e => match env_cut env n with
             | None => Err e
             | Some k => Ok (MkRows (take k rows) (Some e))
             end
  end.

Definition answered {R} (r : result error (list R)) : list R :=
  match r with Ok l => l | Err _ => [] end.

Definition PgM_pool_Query {R} (q : sql (list R)) : PgM (result error (Rows R)) := λ w,
  let n := w.(w_tick) in
  let '(r, w') := PgM_pool_exec q w in
  (cursor n (answered (autocommit n q (refreshed w)).1) r, w').

Definition PgM_BeginTx : PgM (result error unit) := λ w,
  let n := w.(w_tick) in
  let db := refreshed w in
  match env_fault env n with
  | NoFault => (Ok tt, MkWorld db (Some (MkTx db (env_now env n) false [])) (S n) w.(w_log))
  | FailBefore e | AckLost e => (Err (Opaque e), MkWorld db None (S n) w.(w_log))
  end.

Definition tx_closed : error := Opaque "tx is closed".
Definition tx_commit_rollback : error := Opaque "commit unexpectedly resulted in rollback".

(** A statement that fails aborts the transaction block. *)
Definition PgM_tx_exec {A} (q : sql A) : PgM (result error A) := λ w,
  let n := w.(w_tick) in
  match w.(w_tx) with
  | None => (Err tx_closed, MkWorld w.(w_db) None (S n) w.(w_log))
  | Some tx =>
      let fail e db := (Err e, MkWorld w.(w_db)
        (Some (MkTx db tx.(tx_now) true tx.(tx_pending))) (S n) w.(w_log)) in
      if tx.(tx_aborted) then fail in_failed_transaction tx.(tx_db)
      else
        match env_fault env n with
        | FailBefore e | AckLost e => fail (Opaque e) tx.(tx_db)
        | NoFault =>
            match sql_exec (stmt_ctx_at n tx.(tx_now)) q tx.(tx_db) with
            | (Ok a, db') =>
                (Ok a, MkWorld w.(w_db)
                   (Some (MkTx db' tx.(tx_now) false (tx.(tx_pending) ++ trigger_events q)))
                   (S n) w.(w_log))
            | (Err e, db') => fail e db'
            end
        end
  end.

Definition PgM_tx_Query {R} (q : sql (list R)) : PgM (result error (Rows R)) := λ w,
  let n := w.(w_tick) in
  let rows := match w.(w_tx) with
              | None => []
              | Some tx => answered (sql_exec (stmt_ctx_at n tx.(tx_now)) q tx.(tx_db)).1
              end in
  let '(r, w') := PgM_tx_exec q w in
  (cursor n rows r, w').

(** The committed tables stay, the sequences keep their advance. *)
Definition rolled_back (committed working : DB) : DB :=
  MkDB committed.(tables) working.(entries_seq) working.(audit_seq).

Definition PgM_Commit : PgM (result error unit) := λ w,
  let n := w.(w_tick) in
  match w.(w_tx) with
  | None => (Err tx_closed, MkWorld w.(w_db) None (S n) w.(w_log))
  | Some tx =>
      let close db := MkWorld db None (S n) w.(w_log) in
      let back := rolled_back w.(w_db) tx.(tx_db) in
      if tx.(tx_aborted) then (Err tx_commit_rollback, close back)
      else
        let ok := triggers_pass tx.(tx_db) tx.(tx_pending) in
        match env_fault env n with
        | FailBefore e => (Err (Opaque e), close back)
        | AckLost e => (Err (Opaque e), close (if ok then tx.(tx_db) else back))
        | NoFault => if ok then (Ok tt, close tx.(tx_db)) else (Err trigger_exception, close back)
        end
  end.

(** [_ = tx.Rollback(ctx)]: a no-op once the transaction is closed. *)
Definition PgM_Rollback : PgM unit := λ w,
  match w.(w_tx) with
  | None => (tt, w)
  | Some tx => (tt, MkWorld (rolled_back w.(w_db) tx.(tx_db)) None (S w.(w_tick)) w.(w_log))
  end.

#[export] Instance PgM_Pgx : Pgx PgM := {
  pool_exec := @PgM_pool_exec;
  pool_Query := @PgM_pool_Query;
  pool_BeginTx := PgM_BeginTx;
  tx_exec := @PgM_tx_exec;
  tx_Query := @PgM_tx_Query;
  tx_Commit := PgM_Commit;
  tx_Rollback := PgM_Rollback }.

Definition PgM_NewV7 : PgM (result error UUID) := λ w,
  (match env_uuid env w.(w_tick) with
   | Some u => Ok u
   | None => Err (Opaque "uuid: entropy source failed")
   end, MkWorld w.(w_db) w.(w_tx) (S w.(w_tick)) w.(w_log)).

Definition PgM_New : PgM UUID := λ w,
  (default Uuid.Nil (env_uuid env w.(w_tick)),
   MkWorld w.(w_db) w.(w_tx) (S w.(w_tick)) w.(w_log)).

Definition PgM_Now : PgM Time := λ w, (env_now env w.(w_tick), w).

Definition PgM_log (msg : string) : PgM unit := λ w,
  (tt, MkWorld w.(w_db) w.(w_tx) w.(w_tick) (w.(w_log) ++ [msg])).

#[export] Instance PgM_Runtime : GoRuntime PgM := {
  uuid_NewV7 := PgM_NewV7;
  uuid_New := PgM_New;
  time_Now := PgM_Now;
  logger_Error := PgM_log }.
End ops.

#[export] Existing Instances PgM_Pgx PgM_Runtime.
