(* ===== verification/Store.v ===== *)
(** * internal/store

    Every function of [postgres.go], [accounts.go], [transactions.go] and
    [audit.go] except the pool's construction, over any monad with the driver
    [Pgx].  A function that takes a [pgx.Tx] sends its statements with [tx_exec]
    and [tx_Query]; a method that uses the pool sends them with [pool_exec] and
    [pool_Query].  [WithTx] returns
    what the callback assigns to the variables it captures. *)

From S2P Require Import Prelude GoStd Decimal Money Uuid Ledger Schema Pgx.
From stdpp Require Import options.
Import Ledger Schema.

Module Store.

(** ** Scanning *)

Definition scanAccount (row : account_rec) : result error Account :=
  let^ bal := Decimal.Scan row.(rc_balance) in
  Ok (MkAccount row.(rc_id) row.(rc_name) (Money.NewFromDecimal bal) row.(rc_is_system)
        row.(rc_created_at) row.(rc_updated_at)).

Definition scanTransaction (row : transaction_rec) : result error Transaction :=
  Ok (MkTransaction row.(rt_id) row.(rt_kind) row.(rt_idempotency_key)
        row.(rt_reverses) row.(rt_created_at) []).

Definition scanTransactionRow (row : transaction_rec) : result error Transaction :=
  Ok (MkTransaction row.(rt_id) row.(rt_kind) row.(rt_idempotency_key)
        row.(rt_reverses) row.(rt_created_at) []).

Definition scanEntry (row : entry_rec) : result error Entry :=
  let^ amt := Decimal.Scan row.(re_amount) in
  Ok (MkEntry row.(re_id) row.(re_transaction_id) row.(re_account_id) row.(re_direction)
        row.(re_name) (Money.NewFromDecimal amt) row.(re_created_at)).

Definition scanAudit (row : audit_rec) : result error AuditEntry :=
  let^ amount :=
    match row.(ra_amount) with
    | None => Ok None
    | Some text => let^ amt := Decimal.Scan text in Ok (Some (Money.NewFromDecimal amt))
    end in
  Ok (MkAuditEntry row.(ra_id) row.(ra_operation) row.(ra_from_account) row.(ra_to_account)
        amount row.(ra_outcome) row.(ra_error_reason) row.(ra_transaction_id)
        row.(ra_request_id) row.(ra_created_at)).

(** The [rows.Next] loops: scan each row, stop at the first failure. *)
Fixpoint scan_rows {R A} (label : string) (scan : R → result error A) (rows : list R)
  : result error (list A) :=
  match rows with
  | [] => Ok []
  | row :: rest =>
      match scan row with
      | Err e => Err (Wrapf label e)
      | Ok a => let^ l := scan_rows label scan rest in Ok (a :: l)
      end
  end.

(** [rows.Err()] after the loop: the scanned values, or what ended the rows. *)
Definition rows_close {R A} (wrap : error → error) (rows : Rows R) (a : A) : result error A :=
  match rows.(rows_Err) with None => Ok a | Some e => Err (wrap e) end.

Definition collectAccounts (rows : Rows account_rec) : result error (list Account) :=
  let^ accounts := scan_rows "store.collectAccounts scan" scanAccount rows.(rows_data) in
  rows_close (Wrapf "store.collectAccounts rows") rows accounts.

(** [QueryRow(...)] followed by [Scan]. *)
Definition scan_row {R A} (scan : R → result error A) (r : result error (list R)) : result error A :=
  match r with
  | Err e => Err e
  | Ok [] => Err ErrNoRows
  | Ok (row :: _) => scan row
  end.

Definition pgErrUniqueViolation : string := "23505".

(** [containsSubstr]: the scan over the start positions. *)
Fixpoint contains_from (fuel i : nat) (s sub : bytes) : bool :=
  match fuel with
  | O => false
  | S fuel' =>
      if (i + length sub <=? length s)%nat then
        if bool_decide (take (length sub) (drop i s) = sub) then true
        else contains_from fuel' (S i) s sub
      else false
  end.

Definition containsSubstr (s sub : string) : bool :=
  let s := s2b s in
  let sub := s2b sub in
  match sub with
  | [] => true
  | _ => contains_from (S (length s)) 0 s sub
  end.

(** The error [InsertTransaction] returns for a failed [INSERT]. *)
Definition insert_error (err : error) : error :=
  match errors_As_PgError err with
  | Some pgErr =>
      if bool_decide (pgErr.(pg_Code) = pgErrUniqueViolation) then ErrIdempotencyConflict
      else Wrapf "store.InsertTransaction" err
  | None => Wrapf "store.InsertTransaction" err
  end.

(** The error [InsertReversalTransaction] returns: the constraint name decides,
    and the detail text when there is none. *)
Definition insert_reversal_error (err : error) : error :=
  match errors_As_PgError err with
  | Some pgErr =>
      if bool_decide (pgErr.(pg_Code) = pgErrUniqueViolation) then
        if bool_decide (pgErr.(pg_ConstraintName) = "transactions_reverses_transaction_id_key")
        then ErrAlreadyReversed
        else if bool_decide (pgErr.(pg_ConstraintName) = "transactions_idempotency_key_key")
        then ErrIdempotencyConflict
        else if containsSubstr pgErr.(pg_Detail) "reverses_transaction_id"
        then ErrAlreadyReversed
        else ErrIdempotencyConflict
      else Wrapf "store.InsertReversalTransaction" err
  | None => Wrapf "store.InsertReversalTransaction" err
  end.

Record ListTransactionsOpts := MkListOpts {
  opt_Limit : Z; opt_Offset : Z; opt_Kind : option TransactionKind }.

Section store.
Context {M : Type → Type} `{!MRet M, !MBind M, !Pgx M, !GoRuntime M}.

(** ** postgres.go *)

Definition WithTx {A} (fn : M (result error A)) : M (result error A) :=
  let! b := pool_BeginTx in
  match b with
  | Err e => mret (Err (Wrapf "store.WithTx begin" e))
  | Ok _ =>
      let! r := fn in
      match r with
      | Err e => let! _ := tx_Rollback in mret (Err e)
      | Ok a =>
          let! c := tx_Commit in
          let! _ := tx_Rollback in
          match c with
          | Err e => mret (Err (Wrapf "store.WithTx commit" e))
          | Ok _ => mret (Ok a)
          end
      end
  end.

(** ** accounts.go *)

Definition GetAccount (id : UUID) : M (result error Account) :=
  let! r := pool_exec (SelectAccount id) in
  mret match scan_row scanAccount r with
       | Ok a => Ok a
       | Err e => if errors_Is e ErrNoRows then Err ErrAccountNotFound
                  else Err (Wrapf "store.GetAccount" e)
       end.

Definition ListAccounts : M (result error (list Account)) :=
  let! r := pool_Query SelectUserAccounts in
  mret match r with
       | Err e => Err (Wrapf "store.ListAccounts query" e)
       | Ok rows => collectAccounts rows
       end.

Definition LockAccountsForUpdate (ids : list UUID) : M (result error (list Account)) :=
  let! r := tx_Query (SelectAccountsForUpdate (Uuid.sort ids)) in
  mret match r with
       | Err e => Err (Wrapf "store.LockAccountsForUpdate" e)
       | Ok rows => collectAccounts rows
       end.

Definition UpdateBalance (id : UUID) (newBalance : Money.Money) : M (result error unit) :=
  let! now := time_Now in
  let! r := tx_exec (UpdateAccountBalance (Decimal.Value (Money.Decimal newBalance)) now id) in
  mret (map_err (Wrapf "store.UpdateBalance") r).

Definition CreateAccount (name : string) : M (result error Account) :=
  let! u := uuid_NewV7 in
  match u with
  | Err e => mret (Err (Wrapf "store.CreateAccount uuid" e))
  | Ok id =>
      let! r := pool_exec (InsertAccount id name) in
      mret (map_err (Wrapf "store.CreateAccount") (scan_row scanAccount r))
  end.

(** ** transactions.go *)

Definition InsertTransaction (t : Transaction) : M (result error unit) :=
  let! r := tx_exec (InsertTransactionRow t.(txn_ID) t.(txn_Kind) t.(txn_IdempotencyKey)
                       t.(txn_ReversesTransactionID)) in
  mret (map_err insert_error r).

Definition InsertReversalTransaction (t : Transaction) : M (result error unit) :=
  let! r := tx_exec (InsertTransactionRow t.(txn_ID) t.(txn_Kind) t.(txn_IdempotencyKey)
                       t.(txn_ReversesTransactionID)) in
  mret (map_err insert_reversal_error r).

Fixpoint insert_each (es : list Entry) : M (result error unit) :=
  match es with
  | [] => mret (Ok tt)
  | e :: rest =>
      let! r := tx_exec (InsertEntryRow e.(ent_TransactionID) e.(ent_AccountID) e.(ent_Direction)
                           (Decimal.Value (Money.Decimal e.(ent_Amount)))) in
      match r with
      | Err err => mret (Err (Wrapf "store.InsertEntries" err))
      | Ok _ => insert_each rest
      end
  end.

Definition InsertEntries (es : list Entry) : M (result error unit) :=
  if forallb (λ e, Money.IsPositive e.(ent_Amount)) es
  then insert_each es
  else mret (Err ErrInvalidAmount).

Definition listEntries (txID : UUID) : M (result error (list Entry)) :=
  let! r := pool_Query (SelectEntries txID) in
  mret match r with
       | Err e => Err (Wrapf "store.listEntries" e)
       | Ok rows =>
           let^ entries := scan_rows "store.listEntries scan" scanEntry rows.(rows_data) in
           rows_close id rows entries
       end.

(** The common tail of the two single-transaction getters. *)
Definition found_transaction (label : string) (r : result error (list transaction_rec))
  : M (result error (Transaction * list Entry)) :=
  match scan_row scanTransaction r with
  | Err e => mret (if errors_Is e ErrNoRows then Err ErrTransactionNotFound
                   else Err (Wrapf label e))
  | Ok t =>
      let? es := listEntries t.(txn_ID) in
      mret (Ok (with_Entries t es, es))
  end.

Definition GetTransactionByIdempotencyKey (key : string) : M (result error (Transaction * list Entry)) :=
  let! r := pool_exec (SelectTransactionByKey key) in
  found_transaction "store.GetTransactionByIdempotencyKey" r.

Definition GetTransaction (id : UUID) : M (result error (Transaction * list Entry)) :=
  let! r := pool_exec (SelectTransactionById id) in
  found_transaction "store.GetTransaction" r.

(** The N+1 loop that fills in the entries of a page of transactions. *)
Fixpoint populate (txns : list Transaction) : M (result error (list Transaction)) :=
  match txns with
  | [] => mret (Ok [])
  | t :: rest =>
      let? es := listEntries t.(txn_ID) in
      let? l := populate rest in
      mret (Ok (with_Entries t es :: l))
  end.

Definition ListTransactionsForAccount (accountID : UUID) (limit : Z)
  : M (result error (list Transaction)) :=
  let! r := pool_Query (SelectTransactionsForAccount accountID limit) in
  match r with
  | Err e => mret (Err (Wrapf "store.ListTransactionsForAccount" e))
  | Ok rows =>
      match
        let^ txns := scan_rows "store.ListTransactionsForAccount scan" scanTransactionRow rows.(rows_data) in
        rows_close (Wrapf "store.ListTransactionsForAccount rows") rows txns
      with
      | Err e => mret (Err e)
      | Ok txns => populate txns
      end
  end.

Definition ListTransactions (opts : ListTransactionsOpts) : M (result error (list Transaction)) :=
  let! r := pool_Query (SelectTransactions opts.(opt_Kind) opts.(opt_Limit) opts.(opt_Offset)) in
  match r with
  | Err e => mret (Err (Wrapf "store.ListTransactions" e))
  | Ok rows =>
      match
        let^ txns := scan_rows "store.ListTransactions scan" scanTransactionRow rows.(rows_data) in
        rows_close (Wrapf "store.ListTransactions rows") rows txns
      with
      | Err e => mret (Err e)
      | Ok txns => populate txns
      end
  end.

(** ** audit.go *)

Definition ListAuditForAccount (accountID : UUID) (limit : Z) : M (result error (list AuditEntry)) :=
  let! r := pool_Query (SelectAuditForAccount accountID limit) in
  mret match r with
       | Err e => Err (Wrapf "store.ListAuditForAccount" e)
       | Ok rows =>
           let^ entries := scan_rows "store.ListAuditForAccount scan" scanAudit rows.(rows_data) in
           rows_close (Wrapf "store.ListAuditForAccount rows") rows entries
       end.

Definition WriteAudit (entry : AuditEntry) : M (result error unit) :=
  let amt := (λ m, Decimal.Value (Money.Decimal m)) <$> entry.(aud_Amount) in
  let! r := pool_exec (InsertAudit entry.(aud_Operation) entry.(aud_FromAccount)
                         entry.(aud_ToAccount) amt entry.(aud_Outcome) entry.(aud_ErrorReason)
                         entry.(aud_TransactionID) entry.(aud_RequestID)) in
  mret (map_err (Wrapf "store.WriteAudit") r).
End store.

End Store.
