(* ===== verification/Service.v ===== *)
(** * internal/ledger/service.go

    [Storer] is the persistence interface the service is written against; the
    three operations and the two audit writers follow the Go code branch by
    branch, over any monad with a [Storer] and the Go runtime. *)

From S2P Require Import Prelude GoStd Decimal Money Uuid Ledger Pgx.
From stdpp Require Import options.
Import Ledger.

Module Service.

Class Storer (M : Type → Type) := {
  WithTx : ∀ {A : Type}, M (result error A) → M (result error A);
  GetTransactionByIdempotencyKey : string → M (result error (Transaction * list Entry));
  GetTransaction : UUID → M (result error (Transaction * list Entry));
  WriteAudit : AuditEntry → M (result error unit);
  LockAccountsForUpdate : list UUID → M (result error (list Account));
  UpdateBalance : UUID → Money.Money → M (result error unit);
  InsertTransaction : Transaction → M (result error unit);
  InsertReversalTransaction : Transaction → M (result error unit);
  InsertEntries : list Entry → M (result error unit) }.

(** The loop that tells the two locked rows apart; a variable that is not
    assigned keeps Go's zero [Account]. *)
Definition pick_accounts (id1 id2 : UUID) (locked : list Account) : Account * Account :=
  foldl (λ p a, if decide (a.(acc_ID) = id1) then (a, p.2)
                else if decide (a.(acc_ID) = id2) then (p.1, a) else p)
    (zero_Account, zero_Account) locked.

(** The loop of [Reverse] over the original entries: the last debit gives the
    source and the amount, the last other leg the destination. *)
Definition scan_legs (es : list Entry) : UUID * UUID * Money.Money :=
  foldl (λ p e, let '(src, dst, amount) := p in
                if decide (e.(ent_Direction) = DirectionDebit)
                then (e.(ent_AccountID), dst, e.(ent_Amount))
                else (src, e.(ent_AccountID), amount))
    (Uuid.Nil, Uuid.Nil, Money.zero_value) es.

Section service.
Context {M : Type → Type} `{!MRet M, !MBind M, !Storer M, !GoRuntime M}.

Abbreviation reply := (result error (Transaction * list Entry)).

Definition auditSuccess (op : string) (from to : option UUID) (amount : option Money.Money)
    (requestID : string) (txID : option UUID) : M unit :=
  let entry := MkAuditEntry 0 op from to amount OutcomeSuccess None txID (Some requestID) zero_time in
  let! r := WriteAudit entry in
  match r with
  | Ok _ => mret tt
  | Err e => logger_Error ("audit write failed (success path) " +:+ op +:+ ": " +:+ Error e)
  end.

Definition auditFailure (op : string) (from to : option UUID) (amount : option Money.Money)
    (requestID : string) (reason : error) : M unit :=
  let errStr := Error reason in
  let entry := MkAuditEntry 0 op from to amount OutcomeFailure (Some errStr) None (Some requestID) zero_time in
  let! r := WriteAudit entry in
  match r with
  | Ok _ => mret tt
  | Err e => logger_Error ("audit write failed (failure path) " +:+ op +:+ ": " +:+ Error e)
  end.

(** ** Transfer *)

(** The callback of [Transfer]'s [WithTx]. *)
Definition transfer_tx (srcID dstID : UUID) (amount : Money.Money) (txn : Transaction) : M reply :=
  let! l := LockAccountsForUpdate [srcID; dstID] in
  match l with
  | Err e => mret (Err (Wrapf "service.Transfer lock" e))
  | Ok locked =>
      if negb (length locked =? 2)%nat then mret (Err ErrAccountNotFound)
      else
        let '(src, dst) := pick_accounts srcID dstID locked in
        if Money.LessThan src.(acc_Balance) amount then mret (Err ErrInsufficientFunds)
        else
          let? _ := UpdateBalance srcID (Money.Sub src.(acc_Balance) amount) in
          let? _ := UpdateBalance dstID (Money.Add dst.(acc_Balance) amount) in
          let? _ := InsertTransaction txn in
          let entries := [new_Entry txn.(txn_ID) srcID DirectionDebit amount;
                          new_Entry txn.(txn_ID) dstID DirectionCredit amount] in
          let? _ := InsertEntries entries in
          mret (Ok (txn, entries))
  end.

(** What follows [WithTx]: on an idempotency conflict the stored transaction
    is fetched and returned without an audit row; any other error, or a failed
    fetch, is audited and returned; success is audited. *)
Definition finish (op : string) (from to : option UUID) (amount : option Money.Money)
    (idemKey requestID : string) (txID : UUID) (res : reply) : M reply :=
  match res with
  | Err txErr =>
      let fail :=
        let! _ := auditFailure op from to amount requestID txErr in
        mret (Err txErr) in
      if bool_decide (txErr = ErrIdempotencyConflict) then
        let! g := GetTransactionByIdempotencyKey idemKey in
        match g with
        | Ok existing => mret (Ok existing)
        | Err _ => fail
        end
      else fail
  | Ok committed =>
      let! _ := auditSuccess op from to amount requestID (Some txID) in
      mret (Ok committed)
  end.

Definition Transfer (srcID dstID : UUID) (amount : Money.Money) (idemKey requestID : string) : M reply :=
  let reject reason :=
    let! _ := auditFailure "TRANSFER" (Some srcID) (Some dstID) (Some amount) requestID reason in
    mret (Err reason) in
  if negb (Money.IsPositive amount) then reject ErrInvalidAmount
  else if decide (srcID = dstID) then reject ErrSelfTransfer
  else if decide (srcID = ExternalAccountID ∨ dstID = ExternalAccountID) then reject ErrSystemAccount
  else
    let! g := GetTransactionByIdempotencyKey idemKey in
    match g with
    | Ok existing => mret (Ok existing)
    | Err _ =>
        let! u := uuid_NewV7 in
        match u with
        | Err e => mret (Err (Wrapf "service.Transfer uuid" e))
        | Ok txID =>
            let txn := new_Transaction txID KindTransfer idemKey None in
            let! res := WithTx (transfer_tx srcID dstID amount txn) in
            finish "TRANSFER" (Some srcID) (Some dstID) (Some amount) idemKey requestID txID res
        end
    end.

(** ** Reverse *)

Definition reverse_tx (origSrcID origDstID : UUID) (amount : Money.Money) (revTx : Transaction) : M reply :=
  let! l := LockAccountsForUpdate [origSrcID; origDstID] in
  match l with
  | Err e => mret (Err (Wrapf "service.Reverse lock" e))
  | Ok locked =>
      if negb (length locked =? 2)%nat then mret (Err ErrAccountNotFound)
      else
        let '(origSrc, origDst) := pick_accounts origSrcID origDstID locked in
        if Money.LessThan origDst.(acc_Balance) amount then mret (Err ErrInsufficientFunds)
        else
          let? _ := UpdateBalance origDstID (Money.Sub origDst.(acc_Balance) amount) in
          let? _ := UpdateBalance origSrcID (Money.Add origSrc.(acc_Balance) amount) in
          let? _ := InsertReversalTransaction revTx in
          let entries := [new_Entry revTx.(txn_ID) origDstID DirectionDebit amount;
                          new_Entry revTx.(txn_ID) origSrcID DirectionCredit amount] in
          let? _ := InsertEntries entries in
          mret (Ok (revTx, entries))
  end.

Definition Reverse (originalTxID : UUID) (idemKey requestID : string) : M reply :=
  let! g := GetTransactionByIdempotencyKey idemKey in
  match g with
  | Ok existing => mret (Ok existing)
  | Err _ =>
      let! o := GetTransaction originalTxID in
      match o with
      | Err e =>
          let! _ := auditFailure "REVERSAL" None None None requestID e in
          mret (Err e)
      | Ok (origTx, origEntries) =>
          if negb (bool_decide (origTx.(txn_Kind) = KindTransfer)) then
            let! _ := auditFailure "REVERSAL" None None None requestID ErrNotReversible in
            mret (Err ErrNotReversible)
          else
            let '(origSrcID, origDstID, amount) := scan_legs origEntries in
            let! u := uuid_NewV7 in
            match u with
            | Err e => mret (Err (Wrapf "service.Reverse uuid" e))
            | Ok txID =>
                let revTx := new_Transaction txID KindReversal idemKey (Some originalTxID) in
                let! res := WithTx (reverse_tx origSrcID origDstID amount revTx) in
                finish "REVERSAL" (Some origDstID) (Some origSrcID) (Some amount)
                  idemKey requestID txID res
            end
      end
  end.

(** ** Deposit *)

Definition deposit_tx (dstID : UUID) (amount : Money.Money) (txn : Transaction) : M reply :=
  let! l := LockAccountsForUpdate [ExternalAccountID; dstID] in
  match l with
  | Err e => mret (Err (Wrapf "service.Deposit lock" e))
  | Ok locked =>
      if negb (length locked =? 2)%nat then mret (Err ErrAccountNotFound)
      else
        let '(ext, dst) := pick_accounts ExternalAccountID dstID locked in
        let? _ := UpdateBalance ExternalAccountID (Money.Sub ext.(acc_Balance) amount) in
        let? _ := UpdateBalance dstID (Money.Add dst.(acc_Balance) amount) in
        let? _ := InsertTransaction txn in
        let entries := [new_Entry txn.(txn_ID) ExternalAccountID DirectionDebit amount;
                        new_Entry txn.(txn_ID) dstID DirectionCredit amount] in
        let? _ := InsertEntries entries in
        mret (Ok (txn, entries))
  end.

Definition Deposit (dstID : UUID) (amount : Money.Money) (idemKey requestID : string) : M reply :=
  let reject reason :=
    let! _ := auditFailure "DEPOSIT" (Some ExternalAccountID) (Some dstID) (Some amount) requestID reason in
    mret (Err reason) in
  if negb (Money.IsPositive amount) then reject ErrInvalidAmount
  else if decide (dstID = ExternalAccountID) then reject ErrSystemAccount
  else
    let! g := GetTransactionByIdempotencyKey idemKey in
    match g with
    | Ok existing => mret (Ok existing)
    | Err _ =>
        let! u := uuid_NewV7 in
        match u with
        | Err e => mret (Err (Wrapf "service.Deposit uuid" e))
        | Ok txID =>
            let txn := new_Transaction txID KindDeposit idemKey None in
            let! res := WithTx (deposit_tx dstID amount txn) in
            finish "DEPOSIT" (Some ExternalAccountID) (Some dstID) (Some amount)
              idemKey requestID txID res
        end
    end.
End service.

End Service.
