(* ===== verification/LedgerSpec.v ===== *)
(** * The abstract ledger

    What the service promises, without tables, text or drivers: accounts with
    their balance, transactions with their legs, the audit trail; the one move of
    money that [Transfer], [Reverse] and [Deposit] perform; the invariant of a
    ledger; and how a ledger may evolve under any client. *)

From S2P Require Import Prelude GoStd Decimal Money Uuid Ledger Schema.
From stdpp Require Import options.
Open Scope Z_scope.

Module LedgerSpec.
Import Ledger.

(** ** State *)

Record acct := Acct { a_units : Z; a_system : bool }.

Record leg := Leg { l_account : UUID; l_direction : Direction; l_units : Z }.

Record txn := Txn {
  x_kind : TransactionKind; x_key : string; x_reverses : option UUID; x_legs : list leg }.

Record audit := Audit {
  u_operation : string; u_from : option UUID; u_to : option UUID; u_units : option Z;
  u_outcome : Outcome; u_reason : option string; u_txn : option UUID; u_request : option string }.

Record ledger := MkLedger {
  accts : gmap UUID acct; txns : gmap UUID txn; trail : list audit }.

#[global] Instance leg_eq_dec : EqDecision leg.
Proof. solve_decision. Defined.
#[global] Instance txn_eq_dec : EqDecision txn.
Proof. solve_decision. Defined.

(** The contribution of a leg to its account's balance. *)
Definition leg_units (l : leg) : Z := l.(l_units) * sign l.(l_direction).

(** What a transaction contributes to the balance of [a]. *)
Definition contribution (a : UUID) (x : txn) : Z :=
  sumZ (λ l, if decide (l.(l_account) = a) then leg_units l else 0) x.(x_legs).

(** The balance that the journal gives to [a]. *)
Definition journal_balance (a : UUID) (L : ledger) : Z := map_sumZ (contribution a) L.(txns).

(** The sum of all account balances. *)
Definition total (L : ledger) : Z := map_sumZ a_units L.(accts).

(** ** Updates *)

Definition set_units (id : UUID) (u : Z) (L : ledger) : ledger :=
  MkLedger (alter (λ x, Acct u x.(a_system)) id L.(accts)) L.(txns) L.(trail).

Definition add_txn (id : UUID) (x : txn) (L : ledger) : ledger :=
  MkLedger L.(accts) (<[id := x]> L.(txns)) L.(trail).

Definition add_leg (id : UUID) (l : leg) (L : ledger) : ledger :=
  MkLedger L.(accts)
    (alter (λ x, Txn x.(x_kind) x.(x_key) x.(x_reverses) (x.(x_legs) ++ [l])) id L.(txns)) L.(trail).

Definition add_audit (u : audit) (L : ledger) : ledger :=
  MkLedger L.(accts) L.(txns) (L.(trail) ++ [u]).

(** One movement of money, as requested of the service. *)
Record request := Request {
  rq_kind : TransactionKind; rq_from : UUID; rq_to : UUID; rq_units : Z;
  rq_key : string; rq_reverses : option UUID; rq_request : string }.

Definition units_of (id : UUID) (L : ledger) : Z :=
  match L.(accts) !! id with Some x => x.(a_units) | None => 0 end.

Definition rq_legs (rq : request) : list leg :=
  [Leg rq.(rq_from) DirectionDebit rq.(rq_units); Leg rq.(rq_to) DirectionCredit rq.(rq_units)].

(** Debit one account, credit the other, record the transaction with both legs. *)
Definition move (rq : request) (id : UUID) (L : ledger) : ledger :=
  MkLedger
    (alter (λ x, Acct (x.(a_units) + rq.(rq_units)) x.(a_system)) rq.(rq_to)
      (alter (λ x, Acct (x.(a_units) - rq.(rq_units)) x.(a_system)) rq.(rq_from) L.(accts)))
    (<[id := Txn rq.(rq_kind) rq.(rq_key) rq.(rq_reverses) (rq_legs rq)]> L.(txns))
    L.(trail).

Definition key_fresh (key : string) (L : ledger) : Prop :=
  ∀ id x, L.(txns) !! id = Some x → x.(x_key) ≠ key.

Definition not_reversed (rev : option UUID) (L : ledger) : Prop :=
  ∀ o id x, rev = Some o → L.(txns) !! id = Some x → x.(x_reverses) ≠ Some o.

(** What the ledger must satisfy for the move to be recorded. *)
Record can_move (rq : request) (id : UUID) (L : ledger) : Prop := {
  cm_units : 0 < rq.(rq_units) < Schema.numeric_limit;
  cm_from : ∃ x, L.(accts) !! rq.(rq_from) = Some x
      ∧ (x.(a_system) = true ∨ rq.(rq_units) <= x.(a_units))
      ∧ Z.abs (x.(a_units) - rq.(rq_units)) < Schema.numeric_limit;
  cm_to : ∃ y, L.(accts) !! rq.(rq_to) = Some y
      ∧ (y.(a_system) = true ∨ 0 <= y.(a_units) + rq.(rq_units))
      ∧ Z.abs (y.(a_units) + rq.(rq_units)) < Schema.numeric_limit;
  cm_id : L.(txns) !! id = None;
  cm_key : key_fresh rq.(rq_key) L;
  cm_not_reversed : not_reversed rq.(rq_reverses) L }.

(** *** Deciding whether a move can be recorded *)

#[global] Instance key_fresh_dec key L : Decision (key_fresh key L).
Proof. change (Decision (map_Forall (λ _ x, x.(x_key) ≠ key) L.(txns))). apply _. Defined.

Definition not_reversed_bool (rev : option UUID) (L : ledger) : bool :=
  match rev with
  | None => true
  | Some o => bool_decide (map_Forall (λ _ x, x.(x_reverses) ≠ Some o) L.(txns))
  end.

Lemma not_reversed_iff rev L : not_reversed_bool rev L = true ↔ not_reversed rev L.
Proof.
  unfold not_reversed_bool, not_reversed. destruct rev as [o|]; [|split; [by intros _ o i x [=] | done]].
  rewrite bool_decide_eq_true. split; [|by intros H i x; apply H].
  intros H o' i x [= <-]. apply H.
Qed.

Definition can_move_bool (rq : request) (id : UUID) (L : ledger) : bool :=
  let u := rq.(rq_units) in
  bool_decide (0 < u < Schema.numeric_limit) &&
  match L.(accts) !! rq.(rq_from), L.(accts) !! rq.(rq_to) with
  | Some x, Some y =>
      bool_decide ((x.(a_system) = true ∨ u <= x.(a_units)) ∧ Z.abs (x.(a_units) - u) < Schema.numeric_limit) &&
      bool_decide ((y.(a_system) = true ∨ 0 <= y.(a_units) + u) ∧ Z.abs (y.(a_units) + u) < Schema.numeric_limit)
  | _, _ => false
  end &&
  bool_decide (L.(txns) !! id = None) && bool_decide (key_fresh rq.(rq_key) L) &&
  not_reversed_bool rq.(rq_reverses) L.

Lemma can_move_decide rq id L : can_move_bool rq id L = true → can_move rq id L.
Proof.
  unfold can_move_bool. rewrite !andb_true_iff, not_reversed_iff, !bool_decide_eq_true.
  intros ((((Hu&Ha)&Hid)&Hk)&Hr).
  destruct (L.(accts) !! rq_from rq) as [x|] eqn:Hx, (L.(accts) !! rq_to rq) as [y|] eqn:Hy; try done.
  rewrite andb_true_iff, !bool_decide_eq_true in Ha. destruct Ha as [Hf Ht].
  split; eauto.
Qed.

(** ** The invariant *)

(** The shape a recorded transaction has according to its kind. *)
Definition txn_shape (L : ledger) (x : txn) : Prop :=
  match x.(x_kind) with
  | KindTransfer =>
      x.(x_reverses) = None ∧
      ∃ a b u, x.(x_legs) = [Leg a DirectionDebit u; Leg b DirectionCredit u]
               ∧ a ≠ b ∧ a ≠ ExternalAccountID ∧ b ≠ ExternalAccountID
  | KindDeposit =>
      x.(x_reverses) = None ∧
      ∃ b u, x.(x_legs) = [Leg ExternalAccountID DirectionDebit u; Leg b DirectionCredit u]
             ∧ b ≠ ExternalAccountID
  | KindReversal =>
      ∃ o y a b u, x.(x_reverses) = Some o ∧ L.(txns) !! o = Some y ∧ y.(x_kind) = KindTransfer
        ∧ y.(x_legs) = [Leg a DirectionDebit u; Leg b DirectionCredit u]
        ∧ x.(x_legs) = [Leg b DirectionDebit u; Leg a DirectionCredit u]
  | KindWithdrawal => False
  end.

Record ledger_inv (L : ledger) : Prop := {
  inv_nonneg : ∀ a x, L.(accts) !! a = Some x → x.(a_system) = true ∨ 0 <= x.(a_units);
  inv_range : ∀ a x, L.(accts) !! a = Some x → Z.abs x.(a_units) < Schema.numeric_limit;
  inv_reconciled : ∀ a x, L.(accts) !! a = Some x → x.(a_units) = journal_balance a L;
  inv_legs : ∀ id x l, L.(txns) !! id = Some x → l ∈ x.(x_legs) →
      0 < l.(l_units) < Schema.numeric_limit ∧ is_Some (L.(accts) !! l.(l_account));
  inv_balanced : ∀ id x, L.(txns) !! id = Some x → sumZ leg_units x.(x_legs) = 0;
  inv_keys : ∀ id1 id2 x1 x2, L.(txns) !! id1 = Some x1 → L.(txns) !! id2 = Some x2 →
      x1.(x_key) = x2.(x_key) → id1 = id2;
  inv_reversals : ∀ id1 id2 x1 x2 o, L.(txns) !! id1 = Some x1 → L.(txns) !! id2 = Some x2 →
      x1.(x_reverses) = Some o → x2.(x_reverses) = Some o → id1 = id2;
  inv_shape : ∀ id x, L.(txns) !! id = Some x → txn_shape L x }.

(** ** Evolution under other clients *)

(** Accounts are never removed and keep their flag, transactions are never
    changed, the trail only grows. *)
Record evolves (L L' : ledger) : Prop := {
  ev_accts : ∀ a x, L.(accts) !! a = Some x →
      ∃ x', L'.(accts) !! a = Some x' ∧ x'.(a_system) = x.(a_system);
  ev_txns : L.(txns) ⊆ L'.(txns);
  ev_trail : L.(trail) `prefix_of` L'.(trail) }.

(** What is relied on of other clients, and guaranteed to them. *)
Definition rely (L L' : ledger) : Prop := evolves L L' ∧ (ledger_inv L → ledger_inv L').

#[global] Instance evolves_preorder : PreOrder evolves.
Proof.
  split.
  - intros L. split; eauto.
  - intros L1 L2 L3 [A1 B1 C1] [A2 B2 C2]. split.
    + intros a x Hx. destruct (A1 a x Hx) as (x'&Hx'&E1).
      destruct (A2 a x' Hx') as (x''&Hx''&E2). exists x''. split; congruence.
    + by transitivity L2.(txns).
    + by transitivity L2.(trail).
Qed.

#[global] Instance rely_preorder : PreOrder rely.
Proof.
  split.
  - intros L. split; [reflexivity | done].
  - intros L1 L2 L3 [E1 I1] [E2 I2]. split; [by transitivity L2 | auto].
Qed.

(** ** The audit trail *)

Definition success_row (op : string) (rq : request) (id : UUID) : audit :=
  Audit op (Some rq.(rq_from)) (Some rq.(rq_to)) (Some rq.(rq_units)) OutcomeSuccess None
    (Some id) (Some rq.(rq_request)).

Definition failure_row (op : string) (from to : option UUID) (units : option Z) (reason : error)
    (requestID : string) : audit :=
  Audit op from to units OutcomeFailure (Some (Error reason)) None (Some requestID).

(** A trail entry is attempted after other clients have made progress; the
    attempt may fail, which leaves no trace in the ledger. *)
Definition audited (u : audit) (L L' : ledger) : Prop :=
  ∃ L1, rely L L1 ∧ (L' = add_audit u L1 ∨ L' = L1).

(** ** Correspondence of replies with the ledger *)

Definition entry_is (id : UUID) (e : Entry) (l : leg) : Prop :=
  e.(ent_TransactionID) = id ∧ e.(ent_AccountID) = l.(l_account)
  ∧ e.(ent_Direction) = l.(l_direction) ∧ e.(ent_Amount) = Money.of_units l.(l_units).

Definition stored (t : Transaction) (es : list Entry) (L : ledger) : Prop :=
  ∃ x, L.(txns) !! t.(txn_ID) = Some x ∧ t.(txn_Kind) = x.(x_kind)
       ∧ t.(txn_IdempotencyKey) = x.(x_key) ∧ t.(txn_ReversesTransactionID) = x.(x_reverses)
       ∧ t.(txn_Entries) = es ∧ Forall2 (entry_is t.(txn_ID)) es x.(x_legs).

(** The transaction of a reply is in the ledger, under the request's key. *)
Definition recorded (t : Transaction) (key : string) (L : ledger) : Prop :=
  t.(txn_IdempotencyKey) = key ∧
  ∃ x, L.(txns) !! t.(txn_ID) = Some x ∧ x.(x_key) = key ∧ x.(x_kind) = t.(txn_Kind).

Lemma stored_recorded t es key L : stored t es L → t.(txn_IdempotencyKey) = key → recorded t key L.
Proof. intros (x&Hx&Hk&Hkey&_) Ht. split; [done |]. exists x. split_and!; congruence. Qed.

Lemma recorded_rely t key L L' : rely L L' → recorded t key L → recorded t key L'.
Proof.
  intros [Hev _] [Hk (x&Hx&?&?)]. split; [done |]. exists x. split_and!; [|done..].
  by eapply lookup_weaken, ev_txns.
Qed.

Definition account_is (L : ledger) (a : Account) : Prop :=
  ∃ x, L.(accts) !! a.(acc_ID) = Some x ∧ a.(acc_Balance) = Money.of_units x.(a_units)
       ∧ a.(acc_IsSystem) = x.(a_system).

(** Errors that wrap no sentinel: what a driver or the runtime reports. *)
Fixpoint internal (e : error) : Prop :=
  match e with
  | Sentinel _ => False
  | Wrapf _ e' => internal e'
  | _ => True
  end.

Lemma internal_not_sentinel e m : internal e → errors_Is e (Sentinel m) = false.
Proof.
  induction e; simpl; intros H; [done | | done | done].
  by rewrite IHe.
Qed.

Lemma internal_ne e m : internal e → e ≠ Sentinel m.
Proof. by intros H ->. Qed.

End LedgerSpec.
