(* ===== verification/LedgerFacts.v ===== *)
(** * Facts about the abstract ledger

    Conservation of money, and the preservation of the ledger invariant by a
    move and by an audit row. *)

From S2P Require Import Prelude GoStd Decimal Money Uuid Ledger Schema LedgerSpec.
From stdpp Require Import options.
Import Ledger LedgerSpec.
Open Scope Z_scope.

(** ** Conservation *)

Lemma contribution_sum (keys : list UUID) (x : txn) :
  NoDup keys → (∀ l, l ∈ x.(x_legs) → l.(l_account) ∈ keys) →
  sumZ (λ a, contribution a x) keys = sumZ leg_units x.(x_legs).
Proof.
  intros Hnd Hin. unfold contribution. rewrite sumZ_swap.
  apply sumZ_ext. intros l Hl. by apply sumZ_single, Hin.
Qed.

Lemma total_journal L :
  (∀ a x, L.(accts) !! a = Some x → x.(a_units) = journal_balance a L) →
  total L = sumZ (λ a, journal_balance a L) (map_to_list L.(accts)).*1.
Proof.
  intros Hrec. unfold total, map_sumZ. rewrite sumZ_fmap.
  apply sumZ_ext. intros [a x] Hin. apply elem_of_map_to_list in Hin. by apply Hrec.
Qed.

(** A ledger that satisfies its invariant holds no money in total: what user
    accounts own, the EXTERNAL account owes. *)
Lemma ledger_inv_total L : ledger_inv L → total L = 0.
Proof.
  intros HL. rewrite total_journal by apply HL.
  unfold journal_balance, map_sumZ. rewrite sumZ_swap.
  apply sumZ_zero. intros [id x] Hin. apply elem_of_map_to_list in Hin. simpl.
  rewrite contribution_sum; [by eapply HL | apply NoDup_fst_map_to_list |].
  intros l Hl. destruct (inv_legs L HL id x l Hin Hl) as [_ [y Hy]].
  apply list_elem_of_fmap. exists (l.(l_account), y). split; [done |].
  by apply elem_of_map_to_list.
Qed.

(** ** Shape of a move *)

(** A request whose legs have the shape of its kind. *)
Record well_formed (rq : request) (L : ledger) : Prop := {
  wf_distinct : rq.(rq_from) ≠ rq.(rq_to);
  wf_shape : txn_shape L (Txn rq.(rq_kind) rq.(rq_key) rq.(rq_reverses) (rq_legs rq)) }.

Lemma contribution_move rq a :
  contribution a (Txn rq.(rq_kind) rq.(rq_key) rq.(rq_reverses) (rq_legs rq))
  = (if decide (rq.(rq_to) = a) then rq.(rq_units) else 0)
    - (if decide (rq.(rq_from) = a) then rq.(rq_units) else 0).
Proof. unfold contribution, leg_units; simpl. repeat case_decide; simpl; lia. Qed.

Lemma journal_move rq id L a :
  L.(txns) !! id = None →
  journal_balance a (move rq id L)
  = journal_balance a L + (if decide (rq.(rq_to) = a) then rq.(rq_units) else 0)
    - (if decide (rq.(rq_from) = a) then rq.(rq_units) else 0).
Proof.
  intros Hid. unfold journal_balance; simpl.
  rewrite map_sumZ_insert_None by done. rewrite contribution_move. lia.
Qed.

(** The accounts of a moved ledger. *)
Lemma accts_move rq id L a x' :
  rq.(rq_from) ≠ rq.(rq_to) → (move rq id L).(accts) !! a = Some x' →
  ∃ x, L.(accts) !! a = Some x ∧ x'.(a_system) = x.(a_system)
    ∧ x'.(a_units) = x.(a_units) + (if decide (rq.(rq_to) = a) then rq.(rq_units) else 0)
        - (if decide (rq.(rq_from) = a) then rq.(rq_units) else 0).
Proof.
  intros Hne. simpl. rewrite !lookup_alter.
  repeat case_decide; simplify_eq; intros Hx;
    try (apply fmap_Some in Hx as (x&Hx&->); exists x; split_and!; simpl; done || lia).
  exists x'. split_and!; done || lia.
Qed.

Lemma accts_move_is_Some rq id L a :
  is_Some ((move rq id L).(accts) !! a) ↔ is_Some (L.(accts) !! a).
Proof.
  destruct rq as [k from to u key rev r]; simpl. rewrite !lookup_alter.
  repeat case_decide; subst; by rewrite ?fmap_is_Some.
Qed.

Lemma move_evolves rq id L :
  rq.(rq_from) ≠ rq.(rq_to) → L.(txns) !! id = None → evolves L (move rq id L).
Proof.
  intros Hne Hid. split.
  - intros a x Hx. destruct ((move rq id L).(accts) !! a) as [x'|] eqn:Hx'.
    + exists x'. split; [done |]. destruct (accts_move rq id L a x' Hne Hx') as (y&Hy&E&_).
      congruence.
    + exfalso. apply eq_None_not_Some in Hx'. apply Hx'. rewrite accts_move_is_Some. by exists x.
  - by apply insert_subseteq.
  - done.
Qed.

Lemma txn_shape_mono L L' x : L.(txns) ⊆ L'.(txns) → txn_shape L x → txn_shape L' x.
Proof.
  intros Hsub. unfold txn_shape. destruct x.(x_kind); try done.
  intros (o&y&a&b&u&?&Hy&?&?&?). exists o, y, a, b, u.
  split_and!; [done | by eapply lookup_weaken | done..].
Qed.

(** A legal move takes a correct ledger to a correct ledger. *)
Lemma move_inv rq id L :
  ledger_inv L → can_move rq id L → well_formed rq L → ledger_inv (move rq id L).
Proof.
  intros HL [Hu (xf&Hxf&Hf&Hfr) (xt&Hxt&Ht&Htr) Hid Hkey Hrev] [Hne Hsh].
  pose proof (move_evolves rq id L Hne Hid) as Hev.
  assert (Hin : ∀ j x, (move rq id L).(txns) !! j = Some x →
     (j = id ∧ x = Txn rq.(rq_kind) rq.(rq_key) rq.(rq_reverses) (rq_legs rq))
     ∨ (j ≠ id ∧ L.(txns) !! j = Some x)).
  { intros j x. simpl. rewrite lookup_insert. case_decide; [left | right]; by simplify_eq. }
  split.
  - intros a x' Hx'. destruct (accts_move rq id L a x' Hne Hx') as (x&Hx&Es&Eu).
    pose proof (inv_nonneg L HL a x Hx). rewrite Es, Eu.
    repeat case_decide; simplify_eq; destruct_or?; auto; right; lia.
  - intros a x' Hx'. destruct (accts_move rq id L a x' Hne Hx') as (x&Hx&_&->).
    pose proof (inv_range L HL a x Hx). repeat case_decide; simplify_eq; lia.
  - intros a x' Hx'. destruct (accts_move rq id L a x' Hne Hx') as (x&Hx&Es&Eu).
    rewrite journal_move by done. rewrite Eu, (inv_reconciled L HL a x Hx). done.
  - intros j x l Hj Hl. rewrite accts_move_is_Some.
    destruct (Hin j x Hj) as [[-> ->]|[_ Hj']]; [|by eapply HL].
    apply elem_of_cons in Hl as [->|Hl]; [split; [done | by exists xf] |].
    apply list_elem_of_singleton in Hl as ->. split; [done | by exists xt].
  - intros j x Hj. destruct (Hin j x Hj) as [[-> ->]|[_ Hj']]; [|by eapply HL].
    unfold leg_units; simpl. lia.
  - intros i j x y Hi Hj E.
    destruct (Hin i x Hi) as [[-> ->]|[_ Hi']], (Hin j y Hj) as [[-> ->]|[_ Hj']];
      [done | by destruct (Hkey j y Hj') | by destruct (Hkey i x Hi') | by eapply (inv_keys L HL)].
  - intros i j x y o Hi Hj E1 E2.
    destruct (Hin i x Hi) as [[-> ->]|[_ Hi']], (Hin j y Hj) as [[-> ->]|[_ Hj']]; simpl in *;
      [done | by destruct (Hrev o j y E1 Hj') | by destruct (Hrev o i x E2 Hi') |
       by eapply (inv_reversals L HL)].
  - intros j x Hj. apply (txn_shape_mono L); [apply Hev |].
    destruct (Hin j x Hj) as [[-> ->]|[_ Hj']]; [done | by eapply HL].
Qed.

Lemma move_rely rq id L :
  can_move rq id L → well_formed rq L → rely L (move rq id L).
Proof.
  intros Hc Hw. split; [| intros HL; by apply move_inv].
  apply move_evolves; [apply Hw | apply Hc].
Qed.

(** ** Audit rows *)

Lemma add_audit_inv u L : ledger_inv L → ledger_inv (add_audit u L).
Proof. intros []. split; done. Qed.

Lemma add_audit_rely u L : rely L (add_audit u L).
Proof.
  split; [split | apply add_audit_inv]; simpl; eauto.
  by apply prefix_app_r.
Qed.

Lemma audited_rely u L L' : audited u L L' → rely L L'.
Proof. intros (L1&H&[->| ->]); [|done]. etrans; [done | apply add_audit_rely]. Qed.

#[export] Hint Resolve add_audit_rely audited_rely move_rely add_audit_inv : ledger.
