(* ===== verification/StorerSpec.v ===== *)
(** * What the service relies on of its [Storer]

    [StorerSpec] states the contract of the persistence interface in terms of
    the abstract ledger: the committed ledger of a world, the working copy of the
    open transaction, and the effect and the errors of each method.  The service
    is verified against this class; the PostgreSQL-backed store is shown to be an
    instance of it.  What happens inside a block is a class of its own, [TxSpec]:
    it has one instance where a block runs as a unit, and one where it is a
    scheduled session's. *)

From S2P Require Import Prelude GoStd Decimal Money Uuid Ledger Schema Pgx Service LedgerSpec LedgerFacts.
From stdpp Require Import options.
Import Ledger LedgerSpec Service.
Open Scope Z_scope.

Definition audit_of (e : AuditEntry) : audit :=
  Audit e.(aud_Operation) e.(aud_FromAccount) e.(aud_ToAccount) (Money.units <$> e.(aud_Amount))
    e.(aud_Outcome) e.(aud_ErrorReason) e.(aud_TransactionID) e.(aud_RequestID).

Definition txn_of (t : Transaction) : txn :=
  Txn t.(txn_Kind) t.(txn_IdempotencyKey) t.(txn_ReversesTransactionID) [].

Definition leg_of (e : Entry) : leg :=
  Leg e.(ent_AccountID) e.(ent_Direction) (Money.units e.(ent_Amount)).

Definition add_legs (es : list Entry) (L : ledger) : ledger :=
  foldl (λ L e, add_leg e.(ent_TransactionID) (leg_of e) L) L es.

(** The statements of a transaction block, for any way to run them: [open_tx C L w]
    says that the block is open in [w] on the committed ledger [C], with working
    copy [L]. *)
Class TxSpec (M : Type → Type) `{!MRet M, !MBind M, !Storer M} := {
  world : Type;
  run : ∀ {A : Type}, M A → world → A * world;
  run_ret : ∀ A (a : A) w, run (mret a) w = (a, w);
  run_bind : ∀ A B (m : M A) (f : A → M B) w,
    run (mbind f m) w = let '(a, w') := run m w in run (f a) w';
  open_tx : ledger → ledger → world → Prop;

  spec_lock : ∀ ids C L w r w', NoDup ids → open_tx C L w →
    run (LockAccountsForUpdate ids) w = (r, w') →
    match r with
    | Ok accs => open_tx C L w' ∧ Forall (account_is L) accs ∧
                 acc_ID <$> accs ≡ₚ filter (λ id, is_Some (L.(accts) !! id)) ids
    | Err e => internal e ∧ ∃ L', open_tx C L' w'
    end;
  spec_update : ∀ id m C L w r w', Money.scaled m → open_tx C L w →
    run (UpdateBalance id m) w = (r, w') →
    match r with
    | Ok _ => open_tx C (set_units id (Money.units m) L) w' ∧
              Z.abs (Money.units m) < Schema.numeric_limit ∧
              (∀ x, L.(accts) !! id = Some x → x.(a_system) = true ∨ 0 <= Money.units m)
    | Err e => internal e ∧ ∃ L', open_tx C L' w'
    end;
  spec_insert_txn : ∀ t C L w r w', open_tx C L w → run (InsertTransaction t) w = (r, w') →
    match r with
    | Ok _ => open_tx C (add_txn t.(txn_ID) (txn_of t) L) w' ∧
              L.(txns) !! t.(txn_ID) = None ∧ key_fresh t.(txn_IdempotencyKey) L ∧
              not_reversed t.(txn_ReversesTransactionID) L
    | Err e => (∃ L', open_tx C L' w') ∧
               (internal e ∨
                (e = ErrIdempotencyConflict ∧
                 (is_Some (L.(txns) !! t.(txn_ID)) ∨ ¬ key_fresh t.(txn_IdempotencyKey) L ∨
                  ¬ not_reversed t.(txn_ReversesTransactionID) L)))
    end;
  spec_insert_rev : ∀ t C L w r w', open_tx C L w → run (InsertReversalTransaction t) w = (r, w') →
    match r with
    | Ok _ => open_tx C (add_txn t.(txn_ID) (txn_of t) L) w' ∧
              L.(txns) !! t.(txn_ID) = None ∧ key_fresh t.(txn_IdempotencyKey) L ∧
              not_reversed t.(txn_ReversesTransactionID) L
    | Err e => (∃ L', open_tx C L' w') ∧
               (internal e ∨
                (e = ErrIdempotencyConflict ∧
                 (is_Some (L.(txns) !! t.(txn_ID)) ∨ ¬ key_fresh t.(txn_IdempotencyKey) L)) ∨
                (e = ErrAlreadyReversed ∧ ¬ not_reversed t.(txn_ReversesTransactionID) L))
    end;
  spec_insert_entries : ∀ es C L w r w', Forall (λ e, Money.scaled e.(ent_Amount)) es →
    open_tx C L w → run (InsertEntries es) w = (r, w') →
    match r with
    | Ok _ => open_tx C (add_legs es L) w' ∧
              Forall (λ e, 0 < Money.units e.(ent_Amount) < Schema.numeric_limit) es
    | Err e => (∃ L', open_tx C L' w') ∧
               (internal e ∨
                (e = ErrInvalidAmount ∧ Exists (λ e, Money.units e.(ent_Amount) <= 0) es))
    end }.

Class StorerSpec (M : Type → Type) `{!MRet M, !MBind M, !Storer M, !GoRuntime M} := {
  storer_tx :: TxSpec M;

  (** The implementation's own invariant, the committed ledger, and the working
      copy of the open transaction, if any. *)
  ok : world → Prop;
  committed : world → ledger;
  working : world → option ledger;

  (** Between transactions the committed ledger is correct. *)
  idle := (λ w, ok w ∧ working w = None ∧ ledger_inv (committed w));

  spec_NewV7 : ∀ w r w', idle w → run uuid_NewV7 w = (r, w') →
    idle w' ∧ committed w' = committed w ∧ (∀ e, r = Err e → internal e);
  spec_log : ∀ m w u w', idle w → run (logger_Error m) w = (u, w') →
    idle w' ∧ committed w' = committed w;

  spec_get_key : ∀ key w r w', idle w → run (GetTransactionByIdempotencyKey key) w = (r, w') →
    idle w' ∧ rely (committed w) (committed w') ∧
    match r with
    | Ok (t, es) => stored t es (committed w') ∧ t.(txn_IdempotencyKey) = key
    | Err e => (e = ErrTransactionNotFound ∧ key_fresh key (committed w')) ∨ internal e
    end;
  spec_get : ∀ id w r w', idle w → run (GetTransaction id) w = (r, w') →
    idle w' ∧ rely (committed w) (committed w') ∧
    match r with
    | Ok (t, es) => stored t es (committed w') ∧ t.(txn_ID) = id
    | Err e => (e = ErrTransactionNotFound ∧ (committed w').(txns) !! id = None) ∨ internal e
    end;
  spec_audit : ∀ e w r w', (∀ m, e.(aud_Amount) = Some m → Money.proper m) →
    idle w → run (WriteAudit e) w = (r, w') →
    idle w' ∧ ∃ L1, rely (committed w) L1 ∧
    match r with
    | Ok _ => committed w' = add_audit (audit_of e) L1
    | Err _ => committed w' = add_audit (audit_of e) L1 ∨ committed w' = L1
    end;

  (** A transaction starts from the committed ledger; its outcome is the
      callback's, unless the commit fails, in which case the working copy may or
      may not have become the committed ledger.  The callback owes a correct
      ledger when it succeeds. *)
  spec_WithTx : ∀ A (f : M (result error A)) w r w', idle w → run (WithTx f) w = (r, w') →
    (∃ e, r = Err e ∧ internal e ∧ idle w' ∧ rely (committed w) (committed w')) ∨
    (∃ w1 r1 w2, rely (committed w) (committed w1) ∧
       open_tx (committed w1) (committed w1) w1 ∧ run f w1 = (r1, w2) ∧
       ∀ L2, open_tx (committed w1) L2 w2 →
         match r1 with
         | Err e => idle w' ∧ r = Err e ∧ committed w' = committed w1
         | Ok a =>
             ledger_inv L2 → idle w' ∧
             ((r = Ok a ∧ committed w' = L2) ∨
              (∃ e, r = Err (Wrapf "store.WithTx commit" e) ∧ internal e ∧
                    (committed w' = committed w1 ∨ committed w' = L2)))
         end) }.
