(* ===== verification/ServiceSpec.v ===== *)
(** * The service refines the abstract ledger

    For every [Storer] that keeps its contract: what each of [Transfer],
    [Reverse] and [Deposit] may reply and what the ledger is afterwards, under
    any interference of other clients and any failure of the environment. *)

From S2P Require Import Prelude GoStd Decimal Money Uuid Ledger Schema Pgx Service LedgerSpec LedgerFacts StorerSpec.
From stdpp Require Import options.
Import Ledger LedgerSpec Service.
Open Scope Z_scope.

(** ** Outcomes *)

Definition rq_txn (rq : request) (id : UUID) : Transaction :=
  new_Transaction id rq.(rq_kind) rq.(rq_key) rq.(rq_reverses).

Definition rq_entries (rq : request) (id : UUID) : list Entry :=
  [new_Entry id rq.(rq_from) DirectionDebit (Money.of_units rq.(rq_units));
   new_Entry id rq.(rq_to) DirectionCredit (Money.of_units rq.(rq_units))].

(** Why a movement is refused with error [e] on ledger [L]; [funds] says whether
    the operation checks the paying account. *)
Inductive fail_reason (funds : bool) (rq : request) (id : UUID) (L : ledger) : error → Prop :=
| fail_internal e : internal e → fail_reason funds rq id L e
| fail_missing :
    L.(accts) !! rq.(rq_from) = None ∨ L.(accts) !! rq.(rq_to) = None →
    fail_reason funds rq id L ErrAccountNotFound
| fail_funds x :
    funds = true → L.(accts) !! rq.(rq_from) = Some x → x.(a_units) < rq.(rq_units) →
    fail_reason funds rq id L ErrInsufficientFunds
| fail_conflict :
    is_Some (L.(txns) !! id) ∨ ¬ key_fresh rq.(rq_key) L →
    fail_reason funds rq id L ErrIdempotencyConflict
| fail_reversed :
    ¬ not_reversed rq.(rq_reverses) L → fail_reason funds rq id L ErrAlreadyReversed.

Abbreviation reply := (result error (Transaction * list Entry)).

(** The outcomes of a movement once its request has been accepted and its id
    drawn, starting from ledger [L]. *)
Inductive settles (op : string) (funds : bool) (rq : request) (id : UUID) (L : ledger)
  : reply → ledger → Prop :=
| settles_moved L0 L' :
    rely L L0 → can_move rq id L0 → audited (success_row op rq id) (move rq id L0) L' →
    settles op funds rq id L (Ok (rq_txn rq id, rq_entries rq id)) L'
| settles_replayed t es L' :
    rely L L' → stored t es L' → t.(txn_IdempotencyKey) = rq.(rq_key) →
    settles op funds rq id L (Ok (t, es)) L'
| settles_refused L0 e L' :
    rely L L0 → fail_reason funds rq id L0 e →
    audited (failure_row op (Some rq.(rq_from)) (Some rq.(rq_to)) (Some rq.(rq_units)) e
               rq.(rq_request)) L0 L' →
    settles op funds rq id L (Err e) L'
| settles_unacknowledged L0 e L' :
    rely L L0 → can_move rq id L0 → internal e →
    audited (failure_row op (Some rq.(rq_from)) (Some rq.(rq_to)) (Some rq.(rq_units))
               (Wrapf "store.WithTx commit" e) rq.(rq_request)) (move rq id L0) L' →
    settles op funds rq id L (Err (Wrapf "store.WithTx commit" e)) L'.

(** ** Pure parts of the operations *)

(** The two locked rows are told apart by their ids. *)
Lemma pick_accounts_spec a b L accs :
  a ≠ b → Forall (account_is L) accs → acc_ID <$> accs ≡ₚ [a; b] →
  ∃ A B, pick_accounts a b accs = (A, B) ∧ acc_ID A = a ∧ acc_ID B = b
         ∧ account_is L A ∧ account_is L B.
Proof.
  intros Hne Hall Hp. pose proof (Permutation_length Hp) as Hlen.
  destruct accs as [|A [|B [|C accs]]]; try done. simpl in Hp.
  inversion_clear Hall as [|? ? HA Hall']. inversion_clear Hall' as [|? ? HB _].
  unfold pick_accounts; simpl.
  assert ((A.(acc_ID) = a ∧ B.(acc_ID) = b) ∨ (A.(acc_ID) = b ∧ B.(acc_ID) = a)) as
    [[<- <-]|[<- <-]].
  { apply Permutation_length_2_inv in Hp as [H|H]; injection H; auto. }
  - exists A, B. repeat case_decide; try congruence. done.
  - exists B, A. repeat case_decide; try congruence. done.
Qed.

Lemma filter_is_Some_pair {V} (m : gmap UUID V) a b :
  length (filter (λ id, is_Some (m !! id)) [a; b]) = 2%nat →
  filter (λ id, is_Some (m !! id)) [a; b] = [a; b] ∧ is_Some (m !! a) ∧ is_Some (m !! b).
Proof. rewrite !filter_cons, filter_nil. repeat case_decide; simpl; intros; done || lia. Qed.

Lemma filter_is_Some_missing {V} (m : gmap UUID V) a b :
  length (filter (λ id, is_Some (m !! id)) [a; b]) ≠ 2%nat → m !! a = None ∨ m !! b = None.
Proof.
  rewrite !filter_cons, filter_nil. repeat case_decide; simpl; intros; try lia;
    rewrite ?eq_None_not_Some; auto.
Qed.

(** The four writes of a transaction body amount to one move. *)
Lemma build_move rq id L x y :
  rq.(rq_from) ≠ rq.(rq_to) →
  L.(accts) !! rq.(rq_from) = Some x → L.(accts) !! rq.(rq_to) = Some y →
  add_legs (rq_entries rq id)
    (add_txn id (Txn rq.(rq_kind) rq.(rq_key) rq.(rq_reverses) [])
       (set_units rq.(rq_to) (y.(a_units) + rq.(rq_units))
          (set_units rq.(rq_from) (x.(a_units) - rq.(rq_units)) L)))
  = move rq id L.
Proof.
  intros Hne Hx Hy. unfold add_legs, move, set_units, add_txn, add_leg; simpl. f_equal.
  - rewrite (alter_ext (λ z, Acct (x.(a_units) - rq.(rq_units)) z.(a_system))
               (λ z, Acct (z.(a_units) - rq.(rq_units)) z.(a_system)) _ rq.(rq_from));
      [| intros; by simplify_eq].
    apply alter_ext. intros z. rewrite lookup_alter_ne by done. intros; by simplify_eq.
  - by rewrite !alter_insert_eq.
Qed.

(** ** Transaction bodies *)

Ltac runs H :=
  rewrite run_bind in H;
  match type of H with
  | context [let '(_, _) := run ?m ?w in _] =>
      let r := fresh "r" in let w' := fresh "w" in let E := fresh "Erun" in
      destruct (run m w) as [r w'] eqn:E
  end.

(** A failed store call inside a body: its error is internal and ends the body. *)
Ltac stops Hr Hspec :=
  rewrite run_ret in Hr; simplify_eq; destruct Hspec as [? ?];
  split; [done | by apply fail_internal].

Section bodies.
Context {M : Type → Type} `{HT : TxSpec M}.

(** What a callback of [WithTx] does to the working copy. *)
Definition body_spec (funds : bool) (rq : request) (id : UUID) (f : M reply) : Prop :=
  ∀ C L w r w', open_tx C L w → run f w = (r, w') →
  match r with
  | Ok p => p = (rq_txn rq id, rq_entries rq id) ∧ open_tx C (move rq id L) w' ∧ can_move rq id L
  | Err e => (∃ L', open_tx C L' w') ∧ fail_reason funds rq id L e
  end.

(** The writes common to the three bodies, after the balances are known:
    [ins] is [InsertTransaction] or [InsertReversalTransaction]. *)
Definition writes (rq : request) (id : UUID) (ins : Transaction → M (result error unit))
    (uf ut : Z) : M reply :=
  let? _ := UpdateBalance rq.(rq_from) (Money.of_units (uf - rq.(rq_units))) in
  let? _ := UpdateBalance rq.(rq_to) (Money.of_units (ut + rq.(rq_units))) in
  let? _ := ins (rq_txn rq id) in
  let? _ := InsertEntries (rq_entries rq id) in
  mret (Ok (rq_txn rq id, rq_entries rq id)).

(** The contract of an insertion that the bodies rely on. *)
Definition insertion (rq : request) (id : UUID) (ins : Transaction → M (result error unit)) : Prop :=
  ∀ C L w r w', open_tx C L w → run (ins (rq_txn rq id)) w = (r, w') →
  match r with
  | Ok _ => open_tx C (add_txn id (txn_of (rq_txn rq id)) L) w' ∧
            L.(txns) !! id = None ∧ key_fresh rq.(rq_key) L ∧ not_reversed rq.(rq_reverses) L
  | Err e => (∃ L', open_tx C L' w') ∧
             (internal e ∨
              (e = ErrIdempotencyConflict ∧ (is_Some (L.(txns) !! id) ∨ ¬ key_fresh rq.(rq_key) L)) ∨
              (e = ErrAlreadyReversed ∧ ¬ not_reversed rq.(rq_reverses) L))
  end.

Lemma insertion_txn rq id : rq.(rq_reverses) = None → insertion rq id InsertTransaction.
Proof.
  intros Hrev C L w r w' Hw Hr. apply (spec_insert_txn _ C L) in Hr; [|done].
  destruct r as [[]|e]; [done |]. destruct Hr as [HL' [Hi|[-> Hc]]]; (split; [done |]); [by left |].
  right; left. split; [done |]. destruct Hc as [Hc|[Hc|Hc]]; [by left | by right |].
  exfalso. apply Hc. simpl. rewrite Hrev. by intros o i x [=].
Qed.

Lemma insertion_rev rq id : insertion rq id InsertReversalTransaction.
Proof. intros C L w r w' Hw Hr. by apply (spec_insert_rev _ C L) in Hr. Qed.

Lemma rq_entries_scaled rq id : Forall (λ e, Money.scaled e.(ent_Amount)) (rq_entries rq id).
Proof. by repeat constructor. Qed.

Lemma writes_spec funds rq id ins x y C L w r w' :
  insertion rq id ins → rq.(rq_from) ≠ rq.(rq_to) → 0 < rq.(rq_units) →
  L.(accts) !! rq.(rq_from) = Some x → L.(accts) !! rq.(rq_to) = Some y →
  open_tx C L w → run (writes rq id ins x.(a_units) y.(a_units)) w = (r, w') →
  match r with
  | Ok p => p = (rq_txn rq id, rq_entries rq id) ∧ open_tx C (move rq id L) w' ∧ can_move rq id L
  | Err e => (∃ L', open_tx C L' w') ∧ fail_reason funds rq id L e
  end.
Proof.
  intros Hins Hne Hpos Hx Hy Hw Hr. unfold writes in Hr.
  runs Hr. apply (spec_update _ _ C L) in Erun; [|done..].
  destruct r0 as [[]|e]; [destruct Erun as (Hw1&Hrf&Hsf) | stops Hr Erun].
  runs Hr. eapply spec_update in Erun; [|done|exact Hw1].
  destruct r0 as [[]|e]; [destruct Erun as (Hw2&Hrt&Hst) | stops Hr Erun].
  rewrite !Money.units_of_units in *.
  runs Hr. eapply Hins in Erun; [|exact Hw2].
  destruct r0 as [[]|e]; [destruct Erun as (Hw3&Hid&Hkey&Hrev) |].
  2:{ rewrite run_ret in Hr. simplify_eq. destruct Erun as [HL' [Hi|[[-> Hc]|[-> Hc]]]];
        (split; [done |]); by constructor. }
  runs Hr. eapply spec_insert_entries in Erun; [|apply rq_entries_scaled|exact Hw3].
  rewrite build_move in Erun by done.
  destruct r0 as [[]|e]; rewrite run_ret in Hr; simplify_eq.
  - destruct Erun as (Hw4&Hun). split_and!; [done | done |].
    inversion_clear Hun as [|? ? Hu _]. split; [exact Hu | | | done..].
    + exists x. split_and!; [done | | done]. destruct (Hsf x Hx); [by left | right; lia].
    + exists y. split_and!; [done | | done]. simpl in Hst. rewrite lookup_alter_ne in Hst by done.
      by apply Hst.
  - destruct Erun as [HL' [Hi|[-> Hex]]]; (split; [done |]); [by apply fail_internal |].
    exfalso. unfold rq_entries in Hex. rewrite !Exists_cons, Exists_nil in Hex. simpl in Hex.
    rewrite !Money.units_of_units in Hex. lia.
Qed.

(** The prefix of the bodies: both rows are locked, and read under the lock. *)
Lemma lock_pair_spec a b C L w r w' :
  a ≠ b → open_tx C L w → run (LockAccountsForUpdate [a; b]) w = (r, w') →
  match r with
  | Err e => internal e ∧ ∃ L', open_tx C L' w'
  | Ok locked =>
      open_tx C L w' ∧
      if (length locked =? 2)%nat then
        ∃ A B x y, pick_accounts a b locked = (A, B) ∧
          L.(accts) !! a = Some x ∧ acc_Balance A = Money.of_units x.(a_units) ∧
          L.(accts) !! b = Some y ∧ acc_Balance B = Money.of_units y.(a_units)
      else L.(accts) !! a = None ∨ L.(accts) !! b = None
  end.
Proof.
  intros Hne Hw Hr. apply (spec_lock _ C L) in Hr; [|apply NoDup_cons; split;
    [by rewrite list_elem_of_singleton | apply NoDup_singleton] | done].
  destruct r as [locked|e]; [|done]. destruct Hr as (Hw'&Hall&Hp). split; [done |].
  pose proof (Permutation_length Hp) as Hlen. rewrite length_fmap in Hlen.
  destruct (Nat.eqb_spec (length locked) 2) as [H2|H2]; rewrite Hlen in H2.
  - apply filter_is_Some_pair in H2 as (Hf&_). rewrite Hf in Hp.
    destruct (pick_accounts_spec a b L locked) as (A&B&Hpk&<-&<-&(x&?&?&_)&(y&?&?&_)); [done..|].
    exists A, B, x, y. done.
  - by apply filter_is_Some_missing.
Qed.

Lemma transfer_tx_spec rq id :
  rq.(rq_kind) = KindTransfer → rq.(rq_reverses) = None →
  rq.(rq_from) ≠ rq.(rq_to) → 0 < rq.(rq_units) →
  body_spec true rq id
    (transfer_tx rq.(rq_from) rq.(rq_to) (Money.of_units rq.(rq_units)) (rq_txn rq id)).
Proof.
  intros Hk Hrev Hne Hpos C L w r w' Hw Hr. unfold transfer_tx in Hr.
  runs Hr. apply (lock_pair_spec _ _ C L) in Erun; [|done..].
  destruct r0 as [locked|e]; [|stops Hr Erun]. destruct Erun as [Hw1 Hl].
  destruct (length locked =? 2)%nat; simpl negb in Hr; cbv iota in Hr.
  2:{ rewrite run_ret in Hr. simplify_eq. split; [by eexists | by apply fail_missing]. }
  destruct Hl as (A&B&x&y&Hpk&Hx&HA&Hy&HB). rewrite Hpk, HA, HB in Hr.
  rewrite Money.LessThan_of_units in Hr.
  destruct (Z.ltb_spec x.(a_units) rq.(rq_units)).
  { rewrite run_ret in Hr. simplify_eq. split; [by eexists | by eapply fail_funds]. }
  rewrite Money.Sub_of_units, Money.Add_of_units in Hr.
  eapply writes_spec; [by apply insertion_txn | done..| exact Hr].
Qed.

Lemma reverse_tx_spec rq id :
  rq.(rq_kind) = KindReversal → rq.(rq_from) ≠ rq.(rq_to) → 0 < rq.(rq_units) →
  body_spec true rq id
    (reverse_tx rq.(rq_to) rq.(rq_from) (Money.of_units rq.(rq_units)) (rq_txn rq id)).
Proof.
  intros Hk Hne Hpos C L w r w' Hw Hr. unfold reverse_tx in Hr.
  runs Hr. apply (lock_pair_spec _ _ C L) in Erun; [|done..].
  destruct r0 as [locked|e]; [|stops Hr Erun]. destruct Erun as [Hw1 Hl].
  destruct (length locked =? 2)%nat; simpl negb in Hr; cbv iota in Hr.
  2:{ rewrite run_ret in Hr. simplify_eq. split; [by eexists |]. apply fail_missing. tauto. }
  destruct Hl as (A&B&x&y&Hpk&Hx&HA&Hy&HB). rewrite Hpk, HA, HB in Hr.
  rewrite Money.LessThan_of_units in Hr.
  destruct (Z.ltb_spec y.(a_units) rq.(rq_units)).
  { rewrite run_ret in Hr. simplify_eq. split; [by eexists | by eapply fail_funds]. }
  rewrite Money.Sub_of_units, Money.Add_of_units in Hr.
  eapply writes_spec; [by apply insertion_rev | done..| exact Hr].
Qed.

Lemma deposit_tx_spec rq id :
  rq.(rq_kind) = KindDeposit → rq.(rq_reverses) = None → rq.(rq_from) = ExternalAccountID →
  rq.(rq_to) ≠ ExternalAccountID → 0 < rq.(rq_units) →
  body_spec false rq id (deposit_tx rq.(rq_to) (Money.of_units rq.(rq_units)) (rq_txn rq id)).
Proof.
  intros Hk Hrev Hfrom Hne Hpos C L w r w' Hw Hr. unfold deposit_tx in Hr.
  rewrite <-Hfrom in Hr, Hne.
  runs Hr. apply (lock_pair_spec _ _ C L) in Erun; [|done..].
  destruct r0 as [locked|e]; [|stops Hr Erun]. destruct Erun as [Hw1 Hl].
  destruct (length locked =? 2)%nat; simpl negb in Hr; cbv iota in Hr.
  2:{ rewrite run_ret in Hr. simplify_eq. split; [by eexists | by apply fail_missing]. }
  destruct Hl as (A&B&x&y&Hpk&Hx&HA&Hy&HB). rewrite Hpk, HA, HB in Hr.
  rewrite Money.Sub_of_units, Money.Add_of_units in Hr.
  eapply writes_spec; [by apply insertion_txn | done..| exact Hr].
Qed.
End bodies.

(** ** The operations *)

Definition transfer_rq (srcID dstID : UUID) (amount : Money.Money) (idemKey requestID : string) : request :=
  Request KindTransfer srcID dstID (Money.units amount) idemKey None requestID.

Definition deposit_rq (dstID : UUID) (amount : Money.Money) (idemKey requestID : string) : request :=
  Request KindDeposit ExternalAccountID dstID (Money.units amount) idemKey None requestID.

(** The reversal of a transfer of [u] units from [a] to [b]. *)
Definition reverse_rq (orig a b : UUID) (u : Z) (idemKey requestID : string) : request :=
  Request KindReversal b a u idemKey (Some orig) requestID.

(** A request refused by a check that precedes any access to the ledger. *)
Inductive transfer_outcome (srcID dstID : UUID) (amount : Money.Money) (idemKey requestID : string)
    (L : ledger) : reply → ledger → Prop :=
| transfer_rejected e L' :
    (Money.units amount <= 0 ∧ e = ErrInvalidAmount) ∨
    (0 < Money.units amount ∧ srcID = dstID ∧ e = ErrSelfTransfer) ∨
    (0 < Money.units amount ∧ srcID ≠ dstID ∧
       (srcID = ExternalAccountID ∨ dstID = ExternalAccountID) ∧ e = ErrSystemAccount) →
    audited (failure_row "TRANSFER" (Some srcID) (Some dstID) (Some (Money.units amount)) e requestID) L L' →
    transfer_outcome srcID dstID amount idemKey requestID L (Err e) L'
| transfer_replayed t es L' :
    rely L L' → stored t es L' → t.(txn_IdempotencyKey) = idemKey →
    transfer_outcome srcID dstID amount idemKey requestID L (Ok (t, es)) L'
| transfer_no_id e L' :
    rely L L' → internal e →
    transfer_outcome srcID dstID amount idemKey requestID L (Err (Wrapf "service.Transfer uuid" e)) L'
| transfer_settled id L0 r L' :
    0 < Money.units amount → srcID ≠ dstID →
    srcID ≠ ExternalAccountID → dstID ≠ ExternalAccountID → rely L L0 →
    settles "TRANSFER" true (transfer_rq srcID dstID amount idemKey requestID) id L0 r L' →
    transfer_outcome srcID dstID amount idemKey requestID L r L'.

Inductive deposit_outcome (dstID : UUID) (amount : Money.Money) (idemKey requestID : string)
    (L : ledger) : reply → ledger → Prop :=
| deposit_rejected e L' :
    (Money.units amount <= 0 ∧ e = ErrInvalidAmount) ∨
    (0 < Money.units amount ∧ dstID = ExternalAccountID ∧ e = ErrSystemAccount) →
    audited (failure_row "DEPOSIT" (Some ExternalAccountID) (Some dstID) (Some (Money.units amount)) e
               requestID) L L' →
    deposit_outcome dstID amount idemKey requestID L (Err e) L'
| deposit_replayed t es L' :
    rely L L' → stored t es L' → t.(txn_IdempotencyKey) = idemKey →
    deposit_outcome dstID amount idemKey requestID L (Ok (t, es)) L'
| deposit_no_id e L' :
    rely L L' → internal e →
    deposit_outcome dstID amount idemKey requestID L (Err (Wrapf "service.Deposit uuid" e)) L'
| deposit_settled id L0 r L' :
    0 < Money.units amount → dstID ≠ ExternalAccountID → rely L L0 →
    settles "DEPOSIT" false (deposit_rq dstID amount idemKey requestID) id L0 r L' →
    deposit_outcome dstID amount idemKey requestID L r L'.

(** The original of a reversal: a recorded transfer and its two legs. *)
Definition transfer_of (orig a b : UUID) (u : Z) (L : ledger) : Prop :=
  ∃ x, L.(txns) !! orig = Some x ∧ x.(x_kind) = KindTransfer ∧
       x.(x_legs) = [Leg a DirectionDebit u; Leg b DirectionCredit u].

Inductive reverse_outcome (orig : UUID) (idemKey requestID : string) (L : ledger)
  : reply → ledger → Prop :=
| reverse_replayed t es L' :
    rely L L' → stored t es L' → t.(txn_IdempotencyKey) = idemKey →
    reverse_outcome orig idemKey requestID L (Ok (t, es)) L'
| reverse_not_found e L0 L' :
    rely L L0 → (e = ErrTransactionNotFound ∧ L0.(txns) !! orig = None) ∨ internal e →
    audited (failure_row "REVERSAL" None None None e requestID) L0 L' →
    reverse_outcome orig idemKey requestID L (Err e) L'
| reverse_wrong_kind x L0 L' :
    rely L L0 → L0.(txns) !! orig = Some x → x.(x_kind) ≠ KindTransfer →
    audited (failure_row "REVERSAL" None None None ErrNotReversible requestID) L0 L' →
    reverse_outcome orig idemKey requestID L (Err ErrNotReversible) L'
| reverse_no_id e L' :
    rely L L' → internal e →
    reverse_outcome orig idemKey requestID L (Err (Wrapf "service.Reverse uuid" e)) L'
| reverse_settled a b u id L0 r L' :
    rely L L0 → transfer_of orig a b u L0 → a ≠ b → 0 < u →
    settles "REVERSAL" true (reverse_rq orig a b u idemKey requestID) id L0 r L' →
    reverse_outcome orig idemKey requestID L r L'.

(** ** Shapes *)

(** A request that keeps its shape while the ledger evolves. *)
Definition stable_request (rq : request) (L : ledger) : Prop :=
  ∀ L0, evolves L L0 → well_formed rq L0.

Lemma transfer_stable srcID dstID amount idemKey requestID L :
  srcID ≠ dstID → srcID ≠ ExternalAccountID → dstID ≠ ExternalAccountID →
  stable_request (transfer_rq srcID dstID amount idemKey requestID) L.
Proof. intros ??? L0 _. split; [done |]. split; [done |]. by exists srcID, dstID, (Money.units amount). Qed.

Lemma deposit_stable dstID amount idemKey requestID L :
  dstID ≠ ExternalAccountID → stable_request (deposit_rq dstID amount idemKey requestID) L.
Proof. intros ? L0 _. split; [done |]. split; [done |]. by exists dstID, (Money.units amount). Qed.

Lemma transfer_of_evolves orig a b u L L' :
  evolves L L' → transfer_of orig a b u L → transfer_of orig a b u L'.
Proof. intros Hev (x&Hx&?&?). exists x. split_and!; [|done..]. eapply lookup_weaken; [done | apply Hev]. Qed.

Lemma reverse_stable orig a b u idemKey requestID L :
  a ≠ b → transfer_of orig a b u L → stable_request (reverse_rq orig a b u idemKey requestID) L.
Proof.
  intros Hab Ht L0 Hev. destruct (transfer_of_evolves _ _ _ _ _ _ Hev Ht) as (x&Hx&Hk&Hl).
  split; [done |]. by exists orig, x, a, b, u.
Qed.

(** The legs that [Reverse] reads off the entries of a recorded transfer. *)
Lemma scan_legs_transfer id es a b u :
  Forall2 (entry_is id) es [Leg a DirectionDebit u; Leg b DirectionCredit u] →
  scan_legs es = (a, b, Money.of_units u).
Proof.
  intros H. apply Forall2_cons_inv_r in H as (e1&es1&(_&Ha&Hd1&Hu)&H&->).
  apply Forall2_cons_inv_r in H as (e2&es2&(_&Hb&Hd2&_)&H&->).
  apply Forall2_nil_inv_r in H as ->. unfold scan_legs; simpl in *.
  rewrite Hd1, Hd2, Ha, Hb, Hu. by rewrite decide_True, decide_False.
Qed.

Section operations.
Context {M : Type → Type} `{HS : StorerSpec M}.

Lemma audit_write_spec e msg w u w' :
  (∀ m, e.(aud_Amount) = Some m → Money.proper m) → idle w →
  run (let! r := WriteAudit e in
       match r with Ok _ => mret tt | Err err => logger_Error (msg err) end) w = (u, w') →
  idle w' ∧ audited (audit_of e) (committed w) (committed w').
Proof.
  intros Hm Hw Hr. runs Hr. apply spec_audit in Erun as (Hw1&L1&Hrely&HL1); [|done..].
  destruct r as [[]|err].
  - rewrite run_ret in Hr. simplify_eq. split; [done |]. exists L1. auto.
  - apply spec_log in Hr as [Hw' HC]; [|done]. split; [done |]. exists L1. by rewrite HC.
Qed.

Lemma auditFailure_spec op from to amount requestID reason w u w' :
  (∀ m, amount = Some m → Money.proper m) → idle w →
  run (auditFailure op from to amount requestID reason) w = (u, w') →
  idle w' ∧ audited (failure_row op from to (Money.units <$> amount) reason requestID)
              (committed w) (committed w').
Proof. intros Hm Hw Hr. eapply audit_write_spec in Hr; [|done..]. done. Qed.

Lemma auditSuccess_spec op rq id w u w' :
  idle w →
  run (auditSuccess op (Some rq.(rq_from)) (Some rq.(rq_to)) (Some (Money.of_units rq.(rq_units)))
         rq.(rq_request) (Some id)) w = (u, w') →
  idle w' ∧ audited (success_row op rq id) (committed w) (committed w').
Proof.
  intros Hw Hr. eapply audit_write_spec in Hr; [done | | done].
  intros m [= <-]. by left.
Qed.

(** The ledger at the commit of a transaction whose body is correct. *)
Inductive committed_as (funds : bool) (rq : request) (id : UUID) (L0 : ledger)
  : reply → ledger → Prop :=
| committed_moved :
    can_move rq id L0 →
    committed_as funds rq id L0 (Ok (rq_txn rq id, rq_entries rq id)) (move rq id L0)
| committed_refused e :
    fail_reason funds rq id L0 e → committed_as funds rq id L0 (Err e) L0
| committed_unacknowledged e :
    can_move rq id L0 → internal e →
    committed_as funds rq id L0 (Err (Wrapf "store.WithTx commit" e)) (move rq id L0).

Lemma WithTx_body funds rq id f w r w' :
  body_spec funds rq id f → stable_request rq (committed w) → idle w → run (WithTx f) w = (r, w') →
  idle w' ∧ ∃ L0, rely (committed w) L0 ∧ committed_as funds rq id L0 r (committed w').
Proof.
  intros Hbody Hst Hw Hr.
  apply spec_WithTx in Hr as [(e&->&Hi&Hw'&Hrely)|(w1&r1&w2&Hrely&Ho&Hf&Hpost)]; [| |done].
  { split; [done |]. eexists. split; [done |]. by apply committed_refused, fail_internal. }
  pose proof (Hbody _ _ _ _ _ Ho Hf) as Hb. destruct r1 as [p|e].
  - destruct Hb as (->&Ho2&Hc). destruct (Hpost _ Ho2) as [Hw' Hres].
    { apply move_inv; [apply Hrely, Hw | done | apply Hst, Hrely]. }
    split; [done |].
    exists (committed w1). split; [done |].
    destruct Hres as [[-> ->]|(e&->&Hi&[-> | ->])]; [by constructor | | by constructor].
    by apply committed_refused, fail_internal.
  - destruct Hb as [[L' Ho2] Hfr]. destruct (Hpost _ Ho2) as (Hw'&->&->). split; [done |].
    exists (committed w1). split; [done | by constructor].
Qed.

(** The audited failure that ends [finish]. *)
Lemma finish_fail_spec op rq e w r w' :
  idle w →
  run (let! _ := auditFailure op (Some rq.(rq_from)) (Some rq.(rq_to))
                   (Some (Money.of_units rq.(rq_units))) rq.(rq_request) e in
       mret (Err e : reply)) w = (r, w') →
  idle w' ∧ r = Err e ∧
  audited (failure_row op (Some rq.(rq_from)) (Some rq.(rq_to)) (Some rq.(rq_units)) e rq.(rq_request))
    (committed w) (committed w').
Proof.
  intros Hw Hr. runs Hr. apply auditFailure_spec in Erun as [Hw1 Ha]; [| |done].
  - rewrite run_ret in Hr. by simplify_eq.
  - intros m [= <-]. by left.
Qed.

(** From [WithTx] to the reply. *)
Lemma settle_spec op funds rq id f w r w' :
  body_spec funds rq id f → stable_request rq (committed w) → idle w →
  run (let! res := WithTx f in
       finish op (Some rq.(rq_from)) (Some rq.(rq_to)) (Some (Money.of_units rq.(rq_units)))
         rq.(rq_key) rq.(rq_request) id res) w = (r, w') →
  idle w' ∧ settles op funds rq id (committed w) r (committed w').
Proof.
  intros Hbody Hst Hw Hr. runs Hr.
  apply (WithTx_body funds rq id) in Erun as (Hw1&L0&Hrely&Hc); [|done..].
  remember (committed w0) as L1 eqn:HL1.
  destruct Hc as [Hcm|e Hfr|e Hcm Hi]; unfold finish in Hr.
  - runs Hr. apply auditSuccess_spec in Erun as [Hw' Ha]; [|done].
    rewrite run_ret in Hr. simplify_eq. split; [done |].
    eapply settles_moved; [done.. | by rewrite HL1].
  - case_bool_decide as He.
    + subst e. runs Hr. apply spec_get_key in Erun as (Hw2&Hrely2&Hg); [|done].
      destruct r0 as [[t es]|e'].
      * rewrite run_ret in Hr. simplify_eq. split; [done |]. destruct Hg.
        eapply settles_replayed; [|done..]. by etrans.
      * apply finish_fail_spec in Hr as (Hw'&->&L2&Hr2&Ha); [|done]. split; [done |].
        eapply (settles_refused _ _ _ _ _ L0); [done.. |].
        exists L2. split; [|done]. rewrite HL1. by etrans.
    + apply finish_fail_spec in Hr as (Hw'&->&Ha); [|done]. split; [done |].
      eapply settles_refused; [done.. | by rewrite HL1].
  - rewrite bool_decide_false in Hr by done.
    apply finish_fail_spec in Hr as (Hw'&->&Ha); [|done]. split; [done |].
    eapply settles_unacknowledged; [done.. | by rewrite HL1].
Qed.

(** A reply that ends at an audited rejection. *)
Lemma reject_spec op from to amount requestID e w r w' :
  (∀ m, amount = Some m → Money.proper m) → idle w →
  run (let! _ := auditFailure op from to amount requestID e in mret (Err e : reply)) w = (r, w') →
  idle w' ∧ r = Err e ∧
  audited (failure_row op from to (Money.units <$> amount) e requestID) (committed w) (committed w').
Proof.
  intros Hm Hw Hr. runs Hr. apply auditFailure_spec in Erun as [Hw1 Ha]; [|done..].
  rewrite run_ret in Hr. by simplify_eq.
Qed.

Lemma Transfer_outcome srcID dstID amount idemKey requestID w r w' :
  Money.proper amount → idle w →
  run (Transfer srcID dstID amount idemKey requestID) w = (r, w') →
  idle w' ∧ transfer_outcome srcID dstID amount idemKey requestID (committed w) r (committed w').
Proof.
  intros Hprop Hw Hr. unfold Transfer in Hr.
  assert (Hm : ∀ m, Some amount = Some m → Money.proper m) by (by intros m [= <-]).
  rewrite (Money.proper_IsPositive amount Hprop) in Hr.
  destruct (Z.ltb_spec 0 (Money.units amount)) as [Hpos|Hneg]; simpl negb in Hr; cbv iota in Hr.
  2:{ apply reject_spec in Hr as (Hw'&->&Ha); [|done..]. split; [done |].
      eapply transfer_rejected; [by left | done]. }
  case_decide as Hsd.
  { apply reject_spec in Hr as (Hw'&->&Ha); [|done..]. split; [done |].
    eapply transfer_rejected; [right; by left | done]. }
  case_decide as Hext.
  { apply reject_spec in Hr as (Hw'&->&Ha); [|done..]. split; [done |].
    eapply transfer_rejected; [right; by right | done]. }
  runs Hr. apply spec_get_key in Erun as (Hw1&Hrely&Hg); [|done].
  destruct r0 as [[t es]|e].
  { rewrite run_ret in Hr. simplify_eq. split; [done |]. destruct Hg. by eapply transfer_replayed. }
  clear Hg. runs Hr. apply spec_NewV7 in Erun as (Hw2&HC&Hi); [|done].
  destruct r0 as [id|e'].
  2:{ rewrite run_ret in Hr. simplify_eq. split; [done |].
      apply transfer_no_id; [by rewrite HC | by apply Hi]. }
  assert (Hsc : Money.scaled amount).
  { apply Money.proper_positive; [done |]. rewrite Money.proper_IsPositive by done. by apply Z.ltb_lt. }
  rewrite (Money.scaled_of_units amount Hsc) in Hr.
  eapply (settle_spec "TRANSFER" true (transfer_rq srcID dstID amount idemKey requestID) id) in Hr
    as [Hw' Hset];
    [split; [done |] | by apply transfer_tx_spec | apply transfer_stable; tauto | done].
  eapply transfer_settled; [done | done | tauto | tauto | | exact Hset]. by rewrite HC.
Qed.

Lemma Deposit_outcome dstID amount idemKey requestID w r w' :
  Money.proper amount → idle w →
  run (Deposit dstID amount idemKey requestID) w = (r, w') →
  idle w' ∧ deposit_outcome dstID amount idemKey requestID (committed w) r (committed w').
Proof.
  intros Hprop Hw Hr. unfold Deposit in Hr.
  assert (Hm : ∀ m, Some amount = Some m → Money.proper m) by (by intros m [= <-]).
  rewrite (Money.proper_IsPositive amount Hprop) in Hr.
  destruct (Z.ltb_spec 0 (Money.units amount)) as [Hpos|Hneg]; simpl negb in Hr; cbv iota in Hr.
  2:{ apply reject_spec in Hr as (Hw'&->&Ha); [|done..]. split; [done |].
      eapply deposit_rejected; [by left | done]. }
  case_decide as Hext.
  { apply reject_spec in Hr as (Hw'&->&Ha); [|done..]. split; [done |].
    eapply deposit_rejected; [by right | done]. }
  runs Hr. apply spec_get_key in Erun as (Hw1&Hrely&Hg); [|done].
  destruct r0 as [[t es]|e].
  { rewrite run_ret in Hr. simplify_eq. split; [done |]. destruct Hg. by eapply deposit_replayed. }
  clear Hg. runs Hr. apply spec_NewV7 in Erun as (Hw2&HC&Hi); [|done].
  destruct r0 as [id|e'].
  2:{ rewrite run_ret in Hr. simplify_eq. split; [done |].
      apply deposit_no_id; [by rewrite HC | by apply Hi]. }
  assert (Hsc : Money.scaled amount).
  { apply Money.proper_positive; [done |]. rewrite Money.proper_IsPositive by done. by apply Z.ltb_lt. }
  rewrite (Money.scaled_of_units amount Hsc) in Hr.
  eapply (settle_spec "DEPOSIT" false (deposit_rq dstID amount idemKey requestID) id) in Hr
    as [Hw' Hset];
    [split; [done |] | by apply deposit_tx_spec | by apply deposit_stable | done].
  eapply deposit_settled; [done | done | | exact Hset]. by rewrite HC.
Qed.

Lemma Reverse_outcome orig idemKey requestID w r w' :
  idle w →
  run (Reverse orig idemKey requestID) w = (r, w') →
  idle w' ∧ reverse_outcome orig idemKey requestID (committed w) r (committed w').
Proof.
  intros Hw Hr. unfold Reverse in Hr.
  runs Hr. apply spec_get_key in Erun as (Hw1&Hrely1&Hg); [|done].
  destruct r0 as [[t es]|e].
  { rewrite run_ret in Hr. simplify_eq. split; [done |]. destruct Hg. by eapply reverse_replayed. }
  clear Hg. runs Hr. apply spec_get in Erun as (Hw2&Hrely2&Hg); [|done].
  assert (Hrely : rely (committed w) (committed w1)) by by etrans.
  destruct r0 as [[t es]|e'].
  2:{ apply reject_spec in Hr as (Hw'&->&Ha); [|done..]. split; [done |]. by eapply reverse_not_found. }
  destruct Hg as [(x&Hx&Hk&_&_&_&Hes) <-].
  case_bool_decide as Hkind; simpl negb in Hr; cbv iota in Hr.
  2:{ apply reject_spec in Hr as (Hw'&->&Ha); [|done..]. split; [done |].
      eapply reverse_wrong_kind; [done | done | congruence | done]. }
  assert (Hinv1 : ledger_inv (committed w1)) by apply Hw2.
  pose proof (inv_shape _ Hinv1 _ _ Hx) as Hsh. unfold txn_shape in Hsh.
  rewrite <-Hk, Hkind in Hsh. destruct Hsh as (_&a&b&u&Hlegs&Hab&_).
  assert (Hu : 0 < u).
  { apply (inv_legs _ Hinv1 _ _ (Leg a DirectionDebit u) Hx). rewrite Hlegs. left. }
  rewrite Hlegs in Hes. rewrite (scan_legs_transfer _ _ _ _ _ Hes) in Hr.
  runs Hr. apply spec_NewV7 in Erun as (Hw3&HC&Hi); [|done].
  destruct r0 as [id|e''].
  2:{ rewrite run_ret in Hr. simplify_eq. split; [done |].
      apply reverse_no_id; [by rewrite HC | by apply Hi]. }
  assert (Ht : transfer_of t.(txn_ID) a b u (committed w1))
    by (exists x; split_and!; [done | congruence | done]).
  eapply (settle_spec "REVERSAL" true (reverse_rq t.(txn_ID) a b u idemKey requestID) id) in Hr
    as [Hw' Hset];
    [split; [done |] | by apply reverse_tx_spec | rewrite HC; by apply reverse_stable | done].
  rewrite HC in Hset.
  eapply reverse_settled; [done | exact Ht | done.. | exact Hset].
Qed.
End operations.
