(* ===== verification/Numeric.v ===== *)
(** * Money through a NUMERIC(20,4) column

    The text that leaves [Decimal.Value] is converted by the column's input
    function, and the column's output text is read by [Decimal.Scan]. *)

From Stdlib Require Import Ascii.
From S2P Require Import Prelude GoStd Decimal Money Uuid Ledger Schema.
From stdpp Require Import options.
Import Schema.
Open Scope Z_scope.

(** The check a value must pass to be stored. *)
Definition in_range (u : Z) : bool := Z.abs u <? numeric_limit.

Definition stored_as (u : Z) : result error Z := if in_range u then Ok u else Err numeric_overflow.

(** ** Writing *)

Lemma split_point_none s : Forall (λ c, c ≠ "."%char) s → split_point s = (s, []).
Proof.
  induction 1 as [|c s Hc Hs IH]; [done |]. simpl. rewrite bool_decide_false by done. by rewrite IH.
Qed.

Lemma split_point_some s1 s2 :
  Forall (λ c, c ≠ "."%char) s1 → split_point (s1 ++ "."%char :: s2) = (s1, s2).
Proof.
  induction 1 as [|c s Hc Hs IH]; [done |]. simpl. rewrite bool_decide_false by done. by rewrite IH.
Qed.

Lemma split_point_text ip frac :
  Decimal.digits ip → split_point (ip ++ Decimal.point_text frac) = (ip, frac).
Proof.
  intros Hip. apply Decimal.digits_no_point in Hip. destruct frac as [|c frac]; simpl.
  - rewrite app_nil_r. by apply split_point_none.
  - by apply split_point_some.
Qed.

Lemma split_sign_text neg ip rest :
  ip ≠ [] → Decimal.digits ip →
  split_sign (Decimal.sign_text neg ++ ip ++ rest) = (neg, ip ++ rest).
Proof.
  intros Hne Hip. destruct neg; [done |]. destruct ip as [|c ip]; [done |].
  inversion_clear Hip as [|? ? Hc _]. destruct c as [[] [] [] [] [] [] [] []]; done.
Qed.

Lemma numeric_in_plain neg ip frac n :
  ip ≠ [] → Decimal.digits ip → parse_digits 0 (ip ++ frac) = Some n → (length frac <= 4)%nat →
  numeric_in (b2s (Decimal.sign_text neg ++ ip ++ Decimal.point_text frac))
  = stored_as ((if neg then - n else n) * 10 ^ (4 - Z.of_nat (length frac))).
Proof.
  intros Hne Hip Hn Hl. unfold numeric_in. rewrite s2b_b2s.
  rewrite split_sign_text by done. rewrite split_point_text by done.
  destruct (ip ++ frac) as [|c s] eqn:E; [by apply app_eq_nil in E as [-> _] |].
  rewrite Hn. replace (Z.of_nat (length frac) <=? 4) with true by (symmetry; apply Z.leb_le; lia).
  done.
Qed.

(** A scaled amount is stored exactly, or refused when it does not fit. *)
Lemma numeric_in_of_units u :
  numeric_in (Decimal.Value (Money.Decimal (Money.of_units u))) = stored_as u.
Proof.
  unfold Decimal.Value, Decimal.String. rewrite Decimal.string_neg_exp by done. simpl.
  destruct (Decimal.int_frac _ _) as [ip frac] eqn:Hif.
  apply Decimal.int_frac_spec in Hif as (Hne&Hip&Hfr&Hn&Hl); [|lia|lia].
  destruct (Decimal.trim_zeros_spec frac) as [j Hj].
  rewrite Hj, app_assoc, parse_digits_app in Hn.
  destruct (parse_digits 0 (ip ++ Decimal.trim_zeros frac)) as [n|] eqn:Hp; [|done].
  rewrite parse_digits_zeros in Hn. injection Hn as Hn.
  rewrite Hj, length_app, length_replicate in Hl.
  rewrite (numeric_in_plain _ _ _ n) by (done || lia). f_equal.
  replace (4 - Z.of_nat (length (Decimal.trim_zeros frac))) with (Z.of_nat j) by lia.
  destruct (Z.ltb_spec u 0); lia.
Qed.

(** Every amount a client can hold, Go's zero value included. *)
Lemma numeric_in_proper m :
  Money.proper m → numeric_in (Decimal.Value (Money.Decimal m)) = stored_as (Money.units m).
Proof.
  intros [Hs| ->]; [|by vm_compute].
  rewrite (Money.scaled_of_units m Hs) at 1. by rewrite numeric_in_of_units.
Qed.

(** ** Reading *)

Lemma pad4_spec r :
  0 <= r < 10000 → Decimal.digits (pad4 r) ∧ ∀ acc, parse_digits acc (pad4 r) = Some (acc * 10000 + r).
Proof.
  intros Hr.
  assert (Hd : ∀ acc, parse_digits acc (pad4 r) = Some (acc * 10000 + r)).
  { intros acc. unfold pad4. cbn [parse_digits].
    rewrite !digit_val_char by (Z.to_euclidean_division_equations; lia).
    f_equal. Z.to_euclidean_division_equations; lia. }
  split; [|done]. eapply parse_digits_is_digit, (Hd 0).
Qed.

Lemma unquote_plain s : list.head s ≠ Some quote → Decimal.unquoteIfQuoted s = s.
Proof.
  intros H. unfold Decimal.unquoteIfQuoted. rewrite (bool_decide_false (list.head s = _)) by done.
  by rewrite andb_false_r.
Qed.

(** A stored number is read back exactly. *)
Lemma Scan_numeric_out z : Decimal.Scan (numeric_out z) = Ok (Decimal.MkDecimal z (-4)).
Proof.
  unfold Decimal.Scan, numeric_out. rewrite s2b_b2s.
  set (ip := nat_String (Z.abs z / 10000)). set (r := Z.abs z mod 10000).
  assert (0 <= Z.abs z / 10000) by (apply Z.div_pos; lia).
  assert (Hr : 0 <= r < 10000) by (apply Z.mod_pos_bound; lia).
  destruct (pad4_spec r Hr) as [Hdr Hpr].
  assert (Hip : Decimal.digits ip) by (by apply nat_String_digits).
  assert (Hne : ip ≠ []) by apply nat_String_nonempty.
  change ((if z <? 0 then ["-"%char] else []) ++ ip ++ "."%char :: pad4 r)
    with (Decimal.sign_text (z <? 0) ++ ip ++ Decimal.point_text (pad4 r)).
  rewrite unquote_plain.
  2:{ destruct (z <? 0); [done |]. destruct ip as [|c ip]; [done |].
      inversion_clear Hip as [|? ? Hc _]. intros [= ->]. done. }
  rewrite (Decimal.NewFromBytes_plain _ _ _ (Z.abs z)); [|done..| |simpl; lia].
  - by rewrite Decimal.signed_abs.
  - rewrite parse_digits_app. unfold ip. rewrite parse_nat_String, Hpr by done. f_equal.
    pose proof (Z.div_mod (Z.abs z) 10000). subst r. lia.
Qed.

Lemma NewFromDecimal_scaled z : Money.NewFromDecimal (Decimal.MkDecimal z (-4)) = Money.of_units z.
Proof. done. Qed.
