(* ===== verification/SchemaFacts.v ===== *)
(** * The statements, seen from the abstract ledger

    [abs] reads the tables as a ledger; [db_ok] is what the schema's keys and
    sequences guarantee.  Each statement preserves [db_ok] and acts on the ledger
    as its name says. *)

From S2P Require Import Prelude GoStd Decimal Money Uuid Ledger Schema LedgerSpec Numeric.
From stdpp Require Import options.
Import Ledger Schema LedgerSpec.
Open Scope Z_scope.

(** ** Abstraction *)

Definition abs_account (r : account_row) : acct := Acct r.(ar_balance) r.(ar_is_system).

Definition abs_leg (e : entry_row) : leg := Leg e.(er_account_id) e.(er_direction) e.(er_amount).

Definition abs_txn (t : Tables) (id : UUID) (r : transaction_row) : txn :=
  Txn r.(tr_kind) r.(tr_idempotency_key) r.(tr_reverses) (abs_leg <$> entries_of id t).

Definition abs_audit (r : audit_row) : audit :=
  Audit r.(au_operation) r.(au_from_account) r.(au_to_account) r.(au_amount) r.(au_outcome)
    r.(au_error_reason) r.(au_transaction_id) r.(au_request_id).

Definition abs (t : Tables) : ledger :=
  MkLedger (abs_account <$> t.(accounts))
    (map_imap (λ id r, Some (abs_txn t id r)) t.(transactions))
    (abs_audit <$> t.(audit_log)).

Lemma abs_accts t id : (abs t).(accts) !! id = abs_account <$> t.(accounts) !! id.
Proof. apply lookup_fmap. Qed.

Lemma abs_txns t id : (abs t).(txns) !! id = abs_txn t id <$> t.(transactions) !! id.
Proof. simpl. rewrite map_lookup_imap. by destruct (_ !! id). Qed.

Lemma abs_txns_None t id : (abs t).(txns) !! id = None ↔ t.(transactions) !! id = None.
Proof. rewrite abs_txns. apply fmap_None. Qed.

Lemma abs_txns_is_Some t id : is_Some ((abs t).(txns) !! id) ↔ is_Some (t.(transactions) !! id).
Proof. rewrite abs_txns. apply fmap_is_Some. Qed.

(** ** What the schema guarantees *)

Definition id_lt (e1 e2 : entry_row) : Prop := e1.(er_id) < e2.(er_id).

Record db_ok (db : DB) : Prop := {
  ok_sorted : StronglySorted id_lt db.(tables).(entries);
  ok_seq : ∀ e, e ∈ db.(tables).(entries) → e.(er_id) <= db.(entries_seq);
  ok_fk_txn : ∀ e, e ∈ db.(tables).(entries) →
      is_Some (db.(tables).(transactions) !! e.(er_transaction_id));
  ok_fk_acc : ∀ e, e ∈ db.(tables).(entries) →
      is_Some (db.(tables).(accounts) !! e.(er_account_id)) }.

Lemma db_ok_no_entries db id :
  db_ok db → db.(tables).(transactions) !! id = None → entries_of id db.(tables) = [].
Proof.
  intros Hok Hid. unfold entries_of. apply filter_none.
  intros e He Heq. destruct (ok_fk_txn db Hok e He) as [r Hr]. congruence.
Qed.

(** ** Reading entries *)

(** A row of the join of entries with accounts. *)
Definition joined (accs : gmap UUID account_row) (e : entry_row) : entry_rec :=
  EntryRec e.(er_id) e.(er_transaction_id) e.(er_account_id) e.(er_direction)
    (numeric_out e.(er_amount)) e.(er_created_at)
    (match accs !! e.(er_account_id) with Some a => a.(ar_name) | None => "" end).

(** Every entry of a transaction is returned, in insertion order. *)
Lemma select_entries_ok db id :
  db_ok db →
  select_entries id db.(tables) = joined db.(tables).(accounts) <$> entries_of id db.(tables).
Proof.
  intros Hok. unfold select_entries.
  rewrite (omap_total _ (joined db.(tables).(accounts))).
  - apply (merge_sort_strict entry_id_le re_id); [done |].
    apply (StronglySorted_fmap _ id_lt); [done |].
    apply StronglySorted_filter, Hok.
  - intros e [_ He]%list_elem_of_filter. unfold rec_of_entry, joined.
    destruct (ok_fk_acc db Hok e He) as [a ->]. done.
Qed.

(** ** Locking rows *)

Lemma select_accounts_Permutation ids t :
  select_accounts_for_update ids t
  ≡ₚ rec_of_account <$> filter (λ p, p.1 ∈ ids) (map_to_list t.(accounts)).
Proof. apply merge_sort_Permutation. Qed.

Lemma rec_of_account_id p : rc_id (rec_of_account p) = p.1.
Proof. by destruct p. Qed.

(** Exactly the existing rows among those asked for, once each. *)
Lemma select_accounts_ids ids t :
  NoDup ids →
  rc_id <$> select_accounts_for_update ids t
  ≡ₚ filter (λ id, is_Some (t.(accounts) !! id)) ids.
Proof.
  intros Hnd. rewrite select_accounts_Permutation. rewrite <-list_fmap_compose.
  apply NoDup_Permutation.
  - rewrite (list_fmap_ext _ fst _ (λ _ p _, rec_of_account_id p)).
    apply (sublist_NoDup _ (map_to_list t.(accounts)).*1); [apply NoDup_fst_map_to_list |].
    apply fmap_sublist, sublist_filter.
  - by apply NoDup_filter.
  - intros id. rewrite list_elem_of_filter, list_elem_of_fmap. split.
    + intros ((i&r)&->&[Hin Hi]%list_elem_of_filter). simpl in *.
      apply elem_of_map_to_list in Hi. split; [by exists r | done].
    + intros [[r Hr] Hin]. exists (id, r). split; [done |].
      apply list_elem_of_filter. split; [done |]. by apply elem_of_map_to_list.
Qed.

(** The rows come in the order of their canonical text: the lock order. *)
Lemma select_accounts_sorted ids t :
  StronglySorted id_text_le (select_accounts_for_update ids t).
Proof.
  apply StronglySorted_merge_sort.
  - intros x y z. unfold id_text_le. apply (transitivity (R:=Uuid.le)).
  - intros x y. apply Uuid.le_total.
Qed.

Lemma select_accounts_rows ids t rc :
  rc ∈ select_accounts_for_update ids t →
  ∃ r, t.(accounts) !! rc.(rc_id) = Some r ∧ rc = rec_of_account (rc.(rc_id), r).
Proof.
  rewrite select_accounts_Permutation. intros ((id&r)&->&[_ Hi]%list_elem_of_filter)%list_elem_of_fmap.
  exists r. split; [|done]. by apply elem_of_map_to_list in Hi.
Qed.

(** ** Unique constraints *)

Lemma key_used_false key t : key_used key t = false ↔ key_fresh key (abs t).
Proof.
  unfold key_used. rewrite existsb_map_false. unfold key_fresh. split.
  - intros Hall id x. rewrite abs_txns. intros (r&Hr&->)%fmap_Some.
    by apply Hall, bool_decide_eq_false in Hr.
  - intros Hf id r Hr. apply bool_decide_eq_false.
    apply (Hf id (abs_txn t id r)). by rewrite abs_txns, Hr.
Qed.

Lemma reversal_used_false rev t : reversal_used rev t = false ↔ not_reversed rev (abs t).
Proof.
  unfold reversal_used, not_reversed. destruct rev as [o|]; [|split; [by intros _ o id x [=] | done]].
  rewrite existsb_map_false. split.
  - intros Hall o' id x [= <-]. rewrite abs_txns. intros (r&Hr&->)%fmap_Some.
    by apply Hall, bool_decide_eq_false in Hr.
  - intros Hf id r Hr. apply bool_decide_eq_false.
    apply (Hf o id (abs_txn t id r)); [done |]. by rewrite abs_txns, Hr.
Qed.

Lemma key_used_true key t : key_used key t = true → ¬ key_fresh key (abs t).
Proof. by intros H Hf%key_used_false; rewrite H in Hf. Qed.

Lemma reversal_used_true rev t : reversal_used rev t = true → ¬ not_reversed rev (abs t).
Proof. by intros H Hf%reversal_used_false; rewrite H in Hf. Qed.

(** Each reported violation is one of the three constraints, really violated. *)
Inductive violates (id : UUID) (key : string) (rev : option UUID) (t : Tables) : error → Prop :=
| violates_pkey :
    is_Some ((abs t).(txns) !! id) →
    violates id key rev t (unique_violation "transactions_pkey" "Key (id) already exists.")
| violates_key :
    ¬ key_fresh key (abs t) →
    violates id key rev t (unique_violation "transactions_idempotency_key_key"
      ("Key (idempotency_key)=(" +:+ key +:+ ") already exists."))
| violates_reverses :
    ¬ not_reversed rev (abs t) →
    violates id key rev t (unique_violation "transactions_reverses_transaction_id_key"
      "Key (reverses_transaction_id) already exists.").

Lemma violated_uniques_sound id key rev t e :
  e ∈ violated_uniques id key rev t → violates id key rev t e.
Proof.
  unfold violated_uniques. rewrite !elem_of_app. intros [H|[H|H]].
  - case_bool_decide; [|by apply not_elem_of_nil in H].
    apply list_elem_of_singleton in H as ->. by apply violates_pkey, abs_txns_is_Some.
  - destruct (key_used key t) eqn:E; [|by apply not_elem_of_nil in H].
    apply list_elem_of_singleton in H as ->. by apply violates_key, key_used_true.
  - destruct (reversal_used rev t) eqn:E; [|by apply not_elem_of_nil in H].
    apply list_elem_of_singleton in H as ->. by apply violates_reverses, reversal_used_true.
Qed.

Lemma violated_uniques_nil id key rev t :
  violated_uniques id key rev t = [] ↔
  (abs t).(txns) !! id = None ∧ key_fresh key (abs t) ∧ not_reversed rev (abs t).
Proof.
  unfold violated_uniques. rewrite <-key_used_false, <-reversal_used_false, abs_txns_None.
  rewrite eq_None_not_Some.
  case_bool_decide; destruct (key_used key t), (reversal_used rev t); simpl; split; try done.
  all: by intros (?&?&?).
Qed.

(** ** Writes *)

Lemma abs_with_audit t rows :
  abs (with_audit t rows) = MkLedger (abs t).(accts) (abs t).(txns) (abs_audit <$> rows).
Proof. done. Qed.

Lemma abs_update t id r bal now :
  t.(accounts) !! id = Some r →
  abs (with_accounts t (<[id := AccountRow r.(ar_name) bal r.(ar_is_system) r.(ar_created_at) now]>
                          t.(accounts)))
  = set_units id bal (abs t).
Proof.
  intros Hr. unfold set_units, abs; simpl. f_equal. apply map_eq. intros i.
  rewrite lookup_fmap, lookup_insert, lookup_alter, !lookup_fmap.
  case_decide; subst; [by rewrite Hr | done].
Qed.

Lemma update_balance_ok text now id t t' :
  update_balance text now id t = Ok t' →
  ∃ bal, numeric_in text = Ok bal ∧ abs t' = set_units id bal (abs t) ∧
    (∀ x, (abs t).(accts) !! id = Some x → x.(a_system) = true ∨ 0 <= bal) ∧
    t'.(entries) = t.(entries) ∧ t'.(transactions) = t.(transactions) ∧
    (∀ a, is_Some (t'.(accounts) !! a) ↔ is_Some (t.(accounts) !! a)).
Proof.
  unfold update_balance. destruct (numeric_in text) as [bal|]; [|done].
  destruct (t.(accounts) !! id) as [r|] eqn:Hr.
  - destruct (balance_check _ _) eqn:Hc; [|done]. intros [= <-]. exists bal.
    split_and!; try done.
    + by apply abs_update.
    + rewrite abs_accts, Hr. intros x [= <-]. unfold balance_check in Hc. simpl.
      apply orb_true_iff in Hc as [?|?%Z.leb_le]; auto.
    + intros a. simpl. rewrite lookup_insert. case_decide; subst; [|done].
      by rewrite Hr; split; eauto.
  - intros [= <-]. exists bal. split_and!; try done.
    + unfold set_units. rewrite alter_id; [done |]. intros x. by rewrite abs_accts, Hr.
    + rewrite abs_accts, Hr. done.
Qed.

Lemma abs_add_txn t id kind key rev now :
  t.(transactions) !! id = None → entries_of id t = [] →
  abs (with_transactions t (<[id := TransactionRow kind key rev now]> t.(transactions)))
  = add_txn id (Txn kind key rev []) (abs t).
Proof.
  intros Hid Hes. unfold add_txn, abs; simpl. f_equal. apply map_eq. intros i.
  rewrite map_lookup_imap, !lookup_insert, map_lookup_imap.
  case_decide; subst; simpl; [|by destruct (_ !! i)].
  unfold abs_txn; simpl. unfold entries_of in *; simpl. by rewrite Hes.
Qed.

Lemma insert_transaction_ok cx id kind key rev t t' :
  entries_of id t = [] ∨ is_Some (t.(transactions) !! id) →
  insert_transaction cx id kind key rev t = Ok t' →
  abs t' = add_txn id (Txn kind key rev []) (abs t) ∧
  (abs t).(txns) !! id = None ∧ key_fresh key (abs t) ∧ not_reversed rev (abs t) ∧
  t' = with_transactions t (<[id := TransactionRow kind key rev cx.(cx_now)]> t.(transactions)).
Proof.
  intros Hes. unfold insert_transaction.
  destruct (violated_uniques id key rev t) eqn:Hv; [|done].
  apply violated_uniques_nil in Hv as (Hid&Hk&Hr).
  pose proof (proj1 (abs_txns_None t id) Hid) as Hid'.
  destruct Hes as [Hes|[r' Hr']]; [|congruence].
  intros Ht. assert (t' = with_transactions t
     (<[id := TransactionRow kind key rev cx.(cx_now)]> t.(transactions))) as ->.
  { destruct rev; [case_bool_decide|]; by simplify_eq. }
  split_and!; try done. by apply abs_add_txn.
Qed.

(** A refused insertion reports one violated constraint, or a dangling reference. *)
Lemma insert_transaction_err cx id kind key rev t e :
  insert_transaction cx id kind key rev t = Err e →
  violates id key rev t e ∨ e = foreign_key_violation "transactions_reverses_transaction_id_fkey".
Proof.
  unfold insert_transaction. destruct (violated_uniques id key rev t) as [|e0 es] eqn:Hv.
  - destruct rev; [case_bool_decide|]; intros; simplify_eq. by right.
  - intros [= <-]. left. apply violated_uniques_sound. rewrite Hv.
    destruct ((e0 :: es) !! _) as [e1|] eqn:Hl; simpl; [|left].
    by eapply list_elem_of_lookup_2.
Qed.

Lemma entries_of_snoc id t e :
  entries_of id (with_entries t (t.(entries) ++ [e]))
  = entries_of id t ++ (if decide (e.(er_transaction_id) = id) then [e] else []).
Proof. unfold entries_of; simpl. rewrite filter_app, filter_cons, filter_nil. by case_decide. Qed.

Lemma abs_add_leg t e :
  abs (with_entries t (t.(entries) ++ [e])) = add_leg e.(er_transaction_id) (abs_leg e) (abs t).
Proof.
  unfold add_leg, abs; simpl. f_equal. apply map_eq. intros i.
  rewrite map_lookup_imap, lookup_alter, !map_lookup_imap. simpl.
  case_decide as Hi; subst.
  - destruct (_ !! er_transaction_id e) as [r|]; [|done]. simpl. unfold abs_txn.
    rewrite entries_of_snoc, decide_True, fmap_app by done. done.
  - destruct (_ !! i) as [r|]; [|done]. simpl. unfold abs_txn.
    by rewrite entries_of_snoc, decide_False, app_nil_r.
Qed.

Lemma insert_entry_ok id txID accID dir text now t t' :
  insert_entry id txID accID dir text now t = Ok t' →
  ∃ amount, numeric_in text = Ok amount ∧ 0 < amount ∧
    is_Some (t.(transactions) !! txID) ∧ is_Some (t.(accounts) !! accID) ∧
    t' = with_entries t (t.(entries) ++ [EntryRow id txID accID dir amount now]).
Proof.
  unfold insert_entry. destruct (numeric_in text) as [amount|]; [|done].
  destruct (Z.ltb_spec 0 amount); simpl; [|done].
  destruct (existsb _ _); [done |]. do 2 (case_bool_decide; simpl; [|done]).
  intros [= <-]. by exists amount.
Qed.

(** ** Errors of the server *)

Definition is_pg (e : error) : Prop := match e with PgError _ _ _ _ => True | _ => False end.

Lemma is_pg_internal e : is_pg e → internal e.
Proof. by destruct e. Qed.

Lemma numeric_in_err text e : numeric_in text = Err e → is_pg e.
Proof. unfold numeric_in. intros H. repeat case_match; by simplify_eq. Qed.

Lemma violates_is_pg id key rev t e : violates id key rev t e → is_pg e.
Proof. by destruct 1. Qed.

Lemma sql_exec_err {A} cx (q : sql A) db e db' : sql_exec cx q db = (Err e, db') → is_pg e.
Proof.
  destruct q; simpl; unfold upd_tables; try done.
  - unfold update_balance. destruct (numeric_in balance) eqn:E;
      [repeat case_match; intros; by simplify_eq | intros; simplify_eq; by eapply numeric_in_err].
  - unfold insert_account. repeat case_match; intros; by simplify_eq.
  - destruct (insert_transaction _ _ _ _ _ _) eqn:E; intros; simplify_eq.
    apply insert_transaction_err in E as [Hv| ->]; [by eapply violates_is_pg | done].
  - unfold nextval. destruct (_ <? max_bigint); [|intros; by simplify_eq].
    unfold insert_entry. destruct (numeric_in amount) eqn:E;
      [repeat case_match; intros; by simplify_eq | intros; simplify_eq; by eapply numeric_in_err].
  - unfold nextval. destruct (_ <? max_bigint); [|intros; by simplify_eq].
    unfold insert_audit. destruct amount as [text|]; [|intros; by simplify_eq].
    destruct (numeric_in text) eqn:E; intros; simplify_eq. by eapply numeric_in_err.
Qed.

(** ** Preservation of [db_ok] *)

(** Tables with the same entries and no fewer accounts and transactions. *)
Lemma db_ok_grow db t n m :
  db_ok db → t.(entries) = db.(tables).(entries) → db.(entries_seq) <= n →
  (∀ i, is_Some (db.(tables).(transactions) !! i) → is_Some (t.(transactions) !! i)) →
  (∀ i, is_Some (db.(tables).(accounts) !! i) → is_Some (t.(accounts) !! i)) →
  db_ok (MkDB t n m).
Proof.
  intros [H1 H2 H3 H4] He Hn Ht Ha. split; simpl; rewrite He; [done | | auto | auto].
  intros e Hin. specialize (H2 e Hin). lia.
Qed.

Lemma is_Some_insert {V} (m : gmap UUID V) i j x : is_Some (m !! j) → is_Some (<[i:=x]> m !! j).
Proof. rewrite lookup_insert_is_Some. intros H. destruct (decide (i = j)); auto. Qed.

Lemma db_ok_snoc db n txID accID dir amount now m :
  db_ok db → db.(entries_seq) < n →
  is_Some (db.(tables).(transactions) !! txID) → is_Some (db.(tables).(accounts) !! accID) →
  db_ok (MkDB (with_entries db.(tables)
                 (db.(tables).(entries) ++ [EntryRow n txID accID dir amount now])) n m).
Proof.
  intros [H1 H2 H3 H4] Hn Ht Ha. split; simpl.
  - apply StronglySorted_app_2; [| done | by repeat constructor].
    intros e1 e2 Hin ->%list_elem_of_singleton. specialize (H2 e1 Hin). unfold id_lt; simpl. lia.
  - intros e [Hin| ->%list_elem_of_singleton]%elem_of_app; simpl; [|lia].
    specialize (H2 e Hin). lia.
  - intros e [Hin| ->%list_elem_of_singleton]%elem_of_app; auto.
  - intros e [Hin| ->%list_elem_of_singleton]%elem_of_app; auto.
Qed.

Lemma insert_transaction_tables cx id kind key rev t t' :
  insert_transaction cx id kind key rev t = Ok t' →
  t' = with_transactions t (<[id := TransactionRow kind key rev cx.(cx_now)]> t.(transactions)).
Proof.
  unfold insert_transaction. destruct (violated_uniques _ _ _ _); [|done].
  destruct rev; [case_bool_decide|]; intros; by simplify_eq.
Qed.

Lemma insert_audit_tables row id amount t t' :
  insert_audit row id amount t = Ok t' → ∃ rows, t' = with_audit t rows.
Proof.
  unfold insert_audit. destruct amount as [text|].
  - destruct (numeric_in text); intros; simplify_eq; eauto.
  - intros; simplify_eq; eauto.
Qed.

Lemma sql_exec_ok {A} cx (q : sql A) db r db' :
  db_ok db → sql_exec cx q db = (r, db') → db_ok db' ∧ db.(entries_seq) <= db'.(entries_seq).
Proof.
  intros Hok. destruct q; simpl; unfold upd_tables; try (by intros; simplify_eq).
  - destruct (update_balance _ _ _ _) as [t'|] eqn:E; intros; simplify_eq; [|done].
    apply update_balance_ok in E as (bal&_&_&_&He&Ht&Ha). split; [|done].
    apply (db_ok_grow db); [done | done | done | by rewrite Ht | intros i; by rewrite Ha].
  - unfold insert_account. destruct (_ !! id) eqn:E; intros; simplify_eq; [done |].
    split; [|done]. apply (db_ok_grow db); try done. intros i. apply is_Some_insert.
  - destruct (insert_transaction _ _ _ _ _ _) as [t'|] eqn:E; intros; simplify_eq; [|done].
    apply insert_transaction_tables in E as ->. split; [|done].
    apply (db_ok_grow db); try done. intros i. apply is_Some_insert.
  - unfold nextval. destruct (_ <? max_bigint); [|by intros; simplify_eq].
    destruct (insert_entry _ _ _ _ _ _ _) as [t'|] eqn:E; intros; simplify_eq; simpl.
    + apply insert_entry_ok in E as (amt&_&_&Ht&Ha&->). split; [|lia]. apply db_ok_snoc; auto with lia.
    + split; [|lia]. apply (db_ok_grow db); auto with lia.
  - unfold nextval. destruct (_ <? max_bigint); [|by intros; simplify_eq].
    destruct (insert_audit _ _ _ _) as [t'|] eqn:E; intros; simplify_eq; simpl.
    + apply insert_audit_tables in E as [rows ->]. split; [|done]. by apply (db_ok_grow db).
    + split; [|done]. by apply (db_ok_grow db).
Qed.
