(* ===== verification/StoreBlocks.v ===== *)
(** * The statements of the store inside a block

    [BlockSpec] is what the store relies on of the driver inside a transaction
    block: a statement that succeeds has acted on the working tables as [sql_exec]
    says.  Over any such driver the store's block methods keep the contract
    [TxSpec] of the service's callbacks. *)

From S2P Require Import Prelude GoStd Decimal Money Uuid Ledger Schema Pgx Store Service LedgerSpec LedgerFacts StorerSpec Numeric SchemaFacts.
From stdpp Require Import options.
Import Ledger Schema LedgerSpec.
Open Scope Z_scope.

(** The method wrappers that make [*Store] a [ledger.Storer]. *)
#[export] Instance Store_Storer {M : Type → Type} `{!MRet M, !MBind M, !Pgx M, !GoRuntime M}
  : Service.Storer M := {
  Service.WithTx := λ A, Store.WithTx;
  Service.GetTransactionByIdempotencyKey := Store.GetTransactionByIdempotencyKey;
  Service.GetTransaction := Store.GetTransaction;
  Service.WriteAudit := Store.WriteAudit;
  Service.LockAccountsForUpdate := Store.LockAccountsForUpdate;
  Service.UpdateBalance := Store.UpdateBalance;
  Service.InsertTransaction := Store.InsertTransaction;
  Service.InsertReversalTransaction := Store.InsertReversalTransaction;
  Service.InsertEntries := Store.InsertEntries }.

(** ** Scanning what the statements return *)

Lemma scanAccount_rec id r :
  Store.scanAccount (rec_of_account (id, r))
  = Ok (MkAccount id r.(ar_name) (Money.of_units r.(ar_balance)) r.(ar_is_system)
          r.(ar_created_at) r.(ar_updated_at)).
Proof. unfold Store.scanAccount. simpl. by rewrite Scan_numeric_out. Qed.

Lemma collectAccounts_ok t rows :
  (∀ rc, rc ∈ rows → ∃ r, t.(accounts) !! rc.(rc_id) = Some r ∧ rc = rec_of_account (rc.(rc_id), r)) →
  ∃ accs, Store.collectAccounts (MkRows rows None) = Ok accs ∧ Forall (account_is (abs t)) accs ∧
          acc_ID <$> accs = rc_id <$> rows.
Proof.
  unfold Store.collectAccounts, Store.rows_close. cbn [rows_data rows_Err].
  induction rows as [|rc rows IH]; intros Hrows; [by exists [] |].
  destruct (Hrows rc) as (r&Hr&Hrc); [left |].
  destruct IH as (accs&Hc&Hall&Hids); [by intros; apply Hrows; right |].
  cbn [Store.scan_rows]. rewrite Hrc, scanAccount_rec.
  destruct (Store.scan_rows _ _ rows) as [l|]; [|done]. injection Hc as ->. eexists. split_and!; [done | | by rewrite !fmap_cons, Hids].
  constructor; [|done]. exists (abs_account r). simpl. by rewrite lookup_fmap, Hr.
Qed.

(** A row that cannot be scanned is reported by an error of the driver. *)
Lemma Scan_internal s e : Decimal.Scan s = Err e → internal e.
Proof.
  unfold Decimal.Scan, Decimal.NewFromBytes, Decimal.parse_exponent.
  destruct (split_exponent _) as [m [x|]];
    [destruct (ParseInt 32 x) as [|[]]; try (by intros [= <-]) |];
    (destruct (Decimal.point_index _ _ _) as [i|]; [|by intros [= <-]]);
    destruct i; (destruct (Decimal.parse_int_text _); [|by intros [= <-]]);
    by (destruct (_ || _); intros [= <-]).
Qed.

Lemma scan_rows_internal {R A} label (scan : R → result error A) rows e :
  (∀ row e, scan row = Err e → internal e) → Store.scan_rows label scan rows = Err e → internal e.
Proof.
  intros Hscan. induction rows as [|row rows IH]; cbn [Store.scan_rows]; [done |].
  destruct (scan row) eqn:Hs; [|intros [= <-]; simpl; by apply Hscan in Hs].
  destruct (Store.scan_rows _ _ rows); [done |]. intros [= <-]. by apply IH.
Qed.

(** A cursor that ends in a failure yields no result. *)
Lemma rows_cut {R A} label wrap (scan : R → result error A) rows e r :
  (∀ row e, scan row = Err e → internal e) → (∀ e, internal e → internal (wrap e)) →
  internal e →
  (let^ l := Store.scan_rows label scan rows in Store.rows_close wrap (MkRows rows (Some e)) l) = r →
  ∃ e', r = Err e' ∧ internal e'.
Proof.
  intros Hscan Hwrap Hi <-. destruct (Store.scan_rows _ _ _) as [l|e1] eqn:Hs.
  - unfold Store.rows_close. simpl. eauto.
  - apply scan_rows_internal in Hs; eauto.
Qed.

Lemma scanAccount_internal row e : Store.scanAccount row = Err e → internal e.
Proof.
  unfold Store.scanAccount. destruct (Decimal.Scan _) eqn:Hs; [done |]. intros [= <-]. by apply Scan_internal in Hs.
Qed.

(** ** Blocks *)

(** Not the report of a violated unique constraint. *)
Definition not_unique (e : error) : Prop :=
  ∀ f, errors_As_PgError e = Some f → f.(pg_Code) ≠ Store.pgErrUniqueViolation.

(** Every entry belongs to a recorded transaction. *)
Definition linked (t : Tables) : Prop :=
  ∀ e, e ∈ t.(entries) → is_Some (t.(transactions) !! e.(er_transaction_id)).

Lemma linked_no_entries t id : linked t → t.(transactions) !! id = None → entries_of id t = [].
Proof.
  intros Ht Hid. apply filter_none. intros e He Heq. destruct (Ht e He) as [r Hr]. congruence.
Qed.

Lemma db_ok_linked db : db_ok db → linked db.(tables).
Proof. intros Hok e. apply (ok_fk_txn db Hok). Qed.

(** What a call of a block answers, and what it makes of the working copy. *)
Definition answers {A} (q : sql A) (L : ledger) (r : result error A) (opened : ledger → Prop) : Prop :=
  ∃ db db', linked db.(tables) ∧ L = abs db.(tables) ∧ opened (abs db'.(tables)) ∧
  match r with
  | Ok a => ∃ cx, sql_exec cx q db = (Ok a, db')
  | Err e => (∃ cx, sql_exec cx q db = (Err e, db')) ∨ internal e ∧ not_unique e
  end.

Class BlockSpec (M : Type → Type) `{!MRet M, !MBind M, !Pgx M, !GoRuntime M} := {
  bworld : Type;
  brun : ∀ {A : Type}, M A → bworld → A * bworld;
  brun_ret : ∀ A (a : A) w, brun (mret a) w = (a, w);
  brun_bind : ∀ A B (m : M A) (f : A → M B) w,
    brun (mbind f m) w = let '(a, w') := brun m w in brun (f a) w';
  open_block : ledger → ledger → bworld → Prop;
  block_exec : ∀ A (q : sql A) C L w r w', open_block C L w → brun (tx_exec q) w = (r, w') →
    answers q L r (λ L', open_block C L' w');
  block_Query : ∀ R (q : sql (list R)) C L w r w', open_block C L w → brun (tx_Query q) w = (r, w') →
    match r with
    | Ok (MkRows l None) => answers q L (Ok l) (λ L', open_block C L' w')
    | Ok (MkRows _ (Some e)) | Err e => internal e ∧ ∃ L', open_block C L' w'
    end;
  block_Now : ∀ C L w now w', open_block C L w → brun time_Now w = (now, w') → open_block C L w' }.

(** One step of a computation in a block. *)
Ltac block_step H :=
  rewrite brun_bind in H;
  match type of H with
  | context [let '(_, _) := brun ?m ?w in _] =>
      let r := fresh "r" in let w' := fresh "w" in let E := fresh "Erun" in
      destruct (brun m w) as [r w'] eqn:E
  end.

Section blocks.
Context {M : Type → Type} `{HB : BlockSpec M}.

Lemma block_exec_err {A} (q : sql A) C L w e w' :
  open_block C L w → brun (tx_exec q) w = (Err e, w') → internal e ∧ ∃ L', open_block C L' w'.
Proof.
  intros Ho Hr. apply (block_exec _ q C L) in Hr as (db&db'&_&_&Ho'&[[cx Hx]|[Hi _]]); [| |done].
  - apply sql_exec_err, is_pg_internal in Hx. eauto.
  - eauto.
Qed.

Lemma store_lock ids C L w r w' :
  NoDup ids → open_block C L w → brun (Store.LockAccountsForUpdate ids) w = (r, w') →
  match r with
  | Ok accs => open_block C L w' ∧ Forall (account_is L) accs ∧
               acc_ID <$> accs ≡ₚ filter (λ id, is_Some (L.(accts) !! id)) ids
  | Err e => internal e ∧ ∃ L', open_block C L' w'
  end.
Proof.
  intros Hnd Ho Hr. unfold Store.LockAccountsForUpdate in Hr. block_step Hr. rewrite brun_ret in Hr.
  destruct r0 as [[rows [e|]]|e].
  { apply (block_Query _ _ C L) in Erun as [Hi Ho']; [|done]. injection Hr as Hr <-.
    unfold Store.collectAccounts in Hr. apply rows_cut in Hr as (e'&->&Hi'); [done | apply scanAccount_internal | done..]. }
  2:{ apply (block_Query _ _ C L) in Erun; [|done]. by simplify_eq. }
  apply (block_Query _ _ C L) in Erun as (db&db'&Hlk&->&Ho'&cx&Hx); [|done]. simpl in Hx. injection Hx as <- <-.
  destruct (collectAccounts_ok db.(tables) _ (select_accounts_rows (Uuid.sort ids) _))
    as (accs&Hc&Hall&Hids).
  rewrite Hc in Hr. simplify_eq. split_and!; [done.. |]. rewrite Hids, select_accounts_ids.
  - rewrite (Uuid.sort_Permutation ids).
    apply reflexive_eq, list_filter_iff. intros id. by rewrite abs_accts, fmap_is_Some.
  - by rewrite Uuid.sort_Permutation.
Qed.

Lemma store_update id m C L w r w' :
  Money.scaled m → open_block C L w → brun (Store.UpdateBalance id m) w = (r, w') →
  match r with
  | Ok _ => open_block C (set_units id (Money.units m) L) w' ∧
            Z.abs (Money.units m) < numeric_limit ∧
            (∀ x, L.(accts) !! id = Some x → x.(a_system) = true ∨ 0 <= Money.units m)
  | Err e => internal e ∧ ∃ L', open_block C L' w'
  end.
Proof.
  intros Hm Ho Hr. unfold Store.UpdateBalance in Hr. block_step Hr.
  eapply block_Now in Erun; [|exact Ho]. clear Ho. rename Erun into Ho. block_step Hr. rewrite brun_ret in Hr.
  destruct r1 as [[]|e].
  2:{ apply (block_exec_err _ C L) in Erun; [|done]. by simplify_eq. }
  apply (block_exec _ _ C L) in Erun as (db&db'&Hlk&->&Ho'&cx&Hx); [|done]. simpl in Hx. unfold upd_tables in Hx.
  destruct (update_balance _ _ _ _) as [t|] eqn:Hu; simplify_eq. cbn [tables] in Ho'.
  apply update_balance_ok in Hu as (bal&Hn&Habs&Hpos&_).
  rewrite numeric_in_proper in Hn by (by left). unfold stored_as in Hn.
  destruct (in_range _) eqn:Hrange; simplify_eq. simpl. rewrite <-Habs.
  split_and!; [done | by apply Z.ltb_lt | done].
Qed.

(** The insertion of a transaction row, before its error is classified. *)
Lemma insert_row_spec t C L w r w' :
  open_block C L w →
  brun (tx_exec (InsertTransactionRow t.(txn_ID) t.(txn_Kind) t.(txn_IdempotencyKey)
                     t.(txn_ReversesTransactionID))) w = (r, w') →
  match r with
  | Ok _ => open_block C (add_txn t.(txn_ID) (txn_of t) L) w' ∧
            L.(txns) !! t.(txn_ID) = None ∧ key_fresh t.(txn_IdempotencyKey) L ∧
            not_reversed t.(txn_ReversesTransactionID) L
  | Err e => (∃ L', open_block C L' w') ∧
             ((∃ tb, L = abs tb ∧
                violates t.(txn_ID) t.(txn_IdempotencyKey) t.(txn_ReversesTransactionID) tb e) ∨
              internal e ∧ not_unique e)
  end.
Proof.
  intros Ho Hr. apply (block_exec _ _ C L) in Hr as (db&db'&Hlk&->&Ho'&Hx); [|done]. destruct r as [[]|e].
  - destruct Hx as (cx&Hx). simpl in Hx. unfold upd_tables in Hx.
    destruct (insert_transaction _ _ _ _ _ _) as [tb|] eqn:Hi; simplify_eq. cbn [tables] in Ho'.
    apply insert_transaction_ok in Hi as (Habs&Hid&Hk&Hrev&_); [by rewrite Habs in Ho' |].
    destruct (_ !! txn_ID t) eqn:E; [right; eauto | left]. by apply linked_no_entries.
  - split; [eauto |]. destruct Hx as [(cx&Hx)|?]; [|by right]. simpl in Hx. unfold upd_tables in Hx.
    destruct (insert_transaction _ _ _ _ _ _) as [tb|] eqn:Hi; simplify_eq.
    apply insert_transaction_err in Hi as [Hv| ->]; [left; eauto | right].
    split; [done |]. by intros f [= <-].
Qed.

Lemma insert_error_other e :
  internal e → not_unique e →
  internal (Store.insert_error e) ∧ internal (Store.insert_reversal_error e).
Proof.
  intros Hi Hc. unfold Store.insert_error, Store.insert_reversal_error.
  destruct (errors_As_PgError e) as [f|] eqn:E; [|done].
  apply Hc in E. by rewrite bool_decide_false.
Qed.

Lemma insert_error_violates id key rev tb e :
  violates id key rev tb e → Store.insert_error e = ErrIdempotencyConflict.
Proof. by destruct 1. Qed.

(** The reversal's classification tells the constraints apart by name. *)
Lemma insert_reversal_error_violates id key rev tb e :
  violates id key rev tb e →
  (Store.insert_reversal_error e = ErrAlreadyReversed ∧ ¬ not_reversed rev (abs tb)) ∨
  (Store.insert_reversal_error e = ErrIdempotencyConflict ∧
   (is_Some ((abs tb).(txns) !! id) ∨ ¬ key_fresh key (abs tb))).
Proof. destruct 1; [right | right | left]; auto. Qed.

Lemma store_insert_txn t C L w r w' :
  open_block C L w → brun (Store.InsertTransaction t) w = (r, w') →
  match r with
  | Ok _ => open_block C (add_txn t.(txn_ID) (txn_of t) L) w' ∧
            L.(txns) !! t.(txn_ID) = None ∧ key_fresh t.(txn_IdempotencyKey) L ∧
            not_reversed t.(txn_ReversesTransactionID) L
  | Err e => (∃ L', open_block C L' w') ∧
             (internal e ∨
              (e = ErrIdempotencyConflict ∧
               (is_Some (L.(txns) !! t.(txn_ID)) ∨ ¬ key_fresh t.(txn_IdempotencyKey) L ∨
                ¬ not_reversed t.(txn_ReversesTransactionID) L)))
  end.
Proof.
  intros Ho Hr. unfold Store.InsertTransaction in Hr. block_step Hr. rewrite brun_ret in Hr.
  apply (insert_row_spec _ C L) in Erun; [|done]. injection Hr as <- <-.
  destruct r0 as [[]|e]; [done |]. simpl.
  destruct Erun as [HL' [(tb&->&Hv)|[Hi Hn]]]; (split; [done |]).
  - right. split; [by eapply insert_error_violates |]. destruct Hv; auto.
  - left. by apply insert_error_other.
Qed.

Lemma store_insert_rev t C L w r w' :
  open_block C L w → brun (Store.InsertReversalTransaction t) w = (r, w') →
  match r with
  | Ok _ => open_block C (add_txn t.(txn_ID) (txn_of t) L) w' ∧
            L.(txns) !! t.(txn_ID) = None ∧ key_fresh t.(txn_IdempotencyKey) L ∧
            not_reversed t.(txn_ReversesTransactionID) L
  | Err e => (∃ L', open_block C L' w') ∧
             (internal e ∨
              (e = ErrIdempotencyConflict ∧
               (is_Some (L.(txns) !! t.(txn_ID)) ∨ ¬ key_fresh t.(txn_IdempotencyKey) L)) ∨
              (e = ErrAlreadyReversed ∧ ¬ not_reversed t.(txn_ReversesTransactionID) L))
  end.
Proof.
  intros Ho Hr. unfold Store.InsertReversalTransaction in Hr. block_step Hr. rewrite brun_ret in Hr.
  apply (insert_row_spec _ C L) in Erun; [|done]. injection Hr as <- <-.
  destruct r0 as [[]|e]; [done |]. simpl.
  destruct Erun as [HL' [(tb&->&Hv)|[Hi Hn]]]; (split; [done |]).
  - right. apply insert_reversal_error_violates in Hv as [Hv|Hv]; auto.
  - left. by apply insert_error_other.
Qed.

Lemma insert_each_spec es C L w r w' :
  Forall (λ e, Money.scaled e.(ent_Amount)) es →
  open_block C L w → brun (Store.insert_each es) w = (r, w') →
  match r with
  | Ok _ => open_block C (add_legs es L) w' ∧
            Forall (λ e, 0 < Money.units e.(ent_Amount) < numeric_limit) es
  | Err e => (∃ L', open_block C L' w') ∧ internal e
  end.
Proof.
  intros Hsc. revert L w. induction Hsc as [|e es He Hes IH]; intros L w Ho Hr.
  { simpl in Hr. rewrite brun_ret in Hr. injection Hr as <- <-. auto. }
  cbn [Store.insert_each] in Hr. block_step Hr. destruct r0 as [[]|err].
  2:{ rewrite brun_ret in Hr. injection Hr as <- <-.
      apply (block_exec_err _ C L) in Erun as [??]; done. }
  apply (block_exec _ _ C L) in Erun as (db&db'&Hlk&->&Ho'&cx&Hx); [|done]. simpl in Hx.
  destruct (nextval _) as [n|]; [|done]. unfold upd_tables in Hx.
  destruct (insert_entry _ _ _ _ _ _ _) as [tb|] eqn:Hi; [|done]. injection Hx as <-.
  apply insert_entry_ok in Hi as (amt&Hn&Hpos&_&_&->). cbn [tables] in Ho'.
  rewrite abs_add_leg in Ho'. rewrite numeric_in_proper in Hn by (by left). unfold stored_as in Hn.
  destruct (in_range _) eqn:Hrange; [|done]. injection Hn as <-. apply Z.ltb_lt in Hrange.
  eapply IH in Hr; [|exact Ho']. destruct r as [[]|err]; [|done].
  destruct Hr as [Hw' Hall]. split; [done |]. constructor; [lia | done].
Qed.

Lemma store_insert_entries es C L w r w' :
  Forall (λ e, Money.scaled e.(ent_Amount)) es →
  open_block C L w → brun (Store.InsertEntries es) w = (r, w') →
  match r with
  | Ok _ => open_block C (add_legs es L) w' ∧
            Forall (λ e, 0 < Money.units e.(ent_Amount) < numeric_limit) es
  | Err e => (∃ L', open_block C L' w') ∧
             (internal e ∨
              (e = ErrInvalidAmount ∧ Exists (λ e, Money.units e.(ent_Amount) <= 0) es))
  end.
Proof.
  intros Hsc Ho Hr. unfold Store.InsertEntries in Hr. destruct (forallb _ es) eqn:Hall.
  - apply (insert_each_spec _ C L) in Hr; [|done..]. destruct r as [[]|e]; [done |].
    destruct Hr. auto.
  - rewrite brun_ret in Hr. injection Hr as <- <-. split; [eauto |]. right. split; [done |].
    clear Ho. induction Hsc as [|e es He Hes IH]; [done |]. simpl in Hall.
    rewrite Money.proper_IsPositive in Hall by (by left).
    destruct (Z.ltb_spec 0 (Money.units e.(ent_Amount))); [|by left]. right. by apply IH.
Qed.

(** ** The contract of a block *)

#[export] Instance Store_TxSpec : TxSpec M := {
  world := bworld;
  run := @brun _ _ _ _ _ _;
  run_ret := @brun_ret _ _ _ _ _ _;
  run_bind := @brun_bind _ _ _ _ _ _;
  open_tx := open_block;
  spec_lock := store_lock;
  spec_update := store_update;
  spec_insert_txn := store_insert_txn;
  spec_insert_rev := store_insert_rev;
  spec_insert_entries := store_insert_entries }.
End blocks.

#[export] Existing Instance Store_TxSpec.
