(* ===== verification/Amounts.v ===== *)
(** * Amounts: decimals as rationals, money, columns, JSON

    A decimal denotes the rational [value * 10 ^ exp].  The arithmetic of the
    package is exact for that meaning, the money package rounds once, to the
    nearest ten-thousandth, and an amount survives the text of a column and of a
    JSON document unchanged. *)

From Stdlib Require Import QArith Qabs Qpower Ascii.
From S2P Require Import Prelude GoStd Decimal Money Uuid Ledger Schema Numeric.
From stdpp Require Import options.
Open Scope Z_scope.

(** ** Meaning *)

Definition ten : Q := 10 # 1.

Definition toQ (x : Decimal.Decimal) : Q := (inject_Z x.(Decimal.value) * ten ^ x.(Decimal.exp))%Q.

(** Decimals that denote the same number. *)
Definition same (x y : Decimal.Decimal) : Prop := (toQ x == toQ y)%Q.

#[export] Instance same_equivalence : Equivalence same.
Proof.
  unfold same. split; [intros x; reflexivity | intros x y H; by symmetry | intros x y z H1 H2; by rewrite H1].
Qed.

Lemma ten_nonzero : ¬ (ten == 0)%Q.
Proof. done. Qed.

Lemma ten_power k : 0 <= k → (ten ^ k == inject_Z (10 ^ k))%Q.
Proof. intros Hk. unfold ten. by rewrite <-(Zpower_Qpower 10 k Hk). Qed.

Lemma ten_power_pos k : (0 < ten ^ k)%Q.
Proof. by apply Qpower_0_lt. Qed.

Lemma ten_split e e' : e <= e' → (ten ^ e' == inject_Z (10 ^ (e' - e)) * ten ^ e)%Q.
Proof.
  intros He. rewrite <-ten_power by lia. rewrite <-Qpower_plus by apply ten_nonzero.
  by replace (e' - e + e) with e' by lia.
Qed.

Lemma rescale_down x e : e <= x.(Decimal.exp) → same (Decimal.rescale x e) x ∧ (Decimal.rescale x e).(Decimal.exp) = e.
Proof.
  intros He. unfold Decimal.rescale, same. destruct (Z.eqb_spec x.(Decimal.exp) e); [done |].
  destruct (Z.ltb_spec x.(Decimal.exp) e); [lia |]. split; [|done]. unfold toQ; simpl.
  rewrite (ten_split e x.(Decimal.exp)) by done. rewrite inject_Z_mult.
  replace (Z.abs (e - x.(Decimal.exp))) with (x.(Decimal.exp) - e) by lia. ring.
Qed.

(** Both operands brought to the smaller exponent, unchanged in value. *)
Lemma RescalePair_spec x y rx ry :
  Decimal.RescalePair x y = (rx, ry) →
  same rx x ∧ same ry y ∧ rx.(Decimal.exp) = ry.(Decimal.exp).
Proof.
  unfold Decimal.RescalePair. destruct (Z.ltb_spec x.(Decimal.exp) y.(Decimal.exp)).
  - intros [= <- <-]. destruct (rescale_down y x.(Decimal.exp)) as [? ->]; [lia |]. by split_and!.
  - destruct (Z.ltb_spec y.(Decimal.exp) x.(Decimal.exp)); intros [= <- <-]; [|split_and!; [done | done | lia]].
    destruct (rescale_down x y.(Decimal.exp)) as [? ->]; [lia |]. by split_and!.
Qed.

Lemma toQ_Cmp_same_exp x y :
  x.(Decimal.exp) = y.(Decimal.exp) →
  (x.(Decimal.value) ?= y.(Decimal.value)) = (toQ x ?= toQ y)%Q.
Proof.
  intros He. unfold toQ. rewrite He.
  assert (Hc : ∀ a b, (a ?= b)%Z = (inject_Z a ?= inject_Z b)%Q).
  { intros a b. unfold Qcompare; simpl. by rewrite !Z.mul_1_r. }
  rewrite Hc. pose proof (ten_power_pos y.(Decimal.exp)).
  destruct (Qcompare_spec (inject_Z x.(Decimal.value)) (inject_Z y.(Decimal.value))) as [E|E|E]; symmetry.
  - apply Qeq_alt. by rewrite E.
  - apply Qlt_alt. by apply Qmult_lt_compat_r.
  - apply Qgt_alt. by apply Qmult_lt_compat_r.
Qed.

(** C25: the decimal package computes sums, differences and negations exactly and
    compares by value, whatever the exponents of the operands. *)
Theorem decimal_arithmetic_exact x y :
  (toQ (Decimal.Add x y) == toQ x + toQ y)%Q ∧ (toQ (Decimal.Sub x y) == toQ x - toQ y)%Q ∧
  (toQ (Decimal.Neg x) == - toQ x)%Q ∧ Decimal.Cmp x y = (toQ x ?= toQ y)%Q.
Proof.
  unfold Decimal.Add, Decimal.Sub, Decimal.Cmp.
  destruct (Decimal.RescalePair x y) as [rx ry] eqn:Hp. apply RescalePair_spec in Hp as (Hx&Hy&He).
  unfold same in Hx, Hy. split_and!.
  - rewrite <-Hx, <-Hy. unfold toQ; simpl. rewrite He, inject_Z_plus. ring.
  - rewrite <-Hx, <-Hy. unfold toQ; simpl. rewrite He. unfold Z.sub. rewrite inject_Z_plus, inject_Z_opp. ring.
  - unfold toQ; simpl. rewrite inject_Z_opp. ring.
  - destruct (Z.eqb_spec x.(Decimal.exp) y.(Decimal.exp)); [by apply toQ_Cmp_same_exp |].
    rewrite toQ_Cmp_same_exp by done. by rewrite Hx, Hy.
Qed.

(** ** Rounding *)

(** A tie goes away from zero. *)
Lemma round_half_away_tie n m :
  0 < m → 2 * Z.abs (Decimal.round_half_away n m * m - n) = m →
  Z.abs n < Z.abs (Decimal.round_half_away n m * m).
Proof.
  intros Hm. unfold Decimal.round_half_away.
  pose proof (Z.div_mod (2 * Z.abs n + m) (2 * m) ltac:(lia)).
  pose proof (Z.mod_pos_bound (2 * Z.abs n + m) (2 * m) ltac:(lia)).
  set (q := (2 * Z.abs n + m) / (2 * m)) in *. clearbody q.
  destruct (Z.sgn_spec n) as [[? ->]|[[? ->]|[? ->]]]; nia.
Qed.

(** What [Round] does, in integers: [m] is the number of units of the input's
    last digit in a ten-thousandth. *)
Lemma Round_cases x :
  (∃ m, 0 < m ∧ (toQ (Decimal.Round x 4) - toQ x ==
                 inject_Z ((Decimal.Round x 4).(Decimal.value) * m - x.(Decimal.value)) * ten ^ x.(Decimal.exp))%Q ∧
        (toQ (Decimal.Round x 4) == inject_Z ((Decimal.Round x 4).(Decimal.value) * m) * ten ^ x.(Decimal.exp))%Q ∧
        (inject_Z m * ten ^ x.(Decimal.exp) == ten ^ (-4))%Q ∧
        (Decimal.Round x 4).(Decimal.value) = Decimal.round_half_away x.(Decimal.value) m) ∨
  (toQ (Decimal.Round x 4) == toQ x)%Q.
Proof.
  destruct (Z.lt_ge_cases x.(Decimal.exp) (-4)) as [Hlt|Hge].
  - left. exists (10 ^ (-4 - x.(Decimal.exp))).
    assert (Hm : 0 < 10 ^ (-4 - x.(Decimal.exp))) by (apply Z.pow_pos_nonneg; lia).
    pose proof (ten_split x.(Decimal.exp) (-4) ltac:(lia)) as Hs.
    assert (HR : (toQ (Decimal.Round x 4) == inject_Z ((Decimal.Round x 4).(Decimal.value)
                    * 10 ^ (-4 - x.(Decimal.exp))) * ten ^ x.(Decimal.exp))%Q).
    { unfold toQ at 1. rewrite Decimal.Round_exp, Hs, inject_Z_mult. ring. }
    split_and!; [done | | done | by rewrite Hs | by apply Decimal.Round_half_away].
    rewrite HR. unfold toQ, Z.sub. rewrite inject_Z_plus, inject_Z_opp. ring.
  - right. unfold toQ. rewrite Decimal.Round_exp, Decimal.Round_exact by lia. change (Z.opp 4) with (-4).
    rewrite (ten_split (-4) x.(Decimal.exp)) by lia.
    rewrite inject_Z_mult. replace (x.(Decimal.exp) - -4) with (x.(Decimal.exp) + 4) by lia. ring.
Qed.

Lemma Qminus_diag (q : Q) : (q - q == 0)%Q.
Proof. ring. Qed.

Lemma Qabs_scaled z (p : Q) : (0 < p)%Q → (Qabs (inject_Z z * p) == inject_Z (Z.abs z) * p)%Q.
Proof. intros Hp. rewrite Qabs_Qmult, (Qabs_pos p) by (by apply Qlt_le_weak). done. Qed.

(** C26: text is read to the nearest ten-thousandth: the amount differs from the
    number written by at most half a unit of the last decimal, and a tie is
    rounded away from zero. *)
Theorem money_rounds_nearest s m :
  Money.FromString s = Ok m →
  ∃ x, Decimal.NewFromString s = Ok x ∧ Money.scaled m ∧
    (2 * Qabs (toQ (Money.Decimal m) - toQ x) <= ten ^ (-4))%Q ∧
    ((2 * Qabs (toQ (Money.Decimal m) - toQ x) == ten ^ (-4))%Q →
     (Qabs (toQ x) < Qabs (toQ (Money.Decimal m)))%Q).
Proof.
  unfold Money.FromString. destruct (Decimal.NewFromString s) as [x|]; [|done]. intros [= <-].
  exists x. split_and!; [done | apply Money.round_scaled | |];
    change (Money.Decimal _) with (Decimal.Round x 4);
    destruct (Round_cases x) as [(m&Hm&Hdiff&HR&Hu&Hv)|He].
  - rewrite Hdiff, Qabs_scaled by apply ten_power_pos. rewrite <-Hu.
    rewrite Qmult_assoc. apply Qmult_le_compat_r; [|by apply Qlt_le_weak, ten_power_pos].
    change 2%Q with (inject_Z 2). rewrite <-inject_Z_mult, <-Zle_Qle, Hv.
    by apply Decimal.round_half_away_nearest.
  - rewrite He, Qminus_diag. by vm_compute.
  - rewrite Hdiff, Qabs_scaled by apply ten_power_pos. intros Htie.
    rewrite HR. unfold toQ. rewrite !Qabs_scaled by apply ten_power_pos.
    apply Qmult_lt_compat_r; [apply ten_power_pos |]. rewrite <-Zlt_Qlt, Hv.
    apply round_half_away_tie; [done |]. rewrite <-Hv.
    rewrite <-Hu, Qmult_assoc in Htie. change 2%Q with (inject_Z 2) in Htie.
    rewrite <-inject_Z_mult in Htie. apply Qmult_inj_r in Htie; [by apply (proj1 (inject_Z_injective _ _)) in Htie |].
    intros H0. pose proof (ten_power_pos x.(Decimal.exp)) as Hp. by rewrite H0 in Hp.
  - rewrite He, Qminus_diag. by vm_compute.
Qed.

Lemma money_rounds_nearest_witness :
  Money.FromString "-0.00005" = Ok (Money.of_units (-1)) ∧
  (2 * Qabs (toQ (Money.Decimal (Money.of_units (-1))) - toQ (Decimal.MkDecimal (-5) (-5))) <= ten ^ (-4))%Q.
Proof.
  split; [by vm_compute |].
  destruct (money_rounds_nearest "-0.00005" (Money.of_units (-1))) as (x&Hx&_&H&_); [by vm_compute |].
  vm_compute in Hx. injection Hx as <-. exact H.
Defined.

(** the [int64] shortcut of [NewFromString], taken for texts of at most
    eighteen characters, gives what the arbitrary-precision path gives. *)
Theorem int64_shortcut_exact s : Decimal.parse_int_text s = big_SetString s.
Proof. apply Decimal.parse_int_text_big. Qed.

(** ** Money *)

Lemma Neg_of_units u : Money.Neg (Money.of_units u) = Money.of_units (- u).
Proof. done. Qed.

(** C27: on the amounts a client can hold, the money package is the ordered group
    of the integers counted in ten-thousandths: its operations keep the scale and
    act on the units without any rounding. *)
Theorem money_is_units a b :
  Money.proper a → Money.proper b →
  Money.Add a b = Money.of_units (Money.units a + Money.units b) ∧
  Money.Sub a b = Money.of_units (Money.units a - Money.units b) ∧
  Money.Neg a = Money.of_units (- Money.units a) ∧
  Money.LessThan a b = (Money.units a <? Money.units b) ∧
  Money.Equal a b = (Money.units a =? Money.units b) ∧
  Money.IsPositive a = (0 <? Money.units a) ∧ Money.IsZero a = (Money.units a =? 0).
Proof.
  assert (Hz : ∀ u, Money.IsZero (Money.of_units u) = (u =? 0)).
  { by intros []. }
  intros [Ha| ->] [Hb| ->]; try rewrite (Money.scaled_of_units a Ha); try rewrite (Money.scaled_of_units b Hb);
    rewrite ?Neg_of_units, ?Hz; autorewrite with ledger; split_and!; try done.
  all: unfold Money.Add, Money.Sub, Money.LessThan, Money.Equal, Decimal.Add, Decimal.Sub,
    Decimal.LessThan, Decimal.Equal, Decimal.Cmp, Decimal.RescalePair, Decimal.rescale, Money.units; simpl.
  all: unfold Money.of_units; try (do 2 f_equal; lia).
  - by rewrite Z.eqb_compare.
  - by destruct (Decimal.value _).
Qed.

Lemma money_is_units_witness :
  Money.Add (Money.of_units 12345) Money.zero_value = Money.of_units 12345 ∧
  Money.LessThan (Money.of_units (-1)) Money.zero_value = true.
Proof.
  destruct (money_is_units (Money.of_units 12345) Money.zero_value) as (H&_); [by left | by right |].
  destruct (money_is_units (Money.of_units (-1)) Money.zero_value) as (_&_&_&H'&_); [by left | by right |].
  split; [exact H | exact H'].
Defined.

(** C28: an amount written as JSON is read back as the same amount. *)
Theorem json_round_trip m :
  Money.scaled m → Money.UnmarshalJSON (Money.MarshalJSON m) = Ok m.
Proof.
  intros Hm. unfold Money.UnmarshalJSON, Money.MarshalJSON. rewrite Money.strip_quotes_quoted, b2s_s2b.
  rewrite (Money.scaled_of_units m Hm). apply Money.FromString_String.
Qed.

Lemma json_round_trip_witness :
  Money.UnmarshalJSON (Money.MarshalJSON (Money.of_units (-1234567))) = Ok (Money.of_units (-1234567)).
Proof. apply (json_round_trip (Money.of_units (-1234567))). done. Defined.

(** C29: an amount sent to a [NUMERIC(20,4)] column is stored exactly, or refused
    when it has more than sixteen integer digits; and what the column holds is
    read back as that amount. *)
Theorem column_round_trip m :
  Money.proper m →
  (Schema.numeric_in (Decimal.Value (Money.Decimal m)) =
     if Z.abs (Money.units m) <? 10 ^ 20 then Ok (Money.units m) else Err Schema.numeric_overflow) ∧
  (let^ x := Decimal.Scan (Schema.numeric_out (Money.units m)) in Ok (Money.NewFromDecimal x))
  = Ok (Money.of_units (Money.units m)).
Proof.
  intros Hm. split; [by apply numeric_in_proper |]. by rewrite Scan_numeric_out.
Qed.

Lemma column_round_trip_witness :
  Schema.numeric_in (Decimal.Value (Money.Decimal (Money.of_units (10 ^ 20)))) = Err Schema.numeric_overflow ∧
  Schema.numeric_in (Decimal.Value (Money.Decimal (Money.of_units (- 5)))) = Ok (- 5).
Proof.
  destruct (column_round_trip (Money.of_units (10 ^ 20))) as [H _]; [by left |].
  destruct (column_round_trip (Money.of_units (- 5))) as [H' _]; [by left |].
  split; [exact H | exact H'].
Defined.

(** ** Identifiers *)

(** C30: the canonical text of an identifier is read back as the identifier, and
    so are its upper-case, urn, braced and undashed spellings. *)
Theorem uuid_round_trip u :
  let text := Uuid.encodeHex u in
  Uuid.Parse (Uuid.String u) = Ok u ∧
  Uuid.ParseBytes (Uuid.to_upper <$> text) = Ok u ∧
  Uuid.ParseBytes (s2b "urn:uuid:" ++ text) = Ok u ∧
  Uuid.ParseBytes ("{"%char :: text ++ ["}"%char]) = Ok u ∧
  Uuid.ParseBytes (Uuid.hex_encode (Uuid.to_list u)) = Ok u.
Proof.
  split_and!; [apply Uuid.Parse_String_u | apply Uuid.parse_dashed_upper | apply Uuid.parse_urn |
               apply Uuid.parse_braced | apply Uuid.parse_plain].
Qed.
