(* ===== verification/StoreRefines.v ===== *)
(** * The PostgreSQL store keeps the service's contract

    [Store] is a [Storer] over any driver; over [PgM] it satisfies
    [StorerSpec], provided the other clients of the database behave
    ([OthersOk]): they keep the schema's guarantees and only let the ledger
    evolve as the service itself does. *)

From S2P Require Import Prelude GoStd Decimal Money Uuid Ledger Schema Pgx Store Service LedgerSpec LedgerFacts StorerSpec Numeric SchemaFacts StoreBlocks.
From stdpp Require Import options.
Import Ledger Schema LedgerSpec.
Open Scope Z_scope.

(** What is asked of the other clients at each call. *)
Class OthersOk (env : Env) : Prop :=
  others_ok n db : db_ok db → ledger_inv (abs db.(tables)) →
    db_ok (env_others env n db) ∧ rely (abs db.(tables)) (abs (env_others env n db).(tables)).

Record w_ok (w : World) : Prop := {
  wo_db : db_ok w.(w_db);
  wo_tx : ∀ tx, w.(w_tx) = Some tx →
      db_ok tx.(tx_db) ∧ w.(w_db).(entries_seq) <= tx.(tx_db).(entries_seq) }.

Definition pg_committed (w : World) : ledger := abs w.(w_db).(tables).
Definition pg_working (w : World) : option ledger :=
  (λ tx, abs tx.(tx_db).(tables)) <$> w.(w_tx).

Definition pg_idle (w : World) : Prop :=
  w_ok w ∧ pg_working w = None ∧ ledger_inv (pg_committed w).
Definition pg_open (C L : ledger) (w : World) : Prop :=
  w_ok w ∧ pg_committed w = C ∧ pg_working w = Some L.

Lemma pg_idle_tx w : pg_idle w → w.(w_tx) = None.
Proof. intros (_&H&_). by apply fmap_None in H. Qed.

Lemma pg_idle_intro w :
  db_ok w.(w_db) → w.(w_tx) = None → ledger_inv (pg_committed w) → pg_idle w.
Proof.
  intros Hdb Htx Hinv. split_and!; [split; [done |] | | done].
  - intros tx. by rewrite Htx.
  - unfold pg_working. by rewrite Htx.
Qed.

Definition pg_run {A} (m : PgM A) (w : World) : A * World := m w.

Lemma pg_run_bind {A B} (m : PgM A) (f : A → PgM B) w :
  pg_run (mbind f m) w = let '(a, w') := pg_run m w in pg_run (f a) w'.
Proof. done. Qed.

Lemma pg_run_ret {A} (a : A) w : pg_run (mret a) w = (a, w).
Proof. done. Qed.

(** One step of a computation in [PgM]. *)
Ltac pg_step H :=
  rewrite pg_run_bind in H;
  match type of H with
  | context [let '(_, _) := pg_run ?m ?w in _] =>
      let r := fresh "r" in let w' := fresh "w" in let E := fresh "Erun" in
      destruct (pg_run m w) as [r w'] eqn:E
  end.

Lemma scanEntry_internal row e : Store.scanEntry row = Err e → internal e.
Proof.
  unfold Store.scanEntry. destruct (Decimal.Scan _) eqn:Hs; [done |]. intros [= <-]. by apply Scan_internal in Hs.
Qed.

(** The entry that [scanEntry] makes of a stored row. *)
Definition entry_of (accs : gmap UUID account_row) (e : entry_row) : Entry :=
  MkEntry e.(er_id) e.(er_transaction_id) e.(er_account_id) e.(er_direction)
    (joined accs e).(re_name) (Money.of_units e.(er_amount)) e.(er_created_at).

Lemma scan_entries_ok label accs es :
  Store.scan_rows label Store.scanEntry (joined accs <$> es) = Ok (entry_of accs <$> es).
Proof.
  induction es as [|e es IH]; [done |]. rewrite !fmap_cons. cbn [Store.scan_rows].
  rewrite IH. unfold Store.scanEntry. simpl. by rewrite Scan_numeric_out.
Qed.

Lemma entries_are id accs es :
  (∀ e, e ∈ es → e.(er_transaction_id) = id) →
  Forall2 (entry_is id) (entry_of accs <$> es) (abs_leg <$> es).
Proof.
  intros Hes. apply Forall2_fmap, Forall_Forall2_diag, Forall_forall. intros e He.
  unfold entry_is; simpl. split_and!; auto.
Qed.

(** A transaction row read at one moment and its entries read later still make a
    stored transaction: rows are never changed. *)
Lemma stored_later t1 db id x :
  db_ok db → t1.(transactions) !! id = Some x → (abs t1).(txns) ⊆ (abs db.(tables)).(txns) →
  let es := entry_of db.(tables).(accounts) <$> entries_of id db.(tables) in
  stored (with_Entries (MkTransaction id x.(tr_kind) x.(tr_idempotency_key) x.(tr_reverses)
                          x.(tr_created_at) []) es) es (abs db.(tables)).
Proof.
  intros Hok Hx Hsub es. assert (Habs : (abs t1).(txns) !! id = Some (abs_txn t1 id x))
    by (by rewrite abs_txns, Hx).
  eapply lookup_weaken in Habs; [|done]. pose proof Habs as Habs'.
  rewrite abs_txns in Habs'. apply fmap_Some in Habs' as (x'&Hx'&E).
  exists (abs_txn t1 id x). split_and!; [done.. |].
  replace (x_legs (abs_txn t1 id x)) with (abs_leg <$> entries_of id db.(tables)).
  - apply entries_are. by intros e [He _]%list_elem_of_filter.
  - by rewrite E.
Qed.

Section pg.
Context (env : Env) `{!OthersOk env}.

Set Default Proof Using "Type*".

Lemma refreshed_ok w :
  pg_idle w → w.(w_tx) = None ∧ db_ok (refreshed env w) ∧
  rely (pg_committed w) (abs (refreshed env w).(tables)) ∧ ledger_inv (abs (refreshed env w).(tables)).
Proof.
  intros Hw. pose proof (pg_idle_tx w Hw). destruct Hw as ([Hdb _]&_&Hinv).
  destruct (others_ok w.(w_tick) w.(w_db)) as [Hok Hrely]; [done..|].
  split_and!; [done.. | by apply Hrely].
Qed.

(** ** Statements on the pool *)

(** A query answers from the state it finds and changes nothing. *)
Definition is_query {A} (q : sql A) : Prop :=
  trigger_events q = [] ∧ ∀ cx db, ∃ a, sql_exec cx q db = (Ok a, db).

Lemma pool_query_spec {A} (q : sql A) w r w' :
  is_query q → pg_idle w → pg_run (pool_exec q) w = (r, w') →
  pg_idle w' ∧ rely (pg_committed w) (pg_committed w') ∧
  match r with
  | Ok a => ∃ cx, sql_exec cx q w'.(w_db) = (Ok a, w'.(w_db))
  | Err e => internal e
  end.
Proof.
  intros [Hev Hq] Hw Hr. destruct (refreshed_ok w Hw) as (Htx&Hok&Hrely&Hinv). unfold pg_run, pool_exec, PgM_Pgx, PgM_pool_exec, autocommit in Hr.
  destruct (Hq (stmt_ctx_at env w.(w_tick) (env_now env w.(w_tick))) (refreshed env w)) as [a Ha].
  rewrite Ha, Hev in Hr. simpl in Hr.
  destruct (env_fault env w.(w_tick)); simplify_eq; (split; [by apply pg_idle_intro | split; [done |]]).
  - eauto.
  - done.
  - done.
Qed.

Lemma pool_Query_spec {R} (q : sql (list R)) w r w' :
  is_query q → pg_idle w → pg_run (pool_Query q) w = (r, w') →
  pg_idle w' ∧ rely (pg_committed w) (pg_committed w') ∧
  match r with
  | Ok (MkRows l None) => ∃ cx, sql_exec cx q w'.(w_db) = (Ok l, w'.(w_db))
  | Ok (MkRows _ (Some e)) | Err e => internal e
  end.
Proof.
  intros Hq Hw Hr. unfold pg_run, pool_Query, PgM_Pgx, PgM_pool_Query in Hr.
  destruct (PgM_pool_exec env q w) as [r0 w0] eqn:E. injection Hr as <- <-.
  apply (pool_query_spec q) in E as (?&?&Hr); [|done..]. split_and!; [done.. |].
  unfold cursor. destruct r0; [done |]. by destruct (env_cut env _).
Qed.

Lemma autocommit_ok {A} n (q : sql A) db r db' :
  db_ok db → autocommit env n q db = (r, db') → db_ok db'.
Proof.
  intros Hok. unfold autocommit. destruct (sql_exec _ q db) as [[a|e] db1] eqn:E.
  - apply sql_exec_ok in E as [Hok1 Hseq]; [|done].
    destruct (triggers_pass _ _); intros; simplify_eq; [done |]. by apply (db_ok_grow db).
  - apply sql_exec_ok in E as [Hok1 Hseq]; [|done]. intros; simplify_eq. by apply (db_ok_grow db).
Qed.

(** ** Statements in the transaction *)

Lemma pg_exec {A} (q : sql A) C L w r w' :
  pg_open C L w → pg_run (tx_exec q) w = (r, w') → answers q L r (λ L', pg_open C L' w').
Proof.
  intros ([Hdb Htx]&HC&HL) Hr. unfold pg_working in HL. apply fmap_Some in HL as (tx&Hw&->).
  destruct (Htx tx Hw) as [Hok Hseq]. unfold pg_run, tx_exec, PgM_Pgx, PgM_tx_exec in Hr. rewrite Hw in Hr.
  assert (Hopen : ∀ db' ab pend n, db_ok db' → tx.(tx_db).(entries_seq) <= db'.(entries_seq) →
    pg_open C (abs db'.(tables))
      (MkWorld w.(w_db) (Some (MkTx db' tx.(tx_now) ab pend)) n w.(w_log))).
  { intros db' ab pend n Hok' Hseq'. split_and!; [split; simpl; [done |] | done | done].
    intros tx' [= <-]. simpl. split; [done | lia]. }
  pose proof (db_ok_linked _ Hok) as Hlk.
  exists tx.(tx_db). destruct (tx_aborted tx); [|destruct (env_fault env (w_tick w))].
  - simplify_eq. eexists. split_and!; [done | done | by apply Hopen |]. right. by split; [|intros f [= <-]].
  - destruct (sql_exec _ q (tx_db tx)) as [[a|e] db'] eqn:E; simplify_eq;
      destruct (sql_exec_ok _ _ _ _ _ Hok E); eexists; (split_and!; [done | done | by apply Hopen |]);
      eauto.
  - simplify_eq. eexists. split_and!; [done | done | by apply Hopen |]. by right.
  - simplify_eq. eexists. split_and!; [done | done | by apply Hopen |]. by right.
Qed.

(** ** The pool's getters *)

Lemma listEntries_spec id w r w' :
  pg_idle w → pg_run (Store.listEntries id) w = (r, w') →
  pg_idle w' ∧ rely (pg_committed w) (pg_committed w') ∧
  match r with
  | Ok es => es = entry_of w'.(w_db).(tables).(accounts) <$> entries_of id w'.(w_db).(tables)
  | Err e => internal e
  end.
Proof.
  intros Hw Hr. unfold Store.listEntries in Hr. pg_step Hr.
  apply pool_Query_spec in Erun as (Hw'&Hrely&Hq); [|split; [done | by eexists] | done].
  destruct r0 as [[rows [e|]]|e]; rewrite pg_run_ret in Hr; [| |by simplify_eq].
  { injection Hr as Hr <-. apply rows_cut in Hr as (e'&->&Hi); [done | apply scanEntry_internal | done..]. }
  destruct Hq as (cx&Hq). simpl in Hq. injection Hq as <-.
  cbn [rows_data] in Hr. rewrite select_entries_ok in Hr by apply Hw'.
  rewrite scan_entries_ok in Hr. by injection Hr as <- <-.
Qed.

(** The tail of the two getters, from the rows of a query answered in [w]. *)
Lemma found_transaction_spec label rows w r w' :
  pg_idle w →
  (∀ rt, rt ∈ rows → ∃ x, rt = rec_of_transaction (rt.(rt_id), x) ∧
                          w.(w_db).(tables).(transactions) !! rt.(rt_id) = Some x) →
  pg_run (Store.found_transaction label (Ok rows)) w = (r, w') →
  pg_idle w' ∧ rely (pg_committed w) (pg_committed w') ∧
  match r with
  | Ok (t, es) => stored t es (pg_committed w') ∧
      ∃ rt, rt ∈ rows ∧ t.(txn_ID) = rt.(rt_id) ∧ t.(txn_IdempotencyKey) = rt.(rt_idempotency_key)
  | Err e => (e = ErrTransactionNotFound ∧ rows = [] ∧ w' = w) ∨ internal e
  end.
Proof.
  intros Hw Hrows Hr. unfold Store.found_transaction in Hr.
  destruct rows as [|rt rows]; simpl in Hr.
  { rewrite pg_run_ret in Hr. simplify_eq. split_and!; [done | done |]. by left. }
  destruct (Hrows rt) as (x&Hrt&Hx); [left |]. pg_step Hr.
  apply listEntries_spec in Erun as (Hw'&Hrely&Hes); [|done].
  destruct r0 as [es|e]; rewrite pg_run_ret in Hr; simplify_eq; [|by auto].
  split_and!; [done.. | |].
  - rewrite Hrt. apply (stored_later w.(w_db).(tables)); [apply Hw' | done | apply Hrely].
  - exists rt. split; [left | by rewrite Hrt].
Qed.

Lemma found_transaction_err label e w r w' :
  internal e → pg_run (Store.found_transaction label (Err e)) w = (r, w') →
  w' = w ∧ ∃ e', r = Err e' ∧ internal e'.
Proof.
  intros Hi Hr. unfold Store.found_transaction in Hr. simpl in Hr.
  unfold ErrNoRows in Hr. rewrite (internal_not_sentinel e) in Hr by done.
  rewrite pg_run_ret in Hr. simplify_eq. eauto.
Qed.

Lemma select_transactions_rows P t rt :
  rt ∈ select_transactions P t →
  ∃ x, rt = rec_of_transaction (rt.(rt_id), x) ∧ t.(transactions) !! rt.(rt_id) = Some x ∧
       P (rt.(rt_id), x) = true.
Proof.
  intros ((id&x)&->&[HP Hin]%list_elem_of_filter)%list_elem_of_fmap.
  exists x. split_and!; [done | by apply elem_of_map_to_list | done].
Qed.

Lemma pg_get_key key w r w' :
  pg_idle w → pg_run (Store.GetTransactionByIdempotencyKey key) w = (r, w') →
  pg_idle w' ∧ rely (pg_committed w) (pg_committed w') ∧
  match r with
  | Ok (t, es) => stored t es (pg_committed w') ∧ t.(txn_IdempotencyKey) = key
  | Err e => (e = ErrTransactionNotFound ∧ key_fresh key (pg_committed w')) ∨ internal e
  end.
Proof.
  intros Hw Hr. unfold Store.GetTransactionByIdempotencyKey in Hr. pg_step Hr.
  apply pool_query_spec in Erun as (Hw1&Hrely&Hq); [|split; [done | by eexists] | done].
  destruct r0 as [rows|e].
  2:{ apply found_transaction_err in Hr as (->&e'&->&Hi); [|done]. auto. }
  destruct Hq as (cx&Hq). simpl in Hq. injection Hq as <-.
  apply found_transaction_spec in Hr as (Hw'&Hrely'&Hres); [|done|].
  2:{ intros rt (x&?&?&_)%select_transactions_rows. eauto. }
  split_and!; [done | by etrans |].
  destruct r as [[t es]|e]; [|destruct Hres as [(->&Hn&->)|Hi]; [left | by right]].
  - destruct Hres as [Hst (rt&(x&Hrt&_&HP)%select_transactions_rows&_&->)]. split; [done |].
    rewrite Hrt. by apply bool_decide_eq_true in HP.
  - split; [done |]. intros id x. unfold pg_committed. rewrite abs_txns.
    intros (y&Hy&->)%fmap_Some Hk. simpl in Hk.
    apply (not_elem_of_nil (rec_of_transaction (id, y))). rewrite <-Hn.
    apply list_elem_of_fmap. exists (id, y). split; [done |].
    apply list_elem_of_filter. split; [by apply bool_decide_eq_true | by apply elem_of_map_to_list].
Qed.

Lemma pg_get id w r w' :
  pg_idle w → pg_run (Store.GetTransaction id) w = (r, w') →
  pg_idle w' ∧ rely (pg_committed w) (pg_committed w') ∧
  match r with
  | Ok (t, es) => stored t es (pg_committed w') ∧ t.(txn_ID) = id
  | Err e => (e = ErrTransactionNotFound ∧ (pg_committed w').(txns) !! id = None) ∨ internal e
  end.
Proof.
  intros Hw Hr. unfold Store.GetTransaction in Hr. pg_step Hr.
  apply pool_query_spec in Erun as (Hw1&Hrely&Hq); [|split; [done | by eexists] | done].
  destruct r0 as [rows|e].
  2:{ apply found_transaction_err in Hr as (->&e'&->&Hi); [|done]. auto. }
  destruct Hq as (cx&Hq). simpl in Hq. injection Hq as <-.
  destruct (_ !! id) as [x|] eqn:Hx;
    (apply found_transaction_spec in Hr as (Hw'&Hrely'&Hres); [|done|]);
    try (intros rt Hrt; by apply not_elem_of_nil in Hrt).
  - split_and!; [done | by etrans |].
    destruct r as [[t es]|e]; [|destruct Hres as [(_&[=]&_)|Hi]; by right].
    destruct Hres as [Hst (rt&->%list_elem_of_singleton&->&_)]. done.
  - intros rt ->%list_elem_of_singleton. eauto.
  - split_and!; [done | by etrans |].
    destruct r as [[t es]|e]; [|destruct Hres as [(->&_&->)|Hi]; [left | by right]].
    + destruct Hres as [_ (rt&Hrt&_)]. by apply not_elem_of_nil in Hrt.
    + split; [done |]. by apply abs_txns_None.
Qed.

(** ** The audit log *)

Definition audit_stmt (e : AuditEntry) : sql unit :=
  InsertAudit e.(aud_Operation) e.(aud_FromAccount) e.(aud_ToAccount)
    ((λ m, Decimal.Value (Money.Decimal m)) <$> e.(aud_Amount)) e.(aud_Outcome)
    e.(aud_ErrorReason) e.(aud_TransactionID) e.(aud_RequestID).

Lemma audit_exec e cx db db' :
  (∀ m, e.(aud_Amount) = Some m → Money.proper m) →
  sql_exec cx (audit_stmt e) db = (Ok tt, db') →
  abs db'.(tables) = add_audit (audit_of e) (abs db.(tables)).
Proof.
  intros Hm. simpl. unfold upd_tables. destruct (nextval _) as [n|]; [|done].
  unfold audit_of, add_audit, insert_audit.
  destruct (aud_Amount e) as [m|]; simpl; intros Hx.
  - rewrite numeric_in_proper in Hx by auto. unfold stored_as in Hx.
    destruct (in_range _); simplify_eq. cbn [tables]. rewrite abs_with_audit. f_equal. by rewrite fmap_app.
  - simplify_eq. cbn [tables]. rewrite abs_with_audit. f_equal. by rewrite fmap_app.
Qed.

Lemma audit_autocommit e n db r db' :
  (∀ m, e.(aud_Amount) = Some m → Money.proper m) →
  autocommit env n (audit_stmt e) db = (r, db') →
  match r with
  | Ok _ => abs db'.(tables) = add_audit (audit_of e) (abs db.(tables))
  | Err _ => abs db'.(tables) = abs db.(tables)
  end.
Proof.
  intros Hm. unfold autocommit. destruct (sql_exec _ _ db) as [[[]|err] db1] eqn:E; simpl;
    intros Hr; simplify_eq; [by eapply audit_exec | done].
Qed.

Lemma pg_audit e w r w' :
  (∀ m, e.(aud_Amount) = Some m → Money.proper m) →
  pg_idle w → pg_run (Store.WriteAudit e) w = (r, w') →
  pg_idle w' ∧ ∃ L1, rely (pg_committed w) L1 ∧
  match r with
  | Ok _ => pg_committed w' = add_audit (audit_of e) L1
  | Err _ => pg_committed w' = add_audit (audit_of e) L1 ∨ pg_committed w' = L1
  end.
Proof.
  intros Hm Hw Hr. unfold Store.WriteAudit in Hr. pg_step Hr. rewrite pg_run_ret in Hr.
  destruct (refreshed_ok w Hw) as (Htx&Hok&Hrely&Hinv).
  unfold pg_run, pool_exec, PgM_Pgx, PgM_pool_exec in Erun. fold (audit_stmt e) in Erun.
  destruct (autocommit env (w_tick w) (audit_stmt e) (refreshed env w)) as [r1 db1] eqn:Ea.
  pose proof (autocommit_ok _ _ _ _ _ Hok Ea) as Hok1. apply audit_autocommit in Ea; [|done].
  assert (Hinv1 : ledger_inv (abs db1.(tables))).
  { destruct r1; rewrite Ea; [by apply add_audit_inv | done]. }
  destruct (env_fault env (w_tick w)); simplify_eq; (split; [by apply pg_idle_intro |]);
    exists (abs (refreshed env w).(tables)); (split; [done |]); simpl;
    [destruct r0; simpl; auto | auto | destruct r1; auto].
Qed.

(** ** Transactions *)

Lemma rolled_back_ok w tx :
  w_ok w → w.(w_tx) = Some tx → db_ok (rolled_back w.(w_db) tx.(tx_db)).
Proof.
  intros [Hdb Htx] Hw. destruct (Htx tx Hw) as [_ Hseq]. by apply (db_ok_grow w.(w_db)).
Qed.

Lemma Rollback_spec C L w u w' :
  ledger_inv C → pg_open C L w → pg_run tx_Rollback w = (u, w') → pg_idle w' ∧ pg_committed w' = C.
Proof.
  intros HC (Hw&<-&HL) Hr. unfold pg_working in HL. apply fmap_Some in HL as (tx&Htx&_).
  unfold pg_run, tx_Rollback, PgM_Pgx, PgM_Rollback in Hr. rewrite Htx in Hr. simplify_eq.
  split; [|done]. apply pg_idle_intro; [by apply rolled_back_ok | done | done].
Qed.

Lemma Commit_spec C L w c w' :
  ledger_inv C → ledger_inv L → pg_open C L w → pg_run tx_Commit w = (c, w') →
  pg_idle w' ∧
  match c with
  | Ok _ => pg_committed w' = L
  | Err e => internal e ∧ (pg_committed w' = C ∨ pg_committed w' = L)
  end.
Proof.
  intros HC HL2 (Hw&<-&HL) Hr. unfold pg_working in HL. apply fmap_Some in HL as (tx&Htx&->).
  pose proof (rolled_back_ok w tx Hw Htx) as Hback. destruct (wo_tx w Hw tx Htx) as [Hok _].
  unfold pg_run, tx_Commit, PgM_Pgx, PgM_Commit in Hr. rewrite Htx in Hr.
  destruct (tx_aborted tx), (env_fault env (w_tick w)), (triggers_pass tx.(tx_db) tx.(tx_pending)); simplify_eq;
    (split; [by apply pg_idle_intro | unfold pg_committed; simpl; auto]).
Qed.

Lemma pg_WithTx A (f : PgM (result error A)) w r w' :
  pg_idle w → pg_run (Store.WithTx f) w = (r, w') →
  (∃ e, r = Err e ∧ internal e ∧ pg_idle w' ∧ rely (pg_committed w) (pg_committed w')) ∨
  (∃ w1 r1 w2, rely (pg_committed w) (pg_committed w1) ∧
     pg_open (pg_committed w1) (pg_committed w1) w1 ∧ pg_run f w1 = (r1, w2) ∧
     ∀ L2, pg_open (pg_committed w1) L2 w2 →
       match r1 with
       | Err e => pg_idle w' ∧ r = Err e ∧ pg_committed w' = pg_committed w1
       | Ok a =>
           ledger_inv L2 → pg_idle w' ∧
           ((r = Ok a ∧ pg_committed w' = L2) ∨
            (∃ e, r = Err (Wrapf "store.WithTx commit" e) ∧ internal e ∧
                  (pg_committed w' = pg_committed w1 ∨ pg_committed w' = L2)))
       end).
Proof.
  intros Hw Hr. destruct (refreshed_ok w Hw) as (Htx&Hok&Hrely&Hinv). unfold Store.WithTx in Hr. pg_step Hr.
  unfold pg_run, pool_BeginTx, PgM_Pgx, PgM_BeginTx in Erun.
  destruct (env_fault env (w_tick w)); simplify_eq.
  2,3: left; rewrite pg_run_ret in Hr; simplify_eq; eexists; split_and!;
    [done | done | by apply pg_idle_intro | done].
  right. pg_step Hr. eexists _, _, _. split_and!; [| | exact Erun |]; [done | |].
  { split_and!; [split; [done |] | done | done]. intros tx [= <-]. simpl. split; [done | lia]. }
  intros L2 Ho. destruct r0 as [a|e].
  - intros HL2. pg_step Hr. destruct (Commit_spec _ _ _ _ _ Hinv HL2 Ho Erun0) as [Hw2 Hc].
    clear Erun0.
    pg_step Hr.
    unfold pg_run, tx_Rollback, PgM_Pgx, PgM_Rollback in Erun0.
    rewrite (pg_idle_tx _ Hw2) in Erun0. simplify_eq.
    destruct r0 as [[]|e]; rewrite pg_run_ret in Hr; simplify_eq; (split; [done |]); eauto.
  - pg_step Hr. destruct (Rollback_spec _ _ _ _ _ Hinv Ho Erun0) as [Hw2 Hc].
    rewrite pg_run_ret in Hr. injection Hr as <- <-. done.
Qed.

Lemma pg_open_tx C L w tx : pg_open C L w → w.(w_tx) = Some tx → L = abs tx.(tx_db).(tables).
Proof. intros (_&_&HL) Htx. unfold pg_working in HL. rewrite Htx in HL. by injection HL. Qed.

Lemma pg_Query {R} (q : sql (list R)) C L w r w' :
  pg_open C L w → pg_run (tx_Query q) w = (r, w') →
  match r with
  | Ok (MkRows l None) => answers q L (Ok l) (λ L', pg_open C L' w')
  | Ok (MkRows _ (Some e)) | Err e => internal e ∧ ∃ L', pg_open C L' w'
  end.
Proof.
  intros Ho Hr. unfold pg_run, tx_Query, PgM_Pgx, PgM_tx_Query in Hr.
  destruct (PgM_tx_exec env q w) as [r0 w0] eqn:E. injection Hr as <- <-. unfold cursor.
  apply (pg_exec q C L) in E; [|done]. destruct r0 as [l|e]; [done |].
  assert (internal e ∧ ∃ L', pg_open C L' w0).
  { destruct E as (db&db'&_&_&Ho'&[[cx Hx]|[Hi _]]); [|eauto].
    apply sql_exec_err, is_pg_internal in Hx. eauto. }
  by destruct (env_cut env _).
Qed.

Lemma pg_Now C L w now w' : pg_open C L w → pg_run time_Now w = (now, w') → pg_open C L w'.
Proof. intros Ho. cbv [pg_run time_Now PgM_Runtime PgM_Now]. by intros [= _ <-]. Qed.

#[export] Instance PgM_BlockSpec : BlockSpec PgM := {
  bworld := World;
  brun := @pg_run;
  brun_ret := @pg_run_ret;
  brun_bind := @pg_run_bind;
  open_block := pg_open;
  block_exec := @pg_exec;
  block_Query := @pg_Query;
  block_Now := pg_Now }.

(** ** The runtime *)

Lemma pg_NewV7 w r w' :
  pg_idle w → pg_run uuid_NewV7 w = (r, w') →
  pg_idle w' ∧ pg_committed w' = pg_committed w ∧ (∀ e, r = Err e → internal e).
Proof.
  intros Hw Hr. cbv [pg_run uuid_NewV7 PgM_Runtime PgM_NewV7] in Hr.
  split_and!; [apply pg_idle_intro | |].
  - injection Hr as _ <-. apply Hw.
  - injection Hr as _ <-. by apply (pg_idle_tx w).
  - injection Hr as _ <-. apply Hw.
  - by injection Hr as _ <-.
  - destruct (env_uuid env (w_tick w)); by intros e ->; simplify_eq.
Qed.

Lemma pg_log m w u w' :
  pg_idle w → pg_run (logger_Error m) w = (u, w') → pg_idle w' ∧ pg_committed w' = pg_committed w.
Proof.
  intros Hw Hr. cbv [pg_run logger_Error PgM_Runtime PgM_log] in Hr. injection Hr as _ <-.
  split; [|done]. apply pg_idle_intro; [apply Hw | by apply (pg_idle_tx w) | apply Hw].
Qed.

(** ** The contract *)

#[export] Instance PgM_StorerSpec : StorerSpec PgM := {
  storer_tx := Store_TxSpec;
  ok := w_ok;
  committed := pg_committed;
  working := pg_working;
  spec_NewV7 := pg_NewV7;
  spec_log := pg_log;
  spec_get_key := pg_get_key;
  spec_get := pg_get;
  spec_audit := pg_audit;
  spec_WithTx := pg_WithTx }.
End pg.

#[export] Existing Instances PgM_BlockSpec PgM_StorerSpec.
