(* ===== verification/Guarantee.v ===== *)
(** * What the operations guarantee to every other client

    Whatever an operation replies, and whatever fails on the way, the ledger only
    evolves as the other clients rely on: accounts stay, transactions are never
    changed, the trail grows, and a correct ledger stays correct. *)

From S2P Require Import Prelude GoStd Decimal Money Uuid Ledger Schema Pgx Service LedgerSpec LedgerFacts StorerSpec ServiceSpec.
From stdpp Require Import options.
Import Ledger LedgerSpec.
Open Scope Z_scope.

Lemma settles_rely op funds rq id L r L' :
  stable_request rq L → settles op funds rq id L r L' → rely L L'.
Proof.
  intros Hst [L0 L1 H0 Hc Ha|t es L1 H0 _ _|L0 e L1 H0 _ Ha|L0 e L1 H0 Hc _ Ha].
  - etrans; [done |]. etrans; [apply move_rely; [done | apply Hst, H0] |]. by eapply audited_rely.
  - done.
  - etrans; [done |]. by eapply audited_rely.
  - etrans; [done |]. etrans; [apply move_rely; [done | apply Hst, H0] |]. by eapply audited_rely.
Qed.

Lemma transfer_outcome_rely srcID dstID amount idemKey requestID L r L' :
  transfer_outcome srcID dstID amount idemKey requestID L r L' → rely L L'.
Proof.
  intros [e L1 _ Ha|t es L1 H _ _|e L1 H _|id L0 r1 L1 ? ? ? ? H Hs];
    [by eapply audited_rely | done | done |].
  etrans; [done |]. eapply settles_rely; [|done]; by apply transfer_stable.
Qed.

Lemma deposit_outcome_rely dstID amount idemKey requestID L r L' :
  deposit_outcome dstID amount idemKey requestID L r L' → rely L L'.
Proof.
  intros [e L1 _ Ha|t es L1 H _ _|e L1 H _|id L0 r1 L1 ? ? H Hs];
    [by eapply audited_rely | done | done |].
  etrans; [done |]. eapply settles_rely; [|done]; by apply deposit_stable.
Qed.

Lemma reverse_outcome_rely orig idemKey requestID L r L' :
  reverse_outcome orig idemKey requestID L r L' → rely L L'.
Proof.
  intros [t es L1 H _ _|e L0 L1 H _ Ha|x L0 L1 H _ _ Ha|e L1 H _|a b u id L0 r1 L1 H Ht ? ? Hs];
    [done | | | done |]; (etrans; [exact H |]).
  - by eapply audited_rely.
  - by eapply audited_rely.
  - eapply settles_rely; [|done]; by apply reverse_stable.
Qed.

(** ** New accounts *)

Definition add_acct (id : UUID) (L : ledger) : ledger :=
  MkLedger (<[id := Acct 0 false]> L.(accts)) L.(txns) L.(trail).

(** An account that does not exist yet has no legs. *)
Lemma journal_balance_absent a L :
  ledger_inv L → L.(accts) !! a = None → journal_balance a L = 0.
Proof.
  intros HL Ha. unfold journal_balance, map_sumZ. apply sumZ_zero. intros [id x] Hin.
  apply elem_of_map_to_list in Hin. simpl. apply sumZ_zero. intros l Hl. case_decide as E; [|done].
  destruct (inv_legs L HL id x l Hin Hl) as [_ [y Hy]]. congruence.
Qed.

Lemma add_acct_inv id L : L.(accts) !! id = None → ledger_inv L → ledger_inv (add_acct id L).
Proof.
  intros Hid HL. split; simpl; try apply HL.
  - intros a x. rewrite lookup_insert. case_decide; [|apply HL]. intros [= <-]. by right.
  - intros a x. rewrite lookup_insert. case_decide; [|apply HL]. by intros [= <-].
  - intros a x. rewrite lookup_insert. case_decide as E; [|apply HL].
    intros [= <-]. subst a. symmetry. exact (journal_balance_absent id L HL Hid).
  - intros i x l Hi Hl. destruct (inv_legs L HL i x l Hi Hl) as [? Hs]. split; [done |].
    rewrite lookup_insert_is_Some. destruct (decide (id = l_account l)); auto.
Qed.

Lemma add_acct_rely id L : L.(accts) !! id = None → rely L (add_acct id L).
Proof.
  intros Hid. split; [split | by apply add_acct_inv]; simpl; [| done | done].
  intros a x Hx. rewrite lookup_insert_ne by congruence. eauto.
Qed.

#[export] Hint Resolve transfer_outcome_rely deposit_outcome_rely reverse_outcome_rely add_acct_rely : ledger.
