(* ===== verification/Clients.v ===== *)
(** * Clients of the service

    A client issues calls: the three operations of the ledger service and the
    calls the HTTP layer makes on the store directly.  A history of calls runs
    against the PostgreSQL store in any environment.  The guarantee of a history
    is what the operations rely on of the other clients, so that an environment
    in which other processes run the same service is a good one. *)

From S2P Require Import Prelude GoStd Decimal Money Uuid Ledger Schema Pgx Store Service LedgerSpec LedgerFacts StorerSpec ServiceSpec Numeric SchemaFacts StoreBlocks StoreRefines Guarantee.
From stdpp Require Import options.
Import Ledger Schema LedgerSpec.
Open Scope Z_scope.

Inductive call :=
| CallTransfer (srcID dstID : UUID) (amount : Money.Money) (idemKey requestID : string)
| CallReverse (originalTxID : UUID) (idemKey requestID : string)
| CallDeposit (dstID : UUID) (amount : Money.Money) (idemKey requestID : string)
| CallCreateAccount (name : string)
| CallGetAccount (id : UUID)
| CallListAccounts
| CallListTransactionsForAccount (id : UUID) (limit : Z)
| CallListTransactions (opts : Store.ListTransactionsOpts)
| CallListAuditForAccount (id : UUID) (limit : Z).

(** Amounts come from the constructors of the money package. *)
Definition proper_call (c : call) : Prop :=
  match c with
  | CallTransfer _ _ amount _ _ | CallDeposit _ amount _ _ => Money.proper amount
  | _ => True
  end.

(** A call, its reply forgotten. *)
Definition do_call {M : Type → Type} `{!MRet M, !MBind M, !Pgx M, !GoRuntime M} (c : call) : M unit :=
  match c with
  | CallTransfer src dst amount key req => let! _ := Service.Transfer src dst amount key req in mret tt
  | CallReverse orig key req => let! _ := Service.Reverse orig key req in mret tt
  | CallDeposit dst amount key req => let! _ := Service.Deposit dst amount key req in mret tt
  | CallCreateAccount name => let! _ := Store.CreateAccount name in mret tt
  | CallGetAccount id => let! _ := Store.GetAccount id in mret tt
  | CallListAccounts => let! _ := Store.ListAccounts in mret tt
  | CallListTransactionsForAccount id limit =>
      let! _ := Store.ListTransactionsForAccount id limit in mret tt
  | CallListTransactions opts => let! _ := Store.ListTransactions opts in mret tt
  | CallListAuditForAccount id limit => let! _ := Store.ListAuditForAccount id limit in mret tt
  end.

Section calls.
Context (env : Env).

(** The operations of the service over the store, in environment [env]. *)
Definition run_Transfer (srcID dstID : UUID) (amount : Money.Money) (idemKey requestID : string)
  : World → reply * World := pg_run (Service.Transfer srcID dstID amount idemKey requestID).
Definition run_Reverse (originalTxID : UUID) (idemKey requestID : string) : World → reply * World :=
  pg_run (Service.Reverse originalTxID idemKey requestID).
Definition run_Deposit (dstID : UUID) (amount : Money.Money) (idemKey requestID : string)
  : World → reply * World := pg_run (Service.Deposit dstID amount idemKey requestID).

Definition exec_call (c : call) : PgM unit := do_call c.

Fixpoint history (cs : list call) : PgM unit :=
  match cs with
  | [] => mret tt
  | c :: cs' => let! _ := exec_call c in history cs'
  end.
End calls.

(** ** Computations that leave the ledger to the others *)

Section guarantee.
Context (env : Env) `{!OthersOk env}.
Set Default Proof Using "Type*".

(** From an idle world to an idle world, the ledger having evolved. *)
Definition keeps {A} (m : PgM A) : Prop :=
  ∀ w r w', pg_idle w → pg_run m w = (r, w') →
    pg_idle w' ∧ rely (pg_committed w) (pg_committed w').

Lemma keeps_ret {A} (a : A) : keeps (mret a).
Proof. intros w r w' Hw Hr. rewrite pg_run_ret in Hr. by injection Hr as _ <-. Qed.

Lemma keeps_bind {A B} (m : PgM A) (f : A → PgM B) :
  keeps m → (∀ a, keeps (f a)) → keeps (mbind f m).
Proof.
  intros Hm Hf w r w' Hw Hr. pg_step Hr. apply Hm in Erun as [Hw1 H1]; [|done].
  apply Hf in Hr as [Hw' H2]; [|done]. split; [done | by etrans].
Qed.

Lemma keeps_query {A} (q : sql A) : is_query q → keeps (pool_exec q).
Proof. intros Hq w r w' Hw Hr. apply pool_query_spec in Hr as (?&?&_); done. Qed.

Lemma keeps_Query {R} (q : sql (list R)) : is_query q → keeps (pool_Query q).
Proof. intros Hq w r w' Hw Hr. apply pool_Query_spec in Hr as (?&?&_); done. Qed.

Lemma keeps_listEntries id : keeps (Store.listEntries id).
Proof. intros w r w' Hw Hr. apply listEntries_spec in Hr as (?&?&_); done. Qed.

Lemma keeps_populate txns : keeps (Store.populate txns).
Proof.
  induction txns as [|t txns IH]; [apply keeps_ret |]. simpl.
  apply keeps_bind; [apply keeps_listEntries |]. intros [es|e]; [|apply keeps_ret].
  apply keeps_bind; [done |]. intros [l|e]; apply keeps_ret.
Qed.

Lemma keeps_GetAccount id : keeps (Store.GetAccount id).
Proof. apply keeps_bind; [|intros; apply keeps_ret]. apply keeps_query. split; eauto. Qed.

Lemma keeps_ListAccounts : keeps Store.ListAccounts.
Proof. apply keeps_bind; [|intros; apply keeps_ret]. apply keeps_Query. split; eauto. Qed.

Lemma keeps_ListAudit id limit : keeps (Store.ListAuditForAccount id limit).
Proof. apply keeps_bind; [|intros; apply keeps_ret]. apply keeps_Query. split; eauto. Qed.

Lemma keeps_ListTransactionsForAccount id limit : keeps (Store.ListTransactionsForAccount id limit).
Proof.
  apply keeps_bind; [apply keeps_Query; split; eauto |]. intros [rows|e]; [|apply keeps_ret].
  case_match; [apply keeps_populate | apply keeps_ret].
Qed.

Lemma keeps_ListTransactions opts : keeps (Store.ListTransactions opts).
Proof.
  apply keeps_bind; [apply keeps_Query; split; eauto |]. intros [rows|e]; [|apply keeps_ret].
  case_match; [apply keeps_populate | apply keeps_ret].
Qed.

(** ** Creating an account *)

Lemma abs_insert_account id name now t t' :
  insert_account id name now t = Ok t' →
  abs t' = add_acct id (abs t) ∧ (abs t).(accts) !! id = None.
Proof.
  unfold insert_account. destruct (accounts t !! id) eqn:E; [done |]. intros [= <-].
  split; [|by rewrite abs_accts, E]. unfold abs, add_acct; simpl. f_equal. by rewrite fmap_insert.
Qed.

Lemma insert_account_autocommit n id name db r db' :
  db_ok db → autocommit env n (InsertAccount id name) db = (r, db') →
  db_ok db' ∧ rely (abs db.(tables)) (abs db'.(tables)).
Proof.
  intros Hok Ha. pose proof (autocommit_ok env _ _ _ _ _ Hok Ha) as Hok'. split; [done |].
  unfold autocommit in Ha. simpl in Ha.
  destruct (insert_account _ _ _ _) as [t|e] eqn:E; simpl in Ha; injection Ha as _ <-; simpl.
  - apply abs_insert_account in E as [-> Hid]. by apply add_acct_rely.
  - done.
Qed.

Lemma keeps_CreateAccount name : keeps (Store.CreateAccount name).
Proof.
  apply keeps_bind.
  { intros w r w' Hw Hr. apply pg_NewV7 in Hr as (?&->&_); done. }
  intros [id|e]; [|apply keeps_ret]. apply keeps_bind; [|intros; apply keeps_ret].
  intros w r w' Hw Hr. destruct (refreshed_ok env w Hw) as (Htx&Hok&Hrely&Hinv).
  unfold pg_run, pool_exec, PgM_Pgx, PgM_pool_exec in Hr.
  destruct (autocommit env (w_tick w) _ (refreshed env w)) as [r1 db1] eqn:Ea.
  apply insert_account_autocommit in Ea as [Hok1 Hrely1]; [|done].
  destruct (env_fault env (w_tick w)); injection Hr as _ <-;
    (split; [apply pg_idle_intro; try done; by apply Hrely1 | try done; by etrans]).
Qed.

(** ** Histories *)

Lemma exec_call_keeps c : proper_call c → keeps (exec_call env c).
Proof.
  intros Hc. destruct c; simpl in Hc |- *;
    (apply keeps_bind; [|intros; apply keeps_ret]);
    auto using keeps_CreateAccount, keeps_GetAccount, keeps_ListAccounts, keeps_ListAudit,
      keeps_ListTransactionsForAccount, keeps_ListTransactions; intros w r w' Hw Hr.
  - destruct (Transfer_outcome (HS:=PgM_StorerSpec env) _ _ _ _ _ w r w' Hc Hw Hr); eauto with ledger.
  - destruct (Reverse_outcome (HS:=PgM_StorerSpec env) _ _ _ w r w' Hw Hr); eauto with ledger.
  - destruct (Deposit_outcome (HS:=PgM_StorerSpec env) _ _ _ _ w r w' Hc Hw Hr); eauto with ledger.
Qed.

Lemma history_keeps cs : Forall proper_call cs → keeps (history env cs).
Proof.
  induction 1 as [|c cs Hc Hcs IH]; [apply keeps_ret |].
  apply keeps_bind; [by apply exec_call_keeps | done].
Qed.
End guarantee.
