(* ===== verification/Progress.v ===== *)
(** * Progress in a calm environment

    When no external call fails and no other client interferes, the statements of
    an operation succeed as soon as the ledger allows the movement: together with
    the contract of the store this gives the exact reply and the exact ledger. *)

From S2P Require Import Prelude GoStd Decimal Money Uuid Ledger Schema Pgx Store Service LedgerSpec LedgerFacts StorerSpec ServiceSpec Numeric SchemaFacts StoreBlocks StoreRefines.
From stdpp Require Import options.
Import Ledger Schema LedgerSpec.
Open Scope Z_scope.

Class Calm (env : Env) : Prop := {
  calm_fault n : env_fault env n = NoFault;
  calm_others n db : env_others env n db = db }.

#[export] Instance Calm_OthersOk env : Calm env → OthersOk env.
Proof. intros Hc n db Hok _. by rewrite calm_others. Qed.

(** The world after a call that reads. *)
Definition ticked (w : World) : World := MkWorld w.(w_db) w.(w_tx) (S w.(w_tick)) w.(w_log).

Lemma ticked_idle w : pg_idle w → pg_idle (ticked w).
Proof. intros Hw. apply pg_idle_intro; [apply Hw | by apply (pg_idle_tx w) | apply Hw]. Qed.

(** The signed sum the trigger computes is that of the abstract legs. *)
Lemma net_sum_abs t id x : (abs t).(txns) !! id = Some x → net_sum id t = sumZ leg_units x.(x_legs).
Proof.
  rewrite abs_txns. intros (r&_&->)%fmap_Some. unfold net_sum. simpl.
  rewrite sumZ_fmap. done.
Qed.

(** Every pending check of the deferred trigger holds. *)
Definition balanced_ids (p : list UUID) (L : ledger) : Prop :=
  ∀ id, id ∈ p → ∃ x, L.(txns) !! id = Some x ∧ sumZ leg_units x.(x_legs) = 0.

Lemma triggers_pass_balanced db p : balanced_ids p (abs db.(tables)) → triggers_pass db p = true.
Proof.
  intros Hp. apply forallb_forall. intros id Hin%list_elem_of_In.
  destruct (Hp id Hin) as (x&Hx&Hs). unfold check_double_entry_balance.
  rewrite (net_sum_abs _ _ _ Hx). by apply Z.eqb_eq.
Qed.

Lemma units_of_lookup a L x : L.(accts) !! a = Some x → units_of a L = x.(a_units).
Proof. unfold units_of. by intros ->. Qed.

Lemma move_balanced rq id L : balanced_ids [id; id] (move rq id L).
Proof.
  intros i Hi. rewrite !elem_of_cons, elem_of_nil in Hi. assert (i = id) as -> by tauto.
  eexists. simpl. rewrite lookup_insert, decide_True by done.
  split; [done |]. unfold leg_units; simpl. lia.
Qed.

(** The next call of a computation whose result is known: [H] states it for the
    store's function that implements the method. *)
Ltac pg_next H :=
  rewrite pg_run_bind;
  match type of H with
  | _ = ?r =>
      match goal with
      | |- context [let '(_, _) := ?m in _] => replace m with r by (symmetry; exact H); cbv beta iota
      end
  end.

Section calm.
Context (env : Env) `{!Calm env}.
Set Default Proof Using "Type*".

(** ** The pool *)

Lemma calm_pool {A} (q : sql A) w :
  pg_run (pool_exec q) w
  = let '(r, db) := autocommit env w.(w_tick) q w.(w_db) in
    (r, MkWorld db w.(w_tx) (S w.(w_tick)) w.(w_log)).
Proof.
  unfold pg_run, pool_exec, PgM_Pgx, PgM_pool_exec, refreshed.
  by rewrite calm_fault, calm_others.
Qed.

Lemma calm_query {A} (q : sql A) w :
  is_query q → ∃ a, pg_run (pool_exec q) w = (Ok a, ticked w) ∧
    sql_exec (stmt_ctx_at env w.(w_tick) (env_now env w.(w_tick))) q w.(w_db) = (Ok a, w.(w_db)).
Proof.
  intros [Hev Hq]. rewrite calm_pool. unfold autocommit.
  destruct (Hq (stmt_ctx_at env w.(w_tick) (env_now env w.(w_tick))) w.(w_db)) as [a Ha].
  rewrite Ha, Hev. simpl. eauto.
Qed.

Lemma calm_Query {R} (q : sql (list R)) w :
  is_query q → ∃ l, pg_run (pool_Query q) w = (Ok (MkRows l None), ticked w) ∧
    sql_exec (stmt_ctx_at env w.(w_tick) (env_now env w.(w_tick))) q w.(w_db) = (Ok l, w.(w_db)).
Proof.
  intros Hq. destruct (calm_query q w Hq) as (l&Hr&Hx). exists l. split; [|done].
  unfold pg_run, pool_Query, PgM_Pgx, PgM_pool_Query.
  unfold pg_run, pool_exec, PgM_Pgx in Hr. by rewrite Hr.
Qed.

Lemma calm_listEntries id w :
  db_ok w.(w_db) →
  pg_run (Store.listEntries id) w
  = (Ok (entry_of w.(w_db).(tables).(accounts) <$> entries_of id w.(w_db).(tables)), ticked w).
Proof.
  intros Hok. unfold Store.listEntries. rewrite pg_run_bind.
  destruct (calm_Query (SelectEntries id) w) as (rows&->&Hx); [by split; [|eauto] |].
  rewrite pg_run_ret. simpl in Hx. injection Hx as <-. cbn [rows_data].
  by rewrite select_entries_ok, scan_entries_ok.
Qed.

Lemma select_key_nil key t :
  key_fresh key (abs t) →
  select_transactions (λ p, bool_decide (p.2.(tr_idempotency_key) = key)) t = [].
Proof.
  intros Hf. unfold select_transactions. rewrite filter_none; [done |].
  intros [id x] Hin%elem_of_map_to_list HP%bool_decide_eq_true.
  apply (Hf id (abs_txn t id x)); [|done]. by rewrite abs_txns, Hin.
Qed.

Lemma calm_get_key_fresh key w :
  key_fresh key (pg_committed w) →
  pg_run (Store.GetTransactionByIdempotencyKey key) w = (Err ErrTransactionNotFound, ticked w).
Proof.
  intros Hf. unfold Store.GetTransactionByIdempotencyKey. rewrite pg_run_bind.
  destruct (calm_query (SelectTransactionByKey key) w) as (rows&->&Hx); [by split; [|eauto] |].
  simpl in Hx. injection Hx as <-. by rewrite select_key_nil.
Qed.

(** A getter whose query finds a row. *)
Lemma calm_found label rt rows x w :
  pg_idle w → rt = rec_of_transaction (rt.(rt_id), x) →
  w.(w_db).(tables).(transactions) !! rt.(rt_id) = Some x →
  ∃ t es, pg_run (Store.found_transaction label (Ok (rt :: rows))) w = (Ok (t, es), ticked w) ∧
    stored t es (pg_committed w) ∧ t.(txn_ID) = rt.(rt_id) ∧
    t.(txn_IdempotencyKey) = rt.(rt_idempotency_key).
Proof.
  intros Hw Hrt Hx. unfold Store.found_transaction. simpl. rewrite pg_run_bind.
  rewrite calm_listEntries by apply Hw. rewrite pg_run_ret. eexists _, _. split_and!; [done | | done..].
  rewrite Hrt. by apply (stored_later w.(w_db).(tables)); [apply Hw | |].
Qed.

Lemma calm_get_key_used key w :
  pg_idle w → ¬ key_fresh key (pg_committed w) →
  ∃ t es, pg_run (Store.GetTransactionByIdempotencyKey key) w = (Ok (t, es), ticked (ticked w)) ∧
    stored t es (pg_committed w) ∧ t.(txn_IdempotencyKey) = key.
Proof.
  intros Hw Hf. unfold Store.GetTransactionByIdempotencyKey.
  destruct (calm_query (SelectTransactionByKey key) w) as (rows&Hrun&Hx); [by split; [|eauto] |].
  simpl in Hx. injection Hx as <-.
  destruct (select_transactions _ _) as [|rt rows] eqn:Hrows.
  - exfalso. apply Hf. intros id y. unfold pg_committed. rewrite abs_txns.
    intros (x&Hx&->)%fmap_Some Hk. simpl in Hk.
    apply (not_elem_of_nil (rec_of_transaction (id, x))). rewrite <-Hrows.
    apply list_elem_of_fmap. exists (id, x). split; [done |].
    apply list_elem_of_filter. split; [by apply bool_decide_eq_true | by apply elem_of_map_to_list].
  - destruct (select_transactions_rows _ _ rt ltac:(rewrite Hrows; left)) as (x&Hrt&Hx&HP).
    destruct (calm_found "store.GetTransactionByIdempotencyKey" rt rows x (ticked w))
      as (t&es&Hr&Hst&_&Hk); [by apply ticked_idle | done | done |].
    exists t, es. rewrite pg_run_bind, Hrun, Hr. split_and!; [done | done |].
    rewrite Hk, Hrt. by apply bool_decide_eq_true in HP.
Qed.

Lemma calm_get id x w :
  pg_idle w → (pg_committed w).(txns) !! id = Some x →
  ∃ t es, pg_run (Store.GetTransaction id) w = (Ok (t, es), ticked (ticked w)) ∧
    stored t es (pg_committed w) ∧ t.(txn_ID) = id.
Proof.
  intros Hw Hx. unfold pg_committed in Hx. rewrite abs_txns in Hx.
  apply fmap_Some in Hx as (y&Hy&->). unfold Store.GetTransaction. rewrite pg_run_bind.
  destruct (calm_query (SelectTransactionById id) w) as (rows&->&Hq); [by split; [|eauto] |].
  simpl in Hq. rewrite Hy in Hq. injection Hq as <-.
  destruct (calm_found "store.GetTransaction" (rec_of_transaction (id, y)) [] y (ticked w))
    as (t&es&Hr&Hst&Hid&_); [by apply ticked_idle | done | done |].
  exists t, es. split; [exact Hr | done].
Qed.

(** ** The transaction *)

(** An open transaction with working ledger [L], pending trigger checks [p] and
    entry sequence [s], in which no statement has failed. *)
Definition live (C L : ledger) (p : list UUID) (s : Z) (w : World) : Prop :=
  pg_open C L w ∧
  ∃ tx, w.(w_tx) = Some tx ∧ tx.(tx_aborted) = false ∧ tx.(tx_pending) = p ∧
        tx.(tx_db).(entries_seq) = s ∧ tx.(tx_db).(audit_seq) < max_bigint.

(** A statement that succeeds on the working copy. *)
Lemma live_exec {A} (q : sql A) C L p s w :
  live C L p s w →
  (∀ cx tb m, db_ok (MkDB tb s m) → abs tb = L → ∃ a db', sql_exec cx q (MkDB tb s m) = (Ok a, db') ∧ db'.(audit_seq) = m) →
  ∃ a w' db' L', pg_run (tx_exec q) w = (Ok a, w') ∧
    live C L' (p ++ trigger_events q) db'.(entries_seq) w' ∧ L' = abs db'.(tables) ∧
    ∃ cx tb m, abs tb = L ∧ sql_exec cx q (MkDB tb s m) = (Ok a, db').
Proof.
  intros [Ho (tx&Htx&Hab&<-&<-&Hm)] Hq. pose proof (pg_open_tx _ _ _ _ Ho Htx) as HL.
  assert (Heta : MkDB (tx_db tx).(tables) (tx_db tx).(entries_seq) (tx_db tx).(audit_seq) = tx_db tx)
    by (by destruct (tx_db tx)).
  destruct (Hq (stmt_ctx_at env w.(w_tick) tx.(tx_now)) (tx_db tx).(tables) (tx_db tx).(audit_seq))
    as (a&db'&Hx&Hm'); [rewrite Heta; by apply (wo_tx w (proj1 Ho)) | done |].
  rewrite Heta in Hx.
  assert (Hrun : pg_run (tx_exec q) w = (Ok a, MkWorld w.(w_db)
    (Some (MkTx db' tx.(tx_now) false (tx.(tx_pending) ++ trigger_events q))) (S w.(w_tick)) w.(w_log))).
  { unfold pg_run, tx_exec, PgM_Pgx, PgM_tx_exec. by rewrite Htx, Hab, calm_fault, Hx. }
  eexists a, _, db', _. split_and!; [exact Hrun | | done |].
  - pose proof Hrun as Hr. apply (pg_exec env _ C L) in Hr as (db1&db2&_&_&Ho'&_); [|done].
    split; [|eexists; split_and!; [done.. | by simpl; rewrite Hm']].
    destruct Ho' as (Hw'&HC'&_). split_and!; [done | done | done].
  - eexists _, _, _. split; [done |]. by rewrite Heta.
Qed.

(** The contract of a call gives the working ledger that the execution leaves. *)
Lemma live_open C L L' p s w : live C L p s w → pg_open C L' w → live C L' p s w.
Proof. intros [_ Ht] Ho. by split. Qed.

Lemma live_lock ids C L p s w :
  NoDup ids → live C L p s w →
  ∃ accs w', pg_run (Store.LockAccountsForUpdate ids) w = (Ok accs, w') ∧ live C L p s w'.
Proof.
  intros Hnd Hl. destruct (live_exec (SelectAccountsForUpdate (Uuid.sort ids)) C L p s w)
    as (rows&w'&db'&L'&Hr&Hl'&->&cx&tb&m&<-&Hx); [done | by intros; eexists _, _ |].
  simpl in Hx. injection Hx as <- <-. simpl in Hl'. rewrite app_nil_r in Hl'.
  destruct (collectAccounts_ok tb _ (select_accounts_rows (Uuid.sort ids) tb)) as (accs&Hc&_).
  assert (Hq : pg_run (tx_Query (SelectAccountsForUpdate (Uuid.sort ids))) w
               = (Ok (MkRows (select_accounts_for_update (Uuid.sort ids) tb) None), w')).
  { unfold pg_run, tx_Query, PgM_Pgx, PgM_tx_Query. unfold pg_run, tx_exec, PgM_Pgx in Hr. by rewrite Hr. }
  exists accs, w'. unfold Store.LockAccountsForUpdate. by rewrite pg_run_bind, Hq, pg_run_ret, Hc.
Qed.

Lemma update_balance_succeeds m now id t :
  Money.scaled m → Z.abs (Money.units m) < numeric_limit →
  (∀ x, (abs t).(accts) !! id = Some x → x.(a_system) = true ∨ 0 <= Money.units m) →
  ∃ t', update_balance (Decimal.Value (Money.Decimal m)) now id t = Ok t'.
Proof.
  intros Hm Hlim Hpos. unfold update_balance. rewrite numeric_in_proper by (by left).
  unfold stored_as, in_range. rewrite (proj2 (Z.ltb_lt _ _)) by done.
  destruct (t.(accounts) !! id) as [r|] eqn:Hr; [|by eexists].
  specialize (Hpos (abs_account r)). rewrite abs_accts, Hr in Hpos. specialize (Hpos eq_refl).
  simpl in Hpos. unfold balance_check.
  destruct Hpos as [->|Hpos]; simpl; [by eexists |].
  rewrite (proj2 (Z.leb_le _ _)), orb_true_r by done. by eexists.
Qed.

Lemma live_update id m C L p s w :
  Money.scaled m → Z.abs (Money.units m) < numeric_limit →
  (∀ x, L.(accts) !! id = Some x → x.(a_system) = true ∨ 0 <= Money.units m) →
  live C L p s w →
  ∃ w', pg_run (Store.UpdateBalance id m) w = (Ok tt, w') ∧
        live C (set_units id (Money.units m) L) p s w'.
Proof.
  intros Hm Hlim Hpos Hl.
  set (now := env_now env w.(w_tick)).
  destruct (live_exec (UpdateAccountBalance (Decimal.Value (Money.Decimal m)) now id) C L p s w)
    as ([]&w'&db'&L'&Hr&Hl'&->&cx&tb&k&<-&Hx); [done | |].
  { intros cx tb k _ <-. destruct (update_balance_succeeds m now id tb) as [t' Ht]; [done..|].
    eexists _, _. cbn [sql_exec tables]. by rewrite Ht. }
  assert (Hrun : pg_run (Store.UpdateBalance id m) w = (Ok tt, w')).
  { unfold Store.UpdateBalance. rewrite pg_run_bind.
    cbn [time_Now PgM_Runtime PgM_Now pg_run]. fold now. by rewrite pg_run_bind, Hr. }
  exists w'. split; [done |]. pose proof Hrun as Hrun'.
  apply (store_update (HB:=PgM_BlockSpec env) _ _ C (abs tb)) in Hrun' as (Ho'&_&_); [|done | apply Hl].
  simpl in Hl'. rewrite app_nil_r in Hl'.
  cbn [sql_exec tables] in Hx. unfold upd_tables in Hx.
  destruct (update_balance _ _ _ _); [|done]. injection Hx as <-. by eapply live_open.
Qed.

Lemma insert_transaction_succeeds cx t tb :
  (abs tb).(txns) !! t.(txn_ID) = None → key_fresh t.(txn_IdempotencyKey) (abs tb) →
  not_reversed t.(txn_ReversesTransactionID) (abs tb) →
  (∀ o, t.(txn_ReversesTransactionID) = Some o → is_Some ((abs tb).(txns) !! o)) →
  ∃ tb', insert_transaction cx t.(txn_ID) t.(txn_Kind) t.(txn_IdempotencyKey)
           t.(txn_ReversesTransactionID) tb = Ok tb'.
Proof.
  intros Hid Hk Hr Hfk. unfold insert_transaction.
  rewrite (proj2 (violated_uniques_nil _ _ _ _)) by done.
  destruct (txn_ReversesTransactionID t) as [o|]; [|by eexists].
  destruct (proj1 (abs_txns_is_Some _ _) (Hfk o eq_refl)) as [y Hy].
  rewrite bool_decide_true; [by eexists |]. simpl. apply is_Some_insert. by eexists.
Qed.

(** The two insertions send the same statement. *)
Lemma live_insert rev t C L p s w :
  L.(txns) !! t.(txn_ID) = None → key_fresh t.(txn_IdempotencyKey) L →
  not_reversed t.(txn_ReversesTransactionID) L →
  (∀ o, t.(txn_ReversesTransactionID) = Some o → is_Some (L.(txns) !! o)) →
  live C L p s w →
  ∃ w', pg_run (if rev : bool then Store.InsertReversalTransaction t else Store.InsertTransaction t) w
        = (Ok tt, w') ∧ live C (add_txn t.(txn_ID) (txn_of t) L) p s w'.
Proof.
  intros Hid Hk Hr Hfk Hl.
  destruct (live_exec (InsertTransactionRow t.(txn_ID) t.(txn_Kind) t.(txn_IdempotencyKey)
                         t.(txn_ReversesTransactionID)) C L p s w)
    as ([]&w'&db'&L'&Hrun&Hl'&->&cx&tb&k&<-&Hx); [done | |].
  { intros cx tb k _ <-. destruct (insert_transaction_succeeds cx t tb) as [t' Ht]; [done..|].
    eexists _, _. cbn [sql_exec tables]. by rewrite Ht. }
  exists w'. split.
  { destruct rev; [unfold Store.InsertReversalTransaction | unfold Store.InsertTransaction];
      by rewrite pg_run_bind, Hrun. }
  apply (insert_row_spec (HB:=PgM_BlockSpec env) _ C (abs tb)) in Hrun as (Ho'&_); [|apply Hl].
  simpl in Hl'. rewrite app_nil_r in Hl'. cbn [sql_exec tables] in Hx. unfold upd_tables in Hx.
  destruct (insert_transaction _ _ _ _ _ _); [|done]. injection Hx as <-. by eapply live_open.
Qed.

Lemma insert_entry_succeeds e now s m tb :
  Money.scaled e.(ent_Amount) → 0 < Money.units e.(ent_Amount) < numeric_limit →
  db_ok (MkDB tb s m) →
  is_Some ((abs tb).(txns) !! e.(ent_TransactionID)) → is_Some ((abs tb).(accts) !! e.(ent_AccountID)) →
  ∃ tb', insert_entry (s + 1) e.(ent_TransactionID) e.(ent_AccountID) e.(ent_Direction)
           (Decimal.Value (Money.Decimal e.(ent_Amount))) now tb = Ok tb'.
Proof.
  intros Hsc Hu Hok Ht Ha. unfold insert_entry. rewrite numeric_in_proper by (by left).
  unfold stored_as, in_range. rewrite (proj2 (Z.ltb_lt _ numeric_limit)) by lia.
  rewrite (proj2 (Z.ltb_lt 0 _)) by lia. simpl.
  replace (existsb _ _) with false.
  2:{ symmetry. apply not_true_iff_false. intros (r&Hin&Heq)%existsb_exists.
      apply Z.eqb_eq in Heq. apply list_elem_of_In in Hin.
      pose proof (ok_seq _ Hok r Hin). simpl in *. lia. }
  rewrite bool_decide_true by (by apply abs_txns_is_Some). simpl.
  rewrite abs_accts, fmap_is_Some in Ha. rewrite bool_decide_true by done. by eexists.
Qed.

(** What an entry needs of the ledger. *)
Definition recordable (L : ledger) (e : Entry) : Prop :=
  Money.scaled e.(ent_Amount) ∧ 0 < Money.units e.(ent_Amount) < numeric_limit ∧
  is_Some (L.(txns) !! e.(ent_TransactionID)) ∧ is_Some (L.(accts) !! e.(ent_AccountID)).

Lemma recordable_add_leg id l L e : recordable L e → recordable (add_leg id l L) e.
Proof.
  intros (?&[??]&?&?). split_and!; [done.. | | done]. unfold add_leg; cbn [txns].
  rewrite lookup_alter. case_decide; subst; [by apply fmap_is_Some | done].
Qed.

Lemma live_insert_each es C L p s w :
  Forall (recordable L) es → s + Z.of_nat (length es) <= max_bigint → live C L p s w →
  ∃ w', pg_run (Store.insert_each es) w = (Ok tt, w') ∧
    live C (add_legs es L) (p ++ (ent_TransactionID <$> es)) (s + Z.of_nat (length es)) w'.
Proof.
  revert L p s w. induction es as [|e es IH]; intros L p s w Hes Hs Hl.
  { exists w. simpl. rewrite app_nil_r, Z.add_0_r. done. }
  inversion_clear Hes as [|? ? He Hes']. destruct He as (Hsc&Hu&Ht&Ha). simpl length in Hs.
  assert (Hn : nextval s = Ok (s + 1)) by (unfold nextval; by rewrite (proj2 (Z.ltb_lt _ _)) by lia).
  destruct (live_exec (InsertEntryRow e.(ent_TransactionID) e.(ent_AccountID) e.(ent_Direction)
              (Decimal.Value (Money.Decimal e.(ent_Amount)))) C L p s w)
    as ([]&w1&db'&L'&Hrun&Hl'&->&cx&tb&k&HL&Hx); [done | |].
  { intros cx tb k Hok <-. destruct (insert_entry_succeeds e cx.(cx_now) s k tb) as [t' Ht']; [done..|].
    eexists _, _. cbn [sql_exec tables entries_seq]. by rewrite Hn, Ht'. }
  cbn [sql_exec tables entries_seq] in Hx. rewrite Hn in Hx. unfold upd_tables in Hx.
  destruct (insert_entry _ _ _ _ _ _ _) as [t'|] eqn:Hi; [|done]. injection Hx as <-.
  apply insert_entry_ok in Hi as (amt&Hamt&_&_&_&->). rewrite numeric_in_proper in Hamt by (by left).
  unfold stored_as in Hamt. destruct (in_range _); [|done]. injection Hamt as <-.
  cbn [tables entries_seq trigger_events] in Hl'. rewrite abs_add_leg, HL in Hl'.
  assert (Hs' : s + 1 + Z.of_nat (length es) <= max_bigint) by lia.
  destruct (IH _ _ _ _ (Forall_impl _ _ _ Hes' (λ e', recordable_add_leg _ _ L e')) Hs' Hl')
    as (w'&Hrun'&Hl'').
  exists w'. cbn [Store.insert_each]. rewrite pg_run_bind, Hrun. split; [done |].
  rewrite <-app_assoc in Hl''. simpl length. rewrite Nat2Z.inj_succ, fmap_cons.
  by replace (s + Z.succ (Z.of_nat (length es))) with (s + 1 + Z.of_nat (length es)) by lia.
Qed.

Lemma live_insert_entries es C L p s w :
  Forall (recordable L) es → s + Z.of_nat (length es) <= max_bigint → live C L p s w →
  ∃ w', pg_run (Store.InsertEntries es) w = (Ok tt, w') ∧
    live C (add_legs es L) (p ++ (ent_TransactionID <$> es)) (s + Z.of_nat (length es)) w'.
Proof.
  intros Hes Hs Hl. unfold Store.InsertEntries.
  replace (forallb _ es) with true; [by apply live_insert_each |]. symmetry.
  apply forallb_forall. intros e He%list_elem_of_In.
  rewrite Forall_forall in Hes. destruct (Hes e He) as (Hsc&Hu&_).
  rewrite Money.proper_IsPositive by (by left). apply Z.ltb_lt. lia.
Qed.

(** ** The bodies *)

(** The insertion a body uses. *)
Definition inserter (rev : bool) : Transaction → PgM (result error unit) := λ t,
  if rev then Service.InsertReversalTransaction t else Service.InsertTransaction t.

(** What a request needs beyond [can_move] for its rows to be inserted. *)
Definition refers (rq : request) (L : ledger) : Prop :=
  ∀ o, rq.(rq_reverses) = Some o → is_Some (L.(txns) !! o).

Lemma rq_entries_recordable rq id L :
  0 < rq.(rq_units) < numeric_limit → is_Some (L.(txns) !! id) →
  is_Some (L.(accts) !! rq.(rq_from)) → is_Some (L.(accts) !! rq.(rq_to)) →
  Forall (recordable L) (rq_entries rq id).
Proof. intros [??] ???. apply Forall_cons; split; [|apply Forall_singleton]; by split_and!. Qed.

Lemma live_writes rev rq id x y C L p s w :
  rq.(rq_from) ≠ rq.(rq_to) → can_move rq id L → refers rq L →
  L.(accts) !! rq.(rq_from) = Some x → L.(accts) !! rq.(rq_to) = Some y →
  s + 2 <= max_bigint → live C L p s w →
  ∃ w', pg_run (writes rq id (inserter rev) x.(a_units) y.(a_units)) w
        = (Ok (rq_txn rq id, rq_entries rq id), w') ∧
    live C (move rq id L) (p ++ [id; id]) (s + 2) w'.
Proof.
  intros Hne [Hu (x'&Hx'&Hf&Hfl) (y'&Hy'&Ht&Htl) Hid Hk Hrev] Hfk Hx Hy Hs Hl.
  assert (x' = x) as -> by congruence. assert (y' = y) as -> by congruence.
  set (mf := Money.of_units (x.(a_units) - rq.(rq_units))).
  set (mt := Money.of_units (y.(a_units) + rq.(rq_units))).
  destruct (live_update rq.(rq_from) mf C L p s w) as (w1&H1&L1); [done | done | | done |].
  { intros z Hz. simplify_eq. unfold mf. rewrite Money.units_of_units. destruct Hf; [by left | right; lia]. }
  edestruct (live_update rq.(rq_to) mt) as (w2&H2&L2); [done | exact Htl | | exact L1 |].
  { intros z. simpl. rewrite lookup_alter_ne by done. intros Hz. by simplify_eq. }
  edestruct (live_insert rev (rq_txn rq id)) as (w3&H3&L3); [| | | | exact L2 |]; [done..|].
  edestruct (live_insert_entries (rq_entries rq id)) as (w4&H4&L4); [| | exact L3 |].
  { apply rq_entries_recordable; [done | | |]; simpl;
      [by rewrite lookup_insert, decide_True by done; eexists | |];
      rewrite !lookup_alter; repeat case_decide; rewrite ?fmap_is_Some; by eexists. }
  { done. }
  exists w4. split; [|by rewrite <-(build_move rq id L x y)].
  assert (H3' : pg_run (inserter rev (rq_txn rq id)) w2 = (Ok tt, w3)) by (by destruct rev).
  unfold writes. pg_next H1. pg_next H2. pg_next H3'. by pg_next H4.
Qed.

(** Both rows of a pair that exists, locked and told apart. *)
Lemma live_lock_pair a b x y C L p s w :
  a ≠ b → L.(accts) !! a = Some x → L.(accts) !! b = Some y → live C L p s w →
  ∃ accs A B w', pg_run (Store.LockAccountsForUpdate [a; b]) w = (Ok accs, w') ∧
    length accs = 2%nat ∧ Service.pick_accounts a b accs = (A, B) ∧
    acc_Balance A = Money.of_units x.(a_units) ∧ acc_Balance B = Money.of_units y.(a_units) ∧
    live C L p s w'.
Proof.
  intros Hne Hx Hy Hl.
  destruct (live_lock [a; b] C L p s w) as (accs&w'&Hr&Hl'); [|done|].
  { apply NoDup_cons. split; [by rewrite list_elem_of_singleton | apply NoDup_singleton]. }
  pose proof (lock_pair_spec (HT:=Store_TxSpec (HB:=PgM_BlockSpec env)) a b C L w (Ok accs) w' Hne (proj1 Hl) Hr) as [_ Hp].
  destruct (Nat.eqb_spec (length accs) 2); [|by destruct Hp; congruence].
  destruct Hp as (A&B&x'&y'&Hpk&Hx'&HA&Hy'&HB). simplify_eq. by exists accs, A, B, w'.
Qed.

(** A body that runs to its end from [L]. *)
Definition completes (rq : request) (id : UUID) (f : PgM reply) : Prop :=
  ∀ C L s w, can_move rq id L → refers rq L → s + 2 <= max_bigint →
    (rq.(rq_from) = ExternalAccountID ∨
     ∀ x, L.(accts) !! rq.(rq_from) = Some x → rq.(rq_units) <= x.(a_units)) →
    live C L [] s w →
    ∃ w', pg_run f w = (Ok (rq_txn rq id, rq_entries rq id), w') ∧
      live C (move rq id L) [id; id] (s + 2) w'.

Lemma transfer_completes rq id :
  rq.(rq_from) ≠ rq.(rq_to) → rq.(rq_from) ≠ ExternalAccountID →
  completes rq id (Service.transfer_tx rq.(rq_from) rq.(rq_to) (Money.of_units rq.(rq_units)) (rq_txn rq id)).
Proof.
  intros Hne Hext C L s w Hc Hfk Hs [?|Hfu] Hl; [done |].
  destruct (cm_from _ _ _ Hc) as (x&Hx&_), (cm_to _ _ _ Hc) as (y&Hy&_).
  destruct (live_lock_pair _ _ x y C L [] s w Hne Hx Hy Hl) as (accs&A&B&w1&Hr&Hlen&Hpk&HA&HB&Hl1).
  destruct (live_writes false rq id x y C L [] s w1) as (w'&Hw&Hl'); [done..|].
  exists w'. split; [|done]. unfold Service.transfer_tx. pg_next Hr.
  rewrite Hlen, Hpk, HA, HB, Money.LessThan_of_units, Money.Sub_of_units, Money.Add_of_units.
  specialize (Hfu x Hx). rewrite (proj2 (Z.ltb_ge _ _)) by done. exact Hw.
Qed.

Lemma deposit_completes rq id :
  rq.(rq_from) = ExternalAccountID → rq.(rq_from) ≠ rq.(rq_to) →
  completes rq id (Service.deposit_tx rq.(rq_to) (Money.of_units rq.(rq_units)) (rq_txn rq id)).
Proof.
  intros Hext Hne C L s w Hc Hfk Hs _ Hl.
  destruct (cm_from _ _ _ Hc) as (x&Hx&_), (cm_to _ _ _ Hc) as (y&Hy&_).
  destruct (live_lock_pair _ _ x y C L [] s w Hne Hx Hy Hl) as (accs&A&B&w1&Hr&Hlen&Hpk&HA&HB&Hl1).
  destruct (live_writes false rq id x y C L [] s w1) as (w'&Hw&Hl'); [done..|].
  exists w'. split; [|done]. unfold Service.deposit_tx. rewrite <-Hext. pg_next Hr.
  rewrite Hlen, Hpk, HA, HB, Money.Sub_of_units, Money.Add_of_units. exact Hw.
Qed.

Lemma reverse_completes rq id :
  rq.(rq_from) ≠ rq.(rq_to) → rq.(rq_from) ≠ ExternalAccountID →
  completes rq id (Service.reverse_tx rq.(rq_to) rq.(rq_from) (Money.of_units rq.(rq_units)) (rq_txn rq id)).
Proof.
  intros Hne Hext C L s w Hc Hfk Hs [?|Hfu] Hl; [done |].
  destruct (cm_from _ _ _ Hc) as (x&Hx&_), (cm_to _ _ _ Hc) as (y&Hy&_).
  destruct (live_lock_pair _ _ y x C L [] s w (not_eq_sym Hne) Hy Hx Hl)
    as (accs&A&B&w1&Hr&Hlen&Hpk&HA&HB&Hl1).
  destruct (live_writes true rq id x y C L [] s w1) as (w'&Hw&Hl'); [done..|].
  exists w'. split; [|done]. unfold Service.reverse_tx. pg_next Hr.
  rewrite Hlen, Hpk, HA, HB, Money.LessThan_of_units, Money.Sub_of_units, Money.Add_of_units.
  specialize (Hfu x Hx). rewrite (proj2 (Z.ltb_ge _ _)) by done. exact Hw.
Qed.

(** ** Commit, audit, reply *)

(** Room in the two sequences. *)
Definition has_room (w : World) : Prop :=
  w.(w_db).(entries_seq) + 2 <= max_bigint ∧ w.(w_db).(audit_seq) < max_bigint.

Lemma live_commit C L p s w :
  live C L p s w → balanced_ids p L →
  ∃ w', pg_run tx_Commit w = (Ok tt, w') ∧ w'.(w_tx) = None ∧ db_ok w'.(w_db) ∧
    pg_committed w' = L ∧ w'.(w_db).(audit_seq) < max_bigint.
Proof.
  intros [Ho (tx&Htx&Hab&<-&<-&Hm)] Hp. pose proof (pg_open_tx _ _ _ _ Ho Htx) as ->.
  eexists. split.
  - unfold pg_run, tx_Commit, PgM_Pgx, PgM_Commit. rewrite Htx, Hab, calm_fault.
    by rewrite (triggers_pass_balanced _ _ Hp).
  - split_and!; [done | by apply (wo_tx w (proj1 Ho)) | done | done].
Qed.

Lemma live_begin w :
  pg_idle w → w.(w_db).(audit_seq) < max_bigint →
  ∃ w1, pg_run pool_BeginTx w = (Ok tt, w1) ∧
    live (pg_committed w) (pg_committed w) [] w.(w_db).(entries_seq) w1.
Proof.
  intros Hw Hm.
  exists (MkWorld w.(w_db) (Some (MkTx w.(w_db) (env_now env w.(w_tick)) false [])) (S w.(w_tick)) w.(w_log)). split.
  - unfold pg_run, pool_BeginTx, PgM_Pgx, PgM_BeginTx, refreshed. by rewrite calm_fault, calm_others.
  - split; [|by eexists]. split_and!; [split; [apply Hw |] | done | done].
    intros tx [= <-]. simpl. split; [apply Hw | lia].
Qed.

Lemma calm_WithTx rq id f w :
  completes rq id f → pg_idle w → has_room w → can_move rq id (pg_committed w) →
  refers rq (pg_committed w) →
  (rq.(rq_from) = ExternalAccountID ∨
   ∀ x, (pg_committed w).(accts) !! rq.(rq_from) = Some x → rq.(rq_units) <= x.(a_units)) →
  ∃ w', pg_run (Store.WithTx f) w = (Ok (rq_txn rq id, rq_entries rq id), w') ∧ w'.(w_tx) = None ∧
    db_ok w'.(w_db) ∧ pg_committed w' = move rq id (pg_committed w) ∧ w'.(w_db).(audit_seq) < max_bigint.
Proof.
  intros Hf Hw [Hs Hm] Hc Hfk Hfu.
  destruct (live_begin w Hw Hm) as (w1&Hbegin&Hlive).
  destruct (Hf _ _ _ _ Hc Hfk Hs Hfu Hlive) as (w2&Hrun&Hl2).
  destruct (live_commit _ _ _ _ _ Hl2 (move_balanced rq id _)) as (w3&Hcom&Htx3&Hok3&HL3&Hm3).
  exists w3. split; [|done]. unfold Store.WithTx. pg_next Hbegin. pg_next Hrun. pg_next Hcom.
  assert (Hroll : pg_run tx_Rollback w3 = (tt, w3)).
  { unfold pg_run, tx_Rollback, PgM_Pgx, PgM_Rollback. by rewrite Htx3. }
  by pg_next Hroll.
Qed.

(** An audit row whose amount fits the column is written. *)
Lemma calm_audit e w :
  (∀ m, e.(aud_Amount) = Some m → Money.proper m ∧ Z.abs (Money.units m) < numeric_limit) →
  pg_idle w → w.(w_db).(audit_seq) < max_bigint →
  ∃ w', pg_run (Store.WriteAudit e) w = (Ok tt, w') ∧ pg_idle w' ∧
    pg_committed w' = add_audit (audit_of e) (pg_committed w) ∧ w'.(w_tick) = S w.(w_tick) ∧
    w'.(w_db).(entries_seq) = w.(w_db).(entries_seq) ∧
    w'.(w_db).(audit_seq) = w.(w_db).(audit_seq) + 1.
Proof.
  intros Hm Hw Hs.
  assert (∃ tb, autocommit env w.(w_tick) (audit_stmt e) w.(w_db)
                = (Ok tt, MkDB tb w.(w_db).(entries_seq) (w.(w_db).(audit_seq) + 1))) as [tb Ha].
  { unfold autocommit. simpl. unfold nextval. rewrite (proj2 (Z.ltb_lt _ _)) by done.
    unfold insert_audit. destruct (aud_Amount e) as [m|]; simpl; [|by eexists].
    destruct (Hm m eq_refl). rewrite numeric_in_proper by done. unfold stored_as, in_range.
    rewrite (proj2 (Z.ltb_lt _ _)) by done. by eexists. }
  eexists. assert (Hrun : pg_run (Store.WriteAudit e) w = (Ok tt, MkWorld
    (MkDB tb w.(w_db).(entries_seq) (w.(w_db).(audit_seq) + 1)) w.(w_tx) (S w.(w_tick)) w.(w_log))).
  { unfold Store.WriteAudit. rewrite pg_run_bind, calm_pool. fold (audit_stmt e). by rewrite Ha. }
  split; [exact Hrun |].
  apply (pg_audit env) in Hrun as [Hw' _]; [| by intros m [??]%Hm | done].
  pose proof (audit_autocommit env e _ _ _ _ (λ m h, proj1 (Hm m h)) Ha) as HL. by split_and!.
Qed.

(** One whose amount does not fit is refused by the column. *)
Lemma calm_audit_oversized e m w :
  e.(aud_Amount) = Some m → Money.proper m → numeric_limit <= Z.abs (Money.units m) →
  pg_idle w → w.(w_db).(audit_seq) < max_bigint →
  ∃ err w', pg_run (Store.WriteAudit e) w = (Err err, w') ∧ pg_idle w' ∧ pg_committed w' = pg_committed w.
Proof.
  intros He Hm Hbig Hw Hs.
  assert (Ha : autocommit env w.(w_tick) (audit_stmt e) w.(w_db)
               = (Err numeric_overflow, MkDB w.(w_db).(tables) w.(w_db).(entries_seq) (w.(w_db).(audit_seq) + 1))).
  { unfold autocommit. simpl. unfold nextval. rewrite (proj2 (Z.ltb_lt _ _)) by done.
    unfold insert_audit. rewrite He. simpl. rewrite numeric_in_proper by done. unfold stored_as, in_range.
    by rewrite (proj2 (Z.ltb_ge _ _)). }
  eexists _, _. assert (Hrun : pg_run (Store.WriteAudit e) w = (Err (Wrapf "store.WriteAudit" numeric_overflow), MkWorld
    (MkDB w.(w_db).(tables) w.(w_db).(entries_seq) (w.(w_db).(audit_seq) + 1)) w.(w_tx) (S w.(w_tick)) w.(w_log))).
  { unfold Store.WriteAudit. rewrite pg_run_bind, calm_pool. fold (audit_stmt e). by rewrite Ha. }
  split_and!; [exact Hrun | | done].
  apply (pg_audit env) in Hrun as [Hw' _]; [done | | done]. by intros m' Hm'; simplify_eq.
Qed.

(** The ledger once a refusal is audited: an amount that the column cannot hold has
    no row. *)
Definition noted (units : Z) (u : audit) (L : ledger) : ledger :=
  if Z.abs units <? numeric_limit then add_audit u L else L.

Lemma calm_auditFailure op from to m requestID reason w :
  Money.proper m → pg_idle w → w.(w_db).(audit_seq) < max_bigint →
  ∃ w', pg_run (Service.auditFailure op from to (Some m) requestID reason) w = (tt, w') ∧ pg_idle w' ∧
    pg_committed w' = noted (Money.units m) (failure_row op from to (Some (Money.units m)) reason requestID)
                        (pg_committed w).
Proof.
  intros Hm Hw Hs. unfold noted. set (e := MkAuditEntry 0 op from to (Some m) OutcomeFailure (Some (Error reason)) None
              (Some requestID) zero_time).
  destruct (Z.ltb_spec (Z.abs (Money.units m)) numeric_limit) as [Hlim|Hlim].
  - destruct (calm_audit e w) as (w'&Hr&Hw'&HL&_); [by intros m' [= <-] | done..|].
    exists w'. split; [|done]. unfold Service.auditFailure. by pg_next Hr.
  - destruct (calm_audit_oversized e m w) as (err&w'&Hr&Hw'&HL); [done..|].
    eexists. split; [unfold Service.auditFailure; pg_next Hr; reflexivity |]. split; [|exact HL].
    apply pg_idle_intro; [apply Hw' | by apply (pg_idle_tx w') | apply Hw'].
Qed.

(** From [WithTx] to the reply, when the movement can be recorded. *)
Lemma calm_settle op rq id f w :
  completes rq id f → pg_idle w → has_room w → can_move rq id (pg_committed w) →
  stable_request rq (pg_committed w) → refers rq (pg_committed w) →
  (rq.(rq_from) = ExternalAccountID ∨
   ∀ x, (pg_committed w).(accts) !! rq.(rq_from) = Some x → rq.(rq_units) <= x.(a_units)) →
  ∃ w', pg_run (let! res := Service.WithTx f in
                Service.finish op (Some rq.(rq_from)) (Some rq.(rq_to))
                  (Some (Money.of_units rq.(rq_units))) rq.(rq_key) rq.(rq_request) id res) w
        = (Ok (rq_txn rq id, rq_entries rq id), w') ∧ pg_idle w' ∧
    pg_committed w' = add_audit (success_row op rq id) (move rq id (pg_committed w)).
Proof.
  intros Hf Hw Hroom Hc Hst Hfk Hfu.
  destruct (calm_WithTx rq id f w) as (w1&Hr1&Htx1&Hok1&HL1&Hm1); [done..|].
  assert (Hw1 : pg_idle w1).
  { apply pg_idle_intro; [done | done |]. rewrite HL1. apply move_inv; [apply Hw | done | by apply Hst]. }
  destruct (calm_audit (MkAuditEntry 0 op (Some rq.(rq_from)) (Some rq.(rq_to))
    (Some (Money.of_units rq.(rq_units))) OutcomeSuccess None (Some id) (Some rq.(rq_request)) zero_time) w1)
    as (w2&Hr2&Hw2&HL2&_); [|done..|].
  { intros m [= <-]. split; [by left |]. rewrite Money.units_of_units. destruct (cm_units _ _ _ Hc). lia. }
  exists w2. split_and!; [|done | by rewrite HL2, HL1].
  pg_next Hr1. unfold Service.finish, Service.auditSuccess. rewrite pg_run_bind. by pg_next Hr2.
Qed.

(** ** The operations *)

Lemma calm_NewV7 w id :
  env_uuid env w.(w_tick) = Some id → pg_run uuid_NewV7 w = (Ok id, ticked w).
Proof. intros Hid. cbv [pg_run uuid_NewV7 PgM_Runtime PgM_NewV7]. by rewrite Hid. Qed.

Lemma calm_Transfer srcID dstID amount idemKey requestID id w :
  let rq := transfer_rq srcID dstID amount idemKey requestID in
  Money.proper amount → srcID ≠ dstID → srcID ≠ ExternalAccountID → dstID ≠ ExternalAccountID →
  env_uuid env (S w.(w_tick)) = Some id → pg_idle w → has_room w →
  can_move rq id (pg_committed w) → Money.units amount <= units_of srcID (pg_committed w) →
  ∃ w', pg_run (Service.Transfer srcID dstID amount idemKey requestID) w
        = (Ok (rq_txn rq id, rq_entries rq id), w') ∧ pg_idle w' ∧
    pg_committed w' = add_audit (success_row "TRANSFER" rq id) (move rq id (pg_committed w)).
Proof.
  intros rq Hp Hne Hs Hd Hid Hw Hroom Hc Hfu.
  assert (Hpos : Money.IsPositive amount = true).
  { rewrite Money.proper_IsPositive by done. by apply Z.ltb_lt, (cm_units _ _ _ Hc). }
  destruct (calm_settle "TRANSFER" rq id
              (Service.transfer_tx srcID dstID (Money.of_units rq.(rq_units)) (rq_txn rq id))
              (ticked (ticked w))) as (w'&Hr&Hw'&HL).
  - by apply (transfer_completes rq id).
  - by do 2 apply ticked_idle.
  - done.
  - done.
  - by apply transfer_stable.
  - by intros o.
  - right. intros x Hx. rewrite <-(units_of_lookup _ _ _ Hx). exact Hfu.
  - exists w'. split; [|done]. unfold Service.Transfer. rewrite Hpos. simpl negb. cbv iota.
    rewrite decide_False by done. rewrite decide_False by tauto.
    pg_next (calm_get_key_fresh idemKey w (cm_key _ _ _ Hc)). pg_next (calm_NewV7 (ticked w) id Hid).
    assert (Hsc : Money.scaled amount) by by apply Money.proper_positive.
    rewrite (Money.scaled_of_units amount Hsc). exact Hr.
Qed.

Lemma calm_Deposit dstID amount idemKey requestID id w :
  let rq := deposit_rq dstID amount idemKey requestID in
  Money.proper amount → dstID ≠ ExternalAccountID →
  env_uuid env (S w.(w_tick)) = Some id → pg_idle w → has_room w →
  can_move rq id (pg_committed w) →
  ∃ w', pg_run (Service.Deposit dstID amount idemKey requestID) w
        = (Ok (rq_txn rq id, rq_entries rq id), w') ∧ pg_idle w' ∧
    pg_committed w' = add_audit (success_row "DEPOSIT" rq id) (move rq id (pg_committed w)).
Proof.
  intros rq Hp Hd Hid Hw Hroom Hc.
  assert (Hpos : Money.IsPositive amount = true).
  { rewrite Money.proper_IsPositive by done. by apply Z.ltb_lt, (cm_units _ _ _ Hc). }
  destruct (calm_settle "DEPOSIT" rq id
              (Service.deposit_tx dstID (Money.of_units rq.(rq_units)) (rq_txn rq id))
              (ticked (ticked w))) as (w'&Hr&Hw'&HL).
  - by apply (deposit_completes rq id).
  - by do 2 apply ticked_idle.
  - done.
  - done.
  - by apply deposit_stable.
  - by intros o.
  - by left.
  - exists w'. split; [|done]. unfold Service.Deposit. rewrite Hpos. simpl negb. cbv iota.
    rewrite decide_False by done.
    pg_next (calm_get_key_fresh idemKey w (cm_key _ _ _ Hc)). pg_next (calm_NewV7 (ticked w) id Hid).
    assert (Hsc : Money.scaled amount) by by apply Money.proper_positive.
    rewrite (Money.scaled_of_units amount Hsc). exact Hr.
Qed.

(** [Reverse] up to its transaction, for a recorded transfer. *)
Lemma calm_Reverse_start orig a b u idemKey requestID id w r w' :
  transfer_of orig a b u (pg_committed w) → key_fresh idemKey (pg_committed w) →
  env_uuid env (3 + w.(w_tick)) = Some id → pg_idle w →
  let rq := reverse_rq orig a b u idemKey requestID in
  pg_run (let! res := Service.WithTx (Service.reverse_tx a b (Money.of_units u) (rq_txn rq id)) in
          Service.finish "REVERSAL" (Some b) (Some a) (Some (Money.of_units u)) idemKey requestID id res)
    (ticked (ticked (ticked (ticked w)))) = (r, w') →
  pg_run (Service.Reverse orig idemKey requestID) w = (r, w').
Proof.
  intros (x&Hx&Hk&Hl) Hf Hid Hw rq Hr. unfold Service.Reverse.
  pg_next (calm_get_key_fresh idemKey w Hf).
  destruct (calm_get orig x (ticked w) (ticked_idle _ Hw) Hx) as (t&es&Hg&(y&Hy&Hkind&_&_&_&Hes)&Hid').
  rewrite Hid' in Hy, Hes. assert (y = x) as -> by (unfold pg_committed in *; simpl in *; congruence).
  pg_next Hg. rewrite Hkind, Hk, bool_decide_true by done. simpl negb. cbv iota.
  rewrite Hl in Hes. rewrite (scan_legs_transfer _ _ _ _ _ Hes).
  pg_next (calm_NewV7 (ticked (ticked (ticked w))) id Hid). exact Hr.
Qed.

Lemma calm_Reverse orig a b u idemKey requestID id w :
  let rq := reverse_rq orig a b u idemKey requestID in
  transfer_of orig a b u (pg_committed w) → a ≠ b → b ≠ ExternalAccountID →
  env_uuid env (3 + w.(w_tick)) = Some id → pg_idle w → has_room w →
  can_move rq id (pg_committed w) → u <= units_of b (pg_committed w) →
  ∃ w', pg_run (Service.Reverse orig idemKey requestID) w
        = (Ok (rq_txn rq id, rq_entries rq id), w') ∧ pg_idle w' ∧
    pg_committed w' = add_audit (success_row "REVERSAL" rq id) (move rq id (pg_committed w)).
Proof.
  intros rq Ht Hne Hb Hid Hw Hroom Hc Hfu.
  destruct (calm_settle "REVERSAL" rq id
              (Service.reverse_tx a b (Money.of_units u) (rq_txn rq id))
              (ticked (ticked (ticked (ticked w))))) as (w'&Hr&Hw'&HL).
  - by apply (reverse_completes rq id).
  - by do 4 apply ticked_idle.
  - done.
  - done.
  - by apply reverse_stable.
  - intros o [= <-]. destruct Ht as (x&Hx&_). by exists x.
  - right. intros x Hx. rewrite <-(units_of_lookup _ _ _ Hx). exact Hfu.
  - exists w'. split; [|done]. by eapply calm_Reverse_start; [| apply Hc | ..].
Qed.

(** ** Refusals *)

(** A body that has stopped with an error. *)
Definition stopped (C : ledger) (w : World) : Prop :=
  ∃ L tx, pg_open C L w ∧ w.(w_tx) = Some tx ∧ tx.(tx_db).(audit_seq) < max_bigint.

Lemma live_stopped C L p s w : live C L p s w → stopped C w.
Proof. intros [Ho (tx&Htx&_&_&_&Hm)]. by exists L, tx. Qed.

Definition refuses (L : ledger) (e : error) (f : PgM reply) : Prop :=
  ∀ C s w, live C L [] s w → ∃ w', pg_run f w = (Err e, w') ∧ stopped C w'.

(** A refused body rolls back; its error is audited and returned. *)
Lemma calm_refused op rq id f e w :
  refuses (pg_committed w) e f → e ≠ ErrIdempotencyConflict → pg_idle w → has_room w →
  ∃ w', pg_run (let! res := Service.WithTx f in
                Service.finish op (Some rq.(rq_from)) (Some rq.(rq_to))
                  (Some (Money.of_units rq.(rq_units))) rq.(rq_key) rq.(rq_request) id res) w
        = (Err e, w') ∧ pg_idle w' ∧
    pg_committed w' = noted rq.(rq_units) (failure_row op (Some rq.(rq_from)) (Some rq.(rq_to))
                                             (Some rq.(rq_units)) e rq.(rq_request)) (pg_committed w).
Proof.
  intros Hf He Hw [Hs Hm].
  destruct (live_begin w Hw Hm) as (w1&Hbegin&Hlive).
  destruct (Hf _ _ _ Hlive) as (w2&Hrun&L2&tx&Ho2&Htx2&Hm2).
  destruct (pg_run tx_Rollback w2) as [[] w3] eqn:Hroll.
  assert (Hm3 : w3.(w_db).(audit_seq) < max_bigint).
  { pose proof Hroll as Hr3. unfold pg_run, tx_Rollback, PgM_Pgx, PgM_Rollback in Hr3.
    rewrite Htx2 in Hr3. by injection Hr3 as <-. }
  destruct (Rollback_spec env _ _ _ _ _ (proj2 (proj2 Hw)) Ho2 Hroll) as [Hw3 HC3].
  destruct (calm_auditFailure op (Some rq.(rq_from)) (Some rq.(rq_to))
    (Money.of_units rq.(rq_units)) rq.(rq_request) e w3) as (w4&Haud&Hw4&HL4); [by left | done..|].
  exists w4. split_and!; [|done | by rewrite HL4, HC3, Money.units_of_units].
  assert (Htxn : pg_run (Store.WithTx f) w = (Err e, w3)).
  { unfold Store.WithTx. pg_next Hbegin. pg_next Hrun. by pg_next Hroll. }
  pg_next Htxn. unfold Service.finish. rewrite bool_decide_false by done. by pg_next Haud.
Qed.

Lemma transfer_refuses_overdraft rq id L x y :
  rq.(rq_from) ≠ rq.(rq_to) →
  L.(accts) !! rq.(rq_from) = Some x → L.(accts) !! rq.(rq_to) = Some y → x.(a_units) < rq.(rq_units) →
  refuses L ErrInsufficientFunds
    (Service.transfer_tx rq.(rq_from) rq.(rq_to) (Money.of_units rq.(rq_units)) (rq_txn rq id)).
Proof.
  intros Hne Hx Hy Hlt C s w Hl.
  destruct (live_lock_pair _ _ x y C L [] s w Hne Hx Hy Hl) as (accs&A&B&w1&Hr&Hlen&Hpk&HA&HB&Hl1).
  exists w1. split; [|by eapply live_stopped]. unfold Service.transfer_tx. pg_next Hr.
  rewrite Hlen, Hpk, HA, HB, Money.LessThan_of_units. by rewrite (proj2 (Z.ltb_lt _ _)).
Qed.

(** A reversal whose row violates only the uniqueness of the reference. *)
Lemma insert_reversal_refused t C L p s w :
  live C L p s w → L.(txns) !! t.(txn_ID) = None → key_fresh t.(txn_IdempotencyKey) L →
  ¬ not_reversed t.(txn_ReversesTransactionID) L →
  ∃ w', pg_run (Store.InsertReversalTransaction t) w = (Err ErrAlreadyReversed, w') ∧ stopped C w'.
Proof.
  intros [Ho (tx&Htx&Hab&_&_&Hm)] Hid Hk Hrev. pose proof (pg_open_tx _ _ _ _ Ho Htx) as HL.
  rewrite HL in Hid, Hk, Hrev. rewrite <-key_used_false in Hk. rewrite <-reversal_used_false in Hrev.
  apply not_false_is_true in Hrev.
  assert (Hrun : pg_run (tx_exec (InsertTransactionRow t.(txn_ID) t.(txn_Kind) t.(txn_IdempotencyKey)
      t.(txn_ReversesTransactionID))) w
    = (Err (unique_violation "transactions_reverses_transaction_id_key"
              "Key (reverses_transaction_id) already exists."),
       MkWorld w.(w_db) (Some (MkTx tx.(tx_db) tx.(tx_now) true tx.(tx_pending))) (S w.(w_tick)) w.(w_log))).
  { unfold pg_run, tx_exec, PgM_Pgx, PgM_tx_exec. rewrite Htx, Hab, calm_fault. simpl.
    unfold insert_transaction, violated_uniques. rewrite Hk, Hrev, bool_decide_false; [done |].
    rewrite <-abs_txns_is_Some, Hid. apply is_Some_None. }
  eexists. split.
  - unfold Store.InsertReversalTransaction. rewrite pg_run_bind, Hrun. done.
  - apply (block_exec_err (HB:=PgM_BlockSpec env) _ C L) in Hrun as [_ [L' Ho']]; [|done]. by exists L', (MkTx tx.(tx_db) tx.(tx_now) true tx.(tx_pending)).
Qed.

Lemma reverse_refuses_second rq id L x y :
  rq.(rq_from) ≠ rq.(rq_to) → 0 < rq.(rq_units) →
  L.(accts) !! rq.(rq_from) = Some x → L.(accts) !! rq.(rq_to) = Some y →
  rq.(rq_units) <= x.(a_units) < numeric_limit →
  - numeric_limit < y.(a_units) + rq.(rq_units) < numeric_limit →
  y.(a_system) = true ∨ 0 <= y.(a_units) + rq.(rq_units) →
  L.(txns) !! id = None → key_fresh rq.(rq_key) L → ¬ not_reversed rq.(rq_reverses) L →
  refuses L ErrAlreadyReversed
    (Service.reverse_tx rq.(rq_to) rq.(rq_from) (Money.of_units rq.(rq_units)) (rq_txn rq id)).
Proof.
  intros Hne Hu Hx Hy Hf Ht Hsys Hid Hk Hrev C s w Hl.
  destruct (live_lock_pair _ _ y x C L [] s w (not_eq_sym Hne) Hy Hx Hl)
    as (accs&A&B&w1&Hr&Hlen&Hpk&HA&HB&Hl1).
  set (mf := Money.of_units (x.(a_units) - rq.(rq_units))).
  set (mt := Money.of_units (y.(a_units) + rq.(rq_units))).
  edestruct (live_update rq.(rq_from) mf) as (w2&H2&L2); [done | | | exact Hl1 |].
  { unfold mf. rewrite Money.units_of_units. lia. }
  { intros z Hz. right. unfold mf. rewrite Money.units_of_units. lia. }
  edestruct (live_update rq.(rq_to) mt) as (w3&H3&L3); [done | | | exact L2 |].
  { unfold mt. rewrite Money.units_of_units. lia. }
  { intros z. simpl. rewrite lookup_alter_ne by done. intros Hz. by simplify_eq. }
  edestruct (insert_reversal_refused (rq_txn rq id)) as (w4&H4&Hst); [exact L3 | done.. |].
  exists w4. split; [|done]. unfold Service.reverse_tx. pg_next Hr.
  rewrite Hlen, Hpk, HA, HB, Money.LessThan_of_units, Money.Sub_of_units, Money.Add_of_units.
  rewrite (proj2 (Z.ltb_ge _ _)) by lia. simpl negb. cbv iota. pg_next H2. pg_next H3. by pg_next H4.
Qed.

(** The same body when the destination has spent the money, or when the source can
    hold no more: it stops before the row is inserted. *)
Lemma reverse_refuses_overdraft rq id L x y :
  rq.(rq_from) ≠ rq.(rq_to) →
  L.(accts) !! rq.(rq_from) = Some x → L.(accts) !! rq.(rq_to) = Some y → x.(a_units) < rq.(rq_units) →
  refuses L ErrInsufficientFunds
    (Service.reverse_tx rq.(rq_to) rq.(rq_from) (Money.of_units rq.(rq_units)) (rq_txn rq id)).
Proof.
  intros Hne Hx Hy Hlt C s w Hl.
  destruct (live_lock_pair _ _ y x C L [] s w (not_eq_sym Hne) Hy Hx Hl)
    as (accs&A&B&w1&Hr&Hlen&Hpk&HA&HB&Hl1).
  exists w1. split; [|by eapply live_stopped]. unfold Service.reverse_tx. pg_next Hr.
  rewrite Hlen, Hpk, HA, HB, Money.LessThan_of_units. by rewrite (proj2 (Z.ltb_lt _ _)).
Qed.

(** A balance too large for its column. *)
Definition balance_overflow : error := Wrapf "store.UpdateBalance" numeric_overflow.

Lemma update_overflow id m C L p s w :
  Money.scaled m → numeric_limit <= Z.abs (Money.units m) → live C L p s w →
  ∃ w', pg_run (Store.UpdateBalance id m) w = (Err balance_overflow, w') ∧ stopped C w'.
Proof.
  intros Hm Hlim [Ho (tx&Htx&Hab&_&_&Haud)].
  set (now := env_now env w.(w_tick)).
  assert (Hrun : pg_run (tx_exec (UpdateAccountBalance (Decimal.Value (Money.Decimal m)) now id)) w
    = (Err numeric_overflow,
       MkWorld w.(w_db) (Some (MkTx tx.(tx_db) tx.(tx_now) true tx.(tx_pending))) (S w.(w_tick)) w.(w_log))).
  { unfold pg_run, tx_exec, PgM_Pgx, PgM_tx_exec. rewrite Htx, Hab, calm_fault. cbn [sql_exec].
    unfold update_balance. rewrite numeric_in_proper by (by left). unfold stored_as, in_range.
    rewrite (proj2 (Z.ltb_ge _ _)) by done. by destruct (tx_db tx). }
  eexists. split.
  - unfold Store.UpdateBalance. rewrite pg_run_bind.
    cbn [time_Now PgM_Runtime PgM_Now pg_run]. fold now. by rewrite pg_run_bind, Hrun.
  - apply (block_exec_err (HB:=PgM_BlockSpec env) _ C L) in Hrun as [_ [L' Ho']]; [|done].
    by exists L', (MkTx tx.(tx_db) tx.(tx_now) true tx.(tx_pending)).
Qed.

Lemma reverse_refuses_overflow rq id L x y :
  rq.(rq_from) ≠ rq.(rq_to) → 0 < rq.(rq_units) →
  L.(accts) !! rq.(rq_from) = Some x → L.(accts) !! rq.(rq_to) = Some y →
  rq.(rq_units) <= x.(a_units) < numeric_limit → numeric_limit <= y.(a_units) + rq.(rq_units) →
  refuses L balance_overflow
    (Service.reverse_tx rq.(rq_to) rq.(rq_from) (Money.of_units rq.(rq_units)) (rq_txn rq id)).
Proof.
  intros Hne Hu Hx Hy Hf Ht C s w Hl.
  destruct (live_lock_pair _ _ y x C L [] s w (not_eq_sym Hne) Hy Hx Hl)
    as (accs&A&B&w1&Hr&Hlen&Hpk&HA&HB&Hl1).
  set (mf := Money.of_units (x.(a_units) - rq.(rq_units))).
  set (mt := Money.of_units (y.(a_units) + rq.(rq_units))).
  edestruct (live_update rq.(rq_from) mf) as (w2&H2&L2); [done | | | exact Hl1 |].
  { unfold mf. rewrite Money.units_of_units. lia. }
  { intros z Hz. right. unfold mf. rewrite Money.units_of_units. lia. }
  edestruct (update_overflow rq.(rq_to) mt) as (w3&H3&Hst); [done | | exact L2 |].
  { unfold mt. rewrite Money.units_of_units. lia. }
  exists w3. split; [|done]. unfold Service.reverse_tx. pg_next Hr.
  rewrite Hlen, Hpk, HA, HB, Money.LessThan_of_units, Money.Sub_of_units, Money.Add_of_units.
  rewrite (proj2 (Z.ltb_ge _ _)) by lia. simpl negb. cbv iota. pg_next H2. by pg_next H3.
Qed.

(** ** Rejections and replays *)

(** A rejected request leaves its audit row and nothing else. *)
Lemma calm_reject op from to m requestID e w :
  Money.proper m → pg_idle w → has_room w →
  ∃ w', pg_run (let! _ := Service.auditFailure op from to (Some m) requestID e in
                mret (Err e : reply)) w = (Err e, w') ∧ pg_idle w' ∧
    pg_committed w' = noted (Money.units m) (failure_row op from to (Some (Money.units m)) e requestID)
                        (pg_committed w).
Proof.
  intros Hm Hw [_ Hr].
  destruct (calm_auditFailure op from to m requestID e w) as (w'&Ha&Hw'&HL); [done..|].
  exists w'. split; [|done]. by pg_next Ha.
Qed.
End calm.
