(* ===== verification/Migrations.v ===== *)
(** * migrations/

    The seed migrations [0002] and [0003] as the statements they run on the
    schema of [Schema], and the ledger they leave: the one every deployment
    starts from. *)

From S2P Require Import Prelude GoStd Decimal Money Uuid Ledger Schema Pgx LedgerSpec LedgerFacts ServiceSpec Numeric SchemaFacts StoreBlocks StoreRefines.
From stdpp Require Import options.
Import Ledger Schema LedgerSpec.
Open Scope Z_scope.

Module Migrations.

(** [INSERT INTO accounts ... ON CONFLICT DO NOTHING]. *)
Definition seed_account (now : Time) (id : UUID) (name : string) (is_system : bool) (balance : string)
    (db : DB) : result error DB :=
  match db.(tables).(accounts) !! id with
  | Some _ => Ok db
  | None =>
      let^ bal := numeric_in balance in
      if balance_check is_system bal
      then Ok (MkDB (with_accounts db.(tables)
                       (<[id := AccountRow name bal is_system now now]> db.(tables).(accounts)))
                 db.(entries_seq) db.(audit_seq))
      else Err (check_violation "non_negative_user_balance")
  end.

(** [INSERT INTO transactions ... ON CONFLICT DO NOTHING]. *)
Definition seed_transaction (now : Time) (id : UUID) (kind : TransactionKind) (key : string)
    (db : DB) : result error DB :=
  match violated_uniques id key None db.(tables) with
  | _ :: _ => Ok db
  | [] => Ok (MkDB (with_transactions db.(tables)
                      (<[id := TransactionRow kind key None now]> db.(tables).(transactions)))
                db.(entries_seq) db.(audit_seq))
  end.

(** [INSERT INTO entries ... SELECT ... WHERE NOT EXISTS (...)]. *)
Definition seed_entry (now : Time) (txID accountID : UUID) (dir : Direction) (amount : string)
    (db : DB) : result error DB :=
  if existsb (λ e, bool_decide (e.(er_transaction_id) = txID ∧ e.(er_account_id) = accountID
                                ∧ e.(er_direction) = dir)) db.(tables).(entries)
  then Ok db
  else
    let^ n := nextval db.(entries_seq) in
    let^ t := insert_entry n txID accountID dir amount now db.(tables) in
    Ok (MkDB t n db.(audit_seq)).

(** The guarded [UPDATE accounts SET balance = -30000.0000]. *)
Definition seed_external_balance (now : Time) (db : DB) : result error DB :=
  if key_used "seed-deposit-alice-001" db.(tables) then Ok db
  else
    let^ t := update_balance "-30000.0000" now ExternalAccountID db.(tables) in
    Ok (MkDB t db.(entries_seq) db.(audit_seq)).

Definition Alice : UUID := Uuid.MustParse "00000000-0000-0000-0000-000000000002".
Definition Bob : UUID := Uuid.MustParse "00000000-0000-0000-0000-000000000003".
Definition Charlie : UUID := Uuid.MustParse "00000000-0000-0000-0000-000000000004".
Definition AliceDeposit : UUID := Uuid.MustParse "01900000-0000-7000-8000-000000000001".
Definition BobDeposit : UUID := Uuid.MustParse "01900000-0000-7000-8000-000000000002".
Definition CharlieDeposit : UUID := Uuid.MustParse "01900000-0000-7000-8000-000000000003".

(** [0002_seed_system_account.up.sql]. *)
Definition seed_system_account_up (now : Time) (db : DB) : result error DB :=
  seed_account now ExternalAccountID "EXTERNAL" true "0" db.

(** The statements of [0003_seed_demo_accounts.up.sql], in order. *)
Definition demo_statements (now : Time) : list (DB → result error DB) :=
  [seed_account now Alice "Alice" false "10000.0000";
   seed_account now Bob "Bob" false "10000.0000";
   seed_account now Charlie "Charlie" false "10000.0000";
   seed_external_balance now;
   seed_transaction now AliceDeposit KindDeposit "seed-deposit-alice-001";
   seed_transaction now BobDeposit KindDeposit "seed-deposit-bob-001";
   seed_transaction now CharlieDeposit KindDeposit "seed-deposit-charlie-001";
   seed_entry now AliceDeposit ExternalAccountID DirectionDebit "10000.0000";
   seed_entry now AliceDeposit Alice DirectionCredit "10000.0000";
   seed_entry now BobDeposit ExternalAccountID DirectionDebit "10000.0000";
   seed_entry now BobDeposit Bob DirectionCredit "10000.0000";
   seed_entry now CharlieDeposit ExternalAccountID DirectionDebit "10000.0000";
   seed_entry now CharlieDeposit Charlie DirectionCredit "10000.0000"].

Fixpoint run_statements (l : list (DB → result error DB)) (db : DB) : result error DB :=
  match l with
  | [] => Ok db
  | f :: l' => let^ db' := f db in run_statements l' db'
  end.

(** The file runs as one transaction: the deferred trigger is checked at its end,
    for the entries it has inserted. *)
Definition seed_demo_accounts_up (now : Time) (db : DB) : result error DB :=
  let^ db' := run_statements (demo_statements now) db in
  if triggers_pass db' (er_transaction_id <$> drop (length db.(tables).(entries)) db'.(tables).(entries))
  then Ok db'
  else Err trigger_exception.

(** The state after [0001]: empty tables, fresh sequences. *)
Definition empty_db : DB := MkDB (MkTables ∅ ∅ [] []) 0 0.

Definition migrate (now : Time) : result error DB :=
  let^ db := seed_system_account_up now empty_db in
  seed_demo_accounts_up now db.

Definition seed_db (now : Time) : DB :=
  match migrate now with Ok db => db | Err _ => empty_db end.

(** ** The seeded ledger *)

Definition seed_zero : ledger :=
  MkLedger {[ ExternalAccountID := Acct 0 true; Alice := Acct 0 false; Bob := Acct 0 false;
              Charlie := Acct 0 false ]} ∅ [].

Definition seed_rq (dst : UUID) (key : string) : request :=
  Request KindDeposit ExternalAccountID dst 100000000 key None "".

Definition seed_ledger : ledger :=
  move (seed_rq Charlie "seed-deposit-charlie-001") CharlieDeposit
    (move (seed_rq Bob "seed-deposit-bob-001") BobDeposit
       (move (seed_rq Alice "seed-deposit-alice-001") AliceDeposit seed_zero)).

Lemma seed_zero_inv : ledger_inv seed_zero.
Proof.
  split; try (intros; simpl in *; by rewrite lookup_empty in * ).
  - intros a x Hx. right. simpl in Hx.
    repeat (apply lookup_insert_Some in Hx as [[_ <-]|[_ Hx]]; [done |]).
    by apply lookup_singleton_Some in Hx as [_ <-].
  - intros a x Hx. simpl in Hx.
    repeat (apply lookup_insert_Some in Hx as [[_ <-]|[_ Hx]]; [done |]).
    by apply lookup_singleton_Some in Hx as [_ <-].
  - intros a x Hx. simpl in Hx.
    repeat (apply lookup_insert_Some in Hx as [[_ <-]|[_ Hx]]; [done |]).
    by apply lookup_singleton_Some in Hx as [_ <-].
Qed.

Lemma seed_step dst key id L :
  dst ≠ ExternalAccountID → can_move_bool (seed_rq dst key) id L = true →
  ledger_inv L → ledger_inv (move (seed_rq dst key) id L).
Proof.
  intros Hd Hc HL. apply move_inv; [done | by apply can_move_decide |].
  split; [done |]. split; [done |]. by exists dst, 100000000.
Qed.

Lemma seed_ledger_inv : ledger_inv seed_ledger.
Proof. repeat (apply seed_step; [done | by vm_compute |]). apply seed_zero_inv. Qed.

Lemma seed_abs now : abs (seed_db now).(tables) = seed_ledger.
Proof. by vm_compute. Qed.

Lemma seed_db_ok now : db_ok (seed_db now).
Proof.
  assert (H : Forall (λ e, e.(er_id) <= 6 ∧ is_Some ((seed_db now).(tables).(transactions) !! e.(er_transaction_id))
      ∧ is_Some ((seed_db now).(tables).(accounts) !! e.(er_account_id))) (seed_db now).(tables).(entries)).
  { vm_compute. repeat constructor; eauto; done. }
  rewrite Forall_forall in H. split.
  - vm_compute. repeat constructor.
  - intros e He. by apply (H e).
  - intros e He. by apply (H e).
  - intros e He. by apply (H e).
Qed.

(** ** Running the migration again *)

Lemma seed_account_present now id name sys bal db :
  is_Some (db.(tables).(accounts) !! id) → seed_account now id name sys bal db = Ok db.
Proof. intros [r Hr]. unfold seed_account. by rewrite Hr. Qed.

Lemma seed_transaction_present now id kind key db :
  is_Some (db.(tables).(transactions) !! id) → seed_transaction now id kind key db = Ok db.
Proof. intros Hr. unfold seed_transaction, violated_uniques. by rewrite bool_decide_true. Qed.

Lemma seed_entry_present now txID acc dir amount db x :
  (abs db.(tables)).(txns) !! txID = Some x →
  (∃ u, Leg acc dir u ∈ x.(x_legs)) → seed_entry now txID acc dir amount db = Ok db.
Proof.
  rewrite abs_txns. intros (r&_&->)%fmap_Some [u Hl]. unfold seed_entry.
  apply list_elem_of_fmap in Hl as (e&He&[Ht Hin]%list_elem_of_filter).
  injection He as -> -> _. replace (existsb _ _) with true; [done |]. symmetry.
  apply existsb_exists. exists e. split; [by apply list_elem_of_In | by apply bool_decide_eq_true].
Qed.

(** What the migration leaves, and every later state keeps. *)
Record seeded (L : ledger) : Prop := {
  sd_accts : ∀ a, a ∈ [Alice; Bob; Charlie] → is_Some (L.(accts) !! a);
  sd_txn : ∀ id dst key, (id, dst, key) ∈ [(AliceDeposit, Alice, "seed-deposit-alice-001");
                                           (BobDeposit, Bob, "seed-deposit-bob-001");
                                           (CharlieDeposit, Charlie, "seed-deposit-charlie-001")] →
      L.(txns) !! id = Some (Txn KindDeposit key None (rq_legs (seed_rq dst key))) }.

Lemma seed_ledger_seeded : seeded seed_ledger.
Proof.
  split; intros *; rewrite !elem_of_cons, elem_of_nil; intros; destruct_or!; simplify_eq;
    vm_compute; eauto.
Qed.

Lemma seeded_evolves L L' : seeded L → evolves L L' → seeded L'.
Proof.
  intros [Ha Ht] Hev. split.
  - intros a [x Hx]%Ha. destruct (ev_accts L L' Hev a x Hx) as (x'&?&_). eauto.
  - intros id dst key Hin%Ht. eapply lookup_weaken; [done | apply Hev].
Qed.

Lemma seeded_rerun now db : seeded (abs db.(tables)) → seed_demo_accounts_up now db = Ok db.
Proof.
  intros [Ha Ht].
  assert (Hacc : ∀ a, a ∈ [Alice; Bob; Charlie] → is_Some (db.(tables).(accounts) !! a)).
  { intros a Hin%Ha. by rewrite abs_accts, fmap_is_Some in Hin. }
  pose proof (Ht AliceDeposit _ _ ltac:(by left)) as H1.
  pose proof (Ht BobDeposit _ _ ltac:(right; by left)) as H2.
  pose proof (Ht CharlieDeposit _ _ ltac:(right; right; by left)) as H3.
  assert (Htx : ∀ id x, (abs db.(tables)).(txns) !! id = Some x → is_Some (db.(tables).(transactions) !! id)).
  { intros id x Hx. apply abs_txns_is_Some. eauto. }
  assert (Hrun : run_statements (demo_statements now) db = Ok db).
  { unfold demo_statements. cbn [run_statements].
    rewrite !seed_account_present by (apply Hacc; set_solver).
    assert (He : seed_external_balance now db = Ok db).
    { unfold seed_external_balance. destruct (key_used _ _) eqn:E; [done |].
      apply key_used_false in E. by destruct (E _ _ H1). }
    rewrite He. rewrite !seed_transaction_present by eauto.
    do 2 rewrite (seed_entry_present _ _ _ _ _ _ _ H1) by (eexists; by left || by right; left).
    do 2 rewrite (seed_entry_present _ _ _ _ _ _ _ H2) by (eexists; by left || by right; left).
    do 2 rewrite (seed_entry_present _ _ _ _ _ _ _ H3) by (eexists; by left || by right; left).
    done. }
  unfold seed_demo_accounts_up. rewrite Hrun. simpl. by rewrite drop_all.
Qed.

End Migrations.
