(* ===== verification/Downgrade.v ===== *)
(** * migrations/: the down migrations

    [0003] and [0002] undone, statement by statement, with the foreign keys of the
    schema: a row that is referenced cannot be deleted.  A migration runs as one
    transaction. *)

From S2P Require Import Prelude GoStd Decimal Money Uuid Ledger Schema LedgerSpec LedgerFacts SchemaFacts Migrations.
From stdpp Require Import options.
Import Ledger Schema LedgerSpec Migrations.
Open Scope Z_scope.

Module Downgrade.

(** [DELETE FROM entries WHERE transaction_id IN (...)]. *)
Definition delete_entries (ids : list UUID) (db : DB) : result error DB :=
  Ok (MkDB (with_entries db.(tables) (filter (λ e, e.(er_transaction_id) ∉ ids) db.(tables).(entries)))
        db.(entries_seq) db.(audit_seq)).

(** [DELETE FROM transactions WHERE ...]: refused while an entry or a reversal that
    stays refers to a deleted row. *)
Definition delete_transactions (P : UUID → transaction_row → bool) (db : DB) : result error DB :=
  let t := db.(tables) in
  let kept := filter (λ p, P p.1 p.2 = false) t.(transactions) in
  if existsb (λ e, bool_decide (kept !! e.(er_transaction_id) = None)) t.(entries)
  then Err (foreign_key_violation "entries_transaction_id_fkey")
  else if existsb (λ p, match p.2.(tr_reverses) with
                        | Some o => bool_decide (kept !! o = None)
                        | None => false
                        end) (map_to_list kept)
  then Err (foreign_key_violation "transactions_reverses_transaction_id_fkey")
  else Ok (MkDB (with_transactions t kept) db.(entries_seq) db.(audit_seq)).

(** [DELETE FROM accounts WHERE id IN (...)]. *)
Definition delete_accounts (ids : list UUID) (db : DB) : result error DB :=
  let t := db.(tables) in
  let kept := filter (λ p, p.1 ∉ ids) t.(accounts) in
  if existsb (λ e, bool_decide (kept !! e.(er_account_id) = None)) t.(entries)
  then Err (foreign_key_violation "entries_account_id_fkey")
  else Ok (MkDB (MkTables kept t.(transactions) t.(entries) t.(audit_log)) db.(entries_seq) db.(audit_seq)).

(** [SELECT DISTINCT transaction_id FROM entries WHERE account_id = ...]. *)
Definition transactions_of (acc : UUID) (db : DB) : list UUID :=
  er_transaction_id <$> filter (λ e, e.(er_account_id) = acc) db.(tables).(entries).

(** [0003_seed_demo_accounts.down.sql]. *)
Definition seed_demo_accounts_down (now : Time) (db : DB) : result error DB :=
  let^ db1 := delete_entries [AliceDeposit; BobDeposit; CharlieDeposit] db in
  let^ db2 := delete_transactions (λ _ x, bool_decide (x.(tr_idempotency_key) ∈
                ["seed-deposit-alice-001"; "seed-deposit-bob-001"; "seed-deposit-charlie-001"]%string)) db1 in
  let^ db3 := delete_accounts [Alice; Bob; Charlie] db2 in
  match update_balance "0" now ExternalAccountID db3.(tables) with
  | Ok t => Ok (MkDB t db3.(entries_seq) db3.(audit_seq))
  | Err e => Err e
  end.

(** [0002_seed_system_account.down.sql]: each statement evaluates its subquery on
    the tables that the statements before it have left. *)
Definition seed_system_account_down (db : DB) : result error DB :=
  let^ db1 := delete_entries (transactions_of ExternalAccountID db) db in
  let^ db2 := delete_transactions (λ id _, bool_decide (id ∈ transactions_of ExternalAccountID db1)) db1 in
  delete_accounts [ExternalAccountID] db2.

(** ** The demo accounts *)

(** The tables of a fresh deployment, its demo data removed: EXTERNAL alone, at zero. *)
Definition external_only (now now' : Time) : Tables :=
  MkTables {[ExternalAccountID := AccountRow "EXTERNAL" 0 true now now']} ∅ [] [].

(** On a fresh deployment [0003] down undoes [0003] up. *)
Lemma demo_down_undoes now now' :
  map_ok tables (seed_demo_accounts_down now' (seed_db now)) = Ok (external_only now now').
Proof. by vm_compute. Qed.

Lemma delete_transactions_entries P db db' :
  delete_transactions P db = Ok db' → db'.(tables).(entries) = db.(tables).(entries).
Proof.
  unfold delete_transactions. destruct (existsb _ _); [done |]. destruct (existsb _ _); [done |]. by intros [= <-].
Qed.

Lemma delete_accounts_refused ids db e :
  e ∈ db.(tables).(entries) → e.(er_account_id) ∈ ids → ∃ err, delete_accounts ids db = Err err.
Proof.
  intros He Hacc. unfold delete_accounts. replace (existsb _ _) with true; [eauto |].
  symmetry. apply existsb_exists. exists e. split; [by apply list_elem_of_In |].
  apply bool_decide_eq_true, map_lookup_filter_None. right. intros x _ Hn. by apply Hn.
Qed.

(** Once a demo account has taken part in anything else, [0003] down is refused. *)
Lemma demo_down_refused now db e :
  e ∈ db.(tables).(entries) → e.(er_account_id) ∈ [Alice; Bob; Charlie] →
  e.(er_transaction_id) ∉ [AliceDeposit; BobDeposit; CharlieDeposit] →
  ∃ err, seed_demo_accounts_down now db = Err err.
Proof.
  intros He Hacc Htx. unfold seed_demo_accounts_down. cbn [delete_entries].
  destruct (delete_transactions _ _) as [db2|err] eqn:E; [|eauto]. apply delete_transactions_entries in E.
  destruct (delete_accounts_refused [Alice; Bob; Charlie] db2 e) as [err ->]; [|done|eauto].
  rewrite E. by apply list_elem_of_filter.
Qed.

(** ** The system account *)

Lemma no_entries_left db :
  transactions_of ExternalAccountID
    (MkDB (with_entries db.(tables)
             (filter (λ e, e.(er_transaction_id) ∉ transactions_of ExternalAccountID db) db.(tables).(entries)))
       db.(entries_seq) db.(audit_seq)) = [].
Proof.
  apply elem_of_nil_inv. intros id (e&_&[Hacc He]%list_elem_of_filter)%list_elem_of_fmap.
  simpl in He. apply list_elem_of_filter in He as [Hn He]. apply Hn.
  apply list_elem_of_fmap. exists e. split; [done |]. by apply list_elem_of_filter.
Qed.

(** C37: [0002] down deletes the entries of every transaction that EXTERNAL took
    part in, and no transaction: when it looks for the transactions to delete, the
    entries that name them are gone. *)
Theorem system_down_keeps_transactions db db' :
  seed_system_account_down db = Ok db' →
  db'.(tables).(transactions) = db.(tables).(transactions) ∧
  db'.(tables).(entries) =
    filter (λ e, e.(er_transaction_id) ∉ transactions_of ExternalAccountID db) db.(tables).(entries).
Proof.
  unfold seed_system_account_down, delete_entries. rewrite no_entries_left.
  unfold delete_transactions. cbn [tables transactions entries with_entries].
  assert (Hall : filter (λ p : UUID * transaction_row, bool_decide (p.1 ∈ @nil UUID) = false) db.(tables).(transactions)
                 = db.(tables).(transactions)).
  { apply map_filter_id. intros i x _. by apply bool_decide_eq_false, not_elem_of_nil. }
  rewrite Hall. destruct (existsb _ _); [intros H; discriminate H |].
  destruct (existsb _ _); [intros H; discriminate H |]. unfold delete_accounts.
  destruct (existsb _ _); [intros H; discriminate H |]. by intros [= <-].
Qed.

(** On a fresh deployment it leaves deposits without legs and balances that no entry
    accounts for. *)
Lemma system_down_breaks_books now :
  ∃ db', seed_system_account_down (seed_db now) = Ok db' ∧
    (∀ id x, (abs db'.(tables)).(txns) !! id = Some x → x.(x_legs) = []) ∧
    units_of Alice (abs db'.(tables)) = 100000000 ∧ ¬ ledger_inv (abs db'.(tables)).
Proof.
  eexists. split; [by vm_compute |]. split_and!.
  - intros id x. rewrite abs_txns. by intros (y&_&->)%fmap_Some.
  - by vm_compute.
  - intros Hinv. pose proof (inv_reconciled _ Hinv Alice (Acct 100000000 false) ltac:(by vm_compute)) as Hr.
    by vm_compute in Hr.
Qed.

Lemma system_down_keeps_transactions_witness :
  ∃ db', seed_system_account_down (seed_db 0) = Ok db' ∧
    db'.(tables).(transactions) = (seed_db 0).(tables).(transactions).
Proof.
  destruct (seed_system_account_down (seed_db 0)) as [db'|e] eqn:E; [|by vm_compute in E].
  exists db'. split; [done |]. apply (system_down_keeps_transactions (seed_db 0) db' E).
Defined.
End Downgrade.
