(* ===== verification/Correctness.v ===== *)
(** * The ledger service on its database

    The properties of [Transfer], [Reverse] and [Deposit] run against the
    PostgreSQL store: what they may reply and do under any failure and any
    interference, what every history of calls preserves, and what happens exactly
    when nothing interferes. *)

From S2P Require Import Prelude GoStd Decimal Money Uuid Ledger Schema Pgx Store Service LedgerSpec LedgerFacts StorerSpec ServiceSpec Numeric SchemaFacts StoreBlocks StoreRefines Guarantee Clients Migrations Progress.
From stdpp Require Import options.
Import Ledger Schema LedgerSpec Migrations.
Open Scope Z_scope.

(** ** A concrete deployment, for the witnesses *)

(** The id drawn at call [n]: fresh with respect to the seed. *)
Definition demo_uuid (n : nat) : UUID :=
  match Uuid.of_list (replicate 14 (Ascii.ascii_of_nat 255) ++
                      [Ascii.ascii_of_nat (n / 256); Ascii.ascii_of_nat (n mod 256)]) with
  | Some u => u
  | None => Uuid.Nil
  end.

(** Nothing fails and nobody interferes; the clock shows the number of calls. *)
Definition demo_env : Env :=
  MkEnv (λ _, NoFault) (λ _, None) (λ n, Some (demo_uuid n)) (λ n, Z.of_nat n) (λ _, 0%nat) (λ _, 0%nat) (λ _ db, db).

#[export] Instance demo_env_calm : Calm demo_env.
Proof. by split. Qed.

Definition seed_world : World := MkWorld (seed_db 0) None 0 [].

Lemma seed_committed : pg_committed seed_world = seed_ledger.
Proof. apply seed_abs. Qed.

Lemma seed_idle_at now : pg_idle (MkWorld (seed_db now) None 0 []).
Proof.
  apply pg_idle_intro; [apply seed_db_ok | done |]. unfold pg_committed; simpl.
  rewrite seed_abs. apply seed_ledger_inv.
Qed.

Lemma seed_idle : pg_idle seed_world.
Proof. apply seed_idle_at. Qed.

Lemma seed_has_room : has_room seed_world.
Proof. by vm_compute. Qed.

(** Other processes that run the service: at each call of ours, a history of
    theirs has been committed, each in an environment of its own. *)
Definition with_clients (env : Env) (others : nat → Env * list call) : Env :=
  MkEnv (env_fault env) (env_cut env) (env_uuid env) (env_now env) (env_pick env) (env_scan env)
    (λ n db, w_db (pg_run (history (others n).1 (others n).2) (MkWorld db None 0 [])).2).

Definition busy_env : Env :=
  with_clients demo_env (λ n, (demo_env, if decide (n = 2)%nat
    then [CallTransfer Bob Charlie (Money.of_units 50000) "other" "r"] else [])).

Lemma clients_others_ok env others :
  (∀ n, OthersOk (others n).1 ∧ Forall proper_call (others n).2) → OthersOk (with_clients env others).
Proof.
  intros Hcl n db Hok Hinv. destruct (Hcl n) as [Ho Hp]. unfold with_clients; simpl.
  destruct (pg_run _ _) as [[] w'] eqn:Hr. simpl.
  apply (history_keeps _ _ Hp) in Hr as [Hw' Hrely]; [by split; [apply Hw' |] |].
  by apply pg_idle_intro.
Qed.

#[export] Instance busy_env_ok : OthersOk busy_env.
Proof.
  apply clients_others_ok. intros n. split; [apply _ |]. simpl. case_decide; [|done].
  by repeat constructor; left.
Qed.

(** ** Refinement *)

(** C6: whatever fails and whatever the other clients do, a [Transfer] ends in
    one of the outcomes of the abstract ledger: rejected by a check, answered
    with the stored transaction of its key, refused for a reason that holds of
    the ledger it was tried on, or moved exactly once; and with at most one audit
    row, that of the outcome. *)
Theorem transfer_refines env `{!OthersOk env} srcID dstID amount idemKey requestID w r w' :
  Money.proper amount → pg_idle w →
  run_Transfer env srcID dstID amount idemKey requestID w = (r, w') →
  pg_idle w' ∧ transfer_outcome srcID dstID amount idemKey requestID (pg_committed w) r (pg_committed w').
Proof. exact (Transfer_outcome (HS:=PgM_StorerSpec env) srcID dstID amount idemKey requestID w r w'). Qed.

Lemma transfer_refines_witness :
  ∃ r w', run_Transfer busy_env Alice Bob (Money.of_units 12345) "k1" "req" seed_world = (r, w') ∧
    transfer_outcome Alice Bob (Money.of_units 12345) "k1" "req" (pg_committed seed_world) r (pg_committed w').
Proof.
  destruct (run_Transfer busy_env Alice Bob (Money.of_units 12345) "k1" "req" seed_world) as [r w'] eqn:E.
  exists r, w'. split; [done |].
  apply (transfer_refines busy_env) in E as [_ E]; [done | by left | apply seed_idle].
Defined.

(** C9: the same for [Reverse]: the reply is the stored transaction of its key, a
    refusal whose reason holds of the ledger, or the movement of the original
    amount back from the original destination to the original source. *)
Theorem reverse_refines env `{!OthersOk env} orig idemKey requestID w r w' :
  pg_idle w → run_Reverse env orig idemKey requestID w = (r, w') →
  pg_idle w' ∧ reverse_outcome orig idemKey requestID (pg_committed w) r (pg_committed w').
Proof. exact (Reverse_outcome (HS:=PgM_StorerSpec env) orig idemKey requestID w r w'). Qed.

Lemma reverse_refines_witness :
  ∃ r w', run_Reverse busy_env AliceDeposit "k2" "req" seed_world = (r, w') ∧
    reverse_outcome AliceDeposit "k2" "req" (pg_committed seed_world) r (pg_committed w').
Proof.
  destruct (run_Reverse busy_env AliceDeposit "k2" "req" seed_world) as [r w'] eqn:E.
  exists r, w'. split; [done |]. apply (reverse_refines busy_env) in E as [_ E]; [done | apply seed_idle].
Defined.

(** C10: the same for [Deposit], which moves money from the EXTERNAL account and
    never refuses for lack of funds. *)
Theorem deposit_refines env `{!OthersOk env} dstID amount idemKey requestID w r w' :
  Money.proper amount → pg_idle w →
  run_Deposit env dstID amount idemKey requestID w = (r, w') →
  pg_idle w' ∧ deposit_outcome dstID amount idemKey requestID (pg_committed w) r (pg_committed w').
Proof. exact (Deposit_outcome (HS:=PgM_StorerSpec env) dstID amount idemKey requestID w r w'). Qed.

Lemma deposit_refines_witness :
  ∃ r w', run_Deposit busy_env Charlie (Money.of_units 7) "k3" "req" seed_world = (r, w') ∧
    deposit_outcome Charlie (Money.of_units 7) "k3" "req" (pg_committed seed_world) r (pg_committed w').
Proof.
  destruct (run_Deposit busy_env Charlie (Money.of_units 7) "k3" "req" seed_world) as [r w'] eqn:E.
  exists r, w'. split; [done |].
  apply (deposit_refines busy_env) in E as [_ E]; [done | by left | apply seed_idle].
Defined.

(** ** Invariants of every history *)

(** What the invariant says of the books. *)
Lemma inv_sound L :
  ledger_inv L →
  total L = 0 ∧
  (∀ a x, L.(accts) !! a = Some x →
     x.(a_units) = journal_balance a L ∧ (x.(a_system) = false → 0 <= x.(a_units))) ∧
  (∀ id x, L.(txns) !! id = Some x → sumZ leg_units x.(x_legs) = 0).
Proof.
  intros Hinv. split_and!; [by apply ledger_inv_total | | apply Hinv].
  intros a x Hx. split; [by apply Hinv |]. intros Hs.
  destruct (inv_nonneg _ Hinv a x Hx); [congruence | done].
Qed.

(** from the migrated database, after any sequence of calls, with any
    failures and any well-behaved other clients, every balance is the sum of the
    entries of its account, no user account is negative, the balances sum to
    zero, and every transaction balances. *)
Theorem history_conserves env `{!OthersOk env} cs now w' :
  Forall proper_call cs → pg_run (history env cs) (MkWorld (seed_db now) None 0 []) = (tt, w') →
  let L := pg_committed w' in
  total L = 0 ∧
  (∀ a x, L.(accts) !! a = Some x →
     x.(a_units) = journal_balance a L ∧ (x.(a_system) = false → 0 <= x.(a_units))) ∧
  (∀ id x, L.(txns) !! id = Some x → sumZ leg_units x.(x_legs) = 0).
Proof.
  intros Hcs Hr. apply (history_keeps env cs Hcs) in Hr as [(_&_&Hinv) _]; [by apply inv_sound | apply seed_idle_at].
Qed.

Lemma history_conserves_witness :
  total (pg_committed (pg_run (history busy_env
    [CallTransfer Alice Bob (Money.of_units 5000) "a" "r"; CallCreateAccount "Dora";
     CallReverse (demo_uuid 1) "b" "r"]) seed_world).2) = 0.
Proof.
  destruct (pg_run (history busy_env _) seed_world) as [[] w'] eqn:E.
  apply (history_conserves busy_env _ 0) in E as [H _]; [done |].
  repeat constructor; by left.
Defined.

(** a history never changes or removes a recorded transaction, never removes
    an account or changes its kind, and only appends to the audit trail; each key
    identifies one transaction and each transfer is reversed at most once. *)
Theorem history_appends env `{!OthersOk env} cs w w' :
  Forall proper_call cs → pg_idle w → pg_run (history env cs) w = (tt, w') →
  evolves (pg_committed w) (pg_committed w') ∧
  (∀ id1 id2 x1 x2, (pg_committed w').(txns) !! id1 = Some x1 → (pg_committed w').(txns) !! id2 = Some x2 →
     x1.(x_key) = x2.(x_key) → id1 = id2) ∧
  (∀ id1 id2 x1 x2 o, (pg_committed w').(txns) !! id1 = Some x1 → (pg_committed w').(txns) !! id2 = Some x2 →
     x1.(x_reverses) = Some o → x2.(x_reverses) = Some o → id1 = id2).
Proof.
  intros Hcs Hw Hr. apply (history_keeps env cs Hcs) in Hr as [(_&_&Hinv) Hrely]; [|done].
  split_and!; [apply Hrely | apply Hinv | apply Hinv].
Qed.

Lemma history_appends_witness :
  evolves (pg_committed seed_world) (pg_committed (pg_run (history busy_env
    [CallTransfer Alice Bob (Money.of_units 5000) "a" "r"; CallDeposit Bob (Money.of_units 1) "a" "r"])
    seed_world).2).
Proof.
  destruct (pg_run (history busy_env _) seed_world) as [[] w'] eqn:E.
  apply (history_appends busy_env _ seed_world) in E as [H _]; [done | | apply seed_idle].
  repeat constructor; by left.
Defined.

(** other processes running any histories of the same service are among the
    well-behaved clients that the operations rely on. *)
Theorem clients_behave env others :
  (∀ n, OthersOk (others n).1 ∧ Forall proper_call (others n).2) → OthersOk (with_clients env others).
Proof. apply clients_others_ok. Qed.

Lemma clients_behave_witness :
  OthersOk (with_clients demo_env (λ n, (busy_env, [CallDeposit Alice (Money.of_units 5) "k" "r"]))).
Proof.
  apply (clients_behave demo_env (λ n, (busy_env, [CallDeposit Alice (Money.of_units 5) "k" "r"]))).
  intros n. split; [apply _ |]. by repeat constructor; left.
Defined.

(** ** Exact behaviour when nothing interferes *)

(** C17: a transfer between existing accounts, covered by the source's balance and
    with a fresh key, succeeds: the reply carries the new transaction and its two
    entries, and the ledger afterwards is the old one with exactly this movement
    and its audit row. *)
Theorem transfer_succeeds env `{!Calm env} srcID dstID amount idemKey requestID id w :
  let rq := transfer_rq srcID dstID amount idemKey requestID in
  Money.proper amount → srcID ≠ dstID → srcID ≠ ExternalAccountID → dstID ≠ ExternalAccountID →
  env_uuid env (S w.(w_tick)) = Some id → pg_idle w → has_room w →
  can_move rq id (pg_committed w) → Money.units amount <= units_of srcID (pg_committed w) →
  ∃ w', run_Transfer env srcID dstID amount idemKey requestID w
        = (Ok (rq_txn rq id, rq_entries rq id), w') ∧ pg_idle w' ∧
    pg_committed w' = add_audit (success_row "TRANSFER" rq id) (move rq id (pg_committed w)).
Proof. apply (calm_Transfer env). Qed.

Lemma transfer_succeeds_witness :
  ∃ w', run_Transfer demo_env Alice Bob (Money.of_units 2500) "k" "r" seed_world
        = (Ok (new_Transaction (demo_uuid 1) KindTransfer "k" None,
               [new_Entry (demo_uuid 1) Alice DirectionDebit (Money.of_units 2500);
                new_Entry (demo_uuid 1) Bob DirectionCredit (Money.of_units 2500)]), w').
Proof.
  destruct (transfer_succeeds demo_env Alice Bob (Money.of_units 2500) "k" "r" (demo_uuid 1) seed_world)
    as (w'&Hr&_).
  - by left.
  - done.
  - done.
  - done.
  - done.
  - apply seed_idle.
  - apply seed_has_room.
  - rewrite seed_committed. apply can_move_decide. by vm_compute.
  - rewrite seed_committed. by vm_compute.
  - by exists w'.
Defined.

(** a deposit to an existing account with a fresh key succeeds, whatever the
    EXTERNAL account already owes, as long as the column can hold the result. *)
Theorem deposit_succeeds env `{!Calm env} dstID amount idemKey requestID id w :
  let rq := deposit_rq dstID amount idemKey requestID in
  Money.proper amount → dstID ≠ ExternalAccountID →
  env_uuid env (S w.(w_tick)) = Some id → pg_idle w → has_room w →
  can_move rq id (pg_committed w) →
  ∃ w', run_Deposit env dstID amount idemKey requestID w
        = (Ok (rq_txn rq id, rq_entries rq id), w') ∧ pg_idle w' ∧
    pg_committed w' = add_audit (success_row "DEPOSIT" rq id) (move rq id (pg_committed w)).
Proof. apply (calm_Deposit env). Qed.

Lemma deposit_succeeds_witness :
  ∃ w', run_Deposit demo_env Bob (Money.of_units 1) "k" "r" seed_world
        = (Ok (new_Transaction (demo_uuid 1) KindDeposit "k" None,
               [new_Entry (demo_uuid 1) ExternalAccountID DirectionDebit (Money.of_units 1);
                new_Entry (demo_uuid 1) Bob DirectionCredit (Money.of_units 1)]), w').
Proof.
  destruct (deposit_succeeds demo_env Bob (Money.of_units 1) "k" "r" (demo_uuid 1) seed_world)
    as (w'&Hr&_).
  - by left.
  - done.
  - done.
  - apply seed_idle.
  - apply seed_has_room.
  - rewrite seed_committed. apply can_move_decide. by vm_compute.
  - by exists w'.
Defined.

(** Moving an amount back restores every balance. *)
Lemma move_back_accts rq1 rq2 id1 id2 u L :
  rq2.(rq_from) = rq1.(rq_to) → rq2.(rq_to) = rq1.(rq_from) → rq1.(rq_from) ≠ rq1.(rq_to) →
  rq2.(rq_units) = rq1.(rq_units) →
  (move rq2 id2 (add_audit u (move rq1 id1 L))).(accts) = L.(accts).
Proof.
  destruct rq1 as [k1 a b u1 ? ? ?], rq2 as [k2 b' a' u2 ? ? ?]; simpl. intros -> -> Hne ->.
  apply map_eq. intros i. rewrite !lookup_alter.
  repeat case_decide; simplify_eq; destruct (L.(accts) !! i) as [[z sys]|]; simpl; try done;
    do 2 f_equal; lia.
Qed.

(** The reversal of a transfer that has just been recorded can be recorded. *)
Lemma can_reverse rq1 id1 id2 key2 req2 u L x y :
  ledger_inv L → can_move rq1 id1 L → rq1.(rq_kind) = KindTransfer → rq1.(rq_reverses) = None →
  rq1.(rq_from) ≠ rq1.(rq_to) →
  L.(accts) !! rq1.(rq_from) = Some x → x.(a_system) = false →
  L.(accts) !! rq1.(rq_to) = Some y → y.(a_system) = false →
  id2 ≠ id1 → L.(txns) !! id2 = None → key2 ≠ rq1.(rq_key) → key_fresh key2 L →
  let rq2 := reverse_rq id1 rq1.(rq_from) rq1.(rq_to) rq1.(rq_units) key2 req2 in
  let L1 := add_audit u (move rq1 id1 L) in
  can_move rq2 id2 L1 ∧ rq1.(rq_units) <= units_of rq1.(rq_to) L1.
Proof.
  intros HL Hc Hk Hr Hne Hx Hxs Hy Hys Hid Hid2 Hkey Hk2 rq2 L1.
  pose proof (inv_nonneg L HL _ _ Hx) as Hxn. pose proof (inv_nonneg L HL _ _ Hy) as Hyn.
  pose proof (inv_range L HL _ _ Hx) as Hxr. pose proof (inv_range L HL _ _ Hy) as Hyr.
  destruct Hc as [Hu (x'&Hx'&Hf&_) (y'&Hy'&Ht&_) Hid1 Hk1 _].
  assert (x' = x) as -> by congruence. assert (y' = y) as -> by congruence.
  rewrite Hxs in *. rewrite Hys in *. destruct_or!; try done.
  assert (Hy1 : L1.(accts) !! rq1.(rq_to) = Some (Acct (y.(a_units) + rq1.(rq_units)) false)).
  { simpl. rewrite lookup_alter, decide_True, lookup_alter_ne, Hy by done. simpl. by rewrite Hys. }
  assert (Hx1 : L1.(accts) !! rq1.(rq_from) = Some (Acct (x.(a_units) - rq1.(rq_units)) false)).
  { simpl. rewrite lookup_alter_ne, lookup_alter, decide_True, Hx by done. simpl. by rewrite Hxs. }
  split; [|unfold units_of; rewrite Hy1; simpl; lia].
  split; simpl rq_units; simpl rq_from; simpl rq_to.
  - done.
  - eexists. split; [exact Hy1 |]. simpl. split; [right; lia | lia].
  - eexists. split; [exact Hx1 |]. simpl. split; [right; lia | lia].
  - simpl. by rewrite lookup_insert_ne.
  - intros i z. simpl. rewrite lookup_insert. case_decide; [by intros [= <-] | apply Hk2].
  - intros o i z [= <-]. simpl. rewrite lookup_insert. case_decide.
    + intros [= <-]. simpl. by rewrite Hr.
    + intros Hz Hz'. pose proof (inv_shape L HL i z Hz) as Hsh. unfold txn_shape in Hsh.
      destruct z.(x_kind); [destruct Hsh; congruence | | destruct Hsh; congruence | done].
      destruct Hsh as (o&yy&?&?&?&Ho&Hoy&_). congruence.
Qed.

(** A transfer on the seeded ledger, for the witnesses that need one. *)
Definition demo_reply : reply :=
  Ok (new_Transaction (demo_uuid 1) KindTransfer "k" None,
      rq_entries (transfer_rq Alice Bob (Money.of_units 2500) "k" "r") (demo_uuid 1)).

Definition demo_w1 : World :=
  (run_Transfer demo_env Alice Bob (Money.of_units 2500) "k" "r" seed_world).2.

(** The same ledger once the transfer is reversed. *)
Definition demo_w2 : World := (run_Reverse demo_env (demo_uuid 1) "k2" "r2" demo_w1).2.

Lemma demo_w1_run :
  run_Transfer demo_env Alice Bob (Money.of_units 2500) "k" "r" seed_world = (demo_reply, demo_w1).
Proof.
  rewrite (surjective_pairing (run_Transfer _ _ _ _ _ _ _)). apply pair_eq.
  split; [by vm_compute | done].
Qed.

Lemma demo_w1_idle : pg_idle demo_w1.
Proof.
  eapply (Transfer_outcome (HS:=PgM_StorerSpec demo_env) Alice Bob (Money.of_units 2500) "k" "r"
            seed_world demo_reply demo_w1);
    [by left | apply seed_idle | exact demo_w1_run].
Qed.

Lemma demo_w2_idle : pg_idle demo_w2.
Proof.
  eapply (Reverse_outcome (HS:=PgM_StorerSpec demo_env) (demo_uuid 1) "k2" "r2" demo_w1 _ demo_w2);
    [apply demo_w1_idle | apply surjective_pairing].
Qed.

(** C18: a transfer between user accounts can be reversed right away, and the
    reversal gives every account the balance it had before the transfer. *)
Theorem reverse_restores env `{!Calm env} srcID dstID amount key1 req1 id1 key2 req2 id2 w r w1 x y :
  let rq := transfer_rq srcID dstID amount key1 req1 in
  let rq2 := reverse_rq id1 srcID dstID (Money.units amount) key2 req2 in
  Money.proper amount → srcID ≠ dstID → srcID ≠ ExternalAccountID → dstID ≠ ExternalAccountID →
  (pg_committed w).(accts) !! srcID = Some x → x.(a_system) = false →
  (pg_committed w).(accts) !! dstID = Some y → y.(a_system) = false →
  env_uuid env (S w.(w_tick)) = Some id1 → pg_idle w → has_room w → can_move rq id1 (pg_committed w) →
  run_Transfer env srcID dstID amount key1 req1 w = (r, w1) →
  env_uuid env (3 + w1.(w_tick)) = Some id2 → has_room w1 →
  id2 ≠ id1 → (pg_committed w).(txns) !! id2 = None → key2 ≠ key1 → key_fresh key2 (pg_committed w) →
  ∃ w2, run_Reverse env id1 key2 req2 w1 = (Ok (rq_txn rq2 id2, rq_entries rq2 id2), w2) ∧
    (pg_committed w2).(accts) = (pg_committed w).(accts).
Proof.
  intros rq rq2 Hp Hne Hs Hd Hx Hxs Hy Hys Hid1 Hw Hroom Hc Hr Hid2 Hroom1 Hidne Hid2f Hkey Hk2.
  assert (Hfu : Money.units amount <= units_of srcID (pg_committed w)).
  { rewrite (units_of_lookup _ _ _ Hx). destruct (cm_from _ _ _ Hc) as (x'&Hx'&Hf&_).
    simpl in *. assert (x' = x) as -> by congruence. rewrite Hxs in Hf. by destruct Hf. }
  destruct (calm_Transfer env srcID dstID amount key1 req1 id1 w) as (w1'&Hr'&Hw1&HL1); [done..|].
  unfold run_Transfer in Hr. rewrite Hr' in Hr. injection Hr as _ <-.
  destruct (can_reverse rq id1 id2 key2 req2 (success_row "TRANSFER" rq id1) (pg_committed w) x y)
    as [Hc2 Hfu2]; [apply Hw | done..|].
  destruct (calm_Reverse env id1 srcID dstID (Money.units amount) key2 req2 id2 w1')
    as (w2&Hr2&_&HL2); rewrite ?HL1; try done.
  - eexists. split; [simpl; by rewrite lookup_insert, decide_True | done].
  - exists w2. split; [done |]. rewrite HL2, HL1. by apply move_back_accts.
Qed.

Lemma reverse_restores_witness :
  ∃ w1 w2, run_Transfer demo_env Alice Bob (Money.of_units 2500) "k" "r" seed_world
           = (demo_reply, w1) ∧
    run_Reverse demo_env (demo_uuid 1) "k2" "r2" w1
    = (Ok (rq_txn (reverse_rq (demo_uuid 1) Alice Bob 2500 "k2" "r2") (demo_uuid 14),
           rq_entries (reverse_rq (demo_uuid 1) Alice Bob 2500 "k2" "r2") (demo_uuid 14)), w2) ∧
    (pg_committed w2).(accts) = (pg_committed seed_world).(accts).
Proof.
  exists demo_w1.
  destruct (reverse_restores demo_env Alice Bob (Money.of_units 2500) "k" "r" (demo_uuid 1) "k2" "r2"
              (demo_uuid 14) seed_world demo_reply demo_w1 (Acct 100000000 false) (Acct 100000000 false))
    as (w2&H2&Hacc); [| | | | | | | | | | | | exact demo_w1_run | | | | | | |];
    rewrite ?seed_committed.
  - by left.
  - done.
  - done.
  - done.
  - by vm_compute.
  - done.
  - by vm_compute.
  - done.
  - done.
  - apply seed_idle.
  - apply seed_has_room.
  - apply can_move_decide. by vm_compute.
  - by vm_compute.
  - by vm_compute.
  - done.
  - by vm_compute.
  - done.
  - apply (bool_decide_unpack _). by vm_compute.
  - exists w2. split; [exact demo_w1_run | split; [exact H2 | exact Hacc]].
Defined.

(** C19: idempotency. Once a key is recorded, a retry with it, of any operation and
    whatever its other arguments, that passes the operation's own checks (a positive
    amount, two distinct accounts, none of them EXTERNAL) gets the stored transaction
    with its entries, and nothing is written: no balance, no entry, no audit row. *)
Theorem retries_replay env `{!Calm env} key w :
  pg_idle w → ¬ key_fresh key (pg_committed w) →
  ∃ t es w', stored t es (pg_committed w) ∧ t.(txn_IdempotencyKey) = key ∧ w'.(w_db) = w.(w_db) ∧
    (∀ src dst m req, Money.IsPositive m = true → src ≠ dst → src ≠ ExternalAccountID →
       dst ≠ ExternalAccountID → run_Transfer env src dst m key req w = (Ok (t, es), w')) ∧
    (∀ dst m req, Money.IsPositive m = true → dst ≠ ExternalAccountID →
       run_Deposit env dst m key req w = (Ok (t, es), w')) ∧
    (∀ orig req, run_Reverse env orig key req w = (Ok (t, es), w')).
Proof.
  intros Hw Hk. destruct (calm_get_key_used env key w Hw Hk) as (t&es&Hg&Hst&Hkey).
  exists t, es, (ticked (ticked w)). split_and!; [done | done | done | | |].
  - intros src dst m req Hm Hne Hs Hd. unfold run_Transfer, Service.Transfer. rewrite Hm.
    simpl negb. cbv iota. rewrite decide_False by done. rewrite decide_False by tauto. by pg_next Hg.
  - intros dst m req Hm Hd. unfold run_Deposit, Service.Deposit. rewrite Hm.
    simpl negb. cbv iota. rewrite decide_False by done. by pg_next Hg.
  - intros orig req. unfold run_Reverse, Service.Reverse. by pg_next Hg.
Qed.

Lemma retries_replay_witness :
  ∃ t es w', run_Deposit demo_env Bob (Money.of_units 3) "seed-deposit-alice-001" "r" seed_world = (Ok (t, es), w')
    ∧ w'.(w_db) = seed_world.(w_db).
Proof.
  destruct (retries_replay demo_env "seed-deposit-alice-001" seed_world) as (t&es&w'&_&_&Hdb&_&Hd&_).
  - apply seed_idle.
  - rewrite seed_committed. apply (bool_decide_unpack _). by vm_compute.
  - exists t, es, w'. split; [by apply Hd | exact Hdb].
Defined.

(** What a second reversal of a transfer of [u] from [a] to [b] fails with: the
    balances are updated before the row is inserted. *)
Definition second_reversal_error (a b : UUID) (u : Z) (L : ledger) : error :=
  if units_of b L <? u then ErrInsufficientFunds
  else if numeric_limit <=? units_of a L + u then balance_overflow
  else ErrAlreadyReversed.

(** C20: a transfer that has been reversed is not reversed again by a request with a
    fresh key: the reply is [ErrAlreadyReversed] when the destination still holds the
    amount and the source has room for it, [ErrInsufficientFunds] when the destination
    has spent it, and the overflow of the column when the source's balance cannot grow
    by it.  The ledger only gains the failure's audit row. *)
Theorem second_reversal_refused env `{!Calm env} orig a b u idemKey requestID id w :
  transfer_of orig a b u (pg_committed w) → ¬ not_reversed (Some orig) (pg_committed w) →
  key_fresh idemKey (pg_committed w) → env_uuid env (3 + w.(w_tick)) = Some id →
  (pg_committed w).(txns) !! id = None → pg_idle w → has_room w →
  let e := second_reversal_error a b u (pg_committed w) in
  ∃ w', run_Reverse env orig idemKey requestID w = (Err e, w') ∧
    pg_committed w' = add_audit (failure_row "REVERSAL" (Some b) (Some a) (Some u) e requestID) (pg_committed w).
Proof.
  intros Ht Hrev Hk Hid Hidf Hw Hroom e. pose proof (proj2 (proj2 Hw)) as HL.
  destruct Ht as (x&Hx&Hkind&Hlegs). pose proof (inv_shape _ HL _ _ Hx) as Hsh.
  unfold txn_shape in Hsh. rewrite Hkind, Hlegs in Hsh.
  destruct Hsh as (_&a'&b'&u'&[= <- <- <-]&Hne&Haext&Hbext).
  destruct (inv_legs _ HL _ _ (Leg a DirectionDebit u) Hx) as [Hu [ya Hya]]; [rewrite Hlegs; left |].
  destruct (inv_legs _ HL _ _ (Leg b DirectionCredit u) Hx) as [_ [yb Hyb]]; [rewrite Hlegs; right; left |].
  cbn [l_account l_units] in *. pose proof (inv_range _ HL _ _ Hyb). pose proof (inv_range _ HL _ _ Hya).
  set (rq := reverse_rq orig a b u idemKey requestID).
  assert (Href : refuses (pg_committed w) e (Service.reverse_tx a b (Money.of_units u) (rq_txn rq id))).
  { unfold e, second_reversal_error. rewrite (units_of_lookup _ _ _ Hyb), (units_of_lookup _ _ _ Hya).
    apply not_eq_sym in Hne.
    destruct (Z.ltb_spec yb.(a_units) u); [by apply (reverse_refuses_overdraft env rq id _ yb ya) |].
    destruct (Z.leb_spec numeric_limit (ya.(a_units) + u)).
    - apply (reverse_refuses_overflow env rq id _ yb ya); [done | apply Hu | done | done | | done]. simpl. lia.
    - apply (reverse_refuses_second env rq id _ yb ya);
        [done | apply Hu | done | done | simpl; lia | simpl; lia | | done..].
      destruct (inv_nonneg _ HL _ _ Hya); [by left | right; simpl; lia]. }
  destruct (calm_refused env "REVERSAL" rq id _ e (ticked (ticked (ticked (ticked w)))) Href)
    as (w'&Hr&_&HL').
  - unfold e, second_reversal_error. by repeat case_match.
  - by do 4 apply ticked_idle.
  - done.
  - exists w'. split; [eapply (calm_Reverse_start env); [by exists x | done | exact Hid | done | exact Hr] |].
    rewrite HL'. unfold noted. simpl. by rewrite (proj2 (Z.ltb_lt (Z.abs u) numeric_limit)) by lia.
Qed.

(** The destination then sends all it holds away. *)
Definition demo_w3 : World :=
  (run_Transfer demo_env Bob Charlie (Money.of_units 100000000) "k3" "r3" demo_w2).2.

Lemma demo_w3_idle : pg_idle demo_w3.
Proof.
  eapply (Transfer_outcome (HS:=PgM_StorerSpec demo_env) Bob Charlie (Money.of_units 100000000) "k3" "r3" demo_w2 _ demo_w3);
    [by left | apply demo_w2_idle | apply surjective_pairing].
Qed.

Lemma demo_w2_error : second_reversal_error Alice Bob 2500 (pg_committed demo_w2) = ErrAlreadyReversed.
Proof. by vm_compute. Qed.

Lemma demo_w3_error : second_reversal_error Alice Bob 2500 (pg_committed demo_w3) = ErrInsufficientFunds.
Proof. by vm_compute. Qed.

Lemma second_reversal_refused_witness :
  (∃ w', run_Reverse demo_env (demo_uuid 1) "k3" "r3" demo_w2 = (Err ErrAlreadyReversed, w')) ∧
  (∃ w', run_Reverse demo_env (demo_uuid 1) "k4" "r4" demo_w3 = (Err ErrInsufficientFunds, w')).
Proof.
  split.
  - rewrite <-demo_w2_error.
    destruct (second_reversal_refused demo_env (demo_uuid 1) Alice Bob 2500 "k3" "r3" (demo_uuid 27) demo_w2)
      as (w'&Hr&_).
    + exists (Txn KindTransfer "k" None [Leg Alice DirectionDebit 2500; Leg Bob DirectionCredit 2500]).
      split; [by vm_compute | done].
    + rewrite <-not_reversed_iff. apply not_true_iff_false. by vm_compute.
    + apply (bool_decide_unpack _). by vm_compute.
    + by vm_compute.
    + by vm_compute.
    + apply demo_w2_idle.
    + by vm_compute.
    + exists w'. exact Hr.
  - rewrite <-demo_w3_error.
    destruct (second_reversal_refused demo_env (demo_uuid 1) Alice Bob 2500 "k4" "r4"
                (demo_uuid (3 + demo_w3.(w_tick))) demo_w3) as (w'&Hr&_).
    + exists (Txn KindTransfer "k" None [Leg Alice DirectionDebit 2500; Leg Bob DirectionCredit 2500]).
      split; [by vm_compute | done].
    + rewrite <-not_reversed_iff. apply not_true_iff_false. by vm_compute.
    + apply (bool_decide_unpack _). by vm_compute.
    + by vm_compute.
    + by vm_compute.
    + apply demo_w3_idle.
    + by vm_compute.
    + exists w'. exact Hr.
Defined.

(** C21: a transfer between existing accounts, with a fresh key, that exceeds the
    balance of its source is refused with [ErrInsufficientFunds]; no balance,
    transaction or entry changes.  The refusal is audited exactly when its amount fits
    the audit column, [NUMERIC(20,4)]: otherwise the committed ledger stays as it is. *)
Theorem overdraft_refused env `{!Calm env} srcID dstID amount idemKey requestID id w x y :
  Money.proper amount → 0 < Money.units amount →
  srcID ≠ dstID → srcID ≠ ExternalAccountID → dstID ≠ ExternalAccountID →
  (pg_committed w).(accts) !! srcID = Some x → (pg_committed w).(accts) !! dstID = Some y →
  x.(a_units) < Money.units amount →
  key_fresh idemKey (pg_committed w) → env_uuid env (S w.(w_tick)) = Some id → pg_idle w → has_room w →
  ∃ w', run_Transfer env srcID dstID amount idemKey requestID w = (Err ErrInsufficientFunds, w') ∧
    pg_committed w' =
      let row := failure_row "TRANSFER" (Some srcID) (Some dstID) (Some (Money.units amount)) ErrInsufficientFunds requestID in
      if Money.units amount <? numeric_limit then add_audit row (pg_committed w) else pg_committed w.
Proof.
  intros Hp Hu Hne Hs Hd Hx Hy Hlt Hk Hid Hw Hroom.
  assert (Hpos : Money.IsPositive amount = true).
  { rewrite Money.proper_IsPositive by done. by apply Z.ltb_lt. }
  set (rq := transfer_rq srcID dstID amount idemKey requestID).
  destruct (calm_refused env "TRANSFER" rq id
    (Service.transfer_tx srcID dstID (Money.of_units rq.(rq_units)) (rq_txn rq id))
    ErrInsufficientFunds (ticked (ticked w))) as (w'&Hr&_&HL).
  - by apply (transfer_refuses_overdraft env rq id _ x y).
  - done.
  - by do 2 apply ticked_idle.
  - done.
  - exists w'. split; [|by rewrite HL; unfold noted; simpl; rewrite Z.abs_eq by lia].
    unfold run_Transfer, Service.Transfer. rewrite Hpos. simpl negb. cbv iota.
    rewrite decide_False by done. rewrite decide_False by tauto.
    pg_next (calm_get_key_fresh env idemKey w Hk). pg_next (calm_NewV7 env (ticked w) id Hid).
    assert (Hsc : Money.scaled amount) by by apply Money.proper_positive.
    rewrite (Money.scaled_of_units amount Hsc). exact Hr.
Qed.

(** An overdraft that is audited, and one of 10^16 that is not. *)
Lemma overdraft_refused_witness :
  (∃ w', run_Transfer demo_env Alice Bob (Money.of_units 100000001) "k" "r" seed_world
         = (Err ErrInsufficientFunds, w') ∧ length (pg_committed w').(trail) = 1%nat) ∧
  (∃ w', run_Transfer demo_env Alice Bob (Money.of_units numeric_limit) "k" "r" seed_world
         = (Err ErrInsufficientFunds, w') ∧ length (pg_committed w').(trail) = 0%nat).
Proof.
  split.
  - destruct (overdraft_refused demo_env Alice Bob (Money.of_units 100000001) "k" "r" (demo_uuid 1) seed_world
              (Acct 100000000 false) (Acct 100000000 false)) as (w'&Hr&HL); rewrite ?seed_committed;
      [by left | by vm_compute | done | done | done | by vm_compute | by vm_compute | by vm_compute
      | apply (bool_decide_unpack _); by vm_compute | done | apply seed_idle | apply seed_has_room |].
    exists w'. split; [exact Hr |]. by rewrite HL, seed_committed.
  - destruct (overdraft_refused demo_env Alice Bob (Money.of_units numeric_limit) "k" "r" (demo_uuid 1) seed_world
              (Acct 100000000 false) (Acct 100000000 false)) as (w'&Hr&HL); rewrite ?seed_committed;
      [by left | by vm_compute | done | done | done | by vm_compute | by vm_compute | by vm_compute
      | apply (bool_decide_unpack _); by vm_compute | done | apply seed_idle | apply seed_has_room |].
    exists w'. split; [exact Hr |]. by rewrite HL, seed_committed.
Defined.

(** The first check of [Transfer] that a request fails. *)
Definition transfer_check (srcID dstID : UUID) (amount : Money.Money) : option error :=
  if Money.units amount <=? 0 then Some ErrInvalidAmount
  else if decide (srcID = dstID) then Some ErrSelfTransfer
  else if decide (srcID = ExternalAccountID ∨ dstID = ExternalAccountID) then Some ErrSystemAccount
  else None.

(** C22: a transfer of a non-positive amount, to itself or involving the EXTERNAL
    account is rejected with the error of the first failed check, even when its
    key is already recorded.  No balance, transaction or entry changes; the rejection's
    audit row is written exactly when the amount fits the audit column. *)
Theorem invalid_transfer_rejected env `{!Calm env} srcID dstID amount idemKey requestID e w :
  Money.proper amount → pg_idle w → has_room w → transfer_check srcID dstID amount = Some e →
  ∃ w', run_Transfer env srcID dstID amount idemKey requestID w = (Err e, w') ∧
    pg_committed w' =
      let row := failure_row "TRANSFER" (Some srcID) (Some dstID) (Some (Money.units amount)) e requestID in
      if Z.abs (Money.units amount) <? numeric_limit then add_audit row (pg_committed w) else pg_committed w.
Proof.
  intros Hp Hw Hroom Hc.
  destruct (calm_reject env "TRANSFER" (Some srcID) (Some dstID) amount requestID e w) as (w'&Hr&_&HL); [done..|].
  exists w'. split; [|done]. unfold run_Transfer, Service.Transfer. unfold transfer_check in Hc.
  rewrite Money.proper_IsPositive by done. rewrite Z.leb_antisym in Hc.
  destruct (0 <? Money.units amount); simpl negb in *; cbv iota in *; [|by injection Hc as <-].
  destruct (decide (srcID = dstID)); [by injection Hc as <- |].
  destruct (decide (srcID = ExternalAccountID ∨ dstID = ExternalAccountID)); [by injection Hc as <- | done].
Qed.

Lemma invalid_transfer_rejected_witness :
  (∃ w', run_Transfer demo_env Alice ExternalAccountID (Money.of_units 5) "seed-deposit-alice-001" "r" seed_world
         = (Err ErrSystemAccount, w') ∧ length (pg_committed w').(trail) = 1%nat) ∧
  (∃ w', run_Transfer demo_env Alice Bob (Money.of_units (- numeric_limit)) "k" "r" seed_world
         = (Err ErrInvalidAmount, w') ∧ length (pg_committed w').(trail) = 0%nat).
Proof.
  split.
  - destruct (invalid_transfer_rejected demo_env Alice ExternalAccountID (Money.of_units 5)
              "seed-deposit-alice-001" "r" ErrSystemAccount seed_world) as (w'&Hr&HL);
      [by left | apply seed_idle | apply seed_has_room | by vm_compute |].
    exists w'. split; [exact Hr |]. by rewrite HL, seed_committed.
  - destruct (invalid_transfer_rejected demo_env Alice Bob (Money.of_units (- numeric_limit))
              "k" "r" ErrInvalidAmount seed_world) as (w'&Hr&HL);
      [by left | apply seed_idle | apply seed_has_room | by vm_compute |].
    exists w'. split; [exact Hr |]. by rewrite HL, seed_committed.
Defined.
