(* ===== verification/StoreFacts.v ===== *)
(** * The store on its own

    Properties of [internal/store] that do not go through the service: the lock
    order, the classification of constraint violations, the listings and the migration
    that is run again. *)

From Stdlib Require Import Ascii.
From S2P Require Import Prelude GoStd Decimal Money Uuid Ledger Schema Pgx Store Service LedgerSpec LedgerFacts StorerSpec ServiceSpec Numeric SchemaFacts StoreBlocks StoreRefines Guarantee Clients Migrations Progress Correctness.
From stdpp Require Import options.
Import Ledger Schema LedgerSpec Migrations.
Open Scope Z_scope.

(** ** Lock order *)

(** The accounts in the order of their canonical text. *)
Definition in_lock_order (accs : list Account) : Prop :=
  StronglySorted (λ a b, Uuid.le a.(acc_ID) b.(acc_ID)) accs.

Lemma collectAccounts_ids rows accs :
  Store.collectAccounts rows = Ok accs →
  rows.(rows_Err) = None ∧ acc_ID <$> accs = rc_id <$> rows.(rows_data).
Proof.
  destruct rows as [rows [e|]]; unfold Store.collectAccounts, Store.rows_close; cbn [rows_data rows_Err].
  { by destruct (Store.scan_rows _ _ _). }
  intros H. split; [done |]. revert accs H.
  induction rows as [|rc rows IH]; cbn [Store.scan_rows]; [by intros accs [= <-] |].
  unfold Store.scanAccount at 1. destruct (Decimal.Scan _); [|done].
  destruct (Store.scan_rows _ _ rows) as [l|]; [|done]. intros accs [= <-].
  rewrite !fmap_cons. by rewrite (IH l eq_refl).
Qed.

Lemma in_lock_order_ids accs rows :
  acc_ID <$> accs = rc_id <$> rows → StronglySorted id_text_le rows → in_lock_order accs.
Proof.
  intros Hids Hs. revert accs Hids. induction Hs as [|rc rows Hs IH Hall]; intros [|a accs] Hids; try done.
  { constructor. }
  rewrite !fmap_cons in Hids. injection Hids as Ha Hids. constructor; [by apply IH |].
  apply Forall_forall. intros b Hb. apply (list_elem_of_fmap_2 acc_ID) in Hb. rewrite Hids in Hb.
  apply list_elem_of_fmap in Hb as (rb&->&Hrb). rewrite Forall_forall in Hall. rewrite Ha. by apply Hall.
Qed.

(** two transactions that lock the same accounts send the same statement, in
    whatever order they name them, and the rows come, and are locked, in the order
    of the canonical text of their ids: a transfer and its opposite ask for their
    two locks in the same order. *)
Theorem lock_order_fixed env ids1 ids2 w r w' :
  ids1 ≡ₚ ids2 →
  Store.LockAccountsForUpdate (M:=PgM) (Pgx0:=PgM_Pgx env) ids1 = Store.LockAccountsForUpdate ids2 ∧
  (pg_run (Store.LockAccountsForUpdate (Pgx0:=PgM_Pgx env) ids1) w = (Ok r, w') → in_lock_order r).
Proof.
  intros Hp. split; [unfold Store.LockAccountsForUpdate; by rewrite (Uuid.sort_proper _ _ Hp) |].
  unfold Store.LockAccountsForUpdate. intros Hr. pg_step Hr. rewrite pg_run_ret in Hr.
  destruct r0 as [[rows err]|]; [|done]. injection Hr as Hc _.
  apply collectAccounts_ids in Hc as [Hn Hids]. cbn [rows_Err rows_data] in *. subst err.
  eapply in_lock_order_ids; [done |].
  unfold pg_run, tx_Query, PgM_Pgx, PgM_tx_Query, PgM_tx_exec, cursor in Erun.
  destruct (w_tx w) as [tx|]; [destruct (tx_aborted tx); [|destruct (env_fault env (w_tick w))] |];
    try (by destruct (env_cut env _)).
  simpl in Erun. injection Erun as <- _. apply select_accounts_sorted.
Qed.

Lemma lock_order_fixed_witness :
  Store.LockAccountsForUpdate (M:=PgM) (Pgx0:=PgM_Pgx demo_env) [Alice; Bob]
  = Store.LockAccountsForUpdate (Pgx0:=PgM_Pgx demo_env) [Bob; Alice].
Proof.
  apply (lock_order_fixed demo_env [Alice; Bob] [Bob; Alice] seed_world [] seed_world).
  apply Permutation_swap.
Defined.

(** ** Classification of constraint violations *)

Lemma contains_from_spec fuel i s sub :
  (length s < fuel + i)%nat →
  Store.contains_from fuel i s sub = true ↔
  ∃ j, (i <= j)%nat ∧ (j + length sub <= length s)%nat ∧ take (length sub) (drop j s) = sub.
Proof.
  revert i. induction fuel as [|fuel IH]; intros i Hf; simpl.
  { split; [done | intros (j&?&?&_); lia]. }
  destruct (Nat.leb_spec (i + length sub) (length s)) as [Hle|Hgt].
  - case_bool_decide as Heq; [split; [intros _; by exists i | done] |].
    rewrite IH by lia. split; intros (j&?&?&Hj); exists j; split_and!; try done; [lia |].
    destruct (decide (i = j)); [by subst | lia].
  - split; [done | intros (j&?&?&_); lia].
Qed.

(** [containsSubstr], written out without the strings package, decides
    whether a text occurs in another. *)
Theorem containsSubstr_correct s sub :
  Store.containsSubstr s sub = true ↔ ∃ pre post, s2b s = pre ++ s2b sub ++ post.
Proof.
  unfold Store.containsSubstr. destruct (s2b sub) as [|c sub'] eqn:Hsub.
  { split; [intros _; by exists [], (s2b s) | done]. }
  rewrite <-Hsub, contains_from_spec by lia. split.
  - intros (j&_&_&Hj). exists (take j (s2b s)), (drop (length (s2b sub)) (drop j (s2b s))).
    rewrite <-Hj at 1. by rewrite take_drop, take_drop.
  - intros (pre&post&->). exists (length pre). rewrite !length_app. split_and!; [lia | lia |].
    by rewrite drop_app_length, take_app_length.
Qed.

(** C33: [InsertReversalTransaction] blames the right constraint: it reports
    [ErrAlreadyReversed] only when the original has a reversal,
    [ErrIdempotencyConflict] only when the key or the id is taken, and it succeeds
    only when none is; other failures of the database stay internal errors. *)
Theorem reversal_insert_classified env `{!OthersOk env} t C L w r w' :
  pg_open C L w → pg_run (Store.InsertReversalTransaction (Pgx0:=PgM_Pgx env) t) w = (r, w') →
  match r with
  | Ok _ => L.(txns) !! t.(txn_ID) = None ∧ key_fresh t.(txn_IdempotencyKey) L ∧
            not_reversed t.(txn_ReversesTransactionID) L ∧
            pg_open C (add_txn t.(txn_ID) (txn_of t) L) w'
  | Err e => internal e ∨
             (e = ErrIdempotencyConflict ∧
              (is_Some (L.(txns) !! t.(txn_ID)) ∨ ¬ key_fresh t.(txn_IdempotencyKey) L)) ∨
             (e = ErrAlreadyReversed ∧ ¬ not_reversed t.(txn_ReversesTransactionID) L)
  end.
Proof.
  intros Ho Hr. apply (store_insert_rev (HB:=PgM_BlockSpec env) _ C L) in Hr; [|done].
  destruct r as [[]|e]; [|by destruct Hr]. destruct Hr as (?&?&?&?). done.
Qed.

(** The open transaction of a seeded database. *)
Definition seed_open : World := (pg_run (pool_BeginTx (Pgx:=PgM_Pgx demo_env)) seed_world).2.

Lemma seed_open_ok : pg_open seed_ledger seed_ledger seed_open.
Proof.
  pose proof seed_committed as Hc. unfold pg_committed in Hc. simpl in Hc.
  split_and!; [split | |].
  - apply seed_db_ok.
  - intros tx [= <-]. split; [apply seed_db_ok | done].
  - exact Hc.
  - unfold pg_working. simpl. by rewrite Hc.
Qed.

Lemma reversal_insert_classified_witness :
  let t := new_Transaction (demo_uuid 9) KindReversal "seed-deposit-bob-001" (Some AliceDeposit) in
  ∃ r w', pg_run (Store.InsertReversalTransaction (Pgx0:=PgM_Pgx demo_env) t) seed_open = (r, w') ∧
    match r with
    | Ok _ => key_fresh "seed-deposit-bob-001" seed_ledger
    | Err e => internal e ∨ e = ErrIdempotencyConflict ∨ e = ErrAlreadyReversed
    end.
Proof.
  intros t.
  destruct (pg_run (Store.InsertReversalTransaction (Pgx0:=PgM_Pgx demo_env) t) seed_open) as [r w'] eqn:E.
  exists r, w'. split; [done |].
  apply (reversal_insert_classified demo_env t seed_ledger seed_ledger) in E; [|apply seed_open_ok].
  destruct r as [[]|e]; [by destruct E as (_&?&_) | destruct E as [?|[[??]|[??]]]; auto].
Defined.

(** ** Listings *)

(** A transaction row with its entries, as the listings return it. *)
Definition hydrated (t : Tables) (rt : transaction_rec) : Transaction :=
  with_Entries (MkTransaction rt.(rt_id) rt.(rt_kind) rt.(rt_idempotency_key) rt.(rt_reverses)
                  rt.(rt_created_at) [])
    (entry_of t.(accounts) <$> entries_of rt.(rt_id) t).

Lemma scan_transaction_rows label rows :
  Store.scan_rows label Store.scanTransactionRow rows
  = Ok ((λ rt, MkTransaction rt.(rt_id) rt.(rt_kind) rt.(rt_idempotency_key) rt.(rt_reverses)
                 rt.(rt_created_at) []) <$> rows).
Proof. induction rows as [|rt rows IH]; [done |]. rewrite fmap_cons. cbn [Store.scan_rows]. by rewrite IH. Qed.

#[export] Instance txn_newer_id_trans : Transitive txn_newer_id.
Proof.
  intros x y z [H1|[H1 L1]] [H2|[H2 L2]]; unfold txn_newer_id; [left; lia | left; lia | left; lia |].
  right. split; [lia | by etrans].
Qed.

#[export] Instance txn_newer_id_total : Total txn_newer_id.
Proof.
  intros x y. unfold txn_newer_id. destruct (Z.lt_trichotomy (rt_created_at x) (rt_created_at y)) as [?|[?|?]]; auto.
  destruct (Uuid.le_total (rt_id x) (rt_id y)); auto.
Qed.

(** Most recent first, then by descending id. *)
Definition newer (t1 t2 : Transaction) : Prop :=
  t2.(txn_CreatedAt) < t1.(txn_CreatedAt) ∨
  (t1.(txn_CreatedAt) = t2.(txn_CreatedAt) ∧ Uuid.le t2.(txn_ID) t1.(txn_ID)).

Lemma calm_populate env `{!Calm env} rows w :
  db_ok w.(w_db) →
  ∃ w', pg_run (Store.populate (Pgx0:=PgM_Pgx env)
          ((λ rt, MkTransaction rt.(rt_id) rt.(rt_kind) rt.(rt_idempotency_key) rt.(rt_reverses)
                    rt.(rt_created_at) []) <$> rows)) w
        = (Ok (hydrated w.(w_db).(tables) <$> rows), w') ∧ w'.(w_db) = w.(w_db).
Proof.
  revert w. induction rows as [|rt rows IH]; intros w Hok; [by exists w |].
  destruct (IH (ticked w) Hok) as (w'&Hr&Hdb). exists w'. split; [|done].
  rewrite !fmap_cons. cbn [Store.populate]. pg_next (calm_listEntries env rt.(rt_id) w Hok). by pg_next Hr.
Qed.

Lemma page_fmap {A B} (f : A → B) limit offset l : page limit offset (f <$> l) = f <$> page limit offset l.
Proof. unfold page. by rewrite fmap_take, fmap_drop. Qed.

(** C36: the pages of [ListTransactions] are consecutive slices of one list: the
    recorded transactions of the asked kind, each once and with its entries, most
    recent first and by descending id among equals. *)
Theorem list_transactions_pages env `{!Calm env} kind w :
  pg_idle w →
  ∃ all, StronglySorted newer all ∧ NoDup (txn_ID <$> all) ∧
    (∀ id, id ∈ txn_ID <$> all ↔ ∃ x, (pg_committed w).(txns) !! id = Some x ∧
                                        (∀ k, kind = Some k → x.(x_kind) = k)) ∧
    Forall (λ t, stored t t.(txn_Entries) (pg_committed w)) all ∧
    ∀ limit offset, ∃ w',
      pg_run (Store.ListTransactions (Pgx0:=PgM_Pgx env) (Store.MkListOpts limit offset kind)) w
      = (Ok (take (Z.to_nat limit) (drop (Z.to_nat offset) all)), w') ∧ w'.(w_db) = w.(w_db).
Proof.
  intros Hw. set (t := w.(w_db).(tables)).
  set (rows := merge_sort txn_newer_id (select_transactions (kind_matches kind) t)).
  assert (Hperm : rows ≡ₚ select_transactions (kind_matches kind) t) by apply merge_sort_Permutation.
  assert (Hids : txn_ID <$> (hydrated t <$> rows) = rt_id <$> rows) by (by rewrite <-list_fmap_compose).
  exists (hydrated t <$> rows). rewrite Hids. split_and!.
  - apply (StronglySorted_fmap _ txn_newer_id); [done |]. apply StronglySorted_merge_sort; apply _.
  - rewrite Hperm. unfold select_transactions. rewrite <-list_fmap_compose.
    apply (sublist_NoDup _ (map_to_list t.(transactions)).*1); [apply NoDup_fst_map_to_list |].
    rewrite (list_fmap_ext _ fst) by (by intros ? [] ?). apply fmap_sublist, sublist_filter.
  - intros id. rewrite Hperm, list_elem_of_fmap. split.
    + intros (rt&->&(x&Hrt&Hx&HP)%select_transactions_rows). exists (abs_txn t rt.(rt_id) x).
      unfold pg_committed. rewrite abs_txns. fold t. rewrite Hx. split; [done |].
      intros k ->. by apply bool_decide_eq_true in HP.
    + intros (y&Hy&Hk). unfold pg_committed in Hy. rewrite abs_txns in Hy.
      apply fmap_Some in Hy as (x&Hx&->). exists (rec_of_transaction (id, x)). split; [done |].
      apply list_elem_of_fmap. exists (id, x). split; [done |]. apply list_elem_of_filter.
      split; [|by apply elem_of_map_to_list]. destruct kind as [k|]; [|done].
      apply bool_decide_eq_true. by apply Hk.
  - apply Forall_fmap, Forall_forall. intros rt Hrt. rewrite Hperm in Hrt.
    apply select_transactions_rows in Hrt as (x&Hrt&Hx&_). rewrite Hrt.
    by apply (stored_later t); [apply Hw | |].
  - intros limit offset. destruct (calm_populate env (page limit offset rows) (ticked w)) as (w'&Hr&Hdb); [apply Hw |].
    exists w'. split; [|done]. unfold Store.ListTransactions.
    destruct (calm_Query env (SelectTransactions kind limit offset) w) as (l&Hq&Hx); [by split; [|eauto] |].
    simpl in Hx. injection Hx as <-. pg_next Hq. cbn [rows_data]. rewrite scan_transaction_rows.
    fold (page limit offset (hydrated t <$> rows)). rewrite page_fmap. exact Hr.
Qed.

Lemma list_transactions_pages_witness :
  ∃ all, Forall (λ t, stored t t.(txn_Entries) (pg_committed seed_world)) all ∧
    ∃ w', pg_run (Store.ListTransactions (Pgx0:=PgM_Pgx demo_env) (Store.MkListOpts 2 1 None)) seed_world
          = (Ok (take 2 (drop 1 all)), w').
Proof.
  destruct (list_transactions_pages demo_env None seed_world) as (all&_&_&_&Hst&Hp); [apply seed_idle |].
  exists all. split; [exact Hst |]. destruct (Hp 2 1) as (w'&Hr&_). exists w'. exact Hr.
Defined.

(** ** Accounts *)

(** [CreateAccount] opens a user account with a zero balance and the name it
    was given, and changes nothing else; [GetAccount] then finds that account. *)
Theorem created_account_found env `{!Calm env} name id w :
  env_uuid env w.(w_tick) = Some id → (pg_committed w).(accts) !! id = None → pg_idle w →
  ∃ a w', pg_run (Store.CreateAccount (Pgx0:=PgM_Pgx env) (GoRuntime0:=PgM_Runtime env) name) w = (Ok a, w') ∧
    a.(acc_ID) = id ∧ a.(acc_Name) = name ∧ a.(acc_Balance) = Money.of_units 0 ∧ a.(acc_IsSystem) = false ∧
    pg_committed w' = add_acct id (pg_committed w) ∧
    pg_run (Store.GetAccount (Pgx0:=PgM_Pgx env) id) w' = (Ok a, ticked w').
Proof.
  intros Hid Hfree Hw. set (now := env_now env (S w.(w_tick))). set (t := w.(w_db).(tables)).
  unfold pg_committed in Hfree. rewrite abs_accts in Hfree. apply fmap_None in Hfree. fold t in Hfree.
  set (row := AccountRow name 0 false now now).
  set (t' := with_accounts t (<[id := row]> t.(accounts))).
  assert (Hins : insert_account id name now t = Ok t') by (unfold insert_account; by rewrite Hfree).
  set (w' := MkWorld (MkDB t' w.(w_db).(entries_seq) w.(w_db).(audit_seq)) w.(w_tx)
               (S (S w.(w_tick))) w.(w_log)).
  assert (Hrow : t'.(accounts) !! id = Some row) by (simpl; by rewrite lookup_insert, decide_True).
  assert (Hpool : pg_run (pool_exec (Pgx:=PgM_Pgx env) (InsertAccount id name)) (ticked w)
                  = (Ok [rec_of_account (id, row)], w')).
  { rewrite (calm_pool env). unfold autocommit. simpl. fold now. fold t. rewrite Hins, Hrow. done. }
  exists (MkAccount id name (Money.of_units 0) false now now), w'. split_and!; try done.
  - unfold Store.CreateAccount. pg_next (calm_NewV7 env w id Hid). pg_next Hpool.
    rewrite pg_run_ret. unfold Store.scan_row. by rewrite scanAccount_rec.
  - exact (proj1 (abs_insert_account _ _ _ _ _ Hins)).
  - unfold Store.GetAccount.
    assert (Hq : pg_run (pool_exec (Pgx:=PgM_Pgx env) (SelectAccount id)) w'
                 = (Ok [rec_of_account (id, row)], ticked w')).
    { rewrite (calm_pool env). unfold autocommit. cbn [sql_exec].
      change (tables (w_db w')) with t'. by rewrite Hrow. }
    pg_next Hq. rewrite pg_run_ret. unfold Store.scan_row. by rewrite scanAccount_rec.
Qed.

Lemma created_account_found_witness :
  ∃ a w', pg_run (Store.CreateAccount (Pgx0:=PgM_Pgx demo_env) (GoRuntime0:=PgM_Runtime demo_env) "Dora") seed_world
          = (Ok a, w') ∧ a.(acc_Name) = "Dora".
Proof.
  destruct (created_account_found demo_env "Dora" (demo_uuid 0) seed_world) as (a&w'&Hr&_&Hn&_).
  - reflexivity.
  - rewrite seed_committed. by vm_compute.
  - apply seed_idle.
  - exists a, w'. split; [exact Hr | exact Hn].
Defined.

(** C16: the demo migration can be run again at any later time: after any history
    of calls it leaves the database exactly as it is. *)
Theorem migration_rerun_noop env `{!OthersOk env} cs now now' w' :
  Forall proper_call cs → pg_run (history env cs) (MkWorld (seed_db now) None 0 []) = (tt, w') →
  seed_demo_accounts_up now' w'.(w_db) = Ok w'.(w_db).
Proof.
  intros Hcs Hr. apply seeded_rerun.
  assert (Hs : pg_idle (MkWorld (seed_db now) None 0 [])).
  { apply pg_idle_intro; [apply seed_db_ok | done |]. unfold pg_committed; simpl.
    rewrite seed_abs. apply seed_ledger_inv. }
  apply (history_keeps env cs Hcs) in Hr as [_ [Hev _]]; [|done].
  apply (seeded_evolves seed_ledger); [apply seed_ledger_seeded |].
  unfold pg_committed in Hev; simpl in Hev. by rewrite seed_abs in Hev.
Qed.

Lemma migration_rerun_noop_witness :
  let w' := (pg_run (history busy_env [CallTransfer Alice Bob (Money.of_units 5) "a" "r"]) seed_world).2 in
  seed_demo_accounts_up 99 w'.(w_db) = Ok w'.(w_db).
Proof.
  destruct (pg_run (history busy_env [CallTransfer Alice Bob (Money.of_units 5) "a" "r"]) seed_world)
    as [[] w'] eqn:E.
  apply (migration_rerun_noop busy_env _ 0 99) in E; [exact E |]. by repeat constructor; left.
Defined.
