(* ===== verification/Divergences.v ===== *)
(** * Where the documents and the code part

    Behaviours of the service that its documents describe differently, each shown
    on the model. *)

From S2P Require Import Prelude GoStd Decimal Money Uuid Ledger Schema Pgx Store Service LedgerSpec LedgerFacts StorerSpec ServiceSpec Numeric SchemaFacts StoreBlocks StoreRefines Guarantee Clients Migrations Progress Correctness.
From stdpp Require Import options.
Import Ledger Schema LedgerSpec Migrations.
Open Scope Z_scope.

(** C40: a retried transfer is answered with the same transaction, but not with
    the same body: the first answer has no entries and no creation time, the
    replay carries both entries. *)
Theorem replay_same_id_other_body env `{!Calm env} srcID dstID amount idemKey requestID id w :
  let rq := transfer_rq srcID dstID amount idemKey requestID in
  Money.proper amount → srcID ≠ dstID → srcID ≠ ExternalAccountID → dstID ≠ ExternalAccountID →
  env_uuid env (S w.(w_tick)) = Some id → pg_idle w → has_room w →
  can_move rq id (pg_committed w) → Money.units amount <= units_of srcID (pg_committed w) →
  ∃ t es w1 t' es' w2,
    run_Transfer env srcID dstID amount idemKey requestID w = (Ok (t, es), w1) ∧
    run_Transfer env srcID dstID amount idemKey requestID w1 = (Ok (t', es'), w2) ∧
    t'.(txn_ID) = t.(txn_ID) ∧ w2.(w_db) = w1.(w_db) ∧
    t.(txn_Entries) = [] ∧ t.(txn_CreatedAt) = zero_time ∧ length t'.(txn_Entries) = 2%nat.
Proof.
  intros rq Hp Hne Hs Hd Hid Hw Hroom Hc Hfu.
  destruct (calm_Transfer env srcID dstID amount idemKey requestID id w) as (w1&Hr&Hw1&HL1); [done..|].
  assert (Hx : (pg_committed w1).(txns) !! id = Some (Txn KindTransfer idemKey None (rq_legs rq))).
  { rewrite HL1. simpl. by rewrite lookup_insert, decide_True. }
  destruct (calm_get_key_used env idemKey w1 Hw1) as (t'&es'&Hg&(y&Hy&_&Hkey&_&Hes&Hall)&Hk).
  { intros Hf. by apply (Hf id _ Hx). }
  assert (Hid' : t'.(txn_ID) = id).
  { eapply (inv_keys _ (proj2 (proj2 Hw1))); [exact Hy | exact Hx |]. simpl. congruence. }
  exists (rq_txn rq id), (rq_entries rq id), w1, t', es', (ticked (ticked w1)).
  split_and!; [done | | done | done | done | done |].
  - unfold run_Transfer, Service.Transfer.
    rewrite Money.proper_IsPositive by done.
    rewrite (proj2 (Z.ltb_lt _ _)) by apply (cm_units _ _ _ Hc). simpl negb. cbv iota.
    rewrite decide_False by done. rewrite decide_False by tauto. by pg_next Hg.
  - rewrite Hid', Hx in Hy. injection Hy as <-. rewrite Hes. by apply Forall2_length in Hall.
Qed.

Lemma replay_same_id_other_body_witness :
  ∃ t es w1, run_Transfer demo_env Alice Bob (Money.of_units 2500) "k" "r" seed_world = (Ok (t, es), w1) ∧
    t.(txn_Entries) = [].
Proof.
  destruct (replay_same_id_other_body demo_env Alice Bob (Money.of_units 2500) "k" "r" (demo_uuid 1) seed_world)
    as (t&es&w1&_&_&_&Hr&_&_&_&He&_).
  - by left.
  - done.
  - done.
  - done.
  - done.
  - apply seed_idle.
  - apply seed_has_room.
  - rewrite seed_committed. apply can_move_decide. by vm_compute.
  - rewrite seed_committed. by vm_compute.
  - exists t, es, w1. split; [exact Hr | exact He].
Defined.

(** Another client commits, under the same key, a transfer of all that Alice owns
    between our look-up of the key and our transaction. *)
Definition racing_env : Env :=
  with_clients demo_env (λ n, (demo_env, if decide (n = 2)%nat
    then [CallTransfer Alice Bob (Money.of_units 100000000) "k" "r"] else [])).

(** two clients that send the same transfer with the same key do not always
    see the same answer: when the winner's transfer empties the source account,
    the loser is refused for insufficient funds, because the balance is checked
    before the key. *)
Theorem race_loser_refused :
  OthersOk racing_env ∧
  let out := run_Transfer racing_env Alice Bob (Money.of_units 100000000) "k" "r" seed_world in
  out.1 = Err ErrInsufficientFunds ∧ ¬ key_fresh "k" (pg_committed out.2) ∧
  units_of Bob (pg_committed out.2) = 200000000.
Proof.
  split; [apply clients_others_ok; intros n; split; [apply _ |]; simpl; case_decide; [|done];
          by repeat constructor; left |].
  split_and!; [by vm_compute | | by vm_compute].
  apply (bool_decide_unpack _). by vm_compute.
Qed.

(** The first query fails. *)
Definition flaky_env : Env :=
  MkEnv (λ n, if decide (n = 0)%nat then FailBefore "connection reset" else NoFault)
    (env_cut demo_env) (env_uuid demo_env) (env_now demo_env) (env_pick demo_env) (env_scan demo_env) (env_others demo_env).

(** a failed look-up of the key is not reported: the transfer goes on and
    succeeds, and no failure is audited. *)
Theorem lookup_failure_ignored :
  let out := run_Transfer flaky_env Alice Bob (Money.of_units 2500) "k" "r" seed_world in
  (∃ p, out.1 = Ok p) ∧ u_outcome <$> (pg_committed out.2).(trail) = [OutcomeSuccess].
Proof. split; [by eexists; vm_compute | by vm_compute]. Qed.
