(* ===== verification/Prog.v ===== *)
(** * Programs over the driver

    The service and the store are written over any monad with the driver and the
    runtime.  [prog] is the free one: a program is the tree of the calls it makes
    and of its reactions to their answers.  Run at [prog], the code of [Store] and
    [Service] becomes a value that a scheduler can execute call by call. *)

From S2P Require Import Prelude GoStd Decimal Money Uuid Ledger Schema Pgx.
From stdpp Require Import options.
Import Ledger Schema.

Inductive prog (A : Type) : Type :=
| Done (a : A)
| PoolExec {B : Type} (q : sql B) (k : result error B → prog A)
| PoolQuery {R : Type} (q : sql (list R)) (k : result error (Rows R) → prog A)
| BeginTx (k : result error unit → prog A)
| TxExec {B : Type} (q : sql B) (k : result error B → prog A)
| TxQuery {R : Type} (q : sql (list R)) (k : result error (Rows R) → prog A)
| Commit (k : result error unit → prog A)
| Rollback (k : unit → prog A)
| DrawV7 (k : result error UUID → prog A)
| DrawV4 (k : UUID → prog A)
| Now (k : Time → prog A)
| Log (msg : string) (k : unit → prog A).

Arguments Done {A} a.
Arguments PoolExec {A B} q k.
Arguments PoolQuery {A R} q k.
Arguments BeginTx {A} k.
Arguments TxExec {A B} q k.
Arguments TxQuery {A R} q k.
Arguments Commit {A} k.
Arguments Rollback {A} k.
Arguments DrawV7 {A} k.
Arguments DrawV4 {A} k.
Arguments Now {A} k.
Arguments Log {A} msg k.

#[export] Instance prog_ret : MRet prog := @Done.

#[export] Instance prog_bind : MBind prog := λ A B f,
  fix bind m :=
    match m with
    | Done a => f a
    | PoolExec q k => PoolExec q (λ r, bind (k r))
    | PoolQuery q k => PoolQuery q (λ r, bind (k r))
    | BeginTx k => BeginTx (λ r, bind (k r))
    | TxExec q k => TxExec q (λ r, bind (k r))
    | TxQuery q k => TxQuery q (λ r, bind (k r))
    | Commit k => Commit (λ r, bind (k r))
    | Rollback k => Rollback (λ r, bind (k r))
    | DrawV7 k => DrawV7 (λ r, bind (k r))
    | DrawV4 k => DrawV4 (λ r, bind (k r))
    | Now k => Now (λ r, bind (k r))
    | Log msg k => Log msg (λ r, bind (k r))
    end.

#[export] Instance prog_Pgx : Pgx prog := {
  pool_exec A q := PoolExec q Done;
  pool_Query R q := PoolQuery q Done;
  pool_BeginTx := BeginTx Done;
  tx_exec A q := TxExec q Done;
  tx_Query R q := TxQuery q Done;
  tx_Commit := Commit Done;
  tx_Rollback := Rollback Done }.

#[export] Instance prog_Runtime : GoRuntime prog := {
  uuid_NewV7 := DrawV7 Done;
  uuid_New := DrawV4 Done;
  time_Now := Now Done;
  logger_Error msg := Log msg Done }.

(** ** Sub-programs *)

(** [child p' p]: [p'] is the reaction of [p] to some answer. *)
Definition child {A} (p' p : prog A) : Prop :=
  match p with
  | Done _ => False
  | PoolExec _ k => ∃ r, p' = k r
  | PoolQuery _ k => ∃ r, p' = k r
  | BeginTx k => ∃ r, p' = k r
  | TxExec _ k => ∃ r, p' = k r
  | TxQuery _ k => ∃ r, p' = k r
  | Commit k => ∃ r, p' = k r
  | Rollback k => ∃ r, p' = k r
  | DrawV7 k => ∃ r, p' = k r
  | DrawV4 k => ∃ r, p' = k r
  | Now k => ∃ r, p' = k r
  | Log _ k => ∃ r, p' = k r
  end.

(** Every sequence of answers brings a program to its end. *)
Lemma child_wf {A} : well_founded (child (A:=A)).
Proof. intros p. induction p; constructor; simpl; [done |..]; intros p' [r ->]; auto. Qed.

(** The result of a finished program. *)
Definition finished {A} (p : prog A) : option A :=
  match p with Done a => Some a | _ => None end.
