(* ===== verification/Machine.v ===== *)
(** * Sessions that share a server

    Any number of sessions execute their programs call by call on one PostgreSQL
    server, at the isolation level READ COMMITTED: a statement of a transaction
    block sees what is committed when it runs, and the block's own writes, which
    nobody else sees before the commit.  A statement first acquires the locks it
    needs, one at a time, and waits while another session holds one:

    - [SELECT ... ORDER BY id::text FOR UPDATE] takes a snapshot of the ids that
      exist, locks those rows in the order of their text, and returns the newest
      version of each;
    - [UPDATE] locks the row it writes;
    - [INSERT INTO transactions] reserves its entries in the three unique indexes,
      in the order of the indexes: an insertion of the same value by another block
      waits until the first one ends;
    - [INSERT INTO entries] needs that nobody else has locked the account it
      references.

    Locks are kept until the block ends.  Statements outside of blocks run in a
    transaction of their own and commit at once.

    The connection of a session may be lost at any moment: the server rolls its
    block back and releases its locks, and the session, if its process lives on,
    meets errors until it rolls back too. *)

From S2P Require Import Prelude GoStd Decimal Money Uuid Ledger Schema Pgx Prog.
From stdpp Require Import options.
Import Ledger Schema.
Open Scope Z_scope.

(** ** Locks *)

Inductive resource :=
| RowLock (id : UUID)
| TxnIdLock (id : UUID)
| TxnKeyLock (key : string)
| TxnReversesLock (id : UUID).

#[export] Instance resource_eq_dec : EqDecision resource.
Proof. solve_decision. Defined.

(** The order in which a block acquires its locks: rows, in the order of their
    text, then the unique indexes. *)
Definition rank (r : resource) : nat :=
  match r with RowLock _ => 0 | TxnIdLock _ => 1 | TxnKeyLock _ => 2 | TxnReversesLock _ => 3 end.

Definition below (r1 r2 : resource) : Prop :=
  match r1, r2 with
  | RowLock id1, RowLock id2 => Uuid.le id1 id2 ∧ id1 ≠ id2
  | _, _ => (rank r1 < rank r2)%nat
  end.

(** The locks that a statement acquires before it runs, in order. *)
Definition needs {A} (q : sql A) (t : Tables) : list resource :=
  match q with
  | UpdateAccountBalance _ _ id =>
      if bool_decide (is_Some (t.(accounts) !! id)) then [RowLock id] else []
  | InsertTransactionRow id _ key rev =>
      [TxnIdLock id; TxnKeyLock key] ++ (TxnReversesLock <$> option_list rev)
  | _ => []
  end.

(** The rows that must not be locked by others. *)
Definition shares {A} (q : sql A) : list resource :=
  match q with
  | InsertEntryRow _ accountID _ _ => [RowLock accountID]
  | _ => []
  end.

(** The ids of a locking read, and the same statement on a part of them. *)
Definition lock_ids {A} (q : sql A) : option (list UUID) :=
  match q with SelectAccountsForUpdate ids => Some ids | _ => None end.

Definition narrow {A} (q : sql A) (scan : list UUID) : sql A :=
  match q in sql A return sql A with
  | SelectAccountsForUpdate _ => SelectAccountsForUpdate scan
  | q => q
  end.

(** ** The writes of an open block *)

Record writes := MkWrites {
  w_accounts : gmap UUID account_row;
  w_transactions : gmap UUID transaction_row;
  w_entries : list entry_row;
  w_audit : list audit_row }.

Definition no_writes : writes := MkWrites ∅ ∅ [] [].

(** What a statement of the block sees. *)
Definition view (t : Tables) (w : writes) : Tables :=
  MkTables (w.(w_accounts) ∪ t.(accounts)) (w.(w_transactions) ∪ t.(transactions))
    (t.(entries) ++ w.(w_entries)) (t.(audit_log) ++ w.(w_audit)).

(** The new version of a row, as the statement left it in [m]. *)
Definition put_row {V} (id : UUID) (m w : gmap UUID V) : gmap UUID V :=
  match m !! id with Some r => <[id := r]> w | None => w end.

(** The writes after a statement that turned the view [t] into [t']. *)
Definition record_writes {A} (q : sql A) (t t' : Tables) (w : writes) : writes :=
  match q with
  | UpdateAccountBalance _ _ id | InsertAccount id _ =>
      MkWrites (put_row id t'.(accounts) w.(w_accounts)) w.(w_transactions) w.(w_entries) w.(w_audit)
  | InsertTransactionRow id _ _ _ =>
      MkWrites w.(w_accounts) (put_row id t'.(transactions) w.(w_transactions)) w.(w_entries) w.(w_audit)
  | InsertEntryRow _ _ _ _ =>
      MkWrites w.(w_accounts) w.(w_transactions)
        (w.(w_entries) ++ drop (length t.(entries)) t'.(entries)) w.(w_audit)
  | InsertAudit _ _ _ _ _ _ _ _ =>
      MkWrites w.(w_accounts) w.(w_transactions) w.(w_entries)
        (w.(w_audit) ++ drop (length t.(audit_log)) t'.(audit_log))
  | _ => w
  end.

(** ** Sessions *)

(** [b_start] is the program as the block began: it plays no part in the
    execution, the theorems refer to it.  [b_scan] is the locking read in
    progress: the ids of its snapshot and those still to lock. *)
Record block (A : Type) := MkBlock {
  b_start : prog A;
  b_writes : writes;
  b_aborted : bool;
  b_pending : list UUID;
  b_held : list resource;
  b_scan : option (list UUID * list UUID) }.
Arguments MkBlock {A} _ _ _ _ _ _.
Arguments b_start {A} _.
Arguments b_writes {A} _.
Arguments b_aborted {A} _.
Arguments b_pending {A} _.
Arguments b_held {A} _.
Arguments b_scan {A} _.

Record session (A : Type) := MkSession { s_prog : prog A; s_block : option (block A) }.
Arguments MkSession {A} _ _.
Arguments s_prog {A} _.
Arguments s_block {A} _.

Definition new_block {A} (p : prog A) : block A := MkBlock p no_writes false [] [] None.
Definition aborted {A} (b : block A) : block A :=
  MkBlock b.(b_start) b.(b_writes) true b.(b_pending) b.(b_held) None.
Definition acquire {A} (r : resource) (b : block A) : block A :=
  MkBlock b.(b_start) b.(b_writes) b.(b_aborted) b.(b_pending) (r :: b.(b_held)) b.(b_scan).
Definition scanning {A} (scan : option (list UUID * list UUID)) (b : block A) : block A :=
  MkBlock b.(b_start) b.(b_writes) b.(b_aborted) b.(b_pending) b.(b_held) scan.
Definition wrote {A} (w : writes) (events : list UUID) (b : block A) : block A :=
  MkBlock b.(b_start) w b.(b_aborted) (b.(b_pending) ++ events) b.(b_held) None.

(** What is left of a block that the server has rolled back: the session still has
    its transaction, which answers nothing but errors. *)
Definition cut {A} (b : block A) : block A := MkBlock b.(b_start) no_writes true [] [] None.

(** The next lock a statement waits for. *)
Definition next_need {A B} (q : sql B) (t : Tables) (b : block A) : option resource :=
  head (filter (λ r, r ∉ b.(b_held)) (needs q t)).

(** ** Steps of a session *)

(** What a step does to the committed tables: nothing, the transaction of a single
    statement, or a block, from its start to what its session does next. *)
Inductive effect (A : Type) :=
| Silent
| Autocommits
| Commits (start stop : prog A).
Arguments Silent {A}.
Arguments Autocommits {A}.
Arguments Commits {A} start stop.

(** The answer of a statement outside of blocks.  A faulty call fails before or
    after it has taken effect. *)
Definition pool_answer {B} (faulty : bool) (q : sql B) (db : DB) (r : result error B) (db' : DB) : Prop :=
  ∃ env n,
    if faulty then (∃ msg, r = Err (Opaque msg)) ∧ (db' = db ∨ db' = (autocommit env n q db).2)
    else autocommit env n q db = (r, db').

(** A query answers with a cursor; a failure shows at once or after some rows. *)
Definition as_rows {R} (r : result error (list R)) (c : result error (Rows R)) : Prop :=
  match r with
  | Ok l => c = Ok (MkRows l None)
  | Err e => c = Err e ∨ ∃ l, c = Ok (MkRows l (Some e))
  end.

(** The error of a call in an aborted block: the server's, or that of the lost
    connection. *)
Definition refusal (faulty : bool) (e0 e : error) : Prop :=
  if faulty then ∃ msg, e = Opaque msg else e = e0.

Definition seen {A} (db : DB) (b : block A) : Tables := view db.(tables) b.(b_writes).

(** The execution of a statement of the block: [q] is the statement of the
    program, [q'] the one that runs. *)
Definition executes {A B} (q q' : sql B) (db : DB) (b : block A) (r : result error B) (db' : DB)
    (b' : block A) : Prop :=
  ∃ cx db1,
    sql_exec cx q' (MkDB (seen db b) db.(entries_seq) db.(audit_seq)) = (r, db1) ∧
    db' = MkDB db.(tables) db1.(entries_seq) db1.(audit_seq) ∧
    b' = match r with
         | Ok _ => wrote (record_writes q (seen db b) db1.(tables) b.(b_writes)) (trigger_events q) b
         | Err _ => aborted b
         end.

(** One step of a statement in an open block that is not aborted: it acquires a
    lock ([None]) or answers. *)
Definition exec_step {A B} (free : resource → Prop) (q : sql B) (db : DB) (b : block A)
    (r : option (result error B)) (db' : DB) (b' : block A) : Prop :=
  match next_need q (seen db b) b with
  | Some l => free l ∧ r = None ∧ db' = db ∧ b' = acquire l b
  | None => Forall free (shares q) ∧ ∃ a, r = Some a ∧ executes q q db b a db' b'
  end.

Definition query_step {A R} (free : resource → Prop) (q : sql (list R)) (db : DB) (b : block A)
    (r : option (result error (list R))) (db' : DB) (b' : block A) : Prop :=
  match lock_ids q, b.(b_scan) with
  | None, _ => ∃ a, r = Some a ∧ executes q q db b a db' b'
  | Some ids, None =>
      let scan := filter (λ id, is_Some ((seen db b).(accounts) !! id)) (Uuid.sort ids) in
      r = None ∧ db' = db ∧ b' = scanning (Some (scan, scan)) b
  | Some _, Some (scan, id :: todo) =>
      r = None ∧ db' = db ∧
      (if bool_decide (RowLock id ∈ b.(b_held)) then b' = scanning (Some (scan, todo)) b
       else free (RowLock id) ∧ b' = acquire (RowLock id) (scanning (Some (scan, todo)) b))
  | Some _, Some (scan, []) => ∃ a, r = Some a ∧ executes q (narrow q scan) db b a db' b'
  end.

Definition session_step {A} (free : resource → Prop) (faulty : bool) (db : DB) (s : session A)
    (db' : DB) (s' : session A) (ev : effect A) : Prop :=
  let silent p b := db' = db ∧ s' = MkSession p b ∧ ev = Silent in
  match s.(s_prog) with
  | Done _ => False
  | PoolExec q k =>
      ∃ r, pool_answer faulty q db r db' ∧ s' = MkSession (k r) s.(s_block) ∧ ev = Autocommits
  | PoolQuery q k =>
      ∃ r c, pool_answer faulty q db r db' ∧ as_rows r c ∧
             s' = MkSession (k c) s.(s_block) ∧ ev = Autocommits
  | BeginTx k =>
      if faulty then ∃ msg, silent (k (Err (Opaque msg))) None
      else silent (k (Ok tt)) (Some (new_block (k (Ok tt))))
  | TxExec q k =>
      match s.(s_block) with
      | None => faulty = false ∧ silent (k (Err tx_closed)) None
      | Some b =>
          if b.(b_aborted) then
            ∃ e, refusal faulty in_failed_transaction e ∧ silent (k (Err e)) (Some b)
          else if faulty then ∃ msg, silent (k (Err (Opaque msg))) (Some (aborted b))
          else ∃ r b', exec_step free q db b r db' b' ∧ ev = Silent ∧
               s' = MkSession (match r with Some a => k a | None => s.(s_prog) end) (Some b')
      end
  | TxQuery q k =>
      match s.(s_block) with
      | None => faulty = false ∧ silent (k (Err tx_closed)) None
      | Some b =>
          if b.(b_aborted) then
            ∃ e c, refusal faulty in_failed_transaction e ∧ as_rows (Err e) c ∧ silent (k c) (Some b)
          else if faulty then
            ∃ msg c, as_rows (Err (Opaque msg)) c ∧ silent (k c) (Some (aborted b))
          else ∃ r b', query_step free q db b r db' b' ∧ ev = Silent ∧
               match r with
               | Some a => ∃ c, as_rows a c ∧ s' = MkSession (k c) (Some b')
               | None => s' = MkSession s.(s_prog) (Some b')
               end
      end
  | Commit k =>
      match s.(s_block) with
      | None => faulty = false ∧ silent (k (Err tx_closed)) None
      | Some b =>
          if b.(b_aborted) then
            ∃ e, refusal faulty tx_commit_rollback e ∧ silent (k (Err e)) None
          else
            let ok := triggers_pass (MkDB (seen db b) 0 0) b.(b_pending) in
            let close r := s' = MkSession (k r) None in
            let commit r := db' = MkDB (seen db b) db.(entries_seq) db.(audit_seq) ∧ close r ∧
                            ev = Commits b.(b_start) (k r) in
            if faulty then
              ∃ msg, silent (k (Err (Opaque msg))) None ∨ (ok = true ∧ commit (Err (Opaque msg)))
            else if ok then commit (Ok tt)
            else silent (k (Err trigger_exception)) None
      end
  | Rollback k => faulty = false ∧ silent (k tt) None
  | DrawV7 k =>
      if faulty then ∃ msg, silent (k (Err (Opaque msg))) s.(s_block) else ∃ u, silent (k (Ok u)) s.(s_block)
  | DrawV4 k => faulty = false ∧ ∃ u, silent (k u) s.(s_block)
  | Now k => faulty = false ∧ ∃ t, silent (k t) s.(s_block)
  | Log _ k => faulty = false ∧ silent (k tt) s.(s_block)
  end.

(** ** The system *)

Record system (A : Type) := MkSystem { y_db : DB; y_sessions : list (session A) }.
Arguments MkSystem {A} _ _.
Arguments y_db {A} _.
Arguments y_sessions {A} _.

Definition holds {A} (s : session A) (r : resource) : Prop :=
  match s.(s_block) with Some b => r ∈ b.(b_held) | None => False end.

(** Lock [r] is held by no session but the [p]-th. *)
Definition free {A} (ss : list (session A)) (p : nat) (r : resource) : Prop :=
  ∀ q s, q ≠ p → ss !! q = Some s → ¬ holds s r.

(** A step is the next call of a session, or the loss of its connection. *)
Inductive step {A} (faulty : bool) : system A → nat * effect A → system A → Prop :=
| step_session db ss p s db' s' ev :
    ss !! p = Some s → session_step (free ss p) faulty db s db' s' ev →
    step faulty (MkSystem db ss) (p, ev) (MkSystem db' (<[p := s']> ss))
| step_lost db ss p prg b :
    ss !! p = Some (MkSession prg (Some b)) → faulty = true → b.(b_aborted) = false ∨ b.(b_held) ≠ [] →
    step faulty (MkSystem db ss) (p, Silent) (MkSystem db (<[p := MkSession prg (Some (cut b))]> ss)).

(** An execution, with what each step did. *)
Inductive execution {A} : system A → list (nat * effect A) → system A → Prop :=
| execution_nil y : execution y [] y
| execution_step faulty y1 l y2 tr y3 :
    step faulty y1 l y2 → execution y2 tr y3 → execution y1 (l :: tr) y3.

Lemma execution_app {A} (y1 y2 y3 : system A) tr1 tr2 :
  execution y1 tr1 y2 → execution y2 tr2 y3 → execution y1 (tr1 ++ tr2) y3.
Proof. induction 1; [done |]. intros ?. eapply execution_step; eauto. Qed.

(** The sessions of programs that have not begun. *)
Definition start_system {A} (db : DB) (ps : list (prog A)) : system A :=
  MkSystem db ((λ p, MkSession p None) <$> ps).

(** ** Serial execution *)

(** One call of a block that runs alone, on the tables as the block leaves them;
    the sequences may have advanced in between. *)
Definition alone {A} (x y : prog A * Tables * list UUID) : Prop :=
  let '(p, t, pend) := x in
  let '(p', t', pend') := y in
  match p with
  | TxExec q k =>
      ∃ cx n m a db', sql_exec cx q (MkDB t n m) = (Ok a, db') ∧
        p' = k (Ok a) ∧ t' = db'.(tables) ∧ pend' = pend ++ trigger_events q
  | TxQuery q k =>
      ∃ cx n m l db', sql_exec cx q (MkDB t n m) = (Ok l, db') ∧
        p' = k (Ok (MkRows l None)) ∧ t' = db'.(tables) ∧ pend' = pend ++ trigger_events q
  | Now k => (∃ now, p' = k now) ∧ t' = t ∧ pend' = pend
  | _ => False
  end.

(** A block that runs from its start to its commit with nothing in between. *)
Definition block_alone {A} (t : Tables) (start stop : prog A) (t' : Tables) : Prop :=
  ∃ k pend r, rtc alone (start, t, []) (Commit k, t', pend) ∧
    triggers_pass (MkDB t' 0 0) pend = true ∧ stop = k r.

(** The committed tables after the transactions of a trace, one at a time. *)
Inductive serial {A} : Tables → list (nat * effect A) → Tables → Prop :=
| serial_nil t : serial t [] t
| serial_silent t p tr t' : serial t tr t' → serial t ((p, Silent) :: tr) t'
| serial_auto {B} (q : sql B) env n es m t p tr t1 t' :
    t1 = t ∨ t1 = (autocommit env n q (MkDB t es m)).2.(tables) → serial t1 tr t' →
    serial t ((p, Autocommits) :: tr) t'
| serial_block t p start stop tr t1 t' :
    block_alone t start stop t1 → serial t1 tr t' →
    serial t ((p, Commits start stop) :: tr) t'.
