(* ===== verification/Locking.v ===== *)
(** * The lock discipline

    A type system for programs over the driver: in a block, both accounts are
    locked by one ordered read before anything else, only locked rows are written
    or referenced, the one transaction row comes after them and the entries last;
    a block that does not find all the rows it asked for, or whose statement
    fails, can only be rolled back.  Every operation of the service follows it. *)

From S2P Require Import Prelude GoStd Decimal Money Uuid Ledger Schema Pgx Store Service StoreBlocks StoreRefines Clients Prog Machine.
From stdpp Require Import options.
Import Ledger Schema.

(** ** Phases *)

(** Outside of a block; in a block that has done nothing yet; with the rows of
    [ids] locked; with its transaction row inserted; and bound to roll back. *)
Inductive phase :=
| Outside
| Opened
| Locked (ids : list UUID)
| Inserted (ids : list UUID)
| Failing.

(** What a statement of a block may be, and the phase that follows its success. *)
Definition tx_allowed {B} (ph : phase) (q : sql B) : option phase :=
  match ph, q with
  | Locked ids, UpdateAccountBalance _ _ id => if decide (id ∈ ids) then Some (Locked ids) else None
  | Locked ids, InsertTransactionRow _ _ _ _ => Some (Inserted ids)
  | Inserted ids, InsertEntryRow _ id _ _ => if decide (id ∈ ids) then Some (Inserted ids) else None
  | _, _ => None
  end.

(** The statements that may run outside of blocks. *)
Definition autonomous {B} (q : sql B) : Prop :=
  match q with
  | SelectAccountsForUpdate _ | UpdateAccountBalance _ _ _ | InsertTransactionRow _ _ _ _
  | InsertEntryRow _ _ _ _ => False
  | _ => True
  end.

(** The ids of the rows that a locking read answered. *)
Definition row_ids {B} (q : sql B) : B → list UUID :=
  match q in sql B return B → list UUID with
  | SelectAccountsForUpdate _ => λ rows, rc_id <$> rows
  | _ => λ _, []
  end.

Definition after_lock (ids got : list UUID) : phase :=
  if decide (got = Uuid.sort ids) then Locked ids else Failing.

(** [follows ph p Q]: from phase [ph], [p] keeps the discipline whatever it is
    answered, and [Q] holds of its result and of the phase it ends in. *)
Fixpoint follows {A} (ph : phase) (p : prog A) (Q : phase → A → Prop) : Prop :=
  match p with
  | Done a => Q ph a
  | PoolExec q k => ph = Outside ∧ autonomous q ∧ ∀ r, follows Outside (k r) Q
  | PoolQuery q k => ph = Outside ∧ autonomous q ∧ ∀ c, follows Outside (k c) Q
  | BeginTx k =>
      ph = Outside ∧ follows Opened (k (Ok tt)) Q ∧ ∀ e, follows Outside (k (Err e)) Q
  | TxExec q k =>
      match tx_allowed ph q with
      | None => False
      | Some ph' => (∀ a, follows ph' (k (Ok a)) Q) ∧ ∀ e, follows Failing (k (Err e)) Q
      end
  | TxQuery q k =>
      ph = Opened ∧ ∃ ids, lock_ids q = Some ids ∧
        (∀ rows, row_ids q rows `sublist_of` Uuid.sort ids →
           follows (after_lock ids (row_ids q rows)) (k (Ok (MkRows rows None))) Q) ∧
        (∀ rows e, follows Failing (k (Ok (MkRows rows (Some e)))) Q) ∧
        ∀ e, follows Failing (k (Err e)) Q
  | Commit k => ph ≠ Outside ∧ ph ≠ Failing ∧ ∀ r, follows Outside (k r) Q
  | Rollback k => follows Outside (k tt) Q
  | DrawV7 k => ph = Outside ∧ ∀ r, follows Outside (k r) Q
  | DrawV4 k => ph = Outside ∧ ∀ u, follows Outside (k u) Q
  | Now k => ∀ t, follows ph (k t) Q
  | Log _ k => ph = Outside ∧ follows Outside (k tt) Q
  end.

Lemma follows_mono {A} ph (p : prog A) (Q1 Q2 : phase → A → Prop) :
  (∀ ph a, Q1 ph a → Q2 ph a) → follows ph p Q1 → follows ph p Q2.
Proof.
  intros HQ. revert ph. induction p as [a|B q k IH|R q k IH|k IH|B q k IH|R q k IH|k IH|k IH|k IH|k IH|k IH|m k IH];
    intros ph; simpl; auto.
  - intros (?&?&?); auto.
  - intros (?&?&?); auto.
  - intros (?&?&?); auto.
  - destruct (tx_allowed ph q); [|done]. intros [? ?]; auto.
  - intros (?&ids&?&?&?&?). split; [done |]. exists ids. auto.
  - intros (?&?&?); auto.
  - intros [? ?]; auto.
  - intros [? ?]; auto.
  - intros [? ?]; auto.
Qed.

Lemma follows_bind {A B} ph (m : prog A) (f : A → prog B) Q :
  follows ph m (λ ph' a, follows ph' (f a) Q) → follows ph (mbind f m) Q.
Proof.
  revert ph. induction m as [a|C q k IH|R q k IH|k IH|C q k IH|R q k IH|k IH|k IH|k IH|k IH|k IH|s k IH];
    intros ph; simpl; auto.
  - intros (?&?&?). split_and!; try done. intros r. by apply IH.
  - intros (?&?&?). split_and!; try done. intros r. by apply IH.
  - intros (?&?&?). split_and!; [done | by apply IH | intros; by apply IH].
  - destruct (tx_allowed ph q); [|done]. intros [? ?]. split; intros; by apply IH.
  - intros (?&ids&?&?&?&?). split; [done |]. exists ids. split_and!; [done | intros; apply IH; auto..].
  - intros (?&?&?). split_and!; [done.. |]. intros r. by apply IH.
  - intros [? ?]. split; [done |]. intros r. by apply IH.
  - intros [? ?]. split; [done |]. intros r. by apply IH.
  - intros [? ?]. split; [done |]. by apply IH.
Qed.

Lemma follows_ret {A} ph (a : A) (Q : phase → A → Prop) : Q ph a → follows ph (mret a) Q.
Proof. done. Qed.

#[export] Hint Resolve follows_bind follows_ret : ledger.

(** ** Programs that stay outside of blocks *)

Definition stays {A} (p : prog A) : Prop := follows Outside p (λ ph _, ph = Outside).

Lemma stays_bind {A B} (m : prog A) (f : A → prog B) :
  stays m → (∀ a, stays (f a)) → stays (mbind f m).
Proof.
  intros Hm Hf. apply follows_bind. eapply follows_mono; [|exact Hm].
  intros ph a ->. apply Hf.
Qed.

Lemma stays_ret {A} (a : A) : stays (mret a).
Proof. done. Qed.

Lemma stays_pool_exec {B} (q : sql B) : autonomous q → stays (pool_exec q).
Proof. intros Hq. by split_and!. Qed.

Lemma stays_pool_Query {R} (q : sql (list R)) : autonomous q → stays (pool_Query q).
Proof. intros Hq. by split_and!. Qed.

Lemma stays_NewV7 : stays uuid_NewV7.
Proof. by split. Qed.

Lemma stays_New : stays uuid_New.
Proof. by split. Qed.

Lemma stays_log msg : stays (logger_Error msg).
Proof. done. Qed.

Create HintDb stays.
#[export] Hint Resolve stays_ret stays_NewV7 stays_New stays_log : stays.
#[export] Hint Extern 1 (stays (pool_exec _)) => apply stays_pool_exec; exact I : stays.
#[export] Hint Extern 1 (stays (pool_Query _)) => apply stays_pool_Query; exact I : stays.

(** Walks through a program that is a sequence of such calls. *)
Ltac stays :=
  repeat first
    [ solve [eauto with stays]
    | apply stays_bind; [|intros ?; cbv beta]
    | progress case_match ].

Lemma stays_listEntries txID : stays (Store.listEntries txID).
Proof. unfold Store.listEntries. stays. Qed.
#[export] Hint Resolve stays_listEntries : stays.

Lemma stays_found label r : stays (Store.found_transaction label r).
Proof. unfold Store.found_transaction. stays. Qed.
#[export] Hint Resolve stays_found : stays.

Lemma stays_get_key key : stays (Store.GetTransactionByIdempotencyKey key).
Proof. unfold Store.GetTransactionByIdempotencyKey. stays. Qed.

Lemma stays_get id : stays (Store.GetTransaction id).
Proof. unfold Store.GetTransaction. stays. Qed.

Lemma stays_WriteAudit entry : stays (Store.WriteAudit entry).
Proof. unfold Store.WriteAudit. stays. Qed.
#[export] Hint Resolve stays_get_key stays_get stays_WriteAudit : stays.

Lemma stays_populate txns : stays (Store.populate txns).
Proof. induction txns; cbn [Store.populate]; stays. Qed.
#[export] Hint Resolve stays_populate : stays.

Lemma stays_auditFailure op from to amount requestID reason :
  stays (Service.auditFailure op from to amount requestID reason).
Proof. unfold Service.auditFailure. stays. Qed.

Lemma stays_auditSuccess op from to amount requestID txID :
  stays (Service.auditSuccess op from to amount requestID txID).
Proof. unfold Service.auditSuccess. stays. Qed.
#[export] Hint Resolve stays_auditFailure stays_auditSuccess : stays.

Lemma stays_finish op from to amount idemKey requestID txID res :
  stays (Service.finish op from to amount idemKey requestID txID res).
Proof. unfold Service.finish. stays. Qed.
#[export] Hint Resolve stays_finish : stays.

(** ** Statements of a block *)

Lemma sublist_shorter {A} (l1 l2 : list A) : l1 `sublist_of` l2 → l1 ≠ l2 → (length l1 < length l2)%nat.
Proof.
  induction 1 as [|x l1 l2 H IH|x l1 l2 H IH]; [done | |].
  - intros Hne. simpl. assert (l1 ≠ l2) by congruence. specialize (IH ltac:(done)). lia.
  - intros _. apply sublist_length in H. simpl. lia.
Qed.

Lemma collectAccounts_length rows accs :
  Store.collectAccounts (MkRows rows None) = Ok accs → length accs = length rows.
Proof.
  unfold Store.collectAccounts, Store.rows_close. cbn [rows_data rows_Err].
  revert accs. induction rows as [|row rows IH]; intros accs; [by intros [= <-] |].
  cbn [Store.scan_rows]. destruct (Store.scanAccount row); [|done].
  destruct (Store.scan_rows _ _ rows) as [l|]; [|done]. intros [= <-]. simpl. f_equal. by apply IH.
Qed.

(** Fewer rows than ids leave the block bound to roll back. *)
Lemma follows_lock ids Q :
  (∀ accs, Q (Locked (Uuid.sort ids)) (Ok accs)) →
  (∀ accs, (length accs < length ids)%nat → Q Failing (Ok accs)) →
  (∀ ph e, Q ph (Err e)) →
  follows Opened (Store.LockAccountsForUpdate ids) Q.
Proof.
  intros Hall Hpart Herr. unfold Store.LockAccountsForUpdate. apply follows_bind.
  split; [done |]. exists (Uuid.sort ids). split; [done |].
  assert (Hss : Uuid.sort (Uuid.sort ids) = Uuid.sort ids) by apply Uuid.sort_proper, Uuid.sort_Permutation.
  split_and!.
  - intros rows Hsub. cbn [row_ids] in *. unfold after_lock. rewrite Hss in *. cbn [follows].
    apply follows_ret. destruct (Store.collectAccounts (MkRows rows None)) as [accs|e] eqn:Hc; [|apply Herr].
    case_decide as Hd; [apply Hall |].
    apply Hpart. apply collectAccounts_length in Hc. apply sublist_shorter in Hsub; [|done].
    rewrite length_fmap in Hsub. rewrite Hc. by rewrite (Permutation_length (Uuid.sort_Permutation ids)) in Hsub.
  - intros rows e. apply follows_ret. unfold Store.collectAccounts, Store.rows_close. cbn [rows_data rows_Err].
    destruct (Store.scan_rows _ _ _); apply Herr.
  - intros e. apply Herr.
Qed.

Lemma follows_update ids id m Q :
  id ∈ ids → Q (Locked ids) (Ok tt) → (∀ ph e, Q ph (Err e)) →
  follows (Locked ids) (Store.UpdateBalance id m) Q.
Proof.
  intros Hid Hok Herr. unfold Store.UpdateBalance. apply follows_bind. intros now. apply follows_bind.
  cbn [follows tx_exec prog_Pgx tx_allowed]. rewrite decide_True by done.
  split; [intros []; apply Hok | intros e; apply Herr].
Qed.

Lemma follows_insert_txn ids t Q :
  Q (Inserted ids) (Ok tt) → (∀ ph e, Q ph (Err e)) →
  follows (Locked ids) (Store.InsertTransaction t) Q ∧
  follows (Locked ids) (Store.InsertReversalTransaction t) Q.
Proof.
  intros Hok Herr. split; apply follows_bind; (split; [intros []; apply Hok | intros e; apply Herr]).
Qed.

Lemma follows_insert_each ids es Q :
  (∀ e, e ∈ es → ent_AccountID e ∈ ids) → Q (Inserted ids) (Ok tt) → (∀ ph e, Q ph (Err e)) →
  follows (Inserted ids) (Store.insert_each es) Q.
Proof.
  intros Hes Hok Herr. induction es as [|e es IH]; [done |]. cbn [Store.insert_each].
  apply follows_bind. cbn [follows tx_exec prog_Pgx tx_allowed].
  rewrite decide_True by (apply Hes; left). split; [|intros e'; apply Herr].
  intros []. apply IH. intros e' He'. apply Hes. by right.
Qed.

Lemma follows_insert_entries ids es Q :
  (∀ e, e ∈ es → ent_AccountID e ∈ ids) → Q (Inserted ids) (Ok tt) → (∀ ph e, Q ph (Err e)) →
  follows (Inserted ids) (Store.InsertEntries es) Q.
Proof.
  intros Hes Hok Herr. unfold Store.InsertEntries. destruct (forallb _ es); [|apply Herr].
  by apply follows_insert_each.
Qed.

(** ** Blocks *)

(** The callback of a [WithTx] and what it leaves: a block ready to commit, or an
    error. *)
Definition follows_block {A} (f : prog (result error A)) : Prop :=
  follows Opened f (λ ph r, ∀ a, r = Ok a → ph ≠ Outside ∧ ph ≠ Failing).

Lemma stays_WithTx {A} (f : prog (result error A)) : follows_block f → stays (Store.WithTx f).
Proof.
  intros Hf. apply follows_bind. split_and!; [done | | done]. apply follows_bind.
  eapply follows_mono; [|exact Hf]. intros ph [a|e] Hph; [|done].
  destruct (Hph a eq_refl). split_and!; [done.. |]. intros [u|e]; done.
Qed.

(** The writes that the three callbacks have in common. *)
Lemma follows_writes {A} ids from to mf mt (ins : prog (result error unit)) es (a : A) Q :
  from ∈ ids → to ∈ ids → (∀ e, e ∈ es → ent_AccountID e ∈ ids) →
  (∀ Q : phase → result error unit → Prop,
     Q (Inserted ids) (Ok tt) → (∀ ph e, Q ph (Err e)) → follows (Locked ids) ins Q) →
  Q (Inserted ids) (Ok a) → (∀ ph e, Q ph (Err e)) →
  follows (Locked ids)
    (let? _ := Store.UpdateBalance from mf in
     let? _ := Store.UpdateBalance to mt in
     let? _ := ins in
     let? _ := Store.InsertEntries es in
     mret (Ok a : result error A)) Q.
Proof.
  intros Hfrom Hto Hes Hins Hok Herr.
  apply follows_bind, follows_update; [done | | intros; apply Herr].
  apply follows_bind, follows_update; [done | | intros; apply Herr].
  apply follows_bind, Hins; [|intros; apply Herr].
  apply follows_bind, follows_insert_entries; [done | done | intros; apply Herr].
Qed.

Lemma elem_of_pair_sort a b id : id ∈ [a; b] → id ∈ Uuid.sort [a; b].
Proof. by rewrite Uuid.sort_Permutation. Qed.

Lemma elem_of_legs (ids : list UUID) (e1 e2 : Entry) :
  ent_AccountID e1 ∈ ids → ent_AccountID e2 ∈ ids → ∀ e, e ∈ [e1; e2] → ent_AccountID e ∈ ids.
Proof. intros H1 H2 e [->|[->|[]%not_elem_of_nil]%elem_of_cons]%elem_of_cons; done. Qed.

#[local] Hint Extern 1 (_ ∈ Uuid.sort _) =>
  apply elem_of_pair_sort; rewrite !elem_of_cons; auto : core.

Import Service.

(** From the answer of the lock on: nothing is written unless both rows came. *)
Ltac locks :=
  apply follows_bind, follows_lock;
    [intros accs; cbv beta iota | intros accs Hlen | intros ph e a; discriminate];
    [match goal with |- context [(length ?l =? 2)%nat] => destruct (length l =? 2)%nat end;
     simpl negb; cbv iota; [|by intros ? [=]];
     match goal with |- context [pick_accounts ?a ?b ?l] => destruct (pick_accounts a b l) as [A B] end;
     try (case_match; [by intros ? [=] |])
    |rewrite (proj2 (Nat.eqb_neq _ _)) by (simpl in *; lia); by intros ? [=]].

Lemma follows_transfer_tx srcID dstID amount txn :
  follows_block (transfer_tx srcID dstID amount txn).
Proof.
  unfold follows_block, transfer_tx. locks.
  apply follows_writes; [auto | auto | apply elem_of_legs; auto | | by intros | by intros].
  intros Q Hok Herr. by apply follows_insert_txn.
Qed.

Lemma follows_reverse_tx srcID dstID amount txn :
  follows_block (reverse_tx srcID dstID amount txn).
Proof.
  unfold follows_block, reverse_tx. locks.
  apply follows_writes; [auto | auto | apply elem_of_legs; auto | | by intros | by intros].
  intros Q Hok Herr. by apply follows_insert_txn.
Qed.

Lemma follows_deposit_tx dstID amount txn : follows_block (deposit_tx dstID amount txn).
Proof.
  unfold follows_block, deposit_tx. locks.
  apply follows_writes; [auto | auto | apply elem_of_legs; auto | | by intros | by intros].
  intros Q Hok Herr. by apply follows_insert_txn.
Qed.

(** ** Operations *)

#[export] Hint Resolve stays_WithTx follows_transfer_tx follows_reverse_tx follows_deposit_tx : stays.

Lemma stays_Transfer srcID dstID amount idemKey requestID :
  stays (Transfer srcID dstID amount idemKey requestID).
Proof. unfold Transfer. stays. Qed.

Lemma stays_Reverse originalTxID idemKey requestID : stays (Reverse originalTxID idemKey requestID).
Proof. unfold Reverse. stays. Qed.

Lemma stays_Deposit dstID amount idemKey requestID : stays (Deposit dstID amount idemKey requestID).
Proof. unfold Deposit. stays. Qed.

Lemma stays_call c : stays (do_call (M:=prog) c).
Proof.
  destruct c; cbn [do_call]; unfold Store.CreateAccount, Store.GetAccount, Store.ListAccounts,
    Store.ListTransactionsForAccount, Store.ListTransactions, Store.ListAuditForAccount;
    apply stays_bind; try (intros; apply stays_ret);
    first [apply stays_Transfer | apply stays_Reverse | apply stays_Deposit | stays].
Qed.
