(* ===== verification/Frames.v ===== *)
(** * Statements and the progress of others

    A statement whose locks a block holds answers the same, and writes the same,
    after other sessions have committed: what they changed is not what it reads. *)

From S2P Require Import Prelude GoStd Decimal Money Uuid Ledger Schema Pgx LedgerSpec Numeric SchemaFacts Prog Machine.
From stdpp Require Import options.
Import Ledger Schema LedgerSpec.
Open Scope Z_scope.

(** ** What a statement depends on *)

(** The statements that write in a block. *)
Definition writer {B} (q : sql B) : Prop :=
  match q with
  | UpdateAccountBalance _ _ _ | InsertTransactionRow _ _ _ _ | InsertEntryRow _ _ _ _ => True
  | _ => False
  end.

Definition guards {B} (q : sql B) : list resource :=
  match q with
  | UpdateAccountBalance _ _ id => [RowLock id]
  | InsertTransactionRow id _ key rev =>
      [TxnIdLock id; TxnKeyLock key] ++ (TxnReversesLock <$> option_list rev)
  | InsertEntryRow _ accountID _ _ => [RowLock accountID]
  | SelectAccountsForUpdate ids => RowLock <$> ids
  | _ => []
  end.

(** A transaction row that none of the locks [H] stands for. *)
Record untouched (H : list resource) (id : UUID) (x : transaction_row) : Prop := {
  un_id : TxnIdLock id ∉ H;
  un_key : TxnKeyLock x.(tr_idempotency_key) ∉ H;
  un_reverses : ∀ r, x.(tr_reverses) = Some r → TxnReversesLock r ∉ H }.

(** The committed tables went from [t] to [t'] while a block held [H] and had
    written the entries [own]. *)
Record passes (H : list resource) (own : list entry_row) (t t' : Tables) : Prop := {
  ps_row : ∀ id, RowLock id ∈ H → t'.(accounts) !! id = t.(accounts) !! id;
  ps_acc : ∀ id, is_Some (t.(accounts) !! id) → is_Some (t'.(accounts) !! id);
  ps_txn : t.(transactions) ⊆ t'.(transactions);
  ps_new : ∀ id x, t'.(transactions) !! id = Some x → t.(transactions) !! id = Some x ∨
      untouched H id x;
  ps_entries : ∀ e, e ∈ t'.(entries) → e ∈ t.(entries) ∨ e.(er_id) ∉ er_id <$> own }.

Lemma passes_refl H own t : passes H own t t.
Proof. split; auto. Qed.

(** ** The view of a block *)

Lemma view_no_writes t : view t no_writes = t.
Proof. destruct t. unfold view; simpl. by rewrite !(left_id_L ∅ (∪)), !app_nil_r. Qed.

Lemma put_row_insert {V} id (m w : gmap UUID V) (r : V) : m !! id = Some r → put_row id m w = <[id := r]> w.
Proof. intros H. unfold put_row. by rewrite H. Qed.

Lemma put_row_none {V} id (m w : gmap UUID V) : m !! id = None → put_row id m w = w.
Proof. intros H. unfold put_row. by rewrite H. Qed.

Lemma view_row H own t t' w id :
  passes H own t t' → RowLock id ∈ H → (view t' w).(accounts) !! id = (view t w).(accounts) !! id.
Proof. intros Hp Hid. simpl. by rewrite !lookup_union, (ps_row _ _ _ _ Hp). Qed.

Lemma view_acc H own t t' w id :
  passes H own t t' → is_Some ((view t w).(accounts) !! id) → is_Some ((view t' w).(accounts) !! id).
Proof.
  intros Hp. simpl. rewrite !lookup_union_is_Some. intros [?|?]; [by left | right].
  by apply (ps_acc _ _ _ _ Hp).
Qed.

Lemma view_txn H own t t' w id :
  passes H own t t' → is_Some ((view t w).(transactions) !! id) →
  is_Some ((view t' w).(transactions) !! id).
Proof.
  intros Hp. simpl. rewrite !lookup_union_is_Some. intros [?|[x Hx]]; [by left | right].
  exists x. eapply lookup_weaken; [done | apply Hp].
Qed.

(** A transaction of the later view is one of the earlier, or touches no lock. *)
Lemma view_new H own t t' w id x :
  passes H own t t' → (view t' w).(transactions) !! id = Some x →
  (view t w).(transactions) !! id = Some x ∨
  untouched H id x.
Proof.
  intros Hp. simpl. intros Hx. apply lookup_union_Some_raw in Hx as [Hx|[Hw Hx]].
  - left. by apply lookup_union_Some_l.
  - destruct (ps_new _ _ _ _ Hp id x Hx) as [Ht|Hn]; [left | by right].
    apply lookup_union_Some_raw. by right.
Qed.

Lemma violated_uniques_nil_rows id key rev t :
  violated_uniques id key rev t = [] ↔
  ∀ i x, t.(transactions) !! i = Some x →
    i ≠ id ∧ x.(tr_idempotency_key) ≠ key ∧ (∀ r, rev = Some r → x.(tr_reverses) ≠ Some r).
Proof.
  rewrite violated_uniques_nil, abs_txns_None. unfold key_fresh, not_reversed. split.
  - intros (Hid&Hk&Hr) i x Hx.
    assert (Ha : (abs t).(txns) !! i = Some (abs_txn t i x)) by (by rewrite abs_txns, Hx).
    split_and!; [congruence | by apply (Hk i _ Ha) | intros r ->; by apply (Hr r i _ eq_refl Ha)].
  - intros Hall. split_and!.
    + apply eq_None_not_Some. intros [x Hx]. by destruct (Hall id x Hx).
    + intros i y. rewrite abs_txns. intros (x&Hx&->)%fmap_Some. by apply (Hall i x Hx).
    + intros o i y ->. rewrite abs_txns. intros (x&Hx&->)%fmap_Some. by apply (Hall i x Hx).
Qed.

(** ** Writers *)

Lemma update_balance_inv text now id t t' :
  update_balance text now id t = Ok t' →
  t.(accounts) !! id = None ∧ t' = t ∨
  ∃ r, t' = with_accounts t (<[id := r]> t.(accounts)).
Proof.
  unfold update_balance. destruct (numeric_in text); [|done].
  destruct (_ !! id); [|by intros [= <-]; auto]. destruct (balance_check _ _); [|done].
  intros [= <-]. eauto.
Qed.

(** The writes of a block, on top of the committed tables, are what it sees. *)
Lemma writer_view {B} cx (q : sql B) t w n m a db' :
  writer q → sql_exec cx q (MkDB (view t w) n m) = (Ok a, db') →
  db'.(tables) = view t (record_writes q (view t w) db'.(tables) w).
Proof.
  destruct q; try done; intros _; simpl; unfold upd_tables.
  - destruct (update_balance _ _ _ _) as [t1|] eqn:E; intros; simplify_eq. simpl.
    apply update_balance_inv in E as [[Hn ->]|[r ->]].
    + rewrite put_row_none by done. by destruct w.
    + rewrite (put_row_insert _ _ _ r) by (simpl; by rewrite lookup_insert_eq).
      unfold view, with_accounts; simpl. by rewrite insert_union_l.
  - destruct (insert_transaction _ _ _ _ _ _) as [t1|] eqn:E; intros; simplify_eq. simpl.
    apply insert_transaction_tables in E as ->.
    erewrite put_row_insert by (simpl; by rewrite lookup_insert_eq).
    unfold view, with_transactions; simpl. by rewrite insert_union_l.
  - unfold nextval. destruct (_ <? _); [|by intros].
    destruct (insert_entry _ _ _ _ _ _ _) as [t1|] eqn:E; intros; simplify_eq. simpl.
    apply insert_entry_ok in E as (amt&_&_&_&_&->). simpl.
    rewrite drop_app_length. unfold view, with_entries; simpl. by rewrite app_assoc.
Qed.

Lemma existsb_id_false id es : existsb (λ e, er_id e =? id) es = false ↔ ∀ e, e ∈ es → er_id e ≠ id.
Proof.
  split.
  - intros He e Hin Hid. assert (existsb (λ e, er_id e =? id) es = true) as Ht; [|congruence].
    apply existsb_exists. exists e. rewrite <-list_elem_of_In. split; [done |]. by apply Z.eqb_eq.
  - intros Hall. apply not_true_iff_false. intros (e&He&Hid%Z.eqb_eq)%existsb_exists.
    rewrite <-list_elem_of_In in He. by apply (Hall e).
Qed.

(** A writer does the same on [t'] as on [t], whatever else was committed. *)
Definition redone {B} (cx : stmt_ctx) (q : sql B) (own : list entry_row) (t t' : Tables) (w : writes)
    (n m : Z) : Prop :=
  ∀ a db1 w1, sql_exec cx q (MkDB (view t w) n m) = (Ok a, db1) →
    record_writes q (view t w) db1.(tables) w = w1 → (∀ e, e ∈ w1.(w_entries) → e ∈ own) →
    ∃ db2, sql_exec cx q (MkDB (view t' w) n m) = (Ok a, db2) ∧
           record_writes q (view t' w) db2.(tables) w = w1.

Section redone.
Context (cx : stmt_ctx) (H : list resource) (own : list entry_row) (t t' : Tables) (w : writes) (n m : Z).
Context (Hp : passes H own t t').
Set Default Proof Using "Type*".

Lemma update_redone balance updated_at id :
  RowLock id ∈ H → redone cx (UpdateAccountBalance balance updated_at id) own t t' w n m.
Proof.
  intros Hg a db1 w1. cbn [sql_exec tables]; unfold upd_tables.
  destruct (update_balance balance updated_at id (view t w)) as [t1|] eqn:E; [|done].
  intros Heq. injection Heq as <- <-. cbn [tables record_writes]. intros <- _.
  assert (Hrow : (view t' w).(accounts) !! id = (view t w).(accounts) !! id)
    by (eapply view_row; [done | exact Hg]).
  unfold update_balance in *. destruct (numeric_in balance) as [bal|]; [|done]. rewrite Hrow.
  destruct ((view t w).(accounts) !! id) as [r|] eqn:Hr.
  + destruct (balance_check _ _); [|done]. injection E as <-. eexists. split; [done |].
    cbn [tables record_writes with_accounts accounts].
    by erewrite !put_row_insert by apply lookup_insert_eq.
  + injection E as <-. eexists. split; [done |]. cbn [tables record_writes].
    by rewrite !put_row_none.
Qed.

Lemma insert_transaction_redone id kind key reverses :
  (∀ r, r ∈ guards (InsertTransactionRow id kind key reverses) → r ∈ H) →
  redone cx (InsertTransactionRow id kind key reverses) own t t' w n m.
Proof.
  intros Hg a db1 w1. cbn [sql_exec guards tables] in *; unfold upd_tables.
  destruct (insert_transaction cx id kind key reverses (view t w)) as [t1|] eqn:E; [|done].
  intros Heq. injection Heq as <- <-. cbn [tables record_writes]. intros <- _. pose proof (insert_transaction_tables _ _ _ _ _ _ _ E) as Ht1.
  unfold insert_transaction in E.
  destruct (violated_uniques id key reverses (view t w)) eqn:Hv; [|done].
  rewrite violated_uniques_nil_rows in Hv.
  assert (violated_uniques id key reverses (view t' w) = []) as Hv'.
  { apply violated_uniques_nil_rows. intros i x Hx.
    destruct (view_new _ _ _ _ _ _ _ Hp Hx) as [Hx'|[Hi Hk Hr]]; [by apply Hv |].
    split_and!; [intros -> | intros <- | intros r -> Hxr].
    - apply Hi, Hg. left.
    - apply Hk, Hg. right; left.
    - apply (Hr r); [done |]. apply Hg. right; right; left. }
  exists (MkDB (with_transactions (view t' w)
    (<[id := TransactionRow kind key reverses cx.(cx_now)]> (view t' w).(transactions))) n m).
  split.
  + unfold insert_transaction. rewrite Hv'. destruct reverses as [r|]; [|done].
    case_bool_decide as Hfk; [|done]. rewrite bool_decide_true; [done |].
    simpl in Hfk |- *. rewrite lookup_insert_is_Some in Hfk |- *.
    destruct Hfk as [?|[? Hfk]]; [by left | right]. split; [done |]. exact (view_txn _ _ _ _ w _ Hp Hfk).
  + rewrite Ht1. cbn [tables record_writes with_transactions transactions].
    by erewrite !put_row_insert by apply lookup_insert_eq.
Qed.

Lemma insert_entry_redone txID accountID dir amount :
  redone cx (InsertEntryRow txID accountID dir amount) own t t' w n m.
Proof.
  intros a db1 w1. cbn [sql_exec tables]; unfold upd_tables.
  cbn [entries_seq audit_seq tables]. unfold nextval. destruct (n <? max_bigint); [|done].
  destruct (insert_entry (n + 1) txID accountID dir amount (cx_now cx) (view t w)) as [t1|] eqn:E; [|done].
  intros Heq. injection Heq as <- <-. cbn [tables record_writes]. intros <- Hown. pose proof (insert_entry_ok _ _ _ _ _ _ _ _ E) as (amt&_&_&_&_&Ht1).
  set (e := EntryRow (n + 1) txID accountID dir amt (cx_now cx)) in *.
  assert (He : e ∈ own).
  { apply Hown. rewrite Ht1. simpl. rewrite drop_app_length. apply elem_of_app. right; left. }
  unfold insert_entry in E |- *. destruct (numeric_in amount) as [amt'|]; [|done].
  destruct (negb (0 <? amt')); [done |].
  destruct (existsb _ (view t w).(entries)) eqn:Hid; [done |]. rewrite existsb_id_false in Hid.
  case_bool_decide as Hft; [|done]. case_bool_decide as Hfa; [|done]. injection E as E.
  assert (existsb (λ e, er_id e =? n + 1) (view t' w).(entries) = false) as ->.
  { apply existsb_id_false. intros e' He'. simpl in He'. apply elem_of_app in He' as [He'|He'].
    - destruct (ps_entries _ _ _ _ Hp e' He') as [Hin|Hin].
      + apply Hid. simpl. apply elem_of_app. by left.
      + intros Heq. apply Hin. rewrite Heq. apply list_elem_of_fmap. by exists e.
    - apply Hid. simpl. apply elem_of_app. by right. }
  rewrite !bool_decide_true by (by eapply view_acc || by eapply view_txn). simpl.
  eexists. split; [done |]. rewrite <-E. cbn [tables record_writes with_entries entries].
  by rewrite !drop_app_length.
Qed.
End redone.

(** A writer that holds its locks does the same after the others' progress. *)
Lemma writer_passes {B} cx (q : sql B) H own t t' w w1 n m a db1 :
  passes H own t t' → writer q → (∀ r, r ∈ guards q → r ∈ H) →
  sql_exec cx q (MkDB (view t w) n m) = (Ok a, db1) →
  record_writes q (view t w) db1.(tables) w = w1 →
  (∀ e, e ∈ w1.(w_entries) → e ∈ own) →
  ∃ db2, sql_exec cx q (MkDB (view t' w) n m) = (Ok a, db2) ∧
         record_writes q (view t' w) db2.(tables) w = w1.
Proof.
  intros Hp Hq Hg. destruct q; try done.
  - apply (update_redone cx H); [done | apply Hg; left].
  - by apply (insert_transaction_redone cx H).
  - by apply (insert_entry_redone cx H).
Qed.

(** ** Locking reads *)

(** Rows are determined by what is stored under the ids asked for. *)
Lemma select_accounts_ext ids ids' t t' :
  (∀ id r, id ∈ ids ∧ t.(accounts) !! id = Some r ↔ id ∈ ids' ∧ t'.(accounts) !! id = Some r) →
  select_accounts_for_update ids t = select_accounts_for_update ids' t'.
Proof.
  intros Hext. apply (StronglySorted_unique_strong id_text_le).
  - intros r1 r2 H1 H2 Hle1 Hle2.
    assert (Hid : rc_id r1 = rc_id r2) by (by apply (anti_symm Uuid.le)).
    apply select_accounts_rows in H1 as (x1&Hx1&->).
    rewrite select_accounts_Permutation in H2.
    apply list_elem_of_fmap in H2 as ([i x2]&->&[Hin2 Hx2]%list_elem_of_filter).
    apply elem_of_map_to_list in Hx2. simpl in *. subst i.
    assert (Hx : t.(accounts) !! rc_id r1 = Some x2) by (by apply Hext). congruence.
  - apply select_accounts_sorted.
  - apply select_accounts_sorted.
  - rewrite !select_accounts_Permutation. apply fmap_Permutation, NoDup_Permutation.
    + apply NoDup_filter, NoDup_map_to_list.
    + apply NoDup_filter, NoDup_map_to_list.
    + intros [id r]. rewrite !list_elem_of_filter, !elem_of_map_to_list. apply Hext.
Qed.

Lemma select_passes H own t t' w ids :
  passes H own t t' → (∀ id, id ∈ ids → RowLock id ∈ H) →
  select_accounts_for_update ids (view t' w) = select_accounts_for_update ids (view t w).
Proof.
  intros Hp Hids. apply select_accounts_ext. intros id r. split; intros [Hin Hr]; (split; [done |]);
    [rewrite <-(view_row H own t t' w id) | rewrite (view_row H own t t' w id)]; auto.
Qed.

(** A strictly ordered list is a part of every ordered list that contains it. *)
Lemma sorted_sublist (l1 l2 : list UUID) :
  NoDup l1 → StronglySorted Uuid.le l1 → StronglySorted Uuid.le l2 → (∀ x, x ∈ l1 → x ∈ l2) →
  l1 `sublist_of` l2.
Proof.
  intros Hnd Hs1 Hs2. revert l1 Hnd Hs1. induction Hs2 as [|y l2 Hs2 IH Hy]; intros l1 Hnd Hs1 Hsub.
  { destruct l1 as [|x l1]; [constructor |]. by destruct (not_elem_of_nil x); apply Hsub; left. }
  destruct Hs1 as [|x l1 Hs1 Hx]; [apply sublist_nil_l |].
  apply NoDup_cons in Hnd as [Hnx Hnd]. rewrite Forall_forall in Hx, Hy.
  destruct (decide (x = y)) as [->|Hne].
  - apply sublist_skip, IH; [done.. |]. intros z Hz.
    assert (Hz' : z ∈ y :: l2) by (apply Hsub; by right).
    apply elem_of_cons in Hz' as [->|?]; [by destruct Hnx | done].
  - assert (Hxl : x ∈ l2).
    { assert (Hx' : x ∈ y :: l2) by (apply Hsub; left). by apply elem_of_cons in Hx' as [?|?]. }
    apply sublist_cons, IH; [by apply NoDup_cons | constructor; [done | by apply Forall_forall] |].
    intros z Hz. assert (Hz' : z ∈ y :: l2) by by apply Hsub.
    apply elem_of_cons in Hz as [->|Hz]; [done |].
    apply elem_of_cons in Hz' as [->|?]; [|done].
    destruct Hne. apply (anti_symm Uuid.le); [by apply Hx | by apply Hy].
Qed.

Lemma select_accounts_NoDup ids t : NoDup (rc_id <$> select_accounts_for_update ids t).
Proof.
  rewrite select_accounts_Permutation, <-list_fmap_compose.
  rewrite (list_fmap_ext _ fst _ (λ _ p _, rec_of_account_id p)).
  apply (sublist_NoDup _ (map_to_list t.(accounts)).*1); [apply NoDup_fst_map_to_list |].
  apply fmap_sublist, sublist_filter.
Qed.

Lemma select_accounts_in ids t id :
  id ∈ rc_id <$> select_accounts_for_update ids t ↔ id ∈ ids ∧ is_Some (t.(accounts) !! id).
Proof.
  rewrite select_accounts_Permutation, !list_elem_of_fmap. split.
  - intros (?&->&([i r]&->&[Hin Hr]%list_elem_of_filter)%list_elem_of_fmap).
    apply elem_of_map_to_list in Hr. simpl in *. eauto.
  - intros [Hin [r Hr]]. exists (rec_of_account (id, r)). split; [done |].
    apply list_elem_of_fmap. exists (id, r). split; [done |].
    apply list_elem_of_filter. split; [done |]. by apply elem_of_map_to_list.
Qed.

Lemma select_accounts_ids_sorted ids t :
  StronglySorted Uuid.le (rc_id <$> select_accounts_for_update ids t).
Proof. apply (StronglySorted_fmap _ id_text_le); [done |]. apply select_accounts_sorted. Qed.
