(* ===== verification/Serial.v ===== *)
(** * Interleaved executions are serial

    Sessions that follow the lock discipline may interleave their calls in any
    way, and fail at any of them: the committed tables are those of the committed
    blocks run one after the other, in the order of their commits, each alone from
    its start to its commit.  The proof keeps, for each open block, a run of its
    statements on the tables as they are now committed: the progress of others
    does not disturb it, because they hold none of its locks. *)

From S2P Require Import Prelude GoStd Decimal Money Uuid Ledger Schema Pgx LedgerSpec Numeric SchemaFacts Prog Machine Locking Frames.
From stdpp Require Import options.
Import Ledger Schema.
Open Scope Z_scope.

(** ** Guarded runs *)

(** One call of a block on the committed tables [t], under the locks [H]. *)
Definition guarded {A} (H : list resource) (t : Tables) (x y : prog A * writes * list UUID) : Prop :=
  let '(p, w, pend) := x in
  let '(p', w', pend') := y in
  match p with
  | TxExec q k =>
      writer q ∧ (∀ r, r ∈ guards q → r ∈ H) ∧
      ∃ cx n m a db', sql_exec cx q (MkDB (view t w) n m) = (Ok a, db') ∧ p' = k (Ok a) ∧
        w' = record_writes q (view t w) db'.(tables) w ∧ pend' = pend ++ trigger_events q
  | TxQuery q k =>
      (∃ ids, lock_ids q = Some ids ∧ ∀ id, id ∈ ids → RowLock id ∈ H) ∧
      ∃ cx n m l db', sql_exec cx q (MkDB (view t w) n m) = (Ok l, db') ∧
        p' = k (Ok (MkRows l None)) ∧ w' = w ∧ pend' = pend ++ trigger_events q
  | Now k => (∃ now, p' = k now) ∧ w' = w ∧ pend' = pend
  | _ => False
  end.

(** A locking read: its rows, whatever part of its ids it runs on. *)
Lemma lock_exec {B} (q : sql B) ids scan cx db r db' :
  lock_ids q = Some ids → sql_exec cx (narrow q scan) db = (r, db') →
  db' = db ∧ trigger_events q = [] ∧ (∀ t t' w, record_writes q t t' w = w) ∧
  ∃ rows, r = Ok rows ∧ row_ids q rows = rc_id <$> select_accounts_for_update scan db.(tables) ∧
    (select_accounts_for_update scan db.(tables) = select_accounts_for_update ids db.(tables) →
     sql_exec cx q db = (Ok rows, db)).
Proof.
  destruct q; try done. simpl. intros [= ->] [= <- <-]. split_and!; try done.
  eexists. split_and!; [done | done |]. by intros ->.
Qed.

Lemma lock_exec_same {B} (q : sql B) ids cx t n m a db' :
  lock_ids q = Some ids → sql_exec cx q (MkDB t n m) = (Ok a, db') → db'.(tables) = t.
Proof. destruct q; try done. by intros _ [= _ <-]. Qed.

Lemma lock_exec_passes {B} (q : sql B) H own ids cx t t' w n m a db' :
  lock_ids q = Some ids → (∀ id, id ∈ ids → RowLock id ∈ H) → passes H own t t' →
  sql_exec cx q (MkDB (view t w) n m) = (Ok a, db') →
  ∃ db2, sql_exec cx q (MkDB (view t' w) n m) = (Ok a, db2).
Proof.
  destruct q; try done. intros [= ->] Hids Hp [= <- _]. cbn [sql_exec tables].
  rewrite (select_passes H own t t') by done. eauto.
Qed.

Lemma guarded_alone {A} H t (p p' : prog A) w w' pend pend' :
  guarded H t (p, w, pend) (p', w', pend') →
  alone (p, view t w, pend) (p', view t w', pend').
Proof.
  destruct p; try done; simpl.
  - intros (Hq&_&cx&n&m&a&db'&Hx&->&->&->). exists cx, n, m, a, db'. split_and!; try done.
    symmetry. by eapply writer_view.
  - intros ((ids&Hq&_)&cx&n&m&l&db'&Hx&->&->&->). exists cx, n, m, l, db'. split_and!; try done.
    symmetry. by eapply lock_exec_same.
  - by intros (?&->&->).
Qed.

Lemma rtc_guarded_alone {A} H t (p p' : prog A) w w' pend pend' :
  rtc (guarded H t) (p, w, pend) (p', w', pend') →
  rtc alone (p, view t w, pend) (p', view t w', pend').
Proof.
  intros Hr. remember (p, w, pend) as x eqn:Ex. remember (p', w', pend') as z eqn:Ez.
  revert p w pend Ex. induction Hr as [x|x [[p1 w1] pend1] z Hxy Hyz IH]; intros p w pend ->.
  - by injection Ez as -> -> ->.
  - eapply rtc_l; [by eapply guarded_alone | by apply IH].
Qed.

Lemma guarded_weaken {A} H H' t (x y : prog A * writes * list UUID) :
  (∀ r, r ∈ H → r ∈ H') → guarded H t x y → guarded H' t x y.
Proof.
  intros Hsub. destruct x as [[p w] pend], y as [[p' w'] pend']. destruct p; simpl; auto.
  - intros (?&?&?). auto.
  - intros ((ids&?&?)&?). eauto 10.
Qed.

Lemma rtc_guarded_weaken {A} H H' t (x y : prog A * writes * list UUID) :
  (∀ r, r ∈ H → r ∈ H') → rtc (guarded H t) x y → rtc (guarded H' t) x y.
Proof. intros Hsub. apply rtc_congruence with (f := id). intros ??. by apply guarded_weaken. Qed.

(** Entries are only added. *)
Lemma record_entries {B} (q : sql B) t t' w e :
  e ∈ w.(w_entries) → e ∈ (record_writes q t t' w).(w_entries).
Proof. destruct q; simpl; auto. intros He. apply elem_of_app. by left. Qed.

Lemma rtc_guarded_entries {A} H t (x y : prog A * writes * list UUID) e :
  rtc (guarded H t) x y → e ∈ x.1.2.(w_entries) → e ∈ y.1.2.(w_entries).
Proof.
  induction 1 as [|[[p w] pend] [[p1 w1] pend1] z Hxy Hyz IH]; [done |]. simpl. intros He. apply IH. simpl.
  destruct p; try done; simpl in Hxy.
  - destruct Hxy as (_&_&cx&n&m&a&db'&_&_&->&_). by apply record_entries.
  - by destruct Hxy as (_&cx&n&m&l&db'&_&_&->&_).
  - by destruct Hxy as (_&->&_).
Qed.

(** The run of a block is not disturbed by the progress of others. *)
Lemma guarded_passes {A} H t t' (x y z : prog A * writes * list UUID) :
  passes H z.1.2.(w_entries) t t' → rtc (guarded H t) y z → guarded H t x y → guarded H t' x y.
Proof.
  destruct x as [[p w] pend], y as [[p1 w1] pend1]. intros Hp Hyz. destruct p; try done; simpl.
  - intros (Hq&Hg&cx&n&m&a&db1&Hx&->&Hw&->). split_and!; [done | done |].
    destruct (writer_passes cx q H z.1.2.(w_entries) t t' w w1 n m a db1) as (db2&Hx2&Hw2);
      [done | done | done | done | by rewrite Hw | |].
    + intros e He. by eapply rtc_guarded_entries in Hyz.
    + exists cx, n, m, a, db2. split_and!; [done.. | congruence | done].
  - intros ((ids&Hq&Hids)&cx&n&m&l&db1&Hx&->&->&->). split; [by exists ids |].
    destruct (lock_exec_passes q H z.1.2.(w_entries) ids cx t t' w n m l db1) as [db2 Hx2]; [done.. |].
    exists cx, n, m, l, db2. by split_and!.
Qed.

Lemma rtc_guarded_passes {A} H t t' (x z : prog A * writes * list UUID) :
  passes H z.1.2.(w_entries) t t' → rtc (guarded H t) x z → rtc (guarded H t') x z.
Proof.
  intros Hp. induction 1 as [|x y z Hxy Hyz IH]; [done |].
  eapply rtc_l; [by eapply guarded_passes | by apply IH].
Qed.

(** ** The invariant of a session *)

(** The locks of a block and what they protect. *)
Record owns {A} (t : Tables) (b : block A) : Prop := {
  ow_rows : ∀ id, RowLock id ∈ b.(b_held) → is_Some (t.(accounts) !! id);
  ow_accounts : ∀ id, is_Some (b.(b_writes).(w_accounts) !! id) → RowLock id ∈ b.(b_held);
  ow_transactions : ∀ id x, b.(b_writes).(w_transactions) !! id = Some x →
      TxnIdLock id ∈ b.(b_held) ∧ TxnKeyLock x.(tr_idempotency_key) ∈ b.(b_held) ∧
      ∀ r, x.(tr_reverses) = Some r → TxnReversesLock r ∈ b.(b_held);
  ow_fresh : ∀ id x, b.(b_writes).(w_transactions) !! id = Some x → t.(transactions) !! id = None }.

Definition live {A} (t : Tables) (p : prog A) (b : block A) : Prop :=
  b.(b_aborted) = false ∧
  rtc (guarded b.(b_held) t) (b.(b_start), no_writes, []) (p, b.(b_writes), b.(b_pending)).

(** What the next statement of a program asks for. *)
Definition asked {A} (p : prog A) : list resource :=
  match p with TxExec q _ => guards q | _ => [] end.

Definition asked_ids {A} (p : prog A) : option (list UUID) :=
  match p with TxQuery q _ => lock_ids q | _ => None end.

(** A locking read in progress has locked the first ids of its scan. *)
Definition scan_ok {A} (t : Tables) (p : prog A) (b : block A) : Prop :=
  match b.(b_scan) with
  | None => b.(b_held) = []
  | Some (scan, todo) =>
      ∃ ids got, asked_ids p = Some ids ∧ scan = got ++ todo ∧ StronglySorted Uuid.le scan ∧
        (∀ id, id ∈ scan → id ∈ ids ∧ is_Some (t.(accounts) !! id)) ∧
        (∀ r, r ∈ b.(b_held) ↔ ∃ id, id ∈ got ∧ r = RowLock id)
  end.

(** The locks that are asked for are acquired in their order. *)
Definition in_order (held wanted : list resource) : Prop :=
  ∀ r r', r ∈ held → r' ∈ wanted → (rank r' < rank r)%nat → r' ∈ held.

Lemma in_order_rows (held wanted : list resource) :
  (∀ r, r ∈ held → ∃ id, r = RowLock id) → in_order held wanted.
Proof. intros Hr r r' (id&->)%Hr _ Hlt. simpl in Hlt. lia. Qed.

Definition fits {A} (t : Tables) (ph : phase) (p : prog A) (b : block A) : Prop :=
  match ph with
  | Outside => False
  | Opened => live t p b ∧ b.(b_writes) = no_writes ∧ scan_ok t p b
  | Locked ids =>
      live t p b ∧ b.(b_scan) = None ∧ (∀ id, id ∈ ids → RowLock id ∈ b.(b_held)) ∧
      (∀ r, r ∈ b.(b_held) → (∃ id, id ∈ ids ∧ r = RowLock id) ∨ r ∈ asked p) ∧
      in_order b.(b_held) (asked p) ∧ b.(b_writes).(w_transactions) = ∅
  | Inserted ids =>
      live t p b ∧ b.(b_scan) = None ∧ (∀ id, id ∈ ids → RowLock id ∈ b.(b_held))
  | Failing => b.(b_scan) = None
  end.

Definition session_ok {A} (t : Tables) (s : session A) : Prop :=
  ∃ ph, follows ph s.(s_prog) (λ ph _, ph = Outside) ∧
    match s.(s_block) with
    | None => ph = Outside
    | Some b => owns t b ∧ ph ≠ Outside ∧ (b.(b_aborted) = false → fits t ph s.(s_prog) b)
    end.

Lemma scan_ok_mono {A} t t' (p : prog A) b :
  (∀ id, is_Some (t.(accounts) !! id) → is_Some (t'.(accounts) !! id)) →
  scan_ok t p b → scan_ok t' p b.
Proof.
  intros Hacc. unfold scan_ok. destruct (b_scan b) as [[scan todo]|]; [|done].
  intros (ids&got&?&?&?&Hin&?). exists ids, got. split_and!; try done.
  intros id Hid. destruct (Hin id Hid). auto.
Qed.

Lemma session_passes {A} t t' (s : session A) :
  (∀ b, s.(s_block) = Some b → passes b.(b_held) b.(b_writes).(w_entries) t t') →
  session_ok t s → session_ok t' s.
Proof.
  intros Hp (ph&Hf&Hb). exists ph. split; [done |].
  destruct (s_block s) as [b|]; [|done]. specialize (Hp b eq_refl). destruct Hb as [[H1 H2 H3 H4] [Hph Hfit]].
  assert (Hlive : live t (s_prog s) b → live t' (s_prog s) b).
  { intros [Ha Hr]. split; [done |]. by eapply rtc_guarded_passes in Hr. }
  split; [split; [intros id Hid; by apply Hp, H1 | done | done |] |].
  { intros id x Hx. apply eq_None_not_Some. intros [y Hy].
    destruct (ps_new _ _ _ _ Hp id y Hy) as [Ht|[Hid _ _]]; [by rewrite (H4 id x Hx) in Ht |].
    by destruct Hid, (H3 id x Hx). }
  split; [done |]. intros Hab. specialize (Hfit Hab). destruct ph; simpl in *; try done.
  - destruct Hfit as (?&?&?). split_and!; [auto | done |]. eapply scan_ok_mono; [|done]. apply Hp.
  - destruct Hfit as (?&?&?&?&?&?). auto 10.
  - destruct Hfit as (?&?&?). auto.
Qed.

(** ** One step *)

Definition own_entries {A} (s : session A) : list entry_row :=
  match s.(s_block) with Some b => b.(b_writes).(w_entries) | None => [] end.

Definition open_writes {A} (s : session A) : option writes :=
  match s.(s_block) with Some b => Some b.(b_writes) | None => None end.

(** What a step of a session changes for the others. *)
Inductive published (t t' : Tables) (o : option writes) : Prop :=
| published_nothing : t' = t → published t t' o
| published_auto :
    (∀ H own, (∀ id, RowLock id ∈ H → is_Some (t.(accounts) !! id)) → passes H own t t') →
    (∀ e, e ∈ t'.(entries) → e ∈ t.(entries)) → published t t' o
| published_block w : o = Some w → t' = view t w → published t t' o.

Record moves {A} (free : resource → Prop) (db : DB) (s : session A) (db' : DB) (s' : session A) : Prop := {
  mv_seq : db.(entries_seq) <= db'.(entries_seq);
  mv_locks : ∀ r, holds s' r → holds s r ∨ free r;
  mv_entries : ∀ e, e ∈ own_entries s' →
      e ∈ own_entries s ∨ db.(entries_seq) < e.(er_id) <= db'.(entries_seq);
  mv_tables : published db.(tables) db'.(tables)
      (match s'.(s_block) with None => open_writes s | Some _ => None end) }.

Lemma sql_exec_seq {B} cx (q : sql B) db r db' :
  sql_exec cx q db = (r, db') → db.(entries_seq) <= db'.(entries_seq).
Proof.
  destruct q; simpl; unfold upd_tables, nextval; intros H; repeat case_match; simplify_eq; simpl; lia.
Qed.

Lemma writer_entries {B} cx (q : sql B) t w n m a db' e :
  writer q → sql_exec cx q (MkDB (view t w) n m) = (Ok a, db') →
  e ∈ (record_writes q (view t w) db'.(tables) w).(w_entries) →
  e ∈ w.(w_entries) ∨ n < e.(er_id) <= db'.(entries_seq).
Proof.
  destruct q; try done; intros _; simpl; unfold upd_tables, nextval; try (by left).
  destruct (n <? max_bigint); [|done].
  destruct (insert_entry _ _ _ _ _ _ _) as [t1|] eqn:E; intros [= <- <-]; simpl.
  apply insert_entry_ok in E as (amt&_&_&_&_&->). simpl. rewrite drop_app_length.
  intros [?| ->%list_elem_of_singleton]%elem_of_app; [by left | right]. simpl. lia.
Qed.

Lemma autonomous_passes {B} cx (q : sql B) db r db' :
  autonomous q → sql_exec cx q db = (r, db') →
  db'.(entries_seq) = db.(entries_seq) ∧ published db.(tables) db'.(tables) None.
Proof.
  assert (Hsame : published db.(tables) db.(tables) None) by by apply published_nothing.
  assert (Hauto : ∀ t', db.(tables).(transactions) = t'.(transactions) →
    db.(tables).(entries) = t'.(entries) →
    (∀ id x, db.(tables).(accounts) !! id = Some x → t'.(accounts) !! id = Some x) →
    published db.(tables) t' None).
  { intros t' Ht He Ha. apply published_auto; [|by rewrite He].
    intros H own Hrows. split; rewrite <-?Ht, <-?He; auto.
    - intros id Hid. destruct (Hrows id Hid) as [x Hx]. by rewrite Hx, (Ha id x Hx).
    - intros id [x Hx]. eauto. }
  destruct q; try done; intros _; simpl; try (by intros [= _ <-]); unfold upd_tables, nextval.
  - unfold insert_account. destruct (_ !! id) eqn:Hid; intros [= _ <-]; (split; [done |]); [done |].
    apply Hauto; [done.. |]. intros i x Hx. simpl. rewrite lookup_insert_ne by congruence. done.
  - destruct (_ <? max_bigint); [|by intros [= _ <-]].
    destruct (insert_audit _ _ _ _) as [t1|] eqn:E; intros [= _ <-]; (split; [done |]); [|done].
    apply insert_audit_tables in E as [rows ->]. by apply Hauto.
Qed.

Lemma pool_answer_moves {B} faulty (q : sql B) db r db' :
  autonomous q → pool_answer faulty q db r db' →
  db'.(entries_seq) = db.(entries_seq) ∧ published db.(tables) db'.(tables) None ∧
  ∃ env n, db' = db ∨ db' = (autocommit env n q db).2.
Proof.
  intros Hq (env&n&Ha).
  assert (Hac : (autocommit env n q db).2.(entries_seq) = db.(entries_seq) ∧
                published db.(tables) (autocommit env n q db).2.(tables) None).
  { unfold autocommit. destruct (sql_exec _ q db) as [[a|e] db1] eqn:E;
      apply autonomous_passes in E as [Hs Hp]; [|done| |done].
    - destruct (triggers_pass _ _); simpl; [done |]. split; [done | by apply published_nothing].
    - simpl. split; [done | by apply published_nothing]. }
  destruct faulty.
  - destruct Ha as [_ [-> | ->]]; (split_and!; [| |exists env, n; auto]); try done; try apply Hac.
    by apply published_nothing.
  - rewrite Ha in Hac. split_and!; try apply Hac. exists env, n. right. by rewrite Ha.
Qed.

Lemma owns_wrote {A B} cx (q : sql B) t (b : block A) n m a db' events :
  owns t b → writer q → (∀ r, r ∈ guards q → r ∈ b.(b_held)) →
  sql_exec cx q (MkDB (view t b.(b_writes)) n m) = (Ok a, db') →
  owns t (wrote (record_writes q (view t b.(b_writes)) db'.(tables) b.(b_writes)) events b).
Proof.
  intros [H1 H2 H3 H4] Hq Hg Hx.
  destruct q; try done; clear Hq; cbn [sql_exec tables] in Hx; unfold upd_tables in Hx.
  - split; [done | | done..]. intros i. simpl. unfold put_row.
    destruct (_ !! id); [|apply H2]. rewrite lookup_insert_is_Some'.
    intros [<-|?]; [apply Hg; left | by apply H2].
  - destruct (insert_transaction _ _ _ _ _ _) as [t1|] eqn:E; [|done]. injection Hx as _ <-.
    pose proof (insert_transaction_tables _ _ _ _ _ _ _ E) as ->. unfold insert_transaction in E.
    destruct (violated_uniques _ _ _ _) eqn:Hv; [|done]. rewrite violated_uniques_nil_rows in Hv.
    split; [done | done | |]; intros i x; simpl;
      erewrite put_row_insert by apply lookup_insert_eq; rewrite lookup_insert; case_decide; auto;
      try apply H3; try apply H4.
    + subst i. intros [= <-]. simpl. split_and!.
      * apply Hg. left.
      * apply Hg. right; left.
      * intros r ->. apply Hg. right; right; left.
    + subst i. intros _. apply eq_None_not_Some. intros [y Hy].
      destruct (Hv id y) as [Hne _]; [|done]. simpl. apply lookup_union_Some_raw.
      destruct (w_transactions (b_writes b) !! id) as [z|] eqn:Hz; [|by right].
      by rewrite (H4 id z Hz) in Hy.
Qed.

Lemma owns_acquire {A} t r (b : block A) :
  owns t b → (∀ id, r = RowLock id → is_Some (t.(accounts) !! id)) → owns t (acquire r b).
Proof.
  intros [H1 H2 H3 H4] Hr. split; simpl; [| | |done].
  - intros id [Hid|Hid]%elem_of_cons; [by apply Hr | by apply H1].
  - intros id Hid. right. by apply H2.
  - intros id x Hx. destruct (H3 id x Hx) as (?&?&Hrev). split_and!; [by right.. |].
    intros r' Hr'. right. by apply Hrev.
Qed.

Lemma view_owned {A} t (b : block A) id :
  owns t b → is_Some ((seen (MkDB t 0 0) b).(accounts) !! id) → is_Some (t.(accounts) !! id).
Proof.
  intros Ho. simpl. rewrite lookup_union_is_Some. intros [Hw|?]; [|done].
  by apply (ow_rows t b Ho), (ow_accounts t b Ho).
Qed.

(** The lock a statement waits for, and the locks it has when it runs. *)
Lemma next_need_some {A B} (q : sql B) t (b : block A) r :
  next_need q t b = Some r → r ∈ needs q t ∧ r ∉ b.(b_held).
Proof.
  unfold next_need. destruct (filter _ _) as [|r' l] eqn:E; [done |]. intros [= <-].
  assert (Hin : r' ∈ filter (λ r, r ∉ b_held b) (needs q t)) by (rewrite E; left).
  by apply list_elem_of_filter in Hin as [? ?].
Qed.

Lemma next_need_none {A B} (q : sql B) t (b : block A) r :
  next_need q t b = None → r ∈ needs q t → r ∈ b.(b_held).
Proof.
  unfold next_need. destruct (filter _ _) as [|r' l] eqn:E; [|done]. intros _ Hr.
  destruct (decide (r ∈ b_held b)); [done |].
  destruct (not_elem_of_nil r). rewrite <-E. by apply list_elem_of_filter.
Qed.

(** The statement has the locks that come before the one it waits for. *)
Lemma next_need_order {A B} (q : sql B) t (b : block A) r r' :
  next_need q t b = Some r → r' ∈ guards q → (rank r' < rank r)%nat → r' ∈ b.(b_held).
Proof.
  intros Hn Hr' Hlt. destruct (decide (r' ∈ b_held b)) as [|Hh]; [done | exfalso].
  pose proof Hn as [Hr _]%next_need_some. destruct q; simpl in Hr; try (by apply not_elem_of_nil in Hr).
  - case_bool_decide; [|by apply not_elem_of_nil in Hr]. apply list_elem_of_singleton in Hr as ->. simpl in Hlt. lia.
  - unfold next_need in Hn. simpl in Hn, Hr'. rewrite !elem_of_cons in Hr'.
    rewrite !filter_cons in Hn. destruct Hr' as [->|[->|(rv&->&_)%list_elem_of_fmap]].
    + rewrite decide_True in Hn by done. injection Hn as <-. lia.
    + rewrite (decide_True _ _ Hh) in Hn. case_decide; injection Hn as <-; simpl in Hlt; lia.
    + apply elem_of_cons in Hr as [->|Hr]; [simpl in Hlt; lia |].
      apply elem_of_cons in Hr as [->|(rv'&->&_)%list_elem_of_fmap]; simpl in Hlt; lia.
Qed.

Lemma needs_guards {B} (q : sql B) t r : r ∈ needs q t → r ∈ guards q.
Proof. destruct q; simpl; try (by intros ?%not_elem_of_nil); [|done]. by case_bool_decide; [|intros ?%not_elem_of_nil]. Qed.

Lemma tx_allowed_writer {B} ph (q : sql B) ph' : tx_allowed ph q = Some ph' → writer q.
Proof. by destruct ph, q. Qed.

(** *** Writers *)

Section writers.
Context {A B : Type} (free : resource → Prop) (db : DB) (b : block A) (q : sql B)
  (k : result error B → prog A).
Context (ph ph' : phase) (Hal : tx_allowed ph q = Some ph') (Ho : owns db.(tables) b)
  (Hfit : fits db.(tables) ph (TxExec q k) b).

#[local] Lemma allowed_live : live db.(tables) (TxExec q k) b ∧ b.(b_scan) = None.
Proof using Hal Hfit. destruct ph; simpl in *; try done; by destruct Hfit as (?&?&_). Qed.

Lemma acquire_fits r :
  next_need q (seen db b) b = Some r →
  owns db.(tables) (acquire r b) ∧ fits db.(tables) ph (TxExec q k) (acquire r b).
Proof using Hal Ho Hfit.
  intros Hn. pose proof Hn as [Hr _]%next_need_some. destruct allowed_live as [[Hab Hrun] Hsc].
  assert (Hl : live db.(tables) (TxExec q k) (acquire r b)).
  { split; [done |]. eapply rtc_guarded_weaken; [|exact Hrun]. intros r' ?. by right. }
  split.
  - apply owns_acquire; [done |]. intros id ->. destruct q; try done; simpl in Hr;
      try (by apply not_elem_of_nil in Hr).
    + case_bool_decide; [|by apply not_elem_of_nil in Hr].
      apply list_elem_of_singleton in Hr as [= ->]. by apply (view_owned _ b).
    + rewrite !elem_of_cons, list_elem_of_fmap in Hr. by destruct Hr as [?|[?|(?&?&_)]].
  - destruct ph; try done; simpl in *.
    + destruct Hfit as (_&_&Hids&Hheld&Hord&Hwt). split_and!; [done.. | | | |done].
      * intros id Hid. right. by apply Hids.
      * intros r' [->|Hr']%elem_of_cons; [right; by eapply needs_guards | by apply Hheld].
      * intros r1 r2 [->|Hr1]%elem_of_cons Hr2 Hlt; right; [by eapply next_need_order | by eapply Hord].
    + destruct Hfit as (_&_&Hids). split_and!; [done.. |]. intros id Hid. right. by apply Hids.
Qed.

Lemma allowed_guards r :
  next_need q (seen db b) b = None → r ∈ guards q → r ∈ b.(b_held).
Proof using Hal Ho Hfit.
  intros Hn Hr. destruct ph; try done; simpl in Hfit.
  - destruct Hfit as (_&_&Hids&_&_&_). destruct q; try done; simpl in Hal, Hr.
    + case_decide; [|done]. apply list_elem_of_singleton in Hr as ->. by apply Hids.
    + by eapply next_need_none.
  - destruct Hfit as (_&_&Hids). destruct q; try done; simpl in Hal, Hr.
    case_decide; [|done]. apply list_elem_of_singleton in Hr as ->. by apply Hids.
Qed.

Lemma execute_fits a db' b' :
  next_need q (seen db b) b = None → executes q q db b (Ok a) db' b' →
  owns db.(tables) b' ∧ fits db.(tables) ph' (k (Ok a)) b' ∧ b'.(b_held) = b.(b_held) ∧
  ∀ e, e ∈ b'.(b_writes).(w_entries) →
       e ∈ b.(b_writes).(w_entries) ∨ db.(entries_seq) < e.(er_id) <= db'.(entries_seq).
Proof using Hal Ho Hfit.
  intros Hn (cx&db1&Hx&->&->). pose proof (tx_allowed_writer _ _ _ Hal) as Hw.
  assert (Hg : ∀ r, r ∈ guards q → r ∈ b.(b_held)) by (intros r; by apply allowed_guards).
  destruct allowed_live as [[Hab Hrun] Hsc].
  split; [by eapply owns_wrote |].
  assert (Hl : live db.(tables) (k (Ok a))
    (wrote (record_writes q (seen db b) db1.(tables) b.(b_writes)) (trigger_events q) b)).
  { split; [done |]. eapply rtc_r; [exact Hrun |]. split_and!; [done.. |].
    exists cx, (entries_seq db), (audit_seq db), a, db1. by split_and!. }
  split; [|split; [done | intros e; by apply (writer_entries _ _ _ _ _ _ _ db1 _ Hw Hx)]].
  destruct ph; try done; simpl in Hfit.
  - destruct Hfit as (_&_&Hids&Hheld&_&Hwt). destruct q; try done; simpl in Hal.
    + case_decide; [|done]. injection Hal as <-.
      assert (Hrows : ∀ r, r ∈ b.(b_held) → ∃ id, id ∈ ids ∧ r = RowLock id).
      { intros r Hr. destruct (Hheld r Hr) as [?|Hask]; [done |]. simpl in Hask.
        apply list_elem_of_singleton in Hask as ->. eauto. }
      split_and!; [done | done | done | by left; apply Hrows | apply in_order_rows | done].
      intros r (i&_&->)%Hrows. eauto.
    + injection Hal as <-. by split_and!.
  - destruct Hfit as (_&_&Hids). destruct q; try done; simpl in Hal.
    case_decide; [|done]. injection Hal as <-. by split_and!.
Qed.
End writers.

(** *** Locking reads *)

Section reads.
Context {A R : Type} (free : resource → Prop) (db : DB) (b : block A) (q : sql (list R))
  (k : result error (Rows R) → prog A) (ids : list UUID).
Context (Hq : lock_ids q = Some ids) (Ho : owns db.(tables) b)
  (Hfit : fits db.(tables) Opened (TxQuery q k) b).

Lemma scan_fits :
  b.(b_scan) = None →
  let scan := filter (λ id, is_Some ((seen db b).(accounts) !! id)) (Uuid.sort ids) in
  fits db.(tables) Opened (TxQuery q k) (scanning (Some (scan, scan)) b).
Proof using Hq Ho Hfit.
  intros Hs scan. destruct Hfit as (Hl&Hw&Hsc). split_and!; [done.. |].
  unfold scan_ok in *. rewrite Hs in Hsc. simpl. exists ids, []. split_and!; [done | done | | |].
  - apply StronglySorted_filter, Uuid.sort_StronglySorted.
  - intros id [Hid Hin]%list_elem_of_filter. rewrite Uuid.sort_Permutation in Hin.
    split; [done |]. by apply (view_owned _ b).
  - intros r. rewrite Hsc. split; [by intros ?%not_elem_of_nil |].
    by intros (id&?%not_elem_of_nil&_).
Qed.

Lemma lock_row_fits scan id todo :
  b.(b_scan) = Some (scan, id :: todo) →
  let b1 := scanning (Some (scan, todo)) b in
  let b2 := if bool_decide (RowLock id ∈ b.(b_held)) then b1 else acquire (RowLock id) b1 in
  owns db.(tables) b2 ∧ fits db.(tables) Opened (TxQuery q k) b2.
Proof using Hq Ho Hfit.
  intros Hs b1 b2. destruct Hfit as ([Hab Hrun]&Hw&Hsc). unfold scan_ok in Hsc. rewrite Hs in Hsc.
  destruct Hsc as (ids'&got&Hids&Hscan&Hsort&Hin&Hheld).
  assert (Hrow : is_Some (db.(tables).(accounts) !! id)).
  { apply Hin. rewrite Hscan. apply elem_of_app. right; left. }
  assert (Hsc1 : ∀ b', b'.(b_scan) = Some (scan, todo) →
    (∀ r, r ∈ b'.(b_held) ↔ r = RowLock id ∨ r ∈ b.(b_held)) → scan_ok db.(tables) (TxQuery q k) b').
  { intros b' Hb' Hr. unfold scan_ok. rewrite Hb'. exists ids', (got ++ [id]).
    split_and!; [done | by rewrite <-app_assoc | done | done |].
    intros r. rewrite Hr, Hheld. split.
    - intros [->|(i&?&->)]; [exists id | exists i]; (split; [|done]); apply elem_of_app;
        [right; left | by left].
    - intros (i&[?|Hi]%elem_of_app&->); [right; eauto | left].
      by apply list_elem_of_singleton in Hi as ->. }
  subst b2. case_bool_decide as Hh.
  - split; [by destruct Ho; split |]. split_and!; [done | done |]. apply Hsc1; [done |].
    intros r. simpl. split; [by right | by intros [->|?]].
  - split; [apply owns_acquire; [by destruct Ho; split | by intros i [= <-]] |].
    split_and!; [split; [done |] | done |].
    + eapply rtc_guarded_weaken; [|exact Hrun]. intros r ?. by right.
    + apply Hsc1; [done |]. intros r. simpl. by rewrite elem_of_cons.
Qed.

Lemma read_fits scan r db' b' :
  b.(b_scan) = Some (scan, []) → executes q (narrow q scan) db b r db' b' →
  db' = db ∧ ∃ rows, r = Ok rows ∧ row_ids q rows `sublist_of` Uuid.sort ids ∧
  owns db.(tables) b' ∧ b'.(b_held) = b.(b_held) ∧ b'.(b_writes) = b.(b_writes) ∧
  fits db.(tables) (after_lock ids (row_ids q rows)) (k (Ok (MkRows rows None))) b'.
Proof using Hq Ho Hfit.
  intros Hs (cx&db1&Hx&->&->).
  destruct (lock_exec _ _ _ _ _ _ _ Hq Hx) as (->&Hev&Hrw&rows&->&Hids&Hfull).
  cbn [tables] in Hids, Hfull. rewrite Hrw, Hev. split; [by destruct db |]. exists rows.
  destruct Hfit as ([Hab Hrun]&Hw&Hsc). unfold scan_ok in Hsc. rewrite Hs in Hsc.
  destruct Hsc as (ids'&got&Hids'&Hscan&Hsort&Hin&Hheld).
  simpl in Hids'. assert (ids' = ids) as -> by congruence.
  rewrite app_nil_r in Hscan. subst got.
  assert (Hseen : seen db b = db.(tables)) by (unfold seen; rewrite Hw; apply view_no_writes).
  rewrite Hseen in *. split; [done |]. split.
  { rewrite Hids. apply sorted_sublist.
    - apply select_accounts_NoDup.
    - apply select_accounts_ids_sorted.
    - apply Uuid.sort_StronglySorted.
    - intros id Hid. rewrite Uuid.sort_Permutation. apply select_accounts_in in Hid as [Hid _].
      by apply Hin. }
  split; [by destruct Ho; split |]. split; [done |]. split; [done |].
  unfold after_lock. case_decide as Hall; [|done].
  assert (Hin' : ∀ id, id ∈ ids → id ∈ scan ∧ is_Some (db.(tables).(accounts) !! id)).
  { intros id Hid. apply select_accounts_in. rewrite <-Hids, Hall. by rewrite Uuid.sort_Permutation. }
  assert (Hlock : ∀ id, id ∈ ids → RowLock id ∈ b.(b_held)).
  { intros id Hid. apply Hheld. exists id. split; [by apply Hin' | done]. }
  split_and!; [| done | done | | | simpl; by rewrite Hw].
  - split; [done |]. simpl. eapply rtc_r; [exact Hrun |]. simpl. split; [by exists ids |].
    exists cx, (entries_seq db), (audit_seq db), rows, (MkDB db.(tables) (entries_seq db) (audit_seq db)).
    rewrite Hw, view_no_writes, Hev. split_and!; try done. apply Hfull.
    apply select_accounts_ext. intros id r. split; intros [Hid Hr]; (split; [|done]); [by apply Hin | by apply Hin'].
  - intros r (id&Hid&->)%Hheld. left. exists id. split; [by apply Hin | done].
  - apply in_order_rows. intros r (id&_&->)%Hheld. eauto.
Qed.
End reads.

(** *** All calls *)

Ltac open_step H := unfold session_step in H; cbn [s_prog s_block] in H.

Definition ends_outside {A} (ph : phase) (_ : A) : Prop := ph = Outside.

Lemma session_outside {A} t (p : prog A) : stays p → session_ok t (MkSession p None).
Proof. intros Hf. by exists Outside. Qed.

Lemma session_fits {A} t ph (p : prog A) b :
  follows ph p (λ ph _, ph = Outside) → owns t b → fits t ph p b → session_ok t (MkSession p (Some b)).
Proof. intros Hf Ho Hfit. exists ph. split; [done |]. split; [done |]. by split; [intros -> |]. Qed.

Lemma session_aborted {A} t ph (p : prog A) b :
  owns t b → b.(b_aborted) = true → ph ≠ Outside → follows ph p (λ ph _, ph = Outside) →
  session_ok t (MkSession p (Some b)).
Proof. intros Ho Hab Hph Hf. exists ph. split; [done |]. split; [done |]. split; [done |]. simpl. congruence. Qed.

(** A block that is cut owns nothing. *)
Lemma owns_cut {A} t (b : block A) : owns t (cut b).
Proof. split; simpl; [by intros ? ?%not_elem_of_nil | intros id; rewrite lookup_empty; by intros [? [=]] | done..]. Qed.

Lemma session_cut {A} t (p : prog A) b : session_ok t (MkSession p (Some b)) → session_ok t (MkSession p (Some (cut b))).
Proof. intros (ph&Hf&_&Hph&_). eapply session_aborted; [apply owns_cut | done..]. Qed.

Lemma session_failing {A} t (p : prog A) b :
  owns t b → follows Failing p (λ ph _, ph = Outside) → session_ok t (MkSession p (Some (aborted b))).
Proof. intros Ho Hf. apply (session_aborted _ Failing); [by destruct Ho; split | done..]. Qed.

(** A step that neither commits nor draws anything. *)
Lemma moves_quiet {A} (free : resource → Prop) db (s s' : session A) :
  (∀ r, holds s' r → holds s r ∨ free r) → (∀ e, e ∈ own_entries s' → e ∈ own_entries s) →
  moves free db s db s'.
Proof. intros Hl He. split; [done | done | auto | by apply published_nothing]. Qed.

Lemma moves_closed {A} (free : resource → Prop) db (s : session A) p :
  moves free db s db (MkSession p None).
Proof. apply moves_quiet; simpl; [done |]. by intros e ?%not_elem_of_nil. Qed.

(** What a step of a well-behaved session amounts to. *)
Definition advances {A} (free : resource → Prop) (db : DB) (s : session A) (db' : DB) (s' : session A)
    (ev : effect A) : Prop :=
  session_ok db'.(tables) s' ∧ moves free db s db' s' ∧ ∀ p, serial db.(tables) [(p, ev)] db'.(tables).

Lemma advances_silent {A} free db (s : session A) s' :
  session_ok db.(tables) s' → moves free db s db s' → advances free db s db s' Silent.
Proof. intros Hs Hm. split_and!; [done | done |]. intros p. apply serial_silent, serial_nil. Qed.

Lemma advances_pool {A B} free faulty (q : sql B) db (s : session A) r db' p' :
  s.(s_block) = None → autonomous q → pool_answer faulty q db r db' → stays p' →
  advances free db s db' (MkSession p' None) Autocommits.
Proof.
  intros Hb Hq Ha Hp. destruct (pool_answer_moves _ _ _ _ _ Hq Ha) as (Hseq&Hpub&env&n&Hdb).
  split_and!; [by apply session_outside | |].
  - split; [lia | done | by intros e ?%not_elem_of_nil | by unfold open_writes; rewrite Hb].
  - intros p. eapply (serial_auto q env n db.(entries_seq) db.(audit_seq)); [|apply serial_nil].
    destruct Hdb as [->|E]; [by left | right]. rewrite E. by destruct db.
Qed.

Lemma advances_commit {A} free db (s : session A) b k r :
  s = MkSession (Commit k) (Some b) → live db.(tables) (Commit k) b → (∀ r, stays (k r)) →
  triggers_pass (MkDB (seen db b) 0 0) b.(b_pending) = true →
  advances free db s (MkDB (seen db b) db.(entries_seq) db.(audit_seq)) (MkSession (k r) None)
    (Commits b.(b_start) (k r)).
Proof.
  intros -> [Hab Hrun] Hk Htr. split_and!; [by apply session_outside | |].
  - split; [done | done | by intros e ?%not_elem_of_nil | by eapply published_block].
  - intros p. eapply serial_block; [|apply serial_nil]. exists k, b.(b_pending), r.
    split_and!; [|done | done]. apply rtc_guarded_alone in Hrun. by rewrite view_no_writes in Hrun.
Qed.

Lemma tx_exec_advances {A B} (free : resource → Prop) faulty db b (q : sql B)
    (k : result error B → prog A) db' s' ev :
  session_ok db.(tables) (MkSession (TxExec q k) (Some b)) →
  session_step free faulty db (MkSession (TxExec q k) (Some b)) db' s' ev →
  advances free db (MkSession (TxExec q k) (Some b)) db' s' ev.
Proof.
  intros (ph&Hf&Ho&Hph&Hfit) Hst. simpl in Hf. destruct (tx_allowed ph q) as [ph'|] eqn:Hal; [|done].
  destruct Hf as [Hok Herr]. destruct (b_aborted b) eqn:Hab.
  { open_step Hst. rewrite Hab in Hst. destruct Hst as (e&_&->&->&->).
    apply advances_silent; [by apply (session_aborted _ Failing) | by apply moves_quiet; auto]. }
  specialize (Hfit eq_refl). 
  open_step Hst. rewrite Hab in Hst. destruct faulty.
  { destruct Hst as (msg&->&->&->). apply advances_silent; [by apply session_failing | by apply moves_quiet; auto]. }
  destruct Hst as (r&b'&Hx&->&->). unfold exec_step in Hx.
  destruct (next_need q (seen db b) b) as [l|] eqn:Hn.
  - destruct Hx as (Hfree&->&->&->). destruct (acquire_fits db b q k ph ph' Hal Ho Hfit l Hn) as [Ho' Hfit'].
    apply advances_silent.
    + apply (session_fits _ ph); [simpl; by rewrite Hal | done..].
    + apply moves_quiet; [|done]. unfold holds; simpl. intros r [->|?]%elem_of_cons; auto.
  - destruct Hx as (_&a&->&Hx). destruct a as [a|e].
    + pose proof Hx as (cx&db1&Hx1&Hdb'&_). apply sql_exec_seq in Hx1. simpl in Hx1.
      destruct (execute_fits db b q k ph ph' Hal Ho Hfit a db' b' Hn Hx) as (Ho'&Hfit'&Hheld&Hent).
      subst db'. simpl in Hent. split_and!.
      * apply (session_fits _ ph'); [apply Hok | done..].
      * split; [done | | done | by apply published_nothing].
        intros r. unfold holds. simpl. rewrite Hheld. auto.
      * intros p. apply serial_silent, serial_nil.
    + destruct Hx as (cx&db1&Hx&->&->). apply sql_exec_seq in Hx. simpl in Hx. split_and!.
      * by apply session_failing.
      * split; [done | by left | by left | by apply published_nothing].
      * intros p. apply serial_silent, serial_nil.
Qed.

Lemma tx_query_advances {A R} (free : resource → Prop) faulty db b (q : sql (list R))
    (k : result error (Rows R) → prog A) db' s' ev :
  session_ok db.(tables) (MkSession (TxQuery q k) (Some b)) →
  session_step free faulty db (MkSession (TxQuery q k) (Some b)) db' s' ev →
  advances free db (MkSession (TxQuery q k) (Some b)) db' s' ev.
Proof.
  intros (ph&(->&ids&Hq&Hok&Hcut&Herr)&Ho&Hph&Hfit) Hst. open_step Hst. cbn [s_prog] in Hfit.
  destruct (b_aborted b) eqn:Hab.
  { destruct Hst as (e&c&_&Hc&->&->&->).
    apply advances_silent; [apply (session_aborted _ Failing); [done | done | discriminate |] | by apply moves_quiet; auto].
    destruct Hc as [->|[l ->]]; auto. }
  specialize (Hfit eq_refl). destruct faulty.
  { destruct Hst as (msg&c&Hc&->&->&->).
    apply advances_silent; [apply session_failing; [done |] | by apply moves_quiet; auto].
    destruct Hc as [->|[l ->]]; auto. }
  assert (Hf : follows Opened (TxQuery q k) (λ ph _, ph = Outside)).
  { split; [done |]. by exists ids. }
  destruct Hst as (r&b'&Hx&->&Hs'). unfold query_step in Hx. rewrite Hq in Hx.
  destruct (b_scan b) as [[scan [|id todo]]|] eqn:Hs.
  - destruct Hx as (a&->&Hx).
    destruct (read_fits db b q k ids Hq Ho Hfit scan a db' b' Hs Hx) as (->&rows&->&Hsub&Ho'&Hheld&Hw&Hfit').
    destruct Hs' as (c&->&->). apply advances_silent.
    + eapply session_fits; [by apply Hok | done..].
    + apply moves_quiet; unfold holds, own_entries; simpl; [rewrite Hheld | rewrite Hw]; auto.
  - destruct Hx as (->&->&Hb').
    destruct (lock_row_fits db b q k ids Hq Ho Hfit scan id todo Hs) as [Ho' Hfit'].
    assert (Hb2 : b' = if bool_decide (RowLock id ∈ b_held b) then scanning (Some (scan, todo)) b
                       else acquire (RowLock id) (scanning (Some (scan, todo)) b)).
    { destruct (bool_decide _); [done | by destruct Hb' as [_ ->]]. }
    rewrite <-Hb2 in Ho', Hfit'. subst s'. apply advances_silent; [by apply (session_fits _ Opened) |].
    apply moves_quiet; unfold holds, own_entries; simpl; rewrite Hb2.
    + case_bool_decide; [by left |]. intros r [->|?]%elem_of_cons; [right; apply Hb' | by left].
    + by case_bool_decide.
  - destruct Hx as (->&->&->). subst s'. apply advances_silent; [|by apply moves_quiet; auto].
    apply (session_fits _ Opened); [done | by destruct Ho; split | by apply (scan_fits db b q k ids)].
Qed.

Lemma fits_now {A} t ph (k : Time → prog A) now b : fits t ph (Now k) b → fits t ph (k now) b.
Proof.
  assert (Hl : live t (Now k) b → live t (k now) b).
  { intros [Hab Hrun]. split; [done |]. eapply rtc_r; [exact Hrun |]. simpl. split_and!; [by eexists | done | done]. }
  destruct ph; simpl; try done.
  - intros (?&?&Hsc). split_and!; [auto | done |]. unfold scan_ok in *.
    destruct (b_scan b) as [[scan todo]|]; [|done]. by destruct Hsc as (ids&got&[=]&_).
  - intros (?&?&?&Hh&_&?).
    assert (Hrows : ∀ r, r ∈ b.(b_held) → ∃ id, id ∈ ids ∧ r = RowLock id).
    { intros r Hr. by destruct (Hh r Hr) as [?|?%not_elem_of_nil]. }
    split_and!; [auto | done | done | by left; apply Hrows | apply in_order_rows | done].
    intros r (i&_&->)%Hrows. eauto.
  - intros (?&?&?). auto.
Qed.

Lemma session_advances {A} (free : resource → Prop) faulty db (s : session A) db' s' ev :
  session_ok db.(tables) s → session_step free faulty db s db' s' ev → advances free db s db' s' ev.
Proof.
  destruct s as [p bo]. intros Hs Hst. pose proof Hs as (ph&Hf&Hb). simpl in Hf, Hb.
  destruct p as [a|B q k|R q k|k|B q k|R q k|k|k|k|k|k|m k]; simpl in Hf.
  - done.
  - destruct Hf as (->&Hq&Hk). destruct bo as [b|]; [by destruct Hb as (_&[]&_) |].
    destruct Hst as (r&Ha&->&->). eapply advances_pool; [done | done | done | apply Hk].
  - destruct Hf as (->&Hq&Hk). destruct bo as [b|]; [by destruct Hb as (_&[]&_) |].
    destruct Hst as (r&c&Ha&_&->&->). eapply advances_pool; [done | done | done | apply Hk].
  - destruct Hf as (->&Hk&He). destruct bo as [b|]; [by destruct Hb as (_&[]&_) |]. open_step Hst. destruct faulty.
    + destruct Hst as (msg&->&->&->). apply advances_silent; [apply session_outside, He | apply moves_closed].
    + destruct Hst as (->&->&->). apply advances_silent.
      * apply (session_fits _ Opened); [done | split; simpl; try done | split_and!; [by split | done | done]].
        -- by intros id ?%not_elem_of_nil.
        -- intros id. rewrite lookup_empty. by intros [? [=]].
      * apply moves_quiet; unfold holds, own_entries; simpl; by intros ? ?%not_elem_of_nil.
  - destruct bo as [b|]; [by apply (tx_exec_advances free faulty) |]. subst ph. by destruct q.
  - destruct bo as [b|]; [by apply (tx_query_advances free faulty) |]. subst ph. by destruct Hf.
  - destruct Hf as (Ho&Hn&Hk). destruct bo as [b|]; [|done]. destruct Hb as (Hown&_&Hfit).
    open_step Hst. assert (Hquiet : ∀ r, advances free db (MkSession (Commit k) (Some b)) db (MkSession (k r) None) Silent).
    { intros r. apply advances_silent; [apply session_outside, Hk | apply moves_closed]. }
    destruct (b_aborted b) eqn:Hab; [by destruct Hst as (e&_&->&->&->) |]. specialize (Hfit eq_refl).
    assert (Hl : live (tables db) (Commit k) b) by (destruct ph; try done; by destruct Hfit).
    destruct faulty.
    + destruct Hst as (msg&[(->&->&->)|(Htr&->&->&->)]); [done | by apply advances_commit].
    + destruct (triggers_pass _ _) eqn:Htr; [|by destruct Hst as (->&->&->)].
      destruct Hst as (->&->&->). by apply advances_commit.
  - destruct Hst as (_&->&->&->). apply advances_silent; [by apply session_outside | apply moves_closed].
  - destruct Hf as [-> Hk]. destruct bo as [b|]; [by destruct Hb as (_&[]&_) |]. open_step Hst.
    assert (Hq : ∀ r, advances free db (MkSession (DrawV7 k) None) db (MkSession (k r) None) Silent).
    { intros r. apply advances_silent; [apply session_outside, Hk | apply moves_closed]. }
    destruct faulty; by destruct Hst as (x&->&->&->).
  - destruct Hf as [-> Hk]. destruct bo as [b|]; [by destruct Hb as (_&[]&_) |]. destruct Hst as (_&u&->&->&->).
    apply advances_silent; [apply session_outside, Hk | apply moves_closed].
  - destruct Hst as (_&now&->&->&->). apply advances_silent; [|by apply moves_quiet; auto].
    exists ph. split; [apply Hf |]. simpl. destruct bo as [b|]; [|done]. destruct Hb as (Ho&Hph&Hfit).
    split; [done |]. split; [done |]. intros Hab. by apply fits_now, Hfit.
  - destruct Hf as [-> Hk]. destruct bo as [b|]; [by destruct Hb as (_&[]&_) |]. destruct Hst as (_&->&->&->).
    apply advances_silent; [by apply session_outside | apply moves_closed].
Qed.

(** The loss of the connection. *)
Lemma advances_cut {A} (free : resource → Prop) db (p : prog A) b :
  session_ok db.(tables) (MkSession p (Some b)) →
  advances free db (MkSession p (Some b)) db (MkSession p (Some (cut b))) Silent.
Proof.
  intros Hs. apply advances_silent; [by apply session_cut |].
  apply moves_quiet; unfold holds, own_entries; simpl; by intros ? ?%not_elem_of_nil.
Qed.

(** ** The system *)

Record consistent {A} (y : system A) : Prop := {
  cs_session : ∀ p s, y.(y_sessions) !! p = Some s → session_ok y.(y_db).(tables) s;
  cs_locks : ∀ p q s s' r, p ≠ q → y.(y_sessions) !! p = Some s → y.(y_sessions) !! q = Some s' →
      holds s r → ¬ holds s' r;
  cs_seq : ∀ e, e ∈ y.(y_db).(tables).(entries) → e.(er_id) <= y.(y_db).(entries_seq);
  cs_own : ∀ p s e, y.(y_sessions) !! p = Some s → e ∈ own_entries s →
      e.(er_id) <= y.(y_db).(entries_seq) ∧
      ∀ e', e' ∈ y.(y_db).(tables).(entries) → e'.(er_id) ≠ e.(er_id);
  cs_apart : ∀ p q s s' e e', p ≠ q → y.(y_sessions) !! p = Some s → y.(y_sessions) !! q = Some s' →
      e ∈ own_entries s → e' ∈ own_entries s' → e'.(er_id) ≠ e.(er_id) }.

Lemma session_owns {A} t (s : session A) b : session_ok t s → s.(s_block) = Some b → owns t b.
Proof. intros (ph&_&Hb) Hs. rewrite Hs in Hb. apply Hb. Qed.

(** A step publishes at most the writes of its session's block. *)
Lemma moves_published {A} free db (s : session A) db' s' :
  moves free db s db' s' →
  published db.(tables) db'.(tables) (open_writes s).
Proof.
  intros [_ _ _ Hp]. destruct Hp as [Ht|Hp He|w Hw Ht];
    [by apply published_nothing | by apply published_auto |].
  destruct (s_block s'); [done |]. by eapply published_block.
Qed.

Lemma block_writes {A} (s : session A) w :
  open_writes s = Some w → ∃ b, s.(s_block) = Some b ∧ b.(b_writes) = w.
Proof. unfold open_writes. destruct (s_block s) as [b|]; [|done]. intros [= <-]. by exists b. Qed.

(** The entries that a step commits are those of its session. *)
Lemma published_entries {A} free db (s : session A) db' s' e :
  moves free db s db' s' → e ∈ db'.(tables).(entries) →
  e ∈ db.(tables).(entries) ∨ e ∈ own_entries s.
Proof.
  intros Hm He. destruct (moves_published _ _ _ _ _ Hm) as [Ht|_ Hent|w Hw Ht].
  - left. by rewrite <-Ht.
  - left. by apply Hent.
  - apply block_writes in Hw as (b&Hb&<-). rewrite Ht in He. simpl in He.
    apply elem_of_app in He as [?|He]; [by left | right]. unfold own_entries. by rewrite Hb.
Qed.

(** Another session's step leaves the reads of a block alone. *)
Lemma moves_passes {A} free db (s : session A) db' s' s2 (b2 : block A) :
  session_ok db.(tables) s → session_ok db.(tables) s2 → s2.(s_block) = Some b2 →
  moves free db s db' s' → (∀ r, holds s r → ¬ holds s2 r) →
  (∀ e e', e ∈ own_entries s → e' ∈ own_entries s2 → e'.(er_id) ≠ e.(er_id)) →
  passes b2.(b_held) b2.(b_writes).(w_entries) db.(tables) db'.(tables).
Proof.
  intros Hs Hs2 Hb2 Hm Hlocks Hent. pose proof (session_owns _ _ _ Hs2 Hb2) as Ho2.
  destruct (moves_published _ _ _ _ _ Hm) as [Ht|Hp _|w Hw Ht].
  - rewrite Ht. apply passes_refl.
  - apply Hp, Ho2.
  - apply block_writes in Hw as (b&Hb&<-). pose proof (session_owns _ _ _ Hs Hb) as Ho.
    unfold holds, own_entries in Hlocks, Hent. rewrite Hb, Hb2 in Hlocks. rewrite Hb, Hb2 in Hent.
    rewrite Ht. split; simpl.
    + intros id Hid. apply lookup_union_r, eq_None_not_Some. intros Hw.
      by apply (Hlocks (RowLock id)); [apply (ow_accounts _ _ Ho) |].
    + intros id Hid. apply lookup_union_is_Some. by right.
    + apply map_subseteq_spec. intros id x Hx. apply lookup_union_Some_raw. right. split; [|done].
      apply eq_None_not_Some. intros [y Hy]. by rewrite (ow_fresh _ _ Ho id y Hy) in Hx.
    + intros id x Hx. apply lookup_union_Some_raw in Hx as [Hx|[_ Hx]]; [right | by left].
      destruct (ow_transactions _ _ Ho id x Hx) as (H1&H2&H3). split; [by apply Hlocks.. |].
      intros r Hr. by apply Hlocks, H3.
    + intros e [?|He]%elem_of_app; [by left | right].
      intros (e'&Heq&He')%list_elem_of_fmap. by apply (Hent e e').
Qed.

(** The entries of a block are distinct from the committed ones. *)
Lemma moves_own {A} free db (s : session A) db' s' e :
  moves free db s db' s' →
  (∀ e, e ∈ db.(tables).(entries) → e.(er_id) <= db.(entries_seq)) →
  (∀ e, e ∈ own_entries s → e.(er_id) <= db.(entries_seq) ∧
     ∀ e', e' ∈ db.(tables).(entries) → e'.(er_id) ≠ e.(er_id)) →
  e ∈ own_entries s' →
  e.(er_id) <= db'.(entries_seq) ∧ ∀ e', e' ∈ db'.(tables).(entries) → e'.(er_id) ≠ e.(er_id).
Proof.
  intros [Hseq _ Hent Hpub] Hq Ho He.
  assert (Hc : ∀ e', e' ∈ db'.(tables).(entries) → e' ∈ db.(tables).(entries)).
  { unfold own_entries in He. destruct (s_block s'); [|by apply not_elem_of_nil in He].
    destruct Hpub as [->|_ Hent'|w [=] _]; auto. }
  destruct (Hent e He) as [Hold|Hnew].
  - destruct (Ho e Hold) as [? Hd]. split; [lia |]. intros e' He'. by apply Hd, Hc.
  - split; [lia |]. intros e' He'%Hc%Hq. lia.
Qed.

(** The invariant of the system, and the serial account of a step. *)
Lemma step_consistent {A} faulty (y y' : system A) l :
  consistent y → step faulty y l y' → consistent y' ∧ serial y.(y_db).(tables) [l] y'.(y_db).(tables).
Proof.
  intros [Hs Hl Hq Ho Ha] Hst.
  assert (Hadv : ∃ db ss p s db' s', y = MkSystem db ss ∧ y' = MkSystem db' (<[p:=s']> ss) ∧ ss !! p = Some s ∧
                 l.1 = p ∧ advances (free ss p) db s db' s' l.2).
  { destruct Hst as [db ss p s db' s' ev Hp Hst|db ss p prg b Hp _ _]; simpl in *.
    - exists db, ss, p, s, db', s'. split_and!; try done. by eapply session_advances; [apply (Hs p)|].
    - eexists db, ss, p, _, db, _. split_and!; [done.. |]. by apply advances_cut, (Hs p). }
  destruct Hadv as (db&ss&p&s&db'&s'&->&->&Hp&<-&Hs'&Hm&Hser). destruct l as [p ev]. simpl in *.
  split; [|apply Hser]. pose proof Hm as [Hseq Hlk Hent _].
  assert (Hlt : (p < length ss)%nat) by by eapply lookup_lt_Some.
  assert (Hother : ∀ q s2, <[p:=s']> ss !! q = Some s2 →
    (q = p ∧ s2 = s') ∨ (q ≠ p ∧ ss !! q = Some s2)).
  { intros q s2 [(?&?&_)|[? ?]]%list_lookup_insert_Some; [by left | by right]. }
  split; simpl.
  - intros q s2 [[-> ->]|[Hne Hq2]]%Hother; [done |].
    eapply session_passes; [|by eapply Hs]. intros b2 Hb2.
    eapply (moves_passes (free ss p) db s db' s' s2); [by eapply Hs | by eapply Hs | done | done | |].
    + intros r. by apply (Hl p q).
    + intros e e'. by apply (Ha p q).
  - intros q1 q2 s1 s2 r Hne [[-> ->]|[Hne1 H1]]%Hother [[-> ->]|[Hne2 H2]]%Hother; [done | | |].
    + intros [?|Hf]%Hlk; [by apply (Hl p q2 s) | by apply (Hf q2)].
    + intros H [Hr|Hf]%Hlk; [by apply (Hl q1 p s1 s r) | by apply (Hf q1 s1)].
    + by apply (Hl q1 q2).
  - intros e [He|He]%(published_entries _ _ _ _ _ _ Hm); [specialize (Hq e He); lia |].
    destruct (Ho p s e Hp He). lia.
  - intros q s2 e [[-> ->]|[Hne Hq2]]%Hother He.
    + apply (moves_own (free ss p) db s db' s'); auto. intros e'. by apply (Ho p s).
    + destruct (Ho q s2 e Hq2 He) as [? Hd]. split; [lia |].
      intros e' [He'|He']%(published_entries _ _ _ _ _ _ Hm); [by apply Hd |].
      by apply (Ha q p s2 s).
  - intros q1 q2 s1 s2 e e' Hne [[-> ->]|[Hne1 H1]]%Hother [[-> ->]|[Hne2 H2]]%Hother He He'; [done | | |].
    + apply Hent in He as [He|He]; [by apply (Ha p q2 s s2) |]. destruct (Ho q2 s2 e' H2 He'). lia.
    + apply Hent in He' as [He'|He']; [by apply (Ha q1 p s1 s) |]. destruct (Ho q1 s1 e H1 He). lia.
    + by apply (Ha q1 q2 s1 s2).
Qed.


Lemma serial_app {A} t tr1 t1 tr2 t2 :
  serial (A:=A) t tr1 t1 → serial t1 tr2 t2 → serial t (tr1 ++ tr2) t2.
Proof.
  induction 1; intros; simpl; [done | apply serial_silent | eapply serial_auto | eapply serial_block]; eauto.
Qed.

(** Every execution keeps the invariant and is serial. *)
Lemma execution_consistent {A} (y y' : system A) tr :
  consistent y → execution y tr y' →
  consistent y' ∧ serial y.(y_db).(tables) tr y'.(y_db).(tables).
Proof.
  intros Hc Hx. induction Hx as [y|faulty y1 l y2 tr y3 Hst Hx IH]; [split; [done | apply serial_nil] |].
  destruct (step_consistent _ _ _ _ Hc Hst) as [Hc2 H1]. destruct (IH Hc2) as [Hc3 H2].
  split; [done |]. by apply (serial_app _ [l] _ tr _ H1).
Qed.

(** Sessions that have not begun. *)
Lemma start_consistent {A} db (ps : list (prog A)) :
  Forall stays ps → (∀ e, e ∈ db.(tables).(entries) → e.(er_id) <= db.(entries_seq)) →
  consistent (start_system db ps).
Proof.
  intros Hps Hseq.
  assert (Hno : ∀ p s, (start_system db ps).(y_sessions) !! p = Some s → ∃ x, stays x ∧ s = MkSession x None).
  { intros p s (x&->&Hx)%list_lookup_fmap_Some. exists x. split; [|done].
    by eapply Forall_lookup_1 in Hx. }
  split; simpl; [|intros p q s s' r _ Hp _ Hh|done|intros p s e Hp He|intros p q s s' e e' _ Hp _ He].
  - intros p s (x&Hx&->)%Hno. by apply session_outside.
  - by apply Hno in Hp as (x&_&->).
  - apply Hno in Hp as (x&_&->). by apply not_elem_of_nil in He.
  - apply Hno in Hp as (x&_&->). by apply not_elem_of_nil in He.
Qed.
