(* ===== verification/Liveness.v ===== *)
(** * Every session gets its answer

    A session waits only for locks above those it holds, so that waiting sessions
    never form a cycle; and every call brings a program closer to its end, so that
    no schedule runs for ever.  Together: however the calls of the sessions are
    scheduled, and whichever of them fail, every session finishes. *)

From S2P Require Import Prelude GoStd Decimal Money Uuid Ledger Schema Pgx Prog Machine Locking Frames Serial.
From stdpp Require Import options.
Import Ledger Schema.

(** ** The order of the locks *)

#[export] Instance below_dec : RelDecision below.
Proof. intros [] []; simpl; apply _. Defined.

#[export] Instance below_irreflexive : Irreflexive below.
Proof. intros []; simpl; [by intros [_ ?] | unfold complement; simpl; lia..]. Qed.

#[export] Instance below_transitive : Transitive below.
Proof.
  intros [] [] []; simpl; try lia; try done. intros [H1 N1] [H2 N2]. split; [by etrans |].
  intros ->. apply N1. by apply (anti_symm Uuid.le).
Qed.

(** ** Waiting *)

(** The lock that the next call of a session waits for. *)
Definition waiting_for {A} (db : DB) (s : session A) : option resource :=
  match s.(s_block) with
  | None => None
  | Some b =>
      if b.(b_aborted) then None
      else
        match s.(s_prog) with
        | TxExec q _ => next_need q (seen db b) b
        | TxQuery q _ =>
            match lock_ids q, b.(b_scan) with
            | Some _, Some (_, id :: _) =>
                if bool_decide (RowLock id ∈ b.(b_held)) then None else Some (RowLock id)
            | _, _ => None
            end
        | _ => None
        end
  end.

Lemma waiting_exec {A B} db (q : sql B) (k : result error B → prog A) b l r :
  session_ok db.(tables) (MkSession (TxExec q k) (Some b)) → b.(b_aborted) = false →
  next_need q (seen db b) b = Some l → r ∈ b.(b_held) → below r l.
Proof.
  intros (ph&Hf&Ho&_&Hfit) Hab Hn Hr. simpl in Hf, Hfit. specialize (Hfit Hab). destruct (tx_allowed ph q) as [ph'|] eqn:Hal; [|done].
  pose proof (next_need_some _ _ _ _ Hn) as [Hl Hnh].
  destruct ph as [| |ids|ids|]; try done.
  - destruct Hfit as (_&_&Hids&Hheld&Hord&_). destruct q; try done; simpl in Hal, Hl.
    + case_decide; [|done]. case_bool_decide; [|by apply not_elem_of_nil in Hl].
      apply list_elem_of_singleton in Hl as ->. by destruct Hnh; apply Hids.
    + assert (Hrank : (0 < rank l)%nat).
      { rewrite !elem_of_cons, list_elem_of_fmap in Hl.
        destruct Hl as [->|[->|(?&->&_)]]; simpl; lia. }
      destruct (Hheld r Hr) as [(i&_&->)|Hask]; [destruct l; simpl in *; try done; lia |].
      destruct (decide (rank r < rank l)%nat) as [?|Hge].
      { simpl in Hask. rewrite !elem_of_cons, list_elem_of_fmap in Hask.
        by destruct Hask as [->|[->|(?&->&_)]]. }
      destruct (decide (rank l < rank r)%nat) as [Hlt|?].
      { destruct Hnh. by apply (Hord r l). }
      simpl in Hask. rewrite !elem_of_cons, list_elem_of_fmap in Hl, Hask.
      destruct Hl as [->|[->|(rl&->&Hrl)]], Hask as [->|[->|(rr&->&Hrr)]]; simpl in *; try done; try lia.
      destruct reverses as [rv|]; simpl in Hrl, Hrr; [|by destruct (not_elem_of_nil rl)].
      apply list_elem_of_singleton in Hrl as ->. by apply list_elem_of_singleton in Hrr as ->.
  - by destruct q.
Qed.

Lemma waiting_query {A R} db (q : sql (list R)) (k : result error (Rows R) → prog A) b scan id todo r :
  session_ok db.(tables) (MkSession (TxQuery q k) (Some b)) → b.(b_aborted) = false →
  b.(b_scan) = Some (scan, id :: todo) → RowLock id ∉ b.(b_held) → r ∈ b.(b_held) →
  below r (RowLock id).
Proof.
  intros (ph&Hf&Ho&_&Hfit) Hab Hs Hnh Hr. simpl in Hf. destruct Hf as (->&_).
  destruct (Hfit Hab) as (_&_&Hsc). unfold scan_ok in Hsc. rewrite Hs in Hsc.
  destruct Hsc as (ids&got&_&->&Hsort&_&Hheld). pose proof Hr as (i&Hi&->)%Hheld.
  split; [|by intros ->]. apply (StronglySorted_app_1_elem_of Uuid.le got (id :: todo)); [done | done | left].
Qed.

(** A session waits for a lock above all those it holds. *)
Lemma waiting_below {A} db (s : session A) l r :
  session_ok db.(tables) s → waiting_for db s = Some l → holds s r → below r l.
Proof.
  destruct s as [p [b|]]; [|done]. unfold waiting_for, holds. simpl. intros Hs Hl Hr.
  destruct (b_aborted b) eqn:Hab; [done |]. destruct p; try done.
  - by eapply waiting_exec.
  - destruct (lock_ids q); [|done]. destruct (b_scan b) as [[scan [|id todo]]|] eqn:Hsc; try done.
    case_bool_decide; [done |]. injection Hl as <-. by eapply waiting_query.
Qed.

(** ** Progress of one session *)

Lemma pool_answers {B} (q : sql B) db : ∃ r db', pool_answer false q db r db'.
Proof.
  set (env := MkEnv (λ _, NoFault) (λ _, None) (λ _, None) (λ _, 0%Z) (λ _, 0%nat) (λ _, 0%nat) (λ _ db, db)).
  destruct (autocommit env 0%nat q db) as [r db'] eqn:E. by exists r, db', env, 0%nat.
Qed.

Lemma answers_rows {R} (r : result error (list R)) : ∃ c, as_rows r c.
Proof. destruct r; eexists; [done | by left]. Qed.

Lemma answers_exec {A B} (q q' : sql B) db (b : block A) : ∃ r db' b', executes q q' db b r db' b'.
Proof.
  set (cx := StmtCtx 0%Z 0%nat 0%nat).
  destruct (sql_exec cx q' (MkDB (seen db b) db.(entries_seq) db.(audit_seq))) as [r db1] eqn:E.
  eexists r, _, _, cx, db1. by split_and!.
Qed.

(** A statement of a block references only rows that the block has locked. *)
Lemma shares_held {A B} t (q : sql B) (k : result error B → prog A) b r :
  session_ok t (MkSession (TxExec q k) (Some b)) → b.(b_aborted) = false → r ∈ shares q → r ∈ b.(b_held).
Proof.
  intros (ph&Hf&Ho&_&Hfit) Hab Hr. simpl in Hf, Hfit. specialize (Hfit Hab). destruct q; try (by apply not_elem_of_nil in Hr).
  apply list_elem_of_singleton in Hr as ->. destruct ph; try done. simpl in Hf.
  case_decide; [|done]. by apply Hfit.
Qed.

Lemma session_progress {A} (free : resource → Prop) db (s : session A) :
  session_ok db.(tables) s → finished s.(s_prog) = None →
  (∀ r, holds s r → free r) → (∀ l, waiting_for db s = Some l → free l) →
  ∃ db' s' ev, session_step free false db s db' s' ev.
Proof.
  destruct s as [p bo]. intros Hs Hfin Hheld Hwait.
  destruct p as [a|B q k|R q k|k|B q k|R q k|k|k|k|k|k|m k]; unfold session_step; cbn [s_prog s_block].
  - done.
  - destruct (pool_answers q db) as (r&db'&?). eauto 10.
  - destruct (pool_answers q db) as (r&db'&?). destruct (answers_rows r) as [c ?]. eauto 10.
  - eauto 10.
  - destruct bo as [b|]; [|eauto 10]. unfold waiting_for in Hwait. cbn [s_prog s_block] in Hwait.
    destruct (b_aborted b) eqn:Hab; [eexists _, _, _, _; by split |]. unfold exec_step.
    destruct (next_need q (seen db b) b) as [l|].
    + eexists _, _, _, _, _. split_and!; eauto.
    + destruct (answers_exec q q db b) as (r&db'&b'&Hx).
      eexists db', _, _, (Some r), b'. split_and!; [|eauto | done | done].
      apply Forall_forall. intros r' Hr'. apply Hheld. by eapply shares_held.
  - destruct bo as [b|]; [|eauto 10]. unfold waiting_for in Hwait. cbn [s_prog s_block] in Hwait.
    destruct (b_aborted b); [eexists _, _, _, _, _; split; [done | split; [by left | done]] |].
    unfold query_step. destruct (lock_ids q) as [ids|]; [destruct (b_scan b) as [[scan [|id todo]]|]|].
    + destruct (answers_exec q (narrow q scan) db b) as (r&db'&b'&Hx). destruct (answers_rows r) as [c Hc].
      eexists db', _, _, (Some r), b'. split_and!; eauto.
    + exists db, (MkSession (TxQuery q k) (Some (if bool_decide (RowLock id ∈ b.(b_held))
        then scanning (Some (scan, todo)) b else acquire (RowLock id) (scanning (Some (scan, todo)) b)))),
        Silent, None.
      eexists. split; [split; [done |]; split; [done |] | by split].
      case_bool_decide; [done |]. split; [by apply Hwait | done].
    + eexists _, _, _, None, _. by split_and!.
    + destruct (answers_exec q q db b) as (r&db'&b'&Hx). destruct (answers_rows r) as [c Hc].
      eexists db', _, _, (Some r), b'. split_and!; eauto.
  - destruct bo as [b|]; [|eauto 10]. destruct (b_aborted b); [eexists _, _, _, _; by split |].
    destruct (triggers_pass _ _); eexists _, _, _; by split_and!.
  - eauto 10.
  - exists db, (MkSession (k (Ok Uuid.Nil)) bo), Silent. eauto.
  - exists db, (MkSession (k Uuid.Nil) bo), Silent. eauto.
  - exists db, (MkSession (k 0%Z) bo), Silent. eauto.
  - eauto 10.
Qed.

(** ** No deadlock *)

(** A finished session holds nothing. *)
Lemma holder_unfinished {A} t (s : session A) r :
  session_ok t s → holds s r → finished s.(s_prog) = None.
Proof.
  unfold holds. intros (ph&Hf&Hb) Hr. destruct (s_block s) as [b|]; [|done]. destruct Hb as (_&Hph&_).
  by destruct (s_prog s).
Qed.

Lemma free_or_held {A} (ss : list (session A)) p r :
  free ss p r ∨ ∃ q s, q ≠ p ∧ ss !! q = Some s ∧ holds s r.
Proof.
  destruct (lookup_search (λ q s, q ≠ p ∧ holds s r) (λ q s, q ≠ p → ¬ holds s r) ss)
    as [(q&s&?&?&?)|H]; [|right; eauto | left; intros q s Hq Hs; by apply (H q s)].
  intros q s _. destruct (decide (q = p)); [by right |].
  unfold holds. destruct (s_block s) as [b|]; [|by right; intros _ []].
  destruct (decide (r ∈ b_held b)); [by left | by right].
Qed.

(** As long as a session has not finished, some session can make its next call. *)
Lemma deadlock_free {A} (y : system A) s :
  consistent y → s ∈ y.(y_sessions) → finished s.(s_prog) = None →
  ∃ l y', step false y l y'.
Proof.
  destruct y as [db ss]. intros [Hs Hl _ _ _] Hin Hfin. simpl in *.
  assert (Hgo : ∀ p s, ss !! p = Some s → finished s.(s_prog) = None →
    (∀ l, waiting_for db s = Some l → free ss p l) → ∃ l y', step false (MkSystem db ss) l y').
  { intros p s' Hp Hf Hw.
    destruct (session_progress (free ss p) db s') as (db'&s2&ev&Hst); [by eapply Hs | done | | done |].
    - intros r Hr q s2 Hq Hq2. by apply (Hl p q s' s2).
    - eexists _, _. by eapply step_session. }
  apply list_elem_of_lookup in Hin as [p Hp].
  destruct (waiting_for db s) as [l0|] eqn:Hw0; [|apply (Hgo p s); [done | done | by rewrite Hw0]].
  destruct (maximal_exists below (omap (waiting_for db) ss)) as (l&Hin&Hmax).
  { intros E. apply (not_elem_of_nil l0). rewrite <-E. apply list_elem_of_omap.
    exists s. split; [by eapply list_elem_of_lookup_2 | done]. }
  apply list_elem_of_omap in Hin as (s1&Hs1&Hw1). apply list_elem_of_lookup in Hs1 as [p1 Hp1].
  assert (Hf1 : finished s1.(s_prog) = None).
  { unfold waiting_for in Hw1. destruct (s_block s1); [|done]. destruct (b_aborted _); [done |].
    by destruct (s_prog s1). }
  destruct (free_or_held ss p1 l) as [Hfree|(q&s2&Hne&Hq&Hheld)].
  { apply (Hgo p1 s1); [done | done |]. rewrite Hw1. by intros ? [= <-]. }
  apply (Hgo q s2); [done | by eapply holder_unfinished; [eapply Hs |] |].
  intros l2 Hw2. exfalso. apply (Hmax l2).
  - apply list_elem_of_omap. exists s2. split; [by eapply list_elem_of_lookup_2 | done].
  - by eapply waiting_below; [eapply Hs | |].
Qed.

(** ** Termination *)

(** A step that does not answer the call acquires a lock of the statement, or
    advances its locking read. *)
Definition closer {A} (p : prog A) (b b' : block A) : Prop :=
  b.(b_aborted) = false ∧
  match p with
  | TxExec q _ => ∃ l, l ∈ guards q ∧ (l ∉ b.(b_held)) ∧ b'.(b_held) = l :: b.(b_held)
  | TxQuery q _ =>
      ∃ scan todo, b'.(b_scan) = Some (scan, todo) ∧
        (b.(b_scan) = None ∨ ∃ id, b.(b_scan) = Some (scan, id :: todo))
  | _ => False
  end.

Lemma step_closer {A} free faulty db (s : session A) db' s' ev :
  session_step free faulty db s db' s' ev →
  child s'.(s_prog) s.(s_prog) ∨
  (s'.(s_prog) = s.(s_prog) ∧ ∃ b b', s.(s_block) = Some b ∧ s'.(s_block) = Some b' ∧ closer s.(s_prog) b b').
Proof.
  destruct s as [p bo]. intros Hst.
  destruct p as [a|B q k|R q k|k|B q k|R q k|k|k|k|k|k|m k]; open_step Hst; simpl.
  - done.
  - destruct Hst as (r&_&->&_). left. eauto.
  - destruct Hst as (r&c&_&_&->&_). left. eauto.
  - left. destruct faulty; [destruct Hst as (?&_&->&_) | destruct Hst as (_&->&_)]; eauto.
  - destruct bo as [b|]; [|destruct Hst as (_&_&->&_); left; eauto].
    destruct (b_aborted b) eqn:Hab; [destruct Hst as (?&_&_&->&_); left; eauto |].
    destruct faulty; [destruct Hst as (?&_&->&_); left; eauto |].
    destruct Hst as (r&b'&Hx&_&->). unfold exec_step in Hx.
    destruct (next_need q (seen db b) b) as [l|] eqn:Hn.
    + destruct Hx as (_&->&_&->). right. split; [done |]. eexists _, _. split_and!; [done | done |]. split; [done |].
      apply next_need_some in Hn as [Hl Hnh]. exists l. split_and!; [by eapply needs_guards | done | done].
    + destruct Hx as (_&a&->&_). left. eauto.
  - destruct bo as [b|]; [|destruct Hst as (_&_&->&_); left; eauto].
    destruct (b_aborted b) eqn:Hab; [destruct Hst as (?&c&_&_&_&->&_); left; eauto |].
    destruct faulty; [destruct Hst as (?&c&_&_&->&_); left; eauto |].
    destruct Hst as (r&b'&Hx&_&Hs'). unfold query_step in Hx.
    destruct (lock_ids q) as [ids|]; [destruct (b_scan b) as [[scan [|id todo]]|] eqn:Hsc|].
    + destruct Hx as (a&->&_). destruct Hs' as (c&_&->). left. eauto.
    + destruct Hx as (->&_&Hb'). subst s'. right. split; [done |]. eexists _, _. split_and!; [done | done |]. split; [done |].
      exists scan, todo. split; [|right; by exists id].
      case_bool_decide; [by subst b' | destruct Hb' as [_ ->]; done].
    + destruct Hx as (->&_&->). subst s'. right. split; [done |]. eexists _, _. split_and!; [done | done |]. split; [done |].
      eexists _, _. split; [done | by left].
    + destruct Hx as (a&->&_). destruct Hs' as (c&_&->). left. eauto.
  - destruct bo as [b|]; [|destruct Hst as (_&_&->&_); left; eauto].
    destruct (b_aborted b); [destruct Hst as (?&_&_&->&_); left; eauto |].
    destruct faulty; [destruct Hst as (?&[(_&->&_)|(_&_&->&_)]); left; eauto |].
    destruct (triggers_pass _ _); [destruct Hst as (_&->&_) | destruct Hst as (_&->&_)]; left; eauto.
  - destruct Hst as (_&_&->&_). left. eauto.
  - left. destruct faulty; destruct Hst as (?&_&->&_); eauto.
  - destruct Hst as (_&?&_&->&_). left. eauto.
  - destruct Hst as (_&?&_&->&_). left. eauto.
  - destruct Hst as (_&_&->&_). left. eauto.
Qed.

(** What a step makes of a session. *)
Definition advanced {A} (s' s : session A) : Prop :=
  (∃ free faulty db db' ev, session_step free faulty db s db' s' ev) ∨
  ∃ b, s.(s_block) = Some b ∧ (b.(b_aborted) = false ∨ b.(b_held) ≠ []) ∧ s' = MkSession s.(s_prog) (Some (cut b)).

Lemma filter_missing_lt (wanted held : list resource) l :
  l ∈ wanted → l ∉ held →
  (length (filter (λ r, r ∉ l :: held) wanted) < length (filter (λ r, r ∉ held) wanted))%nat.
Proof.
  assert (Hle : ∀ w, (length (filter (λ r, r ∉ l :: held) w) <= length (filter (λ r, r ∉ held) w))%nat).
  { induction w as [|a w IH]; [done |]. rewrite !filter_cons. repeat case_decide; simpl; try lia. set_solver. }
  induction wanted as [|a w IH]; [by intros ?%not_elem_of_nil |].
  intros [->|Hin]%elem_of_cons Hn; rewrite !filter_cons.
  - rewrite decide_False by set_solver. rewrite decide_True by done. simpl. specialize (Hle w). lia.
  - specialize (IH Hin Hn). repeat case_decide; simpl; try lia. set_solver.
Qed.

Section blocks.
Context {A : Type} (p : prog A) (IH : ∀ p', child p' p → ∀ bo, Acc advanced (MkSession p' bo)).

(** A block that is cut is not cut again. *)
#[local] Lemma advanced_cut b : Acc advanced (MkSession p (Some (cut b))).
Proof using IH.
  constructor. intros [p' bo'] [(free&faulty&db&db'&ev&Hst)|(b1&[= <-]&[[=]|[]]&_)]; [|done].
  apply step_closer in Hst as [Hc|(Hp&b1&b'&[= <-]&_&[=]&_)]; by apply IH.
Qed.

(** One more step: the next program, or the same with a block that is closer. *)
#[local] Lemma advanced_step b :
  (∀ b', closer p b b' → Acc advanced (MkSession p (Some b'))) → Acc advanced (MkSession p (Some b)).
Proof using IH.
  intros Hb. constructor. intros [p' bo'] [(free&faulty&db&db'&ev&Hst)|(b1&_&_&[= -> ->])]; [|apply advanced_cut].
  apply step_closer in Hst as [Hc|(Hp&b1&b'&Hb1&Hb'&Hc)]; simpl in *; [by apply IH |].
  subst. injection Hb1 as <-. by apply Hb.
Qed.

#[local] Lemma advanced_exec {B} (q : sql B) k : p = TxExec q k → ∀ b, Acc advanced (MkSession p (Some b)).
Proof using IH.
  intros Hp b. remember (length (filter (λ r, r ∉ b.(b_held)) (guards q))) as n eqn:Hn.
  revert b Hn. induction n as [n IHn] using lt_wf_ind. intros b ->. apply advanced_step.
  intros b'. rewrite Hp at 1. intros (_&l&Hl&Hnh&Hb'). eapply IHn; [|done]. rewrite Hb'.
  by apply filter_missing_lt.
Qed.

#[local] Lemma advanced_query {R} (q : sql (list R)) k :
  p = TxQuery q k → ∀ b, Acc advanced (MkSession p (Some b)).
Proof using IH.
  intros Hp.
  assert (Hsome : ∀ todo scan b, b.(b_scan) = Some (scan, todo) → Acc advanced (MkSession p (Some b))).
  { intros todo. induction todo as [|id todo IHt]; intros scan b Hb; apply advanced_step; intros b';
      rewrite Hp at 1; intros (_&scan'&todo'&Hb'&[Hn|[i Hi]]); try congruence.
    rewrite Hb in Hi. injection Hi as <- <- <-. by eapply IHt. }
  intros b. destruct (b_scan b) as [[scan todo]|] eqn:Hb; [by eapply Hsome |].
  apply advanced_step. intros b'. rewrite Hp at 1. intros (_&scan&todo&Hb'&_). by eapply Hsome.
Qed.
End blocks.

Lemma advanced_wf {A} : well_founded (advanced (A:=A)).
Proof.
  assert (H : ∀ (p : prog A) bo, Acc advanced (MkSession p bo)).
  { intros p. induction (child_wf p) as [p _ IH]. intros [b|].
    - destruct p as [a|B q k|R q k|k|B q k|R q k|k|k|k|k|k|m k];
        try (apply (advanced_step _ IH); intros b' [_ []]).
      + apply (advanced_exec _ IH q k eq_refl).
      + apply (advanced_query _ IH q k eq_refl).
    - constructor. intros [p' bo'] [(free&faulty&db&db'&ev&Hst)|(b1&[=]&_)].
      apply step_closer in Hst as [Hc|(_&b1&_&[=]&_)]. by apply IH. }
  intros [p bo]. apply H.
Qed.

(** The system after a step, whatever the schedule and the failures. *)
Definition steps_to {A} (y' y : system A) : Prop := ∃ faulty l, step faulty y l y'.

Lemma steps_to_wf {A} : well_founded (steps_to (A:=A)).
Proof.
  intros [db ss]. revert db. induction (update_at_wf advanced advanced_wf ss) as [ss _ IH].
  intros db. constructor. intros y' (faulty&l&Hst). inversion Hst; subst;
    (apply IH; eexists _, _, _; split_and!; [done | | done]).
  - left. by eexists _, _, _, _, _.
  - right. by eexists.
Qed.

(** ** Answers *)

Definition all_finished {A} (y : system A) : Prop :=
  ∀ s, s ∈ y.(y_sessions) → finished s.(s_prog) ≠ None.

(** Along every schedule, with any failures, [P] holds at last; until then some
    session can always make a call that does not fail. *)
Inductive inevitably {A} (P : system A → Prop) (y : system A) : Prop :=
| inevitably_now : P y → inevitably P y
| inevitably_next :
    (∃ l y', step false y l y') → (∀ y', steps_to y' y → inevitably P y') → inevitably P y.

Lemma consistent_answers {A} (y : system A) : consistent y → inevitably all_finished y.
Proof.
  induction (steps_to_wf y) as [y _ IH]. intros Hc.
  destruct (lookup_search (λ _ s, finished s.(s_prog) = None) (λ _ s, finished s.(s_prog) ≠ None)
    y.(y_sessions)) as [(p&s&Hp&Hf)|H].
  - intros p s _. destruct (finished _); [by right | by left].
  - apply inevitably_next.
    + apply (deadlock_free y s); [done | by eapply list_elem_of_lookup_2 | done].
    + intros y' Hy'. apply IH; [done |]. destruct Hy' as (faulty&l&Hst). by eapply step_consistent.
  - apply inevitably_now. intros s [p Hp]%list_elem_of_lookup. by eapply H.
Qed.
