(* ===== verification/Scheduler.v ===== *)
(** * A scheduler

    An executable schedule of the sessions of a system: at each turn the session
    that it names makes its next call, without failure, if it need not wait.  Every
    schedule is an execution of [Machine]. *)

From S2P Require Import Prelude GoStd Decimal Money Uuid Ledger Schema Pgx Prog Machine.
From stdpp Require Import options.
Import Ledger Schema.
Open Scope Z_scope.

Definition held_by {A} (s : session A) : list resource :=
  match s.(s_block) with Some b => b.(b_held) | None => [] end.

(** Lock [r] is held by no session but the [p]-th. *)
Definition free_now {A} (ss : list (session A)) (p : nat) (r : resource) : bool :=
  forallb (λ x, bool_decide (x.1 = p) || negb (bool_decide (r ∈ held_by x.2))) (imap pair ss).

Lemma free_now_free {A} (ss : list (session A)) p r : free_now ss p r = true → free ss p r.
Proof.
  unfold free_now, free. rewrite forallb_forall. intros H q s Hq Hs Hh.
  specialize (H (q, s)). simpl in H. rewrite bool_decide_false, orb_false_l in H by done.
  assert (Hin : In (q, s) (imap pair ss)).
  { apply list_elem_of_In, list_elem_of_lookup. exists q. by rewrite list_lookup_imap, Hs. }
  apply H in Hin. apply negb_true_iff, bool_decide_eq_false in Hin. apply Hin.
  unfold holds in Hh. unfold held_by. by destruct (s_block s).
Qed.

Section next.
Context {A : Type} (env : Env) (n : nat) (free : resource → bool).

Definition turn_ctx : stmt_ctx := stmt_ctx_at env n (env_now env n).

Definition execute {B} (q q' : sql B) (db : DB) (b : block A) : result error B * DB * block A :=
  let '(r, db1) := sql_exec turn_ctx q' (MkDB (seen db b) db.(entries_seq) db.(audit_seq)) in
  (r, MkDB db.(tables) db1.(entries_seq) db1.(audit_seq),
   match r with
   | Ok _ => wrote (record_writes q (seen db b) db1.(tables) b.(b_writes)) (trigger_events q) b
   | Err _ => aborted b
   end).

Definition rows_of {R} (r : result error (list R)) : result error (Rows R) :=
  match r with Ok l => Ok (MkRows l None) | Err e => Err e end.

(** The next call of a session that does not wait. *)
Definition next (db : DB) (s : session A) : option (DB * session A * effect A) :=
  let go p b := Some (db, MkSession p b, Silent) in
  match s.(s_prog) with
  | Done _ => None
  | PoolExec q k =>
      let '(r, db') := autocommit env n q db in Some (db', MkSession (k r) s.(s_block), Autocommits)
  | PoolQuery q k =>
      let '(r, db') := autocommit env n q db in
      Some (db', MkSession (k (rows_of r)) s.(s_block), Autocommits)
  | BeginTx k => go (k (Ok tt)) (Some (new_block (k (Ok tt))))
  | TxExec q k =>
      match s.(s_block) with
      | None => go (k (Err tx_closed)) None
      | Some b =>
          if b.(b_aborted) then go (k (Err in_failed_transaction)) (Some b)
          else match next_need q (seen db b) b with
               | Some l => if free l then go s.(s_prog) (Some (acquire l b)) else None
               | None =>
                   if forallb free (shares q) then
                     let '(r, db', b') := execute q q db b in
                     Some (db', MkSession (k r) (Some b'), Silent)
                   else None
               end
      end
  | TxQuery q k =>
      match s.(s_block) with
      | None => go (k (Err tx_closed)) None
      | Some b =>
          if b.(b_aborted) then go (k (Err in_failed_transaction)) (Some b)
          else
            let run q' :=
              let '(r, db', b') := execute q q' db b in
              Some (db', MkSession (k (rows_of r)) (Some b'), Silent) in
            match lock_ids q, b.(b_scan) with
            | None, _ => run q
            | Some ids, None =>
                let scan := filter (λ id, is_Some ((seen db b).(accounts) !! id)) (Uuid.sort ids) in
                go s.(s_prog) (Some (scanning (Some (scan, scan)) b))
            | Some _, Some (scan, id :: todo) =>
                let b1 := scanning (Some (scan, todo)) b in
                if bool_decide (RowLock id ∈ b.(b_held)) then go s.(s_prog) (Some b1)
                else if free (RowLock id) then go s.(s_prog) (Some (acquire (RowLock id) b1)) else None
            | Some _, Some (scan, []) => run (narrow q scan)
            end
      end
  | Commit k =>
      match s.(s_block) with
      | None => go (k (Err tx_closed)) None
      | Some b =>
          if b.(b_aborted) then go (k (Err tx_commit_rollback)) None
          else if triggers_pass (MkDB (seen db b) 0 0) b.(b_pending) then
            Some (MkDB (seen db b) db.(entries_seq) db.(audit_seq), MkSession (k (Ok tt)) None,
                  Commits b.(b_start) (k (Ok tt)))
          else go (k (Err trigger_exception)) None
      end
  | Rollback k => go (k tt) None
  | DrawV7 k => go (k (Ok (default Uuid.Nil (env_uuid env n)))) s.(s_block)
  | DrawV4 k => go (k (default Uuid.Nil (env_uuid env n))) s.(s_block)
  | Now k => go (k (env_now env n)) s.(s_block)
  | Log _ k => go (k tt) s.(s_block)
  end.

Lemma execute_executes {B} (q q' : sql B) db b r db' b' :
  execute q q' db b = (r, db', b') → executes q q' db b r db' b'.
Proof.
  unfold execute. destruct (sql_exec _ q' _) as [r1 db1] eqn:E. intros [= <- <- <-].
  by exists turn_ctx, db1.
Qed.

Lemma rows_of_as {R} (r : result error (list R)) : as_rows r (rows_of r).
Proof. destruct r; [done | by left]. Qed.

Lemma next_sound (P : resource → Prop) db s db' s' ev :
  (∀ r, free r = true → P r) → next db s = Some (db', s', ev) → session_step P false db s db' s' ev.
Proof.
  intros HP Hn. destruct s as [p bo]. unfold next in Hn. unfold session_step. cbn [s_prog s_block] in *.
  destruct p as [a|B q k|R q k|k|B q k|R q k|k|k|k|k|k|m k].
  - done.
  - destruct (autocommit env n q db) as [r db1] eqn:E. injection Hn as <- <- <-.
    exists r. split_and!; [by exists env, n | done | done].
  - destruct (autocommit env n q db) as [r db1] eqn:E. injection Hn as <- <- <-.
    exists r, (rows_of r). split_and!; [by exists env, n | apply rows_of_as | done | done].
  - by injection Hn as <- <- <-.
  - destruct bo as [b|]; [|by injection Hn as <- <- <-].
    destruct (b_aborted b); [injection Hn as <- <- <-; eexists; by split |]. unfold exec_step.
    destruct (next_need q (seen db b) b) as [l|].
    + destruct (free l) eqn:Hf; [|done]. injection Hn as <- <- <-.
      eexists None, _. split_and!; [by apply HP | done..].
    + destruct (forallb free (shares q)) eqn:Hf; [|done].
      destruct (execute q q db b) as [[r db1] b'] eqn:E. injection Hn as <- <- <-.
      exists (Some r), b'. split_and!; [|exists r; split; [done | by apply execute_executes] | done | done].
      apply Forall_forall. intros r' Hr'. apply HP. rewrite forallb_forall in Hf.
      by apply Hf, list_elem_of_In.
  - destruct bo as [b|]; [|by injection Hn as <- <- <-].
    destruct (b_aborted b).
    { injection Hn as <- <- <-. eexists _, _. split; [done |]. split; [by left | done]. }
    unfold query_step. destruct (lock_ids q) as [ids|]; [destruct (b_scan b) as [[scan [|id todo]]|]|].
    + destruct (execute q (narrow q scan) db b) as [[r db1] b'] eqn:E. injection Hn as <- <- <-.
      exists (Some r), b'. split; [exists r; split; [done | by apply execute_executes] |].
      split; [done |]. exists (rows_of r). split; [apply rows_of_as | done].
    + case_bool_decide; [|destruct (free (RowLock id)) eqn:Hf; [|done]]; injection Hn as <- <- <-;
        eexists None, _; (split; [split; [done |]; split; [done |] | by split]); [done |].
      split; [by apply HP | done].
    + injection Hn as <- <- <-. eexists None, _. by split_and!.
    + destruct (execute q q db b) as [[r db1] b'] eqn:E. injection Hn as <- <- <-.
      exists (Some r), b'. split; [exists r; split; [done | by apply execute_executes] |].
      split; [done |]. exists (rows_of r). split; [apply rows_of_as | done].
  - destruct bo as [b|]; [|by injection Hn as <- <- <-].
    destruct (b_aborted b); [injection Hn as <- <- <-; eexists; by split |].
    destruct (triggers_pass _ _); by injection Hn as <- <- <-.
  - by injection Hn as <- <- <-.
  - injection Hn as <- <- <-. eauto.
  - injection Hn as <- <- <-. eauto.
  - injection Hn as <- <- <-. eauto.
  - by injection Hn as <- <- <-.
Qed.
End next.

(** A turn of session [p]; a session that waits, or has finished, loses its turn. *)
Definition turn {A} (env : Env) (n p : nat) (y : system A) : option ((nat * effect A) * system A) :=
  match y.(y_sessions) !! p with
  | None => None
  | Some s =>
      match next env n (free_now y.(y_sessions) p) y.(y_db) s with
      | Some (db', s', ev) => Some ((p, ev), MkSystem db' (<[p := s']> y.(y_sessions)))
      | None => None
      end
  end.

Fixpoint schedule {A} (env : Env) (n : nat) (ps : list nat) (y : system A)
  : list (nat * effect A) * system A :=
  match ps with
  | [] => ([], y)
  | p :: ps =>
      match turn env n p y with
      | Some (l, y1) => let '(tr, y') := schedule env (S n) ps y1 in (l :: tr, y')
      | None => schedule env (S n) ps y
      end
  end.

Lemma turn_step {A} env n p (y y' : system A) l : turn env n p y = Some (l, y') → step false y l y'.
Proof.
  destruct y as [db ss]. unfold turn. simpl. destruct (ss !! p) as [s|] eqn:Hp; [|done].
  destruct (next _ _ _ _ _) as [[[db' s'] ev]|] eqn:Hn; [|done]. intros [= <- <-].
  apply step_session with s; [done |]. eapply next_sound; [|exact Hn].
  intros r. apply free_now_free.
Qed.

(** Every schedule is an execution. *)
Lemma schedule_execution {A} env n ps (y : system A) :
  execution y (schedule env n ps y).1 (schedule env n ps y).2.
Proof.
  revert n y. induction ps as [|p ps IH]; intros n y; [constructor |]. simpl.
  destruct (turn env n p y) as [[l y1]|] eqn:Ht; [|apply IH].
  specialize (IH (S n) y1). destruct (schedule env (S n) ps y1) as [tr y'] eqn:Es.
  eapply execution_step; [by eapply turn_step | exact IH].
Qed.

(** The loss of the connection of session [p], as a step. *)
Definition sever {A} (p : nat) (y : system A) : option (system A) :=
  match y.(y_sessions) !! p with
  | Some (MkSession prg (Some b)) =>
      if b.(b_aborted) then None
      else Some (MkSystem y.(y_db) (<[p := MkSession prg (Some (cut b))]> y.(y_sessions)))
  | _ => None
  end.

Lemma sever_step {A} p (y y' : system A) : sever p y = Some y' → step true y (p, Silent) y'.
Proof.
  destruct y as [db ss]. unfold sever. simpl. destruct (ss !! p) as [[prg [b|]]|] eqn:Hp; try done.
  destruct (b_aborted b) eqn:Hb; [done |]. intros [= <-]. apply step_lost; auto.
Qed.

(** The same as an execution: nothing happens when there is no block to cut. *)
Lemma sever_execution {A} p (y : system A) :
  execution y (if sever p y is Some _ then [(p, Silent)] else []) (default y (sever p y)).
Proof.
  destruct (sever p y) as [y'|] eqn:E; [|constructor].
  eapply execution_step; [by apply sever_step | constructor].
Qed.
