(* ===== verification/Solo.v ===== *)
(** * A block that runs alone

    The block of a scheduled session, once serialised, is a run of its program on
    one working copy of the tables: a script gives the clock, the sequences and the
    order of unordered rows at each call.  Such runs satisfy [BlockSpec], so that
    the contracts of the store and of the service's callbacks hold of them. *)

From S2P Require Import Prelude GoStd Decimal Money Uuid Ledger Schema Pgx Store Service LedgerSpec LedgerFacts StorerSpec ServiceSpec Numeric SchemaFacts StoreBlocks Prog Machine.
From stdpp Require Import options.
Import Ledger Schema LedgerSpec.
Open Scope Z_scope.

(** ** Statements keep the tables linked *)

Lemma linked_snoc t e :
  linked t → is_Some (t.(transactions) !! e.(er_transaction_id)) →
  linked (with_entries t (t.(entries) ++ [e])).
Proof. intros Ht He e' [Hin| ->%list_elem_of_singleton]%elem_of_app; [by apply Ht | done]. Qed.

Lemma linked_same t t' :
  linked t → t'.(entries) = t.(entries) →
  (∀ id, is_Some (t.(transactions) !! id) → is_Some (t'.(transactions) !! id)) → linked t'.
Proof. intros Ht He Hs e. rewrite He. intros ?%Ht. by apply Hs. Qed.

Lemma sql_exec_linked {A} cx (q : sql A) db r db' :
  linked db.(tables) → sql_exec cx q db = (r, db') → linked db'.(tables).
Proof.
  intros Ht. destruct q; simpl; unfold upd_tables; try (by intros [= _ <-]).
  - destruct (update_balance _ _ _ _) as [t'|] eqn:E; intros [= _ <-]; [|done].
    apply update_balance_ok in E as (bal&_&_&_&He&Hx&_). apply (linked_same db.(tables)); [done | done |].
    intros i. cbn [tables]. by rewrite Hx.
  - unfold insert_account. by destruct (_ !! id); intros [= _ <-].
  - destruct (insert_transaction _ _ _ _ _ _) as [t'|] eqn:E; intros [= _ <-]; [|done].
    apply insert_transaction_tables in E as ->.
    apply (linked_same db.(tables)); [done | done |]. intros i. apply is_Some_insert.
  - unfold nextval. destruct (_ <? max_bigint); [|by intros [= _ <-]].
    destruct (insert_entry _ _ _ _ _ _ _) as [t'|] eqn:E; intros [= _ <-]; [|done].
    apply insert_entry_ok in E as (amt&_&_&Hx&_&->). by apply linked_snoc.
  - unfold nextval. destruct (_ <? max_bigint); [|by intros [= _ <-]].
    destruct (insert_audit _ _ _ _) as [t'|] eqn:E; intros [= _ <-]; [|done].
    by apply insert_audit_tables in E as [rows ->].
Qed.

(** ** Scripted runs *)

Record solo := Solo {
  so_base : ledger;
  so_tables : Tables;
  so_pending : list UUID;
  so_failed : bool;
  so_script : list (stmt_ctx * Z * Z) }.

Definition end_of_script : error := Opaque "end of script".

(** The call of a statement with its turn of the script. *)
Definition solo_call {B} (q : sql B) (w : solo) : result error B * solo :=
  match w.(so_script) with
  | [] => (Err end_of_script, w)
  | (cx, n, m) :: script =>
      if w.(so_failed) then (Err in_failed_transaction, Solo w.(so_base) w.(so_tables) w.(so_pending) true script)
      else match sql_exec cx q (MkDB w.(so_tables) n m) with
           | (Ok a, db') => (Ok a, Solo w.(so_base) db'.(tables) (w.(so_pending) ++ trigger_events q) false script)
           | (Err e, db') => (Err e, Solo w.(so_base) db'.(tables) w.(so_pending) true script)
           end
  end.

(** Calls that do not belong in a block are refused. *)
Fixpoint solo_run {A} (p : prog A) (w : solo) : A * solo :=
  match p with
  | Done a => (a, w)
  | TxExec q k => let '(r, w') := solo_call q w in solo_run (k r) w'
  | TxQuery q k =>
      let '(r, w') := solo_call q w in
      solo_run (k (match r with Ok l => Ok (MkRows l None) | Err e => Err e end)) w'
  | Now k =>
      match w.(so_script) with
      | [] => solo_run (k 0) w
      | (cx, _, _) :: script =>
          solo_run (k cx.(cx_now)) (Solo w.(so_base) w.(so_tables) w.(so_pending) w.(so_failed) script)
      end
  | PoolExec _ k => solo_run (k (Err end_of_script)) w
  | PoolQuery _ k => solo_run (k (Err end_of_script)) w
  | BeginTx k | Commit k => solo_run (k (Err end_of_script)) w
  | DrawV7 k => solo_run (k (Err end_of_script)) w
  | DrawV4 k => solo_run (k Uuid.Nil) w
  | Rollback k | Log _ k => solo_run (k tt) w
  end.

Lemma solo_run_bind A B (m : prog A) (f : A → prog B) w :
  solo_run (mbind f m) w = let '(a, w') := solo_run m w in solo_run (f a) w'.
Proof.
  revert w. induction m as [a|C q k IH|R q k IH|k IH|C q k IH|R q k IH|k IH|k IH|k IH|k IH|k IH|s k IH];
    intros w; simpl; auto.
  - destruct (solo_call q w) as [r w']. apply IH.
  - destruct (solo_call q w) as [r w']. apply IH.
  - destruct (so_script w) as [|[[cx n] m'] script]; apply IH.
Qed.

Definition solo_open (C L : ledger) (w : solo) : Prop :=
  w.(so_base) = C ∧ L = abs w.(so_tables) ∧ linked w.(so_tables).

Lemma solo_call_spec {B} (q : sql B) C L w r w' :
  solo_open C L w → solo_call q w = (r, w') → answers q L r (λ L', solo_open C L' w').
Proof.
  intros (HC&->&Hl). unfold solo_call. destruct (so_script w) as [|[[cx n] m] script].
  { intros [= <- <-]. exists (MkDB w.(so_tables) 0 0), (MkDB w.(so_tables) 0 0). split_and!; [done.. |].
    right. by split; [|intros f [=]]. }
  destruct (so_failed w).
  { intros [= <- <-]. exists (MkDB w.(so_tables) 0 0), (MkDB w.(so_tables) 0 0). split_and!; [done.. |].
    right. by split; [|intros f [= <-]]. }
  destruct (sql_exec cx q _) as [[a|e] db'] eqn:E; intros [= <- <-];
    pose proof (sql_exec_linked cx q (MkDB w.(so_tables) n m) _ _ Hl E);
    exists (MkDB w.(so_tables) n m), db'; (split; [exact Hl | split; [done | split; [by split_and! | eauto]]]).
Qed.

Lemma solo_exec B (q : sql B) C L w r w' :
  solo_open C L w → solo_run (tx_exec q) w = (r, w') → answers q L r (λ L', solo_open C L' w').
Proof.
  intros Ho. simpl. destruct (solo_call q w) as [r0 w0] eqn:E. intros [= <- <-].
  by apply (solo_call_spec q C L) in E.
Qed.

Lemma solo_Query R (q : sql (list R)) C L w r w' :
  solo_open C L w → solo_run (tx_Query q) w = (r, w') →
  match r with
  | Ok (MkRows l None) => answers q L (Ok l) (λ L', solo_open C L' w')
  | Ok (MkRows _ (Some e)) | Err e => internal e ∧ ∃ L', solo_open C L' w'
  end.
Proof.
  intros Ho. simpl. destruct (solo_call q w) as [r0 w0] eqn:E. intros [= <- <-].
  apply (solo_call_spec q C L) in E; [|done]. destruct r0 as [l|e]; [done |].
  destruct E as (db&db'&_&_&Ho'&[[cx Hx]|[Hi _]]); [|eauto].
  apply sql_exec_err, is_pg_internal in Hx. eauto.
Qed.

Lemma solo_Now C L w now w' : solo_open C L w → solo_run time_Now w = (now, w') → solo_open C L w'.
Proof.
  intros Ho. simpl. by destruct (so_script w) as [|[[cx n] m] script]; intros [= _ <-].
Qed.

#[export] Instance prog_BlockSpec : BlockSpec prog := {
  bworld := solo;
  brun := @solo_run;
  brun_ret := λ A a w, eq_refl;
  brun_bind := solo_run_bind;
  open_block := solo_open;
  block_exec := solo_exec;
  block_Query := solo_Query;
  block_Now := solo_Now }.

(** ** Serialised blocks are scripted runs *)

(** A program that only makes calls of a block, and does not end it. *)
Fixpoint plain {A} (p : prog A) : Prop :=
  match p with
  | Done _ => True
  | TxExec _ k => ∀ r, plain (k r)
  | TxQuery _ k => ∀ r, plain (k r)
  | Now k => ∀ r, plain (k r)
  | _ => False
  end.

Lemma plain_bind {A B} (m : prog A) (f : A → prog B) :
  plain m → (∀ a, plain (f a)) → plain (mbind f m).
Proof. intros Hm Hf. induction m; simpl in *; auto. Qed.

Lemma plain_ret {A} (a : A) : plain (mret a).
Proof. done. Qed.

Lemma plain_exec {B} (q : sql B) : plain (tx_exec q).
Proof. done. Qed.

Lemma plain_Query {R} (q : sql (list R)) : plain (tx_Query q).
Proof. done. Qed.

Lemma plain_Now : plain time_Now.
Proof. done. Qed.

Create HintDb plain.
#[export] Hint Resolve plain_ret plain_exec plain_Query plain_Now : plain.

Ltac plain :=
  repeat first
    [ solve [eauto with plain]
    | apply plain_bind; [|intros ?; cbv beta]
    | progress case_match ].

Lemma plain_insert_each es : plain (Store.insert_each es).
Proof. induction es; cbn [Store.insert_each]; plain. Qed.
#[export] Hint Resolve plain_insert_each : plain.

Lemma plain_lock ids : plain (Service.LockAccountsForUpdate ids).
Proof. change (plain (Store.LockAccountsForUpdate ids)). unfold Store.LockAccountsForUpdate. plain. Qed.

Lemma plain_update id m : plain (Service.UpdateBalance id m).
Proof. change (plain (Store.UpdateBalance id m)). unfold Store.UpdateBalance. plain. Qed.

Lemma plain_insert_txn t : plain (Service.InsertTransaction t).
Proof. change (plain (Store.InsertTransaction t)). unfold Store.InsertTransaction. plain. Qed.

Lemma plain_insert_rev t : plain (Service.InsertReversalTransaction t).
Proof. change (plain (Store.InsertReversalTransaction t)). unfold Store.InsertReversalTransaction. plain. Qed.

Lemma plain_insert_entries es : plain (Service.InsertEntries es).
Proof. change (plain (Store.InsertEntries es)). unfold Store.InsertEntries. plain. Qed.
#[export] Hint Resolve plain_lock plain_update plain_insert_txn plain_insert_rev plain_insert_entries : plain.

Lemma plain_transfer_tx srcID dstID amount txn : plain (Service.transfer_tx srcID dstID amount txn).
Proof. unfold Service.transfer_tx. plain. Qed.

Lemma plain_reverse_tx srcID dstID amount txn : plain (Service.reverse_tx srcID dstID amount txn).
Proof. unfold Service.reverse_tx. plain. Qed.

Lemma plain_deposit_tx dstID amount txn : plain (Service.deposit_tx dstID amount txn).
Proof. unfold Service.deposit_tx. plain. Qed.

(** From a program of a block to what follows it, on a script. *)
Lemma alone_solo {A B} (p : prog A) (f : A → prog B) C t pend z :
  plain p → rtc alone (mbind f p, t, pend) z →
  (∃ k, z.1.1 = Commit k) →
  ∃ script a t1 pend1, solo_run p (Solo C t pend false script) = (a, Solo C t1 pend1 false []) ∧
    rtc alone (f a, t1, pend1) z.
Proof.
  intros Hp Hr [k0 Hk]. revert t pend Hr. induction p as [a|C' q k IH|R q k IH|k IH|C' q k IH|R q k IH|k IH|k IH|k IH|k IH|k IH|s k IH];
    intros t pend Hr; try done; simpl in Hp.
  - by exists [], a, t, pend.
  - inversion Hr as [|? [[p1 t1] pend1] ? Hst Hr']; subst; [done |].
    destruct Hst as (cx&n&m&a&db'&Hx&->&->&->).
    destruct (IH _ (Hp _) _ _ Hr') as (script&a'&t2&pend2&Hrun&Hrest).
    exists ((cx, n, m) :: script), a', t2, pend2. split; [|done].
    cbn [solo_run]. unfold solo_call. cbn [so_script so_failed so_tables]. by rewrite Hx.
  - inversion Hr as [|? [[p1 t1] pend1] ? Hst Hr']; subst; [done |].
    destruct Hst as (cx&n&m&a&db'&Hx&->&->&->).
    destruct (IH _ (Hp _) _ _ Hr') as (script&a'&t2&pend2&Hrun&Hrest).
    exists ((cx, n, m) :: script), a', t2, pend2. split; [|done].
    cbn [solo_run]. unfold solo_call. cbn [so_script so_failed so_tables]. by rewrite Hx.
  - inversion Hr as [|? [[p1 t1] pend1] ? Hst Hr']; subst; [done |].
    destruct Hst as ([now ->]&->&->).
    destruct (IH _ (Hp _) _ _ Hr') as (script&a'&t2&pend2&Hrun&Hrest).
    exists ((StmtCtx now 0%nat 0%nat, 0, 0) :: script), a', t2, pend2. by split.
Qed.
