(* ===== verification/Atomic.v ===== *)
(** * Transaction blocks: atomicity and the deferred trigger

    [WithTx] is all or nothing whatever its callback does with the transaction:
    statements, cursors, the clock, fresh ids and the log, each call chosen from the
    answers to those before it.  A callback is described by the tree of its calls;
    the callbacks of the service are among them.  What the deferred trigger checks at
    commit is stated for any transaction and any entries. *)

From S2P Require Import Prelude GoStd Decimal Money Uuid Ledger Schema Pgx Store Service LedgerSpec LedgerFacts StorerSpec ServiceSpec Numeric SchemaFacts StoreBlocks StoreRefines Guarantee Clients Migrations Progress Correctness Prog Machine Solo.
From stdpp Require Import options.
Import Ledger Schema LedgerSpec Migrations.
Open Scope Z_scope.

(** ** Callbacks *)

Section perform.
Context (env : Env).

(** A program performed on the world, call by call. *)
Fixpoint perform {A} (p : prog A) : PgM A :=
  match p with
  | Done a => mret a
  | PoolExec q k => let! r := pool_exec (Pgx:=PgM_Pgx env) q in perform (k r)
  | PoolQuery q k => let! r := pool_Query (Pgx:=PgM_Pgx env) q in perform (k r)
  | BeginTx k => let! r := pool_BeginTx (Pgx:=PgM_Pgx env) in perform (k r)
  | TxExec q k => let! r := tx_exec (Pgx:=PgM_Pgx env) q in perform (k r)
  | TxQuery q k => let! r := tx_Query (Pgx:=PgM_Pgx env) q in perform (k r)
  | Commit k => let! r := tx_Commit (Pgx:=PgM_Pgx env) in perform (k r)
  | Rollback k => let! r := tx_Rollback (Pgx:=PgM_Pgx env) in perform (k r)
  | DrawV7 k => let! r := uuid_NewV7 (GoRuntime:=PgM_Runtime env) in perform (k r)
  | DrawV4 k => let! r := uuid_New (GoRuntime:=PgM_Runtime env) in perform (k r)
  | Now k => let! r := time_Now (GoRuntime:=PgM_Runtime env) in perform (k r)
  | Log msg k => let! r := logger_Error (GoRuntime:=PgM_Runtime env) msg in perform (k r)
  end.

(** The calls a callback makes are those of [p]. *)
Definition performs {A} (p : prog A) (f : PgM A) : Prop := ∀ w, pg_run f w = pg_run (perform p) w.

Lemma performs_self {A} (p : prog A) : performs p (perform p).
Proof. done. Qed.

Lemma performs_ret {A} (a : A) : performs (mret a) (mret a).
Proof. done. Qed.

Lemma perform_bind {A B} (m : prog A) (k : A → prog B) w :
  pg_run (perform (mbind k m)) w = let '(a, w') := pg_run (perform m) w in pg_run (perform (k a)) w'.
Proof.
  revert w. induction m as [a|C q k' IH|R q k' IH|k' IH|C q k' IH|R q k' IH|k' IH|k' IH|k' IH|k' IH|k' IH|s k' IH];
    intros w; [done |..]; simpl; rewrite !pg_run_bind;
    match goal with |- context [pg_run ?m w] => destruct (pg_run m w) end; apply IH.
Qed.

Lemma performs_bind {A B} (m : prog A) (f : PgM A) (k : A → prog B) (g : A → PgM B) :
  performs m f → (∀ a, performs (k a) (g a)) → performs (mbind k m) (mbind g f).
Proof.
  intros Hm Hk w. rewrite pg_run_bind, perform_bind, Hm. destruct (pg_run (perform m) w). apply Hk.
Qed.

Lemma performs_exec {B} (q : sql B) : performs (tx_exec q) (tx_exec (Pgx:=PgM_Pgx env) q).
Proof. intros w. cbn [perform tx_exec prog_Pgx]. rewrite pg_run_bind. by destruct (pg_run _ w). Qed.

Lemma performs_Query {R} (q : sql (list R)) : performs (tx_Query q) (tx_Query (Pgx:=PgM_Pgx env) q).
Proof. intros w. cbn [perform tx_Query prog_Pgx]. rewrite pg_run_bind. by destruct (pg_run _ w). Qed.

Lemma performs_Now : performs time_Now (time_Now (GoRuntime:=PgM_Runtime env)).
Proof. done. Qed.

(** A program that only uses the open transaction, the clock, ids and the log. *)
Fixpoint in_block {A} (p : prog A) : Prop :=
  match p with
  | Done _ => True
  | TxExec _ k => ∀ r, in_block (k r)
  | TxQuery _ k => ∀ r, in_block (k r)
  | Now k => ∀ r, in_block (k r)
  | DrawV7 k => ∀ r, in_block (k r)
  | DrawV4 k => ∀ r, in_block (k r)
  | Log _ k => ∀ r, in_block (k r)
  | _ => False
  end.

Lemma plain_in_block {A} (p : prog A) : plain p → in_block p.
Proof. induction p; simpl; intros Hp; first [done | intros r; auto]. Qed.
End perform.

Create HintDb performs.
#[export] Hint Resolve performs_ret performs_exec performs_Query performs_Now : performs.

Ltac performs :=
  repeat first
    [ solve [eauto with performs]
    | apply performs_bind; [|intros ?; cbv beta]
    | progress case_match ].

(** The callbacks of the service, at both monads. *)
Section service.
Context (env : Env).

Lemma performs_insert_each es : performs env (Store.insert_each es) (Store.insert_each (Pgx0:=PgM_Pgx env) es).
Proof. induction es; cbn [Store.insert_each]; performs. Qed.
Hint Resolve performs_insert_each : performs.

Lemma performs_lock ids :
  performs env (Service.LockAccountsForUpdate ids) (Service.LockAccountsForUpdate (M:=PgM) ids).
Proof.
  change (performs env (Store.LockAccountsForUpdate ids) (Store.LockAccountsForUpdate (Pgx0:=PgM_Pgx env) ids)).
  unfold Store.LockAccountsForUpdate. performs.
Qed.

Lemma performs_update id m :
  performs env (Service.UpdateBalance id m) (Service.UpdateBalance (M:=PgM) id m).
Proof.
  change (performs env (Store.UpdateBalance id m) (Store.UpdateBalance (Pgx0:=PgM_Pgx env) (GoRuntime0:=PgM_Runtime env) id m)).
  unfold Store.UpdateBalance. performs.
Qed.

Lemma performs_insert_txn t :
  performs env (Service.InsertTransaction t) (Service.InsertTransaction (M:=PgM) t).
Proof.
  change (performs env (Store.InsertTransaction t) (Store.InsertTransaction (Pgx0:=PgM_Pgx env) t)).
  unfold Store.InsertTransaction. performs.
Qed.

Lemma performs_insert_rev t :
  performs env (Service.InsertReversalTransaction t) (Service.InsertReversalTransaction (M:=PgM) t).
Proof.
  change (performs env (Store.InsertReversalTransaction t) (Store.InsertReversalTransaction (Pgx0:=PgM_Pgx env) t)).
  unfold Store.InsertReversalTransaction. performs.
Qed.

Lemma performs_insert_entries es :
  performs env (Service.InsertEntries es) (Service.InsertEntries (M:=PgM) es).
Proof.
  change (performs env (Store.InsertEntries es) (Store.InsertEntries (Pgx0:=PgM_Pgx env) es)).
  unfold Store.InsertEntries. performs.
Qed.
Hint Resolve performs_lock performs_update performs_insert_txn performs_insert_rev performs_insert_entries : performs.

Lemma performs_transfer_tx a b m t :
  performs env (Service.transfer_tx a b m t) (Service.transfer_tx (M:=PgM) a b m t).
Proof. unfold Service.transfer_tx. performs. Qed.

Lemma performs_reverse_tx a b m t :
  performs env (Service.reverse_tx a b m t) (Service.reverse_tx (M:=PgM) a b m t).
Proof. unfold Service.reverse_tx. performs. Qed.

Lemma performs_deposit_tx b m t :
  performs env (Service.deposit_tx b m t) (Service.deposit_tx (M:=PgM) b m t).
Proof. unfold Service.deposit_tx. performs. Qed.
End service.

(** ** Atomicity *)

(** The callback run on a database by calls that all succeed, with the events it
    queues for the deferred trigger. *)
Inductive tx_steps {A} : prog A → DB → A → DB → list UUID → Prop :=
| steps_done a db : tx_steps (Done a) db a db []
| steps_exec {B} (q : sql B) k cx db b db1 a db2 ev :
    sql_exec cx q db = (Ok b, db1) → tx_steps (k (Ok b)) db1 a db2 ev →
    tx_steps (TxExec q k) db a db2 (trigger_events q ++ ev)
| steps_query {R} (q : sql (list R)) k cx db l db1 a db2 ev :
    sql_exec cx q db = (Ok l, db1) → tx_steps (k (Ok (MkRows l None))) db1 a db2 ev →
    tx_steps (TxQuery q k) db a db2 (trigger_events q ++ ev)
| steps_now t k db a db2 ev : tx_steps (k t) db a db2 ev → tx_steps (Now k) db a db2 ev
| steps_v7 r k db a db2 ev : tx_steps (k r) db a db2 ev → tx_steps (DrawV7 k) db a db2 ev
| steps_v4 u k db a db2 ev : tx_steps (k u) db a db2 ev → tx_steps (DrawV4 k) db a db2 ev
| steps_log s k db a db2 ev : tx_steps (k tt) db a db2 ev → tx_steps (Log s k) db a db2 ev.

(** The open block after some calls: aborted for good, or on the database that its
    successful calls leave. *)
Definition block_after {A} (p : prog A) (a : A) (tx tx' : TxState) : Prop :=
  tx'.(tx_aborted) = true ∨
  tx.(tx_aborted) = false ∧ tx'.(tx_aborted) = false ∧
  ∃ ev, tx_steps p tx.(tx_db) a tx'.(tx_db) ev ∧ tx'.(tx_pending) = tx.(tx_pending) ++ ev.

Lemma tx_exec_cases env {B} (q : sql B) w tx r w' :
  w.(w_tx) = Some tx → pg_run (tx_exec (Pgx:=PgM_Pgx env) q) w = (r, w') →
  w'.(w_db) = w.(w_db) ∧ ∃ tx', w'.(w_tx) = Some tx' ∧
  (tx'.(tx_aborted) = true ∨
   tx.(tx_aborted) = false ∧ tx'.(tx_aborted) = false ∧ tx'.(tx_pending) = tx.(tx_pending) ++ trigger_events q ∧
   ∃ cx b, r = Ok b ∧ sql_exec cx q tx.(tx_db) = (Ok b, tx'.(tx_db))).
Proof.
  intros Htx Hr. unfold pg_run, tx_exec, PgM_Pgx, PgM_tx_exec in Hr. rewrite Htx in Hr.
  destruct (tx_aborted tx) eqn:Hab; [|destruct (env_fault env (w_tick w))];
    [|destruct (sql_exec _ q (tx_db tx)) as [[b|e] db'] eqn:Hx|..]; injection Hr as <- <-;
    (split; [done |]); eexists; (split; [reflexivity |]); try (by left).
  right. split_and!; [done | done | done |]. by eexists _, _.
Qed.

(** A cursor that is not aborted has delivered the whole answer. *)
Lemma tx_Query_cases env {R} (q : sql (list R)) w tx r w' :
  w.(w_tx) = Some tx → pg_run (tx_Query (Pgx:=PgM_Pgx env) q) w = (r, w') →
  w'.(w_db) = w.(w_db) ∧ ∃ tx', w'.(w_tx) = Some tx' ∧
  (tx'.(tx_aborted) = true ∨
   tx.(tx_aborted) = false ∧ tx'.(tx_aborted) = false ∧ tx'.(tx_pending) = tx.(tx_pending) ++ trigger_events q ∧
   ∃ cx l, r = Ok (MkRows l None) ∧ sql_exec cx q tx.(tx_db) = (Ok l, tx'.(tx_db))).
Proof.
  intros Htx Hr. unfold pg_run, tx_Query, PgM_Pgx, PgM_tx_Query in Hr.
  destruct (PgM_tx_exec env q w) as [r0 w0] eqn:E. injection Hr as <- <-.
  destruct (tx_exec_cases env q w tx r0 w0 Htx E) as (Hdb&tx'&Htx'&Hc). split; [done |]. exists tx'. split; [done |].
  destruct Hc as [?|(?&?&?&cx&l&->&Hx)]; [by left |]. right. split_and!; [done.. |]. by exists cx, l.
Qed.

Lemma block_after_call {A B} (p : prog A) (k : B → prog A) q b a tx tx1 tx2 :
  (∀ db db2 ev, tx.(tx_db) = db → tx_steps (k b) tx1.(tx_db) a db2 ev → tx_steps p db a db2 (q ++ ev)) →
  tx.(tx_aborted) = false → tx1.(tx_pending) = tx.(tx_pending) ++ q →
  block_after (k b) a tx1 tx2 → block_after p a tx tx2.
Proof.
  intros Hp Hab Hpend [?|(_&?&ev&Hs&Hev)]; [by left |]. right. split_and!; [done | done |].
  exists (q ++ ev). split; [by apply Hp |]. by rewrite Hev, Hpend, app_assoc.
Qed.

(** A block that is aborted stays so. *)
Lemma block_after_aborted {A} (p p' : prog A) a tx tx1 tx2 :
  tx1.(tx_aborted) = true → block_after p' a tx1 tx2 → block_after p a tx tx2.
Proof. intros Hab [?|(?&_)]; [by left | congruence]. Qed.

Lemma perform_block env {A} (p : prog A) w tx a w' :
  in_block p → w.(w_tx) = Some tx → pg_run (perform env p) w = (a, w') →
  w'.(w_db) = w.(w_db) ∧ ∃ tx', w'.(w_tx) = Some tx' ∧ block_after p a tx tx'.
Proof.
  revert w tx. induction p as [a0|C q k IH|R q k IH|k IH|C q k IH|R q k IH|k IH|k IH|k IH|k IH|k IH|s k IH];
    intros w tx Hp Htx Hr; try done; cbn [perform] in Hr.
  4-7: pg_step Hr; cbv [pg_run uuid_NewV7 uuid_New time_Now logger_Error PgM_Runtime PgM_NewV7 PgM_New PgM_Now PgM_log] in Erun;
    injection Erun as <- <-; (eapply IH in Hr as (Hdb'&tx2&Htx2&Hb); [|apply Hp|exact Htx]); (split; [done |]);
    exists tx2; (split; [done |]); destruct Hb as [?|(?&?&ev&Hs&Hev)]; [by left | right; split_and!; [done.. |]];
    exists ev; split; [by econstructor | done].
  - rewrite pg_run_ret in Hr. injection Hr as <- <-. split; [done |]. exists tx. split; [done |].
    destruct (tx_aborted tx) eqn:Hab; [by left |]. right. split_and!; [done | done |].
    exists []. rewrite app_nil_r. split; [constructor | done].
  - pg_step Hr. destruct (tx_exec_cases env q _ _ _ _ Htx Erun) as (Hdb&tx1&Htx1&Hc).
    destruct (IH _ _ _ (Hp _) Htx1 Hr) as (Hdb'&tx2&Htx2&Hb). split; [congruence |]. exists tx2. split; [done |].
    destruct Hc as [Hab|(Hab&_&Hpend&cx&b&->&Hx)]; [by eapply block_after_aborted |].
    eapply block_after_call; [|done|exact Hpend|exact Hb]. intros db db2 ev <- Hs. by econstructor.
  - pg_step Hr. destruct (tx_Query_cases env q _ _ _ _ Htx Erun) as (Hdb&tx1&Htx1&Hc).
    destruct (IH _ _ _ (Hp _) Htx1 Hr) as (Hdb'&tx2&Htx2&Hb). split; [congruence |]. exists tx2. split; [done |].
    destruct Hc as [Hab|(Hab&_&Hpend&cx&l&->&Hx)]; [by eapply block_after_aborted |].
    eapply block_after_call; [|done|exact Hpend|exact Hb]. intros db db2 ev <- Hs. by econstructor.
Qed.

(** C34: [WithTx] is all or nothing, for any callback that uses the transaction it is
    given, statements, cursors, clock, ids and log in any order: the tables afterwards
    are those found at the start, or those the callback leaves when every one of its
    calls succeeds, and then every transaction it added entries to balances; a reply of
    success means the latter, an error of the callback the former; the connection holds
    no open transaction afterwards.  The callbacks of Transfer, Deposit and Reverse are
    such callbacks. *)
Theorem withtx_atomic env {A} (p : prog (result error A)) f w r w' :
  in_block p → performs env p f →
  w.(w_tx) = None → pg_run (Store.WithTx (Pgx0:=PgM_Pgx env) f) w = (r, w') →
  let before := refreshed env w in
  let applied a := ∃ db ev, tx_steps p before (Ok a) db ev ∧ w'.(w_db).(tables) = db.(tables) ∧
                            ∀ id, id ∈ ev → net_sum id db.(tables) = 0 in
  w'.(w_tx) = None ∧
  match r with
  | Ok a => applied a
  | Err e => w'.(w_db).(tables) = before.(tables) ∨
             (∃ a e', e = Wrapf "store.WithTx commit" e' ∧ applied a)
  end.
Proof.
  intros Hin Hperf Htx Hr. unfold Store.WithTx in Hr. pg_step Hr.
  unfold pg_run, pool_BeginTx, PgM_Pgx, PgM_BeginTx in Erun. simpl.
  destruct (env_fault env (w_tick w)); injection Erun as <- <-.
  2,3: rewrite pg_run_ret in Hr; injection Hr as <- <-; auto.
  pg_step Hr. rewrite Hperf in Erun.
  eapply (perform_block env p) in Erun as (Hdb&tx'&Htx'&Hres); [|done|done]. simpl in Hdb.
  destruct r0 as [a|e].
  2:{ rewrite pg_run_bind in Hr. cbv [pg_run tx_Rollback PgM_Pgx PgM_Rollback] in Hr.
      rewrite Htx' in Hr. injection Hr as <- <-. simpl. rewrite Hdb. auto. }
  pg_step Hr. unfold pg_run, tx_Commit, PgM_Pgx, PgM_Commit in Erun. rewrite Htx' in Erun.
  assert (Happ : tx_aborted tx' = false → triggers_pass (tx_db tx') (tx_pending tx') = true →
    ∃ db ev, tx_steps p (refreshed env w) (Ok a) db ev ∧ (tx_db tx').(tables) = db.(tables) ∧
             ∀ id, id ∈ ev → net_sum id db.(tables) = 0).
  { intros Hab Htr. destruct Hres as [?|(_&_&ev&Hs&Hp)]; [congruence |].
    exists (tx_db tx'), ev. split_and!; [done | done |]. intros id Hid.
    rewrite Hp in Htr. unfold triggers_pass in Htr. rewrite forallb_forall in Htr.
    apply Z.eqb_eq. apply (Htr id). by apply list_elem_of_In. }
  assert (Hend : ∀ (c : result error unit) wc, wc.(w_tx) = None →
    pg_run (let! _ := tx_Rollback (Pgx:=PgM_Pgx env) in
            match c with Err e => mret (Err (Wrapf "store.WithTx commit" e)) | Ok _ => mret (Ok a) end) wc
    = (match c with Err e => Err (Wrapf "store.WithTx commit" e) | Ok _ => Ok a end, wc)).
  { intros c wc Hc. rewrite pg_run_bind. cbv [pg_run tx_Rollback PgM_Pgx PgM_Rollback].
    rewrite Hc. by destruct c. }
  assert (Hn : w_tx w1 = None).
  { by destruct (tx_aborted tx'), (env_fault env (w_tick w0)), (triggers_pass (tx_db tx') (tx_pending tx'));
      injection Erun as _ <-. }
  rewrite Hend in Hr by done. injection Hr as <- <-. split; [done |].
  destruct (tx_aborted tx'), (env_fault env (w_tick w0)), (triggers_pass (tx_db tx') (tx_pending tx')) eqn:Htr;
    injection Erun as <- <-; simpl;
    try (left; by rewrite Hdb); try (by apply Happ).
  right. eexists _, _. split; [done | by apply Happ].
Qed.

(** The callback of a transfer on the seeded database. *)
Definition demo_txn : Transaction := new_Transaction (demo_uuid 7) KindTransfer "k" None.

Definition demo_callback (env : Env) : PgM reply := Service.transfer_tx Alice Bob (Money.of_units 2500) demo_txn.

Definition demo_block : reply * World :=
  pg_run (Store.WithTx (Pgx0:=PgM_Pgx demo_env) (demo_callback demo_env)) seed_world.

Definition demo_entries : list Entry :=
  [new_Entry (demo_uuid 7) Alice DirectionDebit (Money.of_units 2500);
   new_Entry (demo_uuid 7) Bob DirectionCredit (Money.of_units 2500)].

Lemma demo_block_ok : demo_block = (Ok (demo_txn, demo_entries), demo_block.2).
Proof. rewrite (surjective_pairing demo_block) at 1. apply pair_eq. by split; [vm_compute |]. Qed.

Lemma withtx_atomic_witness :
  demo_block.2.(w_tx) = None ∧
  ∃ db ev, tx_steps (Service.transfer_tx Alice Bob (Money.of_units 2500) demo_txn) (refreshed demo_env seed_world)
             (Ok (demo_txn, demo_entries)) db ev ∧
           demo_block.2.(w_db).(tables) = db.(tables).
Proof.
  destruct (withtx_atomic demo_env (Service.transfer_tx Alice Bob (Money.of_units 2500) demo_txn)
              (demo_callback demo_env)
              seed_world (Ok (demo_txn, demo_entries)) demo_block.2) as [H (db&ev&Hs&Ht&_)].
  - apply plain_in_block, plain_transfer_tx.
  - exact (performs_transfer_tx demo_env _ _ _ _).
  - reflexivity.
  - exact demo_block_ok.
  - split; [exact H |]. exists db, ev. split; [exact Hs | exact Ht].
Defined.

(** ** The deferred trigger *)

(** A transaction with its legs. *)
Definition with_legs (t : Transaction) (es : list Entry) : txn :=
  Txn t.(txn_Kind) t.(txn_IdempotencyKey) t.(txn_ReversesTransactionID) (leg_of <$> es).

Lemma add_legs_one id x es L :
  L.(txns) !! id = Some x → Forall (λ e, e.(ent_TransactionID) = id) es →
  add_legs es L =
  MkLedger L.(accts) (<[id := Txn x.(x_kind) x.(x_key) x.(x_reverses) (x.(x_legs) ++ (leg_of <$> es))]> L.(txns)) L.(trail).
Proof.
  intros Hx Hes. revert L x Hx. induction Hes as [|e es <- _ IH]; intros L x Hx.
  - simpl. rewrite app_nil_r. destruct L as [A T tr], x; simpl in *. f_equal. by rewrite insert_id.
  - cbn [add_legs foldl]. change (foldl _ ?l es) with (add_legs es l).
    assert (Hx1 : (add_leg e.(ent_TransactionID) (leg_of e) L).(txns) !! e.(ent_TransactionID)
      = Some (Txn x.(x_kind) x.(x_key) x.(x_reverses) (x.(x_legs) ++ [leg_of e]))).
    { unfold add_leg. simpl. by rewrite lookup_alter_eq, Hx. }
    rewrite (IH _ _ Hx1). simpl. f_equal. apply map_eq. intros i.
    destruct (decide (i = e.(ent_TransactionID))) as [->|Hi].
    + by rewrite !lookup_insert_eq, <-app_assoc.
    + rewrite !lookup_insert_ne, lookup_alter_ne by done. done.
Qed.

(** A pending check that fails. *)
Lemma live_commit_refused env `{!Calm env} C L p s w id x :
  live C L p s w → id ∈ p → L.(txns) !! id = Some x → sumZ leg_units x.(x_legs) ≠ 0 →
  ∃ w', pg_run (tx_Commit (Pgx:=PgM_Pgx env)) w = (Err trigger_exception, w') ∧ w'.(w_tx) = None ∧ pg_committed w' = C.
Proof.
  intros [Ho (tx&Htx&Hab&<-&<-&_)] Hp Hx Hs. pose proof (pg_open_tx _ _ _ _ Ho Htx) as ->.
  assert (Htr : triggers_pass (tx_db tx) (tx_pending tx) = false).
  { apply not_true_is_false. intros Htr. unfold triggers_pass in Htr. rewrite forallb_forall in Htr.
    apply Hs. rewrite <-(net_sum_abs _ _ _ Hx). apply Z.eqb_eq, Htr. by apply list_elem_of_In. }
  eexists. split.
  - unfold pg_run, tx_Commit, PgM_Pgx, PgM_Commit. rewrite Htx, Hab, calm_fault, Htr. reflexivity.
  - split; [done | apply Ho].
Qed.

Lemma calm_closed env (w : World) : w.(w_tx) = None → pg_run (tx_Rollback (Pgx:=PgM_Pgx env)) w = (tt, w).
Proof. intros Hw. unfold pg_run, tx_Rollback, PgM_Pgx, PgM_Rollback. by rewrite Hw. Qed.

(** A callback that records a transaction with its entries and updates no balance. *)
Definition record_only (env : Env) (t : Transaction) (es : list Entry) : PgM (result error unit) :=
  let? _ := Store.InsertTransaction (Pgx0:=PgM_Pgx env) t in
  Store.InsertEntries (Pgx0:=PgM_Pgx env) es.

Lemma live_record env `{!Calm env} t es C L s w :
  L.(txns) !! t.(txn_ID) = None → key_fresh t.(txn_IdempotencyKey) L → t.(txn_ReversesTransactionID) = None →
  Forall (λ e, e.(ent_TransactionID) = t.(txn_ID) ∧ Money.scaled e.(ent_Amount) ∧
               0 < Money.units e.(ent_Amount) < numeric_limit ∧ is_Some (L.(accts) !! e.(ent_AccountID))) es →
  s + Z.of_nat (length es) <= max_bigint → live C L [] s w →
  ∃ w', pg_run (record_only env t es) w = (Ok tt, w') ∧
    live C (add_txn t.(txn_ID) (with_legs t es) L) (ent_TransactionID <$> es) (s + Z.of_nat (length es)) w'.
Proof.
  intros Hid Hk Hrev Hes Hs Hl.
  destruct (live_insert env false t C L [] s w) as (w1&H1&L1); [done | done | by rewrite Hrev | by rewrite Hrev | done |].
  destruct (live_insert_entries env es C (add_txn t.(txn_ID) (txn_of t) L) [] s w1) as (w2&H2&L2); [| done | exact L1 |].
  { eapply Forall_impl; [exact Hes |]. intros e (He&?&?&?). split; [done |]. split; [done |]. split; [|done].
    rewrite He. exists (txn_of t). apply lookup_insert_eq. }
  exists w2. split; [unfold record_only; pg_next H1; exact H2 |].
  rewrite (add_legs_one t.(txn_ID) (txn_of t)) in L2; [| apply lookup_insert_eq |].
  - unfold add_txn in L2. simpl in L2. rewrite insert_insert_eq in L2. exact L2.
  - eapply Forall_impl; [exact Hes |]. by intros e (?&_).
Qed.

(** C35: the deferred trigger compares the legs of a transaction with each other, and
    with nothing else: a new transaction with any entries on existing accounts, and no
    update of a balance, is refused at commit when its debits and credits differ, and
    the ledger stays as it was; when they agree it commits, every balance stays as it
    was, and every account's balance then differs from its journal by what the entries
    say of it. *)
Theorem trigger_checks_legs_only env `{!Calm env} t es w :
  let L := pg_committed w in
  L.(txns) !! t.(txn_ID) = None → key_fresh t.(txn_IdempotencyKey) L → t.(txn_ReversesTransactionID) = None →
  Forall (λ e, e.(ent_TransactionID) = t.(txn_ID) ∧ Money.scaled e.(ent_Amount) ∧
               0 < Money.units e.(ent_Amount) < numeric_limit ∧ is_Some (L.(accts) !! e.(ent_AccountID))) es →
  pg_idle w → w.(w_db).(audit_seq) < max_bigint → w.(w_db).(entries_seq) + Z.of_nat (length es) <= max_bigint →
  ∃ r w', pg_run (Store.WithTx (Pgx0:=PgM_Pgx env) (record_only env t es)) w = (r, w') ∧
    if decide (sumZ leg_units (leg_of <$> es) = 0) then
      r = Ok tt ∧ (pg_committed w').(accts) = L.(accts) ∧
      ∀ a x, L.(accts) !! a = Some x →
        journal_balance a (pg_committed w') = x.(a_units) + contribution a (with_legs t es)
    else r = Err (Wrapf "store.WithTx commit" trigger_exception) ∧ pg_committed w' = L.
Proof.
  intros L Hid Hk Hrev Hes Hw Hm Hs.
  destruct (live_begin env w Hw Hm) as (w1&Hbegin&Hl).
  destruct (live_record env t es L L _ w1 Hid Hk Hrev Hes Hs Hl) as (w2&Hrun&Hl2).
  set (L2 := add_txn t.(txn_ID) (with_legs t es) L) in Hl2.
  assert (Hx : L2.(txns) !! t.(txn_ID) = Some (with_legs t es)) by (by apply lookup_insert_eq).
  assert (Hids : ∀ i, i ∈ ent_TransactionID <$> es → i = t.(txn_ID)).
  { intros i (e&->&He)%list_elem_of_fmap. rewrite Forall_forall in Hes. by apply (Hes e He). }
  case_decide as Hnet.
  - destruct (live_commit env _ _ _ _ _ Hl2) as (w3&Hcom&Htx3&_&HL3&_).
    { intros i ->%Hids. by exists (with_legs t es). }
    eexists _, w3. split; [|split_and!; [done | by rewrite HL3 |]].
    + unfold Store.WithTx. pg_next Hbegin. pg_next Hrun. pg_next Hcom. by pg_next (calm_closed env w3 Htx3).
    + intros a x Ha. rewrite HL3. unfold journal_balance. simpl. rewrite map_sumZ_insert_None by done.
      rewrite (inv_reconciled L (proj2 (proj2 Hw)) a x Ha). apply Z.add_comm.
  - destruct es as [|e es]; [done |].
    destruct (live_commit_refused env _ _ _ _ _ t.(txn_ID) (with_legs t (e :: es)) Hl2) as (w3&Hcom&Htx3&HL3);
      [|done|done|].
    { rewrite fmap_cons. apply Forall_cons in Hes as [[He _] _]. rewrite He. left. }
    eexists _, w3. split; [|split; [reflexivity | done]].
    unfold Store.WithTx. pg_next Hbegin. pg_next Hrun. pg_next Hcom. by pg_next (calm_closed env w3 Htx3).
Qed.

(** Alice to Bob, the credit as given. *)
Definition demo_legs (credit : Z) : list Entry :=
  [new_Entry (demo_uuid 7) Alice DirectionDebit (Money.of_units 2500);
   new_Entry (demo_uuid 7) Bob DirectionCredit (Money.of_units credit)].

Lemma trigger_checks_legs_only_witness :
  (∃ w', pg_run (Store.WithTx (Pgx0:=PgM_Pgx demo_env) (record_only demo_env demo_txn (demo_legs 2500))) seed_world = (Ok tt, w') ∧
     units_of Alice (pg_committed w') = 100000000 ∧ journal_balance Alice (pg_committed w') = 99997500) ∧
  (∃ w', pg_run (Store.WithTx (Pgx0:=PgM_Pgx demo_env) (record_only demo_env demo_txn (demo_legs 2501))) seed_world
         = (Err (Wrapf "store.WithTx commit" trigger_exception), w') ∧ pg_committed w' = seed_ledger).
Proof.
  assert (Hkey : key_fresh "k" seed_ledger) by (apply (bool_decide_unpack _); by vm_compute).
  assert (Halice : seed_ledger.(accts) !! Alice = Some (Acct 100000000 false)) by (by vm_compute).
  assert (Hbob : seed_ledger.(accts) !! Bob = Some (Acct 100000000 false)) by (by vm_compute).
  assert (Hes : ∀ u, 0 < u < numeric_limit → Forall (λ e, e.(ent_TransactionID) = demo_uuid 7 ∧
      Money.scaled e.(ent_Amount) ∧ 0 < Money.units e.(ent_Amount) < numeric_limit ∧
      is_Some (seed_ledger.(accts) !! e.(ent_AccountID))) (demo_legs u)).
  { intros u Hu. apply List.Forall_cons; [|apply List.Forall_cons; [|apply List.Forall_nil]].
    - split; [reflexivity |]. split; [reflexivity |]. split; [by vm_compute |]. exact (ex_intro _ _ Halice).
    - split; [reflexivity |]. split; [reflexivity |]. split; [exact Hu |]. exact (ex_intro _ _ Hbob). }
  split.
  - destruct (trigger_checks_legs_only demo_env demo_txn (demo_legs 2500) seed_world) as (r&w'&Hr&Hc);
      rewrite ?seed_committed; [by vm_compute | exact Hkey | done | by apply Hes | apply seed_idle | by vm_compute | by vm_compute |].
    rewrite seed_committed in Hc. rewrite decide_True in Hc by done. destruct Hc as (->&Ha&Hj).
    exists w'. split; [exact Hr |]. split; [by unfold units_of; rewrite Ha, Halice | by rewrite (Hj _ _ Halice)].
  - destruct (trigger_checks_legs_only demo_env demo_txn (demo_legs 2501) seed_world) as (r&w'&Hr&Hc);
      rewrite ?seed_committed; [by vm_compute | exact Hkey | done | by apply Hes | apply seed_idle | by vm_compute | by vm_compute |].
    rewrite seed_committed in Hc. rewrite decide_False in Hc by done. destruct Hc as (->&HL).
    exists w'. split; [exact Hr | exact HL].
Defined.
