(* ===== verification/Trail.v ===== *)
(** * What the audit trail says

    A line of the audit trail is written by a statement of its own, before the block
    it tells of has begun or after that block has ended.  What a line must say to be
    true of a ledger, and which statements of a session may write it: the line of a
    success is due for the movement that the session has made, and due once. *)

From S2P Require Import Prelude GoStd Decimal Money Uuid Ledger Schema Pgx LedgerSpec LedgerFacts StorerSpec Numeric SchemaFacts.
From stdpp Require Import options.
Import Ledger Schema LedgerSpec.
Open Scope Z_scope.

(** ** Lines *)

(** The line of a success names a transaction of the ledger, with its kind, the
    account it debits, the one it credits and the amount; the line of a failure names
    none, and has a reason. *)
Definition truthful (L : ledger) (u : audit) : Prop :=
  match u.(u_outcome) with
  | OutcomeFailure => u.(u_txn) = None ∧ is_Some u.(u_reason)
  | OutcomeSuccess =>
      u.(u_reason) = None ∧
      ∃ id x a b n, u.(u_txn) = Some id ∧ L.(txns) !! id = Some x ∧ u.(u_operation) = kind_text x.(x_kind) ∧
        u.(u_from) = Some a ∧ u.(u_to) = Some b ∧ u.(u_units) = Some n ∧
        x.(x_legs) = [Leg a DirectionDebit n; Leg b DirectionCredit n]
  end.

(** The transaction whose success a line reports. *)
Definition reported (u : audit) : option UUID :=
  match u.(u_outcome) with OutcomeSuccess => u.(u_txn) | OutcomeFailure => None end.

Lemma truthful_rely L L' u : rely L L' → truthful L u → truthful L' u.
Proof.
  intros [[_ Htx _] _]. unfold truthful. destruct (u_outcome u); [|done].
  intros (?&id&x&a&b&n&?&Hx&?). split; [done |]. exists id, x, a, b, n. split; [done |].
  split; [by eapply lookup_weaken | done].
Qed.

Lemma truthful_reported L u id : truthful L u → reported u = Some id → is_Some (L.(txns) !! id).
Proof.
  unfold truthful, reported. destruct (u_outcome u); [|done].
  intros (_&i&x&a&b&n&->&Hx&_) [= <-]. by exists x.
Qed.

(** The line of a movement that has been made. *)
Lemma success_truthful op rq id L :
  op = kind_text rq.(rq_kind) → truthful (move rq id L) (success_row op rq id).
Proof.
  intros ->. split; [done |].
  exists id, (Txn rq.(rq_kind) rq.(rq_key) rq.(rq_reverses) (rq_legs rq)), rq.(rq_from), rq.(rq_to), rq.(rq_units).
  split_and!; try done. unfold move. simpl. by rewrite lookup_insert_eq.
Qed.

(** ** Statements *)

(** What the column [amount] holds for the text that the driver sends. *)
Definition noted (amount : option string) (n : option Z) : Prop :=
  match amount with
  | None => n = None
  | Some text => ∃ a, numeric_in text = Ok a ∧ n = Some a
  end.

(** A session may write a line that is true when the ledger is [L]; that of a success
    only if it is the one that is due, [due]. *)
Definition vouches {B} (due : option UUID) (L : ledger) (q : sql B) : Prop :=
  match q with
  | InsertAudit op from to amount outcome reason txID reqID =>
      ∀ n, noted amount n →
        let u := Audit op from to n outcome reason txID reqID in
        truthful L u ∧ (outcome = OutcomeSuccess → txID = due)
  | _ => True
  end.

(** What is due after a statement: the line of a success is tried once. *)
Definition due_after {B} (q : sql B) (due : option UUID) : option UUID :=
  match q with
  | InsertAudit _ _ _ _ OutcomeSuccess _ _ _ => None
  | _ => due
  end.

Lemma vouches_rely {B} due L L' (q : sql B) : rely L L' → vouches due L q → vouches due L' q.
Proof.
  intros Hr. destruct q; try done. intros Hv n Hn. destruct (Hv n Hn) as [Ht Hd].
  split; [by eapply truthful_rely | done].
Qed.

(** Statements that write no line of a success. *)
Definition no_success {B} (q : sql B) : Prop :=
  match q with
  | InsertAudit _ _ _ _ outcome reason txID _ => outcome = OutcomeFailure ∧ txID = None ∧ is_Some reason
  | _ => True
  end.

Lemma no_success_vouches {B} due L (q : sql B) : no_success q → vouches due L q.
Proof. destruct q; try done. intros (->&->&?) n _. done. Qed.

Lemma no_success_due {B} due (q : sql B) : no_success q → due_after q due = due.
Proof. destruct q; try done. by intros (->&_). Qed.

(** The line that [WriteAudit] sends for a proper amount. *)
Lemma vouches_audit_of due L e :
  (∀ m, e.(aud_Amount) = Some m → Money.proper m) →
  truthful L (audit_of e) → (e.(aud_Outcome) = OutcomeSuccess → e.(aud_TransactionID) = due) →
  vouches due L
    (InsertAudit e.(aud_Operation) e.(aud_FromAccount) e.(aud_ToAccount)
       ((λ m, Decimal.Value (Money.Decimal m)) <$> e.(aud_Amount)) e.(aud_Outcome) e.(aud_ErrorReason)
       e.(aud_TransactionID) e.(aud_RequestID)).
Proof.
  intros Hm Ht Hd n Hn. split; [|done].
  replace n with (Money.units <$> e.(aud_Amount)); [done |].
  destruct (aud_Amount e) as [m|]; simpl in Hn |- *; [|done]. destruct Hn as (a&Ha&->).
  rewrite (numeric_in_proper m (Hm m eq_refl)) in Ha. unfold stored_as in Ha. by case_match; simplify_eq.
Qed.

(** What an inserted line adds to the books. *)
Lemma abs_insert_audit row id amount t t' :
  insert_audit row id amount t = Ok t' →
  ∃ n, noted amount n ∧ abs t' = add_audit (abs_audit (row id n)) (abs t).
Proof.
  unfold insert_audit. destruct amount as [text|]; [destruct (numeric_in text) as [a|] eqn:Ha; [|done]|];
    intros [= <-]; [exists (Some a) | exists None]; (split; [simpl; by eauto |]);
    rewrite abs_with_audit; unfold add_audit; simpl; by rewrite fmap_app.
Qed.
