(* ===== verification/Knowledge.v ===== *)
(** * What a session knows

    Other sessions commit between the calls of a session.  [knows] follows a program
    through its calls with the ledger that it saw at the latest, and with ledgers that
    were there at some moment: a read answers from some later ledger, and what it
    tells must survive until the block commits, or the answer is given.  The statements
    of a block tell of the committed tables too: a locking read, of the rows that were
    there when it began, as they are once they are locked; a refused transaction row,
    of the committed one that it collides with.  A commit that is acknowledged makes
    its line in the audit trail due, and that line is the only success that the session
    may report. *)

From S2P Require Import Prelude GoStd Decimal Money Uuid Ledger Schema Pgx Store Service LedgerSpec LedgerFacts StorerSpec ServiceSpec Numeric SchemaFacts StoreBlocks StoreRefines Clients Prog Machine Solo Trail.
From stdpp Require Import options.
Import Ledger Schema LedgerSpec Service.
Open Scope Z_scope.

(** Tables that may be found when the ledger was [L] before. *)
Record later (L : ledger) (t : Tables) : Prop := {
  lt_rely : rely L (abs t);
  lt_inv : ledger_inv (abs t);
  lt_linked : linked t }.

Lemma later_rely L L' t : rely L L' → later L' t → later L t.
Proof. intros Hr [? ? ?]. split; [by etrans | done | done]. Qed.

(** ** Blocks *)

(** The ledger moved by one of the requests [R], under the id [id]. *)
Definition moved_as (R : ledger → request → Prop) (id : UUID) (L L' : ledger) : Prop :=
  ∃ rq, R L rq ∧ can_move rq id L ∧ L' = move rq id L.

Definition moved (R : ledger → request → Prop) (L L' : ledger) : Prop := ∃ id, moved_as R id L L'.

(** A block that can only commit as such a movement, under an id and to a ledger that
    satisfy [W]. *)
Record commits_from {A} (R : ledger → request → Prop) (W : UUID → ledger → Prop) (L : ledger) (start : prog A)
    : Prop := {
  cf_open : ∀ t a t' pend, ¬ rtc alone (start, t, []) (Done a, t', pend);
  cf_moved : ∀ t k t' pend, later L t → rtc alone (start, t, []) (Commit k, t', pend) →
      linked t' ∧ ∃ id, moved_as R id (abs t) (abs t') ∧ W id (abs t') }.

Lemma commits_from_rely {A} R W L L' (p : prog A) :
  rely L L' → commits_from R W L p → commits_from R W L' p.
Proof. intros Hr [Ho Hm]. split; [done |]. intros t k t' pend Ht. eapply Hm, later_rely; done. Qed.

Lemma commits_from_weaken {A} (R R' : ledger → request → Prop) W L (p : prog A) :
  (∀ L rq, R L rq → R' L rq) → commits_from R W L p → commits_from R' W L p.
Proof.
  intros HR [Ho Hm]. split; [done |]. intros t k t' pend Ht Hr.
  destruct (Hm t k t' pend Ht Hr) as (Hl&id&(rq&Hrq&Hmv)&HW). split; [done |]. exists id. split; [|done].
  exists rq. split; [by apply HR | done].
Qed.

Lemma alone_bind_inv {A B} (f : A → prog B) (p : prog A) t pend z :
  rtc alone (mbind f p, t, pend) z →
  (∃ p' t' pend', rtc alone (p, t, pend) (p', t', pend') ∧ z = (mbind f p', t', pend')) ∨
  (∃ a t' pend', rtc alone (p, t, pend) (Done a, t', pend') ∧ rtc alone (f a, t', pend') z).
Proof.
  intros Hr. remember (mbind f p, t, pend) as x eqn:Hx. revert p t pend Hx.
  induction Hr as [x|x [[q1 t1] pend1] z Hst Hr IH]; intros p t pend ->.
  { left. by exists p, t, pend. }
  destruct p as [a|C q k|R q k|k|C q k|R q k|k|k|k|k|k|m k]; try done.
  - right. exists a, t, pend. split; [done |]. by eapply rtc_l.
  - destruct Hst as (cx&n&m&a&db'&Hx&->&->&->).
    assert (Hal : alone (TxExec q k, t, pend) (k (Ok a), tables db', pend ++ trigger_events q))
      by (exists cx, n, m, a, db'; by split_and!).
    destruct (IH (k (Ok a)) _ _ eq_refl) as [(p'&t'&pend'&?&?)|(a'&t'&pend'&?&?)];
      [left; exists p', t', pend' | right; exists a', t', pend']; (split; [by eapply rtc_l | done]).
  - destruct Hst as (cx&n&m&l&db'&Hx&->&->&->).
    assert (Hal : alone (TxQuery q k, t, pend) (k (Ok (MkRows l None)), tables db', pend ++ trigger_events q))
      by (exists cx, n, m, l, db'; by split_and!).
    destruct (IH (k (Ok (MkRows l None))) _ _ eq_refl) as [(p'&t'&pend'&?&?)|(a'&t'&pend'&?&?)];
      [left; exists p', t', pend' | right; exists a', t', pend']; (split; [by eapply rtc_l | done]).
  - destruct Hst as ([now ->]&->&->).
    assert (Hal : alone (Now k, t, pend) (k now, t, pend)) by (split_and!; eauto).
    destruct (IH (k now) _ _ eq_refl) as [(p'&t'&pend'&?&?)|(a'&t'&pend'&?&?)];
      [left; exists p', t', pend' | right; exists a', t', pend']; (split; [by eapply rtc_l | done]).
Qed.

Lemma commits_from_bind {A B} R W L (p : prog A) (f : A → prog B) :
  commits_from R W L p → commits_from R W L (mbind f p).
Proof.
  intros [Ho Hm]. split.
  - intros t a t' pend [(p'&t1&pend1&Hr&[= He <- <-])|(a'&t1&pend1&Hr&_)]%alone_bind_inv; [|by eapply Ho].
    destruct p'; try done. by eapply Ho.
  - intros t k t' pend Ht [(p'&t1&pend1&Hr&[= He <- <-])|(a'&t1&pend1&Hr&_)]%alone_bind_inv;
      [|by apply Ho in Hr].
    destruct p'; try done; [by apply Ho in Hr | by eapply Hm].
Qed.

(** Nothing runs alone past the end of a block. *)
Lemma alone_end {A} (p : prog A) t pend z :
  match p with Commit _ | Rollback _ | Done _ => True | _ => False end →
  rtc alone (p, t, pend) z → z = (p, t, pend).
Proof.
  intros Hp Hr. inversion Hr as [|? [[p1 t1] pend1] ? Hst Hr']; [done |]. by destruct p.
Qed.

(** The block of a [WithTx] whose callback performs a movement. *)
Definition tx_block {A} (f : prog (result error A)) : prog (result error A) :=
  let! r := f in
  match r with
  | Err e => let! _ := tx_Rollback in mret (Err e)
  | Ok a =>
      let! c := tx_Commit in
      let! _ := tx_Rollback in
      match c with
      | Err e => mret (Err (Wrapf "store.WithTx commit" e))
      | Ok _ => mret (Ok a)
      end
  end.

(** The movement of [rq] has been made, under the id [id]. *)
Definition made (rq : request) (id : UUID) (L : ledger) : Prop := ∃ L0, can_move rq id L0 ∧ L = move rq id L0.

Lemma tx_block_commits R L funds rq id (f : prog reply) :
  plain f → body_spec funds rq id f → (∀ L', rely L L' → R L' rq) →
  commits_from R (λ i L, i = id ∧ made rq id L) L (tx_block f).
Proof.
  intros Hp Hb HR. split.
  - intros t a t' pend [(p'&t1&pend1&_&[= He _ _])|([b|e]&t1&pend1&_&Hr)]%alone_bind_inv.
    + by destruct p' as [[]| | | | | | | | | | |].
    + by apply alone_end in Hr.
    + by apply alone_end in Hr.
  - intros t k t' pend [Hrely Hinv Hl] Hr.
    apply (alone_solo f _ (abs t)) in Hr as (script&r&t1&pend1&Hrun&Hr); [|done|by eexists].
    apply (Hb (abs t) (abs t)) in Hrun; [|by split_and!].
    destruct r as [p|e]; [|by apply alone_end in Hr].
    destruct Hrun as (_&(_&HL&Hl')&Hcan). simpl in HL, Hl'.
    apply alone_end in Hr; [|done]. injection Hr as _ <- _.
    split; [done |]. exists id. split; [|by split; [|exists (abs t)]]. exists rq. split_and!; [by apply HR | done | done].
Qed.

(** ** Programs *)

(** What is known of a session: the ledger as it was at the latest, how many blocks
    the session has committed, under what id and to what ledger the open block commits
    if it does, the tables that were there at some moment, and the movement whose
    line in the audit trail is due. *)
Record known := Known {
  kn_ledger : ledger; kn_moved : nat; kn_pledge : UUID → ledger → Prop; kn_moments : Tables → Prop;
  kn_due : option UUID }.

(** The ledgers of those moments. *)
Definition past (P : Tables → Prop) (L : ledger) : Prop := ∃ t, P t ∧ L = abs t.

Abbreviation kn_past K := (past (kn_moments K)).

Definition at_tables (t : Tables) (K : known) : known :=
  Known (abs t) K.(kn_moved) K.(kn_pledge) (λ t', t' = t ∨ K.(kn_moments) t') K.(kn_due).
Definition pledged (W : UUID → ledger → Prop) (K : known) : known :=
  Known K.(kn_ledger) K.(kn_moved) W K.(kn_moments) K.(kn_due).
Definition once_more (due : option UUID) (K : known) : known :=
  Known K.(kn_ledger) (S K.(kn_moved)) K.(kn_pledge) K.(kn_moments) due.
Definition owing (due : option UUID) (K : known) : known :=
  Known K.(kn_ledger) K.(kn_moved) K.(kn_pledge) K.(kn_moments) due.

(** What a statement on the pool changes of that. *)
Definition answered_at {B} (q : sql B) (t : Tables) (K : known) : known :=
  at_tables t (owing (due_after q K.(kn_due)) K).

(** What a statement on the pool may answer when it finds the tables [t], and the
    tables it leaves; a failing one may have taken effect. *)
Definition pool_reply {B} (q : sql B) (t : Tables) (r : result error B) (t' : Tables) : Prop :=
  (∃ msg, r = Err (Opaque msg)) ∨
  ∃ env n es m db', autocommit env n q (MkDB t es m) = (r, db') ∧ t' = db'.(tables).

(** What a statement of the block may answer when the tables [t] are committed: the
    unique index that refuses a transaction row has found a committed one. *)
Definition tx_reply {B} (q : sql B) (t : Tables) (r : result error B) : Prop :=
  ∀ e, r = Err e → internal e ∧
    match q with
    | InsertTransactionRow id _ key rev => not_unique e ∨ violates id key rev t e
    | _ => True
    end.

(** The ids that a locking read finds when it starts, and what it may answer: the
    rows of these ids, as they are once it has locked them. *)
Definition found (ids : list UUID) (t : Tables) : list UUID :=
  filter (λ id, is_Some (t.(accounts) !! id)) (Uuid.sort ids).

Definition lock_reply {X} (q : sql (list X)) (t0 t1 : Tables) (c : result error (Rows X)) : Prop :=
  match c with
  | Ok (MkRows rows None) =>
      ∀ ids, lock_ids q = Some ids →
        ∃ cx n m db', sql_exec cx (narrow q (found ids t0)) (MkDB t1 n m) = (Ok rows, db')
  | Ok (MkRows _ (Some e)) | Err e => internal e
  end.

(** An answer whose error has none of the service's names. *)
Definition unnamed {B} (r : result error B) : Prop := ∀ e, r = Err e → internal e.

Fixpoint knows {A} (R : ledger → request → Prop) (K : known) (p : prog A) (Q : known → A → Prop) : Prop :=
  match p with
  | Done a => Q K a
  | PoolExec q k =>
      vouches K.(kn_due) K.(kn_ledger) q ∧
      ∀ t r t', later K.(kn_ledger) t → later (abs t) t' → pool_reply q t r t' →
        knows R (answered_at q t' K) (k r) Q
  | PoolQuery q k =>
      vouches K.(kn_due) K.(kn_ledger) q ∧
      ∀ t r t' c, later K.(kn_ledger) t → later (abs t) t' → pool_reply q t r t' → as_rows r c →
        knows R (answered_at q t' K) (k c) Q
  | BeginTx k =>
      (∃ W, commits_from R W K.(kn_ledger) (k (Ok tt)) ∧ knows R (pledged W K) (k (Ok tt)) Q) ∧
      ∀ e, internal e → knows R K (k (Err e)) Q
  | TxExec q k =>
      ∀ t r, later K.(kn_ledger) t → tx_reply q t r → knows R (at_tables t K) (k r) Q
  | TxQuery q k =>
      ∀ t0 t1 c, later K.(kn_ledger) t0 → later (abs t0) t1 → lock_reply q t0 t1 c →
        knows R (at_tables t1 (at_tables t0 K)) (k c) Q
  | Commit k =>
      (∀ t id, rely K.(kn_ledger) (abs t) → K.(kn_pledge) id (abs t) →
         knows R (once_more (Some id) (at_tables t K)) (k (Ok tt)) Q) ∧
      (∀ msg, knows R (once_more None K) (k (Err (Opaque msg))) Q) ∧
      ∀ e, internal e → knows R K (k (Err e)) Q
  | Rollback k => ∀ r, knows R K (k r) Q
  | DrawV7 k => ∀ r, unnamed r → knows R K (k r) Q
  | DrawV4 k => ∀ r, knows R K (k r) Q
  | Now k => ∀ r, knows R K (k r) Q
  | Log _ k => ∀ r, knows R K (k r) Q
  end.

Lemma past_now K t : kn_past (at_tables t K) (abs t).
Proof. exists t. split; [by left | done]. Qed.

Lemma past_mono (P P' : Tables → Prop) L : (∀ t, P t → P' t) → past P L → past P' L.
Proof. intros HP (t&Ht&->). exists t. auto. Qed.

(** Time passes, *)
Definition grows (K K' : known) : Prop :=
  rely K.(kn_ledger) K'.(kn_ledger) ∧ ∀ t, K.(kn_moments) t → K'.(kn_moments) t.

(** without a commit of the session or the line of one, *)
Definition still (K K' : known) : Prop :=
  grows K K' ∧ K'.(kn_moved) = K.(kn_moved) ∧ K'.(kn_due) = K.(kn_due).

(** and without an end of its block. *)
Definition ahead (K K' : known) : Prop := still K K' ∧ K'.(kn_pledge) = K.(kn_pledge).

#[export] Instance grows_preorder : PreOrder grows.
Proof. split; [by intros K; split |]. intros K1 K2 K3 [H1 E1] [H2 E2]. split; [by etrans | auto]. Qed.

#[export] Instance still_preorder : PreOrder still.
Proof.
  split; [by intros K; split |]. intros K1 K2 K3 (H1&E1&D1) (H2&E2&D2). split; [by etrans | split; congruence].
Qed.

#[export] Instance ahead_preorder : PreOrder ahead.
Proof.
  split; [by intros K; split |]. intros K1 K2 K3 [H1 E1] [H2 E2]. split; [by etrans | congruence].
Qed.

(** What stays true meanwhile. *)
Definition lasting {A} (Q : known → A → Prop) : Prop := ∀ K K' a, still K K' → Q K a → Q K' a.

Lemma at_tables_grows K t : rely K.(kn_ledger) (abs t) → grows K (at_tables t K).
Proof. intros Hr. split; [done |]. by right. Qed.

Lemma at_tables_ahead K t : rely K.(kn_ledger) (abs t) → ahead K (at_tables t K).
Proof. intros Hr. split; [split; [by apply at_tables_grows | done] | done]. Qed.

Lemma at_tables_still K t : rely K.(kn_ledger) (abs t) → still K (at_tables t K).
Proof. intros Hr. by apply at_tables_ahead. Qed.

Lemma knows_bind {A B} R K (m : prog A) (f : A → prog B) Q :
  knows R K m (λ K' a, knows R K' (f a) Q) → knows R K (mbind f m) Q.
Proof.
  revert K. induction m as [a|C q k IH|X q k IH|k IH|C q k IH|X q k IH|k IH|k IH|k IH|k IH|k IH|s k IH];
    intros K H; simpl in *; eauto.
  - destruct H. split; eauto.
  - destruct H. split; eauto.
  - destruct H as [(W&Hc&Hk) He]. split; [|eauto]. exists W. split; [by apply (commits_from_bind R W _ (k (Ok tt))) | eauto].
  - destruct H as (?&?&?). split_and!; eauto.
Qed.

(** The same knowledge at a later moment. *)
Lemma at_tables_both K K' t : ahead K K' → ahead (at_tables t K) (at_tables t K').
Proof.
  intros [([_ Hp]&Hm&Hd) Hw]. split; [|done]. split; [|done]. split; [done |]. intros L' [->|?]; [by left | right; auto].
Qed.

Lemma owing_both K K' due : ahead K K' → ahead (owing due K) (owing due K').
Proof. by intros [([? Hp]&Hm&_) Hw]. Qed.

Lemma once_more_both K K' due : ahead K K' → ahead (once_more due K) (once_more due K').
Proof. intros [([? Hp]&Hm&_) Hw]. split; [|done]. split; [done |]. split; [simpl; congruence | done]. Qed.

Lemma answered_both {B} (q : sql B) K K' t : ahead K K' → ahead (answered_at q t K) (answered_at q t K').
Proof. intros HK. pose proof HK as [(_&_&Hd) _]. unfold answered_at. rewrite Hd. by apply at_tables_both, owing_both. Qed.

Lemma knows_ahead {A} R K K' (p : prog A) (Q : known → A → Prop) :
  lasting Q → ahead K K' → knows R K p Q → knows R K' p Q.
Proof.
  intros HQ. revert K K'. induction p as [a|C q k IH|X q k IH|k IH|C q k IH|X q k IH|k IH|k IH|k IH|k IH|k IH|s k IH];
    intros K K' HK; simpl; intros H; pose proof HK as [([Hr Hp]&Hm&Hd) Hw]; try (by intros r; eapply IH).
  - by eapply HQ; [apply HK |].
  - destruct H as [Hv H]. rewrite Hd. split; [by eapply vouches_rely |].
    intros t r t' Ht Ht' Hrep. eapply IH; [by apply answered_both |]. apply (H t r t'); [|done..]. by eapply later_rely.
  - destruct H as [Hv H]. rewrite Hd. split; [by eapply vouches_rely |].
    intros t r t' c Ht Ht' Hrep Hc. eapply IH; [by apply answered_both |]. apply (H t r t' c); [|done..]. by eapply later_rely.
  - destruct H as [(W&Hc&Hk) He]. split; [|eauto]. exists W. split; [by eapply commits_from_rely |].
    eapply IH, Hk. split; [split; [by split | done] | done].
  - intros t r Ht Hrep. eapply IH; [by apply at_tables_both |]. apply (H t r); [|done]. by eapply later_rely.
  - intros t0 t1 c Ht Ht' Hrep. eapply IH; [by do 2 apply at_tables_both |]. apply (H t0 t1 c); [|done..]. by eapply later_rely.
  - destruct H as (Hok&Hf&He). split_and!; [| |eauto].
    + intros L' id HL' HW. rewrite Hw in HW. eapply IH, (Hok L' id); [|by etrans | done].
      by apply once_more_both, at_tables_both.
    + intros msg. eapply IH, Hf. by apply once_more_both.
  - intros r Hr'. eapply IH; [done |]. by apply H.
Qed.

Lemma knows_mono {A} R K (p : prog A) (Q1 Q2 : known → A → Prop) :
  (∀ K a, Q1 K a → Q2 K a) → knows R K p Q1 → knows R K p Q2.
Proof.
  intros HQ. revert K. induction p as [a|C q k IH|X q k IH|k IH|C q k IH|X q k IH|k IH|k IH|k IH|k IH|k IH|s k IH];
    intros K; simpl; intros H; eauto.
  - destruct H. split; eauto.
  - destruct H. split; eauto.
  - destruct H as [(W&Hc&Hk) He]. split; [exists W |]; eauto.
  - destruct H as (?&?&?). split_and!; eauto.
Qed.

Lemma knows_weaken {A} (R R' : ledger → request → Prop) K (p : prog A) Q :
  (∀ L rq, R L rq → R' L rq) → knows R K p Q → knows R' K p Q.
Proof.
  intros HR. revert K. induction p as [a|C q k IH|X q k IH|k IH|C q k IH|X q k IH|k IH|k IH|k IH|k IH|k IH|s k IH];
    intros K; simpl; intros H; eauto.
  - destruct H. split; eauto.
  - destruct H. split; eauto.
  - destruct H as [(W&Hc&Hk) He]. split; [exists W |]; eauto using commits_from_weaken.
  - destruct H as (?&?&?). split_and!; eauto.
Qed.

(** ** Programs that neither begin nor end a block, and report no success *)

Fixpoint quiet {A} (p : prog A) : Prop :=
  match p with
  | Done _ => True
  | PoolExec q k => no_success q ∧ ∀ r, quiet (k r)
  | PoolQuery q k => no_success q ∧ ∀ r, quiet (k r)
  | BeginTx _ | Commit _ => False
  | TxExec _ k => ∀ r, quiet (k r)
  | TxQuery _ k => ∀ r, quiet (k r)
  | Rollback k => ∀ r, quiet (k r)
  | DrawV7 k => ∀ r, quiet (k r)
  | DrawV4 k => ∀ r, quiet (k r)
  | Now k => ∀ r, quiet (k r)
  | Log _ k => ∀ r, quiet (k r)
  end.

Lemma quiet_bind {A B} (m : prog A) (f : A → prog B) :
  quiet m → (∀ a, quiet (f a)) → quiet (mbind f m).
Proof. intros Hm Hf. induction m; simpl in *; try destruct Hm; auto. Qed.

Lemma later_trans L t t' : later L t → later (abs t) t' → rely L (abs t').
Proof. intros [H _ _] [H' _ _]. by etrans. Qed.

Lemma later_still K t t' : later K.(kn_ledger) t → later (abs t) t' → still K (at_tables t' K).
Proof. intros Ht Ht'. by eapply at_tables_still, later_trans. Qed.

Lemma answered_no_success {B} (q : sql B) t K : no_success q → answered_at q t K = at_tables t K.
Proof. intros Hq. unfold answered_at. by rewrite (no_success_due _ q Hq). Qed.

(** A statement on the pool that reports no success, and what follows it. *)
Lemma knows_pool {B A} R K (q : sql B) (f : result error B → prog A) Q :
  no_success q →
  (∀ t r t', later K.(kn_ledger) t → later (abs t) t' → pool_reply q t r t' →
     knows R (at_tables t' K) (f r) Q) →
  knows R K (mbind f (pool_exec q)) Q.
Proof.
  intros Hq H. split; [by apply no_success_vouches |]. intros t r t'. rewrite (answered_no_success q _ _ Hq). apply H.
Qed.

Lemma knows_pool_Query {X A} R K (q : sql (list X)) (f : result error (Rows X) → prog A) Q :
  no_success q →
  (∀ t r t' c, later K.(kn_ledger) t → later (abs t) t' → pool_reply q t r t' → as_rows r c →
     knows R (at_tables t' K) (f c) Q) →
  knows R K (mbind f (pool_Query q)) Q.
Proof.
  intros Hq H. split; [by apply no_success_vouches |]. intros t r t' c. rewrite (answered_no_success q _ _ Hq). apply H.
Qed.

Lemma quiet_knows {A} R K (p : prog A) (Q : known → A → Prop) :
  quiet p → (∀ K' a, still K K' → Q K' a) → knows R K p Q.
Proof.
  revert K. induction p as [a|C q k IH|X q k IH|k IH|C q k IH|X q k IH|k IH|k IH|k IH|k IH|k IH|s k IH];
    intros K; simpl; intros Hq HQ; try done; try (by intros r; apply IH).
  - by apply HQ.
  - destruct Hq as [Hn Hq]. split; [by apply no_success_vouches |].
    intros t r t' Ht Ht' _. apply IH; [done |]. intros K' a HK. apply HQ.
    rewrite (answered_no_success q _ _ Hn) in HK. etrans; [by apply (later_still _ t) | done].
  - destruct Hq as [Hn Hq]. split; [by apply no_success_vouches |].
    intros t r t' c Ht Ht' _ _. apply IH; [done |]. intros K' a HK. apply HQ.
    rewrite (answered_no_success q _ _ Hn) in HK. etrans; [by apply (later_still _ t) | done].
  - intros t r [Ht _ _] _. apply IH; [done |]. intros K' a HK. apply HQ.
    etrans; [by apply at_tables_still | done].
  - intros t0 t1 c [Ht _ _] [Ht' _ _] _. apply IH; [done |]. intros K' a HK. apply HQ.
    etrans; [by apply at_tables_still |]. etrans; [|done]. by apply at_tables_still.
  - intros r _. by apply IH.
Qed.

Lemma quiet_ret {A} (a : A) : quiet (mret a).
Proof. done. Qed.
Lemma quiet_pool_exec {B} (q : sql B) : no_success q → quiet (pool_exec q).
Proof. done. Qed.
Lemma quiet_pool_Query {X} (q : sql (list X)) : no_success q → quiet (pool_Query q).
Proof. done. Qed.
Lemma quiet_NewV7 : quiet uuid_NewV7.
Proof. done. Qed.
Lemma quiet_New : quiet uuid_New.
Proof. done. Qed.
Lemma quiet_log msg : quiet (logger_Error msg).
Proof. done. Qed.

Create HintDb quiet.
#[export] Hint Resolve quiet_ret quiet_pool_exec quiet_pool_Query quiet_NewV7 quiet_New quiet_log : quiet.
#[export] Hint Extern 0 (no_success _) => exact I : quiet.

Ltac quiet :=
  repeat first
    [ solve [eauto with quiet]
    | apply quiet_bind; [|intros ?; cbv beta]
    | progress case_match ].

Lemma quiet_listEntries txID : quiet (Store.listEntries txID).
Proof. unfold Store.listEntries. quiet. Qed.
#[export] Hint Resolve quiet_listEntries : quiet.

Lemma quiet_found label r : quiet (Store.found_transaction label r).
Proof. unfold Store.found_transaction. quiet. Qed.
#[export] Hint Resolve quiet_found : quiet.

Lemma quiet_get_key key : quiet (Store.GetTransactionByIdempotencyKey key).
Proof. unfold Store.GetTransactionByIdempotencyKey. quiet. Qed.

Lemma quiet_WriteAudit entry :
  entry.(aud_Outcome) = OutcomeFailure → entry.(aud_TransactionID) = None → is_Some entry.(aud_ErrorReason) →
  quiet (Store.WriteAudit entry).
Proof. intros. unfold Store.WriteAudit. apply quiet_bind; [by apply quiet_pool_exec | quiet]. Qed.
#[export] Hint Resolve quiet_get_key : quiet.

Lemma quiet_populate txns : quiet (Store.populate txns).
Proof. induction txns; cbn [Store.populate]; quiet. Qed.
#[export] Hint Resolve quiet_populate : quiet.

Lemma quiet_auditFailure op from to amount requestID reason :
  quiet (Service.auditFailure op from to amount requestID reason).
Proof. unfold Service.auditFailure. apply quiet_bind; [by apply quiet_WriteAudit | intros ?; quiet]. Qed.
#[export] Hint Resolve quiet_auditFailure : quiet.

(** ** Reading the original of a reversal *)

(** The legs of a transaction tell the entries apart, in whatever order they come. *)
Lemma scan_legs_Permutation id es legs a b u :
  Forall2 (entry_is id) es legs → legs ≡ₚ [Leg a DirectionDebit u; Leg b DirectionCredit u] →
  scan_legs es = (a, b, Money.of_units u).
Proof.
  intros Hes Hp. symmetry in Hp. apply Permutation_length_2_inv in Hp as [-> | ->];
    [by eapply scan_legs_transfer |].
  apply Forall2_cons_inv_r in Hes as (e1&es1&(_&Hb&Hd1&_)&H&->).
  apply Forall2_cons_inv_r in H as (e2&es2&(_&Ha&Hd2&Hu)&H&->).
  apply Forall2_nil_inv_r in H as ->. unfold Service.scan_legs; simpl in *.
  rewrite Hd1, Hd2, Ha, Hb, Hu. by rewrite decide_False, decide_True.
Qed.

Lemma select_entries_Permutation id t x :
  ledger_inv (abs t) → t.(transactions) !! id = Some x →
  select_entries id t ≡ₚ joined t.(accounts) <$> entries_of id t.
Proof.
  intros Hinv Hx. unfold select_entries. rewrite merge_sort_Permutation.
  rewrite (omap_total _ (joined t.(accounts))); [done |].
  intros e He. unfold rec_of_entry, joined.
  assert (Habs : (abs t).(txns) !! id = Some (abs_txn t id x)) by (by rewrite abs_txns, Hx).
  destruct (inv_legs _ Hinv id _ (abs_leg e) Habs) as [_ Hacc]; [by apply list_elem_of_fmap_2 |].
  simpl in Hacc. rewrite lookup_fmap, fmap_is_Some in Hacc. by destruct Hacc as [y ->].
Qed.

(** A query's answer when it comes whole. *)
Lemma whole_reply {X} (q : sql (list X)) t l t' :
  is_query q → pool_reply q t (Ok l) t' → t' = t ∧ ∃ cx db, sql_exec cx q db = (Ok l, db) ∧ db.(tables) = t.
Proof.
  intros [Hev Hq] [[msg [=]]|(env&n&es&m&db'&Ha&->)]. unfold autocommit in Ha.
  destruct (Hq (stmt_ctx_at env n (env_now env n)) (MkDB t es m)) as [a Hx].
  rewrite Hx, Hev in Ha. simpl in Ha. injection Ha as -> <-. split; [done |]. eauto.
Qed.

Lemma whole_answer {X} (q : sql (list X)) t r l t' :
  is_query q → pool_reply q t r t' → as_rows r (Ok (MkRows l None)) →
  t' = t ∧ ∃ cx db, sql_exec cx q db = (Ok l, db) ∧ db.(tables) = t.
Proof.
  intros Hq Hr Hc. destruct r as [l'|e]; [|by destruct Hc as [?|[? [=]]]]. injection Hc as <-.
  by apply whole_reply.
Qed.

(** The errors of a statement on the pool. *)
Lemma reply_internal {B} (q : sql B) t e t' : pool_reply q t (Err e) t' → internal e.
Proof.
  intros [[msg [= ->]]|(env&n&es&m&db'&Ha&_)]; [done |]. unfold autocommit in Ha.
  destruct (sql_exec _ q _) as [[a|e'] db1] eqn:E.
  - destruct (triggers_pass _ _); [done |]. by injection Ha as <- _.
  - apply sql_exec_err, is_pg_internal in E. by injection Ha as <- _.
Qed.

Lemma rows_internal {X} (q : sql (list X)) t r t' c e :
  pool_reply q t r t' → as_rows r c → c = Err e ∨ (∃ l, c = Ok (MkRows l (Some e))) → internal e.
Proof.
  intros Hr Hc He. destruct r as [l|e']; [simpl in Hc; subst c; by destruct He as [?|[? [=]]] |].
  apply reply_internal in Hr. destruct Hc as [->|[l ->]], He as [?|[l' ?]]; by simplify_eq.
Qed.

(** The entries read are the legs of the transaction, in some order. *)
Definition entries_read (id : UUID) (L : ledger) (es : list Entry) : Prop :=
  ∀ x, L.(txns) !! id = Some x → ∃ legs, legs ≡ₚ x.(x_legs) ∧ Forall2 (entry_is id) es legs.

Lemma knows_listEntries R K id :
  knows R K (Store.listEntries id)
    (λ K' r, still K K' ∧ ledger_inv K'.(kn_ledger) ∧ kn_past K' K'.(kn_ledger) ∧ unnamed r ∧
             ∀ es, r = Ok es → entries_read id K'.(kn_ledger) es).
Proof.
  unfold Store.listEntries. apply knows_pool_Query; [done |]. intros t r t' c Ht Ht' Hr Hc. cbn [at_tables kn_ledger].
  split; [by apply (later_still _ t) |]. split; [apply (lt_inv _ _ Ht') |]. split; [apply past_now |]. split.
  { intros e He. destruct c as [[l oe]|e']; [|injection He as <-; simpl; eapply (rows_internal _ t r t'); [done | done | by left]].
    unfold Store.rows_close in He. cbn [rows_data rows_Err] in He.
    destruct (Store.scan_rows _ _ l) as [es|e1] eqn:Hs;
      [|injection He as <-; eapply scan_rows_internal, Hs; apply scanEntry_internal].
    destruct oe as [e2|]; [|done]. injection He as <-. eapply (rows_internal _ t r t'); [done | done | right; eauto]. }
  intros es Hes x Hx.
  destruct c as [[l [e|]]|e]; [| |done].
  { unfold Store.rows_close in Hes. simpl in Hes. by destruct (Store.scan_rows _ _ l). }
  apply (whole_answer _ t r l) in Hr as (->&cx&db&Hq&<-); [|split; [done | by eexists] | done].
  simpl in Hq. injection Hq as <-. destruct Ht as [_ Hinv _].
  cbn [at_tables kn_ledger] in Hx. rewrite abs_txns in Hx. apply fmap_Some in Hx as (y&Hy&->).
  pose proof (select_entries_Permutation id _ y Hinv Hy) as Hp.
  apply Permutation_map_inv in Hp as (es1&Hsel&Hp1). cbn [rows_data] in Hes.
  rewrite Hsel in Hes.
  change (map (joined (accounts (tables db))) es1) with (joined (accounts (tables db)) <$> es1) in Hes.
  rewrite scan_entries_ok in Hes. injection Hes as <-.
  exists (abs_leg <$> es1). split; [simpl; by rewrite <-Hp1 |].
  apply entries_are. intros e He. rewrite <-Hp1 in He. by apply list_elem_of_filter in He as [? _].
Qed.

(** A transaction row read at one moment and its entries read later. *)
Definition row_in (t : Tables) (rt : transaction_rec) : Prop :=
  ∃ x, rt = rec_of_transaction (rt.(rt_id), x) ∧ t.(transactions) !! rt.(rt_id) = Some x.

Definition read_back (t : Transaction) (es : list Entry) (L : ledger) : Prop :=
  ledger_inv L ∧ entries_read t.(txn_ID) L es ∧
  ∃ x, L.(txns) !! t.(txn_ID) = Some x ∧ x.(x_kind) = t.(txn_Kind) ∧ x.(x_key) = t.(txn_IdempotencyKey).

Lemma knows_found R K label t r :
  K.(kn_ledger) = abs t → (∀ rt rows, r = Ok (rt :: rows) → row_in t rt) →
  knows R K (Store.found_transaction label r)
    (λ K' res, still K K' ∧
       (∀ e, res = Err e → unnamed r → internal e ∨ (r = Ok [] ∧ K' = K ∧ e = ErrTransactionNotFound)) ∧
       ∀ tx es, res = Ok (tx, es) → kn_past K' K'.(kn_ledger) ∧
       (∃ rt rows, r = Ok (rt :: rows) ∧ tx.(txn_ID) = rt.(rt_id) ∧ tx.(txn_IdempotencyKey) = rt.(rt_idempotency_key)) ∧
       read_back tx es K'.(kn_ledger)).
Proof.
  intros HK Hrow. unfold Store.found_transaction.
  destruct (Store.scan_row Store.scanTransaction r) as [tx|e] eqn:Hs.
  2:{ split; [done |]. split; [|by case_match]. intros e' He' Hun.
      destruct r as [[|rt rows]|e0]; [|done |].
      - injection Hs as <-. right. split; [done |]. split; [done |]. by injection He' as <-.
      - injection Hs as <-. specialize (Hun e0 eq_refl). unfold ErrNoRows in He'.
        rewrite (internal_not_sentinel _ _ Hun) in He'. injection He' as <-. by left. }
  destruct r as [[|rt rows]|]; [done | | done]. injection Hs as <-.
  destruct (Hrow rt rows eq_refl) as (x&Hrt&Hx).
  apply knows_bind. eapply knows_mono, knows_listEntries. intros K' [es|e] (HK'&Hinv&Hpast&Hun&Hes).
  2:{ split; [done |]. split; [|done]. intros ? [= <-] _. left. by apply Hun. }
  split; [done |]. split; [done |]. intros tx' es' [= <- <-]. cbn. split; [done |]. split; [by exists rt, rows |].
  split_and!; [done | by apply Hes |]. exists (abs_txn t (rt_id rt) x). split_and!.
  - eapply lookup_weaken; [|apply HK']. rewrite HK, abs_txns. simpl. by rewrite Hx.
  - by rewrite Hrt.
  - by rewrite Hrt.
Qed.

(** The getter by key. *)
Lemma knows_get_key R K key :
  knows R K (Store.GetTransactionByIdempotencyKey key)
    (λ K' r, still K K' ∧ ∀ t es, r = Ok (t, es) → recorded t key K'.(kn_ledger)).
Proof.
  unfold Store.GetTransactionByIdempotencyKey. apply knows_pool; [done |]. intros t r t' Ht Ht' Hr.
  assert (Hq : ∀ rt rows, r = Ok (rt :: rows) → row_in t' rt ∧ rt.(rt_idempotency_key) = key).
  { intros rt rows ->. apply whole_reply in Hr as (->&cx&db&Hx&<-); [|split; [done | by eexists]].
    simpl in Hx. injection Hx as Hsel.
    assert (Hin : rt ∈ select_transactions (λ p, bool_decide (tr_idempotency_key p.2 = key)) (tables db))
      by (rewrite Hsel; left).
    apply select_transactions_rows in Hin as (x&Hrt&Hx&Hk). split; [by exists x |].
    rewrite Hrt. by apply bool_decide_eq_true in Hk. }
  eapply knows_mono; [|apply (knows_found _ _ _ t'); [done | intros rt rows E; by apply (Hq rt rows)]].
  intros K' res [HK Hres]. split; [etrans; [by apply (later_still _ t) | done] |].
  intros tx es ->. destruct (proj2 Hres tx es eq_refl) as (_&(rt&rows&->&_&Hkey)&(_&_&x&Hx&Hkind&Hxk)).
  destruct (Hq rt rows eq_refl) as [_ Hk]. split; [congruence |]. exists x. split_and!; congruence.
Qed.

(** What the getter by id tells of the original of a reversal. *)
Definition original_read (id : UUID) (K : known) (r : reply) : Prop :=
  match r with
  | Err e => internal e ∨ (e = ErrTransactionNotFound ∧ ∃ L, kn_past K L ∧ L.(txns) !! id = None)
  | Ok (t, es) =>
      kn_past K K.(kn_ledger) ∧
      (∃ x, K.(kn_ledger).(txns) !! id = Some x ∧ x.(x_kind) = t.(txn_Kind)) ∧
      (t.(txn_Kind) = KindTransfer →
       ∃ a b u, transfer_of id a b u K.(kn_ledger) ∧ a ≠ b ∧ 0 < u ∧ scan_legs es = (a, b, Money.of_units u))
  end.

Lemma transfer_legs L id x :
  ledger_inv L → L.(txns) !! id = Some x → x.(x_kind) = KindTransfer →
  ∃ a b u, x.(x_legs) = [Leg a DirectionDebit u; Leg b DirectionCredit u] ∧ a ≠ b ∧ 0 < u.
Proof.
  intros Hinv Hx Hk. pose proof (inv_shape _ Hinv _ _ Hx) as Hsh. unfold txn_shape in Hsh.
  rewrite Hk in Hsh. destruct Hsh as (_&a&b&u&Hlegs&Hab&_). exists a, b, u. split_and!; [done | done |].
  apply (inv_legs _ Hinv _ _ (Leg a DirectionDebit u) Hx). rewrite Hlegs. left.
Qed.

Lemma knows_GetTransaction R K id :
  knows R K (Store.GetTransaction id) (λ K' r, still K K' ∧ original_read id K' r).
Proof.
  unfold Store.GetTransaction. apply knows_pool; [done |]. intros t r t' Ht Ht' Hr.
  assert (Hun : unnamed r) by (intros e ->; by eapply reply_internal).
  assert (Hq : match r with
               | Ok (rt :: rows) => row_in t' rt ∧ rt.(rt_id) = id
               | Ok [] => t'.(transactions) !! id = None
               | Err _ => True
               end).
  { destruct r as [rows|]; [|done]. apply whole_reply in Hr as (->&cx&db&Hx&<-); [|split; [done | by eexists]].
    simpl in Hx. destruct (_ !! id) as [x|] eqn:E; injection Hx as <-; [|done]. split; [|done]. by exists x. }
  eapply knows_mono; [|apply (knows_found _ _ _ t'); [done | by intros rt rows ->; apply Hq]].
  intros K' res (HK&Herr&Hok). split; [etrans; [by apply (later_still _ t) | done] |].
  destruct res as [[tx es]|e]; simpl.
  - destruct (Hok tx es eq_refl) as (Hp&(rt&rows&->&Hid&_)&(Hinv&Hread&x&Hx&Hxk&_)).
    destruct Hq as [_ Hrt]. assert (txn_ID tx = id) as <- by congruence.
    split; [done |]. split; [by exists x |]. intros Hkind.
    destruct (transfer_legs _ _ x Hinv Hx ltac:(congruence)) as (a&b&u&Hlegs&Hab&Hu).
    exists a, b, u. split_and!; [exists x; split_and!; [done | congruence | done] | done | done |].
    destruct (Hread x Hx) as (legs&Hp'&Hes). rewrite Hlegs in Hp'. by eapply scan_legs_Permutation.
  - destruct (Herr e eq_refl Hun) as [?|(->&->&->)]; [by left | right]. split; [done |].
    exists (abs t'). split; [apply past_now |]. by rewrite abs_txns, Hq.
Qed.
