(* ===== verification/Answers.v ===== *)
(** * What the operations answer, and on what grounds

    The operations of the service, call by call, among other sessions: each block
    commits, if at all, as the one movement that its call requested; a success shows
    what is recorded; and a refusal has grounds in the ledger as it was at some moment
    of the call. *)

From S2P Require Import Prelude GoStd Decimal Money Uuid Ledger Schema Pgx Store Service LedgerSpec LedgerFacts StorerSpec ServiceSpec Numeric SchemaFacts StoreBlocks StoreRefines Clients Prog Machine Solo Trail Knowledge.
From stdpp Require Import options.
Import Ledger Schema LedgerSpec Service.
Open Scope Z_scope.

(** ** Grounds *)

(** The movement that a call requests, when the ledger is [L]. *)
Definition requested (c : call) (L : ledger) (rq : request) : Prop :=
  match c with
  | CallTransfer src dst amount key req =>
      rq = transfer_rq src dst amount key req ∧ 0 < Money.units amount ∧ src ≠ dst ∧
      src ≠ ExternalAccountID ∧ dst ≠ ExternalAccountID
  | CallDeposit dst amount key req =>
      rq = deposit_rq dst amount key req ∧ 0 < Money.units amount ∧ dst ≠ ExternalAccountID
  | CallReverse orig key req =>
      ∃ a b u, transfer_of orig a b u L ∧ a ≠ b ∧ rq = reverse_rq orig a b u key req
  | _ => False
  end.

Lemma requested_well_formed c L rq : requested c L rq → well_formed rq L.
Proof.
  destruct c; try done; simpl.
  - intros (->&_&?&?&?). by eapply transfer_stable.
  - intros (a&b&u&?&?&->). by eapply reverse_stable.
  - intros (->&_&?). by eapply deposit_stable.
Qed.

(** Whether a call looks at the balance that it debits. *)
Definition checks_funds (c : call) : bool := match c with CallDeposit _ _ _ _ => false | _ => true end.

(** The check of a call that fails before it looks at the ledger. *)
Definition rejected (c : call) (e : error) : Prop :=
  match c with
  | CallTransfer src dst amount _ _ =>
      (Money.units amount <= 0 ∧ e = ErrInvalidAmount) ∨
      (src = dst ∧ e = ErrSelfTransfer) ∨
      ((src = ExternalAccountID ∨ dst = ExternalAccountID) ∧ e = ErrSystemAccount)
  | CallDeposit dst amount _ _ =>
      (Money.units amount <= 0 ∧ e = ErrInvalidAmount) ∨ (dst = ExternalAccountID ∧ e = ErrSystemAccount)
  | _ => False
  end.

(** Why a call is refused with error [e] when the ledger is [L]. *)
Inductive grounds (c : call) (L : ledger) : error → Prop :=
| grounds_check e : rejected c e → grounds c L e
| grounds_movement rq id e :
    requested c L rq → fail_reason (checks_funds c) rq id L e → grounds c L e
| grounds_no_original orig key req :
    c = CallReverse orig key req → L.(txns) !! orig = None → grounds c L ErrTransactionNotFound
| grounds_no_transfer orig key req x :
    c = CallReverse orig key req → L.(txns) !! orig = Some x → x.(x_kind) ≠ KindTransfer →
    grounds c L ErrNotReversible.

(** Programs whose every answer satisfies [P]. *)
Fixpoint always {A} (P : A → Prop) (p : prog A) : Prop :=
  match p with
  | Done a => P a
  | PoolExec _ k => ∀ r, always P (k r)
  | PoolQuery _ k => ∀ r, always P (k r)
  | BeginTx k => ∀ r, always P (k r)
  | TxExec _ k => ∀ r, always P (k r)
  | TxQuery _ k => ∀ r, always P (k r)
  | Commit k => ∀ r, always P (k r)
  | Rollback k => ∀ r, always P (k r)
  | DrawV7 k => ∀ r, always P (k r)
  | DrawV4 k => ∀ r, always P (k r)
  | Now k => ∀ r, always P (k r)
  | Log _ k => ∀ r, always P (k r)
  end.

Lemma always_bind {A B} (P : B → Prop) (m : prog A) (f : A → prog B) :
  (∀ a, always P (f a)) → always P (mbind f m).
Proof. intros Hf. induction m; simpl; auto. Qed.

(** ** The statements of a block *)

Section block.
Context (R : ledger → request → Prop).

(** Go's early return. *)
Lemma knows_early {A B} K (m : prog (result error A)) (f : A → prog (result error B)) (E : known → error → Prop) Q :
  knows R K m (λ K' r, ahead K K' ∧ ∀ e, r = Err e → E K' e) →
  (∀ K' e, ahead K K' → E K' e → Q K' (Err e)) → (∀ K' a, ahead K K' → knows R K' (f a) Q) →
  knows R K (let? a := m in f a) Q.
Proof.
  intros Hm He Hf. apply knows_bind. eapply knows_mono, Hm. intros K' [a|e] [HK HE]; [by apply Hf |].
  apply He; [done | by apply HE].
Qed.

(** A statement and what follows it. *)
Lemma knows_tx {A B} K (q : sql B) (f : result error B → prog A) Q :
  (∀ t r, later K.(kn_ledger) t → tx_reply q t r → knows R (at_tables t K) (f r) Q) →
  knows R K (mbind f (tx_exec q)) Q.
Proof. intros H. exact H. Qed.

Lemma knows_tx_Query {A X} K (q : sql (list X)) (f : result error (Rows X) → prog A) Q :
  (∀ t0 t1 c, later K.(kn_ledger) t0 → later (abs t0) t1 → lock_reply q t0 t1 c →
     knows R (at_tables t1 (at_tables t0 K)) (f c) Q) →
  knows R K (mbind f (tx_Query q)) Q.
Proof. intros H. exact H. Qed.

Lemma knows_UpdateBalance K id m :
  knows R K (Store.UpdateBalance id m) (λ K' r, ahead K K' ∧ ∀ e, r = Err e → internal e).
Proof.
  apply knows_bind. intros now. apply knows_tx. intros t r [Ht _ _] Hr. split; [by apply at_tables_ahead |].
  destruct r as [[]|e]; [done |]. intros ? [= <-]. by apply (Hr e).
Qed.

Lemma knows_insert_each K es :
  knows R K (Store.insert_each es) (λ K' r, ahead K K' ∧ ∀ e, r = Err e → internal e).
Proof.
  revert K. induction es as [|e es IH]; intros K; [by split |]. cbn [Store.insert_each].
  apply knows_tx. intros t r [Ht _ _] Hr. pose proof (at_tables_ahead K _ Ht) as HK. destruct r as [[]|err].
  - eapply knows_mono, IH. intros K' r [HK' Hr']. split; [by etrans | done].
  - split; [done |]. intros ? [= <-]. by apply (Hr err).
Qed.

Lemma knows_InsertEntries K rq id :
  0 < rq.(rq_units) →
  knows R K (Store.InsertEntries (rq_entries rq id)) (λ K' r, ahead K K' ∧ ∀ e, r = Err e → internal e).
Proof.
  intros Hpos. unfold Store.InsertEntries, rq_entries. cbn [forallb ent_Amount new_Entry].
  rewrite !Money.IsPositive_of_units, (proj2 (Z.ltb_lt _ _) Hpos). apply knows_insert_each.
Qed.

(** Both rows are read under their locks; a row that was not there when the read
    began is missing. *)
Definition pair_read (a b : UUID) (K K' : known) (locked : list Account) : Prop :=
  ∃ L, rely K.(kn_ledger) L ∧ kn_past K' L ∧
    if (length locked =? 2)%nat then
      ∃ A B x y, pick_accounts a b locked = (A, B) ∧
        L.(accts) !! a = Some x ∧ acc_Balance A = Money.of_units x.(a_units) ∧
        L.(accts) !! b = Some y ∧ acc_Balance B = Money.of_units y.(a_units)
    else L.(accts) !! a = None ∨ L.(accts) !! b = None.

Lemma found_pair (a b : UUID) t0 t1 :
  a ≠ b → rely (abs t0) (abs t1) →
  rc_id <$> select_accounts_for_update (found (Uuid.sort [a; b]) t0) t1
  ≡ₚ filter (λ id, is_Some (t0.(accounts) !! id)) [a; b].
Proof using Type.
  intros Hne [Hev _].
  assert (Hnd : NoDup (found (Uuid.sort [a; b]) t0)).
  { apply NoDup_filter. rewrite !Uuid.sort_Permutation. apply NoDup_cons.
    split; [by rewrite list_elem_of_singleton | apply NoDup_singleton]. }
  rewrite (select_accounts_ids _ _ Hnd).
  unfold found. rewrite list_filter_filter_r; [by rewrite !Uuid.sort_Permutation |].
  intros id [x Hx].
  destruct (ev_accts _ _ Hev id (abs_account x)) as (y&Hy&_); [by rewrite abs_accts, Hx |].
  rewrite abs_accts in Hy. apply fmap_Some in Hy as (z&Hz&_). by exists z.
Qed.

Lemma knows_lock_pair K a b :
  a ≠ b →
  knows R K (Store.LockAccountsForUpdate [a; b])
    (λ K' r, ahead K K' ∧ match r with Err e => internal e | Ok locked => pair_read a b K K' locked end).
Proof using Type.
  intros Hne. unfold Store.LockAccountsForUpdate. apply knows_tx_Query. intros t0 t1 c Ht0 Ht1 Hc.
  split.
  { etrans; [apply at_tables_ahead, Ht0 |]. apply at_tables_ahead, Ht1. }
  destruct c as [[rows [e|]]|e]; [| |done].
  { assert (Hcut : ∃ e', Store.collectAccounts (MkRows rows (Some e)) = Err e' ∧ internal e').
    { eapply (rows_cut _ (Wrapf "store.collectAccounts rows")); [apply scanAccount_internal | done | exact Hc | reflexivity]. }
    by destruct Hcut as (e'&->&?). }
  destruct (Hc _ eq_refl) as (cx&n&m&db'&Hx). simpl in Hx. injection Hx as <- _.
  destruct (collectAccounts_ok t1 _ (select_accounts_rows (found (Uuid.sort [a; b]) t0) t1)) as (accs&->&Hall&Hids).
  assert (Hp : acc_ID <$> accs ≡ₚ filter (λ id, is_Some (t0.(accounts) !! id)) [a; b]).
  { rewrite Hids. apply found_pair; [done | apply Ht1]. }
  pose proof (Permutation_length Hp) as Hlen. rewrite length_fmap in Hlen.
  destruct (Nat.eqb_spec (length accs) 2) as [H2|H2]; pose proof H2 as H2'; rewrite Hlen in H2'.
  - exists (abs t1). split; [eapply later_trans; done |]. split; [apply past_now |]. rewrite H2. simpl.
    apply filter_is_Some_pair in H2' as (Hf&_). rewrite Hf in Hp.
    destruct (pick_accounts_spec a b (abs t1) accs) as (A&B&Hpk&<-&<-&(x&?&?&_)&(y&?&?&_)); [done..|].
    by exists A, B, x, y.
  - exists (abs t0). split; [apply Ht0 |]. split; [exists t0; split; [by right; left | done] |]. rewrite (proj2 (Nat.eqb_neq _ _) H2).
    rewrite !abs_accts, !fmap_None. by apply filter_is_Some_missing.
Qed.

(** *** The callbacks *)

Section callback.
Context (funds : bool) (rq : request) (id : UUID).

(** An error of the callback that began when [K] was known: unnamed, or with a reason
    that has held since. *)
Definition because (K K' : known) (e : error) : Prop :=
  internal e ∨ ∃ L, rely K.(kn_ledger) L ∧ kn_past K' L ∧ fail_reason funds rq id L e.

Definition body_answers (K K' : known) (r : reply) : Prop :=
  ahead K K' ∧
  match r with
  | Ok p => p = (rq_txn rq id, rq_entries rq id)
  | Err e => because K K' e
  end.

Lemma because_since K K1 K2 e : ahead K K1 → because K1 K2 e → because K K2 e.
Proof using Type.
  intros [([Hr _]&_) _] [Hi|(L&HL&Hp&Hf)]; [by left | right]. exists L. split; [by etrans | done].
Qed.

(** The insertion of the transaction row. *)
Lemma knows_InsertTransaction K :
  rq.(rq_reverses) = None →
  knows R K (Store.InsertTransaction (rq_txn rq id)) (λ K' r, ahead K K' ∧ ∀ e, r = Err e → because K K' e).
Proof using Type.
  intros Hrev. apply knows_tx. intros t r [Ht _ _] Hr. split; [by apply at_tables_ahead |].
  destruct r as [[]|e]; [done |]. intros ? [= <-]. destruct (Hr e eq_refl) as [Hi [Hn|Hv]].
  - left. by apply insert_error_other.
  - right. exists (abs t). split; [done |]. split; [apply past_now |]. rewrite (insert_error_violates _ _ _ _ _ Hv).
    apply fail_conflict. destruct Hv as [?|?|Hc]; [by left | by right |]. simpl in Hc. rewrite Hrev in Hc.
    destruct Hc. by intros o i x [=].
Qed.

Lemma knows_InsertReversal K :
  knows R K (Store.InsertReversalTransaction (rq_txn rq id)) (λ K' r, ahead K K' ∧ ∀ e, r = Err e → because K K' e).
Proof using Type.
  apply knows_tx. intros t r [Ht _ _] Hr. split; [by apply at_tables_ahead |].
  destruct r as [[]|e]; [done |]. intros ? [= <-]. destruct (Hr e eq_refl) as [Hi [Hn|Hv]].
  - left. by apply insert_error_other.
  - right. exists (abs t). split; [done |]. split; [apply past_now |].
    apply insert_reversal_error_violates in Hv as [[-> Hv]|[-> Hv]]; by constructor.
Qed.

(** What the three callbacks write. *)
Lemma knows_writes K0 K from to mf mt (ins : prog (result error unit)) :
  0 < rq.(rq_units) → ahead K0 K →
  (∀ K, knows R K ins (λ K' r, ahead K K' ∧ ∀ e, r = Err e → because K K' e)) →
  knows R K
    (let? _ := Store.UpdateBalance from mf in
     let? _ := Store.UpdateBalance to mt in
     let? _ := ins in
     let? _ := Store.InsertEntries (rq_entries rq id) in
     mret (Ok (rq_txn rq id, rq_entries rq id) : reply)) (body_answers K0).
Proof using Type.
  intros Hpos HK Hins.
  eapply (knows_early _ _ _ (λ _ e, internal e));
    [apply knows_UpdateBalance | intros K' e ? ?; split; [by etrans | by left] | intros K1 [] H1].
  eapply (knows_early _ _ _ (λ _ e, internal e));
    [apply knows_UpdateBalance | intros K' e ? ?; split; [by do 2 (etrans; [done |]) | by left] | intros K2 [] H2].
  assert (HK2 : ahead K0 K2) by (do 2 (etrans; [done |]); done).
  eapply (knows_early _ _ _ (λ K' e, because K2 K' e));
    [apply Hins | intros K' e ? ?; split; [by etrans | by eapply because_since] | intros K3 [] H3].
  assert (HK3 : ahead K0 K3) by (by etrans).
  eapply (knows_early _ _ _ (λ _ e, internal e));
    [by apply knows_InsertEntries | intros K' e ? ?; split; [by etrans | by left] | intros K4 [] H4].
  split; [by etrans | done].
Qed.
End callback.

Lemma knows_transfer_tx K rq id :
  rq.(rq_reverses) = None → rq.(rq_from) ≠ rq.(rq_to) → 0 < rq.(rq_units) →
  knows R K (transfer_tx rq.(rq_from) rq.(rq_to) (Money.of_units rq.(rq_units)) (rq_txn rq id))
    (body_answers true rq id K).
Proof using Type.
  intros Hrev Hne Hpos. unfold transfer_tx. apply knows_bind.
  eapply knows_mono, knows_lock_pair; [|done]. intros K1 [locked|e] [H1 Hl]; [|split; [done | by left]].
  destruct Hl as (L&HL&Hp&Hl). destruct (length locked =? 2)%nat; simpl negb; cbv iota.
  2:{ split; [done |]. right. exists L. split; [done |]. split; [done | by apply fail_missing]. }
  destruct Hl as (A&B&x&y&->&Hx&HA&Hy&HB). rewrite HA, Money.LessThan_of_units.
  destruct (Z.ltb_spec (a_units x) rq.(rq_units)).
  - split; [done |]. right. exists L. split; [done |]. split; [done | by eapply fail_funds].
  - apply knows_writes; [done | done |]. intros K2. by apply knows_InsertTransaction.
Qed.

Lemma knows_reverse_tx K rq id :
  rq.(rq_from) ≠ rq.(rq_to) → 0 < rq.(rq_units) →
  knows R K (reverse_tx rq.(rq_to) rq.(rq_from) (Money.of_units rq.(rq_units)) (rq_txn rq id))
    (body_answers true rq id K).
Proof using Type.
  intros Hne Hpos. unfold reverse_tx. apply knows_bind.
  eapply knows_mono, knows_lock_pair; [|done]. intros K1 [locked|e] [H1 Hl]; [|split; [done | by left]].
  destruct Hl as (L&HL&Hp&Hl). destruct (length locked =? 2)%nat; simpl negb; cbv iota.
  2:{ split; [done |]. right. exists L. split; [done |]. split; [done |]. apply fail_missing. tauto. }
  destruct Hl as (A&B&x&y&->&Hx&HA&Hy&HB). rewrite HB, Money.LessThan_of_units.
  destruct (Z.ltb_spec (a_units y) rq.(rq_units)).
  - split; [done |]. right. exists L. split; [done |]. split; [done | by eapply fail_funds].
  - apply knows_writes; [done | done |]. intros K2. by apply knows_InsertReversal.
Qed.

Lemma knows_deposit_tx K rq id :
  rq.(rq_reverses) = None → rq.(rq_from) = ExternalAccountID → rq.(rq_to) ≠ ExternalAccountID → 0 < rq.(rq_units) →
  knows R K (deposit_tx rq.(rq_to) (Money.of_units rq.(rq_units)) (rq_txn rq id)) (body_answers false rq id K).
Proof using Type.
  intros Hrev Hfrom Hne Hpos. unfold deposit_tx. rewrite <-Hfrom in *. apply knows_bind.
  eapply knows_mono, knows_lock_pair; [|done]. intros K1 [locked|e] [H1 Hl]; [|split; [done | by left]].
  destruct Hl as (L&HL&Hp&Hl). destruct (length locked =? 2)%nat; simpl negb; cbv iota.
  2:{ split; [done |]. right. exists L. split; [done |]. split; [done | by apply fail_missing]. }
  destruct Hl as (A&B&x&y&->&Hx&HA&Hy&HB).
  apply knows_writes; [done | done |]. intros K2. by apply knows_InsertTransaction.
Qed.
End block.

(** ** The operations *)

(** From [WithTx] to its answer: a block that is not committed, one whose commit is
    not acknowledged, and one that is. *)
Lemma knows_WithTx R K funds rq id (f : prog reply) (Q : known → reply → Prop) :
  (∀ K, knows R K f (body_answers funds rq id K)) →
  commits_from R (λ i L, i = id ∧ made rq id L) K.(kn_ledger) (tx_block f) →
  (∀ K' e, still K K' → because funds rq id K K' e → Q K' (Err e)) →
  (∀ K' msg, still K K' → Q (once_more None K') (Err (Wrapf "store.WithTx commit" (Opaque msg)))) →
  (∀ K' t, still K K' → rely K'.(kn_ledger) (abs t) → made rq id (abs t) →
     Q (once_more (Some id) (at_tables t K')) (Ok (rq_txn rq id, rq_entries rq id))) →
  knows R K (Store.WithTx f) Q.
Proof.
  intros Hf Hc Herr Hlost Hok. split; [|intros e Hi; apply Herr; [done | by left]].
  eexists. split; [exact Hc |].
  change (knows R (pledged (λ i L, i = id ∧ made rq id L) K) (tx_block f) Q). apply knows_bind. eapply knows_mono, Hf.
  intros K' [p|e] [[HK Hw] Hr].
  - subst p. split; [|split].
    + intros L i HL HW u. rewrite Hw in HW. destruct HW as [-> HW]. by apply Hok.
    + intros msg u. by apply Hlost.
    + intros e Hi u. apply Herr; [done | by left].
  - intros u. by apply Herr.
Qed.

(** The code of the operations up to the block is quiet. *)
Lemma knows_after {A B} R K (m : prog A) (f : A → prog B) Q :
  quiet m → (∀ K' a, still K K' → knows R K' (f a) Q) → knows R K (mbind f m) Q.
Proof. intros Hm Hf. by apply knows_bind, quiet_knows. Qed.

Lemma knows_NewV7 {A} R K (f : result error UUID → prog A) Q :
  (∀ r, unnamed r → knows R K (f r) Q) → knows R K (mbind f uuid_NewV7) Q.
Proof. intros H. exact H. Qed.

(** What the answer of an operation tells: on success the transaction is recorded; a
    session commits at most one block, and when it answers with an error after its
    block may have been committed, the error is none that it has a name for; and an
    error with a name has grounds. *)
Definition excused (c : call) (K : known) (e : error) : Prop :=
  internal e ∨ ∃ L, kn_past K L ∧ grounds c L e.

Definition accounts_for (c : call) (key : string) (K : known) (r : reply) : Prop :=
  (K.(kn_moved) <= 1)%nat ∧
  match r with
  | Ok (t, es) => recorded t key K.(kn_ledger)
  | Err e => (K.(kn_moved) = 0%nat ∨ internal e) ∧ excused c K e
  end.

Lemma excused_lasting c : lasting (excused c).
Proof. intros K K' e ([_ Hp]&_) [?|(L&?&?)]; [by left | right]. exists L. split; [by eapply past_mono | done]. Qed.

Lemma accounts_for_lasting c key : lasting (accounts_for c key).
Proof.
  intros K K' r HK [Hle Hr]. pose proof HK as ([Hrely _]&Hm&_). unfold accounts_for. rewrite Hm. split; [done |].
  destruct r as [[t es]|e]; [by eapply recorded_rely |]. destruct Hr. split; [done | by eapply excused_lasting].
Qed.

Lemma knows_fail R K c key op from to amount req e :
  accounts_for c key K (Err e) →
  knows R K (let! _ := auditFailure op from to amount req e in mret (Err e : reply)) (accounts_for c key).
Proof. intros Hr. apply knows_after; [quiet |]. intros K' _ HK. by eapply accounts_for_lasting. Qed.

(** What is owed to the audit trail is no part of the answer. *)
Lemma accounts_for_owing c key due K r : accounts_for c key K r → accounts_for c key (owing due K) r.
Proof. done. Qed.

(** The movement of [rq] is known, and its line is due: [auditSuccess] writes it. *)
Definition owes (rq : request) (id : UUID) (K : known) : Prop :=
  K.(kn_due) = Some id ∧ ∃ L, made rq id L ∧ rely L K.(kn_ledger).

Lemma knows_auditSuccess R K rq id amount :
  Money.proper amount → Money.units amount = rq.(rq_units) → owes rq id K →
  knows R K
    (auditSuccess (kind_text rq.(rq_kind)) (Some rq.(rq_from)) (Some rq.(rq_to)) (Some amount) rq.(rq_request)
       (Some id))
    (λ K' _, still (owing None K) K').
Proof.
  intros Hm Hu (Hd&L&(L0&_&->)&Hr). split.
  { apply (vouches_audit_of _ _ (MkAuditEntry 0 _ _ _ _ _ _ _ _ zero_time)); [by intros m [= <-] | | by intros _; rewrite Hd].
    eapply truthful_rely; [exact Hr |]. unfold audit_of. simpl. rewrite Hu. by apply success_truthful. }
  intros t r t' Ht Ht' _. destruct r as [[]|e]; simpl; [|intros _]; by apply (later_still (owing None K) t).
Qed.

Lemma knows_finish R K c rq id amount res :
  Money.proper amount → Money.units amount = rq.(rq_units) →
  accounts_for c rq.(rq_key) K res → (∀ p, res = Ok p → owes rq id K) →
  knows R K
    (finish (kind_text rq.(rq_kind)) (Some rq.(rq_from)) (Some rq.(rq_to)) (Some amount) rq.(rq_key)
       rq.(rq_request) id res)
    (accounts_for c rq.(rq_key)).
Proof.
  intros Hm Hu Hres Howes. unfold finish. destruct res as [p|e].
  - apply knows_bind. eapply knows_mono; [|by apply knows_auditSuccess; [.. | eapply Howes]].
    intros K' ? HK. eapply accounts_for_lasting; [exact HK | by apply accounts_for_owing].
  - case_bool_decide; [|by apply knows_fail].
    apply knows_bind. eapply knows_mono, knows_get_key. intros K' [[t es]|e'] [HK Hg].
    + destruct Hres as [Hle _]. split; [destruct HK as (_&->&_); done |]. by eapply Hg.
    + apply knows_fail. by eapply accounts_for_lasting.
Qed.

(** The movement of a request, from [WithTx] to the answer. *)
Lemma made_recorded rq id L L' : made rq id L → rely L L' → recorded (rq_txn rq id) rq.(rq_key) L'.
Proof.
  intros (L0&Hcan&->) Hr. eapply recorded_rely; [done |]. split; [done |].
  exists (Txn rq.(rq_kind) rq.(rq_key) rq.(rq_reverses) (rq_legs rq)). split; [|done].
  unfold move. simpl. by rewrite lookup_insert_eq.
Qed.

Lemma knows_settle K c rq id amount (f : prog reply) :
  K.(kn_moved) = 0%nat → Money.proper amount → Money.units amount = rq.(rq_units) →
  plain f → body_spec (checks_funds c) rq id f →
  (∀ R K, knows R K f (body_answers (checks_funds c) rq id K)) →
  (∀ L', rely K.(kn_ledger) L' → requested c L' rq) →
  knows (requested c) K
    (let! res := Store.WithTx f in
     finish (kind_text rq.(rq_kind)) (Some rq.(rq_from)) (Some rq.(rq_to)) (Some amount) rq.(rq_key)
       rq.(rq_request) id res)
    (accounts_for c rq.(rq_key)).
Proof.
  intros HK Hm Hu Hp Hb Hf HR. apply knows_bind.
  eapply (knows_WithTx _ _ (checks_funds c) rq id); [apply Hf | by eapply tx_block_commits | | |].
  - intros K' e (_&HK'&_) He. apply knows_finish; [done | done | | done]. split; [lia |]. split; [left; lia |].
    destruct He as [Hi|(L&HL&Hpast&Hr)]; [by left | right]. exists L. split; [done |].
    by eapply grounds_movement; [apply HR |].
  - intros K' msg (_&HK'&_). apply knows_finish; [done | done | | done].
    split; [simpl; lia |]. split; [by right | by left].
  - intros K' t (_&HK'&_) HL Hmade. apply knows_finish; [done | done | |].
    + split; [simpl; lia |]. by eapply made_recorded.
    + intros p _. split; [done |]. by exists (abs t).
Qed.

Lemma knows_reject R K c key op from to amount req e :
  K.(kn_moved) = 0%nat → rejected c e → (∃ t, K.(kn_moments) t) →
  knows R K (let! _ := auditFailure op from to amount req e in mret (Err e : reply)) (accounts_for c key).
Proof.
  intros HK He [t Ht]. apply knows_fail. split; [lia |]. split; [by left |]. right.
  exists (abs t). split; [by exists t | by apply grounds_check].
Qed.

Lemma knows_lookup R K c key (f : prog reply) :
  K.(kn_moved) = 0%nat →
  (∀ K', still K K' → knows R K' f (accounts_for c key)) →
  knows R K (let! g := GetTransactionByIdempotencyKey key in
             match g with Ok existing => mret (Ok existing) | Err _ => f end) (accounts_for c key).
Proof.
  intros HK Hf. apply knows_bind. eapply knows_mono, knows_get_key.
  intros K' [[t es]|e] [HK' Hg]; [|by apply Hf]. split; [destruct HK' as (_&?&_); lia | by eapply Hg].
Qed.

Lemma knows_Transfer K src dst amount key req :
  Money.proper amount → K.(kn_moved) = 0%nat → (∃ t, K.(kn_moments) t) →
  let c := CallTransfer src dst amount key req in
  knows (requested c) K (Transfer src dst amount key req) (accounts_for c key).
Proof.
  intros Hprop HK HL c. pose proof (Money.proper_IsPositive _ Hprop) as Hsign. unfold Transfer.
  destruct (Money.IsPositive amount) eqn:Hpos; simpl negb; cbv iota.
  2:{ apply knows_reject; [done | left | done]. split; [|done]. symmetry in Hsign. by apply Z.ltb_ge in Hsign. }
  case_decide as Hne; [apply knows_reject; [done | by right; left | done] |].
  case_decide as Hext; [apply knows_reject; [done | by right; right | done] |].
  apply knows_lookup; [done |]. intros K1 (_&H1&_). apply knows_NewV7. intros [id|e] Hun.
  2:{ split; [lia |]. split; [left; lia | left; by apply (Hun e)]. }
  pose proof (Money.proper_positive _ Hprop Hpos) as Hsc. symmetry in Hsign. apply Z.ltb_lt in Hsign.
  set (rq := transfer_rq src dst amount key req).
  apply (knows_settle _ c rq); [congruence | done | done | apply plain_transfer_tx | | | intros L' _; split_and!; try done; tauto];
    rewrite (Money.scaled_of_units amount Hsc).
  - by apply (transfer_tx_spec rq id).
  - intros R K'. by apply (knows_transfer_tx R K' rq id).
Qed.

Lemma knows_Deposit K dst amount key req :
  Money.proper amount → K.(kn_moved) = 0%nat → (∃ t, K.(kn_moments) t) →
  let c := CallDeposit dst amount key req in
  knows (requested c) K (Deposit dst amount key req) (accounts_for c key).
Proof.
  intros Hprop HK HL c. pose proof (Money.proper_IsPositive _ Hprop) as Hsign. unfold Deposit.
  destruct (Money.IsPositive amount) eqn:Hpos; simpl negb; cbv iota.
  2:{ apply knows_reject; [done | left | done]. split; [|done]. symmetry in Hsign. by apply Z.ltb_ge in Hsign. }
  case_decide as Hext; [apply knows_reject; [done | by right | done] |].
  apply knows_lookup; [done |]. intros K1 (_&H1&_). apply knows_NewV7. intros [id|e] Hun.
  2:{ split; [lia |]. split; [left; lia | left; by apply (Hun e)]. }
  pose proof (Money.proper_positive _ Hprop Hpos) as Hsc. symmetry in Hsign. apply Z.ltb_lt in Hsign.
  set (rq := deposit_rq dst amount key req).
  apply (knows_settle _ c rq); [congruence | done | done | apply plain_deposit_tx | | | by intros L' _];
    rewrite (Money.scaled_of_units amount Hsc).
  - by apply (deposit_tx_spec rq id).
  - intros R K'. by apply (knows_deposit_tx R K' rq id).
Qed.

Lemma knows_Reverse K orig key req :
  K.(kn_moved) = 0%nat →
  let c := CallReverse orig key req in
  knows (requested c) K (Reverse orig key req) (accounts_for c key).
Proof.
  intros HK c. unfold Reverse. apply knows_lookup; [done |]. intros K1 (_&H1&_).
  apply knows_bind. eapply knows_mono, knows_GetTransaction.
  intros K2 [[t es]|e] [(_&H2&_) Hread].
  2:{ apply knows_fail. split; [lia |]. split; [left; lia |]. destruct Hread as [?|(->&L&HL&Hnone)]; [by left | right].
      exists L. split; [done | by eapply grounds_no_original]. }
  destruct Hread as (Hpast&(x&Hx&Hxk)&Hread).
  case_bool_decide as Hk; simpl negb; cbv iota.
  2:{ apply knows_fail. split; [lia |]. split; [left; lia |]. right. exists K2.(kn_ledger). split; [done |].
      eapply grounds_no_transfer; [done | done | congruence]. }
  destruct (Hread Hk) as (a&b&u&Ht&Hab&Hu&->). apply knows_NewV7. intros [id|e] Hun.
  2:{ split; [lia |]. split; [left; lia | left; by apply (Hun e)]. }
  set (rq := reverse_rq orig a b u key req).
  apply (knows_settle _ c rq id (Money.of_units u)); [lia | by left; apply Money.of_units_scaled | apply Money.units_of_units | apply plain_reverse_tx | by apply (reverse_tx_spec rq id) | |].
  - intros R K'. by apply (knows_reverse_tx R K' rq id).
  - intros L' H4. exists a, b, u. split_and!; [|done | done]. eapply transfer_of_evolves; [apply H4 | exact Ht].
Qed.

Lemma knows_call c K :
  proper_call c → K.(kn_moved) = 0%nat → (∃ t, K.(kn_moments) t) →
  knows (requested c) K (do_call c) (λ _ _, True).
Proof.
  intros Hc HK HL. destruct c; cbn [do_call]; try (apply knows_bind).
  - eapply knows_mono; [|by apply knows_Transfer]. done.
  - eapply knows_mono; [|by apply knows_Reverse]. done.
  - eapply knows_mono; [|by apply knows_Deposit]. done.
  - unfold Store.CreateAccount. apply quiet_knows; [quiet | done].
  - unfold Store.GetAccount. apply quiet_knows; [quiet | done].
  - unfold Store.ListAccounts. apply quiet_knows; [quiet | done].
  - unfold Store.ListTransactionsForAccount. apply quiet_knows; [quiet | done].
  - unfold Store.ListTransactions. apply quiet_knows; [quiet | done].
  - unfold Store.ListAuditForAccount. apply quiet_knows; [quiet | done].
Qed.

(** An account that was opened is there, and belongs to a user. *)
Lemma knows_CreateAccount R K name :
  knows R K (Store.CreateAccount name)
    (λ K' r, still K K' ∧ ∀ a, r = Ok a →
       ∃ x, K'.(kn_ledger).(accts) !! a.(acc_ID) = Some x ∧ x.(a_system) = false).
Proof.
  unfold Store.CreateAccount. apply knows_after; [done |]. intros K1 [id|e] H1; [|done].
  apply knows_pool; [done |]. intros t r t' Ht Ht' Hr. split.
  { etrans; [exact H1 | by apply (later_still _ t)]. }
  intros a Ha. destruct r as [rows|e]; [|done]. destruct Hr as [[msg [=]]|(env&n&es&m&db'&Hac&->)].
  unfold autocommit in Hac. simpl in Hac. unfold upd_tables, insert_account in Hac. simpl in Hac.
  destruct (accounts t !! id) eqn:Hid; [done |]. simpl in Hac. rewrite lookup_insert_eq in Hac.
  injection Hac as <- <-. cbn [Store.scan_row map_err] in Ha.
  change (AccountRec _ _ _ _ _ _) with (rec_of_account (id, AccountRow name 0 false (env_now env n) (env_now env n))) in Ha.
  rewrite scanAccount_rec in Ha. injection Ha as <-. simpl.
  rewrite lookup_fmap, lookup_insert_eq. simpl. eauto.
Qed.
