(* ===== verification/Reads.v ===== *)
(** * What reads show

    The reads of the store among other sessions: an account with the balance that it
    had at one moment, the accounts of one moment, a page of the transactions or of the
    audit lines of one moment.  The entries of a page are read after its rows, one
    transaction at a time; transactions never change, so that each is shown whole. *)

From S2P Require Import Prelude GoStd Decimal Money Uuid Ledger Schema Pgx Store Service LedgerSpec LedgerFacts StorerSpec ServiceSpec Numeric SchemaFacts StoreBlocks StoreRefines StoreFacts Clients Prog Machine Solo Trail Knowledge.
From stdpp Require Import options.
Import Ledger Schema LedgerSpec.
Open Scope Z_scope.

(** ** What is shown *)

(** All the accounts of the users, by name. *)
Definition accounts_shown (P : Tables → Prop) (l : list Account) : Prop :=
  StronglySorted String.le (acc_Name <$> l) ∧
  ∃ t, P t ∧ Forall (account_is (abs t)) l ∧ NoDup (acc_ID <$> l) ∧
    ∀ id, id ∈ acc_ID <$> l ↔ ∃ x, (abs t).(accts) !! id = Some x ∧ x.(a_system) = false.

(** A transaction of the ledger with all of its legs. *)
Definition listed (L : ledger) (t : Transaction) : Prop :=
  ∃ x legs, L.(txns) !! t.(txn_ID) = Some x ∧ t.(txn_Kind) = x.(x_kind) ∧
    t.(txn_IdempotencyKey) = x.(x_key) ∧ t.(txn_ReversesTransactionID) = x.(x_reverses) ∧
    legs ≡ₚ x.(x_legs) ∧ Forall2 (entry_is t.(txn_ID)) t.(txn_Entries) legs.

(** Times, the most recent first. *)
Definition newest_first : list Time → Prop := StronglySorted (λ t1 t2, t2 <= t1).

(** A page of the transactions of the tables [t] that satisfy [F]: all of them, each
    once, are put in the order of their creation, the most recent first, and the page
    is cut from that list. *)
Definition paged (F : txn → Prop) (limit offset : Z) (t : Tables) (l : list Transaction) : Prop :=
  ∃ all : list (UUID * transaction_row),
    NoDup all.*1 ∧ (∀ id y, (id, y) ∈ all ↔ t.(transactions) !! id = Some y ∧ F (abs_txn t id y)) ∧
    newest_first (tr_created_at <$> all.*2) ∧
    (λ x, (x.(txn_ID), x.(txn_CreatedAt))) <$> l = page limit offset ((λ p, (p.1, p.2.(tr_created_at))) <$> all).

Definition transactions_shown (F : txn → Prop) (limit offset : Z) (P : Tables → Prop) (L : ledger)
    (l : list Transaction) : Prop :=
  (∃ t, P t ∧ paged F limit offset t l) ∧ newest_first (txn_CreatedAt <$> l) ∧ Forall (listed L) l.

Definition of_kind (k : option TransactionKind) (x : txn) : Prop :=
  match k with None => True | Some k => x.(x_kind) = k end.

Definition touching (id : UUID) (x : txn) : Prop := id ∈ l_account <$> x.(x_legs).

Definition names (id : UUID) (u : audit) : Prop := u.(u_from) = Some id ∨ u.(u_to) = Some id.

#[global] Instance names_dec id u : Decision (names id u).
Proof. unfold names. apply _. Defined.

(** The lines that name an account, the most recent ones of one moment. *)
Definition audits_shown (id : UUID) (limit : Z) (P : Tables → Prop) (l : list AuditEntry) : Prop :=
  newest_first (aud_CreatedAt <$> l) ∧
  ∃ t all, P t ∧ all ≡ₚ filter (λ r, names id (abs_audit r)) t.(audit_log) ∧ newest_first (au_created_at <$> all) ∧
    audit_of <$> l = page limit 0 (abs_audit <$> all) ∧ aud_CreatedAt <$> l = page limit 0 (au_created_at <$> all).

Lemma listed_rely L L' t : rely L L' → listed L t → listed L' t.
Proof.
  intros [[_ Htx _] _] (x&legs&Hx&H). exists x, legs. split; [by eapply lookup_weaken | done].
Qed.

Lemma transactions_shown_rely F limit offset (P P' : Tables → Prop) L L' l :
  (∀ t, P t → P' t) → rely L L' → transactions_shown F limit offset P L l → transactions_shown F limit offset P' L' l.
Proof.
  intros HP Hr ((t0&H0&Hp)&Hs&Hl). split; [by exists t0; auto |]. split; [done |]. eapply Forall_impl; [exact Hl |].
  intros t. by apply listed_rely.
Qed.

Lemma accounts_shown_mono (P P' : Tables → Prop) l : (∀ t, P t → P' t) → accounts_shown P l → accounts_shown P' l.
Proof. intros HP (?&L&?&?). split; [done |]. exists L. auto. Qed.

Lemma audits_shown_mono id limit (P P' : Tables → Prop) l :
  (∀ t, P t → P' t) → audits_shown id limit P l → audits_shown id limit P' l.
Proof. intros HP (?&L&all&?&?). split; [done |]. exists L, all. auto. Qed.

(** ** Rows *)

Lemma sort_shuffle {A} (R : relation A) `{!∀ x y, Decision (R x y)} n l : merge_sort R (shuffle n l) ≡ₚ l.
Proof. by rewrite merge_sort_Permutation, shuffle_Permutation. Qed.

(** Their order. *)
#[export] Instance name_le_trans : Transitive name_le.
Proof. intros x y z. unfold name_le. by apply transitivity. Qed.
#[export] Instance name_le_total : Total name_le.
Proof. intros x y. exact (base.total String.le _ _). Qed.
#[export] Instance txn_newer_trans : Transitive txn_newer.
Proof. intros x y z. unfold txn_newer. lia. Qed.
#[export] Instance txn_newer_total : Total txn_newer.
Proof. intros x y. unfold txn_newer. lia. Qed.
#[export] Instance audit_newer_trans : Transitive audit_newer.
Proof. intros x y z. unfold audit_newer. lia. Qed.
#[export] Instance audit_newer_total : Total audit_newer.
Proof. intros x y. unfold audit_newer. lia. Qed.

Lemma StronglySorted_weaken {A} (R S : relation A) l :
  (∀ x y, R x y → S x y) → StronglySorted R l → StronglySorted S l.
Proof. intros HRS. induction 1 as [|x l _ IH Hx]; constructor; [done |]. eapply Forall_impl; [exact Hx | auto]. Qed.

Lemma StronglySorted_page {A} (R : relation A) limit offset l :
  StronglySorted R l → StronglySorted R (page limit offset l).
Proof.
  intros Hl. rewrite <-(take_drop (Z.to_nat offset) l) in Hl. apply StronglySorted_app_1_r in Hl.
  unfold page. rewrite <-(take_drop (Z.to_nat limit) (drop _ l)) in Hl. by apply StronglySorted_app_1_l in Hl.
Qed.

(** What the [rows.Next] loops make of the rows. *)
Lemma scan_rows_each {X A} label (scan : X → result error A) rows l :
  Store.scan_rows label scan rows = Ok l → Forall2 (λ row a, scan row = Ok a) rows l.
Proof.
  revert l. induction rows as [|row rows IH]; intros l; cbn [Store.scan_rows]; [by intros [= <-] |].
  destruct (scan row) as [a|] eqn:E; [|done]. destruct (Store.scan_rows label scan rows) as [l'|]; [|done].
  intros [= <-]. constructor; [done | by apply IH].
Qed.

Lemma scan_rows_fmap {X A C} label (scan : X → result error A) (f : X → C) (g : A → C) rows l :
  Store.scan_rows label scan rows = Ok l → (∀ row a, scan row = Ok a → g a = f row) → g <$> l = f <$> rows.
Proof.
  intros Hl Hfg. apply scan_rows_each in Hl. induction Hl; [done |]. rewrite !fmap_cons. f_equal; auto.
Qed.

Lemma fmap_pair_eq {A B C D} (f : A → C) (g : A → D) (f' : B → C) (g' : B → D) (l : list A) (l' : list B) :
  f <$> l = f' <$> l' → g <$> l = g' <$> l' → (λ x, (f x, g x)) <$> l = (λ x, (f' x, g' x)) <$> l'.
Proof.
  revert l'. induction l as [|x l IH]; intros [|y l']; try done. rewrite !fmap_cons.
  intros [= ? ?] [= ? ?]. f_equal; [congruence | by apply IH].
Qed.

(** The rows that a listing of transactions selects. *)
Lemma select_transactions_ids P t :
  NoDup (rt_id <$> select_transactions P t) ∧
  ∀ id, id ∈ rt_id <$> select_transactions P t ↔ ∃ y, t.(transactions) !! id = Some y ∧ P (id, y) = true.
Proof.
  assert (E : rt_id <$> select_transactions P t = (filter (λ p, P p = true) (map_to_list t.(transactions))).*1).
  { unfold select_transactions. rewrite <-list_fmap_compose. by apply list_fmap_ext; intros ? [id y]. }
  rewrite E. split.
  - eapply sublist_NoDup; [exact (NoDup_fst_map_to_list t.(transactions)) |]. apply fmap_sublist, sublist_filter.
  - intros id. rewrite list_elem_of_fmap. split.
    + intros ([i y]&->&[HP Hy]%list_elem_of_filter). exists y. split; [by apply elem_of_map_to_list | done].
    + intros (y&Hy&HP). exists (id, y). split; [done |]. apply list_elem_of_filter. split; [done |].
      by apply elem_of_map_to_list.
Qed.

Lemma select_paged P F t sorted limit offset l :
  (∀ id y, P (id, y) = true ↔ F (abs_txn t id y)) → sorted ≡ₚ select_transactions P t →
  StronglySorted txn_newer sorted →
  (λ x, (x.(txn_ID), x.(txn_CreatedAt))) <$> l = (λ rt, (rt.(rt_id), rt.(rt_created_at))) <$> page limit offset sorted →
  paged F limit offset t l.
Proof.
  intros HF Hs Hnew Hl. unfold select_transactions in Hs.
  apply Permutation_map_inv in Hs as (all&Hall&Hp).
  change (map rec_of_transaction all) with (rec_of_transaction <$> all) in Hall. subst sorted.
  exists all. split_and!.
  - rewrite <-Hp. eapply sublist_NoDup; [exact (NoDup_fst_map_to_list t.(transactions)) |].
    apply fmap_sublist, sublist_filter.
  - intros id y. rewrite <-Hp, list_elem_of_filter, elem_of_map_to_list, HF. tauto.
  - assert (Hn : newest_first (rt_created_at <$> (rec_of_transaction <$> all))) by (by apply (StronglySorted_fmap _ txn_newer)).
    rewrite <-!list_fmap_compose in *. erewrite list_fmap_ext; [exact Hn |]. by intros ? [].
  - rewrite Hl, <-page_fmap, <-list_fmap_compose. f_equal. apply list_fmap_ext. by intros ? [].
Qed.

Lemma kind_matches_abs k t id y : kind_matches k (id, y) = true ↔ of_kind k (abs_txn t id y).
Proof. destruct k; simpl; [by rewrite bool_decide_eq_true | done]. Qed.

Lemma touches_abs acc t id y : touches acc t (id, y) = true ↔ touching acc (abs_txn t id y).
Proof.
  unfold touches, touching. rewrite existsb_exists. simpl. rewrite <-list_fmap_compose, list_elem_of_fmap. split.
  - intros (e&He%list_elem_of_In&[Hid Hacc]%bool_decide_eq_true). exists e. split; [done |].
    by apply list_elem_of_filter.
  - intros (e&->&[Hid He]%list_elem_of_filter). exists e. split; [by apply list_elem_of_In |].
    by apply bool_decide_eq_true.
Qed.

(** The rows of a page, before their entries are read. *)
Definition header (L : ledger) (t : Transaction) : Prop :=
  ∃ x, L.(txns) !! t.(txn_ID) = Some x ∧ t.(txn_Kind) = x.(x_kind) ∧
    t.(txn_IdempotencyKey) = x.(x_key) ∧ t.(txn_ReversesTransactionID) = x.(x_reverses).

Lemma header_rely L L' t : rely L L' → header L t → header L' t.
Proof. intros [[_ Htx _] _] (x&Hx&H). exists x. split; [by eapply lookup_weaken | done]. Qed.

Lemma rows_headers P t rows :
  (∀ rt, rt ∈ rows → rt ∈ select_transactions P t) →
  Forall (header (abs t)) ((λ rt, MkTransaction rt.(rt_id) rt.(rt_kind) rt.(rt_idempotency_key)
                                    rt.(rt_reverses) rt.(rt_created_at) []) <$> rows).
Proof.
  intros Hrows. apply Forall_fmap, Forall_forall. intros rt Hrt.
  destruct (select_transactions_rows P t rt (Hrows rt Hrt)) as (y&E&Hy&_).
  exists (abs_txn t rt.(rt_id) y). cbn [txn_ID]. rewrite abs_txns, Hy. split; [done |]. by rewrite E.
Qed.

Lemma scanAudit_rec row : ∃ e, Store.scanAudit (rec_of_audit row) = Ok e ∧ audit_of e = abs_audit row.
Proof.
  unfold Store.scanAudit, rec_of_audit. simpl. destruct (au_amount row) as [a|] eqn:Ha; simpl.
  - rewrite Scan_numeric_out. simpl. eexists. split; [done |]. unfold audit_of, abs_audit. simpl.
    by rewrite Ha, NewFromDecimal_scaled, Money.units_of_units.
  - eexists. split; [done |]. unfold audit_of, abs_audit. simpl. by rewrite Ha.
Qed.

Lemma scan_audits_ok label rows :
  ∃ l, Store.scan_rows label Store.scanAudit (rec_of_audit <$> rows) = Ok l ∧ audit_of <$> l = abs_audit <$> rows.
Proof.
  induction rows as [|row rows (l&Hl&E)]; [by exists [] |]. rewrite fmap_cons. cbn [Store.scan_rows].
  destruct (scanAudit_rec row) as (e&->&He). rewrite Hl. exists (e :: l). split; [done |]. by rewrite !fmap_cons, He, E.
Qed.

(** ** The reads of the store *)

Section reads.
Context (R : ledger → request → Prop).

Lemma knows_GetAccount K id :
  knows R K (Store.GetAccount id)
    (λ K' r, still K K' ∧ ∀ a, r = Ok a → a.(acc_ID) = id ∧ ∃ t, K'.(kn_moments) t ∧ account_is (abs t) a).
Proof.
  unfold Store.GetAccount. apply knows_pool; [done |]. intros t r t' Ht Ht' Hr.
  split; [by apply (later_still _ t) |]. intros a Ha. destruct r as [rows|e]; [|cbn [Store.scan_row] in Ha; by destruct (errors_Is e ErrNoRows)].
  apply whole_reply in Hr as (->&cx&db&Hx&<-); [|split; [done | by eexists]].
  cbn [sql_exec] in Hx. destruct (_ !! id) as [x|] eqn:E; [|by injection Hx as <-].
  assert (rows = [rec_of_account (id, x)]) as -> by congruence. cbn [Store.scan_row] in Ha. rewrite scanAccount_rec in Ha. injection Ha as <-. split; [done |].
  exists (tables db). split; [by left |]. exists (abs_account x). simpl. by rewrite lookup_fmap, E.
Qed.

Lemma knows_ListAccounts K :
  knows R K Store.ListAccounts (λ K' r, still K K' ∧ ∀ l, r = Ok l → accounts_shown K'.(kn_moments) l).
Proof.
  unfold Store.ListAccounts. apply knows_pool_Query; [done |]. intros t r t' c Ht Ht' Hr Hc.
  split; [by apply (later_still _ t) |]. intros l Hl. destruct c as [[rows [e|]]|e]; [| |done].
  { unfold Store.collectAccounts, Store.rows_close in Hl. simpl in Hl. by destruct (Store.scan_rows _ _ rows). }
  apply (whole_answer _ t r rows) in Hr as (->&cx&db&Hx&<-); [|split; [done | by eexists] | done].
  simpl in Hx. set (sel := filter (λ p, ar_is_system p.2 = false) (map_to_list db.(tables).(accounts))) in Hx.
  assert (Hp : rows ≡ₚ rec_of_account <$> sel) by (injection Hx as <-; apply sort_shuffle).
  assert (Hs : StronglySorted name_le rows) by (injection Hx as <-; by apply StronglySorted_merge_sort; apply _).
  assert (Hids : rc_id <$> rows ≡ₚ sel.*1).
  { rewrite Hp, <-list_fmap_compose. apply Permutation_refl', list_fmap_ext. by intros ? [i y]. }
  destruct (collectAccounts_ok db.(tables) rows) as (accs&Hacc&Hall&Hid).
  { intros rc. rewrite Hp. intros ([i y]&->&[_ Hy%elem_of_map_to_list]%list_elem_of_filter)%list_elem_of_fmap.
    by exists y. }
  rewrite Hacc in Hl. injection Hl as <-. split.
  { unfold Store.collectAccounts, Store.rows_close in Hacc. cbn [rows_data rows_Err] in Hacc.
    destruct (Store.scan_rows _ _ rows) as [l|] eqn:E; [|done]. injection Hacc as ->.
    rewrite (scan_rows_fmap _ _ rc_name acc_Name _ _ E); [by apply (StronglySorted_fmap _ name_le) |].
    intros row a. unfold Store.scanAccount. destruct (Decimal.Scan _); [by intros [= <-] | done]. }
  exists (tables db). split; [by left |]. split; [done |].
  rewrite Hid, Hids. split.
  - eapply sublist_NoDup; [exact (NoDup_fst_map_to_list db.(tables).(accounts)) |]. apply fmap_sublist, sublist_filter.
  - intros id. rewrite Hids, list_elem_of_fmap, abs_accts. split.
    + intros ([i y]&->&[Hsys Hy%elem_of_map_to_list]%list_elem_of_filter). simpl in *. rewrite Hy. simpl. eauto.
    + intros (x&(y&Hy&->)%fmap_Some&Hsys). exists (id, y). split; [done |]. apply list_elem_of_filter.
      split; [done | by apply elem_of_map_to_list].
Qed.

Lemma knows_populate K txs :
  Forall (header K.(kn_ledger)) txs →
  knows R K (Store.populate txs)
    (λ K' r, still K K' ∧ ∀ l, r = Ok l → Forall (listed K'.(kn_ledger)) l ∧
       txn_ID <$> l = txn_ID <$> txs ∧ txn_CreatedAt <$> l = txn_CreatedAt <$> txs).
Proof.
  revert K. induction txs as [|t txs IH]; intros K Hh; [by split; [|intros ? [= <-]] |].
  apply Forall_cons in Hh as [(x&Hx&Hk&Hkey&Hrev) Hh]. cbn [Store.populate].
  apply knows_bind. eapply knows_mono, knows_listEntries. intros K1 [es|e] (H1&_&_&_&Hes); [|done].
  pose proof H1 as ([Hr1 _]&_).
  apply knows_bind. eapply knows_mono, IH.
  2:{ eapply Forall_impl; [exact Hh |]. intros u. by apply header_rely. }
  intros K2 [l|e] [H2 Hl]; (split; [by etrans |]); [|done].
  intros ? [= <-]. destruct (Hl l eq_refl) as (Hall&Hids&Htimes).
  split; [|by split; rewrite !fmap_cons, ?Hids, ?Htimes].
  constructor; [|done]. apply (listed_rely K1.(kn_ledger)); [apply H2 |].
  assert (Hx1 : K1.(kn_ledger).(txns) !! t.(txn_ID) = Some x) by (eapply lookup_weaken; [exact Hx | apply Hr1]).
  destruct (Hes es eq_refl x Hx1) as (legs&Hp&Hlegs). by exists x, legs.
Qed.

(** The two listings of transactions. *)
Lemma knows_listing K (q : sql (list transaction_rec)) label (w1 w2 : error → error) P F limit offset :
  no_success q → is_query q →
  (∀ t id y, P t (id, y) = true ↔ F (abs_txn t id y)) →
  (∀ cx db l, sql_exec cx q db = (Ok l, db) →
     ∃ sorted, sorted ≡ₚ select_transactions (P db.(tables)) db.(tables) ∧ StronglySorted txn_newer sorted ∧
       l = page limit offset sorted) →
  knows R K
    (let! r := pool_Query q in
     match r with
     | Err e => mret (Err (w1 e))
     | Ok rows =>
         match
           let^ txns := Store.scan_rows label Store.scanTransactionRow rows.(rows_data) in
           Store.rows_close w2 rows txns
         with
         | Err e => mret (Err e)
         | Ok txns => Store.populate txns
         end
     end)
    (λ K' r, still K K' ∧ ∀ l, r = Ok l → transactions_shown F limit offset K'.(kn_moments) K'.(kn_ledger) l).
Proof.
  intros Hq Hqu HF Hsel. apply knows_pool_Query; [done |]. intros t r t' c Ht Ht' Hr Hc.
  assert (HK : still K (at_tables t' K)) by (by apply (later_still _ t)).
  destruct c as [[rows oe]|e]; [|by split]. cbn [rows_data]. rewrite scan_transaction_rows. unfold Store.rows_close. cbn [rows_Err].
  destruct oe as [e|]; [by split |].
  apply (whole_answer _ t r rows) in Hr as (->&cx&db&Hx&<-); [|done | done].
  destruct (Hsel cx db rows Hx) as (sorted&Hs&Hnew&->).
  eapply knows_mono, knows_populate.
  - intros K' res [HK' Hl]. split; [by etrans |]. intros l ->. destruct (Hl l eq_refl) as (Hall&Hids&Htimes).
    rewrite <-!list_fmap_compose in Hids, Htimes.
    split; [|split; [|done]].
    + exists (tables db). split; [apply HK'; by left |]. eapply (select_paged (P db.(tables))); [done | exact Hs | done |].
      by apply fmap_pair_eq.
    + rewrite Htimes. apply (StronglySorted_fmap _ txn_newer); [done |]. by apply StronglySorted_page.
  - apply (rows_headers (P db.(tables))). intros rt Hrt. rewrite <-Hs. unfold page in Hrt.
    by eapply subseteq_drop, subseteq_take.
Qed.

Lemma knows_ListTransactions K opts :
  knows R K (Store.ListTransactions opts)
    (λ K' r, still K K' ∧ ∀ l, r = Ok l →
       transactions_shown (of_kind opts.(Store.opt_Kind)) opts.(Store.opt_Limit) opts.(Store.opt_Offset)
         K'.(kn_moments) K'.(kn_ledger) l).
Proof.
  apply (knows_listing K _ _ _ _ (λ _, kind_matches opts.(Store.opt_Kind)));
    [done | split; [done | by eexists] | intros; apply kind_matches_abs |].
  intros cx db l Hx. simpl in Hx. injection Hx as <-.
  eexists (merge_sort txn_newer_id (select_transactions (kind_matches opts.(Store.opt_Kind)) db.(tables))).
  split; [apply merge_sort_Permutation |]. split; [|done].
  apply (StronglySorted_weaken txn_newer_id); [|by apply StronglySorted_merge_sort; apply _].
  intros x y [?|[? _]]; unfold txn_newer; lia.
Qed.

Lemma knows_ListTransactionsForAccount K id limit :
  knows R K (Store.ListTransactionsForAccount id limit)
    (λ K' r, still K K' ∧ ∀ l, r = Ok l →
       transactions_shown (touching id) limit 0 K'.(kn_moments) K'.(kn_ledger) l).
Proof.
  apply (knows_listing K _ _ _ _ (touches id));
    [done | split; [done | by eexists] | intros; apply touches_abs |].
  intros cx db l Hx. simpl in Hx. injection Hx as <-.
  eexists (merge_sort txn_newer (shuffle cx.(cx_scan) (select_transactions (touches id db.(tables)) db.(tables)))).
  split; [apply sort_shuffle |]. split; [|done]. by apply StronglySorted_merge_sort; apply _.
Qed.

Lemma knows_ListAudit K id limit :
  knows R K (Store.ListAuditForAccount id limit)
    (λ K' r, still K K' ∧ ∀ l, r = Ok l → audits_shown id limit K'.(kn_moments) l).
Proof.
  unfold Store.ListAuditForAccount. apply knows_pool_Query; [done |]. intros t r t' c Ht Ht' Hr Hc.
  split; [by apply (later_still _ t) |]. intros l Hl. destruct c as [[rows [e|]]|e]; [| |done].
  { unfold Store.rows_close in Hl. simpl in Hl. by destruct (Store.scan_rows _ _ rows). }
  apply (whole_answer _ t r rows) in Hr as (->&cx&db&Hx&<-); [|split; [done | by eexists] | done].
  simpl in Hx. set (sel := filter (λ r, audit_touches id r = true) db.(tables).(audit_log)) in Hx.
  injection Hx as Hrows.
  assert (Hp : merge_sort audit_newer (shuffle cx.(cx_scan) (rec_of_audit <$> sel)) ≡ₚ rec_of_audit <$> sel)
    by apply sort_shuffle.
  apply Permutation_map_inv in Hp as (sel'&Hsel'&Hp).
  change (map rec_of_audit sel') with (rec_of_audit <$> sel') in Hsel'.
  rewrite Hsel', page_fmap in Hrows. subst rows. cbn [rows_data] in Hl.
  destruct (scan_audits_ok "store.ListAuditForAccount scan" (page limit 0 sel')) as (l'&Hs&Haud).
  rewrite Hs in Hl. injection Hl as <-.
  assert (Htimes : aud_CreatedAt <$> l' = page limit 0 (au_created_at <$> sel')).
  { rewrite (scan_rows_fmap _ _ ra_created_at aud_CreatedAt _ _ Hs); [by rewrite <-list_fmap_compose, page_fmap |].
    intros row e. unfold Store.scanAudit. by case_match; intros [= <-]. }
  assert (Hnew : newest_first (au_created_at <$> sel')).
  { assert (Hn : newest_first (ra_created_at <$> (rec_of_audit <$> sel'))); [|by rewrite <-list_fmap_compose in Hn].
    rewrite <-Hsel'. apply (StronglySorted_fmap _ audit_newer); [done |]. by apply StronglySorted_merge_sort; apply _. }
  split; [rewrite Htimes; by apply StronglySorted_page |].
  exists (tables db), sel'. split; [by left |]. split; [|by rewrite page_fmap].
  rewrite <-Hp. apply Permutation_refl'. unfold sel. apply list_filter_iff. intros row.
  unfold audit_touches, names. by rewrite orb_true_iff, !bool_decide_eq_true.
Qed.
End reads.
