(* ===== verification/Books.v ===== *)
(** * The books

    What any number of sessions do to the books, their calls to the database
    interleaved in any way and failing at any time: when each session's program is
    known to move only what it requests and keeps the lock discipline, the
    committed books are those of the committed movements one after the other. *)

From S2P Require Import Prelude GoStd Decimal Money Uuid Ledger Schema Pgx Store Service LedgerSpec LedgerFacts StorerSpec ServiceSpec Numeric SchemaFacts StoreBlocks StoreRefines Guarantee Clients Prog Machine Locking Frames Serial Liveness Solo Trail Knowledge Answers.
From stdpp Require Import options.
Import Ledger Schema LedgerSpec.
Open Scope Z_scope.

(** ** Book steps *)

(** What a transaction outside of a block does to the books: nothing, a new
    account, or a true line of the audit trail. *)
Definition bookkeeping (L L' : ledger) : Prop :=
  L' = L ∨ (∃ id, L.(accts) !! id = None ∧ L' = add_acct id L) ∨ (∃ u, truthful L u ∧ L' = add_audit u L).

Definition book_step {A} (R : ledger → request → Prop) (L : ledger) (ev : effect A) (L' : ledger) : Prop :=
  match ev with
  | Silent => L' = L
  | Autocommits => bookkeeping L L'
  | Commits _ _ => moved R L L'
  end.

(** The same with the movement of the session whose line in the trail is due, before
    and after: a commit that is acknowledged makes it due, and it is the one success
    that the session reports. *)
Definition noting (due : option UUID) (L : ledger) (due' : option UUID) (L' : ledger) : Prop :=
  bookkeeping L L' ∧ (due' = due ∨ due' = None) ∧
  ∀ u id, L' = add_audit u L → reported u = Some id → due = Some id ∧ due' = None.

Definition due_step {A} (R : ledger → request → Prop) (due : option UUID) (L : ledger) (ev : effect A)
    (due' : option UUID) (L' : ledger) : Prop :=
  match ev with
  | Silent => L' = L ∧ due' = due
  | Autocommits => noting due L due' L'
  | Commits _ _ => ∃ id, moved_as R id L L' ∧ (due' = Some id ∨ due' = None)
  end.

Lemma due_step_book {A} R due L (ev : effect A) due' L' : due_step R due L ev due' L' → book_step R L ev L'.
Proof. destruct ev; simpl; [tauto | by intros [? _] |]. intros (id&?&_). by exists id. Qed.

(** The books after the steps of a trace: session [p] only moves what it requests,
    [R p]. *)
Inductive books {A} (R : nat → ledger → request → Prop) : ledger → list (nat * effect A) → ledger → Prop :=
| books_nil L : books R L [] L
| books_cons L p ev tr L1 L' :
    book_step (R p) L ev L1 → books R L1 tr L' → books R L ((p, ev) :: tr) L'.

Inductive due_books {A} (R : nat → ledger → request → Prop)
    : (nat → option UUID) → ledger → list (nat * effect A) → ledger → Prop :=
| due_books_nil due L : due_books R due L [] L
| due_books_cons due L p ev tr due1 L1 L' :
    due_step (R p) (due p) L ev (due1 p) L1 → (∀ q, q ≠ p → due1 q = due q) →
    due_books R due1 L1 tr L' → due_books R due L ((p, ev) :: tr) L'.

Lemma due_books_books {A} R due L (tr : list (nat * effect A)) L' : due_books R due L tr L' → books R L tr L'.
Proof. induction 1; [constructor |]. econstructor; [by eapply due_step_book | done]. Qed.

(** Requests are such that a movement of theirs keeps the ledger correct. *)
Definition well_requested (R : ledger → request → Prop) : Prop := ∀ L rq, R L rq → well_formed rq L.

Lemma bookkeeping_rely L L' : bookkeeping L L' → rely L L'.
Proof. intros [->|[(id&Hid&->)|(u&_&->)]]; [done | by apply add_acct_rely | apply add_audit_rely]. Qed.

Lemma moved_rely R L L' : well_requested R → moved R L L' → rely L L'.
Proof. intros HR (id&rq&Hrq&Hcan&->). apply move_rely; [done | by apply HR]. Qed.

Lemma book_step_rely {A} R L (ev : effect A) L' : well_requested R → book_step R L ev L' → rely L L'.
Proof.
  intros HR. destruct ev; simpl; [by intros -> | apply bookkeeping_rely | by apply moved_rely].
Qed.

Lemma books_rely {A} R L (tr : list (nat * effect A)) L' :
  (∀ p, well_requested (R p)) → books R L tr L' → rely L L'.
Proof.
  intros HR. induction 1 as [L|L p ev tr L1 L' Hst _ IH]; [done |].
  etrans; [by eapply book_step_rely | done].
Qed.

(** ** Transactions outside of blocks *)

Lemma due_after_either {B} (q : sql B) due : due_after q due = due ∨ due_after q due = None.
Proof. destruct q; eauto. destruct outcome; eauto. Qed.

Lemma add_audit_trail u L L' : (add_audit u L).(trail) = L'.(trail) → length L'.(trail) = S (length L.(trail)).
Proof. intros <-. simpl. rewrite length_app. simpl. lia. Qed.

Lemma noting_same {B} (q : sql B) due L : noting due L (due_after q due) L.
Proof.
  split; [by left |]. split; [apply due_after_either |]. intros u id Hu. symmetry in Hu.
  apply (f_equal trail), add_audit_trail in Hu. lia.
Qed.

Lemma autonomous_books {B} due cx (q : sql B) db r db' :
  autonomous q → vouches due (abs db.(tables)) q → sql_exec cx q db = (r, db') →
  noting due (abs db.(tables)) (due_after q due) (abs db'.(tables)).
Proof.
  pose proof (noting_same q due (abs db.(tables))) as Hsame. pose proof (due_after_either q due) as Hdue.
  destruct q; try done; intros _ Hv; simpl; try (by intros [= _ <-]); unfold upd_tables.
  - destruct (insert_account _ _ _ _) as [t'|] eqn:E; intros [= _ <-]; [|done].
    apply abs_insert_account in E as [Ht Hid]. split; [right; left; by exists id |]. split; [done |].
    intros u i Hu. simpl in Hu. rewrite Ht in Hu. symmetry in Hu. apply (f_equal trail), add_audit_trail in Hu.
    simpl in Hu. lia.
  - destruct (nextval _) as [n|]; [|by intros [= _ <-]].
    destruct (insert_audit _ _ _ _) as [t'|] eqn:E; intros [= _ <-]; [|done].
    apply abs_insert_audit in E as (a&Ha&Hu). destruct (Hv a Ha) as [Ht Hd]. split; [right; right; eauto |].
    split; [done |]. intros u i Hu'. simpl in Hu'. rewrite Hu in Hu'.
    apply (f_equal trail) in Hu'. simpl in Hu'. apply app_inj_tail in Hu' as [_ <-].
    unfold reported. simpl. destruct outcome; [|done]. by rewrite Hd.
Qed.

Lemma pool_answer_books {B} due faulty (q : sql B) db r db' :
  autonomous q → vouches due (abs db.(tables)) q → pool_answer faulty q db r db' → linked db.(tables) →
  noting due (abs db.(tables)) (due_after q due) (abs db'.(tables)) ∧ linked db'.(tables) ∧
  pool_reply q db.(tables) r db'.(tables).
Proof.
  intros Hq Hv (env&n&Ha) Hl. pose proof (noting_same q due (abs db.(tables))) as Hsame.
  assert (Hac : noting due (abs db.(tables)) (due_after q due) (abs (autocommit env n q db).2.(tables)) ∧
                linked (autocommit env n q db).2.(tables)).
  { unfold autocommit. destruct (sql_exec _ q db) as [[a|e] db1] eqn:E; [|done].
    pose proof (sql_exec_linked _ _ _ _ _ Hl E). apply (autonomous_books due) in E; [|done..].
    by destruct (triggers_pass _ _). }
  destruct faulty.
  - destruct Ha as [[msg ->] Hdb]. split; [|split; [|left; eauto]].
    + destruct Hdb as [-> | ->]; [exact Hsame | apply Hac].
    + destruct Hdb as [-> | ->]; [done | apply Hac].
  - rewrite Ha in Hac. destruct Hac. split; [done |]. split; [done |]. right.
    exists env, n, db.(entries_seq), db.(audit_seq), db'. by destruct db.
Qed.

(** ** One step *)

(** The blocks that a step commits. *)
Definition commits {A} (ev : effect A) : nat := match ev with Commits _ _ => 1 | _ => 0 end.

(** A locking read in progress looks for the rows it found when it began. *)
Definition scan_seen {A} (K : known) (H : Tables → Prop) (L : ledger) (p : prog A) (b : block A) : Prop :=
  match p, b.(b_scan) with
  | TxQuery q _, Some (scan, _) =>
      ∀ ids, lock_ids q = Some ids →
        ∃ t0, later K.(kn_ledger) t0 ∧ rely (abs t0) L ∧ H t0 ∧ scan = found ids t0
  | _, _ => True
  end.

(** What is known of a session that has committed [n] blocks and owes the line of [due]: what its program will
    do and answer, and how its block may commit.  [L] is the ledger now, and [H] holds
    of the ledgers that have been. *)
Definition informed {A} (R : ledger → request → Prop) (Q : known → A → Prop) (H : Tables → Prop) (L : ledger)
    (n : nat) (due : option UUID) (s : session A) : Prop :=
  ∃ K, K.(kn_moved) = n ∧ K.(kn_due) = due ∧ rely K.(kn_ledger) L ∧ (∀ t, K.(kn_moments) t → H t) ∧ knows R K s.(s_prog) Q ∧
       ∀ b, s.(s_block) = Some b →
         commits_from R K.(kn_pledge) K.(kn_ledger) b.(b_start) ∧
         (b.(b_aborted) = false → scan_seen K H L s.(s_prog) b).

Lemma scan_seen_rely {A} K (H H' : Tables → Prop) L L' (p : prog A) b :
  (∀ t, H t → H' t) → rely L L' → scan_seen K H L p b → scan_seen K H' L' p b.
Proof.
  intros HH Hr. unfold scan_seen. destruct p; try done. destruct (b_scan b) as [[scan todo]|]; [|done].
  intros Hs ids Hids. destruct (Hs ids Hids) as (t0&?&?&?&?). exists t0. split_and!; [done | by etrans | auto | done].
Qed.

Lemma informed_rely {A} R (Q : known → A → Prop) (H H' : Tables → Prop) L L' n due s :
  (∀ t, H t → H' t) → rely L L' → informed R Q H L n due s → informed R Q H' L' n due s.
Proof.
  intros HH Hr (K&Hn&Hd&HL&Hp&Hk&Hb). exists K. split; [done |]. split; [done |]. split; [by etrans |]. split; [auto |].
  split; [done |]. intros b Hs. destruct (Hb b Hs) as [Hc Hsc]. split; [done |].
  intros Hab. by eapply scan_seen_rely, Hsc.
Qed.

(** A step in terms of the books. *)
Definition accounted {A} (R : ledger → request → Prop) (Q : known → A → Prop) (H : Tables → Prop) (n : nat)
    (due : option UUID) (db db' : DB) (s' : session A) (ev : effect A) : Prop :=
  linked db'.(tables) ∧ ∃ due', due_step R due (abs db.(tables)) ev due' (abs db'.(tables)) ∧
  ∀ H' : Tables → Prop, (∀ t, H t → H' t) → H' db'.(tables) →
    informed R Q H' (abs db'.(tables)) (commits ev + n) due' s'.

(** The transactions that a unique index finds are those of the table. *)
Lemma violates_transactions id key rev t t' e :
  t'.(transactions) = t.(transactions) → violates id key rev t e → violates id key rev t' e.
Proof.
  intros Ht Hv.
  assert (Hrow : ∀ i x, (abs t).(txns) !! i = Some x → ∃ x', (abs t').(txns) !! i = Some x' ∧
    x'.(x_key) = x.(x_key) ∧ x'.(x_reverses) = x.(x_reverses)).
  { intros i x. rewrite !abs_txns, Ht. intros (r&->&->)%fmap_Some. simpl. by eexists. }
  destruct Hv as [[x Hx]|Hk|Hr]; constructor.
  - destruct (Hrow _ _ Hx) as (x'&?&_). by exists x'.
  - intros Hf. apply Hk. intros i x Hx. destruct (Hrow _ _ Hx) as (x'&Hx'&<-&_). by apply (Hf i).
  - intros Hf. apply Hr. intros o i x Ho Hx. destruct (Hrow _ _ Hx) as (x'&Hx'&_&<-). by apply (Hf o i).
Qed.

(** The answer of a statement of a block that runs. *)
Lemma executed_reply {A B} db b (q : sql B) (k : result error B → prog A) r db' b' :
  session_ok db.(tables) (MkSession (TxExec q k) (Some b)) → b.(b_aborted) = false →
  executes q q db b r db' b' → tx_reply q db.(tables) r.
Proof.
  intros (ph&Hf&_&_&Hfit) Hab (cx&db1&Hx&_&_) e ->. split; [by eapply is_pg_internal, sql_exec_err |].
  destruct q; try done. simpl in Hf. destruct ph; try done. destruct (Hfit Hab) as (_&_&_&_&_&Hw).
  simpl in Hx. unfold upd_tables in Hx. destruct (insert_transaction _ _ _ _ _ _) eqn:Hi; simplify_eq.
  apply insert_transaction_err in Hi as [Hv| ->]; [right | left; by intros f [= <-]].
  eapply violates_transactions, Hv. simpl. by rewrite Hw, map_empty_union.
Qed.

Section step.
Context {A : Type} (R : ledger → request → Prop) (HR : well_requested R) (Q : known → A → Prop)
  (H : Tables → Prop) (free : resource → Prop) (faulty : bool) (db : DB)
  (Hinv : ledger_inv (abs db.(tables))) (Hl : linked db.(tables)) (Hnow : H db.(tables)).

(** The program and the block after a step that leaves the books alone. *)
#[local] Lemma accounted_quiet db' n due K p b' :
  db'.(tables) = db.(tables) → K.(kn_moved) = n → K.(kn_due) = due → rely K.(kn_ledger) (abs db.(tables)) →
  (∀ t, K.(kn_moments) t → H t) → knows R K p Q →
  (∀ b, b' = Some b → commits_from R K.(kn_pledge) K.(kn_ledger) b.(b_start) ∧
     (b.(b_aborted) = false → scan_seen K H (abs db.(tables)) p b)) →
  accounted R Q H n due db db' (MkSession p b') Silent.
Proof using Hl.
  intros Ht Hn Hd HL Hp Hk Hb. unfold accounted. rewrite Ht. split; [done |]. exists due. split; [done |].
  intros H' HH _. exists K. do 3 (split; [done |]). split; [auto |]. split; [done |].
  intros b Hs. destruct (Hb b Hs) as [? Hsc]. split; [done |]. intros Hab. by eapply scan_seen_rely, Hsc.
Qed.

#[local] Lemma later_now K : rely K.(kn_ledger) (abs db.(tables)) → later K.(kn_ledger) db.(tables).
Proof using Hinv Hl. by split. Qed.

#[local] Lemma at_now_past (K : known) t : H t → (∀ t, K.(kn_moments) t → H t) → ∀ t', (at_tables t K).(kn_moments) t' → H t'.
Proof using Type. intros Ht Hp t' [->|?]; auto. Qed.

#[local] Lemma accounted_pool {B} db' n due K (q : sql B) r p :
  K.(kn_moved) = n → K.(kn_due) = due → rely K.(kn_ledger) (abs db.(tables)) → (∀ t, K.(kn_moments) t → H t) →
  autonomous q → vouches due K.(kn_ledger) q → pool_answer faulty q db r db' →
  (later (abs db.(tables)) db'.(tables) → pool_reply q db.(tables) r db'.(tables) →
   knows R (answered_at q db'.(tables) K) p Q) →
  accounted R Q H n due db db' (MkSession p None) Autocommits.
Proof using Hl Hinv.
  intros Hn Hd HL Hp Hq Hv Ha Hk.
  destruct (pool_answer_books due _ _ _ _ _ Hq (vouches_rely _ _ _ _ HL Hv) Ha Hl) as (Hbk&Hl'&Hr).
  pose proof (bookkeeping_rely _ _ (proj1 Hbk)) as Hrely.
  split; [done |]. exists (due_after q due). split; [done |]. intros H' HH HL'.
  exists (answered_at q db'.(tables) K).
  split; [done |]. split; [by rewrite <-Hd |]. split; [done |]. split; [intros L' [->|?]; auto |]. split; [|done].
  apply Hk; [|done]. split; [done | by apply Hrely | done].
Qed.

(** A commit runs the block alone on the tables it commits to. *)
#[local] Lemma accounted_commit db' (s' : session A) ev n due b k :
  session_ok db.(tables) (MkSession (Commit k) (Some b)) →
  session_step free faulty db (MkSession (Commit k) (Some b)) db' s' ev →
  informed R Q H (abs db.(tables)) n due (MkSession (Commit k) (Some b)) →
  ev ≠ Silent → accounted R Q H n due db db' s' ev.
Proof using HR Hinv Hl.
  intros Hs Hst (K&Hn&Hd&HL&Hp&(Hok&Hlost&_)&Hb) Hev. destruct (session_advances _ _ _ _ _ _ _ Hs Hst) as (_&_&Hser).
  specialize (Hser 0%nat). destruct (Hb b eq_refl) as [Hc _].
  assert (Hcom : ∃ r, ev = Commits b.(b_start) (k r) ∧ s' = MkSession (k r) None ∧
                      (r = Ok tt ∨ ∃ msg, r = Err (Opaque msg))).
  { open_step Hst. destruct (b_aborted b); [by destruct Hst as (?&_&_&_&?) |].
    destruct faulty.
    - destruct Hst as (msg&[(_&_&?)|(_&_&?&?)]); [done | eauto 10].
    - destruct (triggers_pass _ _); [destruct Hst as (_&?&?); eauto 10 | by destruct Hst as (_&_&?)]. }
  destruct Hcom as (r&->&->&Hr). inversion Hser as [| | |t p start stop tr t1 t' Hal Hnil]; subst.
  inversion Hnil; subst. destruct Hal as (k'&pend&r'&Hrun&_&_).
  destruct (cf_moved _ _ _ _ Hc _ _ _ _ (later_now K HL) Hrun) as (Hl'&id&Hm&HW).
  pose proof (moved_rely _ _ _ HR (ex_intro _ id Hm)) as Hrely. split; [done |]. destruct Hr as [->|[msg ->]].
  - exists (Some id). split; [exists id; eauto |]. intros H' HH HL'.
    exists (once_more (Some id) (at_tables db'.(tables) K)). do 3 (split; [done |]).
    split; [intros L' [->|?]; auto |]. split; [|done]. apply Hok; [by etrans | done].
  - exists None. split; [exists id; eauto |]. intros H' HH HL'.
    exists (once_more None K). do 2 (split; [done |]). split; [simpl; by etrans |]. split; [simpl; auto |].
    split; [apply Hlost | done].
Qed.

(** A block without a lock to wait for, or with its rows read. *)
#[local] Lemma scan_done K L (p : prog A) b : b.(b_scan) = None → scan_seen K H L p b.
Proof using Type. intros Hs. unfold scan_seen. rewrite Hs. by destruct p. Qed.

#[local] Lemma refusal_internal e0 e : internal e0 → refusal faulty e0 e → internal e.
Proof using Type. unfold refusal. destruct faulty; [by intros _ [msg ->] | by intros ? ->]. Qed.

#[local] Lemma refused_reply {B} (q : sql B) t e :
  (∃ msg, e = Opaque msg) ∨ refusal faulty in_failed_transaction e → tx_reply q t (Err e).
Proof using Type.
  intros He ? [= <-].
  assert (Hn : internal e ∧ not_unique e).
  { unfold refusal in He. destruct He as [[msg ->]|He]; [done |]. destruct faulty; [by destruct He as [msg ->] |].
    subst e. by split; [|intros f [= <-]]. }
  split; [apply Hn |]. destruct q; try done. left. apply Hn.
Qed.

#[local] Lemma tx_exec_accounted {B} db' (s' : session A) ev n due b (q : sql B) k :
  session_ok db.(tables) (MkSession (TxExec q k) (Some b)) →
  session_step free faulty db (MkSession (TxExec q k) (Some b)) db' s' ev →
  informed R Q H (abs db.(tables)) n due (MkSession (TxExec q k) (Some b)) → accounted R Q H n due db db' s' ev.
Proof using Hinv Hl Hnow.
  intros Hs Hst (K&Hn&Hd&HL&Hp&Hk&Hb). destruct (Hb b eq_refl) as [Hc _].
  assert (Hgo : ∀ db1 r b', db1.(tables) = db.(tables) → tx_reply q db.(tables) r → b'.(b_start) = b.(b_start) →
    (b'.(b_aborted) = false → b'.(b_scan) = None) →
    accounted R Q H n due db db1 (MkSession (k r) (Some b')) Silent).
  { intros db1 r b' Ht Hr Hst' Hsc. eapply (accounted_quiet _ _ _ (at_tables db.(tables) K));
      [done | done | done | done | by apply at_now_past | apply Hk; [by apply later_now | done] |].
    intros b2 [= <-]. rewrite Hst'. split; [by eapply commits_from_rely, Hc | intros Hab; by apply scan_done, Hsc]. }
  open_step Hst. destruct (b_aborted b) eqn:Hab.
  { destruct Hst as (e&He&->&->&->). apply Hgo; [done | apply refused_reply; by right | done | congruence]. }
  destruct faulty eqn:Hfa.
  { destruct Hst as (msg&->&->&->). apply Hgo; [done | apply refused_reply; left; eauto | done | done]. }
  destruct Hst as (r&b'&Hx&->&->). unfold exec_step in Hx. destruct (next_need q (seen db b) b).
  - destruct Hx as (_&->&->&->). by eapply (accounted_quiet _ _ _ K); [.. | intros b2 [= <-]].
  - destruct Hx as (_&a&->&Hx). pose proof (executed_reply _ _ _ _ _ _ _ Hs Hab Hx) as Hr.
    destruct Hx as (cx&db1&_&->&->). apply Hgo; [done | done | by destruct a |]. by destruct a.
Qed.

#[local] Lemma tx_query_accounted {X} db' (s' : session A) ev n due b (q : sql (list X)) k :
  session_ok db.(tables) (MkSession (TxQuery q k) (Some b)) →
  session_step free faulty db (MkSession (TxQuery q k) (Some b)) db' s' ev →
  informed R Q H (abs db.(tables)) n due (MkSession (TxQuery q k) (Some b)) → accounted R Q H n due db db' s' ev.
Proof using Hinv Hl Hnow.
  intros (ph&(->&ids&Hq&_)&_&_&Hfit) Hst (K&Hn&Hd&HL&Hp&Hk&Hb). destruct (Hb b eq_refl) as [Hc Hsc].
  assert (Hgo : ∀ t0 c b', later K.(kn_ledger) t0 → rely (abs t0) (abs db.(tables)) → H t0 →
    lock_reply q t0 db.(tables) c → b'.(b_start) = b.(b_start) → (b'.(b_aborted) = false → b'.(b_scan) = None) →
    accounted R Q H n due db db (MkSession (k c) (Some b')) Silent).
  { intros t0 c b' Ht0 Hr0 H0 Hr Hst' Hsc'.
    eapply (accounted_quiet _ _ _ (at_tables db.(tables) (at_tables t0 K)));
      [done | done | done | done | by apply at_now_past; [|apply at_now_past] | apply Hk; [done | by split | done] |].
    intros b2 [= <-]. rewrite Hst'. split; [by eapply commits_from_rely, Hc | intros Hab; by apply scan_done, Hsc']. }
  assert (Herr : ∀ e c b', internal e → as_rows (Err e) c → b'.(b_start) = b.(b_start) →
    (b'.(b_aborted) = false → b'.(b_scan) = None) → accounted R Q H n due db db (MkSession (k c) (Some b')) Silent).
  { intros e c b' Hi Hc' Hst' Hsc'. apply (Hgo db.(tables)); [by apply later_now | done | done | | done | done].
    by destruct Hc' as [->|[l ->]]. }
  open_step Hst. destruct (b_aborted b) eqn:Hab.
  { destruct Hst as (e&c&He&Hc'&->&->&->).
    eapply Herr; [by eapply refusal_internal, He | done | done | congruence]. }
  destruct (Hfit eq_refl) as (_&Hw&_). destruct faulty eqn:Hfa.
  { destruct Hst as (msg&c&Hc'&->&->&->). by apply (Herr (Opaque msg)). }
  assert (Hseen : seen db b = db.(tables)) by (unfold seen; rewrite Hw; apply view_no_writes).
  destruct Hst as (r&b'&Hx&->&Hs'). unfold query_step in Hx. rewrite Hq, Hseen in Hx.
  destruct (b_scan b) as [[scan [|id todo]]|] eqn:Hs.
  - destruct Hx as (a&->&cx&db1&Hx&->&->). destruct Hs' as (c&Hc'&->).
    specialize (Hsc eq_refl). unfold scan_seen in Hsc. cbn [s_prog] in Hsc. rewrite Hs in Hsc.
    destruct (Hsc ids Hq) as (t0&Ht0&Hr0&H0&->). rewrite Hseen in Hx.
    destruct (lock_exec _ _ _ _ _ _ _ Hq Hx) as (->&_&_&rows&->&_&_). simpl in Hc'. subst c.
    replace (MkDB _ _ _) with db by (by destruct db). apply (Hgo t0); [done | done | done | | done | done].
    intros ids' Hids'. assert (ids' = ids) as -> by congruence. eauto.
  - destruct Hx as (->&->&Hb'). subst s'. eapply (accounted_quiet _ _ _ K); [done | done | done | done | done | done |].
    intros b2 [= <-]. specialize (Hsc eq_refl). unfold scan_seen in *. cbn [s_prog] in Hsc. rewrite Hs in Hsc.
    case_bool_decide; [subst b' | destruct Hb' as [_ ->]]; by split.
  - destruct Hx as (->&->&->). subst s'. eapply (accounted_quiet _ _ _ K); [done | done | done | done | done | done |].
    intros b2 [= <-]. split; [done |]. intros _ ids' Hids'. assert (ids' = ids) as -> by congruence.
    exists db.(tables). split_and!; [by apply later_now | done | done | done].
Qed.

Lemma session_accounted n due (s : session A) db' s' ev :
  session_ok db.(tables) s → session_step free faulty db s db' s' ev →
  informed R Q H (abs db.(tables)) n due s → accounted R Q H n due db db' s' ev.
Proof using HR Hinv Hl Hnow.
  destruct s as [p bo]. intros Hs Hstep Hi. pose proof Hs as (ph&Hf&Hph). simpl in Hf, Hph.
  assert (Hout : ph = Outside → bo = None).
  { intros ->. destruct bo as [b|]; [|done]. by destruct Hph as (_&[]&_). }
  destruct p as [a|B q k|X q k|k|B q k|X q k|k|k|k|k|k|m k].
  - done.
  - destruct Hf as (->&Hq&_). rewrite (Hout eq_refl) in *. destruct Hi as (K&Hn&Hd&HL&Hp&[Hv Hk]&_).
    destruct Hstep as (r&Ha&->&->). eapply (accounted_pool _ _ _ K); [done | done | done | done | done | by rewrite <-Hd | done |].
    intros Ht Hr. by apply (Hk (tables db) r (tables db')); [apply later_now | |].
  - destruct Hf as (->&Hq&_). rewrite (Hout eq_refl) in *. destruct Hi as (K&Hn&Hd&HL&Hp&[Hv Hk]&_).
    destruct Hstep as (r&x&Ha&Hx&->&->). eapply (accounted_pool _ _ _ K); [done | done | done | done | done | by rewrite <-Hd | done |].
    intros Ht Hr. by apply (Hk (tables db) r (tables db') x); [apply later_now | | |].
  - destruct Hi as (K&Hn&Hd&HL&Hp&[(W&Hc&Hk) He]&_). open_step Hstep. destruct faulty.
    + destruct Hstep as (msg&->&->&->). by eapply (accounted_quiet _ _ _ K); [.. | apply He |].
    + destruct Hstep as (->&->&->). eapply (accounted_quiet _ _ _ (pledged W K)); [done | done | done | done | done | done |].
      intros b [= <-]. split; [done |]. intros _. by apply scan_done.
  - destruct bo as [b|]; [by eapply tx_exec_accounted |]. subst ph. by destruct q.
  - destruct bo as [b|]; [by eapply tx_query_accounted |]. subst ph. by destruct Hf.
  - destruct bo as [b|]; [|by destruct Hf as [? _]].
    destruct ev eqn:Ev; [|by eapply accounted_commit..].
    destruct Hi as (K&Hn&Hd&HL&Hp&(_&_&Hk)&_). open_step Hstep.
    assert (Hgo : ∀ e, internal e → accounted R Q H n due db db (MkSession (k (Err e)) None) Silent).
    { intros e Hi. by eapply (accounted_quiet _ _ _ K); [.. | apply Hk |]. }
    destruct (b_aborted b); [destruct Hstep as (e&He&->&->&_); by eapply Hgo, refusal_internal, He |].
    destruct faulty; [by destruct Hstep as (msg&[(->&->&_)|(_&_&_&?)]); [apply Hgo |] |].
    destruct (triggers_pass _ _); [by destruct Hstep as (_&_&?) | destruct Hstep as (->&->&_); by apply Hgo].
  - destruct Hstep as (_&->&->&->). destruct Hi as (K&Hn&Hd&HL&Hp&Hk&_). by eapply (accounted_quiet _ _ _ K).
  - destruct Hf as [-> _]. rewrite (Hout eq_refl) in *. destruct Hi as (K&Hn&Hd&HL&Hp&Hk&_). open_step Hstep.
    destruct faulty; destruct Hstep as (x&->&->&->);
      (eapply (accounted_quiet _ _ _ K); [done | done | done | done | done | apply Hk | done]); by intros e [= <-].
  - destruct Hf as [-> _]. rewrite (Hout eq_refl) in *. destruct Hi as (K&Hn&Hd&HL&Hp&Hk&_).
    destruct Hstep as (_&x&->&->&->). by eapply (accounted_quiet _ _ _ K).
  - destruct Hstep as (_&x&->&->&->). destruct Hi as (K&Hn&Hd&HL&Hp&Hk&Hb).
    eapply (accounted_quiet _ _ _ K); [done | done | done | done | done | apply Hk |].
    simpl in *. intros b ->. destruct (Hb b eq_refl) as [? _]. split; [done |]. intros Hab. apply scan_done.
    destruct Hph as (_&_&Hfit). specialize (Hfit Hab). destruct ph; try done; [|by destruct Hfit as (_&?&_)..].
    destruct Hfit as (_&_&Hsc). unfold scan_ok in Hsc. destruct (b_scan b) as [[scan todo]|]; [|done].
    by destruct Hsc as (ids&got&[=]&_).
  - destruct Hf as [-> _]. rewrite (Hout eq_refl) in *. destruct Hi as (K&Hn&Hd&HL&Hp&Hk&_).
    destruct Hstep as (_&->&->&->). by eapply (accounted_quiet _ _ _ K).
Qed.

(** The loss of the connection leaves the program, and its block as it began. *)
Lemma accounted_cut n due p b :
  informed R Q H (abs db.(tables)) n due (MkSession p (Some b)) →
  accounted R Q H n due db db (MkSession p (Some (cut b))) Silent.
Proof using Hl.
  intros (K&Hn&Hd&HL&Hp&Hk&Hb). eapply (accounted_quiet _ _ _ K); [done | done | done | done | done | done |].
  intros ? [= <-]. destruct (Hb b eq_refl). by split.
Qed.
End step.

(** ** Systems *)

(** What a server's tables need for sessions to start on them: every entry has its
    transaction, and the sequence of entries is past them all.  Concurrent sessions
    commit entries out of the order of their numbers, so that nothing is said of
    that order. *)
Record sound_db (db : DB) : Prop := {
  so_linked : linked db.(tables);
  so_seq : ∀ e, e ∈ db.(tables).(entries) → e.(er_id) <= db.(entries_seq) }.

Lemma db_ok_sound db : db_ok db → sound_db db.
Proof. intros Hok. split; [by apply db_ok_linked | apply Hok]. Qed.

(** The blocks that session [p] commits in a trace. *)
Fixpoint commits_of {A} (p : nat) (tr : list (nat * effect A)) : nat :=
  match tr with
  | [] => 0
  | (q, ev) :: tr => (if decide (q = p) then commits ev else 0) + commits_of p tr
  end.

Section system.
Context {A : Type} (R : nat → ledger → request → Prop) (HR : ∀ p, well_requested (R p))
  (Q : nat → known → A → Prop) (HQ : ∀ p, lasting (Q p)).
Set Default Proof Using "Type*".

(** [c p] is the number of blocks that session [p] has committed, [due p] the movement
    whose line it owes, and [H] holds of the ledgers that have been. *)
Record all_informed (c : nat → nat) (due : nat → option UUID) (H : Tables → Prop) (y : system A) : Prop := {
  ai_consistent : consistent y;
  ai_sessions : ∀ p s, y.(y_sessions) !! p = Some s → informed (R p) (Q p) H (abs y.(y_db).(tables)) (c p) (due p) s;
  ai_now : H y.(y_db).(tables);
  ai_inv : ledger_inv (abs y.(y_db).(tables));
  ai_linked : linked y.(y_db).(tables) }.

Lemma step_informed c due H faulty (y y' : system A) p ev :
  all_informed c due H y → step faulty y (p, ev) y' →
  ∃ due', all_informed (λ q, (if decide (p = q) then commits ev else 0) + c q)%nat
            (λ q, if decide (p = q) then due' else due q)
            (λ t, H t ∨ t = y'.(y_db).(tables)) y' ∧
    due_step (R p) (due p) (abs y.(y_db).(tables)) ev due' (abs y'.(y_db).(tables)).
Proof.
  intros [Hc Hs Hnow Hinv Hl] Hst. pose proof (step_consistent _ _ _ _ Hc Hst) as [Hc' _].
  assert (Hacc : ∃ db ss db' s', y = MkSystem db ss ∧ y' = MkSystem db' (<[p:=s']> ss) ∧
                 accounted (R p) (Q p) H (c p) (due p) db db' s' ev).
  { inversion Hst as [db ss p' s db' s' ev' Hp Hss|db ss p' prg b Hp _ _]; subst; simpl in *.
    - exists db, ss, db', s'. split; [done |]. split; [done |].
      apply (session_accounted (R p) (HR p) (Q p) H (free ss p) faulty db Hinv Hl Hnow (c p) (due p) s);
        [by apply (cs_session _ Hc p) | done | by apply Hs].
    - eexists db, ss, db, _. split; [done |]. split; [done |]. by apply accounted_cut, (Hs p). }
  destruct Hacc as (db&ss&db'&s'&->&->&Hl'&due'&Hb&Hi'). simpl in *.
  exists due'. split; [|done]. pose proof (book_step_rely _ _ _ _ (HR p) (due_step_book _ _ _ _ _ _ Hb)) as Hrely.
  split; simpl; [done | | by right | by apply Hrely | done].
  intros q s2 [(<-&<-&_)|[Hne Hq]]%list_lookup_insert_Some;
    [rewrite !decide_True by done; apply Hi'; [by left | by right] |].
  rewrite !decide_False by done. eapply informed_rely; [by left | done | by apply Hs].
Qed.

Lemma all_informed_ext c c' due (H H' : Tables → Prop) y :
  (∀ p, c p = c' p) → (∀ t, H t → H' t) → all_informed c due H y → all_informed c' due H' y.
Proof.
  intros Hc HH [H1 H2 H3 H4 H5]. split; [done | | auto | done | done].
  intros p s Hp. rewrite <-Hc. by eapply informed_rely, H2.
Qed.

(** The committed tables of the moments of an execution, and their ledgers. *)
Definition was_at (y : system A) (tr : list (nat * effect A)) (y' : system A) (t : Tables) : Prop :=
  ∃ tr1 y1 tr2, tr = tr1 ++ tr2 ∧ execution y tr1 y1 ∧ execution y1 tr2 y' ∧ t = y1.(y_db).(tables).

Definition was (y : system A) (tr : list (nat * effect A)) (y' : system A) : ledger → Prop := past (was_at y tr y').

Lemma was_start y tr y' : execution y tr y' → was_at y tr y' y.(y_db).(tables).
Proof. intros Hx. exists [], y, tr. split_and!; [done | constructor | done | done]. Qed.

Lemma was_step faulty y l y2 tr y' t : step faulty y l y2 → was_at y2 tr y' t → was_at y (l :: tr) y' t.
Proof.
  intros Hst (tr1&y1&tr2&->&H1&H2&->). exists (l :: tr1), y1, tr2. split_and!; try done. by eapply execution_step.
Qed.

Lemma execution_books c due H (y y' : system A) tr :
  all_informed c due H y → execution y tr y' →
  (∃ due', all_informed (λ p, commits_of p tr + c p)%nat due' (λ t, H t ∨ was_at y tr y' t) y') ∧
  due_books R due (abs y.(y_db).(tables)) tr (abs y'.(y_db).(tables)).
Proof.
  intros Hy Hx. revert c due H Hy.
  induction Hx as [y|faulty y1 [p ev] y2 tr y3 Hst Hx IH]; intros c due H Hy.
  { split; [|constructor]. exists due. by eapply all_informed_ext, Hy; [|left]. }
  destruct (step_informed _ _ _ _ _ _ _ _ Hy Hst) as (d&Hy2&Hb). destruct (IH _ _ _ Hy2) as [[due' Hy3] Hbs].
  split.
  - exists due'. eapply all_informed_ext, Hy3; [intros q; simpl; lia |].
    intros L [[?| ->]|?]; [by left | |]; right; eapply was_step; [done | by apply was_start | done | done].
  - eapply due_books_cons; [| |exact Hbs]; simpl; [by rewrite decide_True | intros q Hq; by rewrite decide_False].
Qed.

(** Programs that keep the discipline, move what they request and answer for it. *)
Record well_behaved (ms : list (prog A)) : Prop := {
  wb_stays : Forall stays ms;
  wb_knows p m t : ms !! p = Some m → knows (R p) (Known (abs t) 0 (λ _ _, False) (λ t', t' = t) None) m (Q p) }.

Lemma start_informed db ms :
  well_behaved ms → sound_db db → ledger_inv (abs db.(tables)) → all_informed (λ _, 0%nat) (λ _, None) (λ t, t = db.(tables)) (start_system db ms).
Proof.
  intros [Hst Hk] Hok Hinv.
  split; [apply start_consistent; [done | apply Hok] | | done | done | apply Hok].
  intros p s Hs. unfold start_system in Hs. simpl in Hs. rewrite list_lookup_fmap in Hs.
  apply fmap_Some in Hs as (m&Hm&->). exists (Known (abs db.(tables)) 0 (λ _ _, False) (λ t, t = db.(tables)) None).
  split; [done |]. split; [done |]. split; [done |]. split; [done |]. split; [by apply Hk | done].
Qed.

Lemma start_due_books db ms tr y :
  well_behaved ms → sound_db db → ledger_inv (abs db.(tables)) → execution (start_system db ms) tr y →
  due_books R (λ _, None) (abs db.(tables)) tr (abs y.(y_db).(tables)) ∧ ledger_inv (abs y.(y_db).(tables)).
Proof.
  intros Hms Hok Hinv Hx.
  destruct (execution_books _ _ _ _ _ _ (start_informed db ms Hms Hok Hinv) Hx) as [[due' Hy] Hb].
  split; [done | apply Hy].
Qed.

Lemma start_books db ms tr y :
  well_behaved ms → sound_db db → ledger_inv (abs db.(tables)) → execution (start_system db ms) tr y →
  books R (abs db.(tables)) tr (abs y.(y_db).(tables)) ∧ ledger_inv (abs y.(y_db).(tables)).
Proof.
  intros Hms Hok Hinv Hx. destruct (start_due_books _ _ _ _ Hms Hok Hinv Hx) as [Hb ?].
  split; [by eapply due_books_books | done].
Qed.

(** The books from a moment on. *)
Lemma moment_books db ms tr1 y1 tr2 y :
  well_behaved ms → sound_db db → ledger_inv (abs db.(tables)) →
  execution (start_system db ms) tr1 y1 → execution y1 tr2 y →
  books R (abs y1.(y_db).(tables)) tr2 (abs y.(y_db).(tables)).
Proof.
  intros Hms Hok Hinv H1 H2.
  destruct (execution_books _ _ _ _ _ _ (start_informed db ms Hms Hok Hinv) H1) as [[due Hy1] _].
  destruct (execution_books _ _ _ _ _ _ Hy1 H2) as [_ Hb]. by eapply due_books_books.
Qed.

(** The ledger of a moment only grows until the end. *)
Lemma start_was db ms tr y L :
  well_behaved ms → sound_db db → ledger_inv (abs db.(tables)) → was (start_system db ms) tr y L →
  rely L (abs y.(y_db).(tables)).
Proof.
  intros Hms Hok Hinv (t&(tr1&y1&tr2&->&H1&H2&->)&->). by eapply books_rely, moment_books.
Qed.

(** The tables that an execution leaves are such that sessions can start on them. *)
Lemma start_sound db ms tr y :
  well_behaved ms → sound_db db → ledger_inv (abs db.(tables)) → execution (start_system db ms) tr y →
  sound_db y.(y_db).
Proof.
  intros Hms Hok Hinv Hx.
  destruct (execution_books _ _ _ _ _ _ (start_informed db ms Hms Hok Hinv) Hx) as [[? [Hc _ _ _ Hl]] _].
  split; [done | apply Hc].
Qed.

(** What a session that has finished answers. *)
Lemma start_answers db ms tr y p s a :
  well_behaved ms → sound_db db → ledger_inv (abs db.(tables)) → execution (start_system db ms) tr y →
  y.(y_sessions) !! p = Some s → finished s.(s_prog) = Some a →
  ∃ K, K.(kn_ledger) = abs y.(y_db).(tables) ∧ K.(kn_moved) = commits_of p tr ∧
    (∀ t, K.(kn_moments) t → was_at (start_system db ms) tr y t) ∧ Q p K a.
Proof.
  intros Hms Hok Hinv Hx Hp Ha.
  destruct (execution_books _ _ _ _ _ _ (start_informed db ms Hms Hok Hinv) Hx) as [[due Hy] _].
  pose proof (ai_now _ _ _ _ Hy) as Hnow.
  destruct (ai_sessions _ _ _ _ Hy p s Hp) as (K&Hn&_&HL&Hpast&Hk&_). destruct s as [[] bo]; try done. injection Ha as ->.
  assert (Hwas : ∀ t, t = tables db ∨ was_at (start_system db ms) tr y t → was_at (start_system db ms) tr y t).
  { intros L [->|?]; [by apply (was_start (start_system db ms)) | done]. }
  exists (at_tables y.(y_db).(tables) K). split; [done |]. split; [simpl; rewrite Hn; lia |].
  split; [intros L [->|?]; apply Hwas; [exact Hnow | by apply Hpast] |]. by eapply HQ, Hk; apply at_tables_still.
Qed.
End system.
