(* ===== verification/Concurrent.v ===== *)
(** * The service under concurrency

    Any number of sessions carry out calls of the service on one server, their
    calls to the database interleaved in any way and failing at any time.  The
    committed books are those of the committed movements one after the other; the
    invariant of the ledger holds at every moment; no schedule deadlocks, and every
    call is answered. *)

From S2P Require Import Prelude GoStd Decimal Money Uuid Ledger Schema Pgx Store Service LedgerSpec LedgerFacts StorerSpec ServiceSpec Numeric SchemaFacts StoreBlocks StoreRefines Guarantee Clients Migrations Progress Prog Machine Locking Frames Serial Liveness Solo Knowledge Answers Books Scheduler Correctness.
From stdpp Require Import options.
Import Ledger Schema LedgerSpec Migrations.
Open Scope Z_scope.

(** ** The system *)

(** One session for each call, on one server. *)
Definition service_system (db : DB) (cs : list call) : system unit := start_system db (do_call (M:=prog) <$> cs).

Lemma seed_db_sound now : sound_db (seed_db now).
Proof. apply db_ok_sound, seed_db_ok. Qed.

(** What the calls request. *)
Definition asked (cs : list call) (p : nat) (L : ledger) (rq : request) : Prop :=
  ∃ c, cs !! p = Some c ∧ requested c L rq.

Lemma asked_well_requested cs p : well_requested (asked cs p).
Proof. intros L rq (c&_&Hrq). by eapply requested_well_formed. Qed.

Lemma service_stays cs : Forall stays (do_call (M:=prog) <$> cs).
Proof. apply Forall_fmap, Forall_forall. intros c _. apply stays_call. Qed.

Lemma service_consistent db cs : sound_db db → consistent (service_system db cs).
Proof. intros Hok. apply start_consistent; [apply service_stays | apply Hok]. Qed.

Lemma service_well_behaved cs :
  Forall proper_call cs → well_behaved (asked cs) (λ _ _ _, True) (do_call (M:=prog) <$> cs).
Proof.
  intros Hcs. split; [apply service_stays |]. intros p m t Hm. rewrite list_lookup_fmap in Hm.
  apply fmap_Some in Hm as (c&Hc&->). eapply knows_weaken; [|apply knows_call; [by eapply Forall_lookup_1 | done | by exists t]].
  intros L' rq Hrq. by exists c.
Qed.

(** ** The books *)

(** whatever the interleaving of the sessions' database calls and whatever
    fails, the books are at every moment those of the committed movements, one
    after the other in the order of their commits, each one that its session's
    call requested and that the ledger of that moment allowed, with only accounts
    opened and audit lines written in between; and the ledger is correct: balances
    agree with the journal, no user account is negative, no money is made or
    lost. *)
Theorem concurrent_books db cs tr y :
  Forall proper_call cs → sound_db db → ledger_inv (abs db.(tables)) →
  execution (service_system db cs) tr y →
  books (asked cs) (abs db.(tables)) tr (abs y.(y_db).(tables)) ∧
  ledger_inv (abs y.(y_db).(tables)) ∧ total (abs y.(y_db).(tables)) = 0.
Proof.
  intros Hcs Hok Hinv Hx.
  destruct (start_books _ (asked_well_requested cs) _ (λ _ _ _ _ _ _, I) db _ tr y (service_well_behaved cs Hcs) Hok Hinv Hx).
  split_and!; [done | done | by apply ledger_inv_total].
Qed.

(** Two transfers in opposite directions, their calls alternating. *)
Definition opposite_calls : list call :=
  [CallTransfer Alice Bob (Money.of_units 2500) "k1" "r1";
   CallTransfer Bob Alice (Money.of_units 500) "k2" "r2"].

Definition alternating : list nat := mjoin (replicate 32 [0%nat; 1%nat]).

Definition opposite_run : list (nat * effect unit) * system unit :=
  schedule demo_env 0 alternating (service_system (seed_db 0) opposite_calls).

Lemma opposite_run_execution :
  execution (service_system (seed_db 0) opposite_calls) opposite_run.1 opposite_run.2.
Proof. apply schedule_execution. Qed.

Example opposite_run_outcome :
  map (λ s, finished s.(s_prog)) opposite_run.2.(y_sessions) = [Some tt; Some tt] ∧
  omap (λ l : nat * effect unit, match l.2 with Commits _ _ => Some l.1 | _ => None end) opposite_run.1
    = [0%nat; 1%nat] ∧
  units_of Alice (abs opposite_run.2.(y_db).(tables)) = 100000000 - 2500 + 500 ∧
  units_of Bob (abs opposite_run.2.(y_db).(tables)) = 100000000 + 2500 - 500.
Proof. vm_compute. done. Qed.

Lemma concurrent_books_witness :
  execution (service_system (seed_db 0) opposite_calls) opposite_run.1 opposite_run.2 ∧
  books (asked opposite_calls) seed_ledger opposite_run.1 (abs opposite_run.2.(y_db).(tables)) ∧
  ledger_inv (abs opposite_run.2.(y_db).(tables)) ∧ total (abs opposite_run.2.(y_db).(tables)) = 0.
Proof.
  split; [exact opposite_run_execution |]. rewrite <-(seed_abs 0).
  apply (concurrent_books (seed_db 0) opposite_calls opposite_run.1 opposite_run.2).
  - repeat constructor; by left.
  - apply seed_db_sound.
  - rewrite seed_abs. apply seed_ledger_inv.
  - exact opposite_run_execution.
Defined.

(** ** The blocks are serializable *)

(** READ COMMITTED with row locks is enough: the committed tables of any
    execution are those of the committed blocks run one at a time, each from its
    begin to its commit with nothing in between, in the order of the commits. *)
Theorem blocks_serializable db cs tr y :
  sound_db db → execution (service_system db cs) tr y →
  serial db.(tables) tr y.(y_db).(tables).
Proof. intros Hok Hx. by apply (execution_consistent _ _ _ (service_consistent db cs Hok)). Qed.

Lemma blocks_serializable_witness :
  serial (seed_db 0).(tables) opposite_run.1 opposite_run.2.(y_db).(tables).
Proof.
  apply (blocks_serializable (seed_db 0) opposite_calls); [apply seed_db_sound | exact opposite_run_execution].
Defined.

(** ** Every call is answered *)

(** no schedule of the calls, whatever fails, deadlocks or runs for ever:
    until every call has its answer, some session can make its next database call
    without failing, and whichever session does so, the end comes closer. *)
Theorem every_call_answered db cs : sound_db db → inevitably all_finished (service_system db cs).
Proof. intros Hok. by apply consistent_answers, service_consistent. Qed.

Lemma every_call_answered_witness :
  inevitably all_finished (service_system (seed_db 0) opposite_calls).
Proof. apply (every_call_answered (seed_db 0) opposite_calls), seed_db_sound. Defined.

(** ** The lock discipline *)

(** C15: every call of the service and of the HTTP layer keeps the lock
    discipline: a block starts with one locking read of its accounts in the order
    of their text, goes on only if it found them all, writes and references only
    locked rows, inserts its transaction row after the balances and its entries
    last, and is committed or rolled back before the call returns. *)
Theorem calls_keep_discipline c : follows Outside (do_call (M:=prog) c) (λ ph _, ph = Outside).
Proof. apply stays_call. Qed.
