(* ===== verification/Http.v ===== *)
(** * internal/httpapi/handlers.go

    Every handler of the API, over any monad with the service's [Storer], the
    queries the handlers make themselves ([queryer]) and the Go runtime.  A
    request is what [net/http] hands over: canonical headers, the decoded query
    string, the [{id}] segment of the path, and the body as the syntax tree of
    its first JSON value, or none when the text is not JSON.  The decoding of
    that tree into the body structs follows [encoding/json]. *)

From Stdlib Require Import Ascii.
From S2P Require Import Prelude GoStd Decimal Money Uuid Json Ledger Pgx Store Service.
From stdpp Require Import options.
Import Ledger.
Open Scope Z_scope.

Module Http.

(** ** JSON values *)

Abbreviation json := Json.json.

(** [bytes.EqualFold] against an ASCII name: letters match in both cases, and
    the two non-ASCII characters that fold to [s] and [k] match them. *)
Fixpoint equal_fold (key name : bytes) : bool :=
  match name with
  | [] => match key with [] => true | _ => false end
  | n :: name' =>
      match key with
      | c :: key' =>
          if bool_decide (Uuid.to_lower c = Uuid.to_lower n) then equal_fold key' name'
          else
            match c, key' with
            | "197"%char, "191"%char :: key'' =>
                bool_decide (Uuid.to_lower n = "s"%char) && equal_fold key'' name'
            | "226"%char, "132"%char :: "170"%char :: key'' =>
                bool_decide (Uuid.to_lower n = "k"%char) && equal_fold key'' name'
            | _, _ => false
            end
      | [] => false
      end
  end.

Definition type_error : error := Opaque "json: cannot unmarshal".

(** Storing a value into a field: a string takes a JSON string and ignores null; a
    [money.Money] is an [Unmarshaler] and is handed any value's text. *)
Definition store_string (v : json) (old : string) : result error string :=
  match v with
  | Json.JNull => Ok old
  | Json.JString _ s => Ok s
  | _ => Err type_error
  end.

Definition store_money (v : json) : result error Money.Money := Money.UnmarshalJSON (Json.raw_text v).

(** Decoding into a struct: null leaves it alone, an object stores its members in
    order into the fields they name, anything else is an error.  [field] is given
    the name of a field and the struct so far. *)
Fixpoint store_members {S} (fields : list (string * (json → S → result error S)))
    (members : list (string * json)) (s : S) : result error S :=
  match members with
  | [] => Ok s
  | (key, v) :: rest =>
      match list_find (λ f, equal_fold (s2b key) (s2b f.1) = true) fields with
      | None => store_members fields rest s
      | Some (_, (_, store)) =>
          let^ s' := store v s in store_members fields rest s'
      end
  end.

Definition Decode {S} (fields : list (string * (json → S → result error S))) (body : option json) (zero : S)
  : result error S :=
  match body with
  | None => Err (Opaque "invalid character")
  | Some Json.JNull => Ok zero
  | Some (Json.JObject _ members) => store_members fields members zero
  | Some _ => Err type_error
  end.

(** ** Requests and responses *)

Record http_request := MkRequest {
  req_Method : string;
  req_Path : string;
  req_Header : list (string * string);
  req_Query : list (string * string);
  req_PathID : string;
  req_Body : option json }.

(** [Header.Get] and [Values.Get]: the first value, or the empty string. *)
Definition get_first (k : string) (l : list (string * string)) : string :=
  match list_find (λ p, p.1 = k) l with Some (_, p) => p.2 | None => "" end.

Inductive resp_body :=
| RError (code : string) (message : option string)
| RAccount (a : Account)
| RAccounts (l : list Account)
| RTransaction (t : Transaction)
| RTransactions (l : list Transaction)
| RAudit (l : list AuditEntry).

Record response := MkResponse { resp_status : Z; resp_body_ : resp_body }.

Definition StatusOK : Z := 200.
Definition StatusCreated : Z := 201.
Definition StatusBadRequest : Z := 400.
Definition StatusNotFound : Z := 404.
Definition StatusConflict : Z := 409.
Definition StatusUnprocessableEntity : Z := 422.
Definition StatusInternalServerError : Z := 500.

Definition writeJSON (status : Z) (v : resp_body) : response := MkResponse status v.
Definition writeError (status : Z) (code message : string) : response :=
  writeJSON status (RError code (Some message)).

(** ** Parsing helpers *)

Definition parseUUID (s : string) : result response UUID :=
  match Uuid.Parse s with
  | Err _ => Err (writeError StatusBadRequest "bad_request" "invalid UUID in path")
  | Ok id => Ok id
  end.

Definition parseUUIDField (s field : string) : result response UUID :=
  if bool_decide (s = "") then
    Err (writeError StatusBadRequest "bad_request" (field +:+ " is required"))
  else
    match Uuid.Parse s with
    | Err _ => Err (writeError StatusBadRequest "bad_request" (field +:+ " is not a valid UUID"))
    | Ok id => Ok id
    end.

Definition parseLimit (r : http_request) (defaultVal cap : Z) : Z :=
  let raw := get_first "limit" r.(req_Query) in
  if bool_decide (raw = "") then defaultVal
  else
    match Atoi (s2b raw) with
    | Err _ => defaultVal
    | Ok n => if n <=? 0 then defaultVal else if cap <? n then cap else n
    end.

Definition parse_offset (r : http_request) : Z :=
  let raw := get_first "offset" r.(req_Query) in
  if bool_decide (raw = "") then 0
  else match Atoi (s2b raw) with Ok n => if 0 <? n then n else 0 | Err _ => 0 end.

(** [validKinds] and the conversion of an accepted text. *)
Definition validKinds (k : string) : option TransactionKind :=
  if bool_decide (k = "TRANSFER") then Some KindTransfer
  else if bool_decide (k = "REVERSAL") then Some KindReversal
  else if bool_decide (k = "DEPOSIT") then Some KindDeposit
  else if bool_decide (k = "WITHDRAWAL") then Some KindWithdrawal
  else None.

(** ** The queries the handlers make themselves *)

Class queryer (M : Type → Type) := {
  GetAccount : UUID → M (result error Account);
  ListAccounts : M (result error (list Account));
  CreateAccount : string → M (result error Account);
  ListTransactionsForAccount : UUID → Z → M (result error (list Transaction));
  ListAuditForAccount : UUID → Z → M (result error (list AuditEntry));
  ListTransactions : Store.ListTransactionsOpts → M (result error (list Transaction)) }.

(** The body structs. *)
Record transfer_body := TransferBody { tb_SrcID : string; tb_DstID : string; tb_Amount : Money.Money }.
Record deposit_body := DepositBody { db_DstID : string; db_Amount : Money.Money }.

Definition transfer_fields : list (string * (json → transfer_body → result error transfer_body)) :=
  [("src_account_id", λ v b, let^ s := store_string v b.(tb_SrcID) in Ok (TransferBody s b.(tb_DstID) b.(tb_Amount)));
   ("dst_account_id", λ v b, let^ s := store_string v b.(tb_DstID) in Ok (TransferBody b.(tb_SrcID) s b.(tb_Amount)));
   ("amount", λ v b, let^ m := store_money v in Ok (TransferBody b.(tb_SrcID) b.(tb_DstID) m))].

Definition deposit_fields : list (string * (json → deposit_body → result error deposit_body)) :=
  [("dst_account_id", λ v b, let^ s := store_string v b.(db_DstID) in Ok (DepositBody s b.(db_Amount)));
   ("amount", λ v b, let^ m := store_money v in Ok (DepositBody b.(db_DstID) m))].

Definition account_fields : list (string * (json → string → result error string)) :=
  [("name", λ v b, store_string v b)].

(** ** Handlers *)

Section handlers.
Context {M : Type → Type} `{!MRet M, !MBind M, !Service.Storer M, !queryer M, !GoRuntime M}.

Definition internalError (r : http_request) (err : error) : M response :=
  let! _ := logger_Error ("internal error " +:+ r.(req_Method) +:+ " " +:+ r.(req_Path) +:+ ": " +:+ Error err) in
  mret (writeError StatusInternalServerError "internal_error" "an internal error occurred").

Definition mapError (r : http_request) (err : error) : M response :=
  if errors_Is err ErrAccountNotFound || errors_Is err ErrTransactionNotFound
  then mret (writeError StatusNotFound "not_found" (Error err))
  else if errors_Is err ErrAlreadyReversed || errors_Is err ErrIdempotencyConflict
  then mret (writeError StatusConflict "conflict" (Error err))
  else if errors_Is err ErrInsufficientFunds || errors_Is err ErrNotReversible
          || errors_Is err ErrSelfTransfer || errors_Is err ErrSystemAccount
          || errors_Is err ErrInvalidAmount
  then mret (writeError StatusUnprocessableEntity "unprocessable" (Error err))
  else internalError r err.

Definition resolveRequestID (r : http_request) : M string :=
  let id := get_first "X-Request-Id" r.(req_Header) in
  if negb (bool_decide (id = "")) then mret id
  else
    let! u := uuid_NewV7 in
    match u with
    | Err _ => let! v4 := uuid_New in mret (Uuid.String v4)
    | Ok id => mret (Uuid.String id)
    end.

Definition listAccounts (r : http_request) : M response :=
  let! res := ListAccounts in
  match res with
  | Err err => internalError r err
  | Ok accounts => mret (writeJSON StatusOK (RAccounts accounts))
  end.

Definition createAccount (r : http_request) : M response :=
  match Decode account_fields r.(req_Body) "" with
  | Err _ => mret (writeError StatusBadRequest "bad_request" "invalid JSON body")
  | Ok name =>
      if bool_decide (name = "")
      then mret (writeError StatusBadRequest "validation_error" "name is required")
      else
        let! res := CreateAccount name in
        match res with
        | Err err => internalError r err
        | Ok account => mret (writeJSON StatusCreated (RAccount account))
        end
  end.

Definition getAccount (r : http_request) : M response :=
  match parseUUID r.(req_PathID) with
  | Err resp => mret resp
  | Ok id =>
      let! res := GetAccount id in
      match res with
      | Err err => mapError r err
      | Ok account => mret (writeJSON StatusOK (RAccount account))
      end
  end.

Definition missing_key : response :=
  writeError StatusBadRequest "missing_idempotency_key" "Idempotency-Key header is required".

Definition created (r : http_request) (res : result error (Transaction * list Entry)) : M response :=
  match res with
  | Err err => mapError r err
  | Ok (txn, _) => mret (writeJSON StatusCreated (RTransaction txn))
  end.

Definition createTransfer (r : http_request) : M response :=
  let idemKey := get_first "Idempotency-Key" r.(req_Header) in
  if bool_decide (idemKey = "") then mret missing_key
  else
    let! requestID := resolveRequestID r in
    match Decode transfer_fields r.(req_Body) (TransferBody "" "" Money.zero_value) with
    | Err _ => mret (writeError StatusBadRequest "bad_request" "invalid JSON body")
    | Ok body =>
        match parseUUIDField body.(tb_SrcID) "src_account_id" with
        | Err resp => mret resp
        | Ok srcID =>
            match parseUUIDField body.(tb_DstID) "dst_account_id" with
            | Err resp => mret resp
            | Ok dstID =>
                let! res := Service.Transfer srcID dstID body.(tb_Amount) idemKey requestID in
                created r res
            end
        end
    end.

Definition reverseTransfer (r : http_request) : M response :=
  let idemKey := get_first "Idempotency-Key" r.(req_Header) in
  if bool_decide (idemKey = "") then mret missing_key
  else
    let! requestID := resolveRequestID r in
    match parseUUID r.(req_PathID) with
    | Err resp => mret resp
    | Ok originalID =>
        let! res := Service.Reverse originalID idemKey requestID in
        created r res
    end.

Definition createDeposit (r : http_request) : M response :=
  let idemKey := get_first "Idempotency-Key" r.(req_Header) in
  if bool_decide (idemKey = "") then mret missing_key
  else
    let! requestID := resolveRequestID r in
    match Decode deposit_fields r.(req_Body) (DepositBody "" Money.zero_value) with
    | Err _ => mret (writeError StatusBadRequest "bad_request" "invalid JSON body")
    | Ok body =>
        match parseUUIDField body.(db_DstID) "dst_account_id" with
        | Err resp => mret resp
        | Ok dstID =>
            let! res := Service.Deposit dstID body.(db_Amount) idemKey requestID in
            created r res
        end
    end.

Definition listTransactions (r : http_request) : M response :=
  match parseUUID r.(req_PathID) with
  | Err resp => mret resp
  | Ok id =>
      let! res := ListTransactionsForAccount id (parseLimit r 50 200) in
      match res with
      | Err err => internalError r err
      | Ok txns => mret (writeJSON StatusOK (RTransactions txns))
      end
  end.

Definition listAllTransactions (r : http_request) : M response :=
  let limit := parseLimit r 50 200 in
  let offset := parse_offset r in
  let k := get_first "kind" r.(req_Query) in
  let list kind :=
    let! res := ListTransactions (Store.MkListOpts limit offset kind) in
    match res with
    | Err err => internalError r err
    | Ok txns => mret (writeJSON StatusOK (RTransactions txns))
    end in
  if bool_decide (k = "") then list None
  else
    match validKinds k with
    | None => mret (writeJSON StatusBadRequest (RError "invalid_kind" None))
    | Some tk => list (Some tk)
    end.

Definition listAudit (r : http_request) : M response :=
  match parseUUID r.(req_PathID) with
  | Err resp => mret resp
  | Ok id =>
      let! res := ListAuditForAccount id (parseLimit r 50 200) in
      match res with
      | Err err => internalError r err
      | Ok entries => mret (writeJSON StatusOK (RAudit entries))
      end
  end.
End handlers.

End Http.
