(* ===== verification/HttpFacts.v ===== *)
(** * The API on its service and its database

    What a status code tells the client: the documented status of each domain
    error, what 201 and 400 mean for the ledger, the bounds of the paging
    parameters. *)

From Stdlib Require Import Ascii.
From S2P Require Import Prelude GoStd Decimal Money Uuid Ledger Schema Pgx Store Service LedgerSpec LedgerFacts StorerSpec ServiceSpec Numeric SchemaFacts StoreBlocks StoreRefines Guarantee Clients Migrations Progress Correctness Json Http.
From stdpp Require Import options.
Import Ledger Schema LedgerSpec Migrations Http.
Open Scope Z_scope.

(** [*store.Store] is the handlers' [queryer]. *)
#[export] Instance Store_queryer {M : Type → Type} `{!MRet M, !MBind M, !Pgx M, !GoRuntime M} : queryer M := {
  Http.GetAccount := Store.GetAccount;
  Http.ListAccounts := Store.ListAccounts;
  Http.CreateAccount := Store.CreateAccount;
  Http.ListTransactionsForAccount := Store.ListTransactionsForAccount;
  Http.ListAuditForAccount := Store.ListAuditForAccount;
  Http.ListTransactions := Store.ListTransactions }.

(** The handlers that change the ledger, run in environment [env]. *)
Definition serve_transfer (env : Env) (r : http_request) : World → response * World :=
  pg_run (createTransfer r).
Definition serve_reverse (env : Env) (r : http_request) : World → response * World :=
  pg_run (reverseTransfer r).
Definition serve_deposit (env : Env) (r : http_request) : World → response * World :=
  pg_run (createDeposit r).

(** ** Errors *)

(** The error at the end of the chain of [%w] wrappers. *)
Fixpoint root (e : error) : error := match e with Wrapf _ e' => root e' | _ => e end.

Lemma errors_Is_root e m : errors_Is e (Sentinel m) = bool_decide (root e = Sentinel m).
Proof.
  induction e; simpl; rewrite ?orb_false_r; done.
Qed.

(** The table of the API documentation. *)
Definition documented : list (error * (Z * string)) :=
  [(ErrAccountNotFound, (404, "not_found")); (ErrTransactionNotFound, (404, "not_found"));
   (ErrAlreadyReversed, (409, "conflict")); (ErrIdempotencyConflict, (409, "conflict"));
   (ErrInsufficientFunds, (422, "unprocessable")); (ErrNotReversible, (422, "unprocessable"));
   (ErrSelfTransfer, (422, "unprocessable")); (ErrSystemAccount, (422, "unprocessable"));
   (ErrInvalidAmount, (422, "unprocessable"))].

Definition run_mapError (env : Env) (r : http_request) (e : error) : World → response * World :=
  pg_run (mapError r e).

(** C38: a domain error, however deeply wrapped, is answered with its documented
    status and code; any other error is answered with 500 and a text that reveals
    nothing of it, and is logged.  The database is not touched. *)
Theorem error_statuses env r e w :
  (∀ s st code, (s, (st, code)) ∈ documented → root e = s →
     run_mapError env r e w = (MkResponse st (RError code (Some (Error e))), w)) ∧
  ((∀ s, s ∈ documented.*1 → root e ≠ s) → ∃ w',
     run_mapError env r e w
     = (MkResponse 500 (RError "internal_error" (Some "an internal error occurred")), w') ∧
     w'.(w_db) = w.(w_db) ∧ ∃ msg, w'.(w_log) = w.(w_log) ++ [msg]).
Proof.
  unfold run_mapError, mapError, ErrAccountNotFound, ErrTransactionNotFound, ErrAlreadyReversed,
    ErrIdempotencyConflict, ErrInsufficientFunds, ErrNotReversible, ErrSelfTransfer, ErrSystemAccount,
    ErrInvalidAmount. rewrite !errors_Is_root. split.
  - intros s st code Hin Hroot. unfold documented in Hin.
    rewrite !elem_of_cons, elem_of_nil in Hin.
    destruct_or!; injection Hin as -> -> ->; by rewrite Hroot.
  - intros Hnone. rewrite !bool_decide_false by (apply Hnone; simpl; set_solver).
    eexists. split; [done |]. split; [done | by eexists].
Qed.

(** ** What 201 means *)

Lemma settles_recorded op funds rq id L t es L' :
  settles op funds rq id L (Ok (t, es)) L' → recorded t rq.(rq_key) L'.
Proof.
  intros H. inversion H as [L0 L1 _ _ Ha E1 E2|t' es' L1 _ Hst Hk E1 E2| |]; simplify_eq.
  - split; [done |]. exists (Txn rq.(rq_kind) rq.(rq_key) rq.(rq_reverses) (rq_legs rq)).
    split; [|done]. apply audited_rely in Ha as [Hev _].
    eapply lookup_weaken; [|apply Hev]. simpl. by rewrite lookup_insert, decide_True.
  - by eapply stored_recorded.
Qed.

Lemma transfer_recorded src dst m key req L t es L' :
  transfer_outcome src dst m key req L (Ok (t, es)) L' → recorded t key L'.
Proof.
  intros H. inversion H; simplify_eq; [by eapply stored_recorded |].
  match goal with Hs : settles _ _ _ _ _ _ _ |- _ => exact (settles_recorded _ _ _ _ _ _ _ _ Hs) end.
Qed.

Lemma deposit_recorded dst m key req L t es L' :
  deposit_outcome dst m key req L (Ok (t, es)) L' → recorded t key L'.
Proof.
  intros H. inversion H; simplify_eq; [by eapply stored_recorded |].
  match goal with Hs : settles _ _ _ _ _ _ _ |- _ => exact (settles_recorded _ _ _ _ _ _ _ _ Hs) end.
Qed.

Lemma reverse_recorded orig key req L t es L' :
  reverse_outcome orig key req L (Ok (t, es)) L' → recorded t key L'.
Proof.
  intros H. inversion H; simplify_eq; [by eapply stored_recorded |].
  match goal with Hs : settles _ _ _ _ _ _ _ |- _ => exact (settles_recorded _ _ _ _ _ _ _ _ Hs) end.
Qed.

(** ** Decoded amounts *)

Lemma FromString_proper s m : Money.FromString s = Ok m → Money.proper m.
Proof.
  unfold Money.FromString. destruct (Decimal.NewFromString s); [|done]. intros [= <-].
  left. apply Money.round_scaled.
Qed.

(** A property of the struct that every field store keeps holds of the result. *)
Lemma store_members_inv {S} (P : S → Prop) fields members s s' :
  (∀ i f v s1 s2, fields !! i = Some f → P s1 → f.2 v s1 = Ok s2 → P s2) →
  P s → store_members fields members s = Ok s' → P s'.
Proof.
  intros Hf. revert s. induction members as [|[key v] rest IH]; intros s Hs; simpl; [by intros [= <-] |].
  destruct (list_find _ fields) as [[i [name st]]|] eqn:Hfind; [|by apply IH].
  apply list_find_Some in Hfind as (Hi&_&_). destruct (st v s) as [s1|] eqn:E; [|done].
  apply IH. by eapply (Hf i (name, st)).
Qed.

Lemma Decode_inv {S} (P : S → Prop) fields body s s' :
  (∀ i f v s1 s2, fields !! i = Some f → P s1 → f.2 v s1 = Ok s2 → P s2) →
  P s → Decode fields body s = Ok s' → P s'.
Proof.
  intros Hf Hs. unfold Decode. destruct body as [[]|]; try done; [by intros [= <-] |].
  by apply store_members_inv.
Qed.

Lemma transfer_amount_proper body b :
  Decode transfer_fields body (TransferBody "" "" Money.zero_value) = Ok b → Money.proper b.(tb_Amount).
Proof.
  apply (Decode_inv (λ b, Money.proper b.(tb_Amount))); [|by right].
  intros [|[|[|i]]] f v s1 s2 Hi Hs; simplify_eq/=.
  - destruct (store_string v _); [|done]. by intros [= <-].
  - destruct (store_string v _); [|done]. by intros [= <-].
  - destruct (store_money v) eqn:E; [|done]. intros [= <-]. by eapply FromString_proper.
Qed.

Lemma deposit_amount_proper body b :
  Decode deposit_fields body (DepositBody "" Money.zero_value) = Ok b → Money.proper b.(db_Amount).
Proof.
  apply (Decode_inv (λ b, Money.proper b.(db_Amount))); [|by right].
  intros [|[|i]] f v s1 s2 Hi Hs; simplify_eq/=.
  - destruct (store_string v _); [|done]. by intros [= <-].
  - destruct (store_money v) eqn:E; [|done]. intros [= <-]. by eapply FromString_proper.
Qed.

(** ** The steps of a handler *)

Section serve.
Context (env : Env).

(** Neither the ids it draws nor the log touch the database. *)
Lemma resolveRequestID_db r w id w' :
  pg_run (resolveRequestID r) w = (id, w') → w'.(w_db) = w.(w_db) ∧ w'.(w_tx) = w.(w_tx).
Proof.
  unfold resolveRequestID. destruct (negb _).
  - rewrite pg_run_ret. by intros [= <- <-].
  - intros Hr. pg_step Hr. cbv [pg_run uuid_NewV7 PgM_Runtime PgM_NewV7] in Erun.
    injection Erun as <- <-. destruct (env_uuid env (w_tick w)).
    + rewrite pg_run_ret in Hr. by injection Hr as <- <-.
    + pg_step Hr. cbv [pg_run uuid_New PgM_Runtime PgM_New] in Erun. injection Erun as <- <-.
      rewrite pg_run_ret in Hr. by injection Hr as <- <-.
Qed.

Lemma resolveRequestID_idle r w id w' :
  pg_idle w → pg_run (resolveRequestID r) w = (id, w') → pg_idle w' ∧ pg_committed w' = pg_committed w.
Proof.
  intros Hw [Hdb Htx]%resolveRequestID_db. unfold pg_committed. rewrite Hdb. split; [|done].
  apply pg_idle_intro; [rewrite Hdb; apply Hw | rewrite Htx; by apply pg_idle_tx |].
  unfold pg_committed. rewrite Hdb. apply Hw.
Qed.

(** An error is never answered with a status below 404. *)
Lemma mapError_status r e w resp w' :
  pg_run (mapError r e) w = (resp, w') → 404 <= resp.(resp_status).
Proof.
  unfold mapError. repeat case_match; try (rewrite pg_run_ret; by intros [= <- _]).
  unfold internalError. intros Hr. pg_step Hr. rewrite pg_run_ret in Hr. by injection Hr as <- _.
Qed.

(** The answer to a request that reached the service. *)
Lemma created_status r res w resp w' :
  pg_run (created r res) w = (resp, w') →
  resp.(resp_status) ≠ 400 ∧
  (resp.(resp_status) = 201 → ∃ t es, res = Ok (t, es) ∧ resp.(resp_body_) = RTransaction t ∧ w' = w).
Proof.
  unfold created. destruct res as [[t es]|e].
  - rewrite pg_run_ret. intros [= <- <-]. split; [done |]. intros _. eauto.
  - intros Hst%mapError_status. split; [lia |]. lia.
Qed.
End serve.

(** What each of the three handlers that change the ledger guarantees: 400 is
    answered before the database is touched, and 201 only for a transaction that
    is in the ledger under the request's key. *)
Definition sound_reply (r : http_request) (w : World) (resp : response) (w' : World) : Prop :=
  (resp.(resp_status) = 400 → w'.(w_db) = w.(w_db)) ∧
  (resp.(resp_status) = 201 → ∃ t, resp.(resp_body_) = RTransaction t ∧
     recorded t (get_first "Idempotency-Key" r.(req_Header)) (pg_committed w')).

(** An answer given before the service is called. *)
Lemma sound_early r w w1 resp resp' w' :
  w1.(w_db) = w.(w_db) → resp.(resp_status) ≠ 201 →
  pg_run (mret resp) w1 = (resp', w') → sound_reply r w resp' w'.
Proof. intros Hdb Hst. rewrite pg_run_ret. intros [= <- <-]. by split. Qed.

(** An answer to the service's reply. *)
Lemma sound_created env r w res w1 resp w' :
  (∀ t es, res = Ok (t, es) → recorded t (get_first "Idempotency-Key" r.(req_Header)) (pg_committed w1)) →
  pg_run (created (GoRuntime0:=PgM_Runtime env) r res) w1 = (resp, w') → sound_reply r w resp w'.
Proof.
  intros Hres [H400 H201]%(created_status env). split; [done |].
  intros Hst. destruct (H201 Hst) as (t&es&->&Hb&->). exists t. eauto.
Qed.

Lemma parseUUID_status s resp : parseUUID s = Err resp → resp.(resp_status) = 400.
Proof. unfold parseUUID. case_match; [done |]. by intros [= <-]. Qed.

Lemma parseUUIDField_status s f resp : parseUUIDField s f = Err resp → resp.(resp_status) = 400.
Proof. unfold parseUUIDField. repeat case_match; try done; by intros [= <-]. Qed.

(** [POST /api/transfers]: a 400 means that the database was not touched, a
    201 that the transaction in the answer is recorded under the client's
    idempotency key, whatever failed or interfered in between. *)
Theorem transfer_reply_sound env `{!OthersOk env} r w resp w' :
  pg_idle w → serve_transfer env r w = (resp, w') → sound_reply r w resp w'.
Proof.
  intros Hw Hr. unfold serve_transfer, createTransfer in Hr.
  case_bool_decide as Hkey; [by eapply sound_early in Hr |]. pg_step Hr.
  pose proof (resolveRequestID_db env _ _ _ _ Erun) as [Hdb _].
  apply resolveRequestID_idle in Erun as [Hw0 _]; [|done].
  destruct (Decode transfer_fields _ _) as [b|] eqn:Hb; [|by eapply sound_early in Hr].
  destruct (parseUUIDField b.(tb_SrcID) _) as [srcID|e] eqn:Hsrc.
  2:{ eapply sound_early in Hr; [done | done |]. by rewrite (parseUUIDField_status _ _ _ Hsrc). }
  destruct (parseUUIDField b.(tb_DstID) _) as [dstID|e] eqn:Hdst.
  2:{ eapply sound_early in Hr; [done | done |]. by rewrite (parseUUIDField_status _ _ _ Hdst). }
  pg_step Hr. eapply sound_created; [|exact Hr]. intros t es ->.
  apply transfer_amount_proper in Hb.
  destruct (Transfer_outcome (HS:=PgM_StorerSpec env) _ _ _ _ _ w0 _ w1 Hb Hw0 Erun) as [_ Hout].
  by eapply transfer_recorded.
Qed.

(** A request of the API, for the witnesses. *)
Definition demo_request (key : string) (path : string) (body : option json) : http_request :=
  MkRequest "POST" "/api" [("Idempotency-Key", key)] [] path body.

Definition demo_transfer : option json :=
  Some (Json.JObject [] [("src_account_id", Json.JString [] "00000000-0000-0000-0000-000000000002");
                    ("DST_ACCOUNT_ID", Json.JString [] "00000000-0000-0000-0000-000000000003");
                    ("amount", Json.JString (quote :: s2b "12.5" ++ [quote]) "12.5")]).

Lemma transfer_reply_sound_witness :
  (serve_transfer busy_env (demo_request "k" "" demo_transfer) seed_world).1.(resp_status) = 201 ∧
  sound_reply (demo_request "k" "" demo_transfer) seed_world
    (serve_transfer busy_env (demo_request "k" "" demo_transfer) seed_world).1
    (serve_transfer busy_env (demo_request "k" "" demo_transfer) seed_world).2.
Proof.
  split; [by vm_compute |].
  apply (transfer_reply_sound busy_env); [apply seed_idle | apply surjective_pairing].
Defined.

(** [POST /api/deposits] gives the same guarantees. *)
Theorem deposit_reply_sound env `{!OthersOk env} r w resp w' :
  pg_idle w → serve_deposit env r w = (resp, w') → sound_reply r w resp w'.
Proof.
  intros Hw Hr. unfold serve_deposit, createDeposit in Hr.
  case_bool_decide as Hkey; [by eapply sound_early in Hr |]. pg_step Hr.
  pose proof (resolveRequestID_db env _ _ _ _ Erun) as [Hdb _].
  apply resolveRequestID_idle in Erun as [Hw0 _]; [|done].
  destruct (Decode deposit_fields _ _) as [b|] eqn:Hb; [|by eapply sound_early in Hr].
  destruct (parseUUIDField b.(db_DstID) _) as [dstID|e] eqn:Hdst.
  2:{ eapply sound_early in Hr; [done | done |]. by rewrite (parseUUIDField_status _ _ _ Hdst). }
  pg_step Hr. eapply sound_created; [|exact Hr]. intros t es ->.
  apply deposit_amount_proper in Hb.
  destruct (Deposit_outcome (HS:=PgM_StorerSpec env) _ _ _ _ w0 _ w1 Hb Hw0 Erun) as [_ Hout].
  by eapply deposit_recorded.
Qed.

Lemma deposit_reply_sound_witness :
  (serve_deposit busy_env (demo_request "k" "" demo_transfer) seed_world).1.(resp_status) = 201 ∧
  sound_reply (demo_request "k" "" demo_transfer) seed_world
    (serve_deposit busy_env (demo_request "k" "" demo_transfer) seed_world).1
    (serve_deposit busy_env (demo_request "k" "" demo_transfer) seed_world).2.
Proof.
  split; [by vm_compute |].
  apply (deposit_reply_sound busy_env); [apply seed_idle | apply surjective_pairing].
Defined.

(** [POST /api/transfers/{id}/reverse] gives the same guarantees. *)
Theorem reverse_reply_sound env `{!OthersOk env} r w resp w' :
  pg_idle w → serve_reverse env r w = (resp, w') → sound_reply r w resp w'.
Proof.
  intros Hw Hr. unfold serve_reverse, reverseTransfer in Hr.
  case_bool_decide as Hkey; [by eapply sound_early in Hr |]. pg_step Hr.
  pose proof (resolveRequestID_db env _ _ _ _ Erun) as [Hdb _].
  apply resolveRequestID_idle in Erun as [Hw0 _]; [|done].
  destruct (parseUUID _) as [id|e] eqn:Hid.
  2:{ eapply sound_early in Hr; [done | done |]. by rewrite (parseUUID_status _ _ Hid). }
  pg_step Hr. eapply sound_created; [|exact Hr]. intros t es ->.
  destruct (Reverse_outcome (HS:=PgM_StorerSpec env) _ _ _ w0 _ w1 Hw0 Erun) as [_ Hout].
  by eapply reverse_recorded.
Qed.

Lemma reverse_reply_sound_witness :
  let r := demo_request "k2" (Uuid.String (demo_uuid 1)) None in
  (serve_reverse demo_env r demo_w1).1.(resp_status) = 201 ∧
  sound_reply r demo_w1 (serve_reverse demo_env r demo_w1).1 (serve_reverse demo_env r demo_w1).2.
Proof.
  split; [by vm_compute |].
  apply (reverse_reply_sound demo_env); [apply demo_w1_idle | apply surjective_pairing].
Defined.

(** ** Paging *)

Lemma Atoi_nat_String n : 0 <= n < 2 ^ 63 → Atoi (nat_String n) = Ok n.
Proof.
  intros Hn. unfold Atoi, ParseInt.
  rewrite split_sign_digits by (by apply nat_String_digits; lia).
  destruct (nat_String n) as [|c s] eqn:E; [by apply nat_String_nonempty in E |]. rewrite <-E.
  rewrite (Decimal.parse_uint_ok _ 0 _ n) by (try apply parse_nat_String; lia).
  rewrite (proj2 (Z.leb_gt _ _)) by lia. done.
Qed.

(** the paging parameters are always in range: the limit is between 1 and
    200 and the offset is not negative, whatever the query string says; a limit
    written in decimal is used as it is up to the cap, and anything else falls
    back to 50. *)
Theorem paging_in_range r :
  1 <= parseLimit r 50 200 <= 200 ∧ 0 <= parse_offset r ∧
  (∀ n, get_first "limit" r.(req_Query) = b2s (nat_String n) → 0 < n < 2 ^ 63 →
     parseLimit r 50 200 = Z.min n 200) ∧
  (∀ e, Atoi (s2b (get_first "limit" r.(req_Query))) = Err e → parseLimit r 50 200 = 50).
Proof.
  unfold parseLimit, parse_offset. split_and!.
  - repeat case_match; lia.
  - repeat case_match; lia.
  - repeat case_match; lia.
  - intros n -> Hn. case_bool_decide as He.
    { apply (f_equal s2b) in He. rewrite s2b_b2s in He. by apply nat_String_nonempty in He. }
    rewrite s2b_b2s, Atoi_nat_String by lia. repeat case_match; lia.
  - intros e ->. by case_bool_decide.
Qed.
