(* ===== verification/Mux.v ===== *)
(** * net/http: ServeMux

    The patterns of a [ServeMux] and how a request finds its handler: the path is
    cleaned, a literal segment is preferred to a wildcard and a wildcard to a
    trailing slash, [GET] patterns also serve [HEAD], a path that lacks only its
    trailing slash or is not clean is redirected, and a path that matches for other
    methods only is refused with 405. *)

From Stdlib Require Import Ascii.
From S2P Require Import Prelude GoStd Uuid.
From stdpp Require Import options.

Module Mux.

(** ** Text *)

Definition slash : ascii := "/"%char.

(** The parts of a text between slashes. *)
Fixpoint split_slash (s : bytes) : list bytes :=
  match s with
  | [] => [[]]
  | c :: s' =>
      if decide (c = slash) then [] :: split_slash s'
      else match split_slash s' with [] => [[c]] | p :: ps => (c :: p) :: ps end
  end.

Definition hex_val (c : ascii) : option N :=
  let v := Uuid.xvalues c in if decide (v = 255%N) then None else Some v.

(** [url.PathUnescape]; [pathUnescape] keeps a malformed text. *)
Fixpoint unescape (s : bytes) : option bytes :=
  match s with
  | [] => Some []
  | c :: s1 =>
      if decide (c = "%"%char) then
        match s1 with
        | h :: l :: s2 =>
            match hex_val h, hex_val l with
            | Some a, Some b => (λ r, ascii_of_N (16 * a + b) :: r) <$> unescape s2
            | _, _ => None
            end
        | _ => None
        end
      else (λ r, c :: r) <$> unescape s1
  end.

Definition pathUnescape (s : bytes) : bytes := default s (unescape s).

(** ** Patterns *)

(** [{$}] is the literal segment ["/"], a trailing slash a nameless [Multi]. *)
Inductive segment := Lit (s : bytes) | Wild (name : bytes) | Multi (name : bytes).

#[global] Instance segment_eq_dec : EqDecision segment.
Proof. solve_decision. Defined.

Record pattern := MkPattern { pat_method : string; pat_segments : list segment }.

Definition parse_segment (last : bool) (s : bytes) : segment :=
  match s with
  | [] => Multi []
  | "{"%char :: s' =>
      let name := take (length s' - 1) s' in
      if decide (name = ["$"%char]) then Lit [slash]
      else if decide (drop (length name - 3) name = s2b "...") then Multi (take (length name - 3) name)
      else Wild name
  | _ => Lit (pathUnescape s)
  end.

Fixpoint parse_segments (parts : list bytes) : list segment :=
  match parts with
  | [] => []
  | p :: ps => parse_segment (bool_decide (ps = [])) p :: parse_segments ps
  end.

(** The text up to the first space and what follows it. *)
Fixpoint cut_space (s : bytes) : option (bytes * bytes) :=
  match s with
  | [] => None
  | c :: s' => if decide (c = " "%char) then Some ([], s') else (λ p, (c :: p.1, p.2)) <$> cut_space s'
  end.

(** [parsePattern], of the well-formed patterns without host: ["METHOD /path"]. *)
Definition parsePattern (s : string) : pattern :=
  let b := s2b s in
  let '(method, rest) := default ([], b) (cut_space b) in
  MkPattern (b2s method) (parse_segments (drop 1 (split_slash rest))).

(** ** Paths *)

(** [path.Clean] of a rooted path, on its parts. *)
Fixpoint clean_parts (stack parts : list bytes) : list bytes :=
  match parts with
  | [] => reverse stack
  | p :: ps =>
      if decide (p = [] ∨ p = s2b ".") then clean_parts stack ps
      else if decide (p = s2b "..") then clean_parts (drop 1 stack) ps
      else clean_parts (p :: stack) ps
  end.

Definition join_slash (parts : list bytes) : bytes := mjoin ((λ p, slash :: p) <$> parts).

Definition cleanPath (p : bytes) : bytes :=
  match p with
  | [] => [slash]
  | _ =>
      let p := if decide (head p = Some slash) then p else slash :: p in
      let np := join_slash (clean_parts [] (split_slash p)) in
      if decide (np = []) then [slash]
      else if decide (last p = Some slash) then np ++ [slash] else np
  end.

(** The segments of a clean path; a final slash is a segment of its own. *)
Fixpoint path_segments (parts : list bytes) : list bytes :=
  match parts with
  | [] => []
  | [[]] => [[slash]]
  | p :: ps => pathUnescape p :: path_segments ps
  end.

Definition segments_of (path : bytes) : list bytes := path_segments (drop 1 (split_slash path)).

(** ** Matching *)

Section mux.
Context {H : Type}.

(** The patterns of a node of the routing tree, each with what is left of it, its
    method, the number of its segments and its handler. *)
Record leaf := MkLeaf { lf_pattern : pattern; lf_handler : H }.
Abbreviation node := (list (list segment * leaf)).

Definition child (s : segment) (n : node) : node :=
  omap (λ x : list segment * leaf, match x.1 with
             | s' :: rest => if decide (s = s') then Some (rest, x.2) else None
             | [] => None
             end) n.

Definition wild_child (n : node) : node :=
  omap (λ x : list segment * leaf, match x.1 with Wild _ :: rest => Some (rest, x.2) | _ => None end) n.

Definition multi_child (n : node) : option leaf :=
  head (omap (λ x : list segment * leaf, match x.1 with Multi _ :: _ => Some x.2 | _ => None end) n).

Definition here (n : node) : option leaf :=
  head (omap (λ x : list segment * leaf, match x.1 with [] => Some x.2 | _ => None end) n).

(** [matchPath]: the leaf and what its wildcards matched. *)
Fixpoint matchPath (n : node) (segs : list bytes) (matches : list bytes) : option (leaf * list bytes) :=
  match segs with
  | [] => (λ l, (l, matches)) <$> here n
  | seg :: rest =>
      match matchPath (child (Lit seg) n) rest matches with
      | Some r => Some r
      | None =>
          match (if decide (seg = [slash]) then None
                 else matchPath (wild_child n) rest (matches ++ [seg])) with
          | Some r => Some r
          | None => (λ l, (l, matches)) <$> multi_child n
          end
      end
  end.

Definition mux := list leaf.

Definition Handle (pat : string) (h : H) (m : mux) : mux := m ++ [MkLeaf (parsePattern pat) h].

Definition with_method (method : string) (m : mux) : node :=
  (λ l, (l.(lf_pattern).(pat_segments), l)) <$> filter (λ l, l.(lf_pattern).(pat_method) = method) m.

Definition match_method (method : string) (segs : list bytes) (m : mux) : option (leaf * list bytes) :=
  match matchPath (with_method method m) segs [] with
  | Some r => Some r
  | None =>
      match (if decide (method = "HEAD") then matchPath (with_method "GET" m) segs [] else None) with
      | Some r => Some r
      | None => matchPath (with_method "" m) segs []
      end
  end.

Definition ends_in_slash (path : bytes) : bool := bool_decide (last path = Some slash).

Definition is_multi (s : segment) : bool := match s with Multi _ => true | _ => false end.

(** The match is not through a non-empty rest of the path. *)
Definition exactMatch (r : option (leaf * list bytes)) (path : bytes) : bool :=
  match r with
  | None => false
  | Some (l, _) =>
      let segs := l.(lf_pattern).(pat_segments) in
      if default false (is_multi <$> last segs) then
        ends_in_slash path &&
        bool_decide (length segs = length (filter (λ c, c = slash) path))
      else true
  end.

(** The methods for which some pattern matches, in order. *)
Definition methods (m : mux) : list string :=
  remove_dups ((λ l, l.(lf_pattern).(pat_method)) <$> m).

Definition matchingMethods (path : bytes) (m : mux) : list string :=
  let on p := filter (λ me, is_Some (matchPath (with_method me m) (segments_of p) [])) (methods m) in
  let ms := on path ++ (if ends_in_slash path then [] else on (path ++ [slash])) in
  merge_sort String.le (remove_dups (if decide ("GET" ∈ ms) then ms ++ ["HEAD"] else ms)).

(** [r.PathValue(name)]: the wildcards' names and what they matched. *)
Definition PathValue (l : leaf) (matches : list bytes) (name : string) : string :=
  let names := omap (λ s, match s with Wild n | Multi n => Some n | Lit _ => None end)
                 l.(lf_pattern).(pat_segments) in
  match list_find (λ p, p.1 = s2b name) (zip names matches) with
  | Some (_, (_, v)) => b2s v
  | None => ""
  end.

Inductive found :=
| FoundHandler (l : leaf) (matches : list bytes)
| FoundRedirect (path : bytes)
| FoundNotAllowed (allow : list string)
| FoundNothing.

(** [findHandler], with the decoded and the escaped form of the request's path, which
    is not cleaned for CONNECT.  A redirect gives the [Path] of the new URL. *)
Definition findHandler (m : mux) (method : string) (urlPath escapedPath : bytes) : found :=
  let path := if decide (method = "CONNECT") then escapedPath else cleanPath escapedPath in
  let r := match_method method (segments_of path) m in
  let path' := path ++ [slash] in
  if negb (exactMatch r path) && negb (ends_in_slash path) &&
     exactMatch (match_method method (segments_of path') m) path'
  then FoundRedirect (cleanPath urlPath ++ [slash])
  else if decide (path = escapedPath) then
    match r with
    | Some (l, matches) => FoundHandler l matches
    | None =>
        match matchingMethods path m with
        | [] => FoundNothing
        | allow => FoundNotAllowed allow
        end
    end
  else FoundRedirect path.
End mux.

Arguments leaf H : clear implicits.
Arguments mux H : clear implicits.
Arguments found H : clear implicits.

End Mux.
