(* ===== verification/Routes.v ===== *)
(** * The routes of the server

    [RegisterRoutes] of [internal/httpapi/handlers.go] and the mux of
    [cmd/server/main.go]: a web request is what [net/http] hands to the mux, before
    the path is matched; the static files are the file server's business and are
    answered by naming the file. *)

From Stdlib Require Import Ascii.
From S2P Require Import Prelude GoStd Decimal Money Uuid Json Ledger Pgx Store Service Http Mux.
From stdpp Require Import options.
Import Ledger Http Mux.

Module Routes.

Record web_request := MkWebRequest {
  wr_Method : string;
  wr_Path : string;
  wr_EscapedPath : bytes;
  wr_Header : list (string * string);
  wr_Query : list (string * string);
  wr_Body : bytes }.

Inductive answer :=
| Api (r : response)
| Text (status : Z) (text : string)
| File (name : string)
| MovedPermanently (path : bytes)
| MethodNotAllowed (allow : list string)
| NotFound.

(** The request as the handler of a route sees it. *)
Definition with_id (r : web_request) (id : string) : http_request :=
  MkRequest r.(wr_Method) r.(wr_Path) r.(wr_Header) r.(wr_Query) id (Json.parse r.(wr_Body)).

Section routes.
Context {M : Type → Type} `{!MRet M, !MBind M, !Service.Storer M, !queryer M, !GoRuntime M}.

Definition handler : Type := http_request → M answer.

Definition api (h : http_request → M response) : handler := λ r, let! resp := h r in mret (Api resp).

Definition RegisterRoutes (m : mux handler) : mux handler :=
  let m := Handle "GET /api/accounts" (api listAccounts) m in
  let m := Handle "POST /api/accounts" (api createAccount) m in
  let m := Handle "GET /api/accounts/{id}" (api getAccount) m in
  let m := Handle "POST /api/transfers" (api createTransfer) m in
  let m := Handle "POST /api/transfers/{id}/reverse" (api reverseTransfer) m in
  let m := Handle "POST /api/deposits" (api createDeposit) m in
  let m := Handle "GET /api/accounts/{id}/transactions" (api listTransactions) m in
  let m := Handle "GET /api/accounts/{id}/audit" (api listAudit) m in
  Handle "GET /api/transactions" (api listAllTransactions) m.

Definition healthz : handler := λ _, mret (Text 200 "ok").

(** [http.StripPrefix("/static/", http.FileServer(http.Dir("web")))]. *)
Definition static : handler := λ r,
  mret (File ("web/" +:+ b2s (drop (length (s2b "/static/")) (s2b r.(req_Path))))).

Definition index : handler := λ _, mret (File "web/index.html").

Definition server_mux : mux handler :=
  let m := Handle "GET /healthz" healthz [] in
  let m := RegisterRoutes m in
  let m := Handle "GET /static/" static m in
  Handle "GET /{$}" index m.

Definition ServeHTTP (r : web_request) : M answer :=
  match findHandler server_mux r.(wr_Method) (s2b r.(wr_Path)) r.(wr_EscapedPath) with
  | FoundHandler l matches => l.(lf_handler) (with_id r (PathValue l matches "id"))
  | FoundRedirect path => mret (MovedPermanently path)
  | FoundNotAllowed allow => mret (MethodNotAllowed allow)
  | FoundNothing => mret NotFound
  end.

(** ** The table *)

(** The API document's table: the handler of a method and of the decoded segments
    of a path, and the [{id}] it is given. *)
Definition get_account_route (segs : list bytes) : option (handler * string) :=
  match segs with
  | [] => Some (api listAccounts, "")
  | c :: rest =>
      if decide (c = [slash]) then None
      else match rest with
           | [] => Some (api getAccount, b2s c)
           | [d] => if decide (d = s2b "transactions") then Some (api listTransactions, b2s c)
                    else if decide (d = s2b "audit") then Some (api listAudit, b2s c) else None
           | _ => None
           end
  end.

Definition get_route (segs : list bytes) : option (handler * string) :=
  match segs with
  | [] => None
  | a :: rest =>
      if decide (a = s2b "healthz") then match rest with [] => Some (healthz, "") | _ => None end
      else if decide (a = s2b "api") then
        match rest with
        | [] => None
        | b :: rest' =>
            if decide (b = s2b "accounts") then get_account_route rest'
            else if decide (b = s2b "transactions")
            then match rest' with [] => Some (api listAllTransactions, "") | _ => None end
            else None
        end
      else if decide (a = s2b "static") then match rest with [] => None | _ => Some (static, "") end
      else if decide (a = [slash]) then match rest with [] => Some (index, "") | _ => None end
      else None
  end.

Definition post_route (segs : list bytes) : option (handler * string) :=
  match segs with
  | [a; b] =>
      if decide (a = s2b "api") then
        if decide (b = s2b "accounts") then Some (api createAccount, "")
        else if decide (b = s2b "transfers") then Some (api createTransfer, "")
        else if decide (b = s2b "deposits") then Some (api createDeposit, "") else None
      else None
  | [a; b; c; d] =>
      if decide (a = s2b "api" ∧ b = s2b "transfers" ∧ c ≠ [slash] ∧ d = s2b "reverse")
      then Some (api reverseTransfer, b2s c) else None
  | _ => None
  end.

Definition route (method : string) (segs : list bytes) : option (handler * string) :=
  if decide (method = "GET" ∨ method = "HEAD") then get_route segs
  else if decide (method = "POST") then post_route segs
  else None.

End routes.

End Routes.
