(* ===== verification/RoutesFacts.v ===== *)
(** * What the routes serve

    The mux finds the handler of the API's table and no other; the API answers
    through it as the handlers do. *)

From Stdlib Require Import Ascii.
From S2P Require Import Prelude GoStd Decimal Money Uuid Ledger Schema Pgx Store Service Json Http Mux Routes.
From stdpp Require Import options.
Import Ledger Http Mux Routes.

Section nodes.
Context {H : Type}.
Implicit Types n : list (list segment * leaf H).

Lemma matchPath_nil segs ms : matchPath (H:=H) [] segs ms = None.
Proof.
  revert ms. induction segs as [|s segs IH]; intros ms; [done |]. simpl. rewrite IH.
  by case_decide; [|rewrite IH].
Qed.

Lemma child_none a n : Forall (λ x, head x.1 ≠ Some (Lit a)) n → child (Lit a) n = [].
Proof.
  induction 1 as [|[[|s p] l] n Hx Hn IH]; [done | |]; csimpl in *; [exact IH |].
  rewrite decide_False by congruence. exact IH.
Qed.

Lemma child_lits a n : Forall (λ x, match x.1 with Lit b :: _ => b ≠ a | _ => True end) n → child (Lit a) n = [].
Proof.
  intros Hn. apply child_none. eapply Forall_impl; [exact Hn |]. intros [[|[b|b|b] p] l]; simpl; congruence.
Qed.

Lemma with_method_skip method (l : leaf H) (m : mux H) :
  l.(lf_pattern).(pat_method) ≠ method → with_method method (l :: m) = with_method method m.
Proof. intros Hl. unfold with_method, filter. simpl. by rewrite decide_False. Qed.

(** Nodes of literals only, of wildcards only, and of a trailing slash. *)
Lemma lit_node n seg rest ms :
  wild_child n = [] → multi_child n = None →
  matchPath n (seg :: rest) ms = matchPath (child (Lit seg) n) rest ms.
Proof.
  intros Hw Hm. cbn [matchPath]. rewrite Hw, Hm, matchPath_nil. simpl.
  destruct (matchPath _ _ _); [done |]. by case_decide.
Qed.

Lemma wild_node n seg rest ms :
  Forall (λ x, match x.1 with Lit _ :: _ => False | _ => True end) n → multi_child n = None →
  matchPath n (seg :: rest) ms =
  if decide (seg = [slash]) then None else matchPath (wild_child n) rest (ms ++ [seg]).
Proof.
  intros Hn Hm. cbn [matchPath]. rewrite child_lits, matchPath_nil, Hm.
  - case_decide; [done |]. by destruct (matchPath _ _ _).
  - eapply Forall_impl; [exact Hn |]. by intros [[|[b|b|b] p] l].
Qed.

Lemma multi_node name l seg rest ms :
  matchPath (H:=H) [([Multi name], l)] (seg :: rest) ms = Some (l, ms).
Proof. cbn [matchPath]. unfold child, wild_child. simpl. rewrite !matchPath_nil. by case_decide. Qed.

Lemma done_node l seg rest ms : matchPath (H:=H) [([], l)] (seg :: rest) ms = None.
Proof. rewrite lit_node by done. apply matchPath_nil. Qed.

(** A segment that no pattern names, and one that is a name of the table. *)
Ltac no_child :=
  rewrite child_lits
    by (repeat (apply List.Forall_cons; [first [exact I | match goal with E : _ ≠ _ |- _ => exact (not_eq_sym E) end] |]); apply List.Forall_nil);
  rewrite matchPath_nil.
Ltac to_child :=
  match goal with
  | |- context [child ?s ?n] => let c := eval vm_compute in (child s n) in change (child s n) with c
  | |- context [wild_child ?n] => let c := eval vm_compute in (wild_child n) in change (wild_child n) with c
  end.

Section get.
Context (l1 l2 l3 l4 l5 l6 l7 l8 : leaf H).

Definition get_node : list (list segment * leaf H) :=
  [([Lit (s2b "healthz")], l1); ([Lit (s2b "api"); Lit (s2b "accounts")], l2);
   ([Lit (s2b "api"); Lit (s2b "accounts"); Wild (s2b "id")], l3);
   ([Lit (s2b "api"); Lit (s2b "accounts"); Wild (s2b "id"); Lit (s2b "transactions")], l4);
   ([Lit (s2b "api"); Lit (s2b "accounts"); Wild (s2b "id"); Lit (s2b "audit")], l5);
   ([Lit (s2b "api"); Lit (s2b "transactions")], l6);
   ([Lit (s2b "static"); Multi []], l7); ([Lit [slash]], l8)].

(** Below [/api/accounts/]. *)
Definition get_account (segs : list bytes) : option (leaf H * list bytes) :=
  match segs with
  | [] => Some (l2, [])
  | c :: rest =>
      if decide (c = [slash]) then None
      else match rest with
           | [] => Some (l3, [c])
           | [d] => if decide (d = s2b "transactions") then Some (l4, [c])
                    else if decide (d = s2b "audit") then Some (l5, [c]) else None
           | _ => None
           end
  end.

Lemma get_account_ok segs :
  matchPath (child (Lit (s2b "accounts")) (child (Lit (s2b "api")) get_node)) segs [] = get_account segs.
Proof.
  to_child. destruct segs as [|c segs]; [done |]. rewrite wild_node by (done || (repeat constructor)).
  cbn [app get_account]. case_decide; [done |]. to_child. destruct segs as [|d segs]; [done |].
  rewrite lit_node by done. destruct (decide (d = s2b "transactions")) as [->|Ht].
  { to_child. destruct segs; [done | apply done_node]. }
  destruct (decide (d = s2b "audit")) as [->|Ha].
  { to_child. destruct segs; [done | apply done_node]. }
  no_child. by destruct segs.
Qed.

(** The reference table: by the first segment, then by the second. *)
Definition get_table (segs : list bytes) : option (leaf H * list bytes) :=
  match segs with
  | [] => None
  | a :: rest =>
      if decide (a = s2b "healthz") then match rest with [] => Some (l1, []) | _ => None end
      else if decide (a = s2b "api") then
        match rest with
        | [] => None
        | b :: rest' =>
            if decide (b = s2b "accounts") then get_account rest'
            else if decide (b = s2b "transactions") then match rest' with [] => Some (l6, []) | _ => None end
            else None
        end
      else if decide (a = s2b "static") then match rest with [] => None | _ => Some (l7, []) end
      else if decide (a = [slash]) then match rest with [] => Some (l8, []) | _ => None end
      else None
  end.

Lemma get_table_ok segs : matchPath get_node segs [] = get_table segs.
Proof.
  destruct segs as [|a segs]; [done |]. rewrite lit_node by done. cbn [get_table].
  destruct (decide (a = s2b "healthz")) as [->|H1].
  { to_child. destruct segs; [done | apply done_node]. }
  destruct (decide (a = s2b "api")) as [->|H2].
  { to_child. destruct segs as [|b segs]; [done |]. rewrite lit_node by done.
    destruct (decide (b = s2b "accounts")) as [->|H3]; [exact (get_account_ok segs) |].
    destruct (decide (b = s2b "transactions")) as [->|H4].
    - to_child. destruct segs; [done | apply done_node].
    - by no_child. }
  destruct (decide (a = s2b "static")) as [->|H3].
  { to_child. destruct segs; [done | apply multi_node]. }
  destruct (decide (a = [slash])) as [->|H4].
  { to_child. destruct segs; [done | apply done_node]. }
  by no_child.
Qed.
End get.

Section post.
Context (l1 l2 l3 l4 : leaf H).

Definition post_node : list (list segment * leaf H) :=
  [([Lit (s2b "api"); Lit (s2b "accounts")], l1); ([Lit (s2b "api"); Lit (s2b "transfers")], l2);
   ([Lit (s2b "api"); Lit (s2b "transfers"); Wild (s2b "id"); Lit (s2b "reverse")], l3);
   ([Lit (s2b "api"); Lit (s2b "deposits")], l4)].

Definition post_table (segs : list bytes) : option (leaf H * list bytes) :=
  match segs with
  | [a; b] =>
      if decide (a = s2b "api") then
        if decide (b = s2b "accounts") then Some (l1, [])
        else if decide (b = s2b "transfers") then Some (l2, [])
        else if decide (b = s2b "deposits") then Some (l4, []) else None
      else None
  | [a; b; c; d] =>
      if decide (a = s2b "api" ∧ b = s2b "transfers" ∧ c ≠ [slash] ∧ d = s2b "reverse")
      then Some (l3, [c]) else None
  | _ => None
  end.

Lemma post_table_ok segs : matchPath post_node segs [] = post_table segs.
Proof.
  destruct segs as [|a segs]; [done |]. rewrite lit_node by done. cbn [post_table].
  destruct (decide (a = s2b "api")) as [->|H1].
  2:{ no_child. destruct segs as [|b [|c [|d [|e segs]]]]; try done. by rewrite decide_False by (by intros [? _]). }
  to_child. destruct segs as [|b segs]; [done |]. rewrite lit_node by done.
  destruct (decide (b = s2b "accounts")) as [->|H2].
  { to_child. destruct segs as [|c [|d [|e segs]]]; [done | apply done_node | | apply done_node].
    rewrite done_node. by rewrite decide_False by (by intros (_&?&_)). }
  destruct (decide (b = s2b "deposits")) as [->|H3].
  { to_child. destruct segs as [|c [|d [|e segs]]]; [done | apply done_node | | apply done_node].
    rewrite done_node. by rewrite decide_False by (by intros (_&?&_)). }
  destruct (decide (b = s2b "transfers")) as [->|H4].
  2:{ no_child. destruct segs as [|c [|d [|e segs]]]; try done.
      by rewrite decide_False by (by intros (_&?&_)). }
  to_child. destruct segs as [|c segs]; [done |]. rewrite wild_node by (done || (repeat constructor)).
  cbn [app]. destruct (decide (c = [slash])) as [->|H5].
  { destruct segs as [|d [|e segs]]; [done | | done]. by rewrite decide_False by (by intros (_&_&?&_)). }
  to_child. destruct segs as [|d segs]; [done |]. rewrite lit_node by done.
  destruct (decide (d = s2b "reverse")) as [->|H6].
  { to_child. destruct segs; [by rewrite decide_True by done | apply done_node]. }
  no_child. destruct segs; [|done]. by rewrite decide_False by (by intros (_&_&_&?)).
Qed.
End post.
End nodes.

(** ** Paths *)

Lemma split_slash_ne s : split_slash s ≠ [].
Proof. destruct s as [|c s]; simpl; [done |]. case_decide; [done |]. by destruct (split_slash s). Qed.

Lemma split_slash_length s : length (split_slash s) = S (length (filter (λ c, c = slash) s)).
Proof.
  induction s as [|c s IH]; [done |]. simpl. rewrite filter_cons. case_decide; simpl; [by rewrite IH |].
  destruct (split_slash s) eqn:E; [by apply split_slash_ne in E |]. done.
Qed.

Lemma path_segments_length parts : length (path_segments parts) = length parts.
Proof.
  induction parts as [|p ps IH]; [done |]. destruct p as [|c p], ps as [|q ps]; simpl in *; by rewrite ?IH.
Qed.

(** A path has as many segments as slashes. *)
Lemma segments_slashes path : length (segments_of path) = length (filter (λ c, c = slash) path).
Proof.
  unfold segments_of. rewrite path_segments_length, length_drop, split_slash_length. lia.
Qed.

Lemma split_slash_snoc s : split_slash (s ++ [slash]) = split_slash s ++ [[]].
Proof.
  induction s as [|c s IH]; [done |]. simpl. rewrite IH. case_decide; [done |].
  destruct (split_slash s) eqn:E; [by apply split_slash_ne in E |]. done.
Qed.

Lemma path_segments_cons p q ps : path_segments (p :: q :: ps) = pathUnescape p :: path_segments (q :: ps).
Proof. by destruct p. Qed.

Lemma path_segments_snoc parts :
  last parts ≠ Some [] → path_segments (parts ++ [[]]) = path_segments parts ++ [[slash]].
Proof.
  induction parts as [|p ps IH]; intros Hl; [done |]. destruct ps as [|q ps]; [by destruct p |].
  rewrite path_segments_cons. cbn [app]. rewrite path_segments_cons. f_equal. exact (IH Hl).
Qed.

Lemma split_slash_last s : last (split_slash s) = Some [] → s = [] ∨ last s = Some slash.
Proof.
  induction s as [|c s IH]; [by left |]. simpl. case_decide as Hc.
  - subst c. intros Hl. right. destruct (split_slash s) as [|p ps] eqn:E; [by apply split_slash_ne in E |].
    rewrite last_cons_cons in Hl. destruct (IH Hl) as [->|?]; [done |]. rewrite last_cons. by rewrite H.
  - destruct (split_slash s) as [|p ps] eqn:E; [by apply split_slash_ne in E |].
    intros Hl. right. destruct ps as [|q ps]; [done |]. rewrite last_cons_cons in Hl, IH.
    destruct (IH Hl) as [->|Hs]; [done |]. by rewrite last_cons, Hs.
Qed.

Lemma segments_snoc path :
  head path = Some slash → last path ≠ Some slash →
  segments_of (path ++ [slash]) = segments_of path ++ [[slash]].
Proof.
  destruct path as [|c p]; [done |]. intros [= ->] Hl. unfold segments_of. simpl. rewrite !drop_0.
  rewrite split_slash_snoc. apply path_segments_snoc. intros [->|Hp]%split_slash_last; [done |].
  apply Hl. by rewrite last_cons, Hp.
Qed.

Lemma path_segments_last ps : last (path_segments (ps ++ [[]])) = Some [slash].
Proof.
  induction ps as [|p ps IH]; [done |]. destruct ps as [|q ps]; [by destruct p |]. cbn [app] in *.
  rewrite path_segments_cons. destruct (path_segments _) eqn:E; [done |]. by rewrite last_cons_cons.
Qed.

Lemma segments_last path : last path = Some slash → last (segments_of path) = Some [slash].
Proof.
  intros [p ->]%last_Some. unfold segments_of. rewrite split_slash_snoc.
  destruct (split_slash p) as [|q ps] eqn:E; [by apply split_slash_ne in E |].
  cbn [app drop]. rewrite drop_0. apply path_segments_last.
Qed.

Lemma join_slash_head ps : join_slash ps = [] ∨ head (join_slash ps) = Some slash.
Proof. destruct ps; [by left | by right]. Qed.

Lemma cleanPath_rooted p : head (cleanPath p) = Some slash.
Proof.
  unfold cleanPath. destruct p as [|c p]; [done |].
  set (q := if decide (head (c :: p) = Some slash) then c :: p else slash :: c :: p).
  case_decide as Hn; [done |].
  destruct (join_slash_head (clean_parts [] (split_slash q))) as [?|Hh]; [done |].
  case_decide; [|done]. by destruct (join_slash _).
Qed.

(** ** The mux of the server *)

Section served.
Context {M : Type → Type} `{!MRet M, !MBind M, !Service.Storer M, !queryer M, !GoRuntime M}.

Abbreviation lf p h := (MkLeaf (parsePattern p) h : leaf (handler (M:=M))).

Definition get_served : list bytes → option (leaf (handler (M:=M)) * list bytes) :=
  get_table (lf "GET /healthz" healthz) (lf "GET /api/accounts" (api listAccounts))
    (lf "GET /api/accounts/{id}" (api getAccount))
    (lf "GET /api/accounts/{id}/transactions" (api listTransactions))
    (lf "GET /api/accounts/{id}/audit" (api listAudit))
    (lf "GET /api/transactions" (api listAllTransactions))
    (lf "GET /static/" static) (lf "GET /{$}" index).

Definition post_served : list bytes → option (leaf (handler (M:=M)) * list bytes) :=
  post_table (lf "POST /api/accounts" (api createAccount)) (lf "POST /api/transfers" (api createTransfer))
    (lf "POST /api/transfers/{id}/reverse" (api reverseTransfer))
    (lf "POST /api/deposits" (api createDeposit)).

Lemma get_patterns segs : matchPath (with_method "GET" (server_mux (M:=M))) segs [] = get_served segs.
Proof. unfold get_served. rewrite <-get_table_ok. reflexivity. Qed.

Lemma post_patterns segs : matchPath (with_method "POST" (server_mux (M:=M))) segs [] = post_served segs.
Proof. unfold post_served. rewrite <-post_table_ok. reflexivity. Qed.

Lemma no_patterns method :
  method ≠ "GET" → method ≠ "POST" → with_method method (server_mux (M:=M)) = [].
Proof.
  intros HG HP.
  assert (Hf : Forall (λ l, l.(lf_pattern).(pat_method) = "GET" ∨ l.(lf_pattern).(pat_method) = "POST")
                 (server_mux (M:=M))).
  { repeat (apply List.Forall_cons; [first [by left | by right] |]). apply List.Forall_nil. }
  induction Hf as [|l m Hl Hm IH]; [done |]. rewrite with_method_skip; [exact IH |].
  destruct Hl; congruence.
Qed.

Definition served (method : string) (segs : list bytes) : option (leaf (handler (M:=M)) * list bytes) :=
  if decide (method = "GET" ∨ method = "HEAD") then get_served segs
  else if decide (method = "POST") then post_served segs
  else None.

Lemma match_method_served method segs : match_method method segs (server_mux (M:=M)) = served method segs.
Proof.
  unfold match_method, served.
  destruct (decide (method = "GET")) as [->|HG].
  { rewrite get_patterns. simpl. destruct (get_served segs); [done |]. by rewrite no_patterns, matchPath_nil by done. }
  destruct (decide (method = "POST")) as [->|HP].
  { rewrite post_patterns. simpl. destruct (post_served segs); [done |]. by rewrite no_patterns, matchPath_nil by done. }
  rewrite (no_patterns method), matchPath_nil by done.
  rewrite (no_patterns ""), matchPath_nil by done.
  destruct (decide (method = "HEAD")) as [->|HH].
  - rewrite get_patterns. simpl. by destruct (get_served segs).
  - rewrite decide_False by (by intros [?|?]). done.
Qed.

(** A match through a trailing slash is one of the static files. *)
Definition reading (method : string) : Prop := method = "GET" ∨ method = "HEAD".

Lemma served_multi method segs x :
  served method segs = Some x →
  default false (is_multi <$> last x.1.(lf_pattern).(pat_segments)) = false ∨
  reading method ∧ (∃ b rest, segs = s2b "static" :: b :: rest) ∧ length x.1.(lf_pattern).(pat_segments) = 2%nat.
Proof.
  unfold served. case_decide as Hr; [|case_decide; [|done]].
  - unfold get_served, get_table, get_account. destruct segs as [|a segs]; [done |]. intros Hx.
    repeat case_decide; subst; repeat (case_match; try done); simplify_eq;
      try by left.
    all: right; split; [done |]; split; [by do 2 eexists | done].
  - unfold post_served, post_table. intros Hx. left.
    repeat (case_match; try done); by simplify_eq.
Qed.

Lemma served_slash method segs x :
  served method (segs ++ [[slash]]) = Some x →
  segs = [] ∨ reading method ∧ ∃ rest, segs = s2b "static" :: rest.
Proof.
  unfold served. case_decide as Hr; [|case_decide; [|done]].
  - unfold get_served, get_table, get_account. intros Hx.
    destruct segs as [|a [|b [|c [|d segs]]]]; [by left | ..]; simpl in Hx; repeat case_decide;
      subst; simplify_eq; try by (right; split; [done | by eexists]).
    all: by destruct segs.
  - unfold post_served, post_table. intros Hx.
    destruct segs as [|a [|b [|c [|d segs]]]]; [by left | ..]; simpl in Hx; repeat case_decide;
      try done.
    all: try match goal with D : _ ∧ _ ∧ _ ∧ _ |- _ => by destruct D as (_&_&_&?) end.
    all: destruct segs; try done; simpl in Hx; by destruct segs.
Qed.

(** The reference tables name the handlers of the mux. *)
Definition reply_of (x : leaf (handler (M:=M)) * list bytes) : handler (M:=M) * string :=
  (x.1.(lf_handler), PathValue x.1 x.2 "id").

Ltac by_cases :=
  repeat match goal with
  | |- context [match ?l with [] => _ | _ :: _ => _ end] => is_var l; destruct l; try reflexivity
  | |- context [decide ?P] => destruct (decide P); try reflexivity
  end.

Lemma served_route method segs : reply_of <$> served method segs = route method segs.
Proof.
  unfold served, route. case_decide; [|case_decide; [|done]].
  - unfold get_served, get_table, get_account, get_route, get_account_route. by_cases.
  - unfold post_served, post_table, post_route. by_cases.
Qed.

(** ** Redirects and refusals *)

(** [/static] lacks its slash. *)
Definition static_directory (method : string) (segs : list bytes) : Prop :=
  reading method ∧ segs = [s2b "static"].

#[local] Instance static_directory_dec method segs : Decision (static_directory method segs).
Proof. unfold static_directory, reading. apply _. Defined.

Lemma served_directory method segs : static_directory method segs → served method segs = None.
Proof. intros [Hr ->]. unfold served. by rewrite decide_True. Qed.

Lemma served_static method b rest :
  reading method → served method (s2b "static" :: b :: rest) = Some (lf "GET /static/" static, []).
Proof. intros Hr. unfold served. by rewrite decide_True. Qed.

Lemma served_below method rest :
  reading method → served method (s2b "static" :: rest ++ [[slash]]) = Some (lf "GET /static/" static, []).
Proof. intros Hr. destruct rest as [|b rest]; by apply served_static. Qed.

Lemma redirected method path :
  head path = Some slash →
  negb (exactMatch (served method (segments_of path)) path) && negb (ends_in_slash path) &&
  exactMatch (served method (segments_of (path ++ [slash]))) (path ++ [slash]) =
  bool_decide (static_directory method (segments_of path)).
Proof.
  intros Hroot. destruct (ends_in_slash path) eqn:He; simpl.
  { rewrite andb_false_r. symmetry. apply bool_decide_eq_false. intros [_ Hs].
    apply bool_decide_eq_true, segments_last in He. by rewrite Hs in He. }
  apply bool_decide_eq_false in He. rewrite segments_snoc, andb_true_r by done.
  case_bool_decide as Hd.
  { rewrite served_directory by done. destruct Hd as [Hr Hs]. rewrite Hs. simpl. unfold served.
    rewrite decide_True by done. simpl. unfold ends_in_slash. rewrite last_snoc, bool_decide_true by done.
    apply bool_decide_true. rewrite <-segments_slashes, segments_snoc, Hs by done. done. }
  apply andb_false_iff. right.
  destruct (served method (segments_of path ++ [[slash]])) as [[l ms]|] eqn:Hx; [|done].
  destruct (served_slash _ _ _ Hx) as [Hs | (Hr & rest & Hs)].
  { pose proof (segments_slashes path) as Hl. rewrite Hs in Hl. destruct path as [|c p]; [done |].
    injection Hroot as ->. by rewrite filter_cons_True in Hl. }
  rewrite Hs in Hx. cbn [app] in Hx. rewrite served_below in Hx by done. injection Hx as <- <-.
  unfold exactMatch. simpl. apply andb_false_iff. right. apply bool_decide_eq_false.
  rewrite <-segments_slashes, segments_snoc, Hs by done.
  destruct rest; [by destruct Hd |]. simpl. rewrite length_app. simpl. lia.
Qed.

Definition answers_for (method : string) (segs : list bytes) : Prop :=
  is_Some (route (M:=M) method segs) ∨ static_directory method segs.

#[local] Instance answers_for_dec method segs : Decision (answers_for method segs).
Proof. unfold answers_for. apply _. Defined.

(** The [Allow] header of a refusal. *)
Definition allowed (segs : list bytes) : list string :=
  filter (λ me, answers_for me segs) ["GET"; "HEAD"; "POST"].

Abbreviation matching segs :=
  (filter (λ me, is_Some (matchPath (with_method me (server_mux (M:=M))) segs [])) ["POST"; "GET"]).

Lemma route_served method segs : is_Some (route (M:=M) method segs) ↔ is_Some (served method segs).
Proof. by rewrite <-served_route, fmap_is_Some. Qed.

Abbreviation just b s := (if (b : bool) then [s%string] else []).
Abbreviation serves method segs := (bool_decide (is_Some (served method segs))).

Lemma matching_served segs : matching segs = just (serves "POST" segs) "POST" ++ just (serves "GET" segs) "GET".
Proof.
  rewrite !filter_cons, filter_nil, get_patterns, post_patterns.
  change (post_served segs) with (served "POST" segs). change (get_served segs) with (served "GET" segs).
  repeat case_decide; repeat case_bool_decide; done.
Qed.

Lemma allow_header (p g p' g' : bool) :
  (p' → p) →
  let ms := (just p "POST" ++ just g "GET") ++ just p' "POST" ++ just g' "GET" in
  merge_sort String.le (remove_dups (if decide ("GET" ∈ ms) then ms ++ ["HEAD"] else ms)) =
  (if g || g' then ["GET"; "HEAD"] else []) ++ just p "POST".
Proof. destruct p, g, p', g'; simpl; intros Hp; first [reflexivity | by destruct Hp]. Qed.

Lemma decide_bool {A} (P : Prop) `{!Decision P} (b : bool) (x y : A) :
  (P ↔ b) → (if decide P then x else y) = if b then x else y.
Proof. intros HP. case_decide as HD; [apply HP in HD | rewrite HP in HD]; by destruct b. Qed.

Lemma allowed_served segs :
  allowed segs = (if serves "GET" segs || bool_decide (static_directory "GET" segs) then ["GET"; "HEAD"] else []) ++
                 just (serves "POST" segs) "POST".
Proof.
  assert (Ha : ∀ me, answers_for me segs ↔ serves me segs || bool_decide (static_directory me segs)).
  { intros me. unfold answers_for. by rewrite route_served, orb_True, !bool_decide_spec. }
  assert (Hh : answers_for "HEAD" segs ↔ serves "GET" segs || bool_decide (static_directory "GET" segs)).
  { rewrite Ha, !orb_True, !bool_decide_spec. unfold served, static_directory, reading.
    rewrite !decide_True by auto. split; intros [?|[_ ?]]; auto. }
  assert (Hp : answers_for "POST" segs ↔ serves "POST" segs).
  { rewrite Ha, orb_True, !bool_decide_spec. split; [intros [?|[[?|?] _]]|]; auto; done. }
  unfold allowed. rewrite !filter_cons, filter_nil.
  rewrite (decide_bool _ _ _ _ (Ha "GET")), (decide_bool _ _ _ _ Hp), (decide_bool _ _ _ _ Hh).
  destruct (_ || _), (serves "POST" segs); reflexivity.
Qed.

(** A slash added to a path serves the directory and what it served before. *)
Lemma slash_added method path :
  head path = Some slash → ends_in_slash path = false →
  is_Some (served method (segments_of (path ++ [slash]))) →
  is_Some (served method (segments_of path)) ∨ static_directory method (segments_of path).
Proof.
  intros Hroot He%bool_decide_eq_false [x Hx]. rewrite segments_snoc in Hx by done.
  destruct (served_slash _ _ _ Hx) as [Hs | (Hr & [|b rest] & Hs)].
  - apply (f_equal length) in Hs. rewrite segments_slashes in Hs. destruct path; [done |].
    injection Hroot as ->. by rewrite filter_cons_True in Hs.
  - by right.
  - left. rewrite Hs, served_static by done. by eexists.
Qed.

Lemma slash_directory method path :
  head path = Some slash → static_directory method (segments_of path) →
  ends_in_slash path = false ∧ is_Some (served method (segments_of (path ++ [slash]))).
Proof.
  intros Hroot [Hr Hs].
  assert (He : last path ≠ Some slash) by (intros Hl%segments_last; by rewrite Hs in Hl).
  split; [by apply bool_decide_eq_false |].
  rewrite segments_snoc, Hs by done. simpl. rewrite served_static by done. by eexists.
Qed.

Lemma matchingMethods_allowed path :
  head path = Some slash → matchingMethods path (server_mux (M:=M)) = allowed (segments_of path).
Proof.
  intros Hroot.
  assert (Hm : matchingMethods path (server_mux (M:=M)) =
    let ms := matching (segments_of path) ++
              (if ends_in_slash path then [] else matching (segments_of (path ++ [slash]))) in
    merge_sort String.le (remove_dups (if decide ("GET" ∈ ms) then ms ++ ["HEAD"] else ms))) by reflexivity.
  rewrite Hm, !matching_served, allowed_served. clear Hm.
  destruct (ends_in_slash path) eqn:He.
  { rewrite (bool_decide_false (static_directory _ _)).
    - exact (allow_header _ _ false false (λ x, match x with end)).
    - intros Hd. destruct (slash_directory "GET" path Hroot Hd). congruence. }
  rewrite allow_header.
  - enough (serves "GET" (segments_of path) || serves "GET" (segments_of (path ++ [slash])) =
      serves "GET" (segments_of path) || bool_decide (static_directory "GET" (segments_of path))) as -> by done.
    apply eq_bool_prop_intro. rewrite !orb_True, !bool_decide_spec. split.
    + intros [?|Hg]; [by left |]. destruct (slash_added _ _ Hroot He Hg) as [?|Hd]; [by left | by right].
    + intros [?|Hd]; [by left |]. right. by apply slash_directory.
  - rewrite !bool_decide_spec. intros Hp. destruct (slash_added _ _ Hroot He Hp) as [?|[[?|?] _]]; done.
Qed.

(** ** The dispatch *)

(** What the server answers, by the table of the API document. *)
Definition dispatch (r : web_request) : M answer :=
  let refuse allow := match allow with [] => mret NotFound | methods => mret (MethodNotAllowed methods) end in
  let path := cleanPath r.(wr_EscapedPath) in
  let segs := segments_of path in
  if decide (r.(wr_Method) = "CONNECT") then refuse (matchingMethods r.(wr_EscapedPath) (server_mux (M:=M)))
  else if decide (static_directory r.(wr_Method) segs)
  then mret (MovedPermanently (cleanPath (s2b r.(wr_Path)) ++ [slash]))
  else if decide (path ≠ r.(wr_EscapedPath)) then mret (MovedPermanently path)
  else match route r.(wr_Method) segs with
       | Some (h, id) => h (with_id r id)
       | None => refuse (allowed segs)
       end.

Lemma serves_dispatch (r : web_request) : ServeHTTP r = dispatch r.
Proof.
  unfold ServeHTTP, dispatch, findHandler. set (path := cleanPath r.(wr_EscapedPath)).
  destruct (decide (r.(wr_Method) = "CONNECT")) as [->|Hm].
  { rewrite !match_method_served. assert (Hn : ∀ segs, served "CONNECT" segs = None) by done.
    rewrite !Hn. rewrite andb_false_r, decide_True by done. by destruct (matchingMethods _ _). }
  rewrite !match_method_served, redirected by apply cleanPath_rooted.
  case_bool_decide as Hd; [by rewrite decide_True |]. rewrite (decide_False (P:=static_directory _ _)) by done.
  destruct (decide (path = _)) as [He|He]; [|by rewrite decide_True].
  rewrite (decide_False (P:=path ≠ _)) by (intros Hne; by apply Hne).
  rewrite <-served_route. destruct (served _ _) as [[l ms]|]; [done |].
  rewrite matchingMethods_allowed by apply cleanPath_rooted. simpl. by destruct (allowed _).
Qed.

(** C12: a request on a clean path is served by the handler that the table of the
    API document names, with the path's [{id}]; a [HEAD] request as the [GET].
    Otherwise no handler runs: the client is sent to the clean path, or told which
    methods the path has, or that there is nothing. *)
Theorem requests_routed (r : web_request) :
  let path := cleanPath r.(wr_EscapedPath) in
  (path = r.(wr_EscapedPath) → ∀ h id, route r.(wr_Method) (segments_of path) = Some (h, id) →
     ServeHTTP r = h (with_id r id)) ∧
  (r.(wr_Method) ≠ "CONNECT" →
   path ≠ r.(wr_EscapedPath) ∨ route (M:=M) r.(wr_Method) (segments_of path) = None →
     (∃ p, ServeHTTP r = mret (MovedPermanently p)) ∨
     (∃ l, ServeHTTP r = mret (MethodNotAllowed l) ∧ l ≠ [] ∧
        ∀ me, me ∈ l ↔ me ∈ ["GET"; "HEAD"; "POST"] ∧ answers_for me (segments_of path)) ∨
     (ServeHTTP r = mret NotFound ∧ ∀ me, ¬ is_Some (route (M:=M) me (segments_of path)))).
Proof.
  intros path. rewrite serves_dispatch. unfold dispatch. fold path. split.
  - intros Hc h id Hr. rewrite (decide_False (P:=_ = "CONNECT")) by (intros Hm; by rewrite Hm in Hr).
    rewrite (decide_False (P:=path ≠ _)) by (intros Hn; by apply Hn). rewrite Hr.
    rewrite decide_False; [done |]. intros Hd%served_directory. by rewrite <-served_route, Hd in Hr.
  - intros Hm Hr. rewrite (decide_False (P:=_ = "CONNECT")) by done. case_decide as Hd; [left; by eexists |]. case_decide as Hc; [left; by eexists |]. right.
    destruct Hr as [?| ->]; [done |]. destruct (allowed (segments_of path)) as [|me l] eqn:Ha; [right | left].
    + split; [done |]. intros me Hme.
      assert (Hin : me ∈ allowed (segments_of path)); [|by rewrite Ha in Hin; apply not_elem_of_nil in Hin].
      apply list_elem_of_filter. split; [by left |]. unfold route in Hme.
      case_decide as Hg; [destruct Hg as [-> | ->]; set_solver |]. case_decide as Hp; [subst; set_solver |].
      by destruct Hme.
    + exists (me :: l). split; [done |]. split; [done |]. intros me'. rewrite <-Ha. unfold allowed.
      rewrite list_elem_of_filter. tauto.
Qed.

End served.
