(* ===== verification/WebFacts.v ===== *)
(** * The server, from request to database

    Web requests served by the mux on the service, the store and the database in
    any environment: what any traffic preserves, which requests can change the
    ledger, what the answers to the requests that move money mean. *)

From Stdlib Require Import Ascii.
From S2P Require Import Prelude GoStd Decimal Money Uuid Ledger Schema Pgx Store Service LedgerSpec LedgerFacts StorerSpec ServiceSpec Numeric SchemaFacts StoreBlocks StoreRefines Guarantee Clients Migrations Progress Correctness Json Http HttpFacts Mux Routes RoutesFacts.
From stdpp Require Import options.
Import Ledger Schema LedgerSpec Migrations Http Mux Routes.
Open Scope Z_scope.

(** Requests served one after the other in environment [env]. *)
Definition serve (env : Env) (r : web_request) : PgM answer := ServeHTTP r.

Fixpoint traffic (env : Env) (rs : list web_request) : PgM (list answer) :=
  match rs with
  | [] => mret []
  | r :: rs' => let! a := serve env r in let! l := traffic env rs' in mret (a :: l)
  end.

Section web.
Context (env : Env) `{!OthersOk env}.
Set Default Proof Using "Type*".

Lemma keeps_forget {A} (m : PgM A) : keeps (let! _ := m in mret tt) → keeps m.
Proof. intros Hm w r w' Hw Hr. apply (Hm w tt w' Hw). by rewrite pg_run_bind, Hr. Qed.

Lemma keeps_call {A} (m : PgM A) c :
  proper_call c → (let! _ := m in mret tt) = exec_call env c → keeps m.
Proof. intros Hc Hm. apply keeps_forget. rewrite Hm. by apply exec_call_keeps. Qed.

Lemma keeps_internalError r e : keeps (internalError (M:=PgM) r e).
Proof.
  apply keeps_bind; [|intros; apply keeps_ret]. intros w x w' Hw Hr. injection Hr as _ <-.
  split; [|done]. pose proof (pg_idle_tx w Hw). destruct Hw as ([Hdb _]&_&Hinv).
  by apply pg_idle_intro.
Qed.

Lemma keeps_mapError r e : keeps (mapError (M:=PgM) r e).
Proof. unfold mapError. repeat case_match; first [apply keeps_ret | apply keeps_internalError]. Qed.

Lemma keeps_resolveRequestID r : keeps (resolveRequestID (M:=PgM) r).
Proof.
  intros w id w' Hw Hr. destruct (resolveRequestID_idle env r w id w' Hw Hr) as [Hw' Hc].
  split; [done | by rewrite Hc].
Qed.

Lemma keeps_created r res : keeps (created (M:=PgM) r res).
Proof. destruct res as [[t es]|e]; [apply keeps_ret | apply keeps_mapError]. Qed.

(** A handler is its parsing, its call and its answer. *)
Ltac keeps_call_of c := apply (keeps_call _ c); [done | reflexivity].
Ltac keeps_answer := intros [?|?]; first [apply keeps_ret | apply keeps_internalError | apply keeps_mapError].

Lemma keeps_reads r :
  keeps (listAccounts (M:=PgM) r) ∧ keeps (getAccount (M:=PgM) r) ∧ keeps (listTransactions (M:=PgM) r) ∧
  keeps (listAudit (M:=PgM) r) ∧ keeps (listAllTransactions (M:=PgM) r).
Proof.
  split_and!; unfold listAccounts, getAccount, listTransactions, listAudit, listAllTransactions;
    repeat case_match; try apply keeps_ret; (apply keeps_bind; [|keeps_answer]).
  - keeps_call_of CallListAccounts.
  - keeps_call_of (CallGetAccount a).
  - keeps_call_of (CallListTransactionsForAccount a (parseLimit r 50 200)).
  - keeps_call_of (CallListAuditForAccount a (parseLimit r 50 200)).
  - keeps_call_of (CallListTransactions (Store.MkListOpts (parseLimit r 50 200) (parse_offset r) None)).
  - keeps_call_of (CallListTransactions (Store.MkListOpts (parseLimit r 50 200) (parse_offset r) (Some t))).
Qed.

Lemma keeps_createAccount r : keeps (createAccount (M:=PgM) r).
Proof.
  unfold createAccount. repeat case_match; try apply keeps_ret.
  apply keeps_bind; [|keeps_answer]. keeps_call_of (CallCreateAccount a).
Qed.

Lemma keeps_createTransfer r : keeps (createTransfer (M:=PgM) r).
Proof.
  unfold createTransfer. case_match; [apply keeps_ret |].
  apply keeps_bind; [apply keeps_resolveRequestID |]. intros req.
  destruct (Decode transfer_fields _ _) as [b|] eqn:Hb; [|apply keeps_ret]. apply transfer_amount_proper in Hb.
  repeat case_match; try apply keeps_ret. apply keeps_bind; [|intros; apply keeps_created].
  by apply (keeps_call _ (CallTransfer a a0 b.(tb_Amount) (get_first "Idempotency-Key" r.(req_Header)) req)).
Qed.

Lemma keeps_createDeposit r : keeps (createDeposit (M:=PgM) r).
Proof.
  unfold createDeposit. case_match; [apply keeps_ret |].
  apply keeps_bind; [apply keeps_resolveRequestID |]. intros req.
  destruct (Decode deposit_fields _ _) as [b|] eqn:Hb; [|apply keeps_ret]. apply deposit_amount_proper in Hb.
  case_match; [|apply keeps_ret]. apply keeps_bind; [|intros; apply keeps_created].
  by apply (keeps_call _ (CallDeposit a b.(db_Amount) (get_first "Idempotency-Key" r.(req_Header)) req)).
Qed.

Lemma keeps_reverseTransfer r : keeps (reverseTransfer (M:=PgM) r).
Proof.
  unfold reverseTransfer. case_match; [apply keeps_ret |].
  apply keeps_bind; [apply keeps_resolveRequestID |]. intros req.
  case_match; [|apply keeps_ret]. apply keeps_bind; [|intros; apply keeps_created].
  by apply (keeps_call _ (CallReverse a (get_first "Idempotency-Key" r.(req_Header)) req)).
Qed.

Lemma keeps_api h r : keeps (h r) → keeps (api (M:=PgM) h r).
Proof. intros Hh. apply keeps_bind; [done | intros; apply keeps_ret]. Qed.

(** Whatever the table names. *)
Lemma keeps_route method segs h id r : route (M:=PgM) method segs = Some (h, id) → keeps (h r).
Proof.
  destruct (keeps_reads r) as (?&?&?&?&?).
  unfold route, get_route, get_account_route, post_route. intros Hroute.
  repeat (case_match; try done); injection Hroute as <- _;
    first [apply keeps_ret | apply keeps_api];
    auto using keeps_createAccount, keeps_createTransfer, keeps_createDeposit, keeps_reverseTransfer.
Qed.

Lemma serve_keeps r : keeps (serve env r).
Proof.
  unfold serve. rewrite serves_dispatch. unfold dispatch. repeat case_match; try apply keeps_ret.
  by eapply keeps_route.
Qed.

Lemma traffic_keeps rs : keeps (traffic env rs).
Proof.
  induction rs as [|r rs IH]; [apply keeps_ret |]. simpl.
  apply keeps_bind; [apply serve_keeps |]. intros a. apply keeps_bind; [done | intros; apply keeps_ret].
Qed.

End web.

(** ** What any traffic preserves *)

(** C11: whatever requests the server is sent, in whatever order, with whatever
    paths, queries and bodies, and whatever fails or interferes: from the migrated
    database, every balance is the sum of the entries of its account, no user
    account is negative, the balances sum to zero, and every transaction
    balances. *)
Theorem traffic_conserves env `{!OthersOk env} rs now answers w' :
  pg_run (traffic env rs) (MkWorld (seed_db now) None 0 []) = (answers, w') →
  let L := pg_committed w' in
  total L = 0 ∧
  (∀ a x, L.(accts) !! a = Some x →
     x.(a_units) = journal_balance a L ∧ (x.(a_system) = false → 0 <= x.(a_units))) ∧
  (∀ id x, L.(txns) !! id = Some x → sumZ leg_units x.(x_legs) = 0).
Proof. intros Hr. apply (traffic_keeps env rs) in Hr as [(_&_&Hinv) _]; [by apply inv_sound | apply seed_idle_at]. Qed.

(** no traffic ever changes or removes a recorded transaction, removes an
    account or changes its kind, or takes anything from the audit trail; each key
    identifies one transaction and each transfer is reversed at most once. *)
Theorem traffic_appends env `{!OthersOk env} rs w answers w' :
  pg_idle w → pg_run (traffic env rs) w = (answers, w') →
  evolves (pg_committed w) (pg_committed w') ∧
  (∀ id1 id2 x1 x2, (pg_committed w').(txns) !! id1 = Some x1 → (pg_committed w').(txns) !! id2 = Some x2 →
     x1.(x_key) = x2.(x_key) → id1 = id2) ∧
  (∀ id1 id2 x1 x2 o, (pg_committed w').(txns) !! id1 = Some x1 → (pg_committed w').(txns) !! id2 = Some x2 →
     x1.(x_reverses) = Some o → x2.(x_reverses) = Some o → id1 = id2).
Proof.
  intros Hw Hr. apply (traffic_keeps env rs) in Hr as [(_&_&Hinv) Hrely]; [|done].
  split_and!; [apply Hrely | apply Hinv | apply Hinv].
Qed.

(** ** Requests that write nothing *)

(** Nobody else writes; calls may fail. *)
Definition alone (env : Env) : Prop := ∀ n db, env_others env n db = db.

Section reads.
Context (env : Env) (Halone : alone env).
Set Default Proof Using "Type*".

Definition untouched {A} (m : PgM A) : Prop := ∀ w r w', pg_run m w = (r, w') → w'.(w_db) = w.(w_db).

Lemma untouched_ret {A} (a : A) : untouched (mret a).
Proof. intros w r w' Hr. rewrite pg_run_ret in Hr. by injection Hr as _ <-. Qed.

Lemma untouched_bind {A B} (m : PgM A) (f : A → PgM B) :
  untouched m → (∀ a, untouched (f a)) → untouched (mbind f m).
Proof. intros Hm Hf w r w' Hr. pg_step Hr. apply Hm in Erun. apply Hf in Hr. congruence. Qed.

Lemma untouched_query {A} (q : sql A) : is_query q → untouched (pool_exec q).
Proof.
  intros [Hev Hq] w r w' Hr. unfold pg_run, pool_exec, PgM_Pgx, PgM_pool_exec, autocommit in Hr.
  unfold refreshed in Hr. rewrite Halone in Hr.
  destruct (Hq (stmt_ctx_at env w.(w_tick) (env_now env w.(w_tick))) w.(w_db)) as [a Ha].
  rewrite Ha, Hev in Hr. simpl in Hr. by destruct (env_fault env w.(w_tick)); simplify_eq.
Qed.

Lemma untouched_Query {R} (q : sql (list R)) : is_query q → untouched (pool_Query q).
Proof.
  intros Hq w r w' Hr. unfold pg_run, pool_Query, PgM_Pgx, PgM_pool_Query in Hr.
  destruct (PgM_pool_exec env q w) as [r0 w0] eqn:E. injection Hr as _ <-.
  by apply (untouched_query q Hq) in E.
Qed.

Lemma untouched_answer r e : untouched (internalError (M:=PgM) r e) ∧ untouched (mapError (M:=PgM) r e).
Proof.
  assert (Hi : untouched (internalError (M:=PgM) r e)).
  { apply untouched_bind; [|intros; apply untouched_ret]. intros w x w' Hr. by injection Hr as _ <-. }
  split; [done |]. unfold mapError. repeat case_match; done || apply untouched_ret.
Qed.

Lemma untouched_populate txns : untouched (Store.populate txns).
Proof.
  induction txns as [|t txns IH]; [apply untouched_ret |]. simpl. apply untouched_bind.
  - apply untouched_bind; [|intros; repeat case_match; apply untouched_ret].
    apply untouched_Query. split; eauto.
  - intros [es|e]; [|apply untouched_ret]. apply untouched_bind; [done |]. intros [l|e]; apply untouched_ret.
Qed.

Ltac untouched_db := repeat case_match; try apply untouched_ret; apply untouched_populate.

Lemma untouched_store :
  untouched Store.ListAccounts ∧ (∀ id, untouched (Store.GetAccount id)) ∧
  (∀ id limit, untouched (Store.ListTransactionsForAccount id limit)) ∧
  (∀ id limit, untouched (Store.ListAuditForAccount id limit)) ∧
  (∀ opts, untouched (Store.ListTransactions opts)).
Proof.
  split_and!; intros; (apply untouched_bind; [|intros; untouched_db]);
    (apply untouched_query || apply untouched_Query); split; eauto.
Qed.

(** The handlers that only read. *)
Lemma untouched_reads r :
  untouched (listAccounts (M:=PgM) r) ∧ untouched (getAccount (M:=PgM) r) ∧
  untouched (listTransactions (M:=PgM) r) ∧ untouched (listAudit (M:=PgM) r) ∧
  untouched (listAllTransactions (M:=PgM) r).
Proof.
  split_and!; unfold listAccounts, getAccount, listTransactions, listAudit, listAllTransactions;
    repeat case_match; try apply untouched_ret;
    (apply untouched_bind; [|intros [?|?]; first [apply untouched_ret | apply untouched_answer]]);
    apply untouched_store.
Qed.

Lemma untouched_get_route segs h id r : get_route (M:=PgM) segs = Some (h, id) → untouched (h r).
Proof.
  destruct (untouched_reads r) as (?&?&?&?&?).
  unfold get_route, get_account_route. intros Hroute.
  repeat (case_match; try done); injection Hroute as <- _; try apply untouched_ret;
    (apply untouched_bind; [done | intros; apply untouched_ret]).
Qed.
End reads.

(** ** What the answers mean *)

(** What an answer acknowledges is in the ledger: the transaction, under the key of
    the request, or the account, opened with the name it was given. *)
Definition acknowledged (resp : response) (key : string) (L : ledger) : Prop :=
  match resp.(resp_body_) with
  | RTransaction t => recorded t key L
  | RAccount a => L.(accts) !! a.(acc_ID) = Some (Acct 0 false)
  | _ => False
  end.

(** 400: the database was not reached; 201: what is acknowledged is recorded. *)
Definition sound_answer (r : web_request) (w : World) (a : answer) (w' : World) : Prop :=
  ∀ resp, a = Api resp →
  (resp.(resp_status) = 400 → w'.(w_db) = w.(w_db)) ∧
  (resp.(resp_status) = 201 → acknowledged resp (get_first "Idempotency-Key" r.(wr_Header)) (pg_committed w')).

Section answers.
Context (env : Env) `{!OthersOk env}.
Set Default Proof Using "Type*".

Lemma CreateAccount_ok name w a w' :
  pg_idle w → pg_run (Store.CreateAccount name) w = (Ok a, w') →
  (pg_committed w').(accts) !! a.(acc_ID) = Some (Acct 0 false).
Proof.
  intros Hw Hr. unfold Store.CreateAccount in Hr. pg_step Hr. clear Erun Hw.
  destruct r as [id|e]; [|by rewrite pg_run_ret in Hr]. pg_step Hr. rewrite pg_run_ret in Hr.
  unfold pg_run, pool_exec, PgM_Pgx, PgM_pool_exec, autocommit in Erun. simpl in Erun.
  set (now := env_now env w0.(w_tick)) in Erun. set (db := refreshed env w0) in Erun.
  assert (Hcommit : ∀ t, insert_account id name now db.(tables) = Ok t →
    t.(accounts) !! id = Some (AccountRow name 0 false now now)).
  { unfold insert_account. intros t. destruct (_ !! id); [done |]. intros [= <-]. simpl. by rewrite lookup_insert_eq. }
  destruct (insert_account id name now _) as [t|e] eqn:E; simpl in Erun.
  - specialize (Hcommit t eq_refl). rewrite Hcommit in Erun.
    destruct (env_fault env w0.(w_tick)); simpl in Erun; injection Erun as <- <-; [|by injection Hr as Hr..].
    unfold Store.scan_row in Hr.
    pose proof (scanAccount_rec id (AccountRow name 0 false now now)) as Hs. unfold rec_of_account in Hs; simpl in Hs.
    rewrite Hs in Hr. injection Hr as <- <-.
    cbn [acc_ID]. unfold pg_committed. cbn [w_db tables]. by rewrite abs_accts, Hcommit.
  - destruct (env_fault env w0.(w_tick)); simpl in Erun; injection Erun as <- <-; by injection Hr as Hr.
Qed.

(** A computation of the handlers' that answers soundly, and one that is past the
    answers with a meaning for the ledger. *)
Definition sound_response (key : string) (m : PgM response) : Prop :=
  ∀ w resp w', pg_idle w → pg_run m w = (resp, w') →
  (resp.(resp_status) = 400 → w'.(w_db) = w.(w_db)) ∧
  (resp.(resp_status) = 201 → acknowledged resp key (pg_committed w')).

Definition late (m : PgM response) : Prop :=
  ∀ w resp w', pg_run m w = (resp, w') → resp.(resp_status) ≠ 400 ∧ resp.(resp_status) ≠ 201.

Lemma late_ret resp : resp.(resp_status) ≠ 400 → resp.(resp_status) ≠ 201 → late (mret resp).
Proof. intros H4 H2 w r w' Hr. rewrite pg_run_ret in Hr. by injection Hr as <- _. Qed.

Lemma late_bind {A} (m : PgM A) f : (∀ a, late (f a)) → late (mbind f m).
Proof. intros Hf w r w' Hr. pg_step Hr. by apply Hf in Hr. Qed.

Lemma late_mapError r e : late (mapError r e).
Proof. intros w resp w' Hr%(mapError_status env). lia. Qed.

Lemma late_internalError r e : late (internalError r e).
Proof. apply late_bind. intros _. by apply late_ret. Qed.

Lemma sound_late key m : late m → sound_response key m.
Proof. intros Hm w resp w' _ Hr. by destruct (Hm w resp w' Hr). Qed.

Lemma sound_ret key resp : resp.(resp_status) ≠ 201 → sound_response key (mret resp).
Proof. intros H2 w r w' _ Hr. rewrite pg_run_ret in Hr. by injection Hr as <- <-. Qed.

Lemma parse_status s resp : parseUUID s = Err resp → resp.(resp_status) ≠ 201.
Proof. intros H%parseUUID_status. by rewrite H. Qed.

Ltac late_answer :=
  apply sound_late, late_bind; intros [?|?];
  first [by apply late_ret | apply late_internalError | apply late_mapError].

Lemma sound_reads key r :
  sound_response key (listAccounts r) ∧ sound_response key (getAccount r) ∧
  sound_response key (listTransactions r) ∧ sound_response key (listAudit r) ∧
  sound_response key (listAllTransactions r).
Proof.
  split_and!; unfold listAccounts, getAccount, listTransactions, listAudit, listAllTransactions;
    repeat case_match; first [late_answer | by apply sound_ret | apply sound_ret; by eapply parse_status].
Qed.

Lemma sound_createAccount key r : sound_response key (createAccount r).
Proof.
  unfold createAccount. repeat case_match; try by apply sound_ret.
  intros w resp w' Hw Hr. pg_step Hr. destruct r0 as [acct|e].
  - apply CreateAccount_ok in Erun; [|done]. rewrite pg_run_ret in Hr. by injection Hr as <- <-.
  - apply late_internalError in Hr. by destruct Hr.
Qed.

Lemma sound_money r m :
  (∀ w resp w', pg_idle w → pg_run m w = (resp, w') → sound_reply r w resp w') →
  sound_response (get_first "Idempotency-Key" r.(req_Header)) m.
Proof.
  intros Hm w resp w' Hw Hr. destruct (Hm w resp w' Hw Hr) as [H4 H2]. split; [done |].
  intros Hs. destruct (H2 Hs) as (t&Hb&Ht). unfold acknowledged. by rewrite Hb.
Qed.

Lemma sound_route method segs h id r a w w' :
  route (M:=PgM) method segs = Some (h, id) → pg_idle w → pg_run (h (with_id r id)) w = (a, w') →
  sound_answer r w a w'.
Proof.
  set (key := get_first "Idempotency-Key" r.(wr_Header)).
  destruct (sound_reads key (with_id r id)) as (?&?&?&?&?).
  assert (Happ : ∀ g, sound_response key (g (with_id r id)) → pg_idle w →
            pg_run (api (M:=PgM) g (with_id r id)) w = (a, w') → sound_answer r w a w').
  { intros g Hg Hw Hr resp ->. unfold api in Hr. pg_step Hr. rewrite pg_run_ret in Hr.
    injection Hr as -> ->. by apply (Hg w resp w'). }
  unfold route, get_route, get_account_route, post_route. intros Hroute Hw Hr.
  repeat (case_match; try done); injection Hroute as <- _;
    first [by (unfold healthz, static, index in Hr; rewrite pg_run_ret in Hr; injection Hr as <- _) | revert Hr; apply Happ; [|done]];
    try done; try apply sound_createAccount; apply (sound_money (with_id r id)); intros w1 resp1 w1' Hw1 Hr1.
  - by apply (transfer_reply_sound env).
  - by apply (deposit_reply_sound env).
  - by apply (reverse_reply_sound env).
Qed.
End answers.

(** [400] is answered before the database is reached; [201] only when what
    the answer shows is in the ledger: the transaction, under the client's
    idempotency key, or the account. *)
Theorem answers_sound env `{!OthersOk env} r w a w' :
  pg_idle w → pg_run (serve env r) w = (a, w') → sound_answer r w a w'.
Proof.
  intros Hw Hr. unfold serve in Hr. rewrite serves_dispatch in Hr. unfold dispatch in Hr.
  repeat case_match; try by (rewrite pg_run_ret in Hr; injection Hr as <- _).
  by eapply sound_route.
Qed.

(** C23: a request that is not a [POST] writes nothing, whatever it asks for and
    whatever fails. *)
Theorem reads_write_nothing env r w a w' :
  alone env → r.(wr_Method) ≠ "POST" → pg_run (serve env r) w = (a, w') → w'.(w_db) = w.(w_db).
Proof.
  intros Halone Hm Hr. unfold serve in Hr. rewrite serves_dispatch in Hr. unfold dispatch in Hr.
  destruct (route _ _) as [[h id]|] eqn:Hroute;
    [|by repeat case_match; rewrite pg_run_ret in Hr; injection Hr as _ <-].
  repeat case_match; try by (rewrite pg_run_ret in Hr; injection Hr as _ <-).
  unfold route in Hroute. rewrite (decide_False (P:=_ = "POST")) in Hroute by done.
  case_match; [|done]. by eapply untouched_get_route.
Qed.

(** ** Examples *)

Definition web (method path : string) (key : string) (body : bytes) : web_request :=
  MkWebRequest method path (s2b path) [("Idempotency-Key", key)] [] body.

Definition demo_body : bytes :=
  (λ c, if decide (c = "'"%char) then quote else c) <$>
  s2b "{'src_account_id': '00000000-0000-0000-0000-000000000002', 'DST_ACCOUNT_ID':
        '00000000-0000-0000-0000-000000000003', 'amount': '12.5', 'memo': [1, {}]}".

(** Two requests that move money, one that reads, two that no route serves. *)
Definition demo_traffic : list web_request :=
  [web "POST" "/api/transfers" "a" demo_body;
   web "POST" ("/api/transfers/" +:+ Uuid.String (demo_uuid 2) +:+ "/reverse") "b" [];
   web "GET" ("/api/accounts/" +:+ Uuid.String Bob +:+ "/audit") "" [];
   web "DELETE" "/api/accounts" "" []; web "GET" "/api//accounts" "" []].

Definition shape (a : answer) : string + Z :=
  match a with
  | Api resp => inr resp.(resp_status)
  | Text st _ => inr st
  | File name => inl name
  | MovedPermanently p => inl (b2s p)
  | MethodNotAllowed l => inl (String.concat "," l)
  | NotFound => inr 404
  end.

Example demo_answers :
  shape <$> (pg_run (traffic demo_env demo_traffic) seed_world).1 =
  [inr 201; inr 201; inr 200; inl "GET,HEAD,POST"; inl "/api/accounts"].
Proof. by vm_compute. Qed.

Definition demo_serve (r : web_request) : PgM answer := serve demo_env r.

Definition demo_deposit (env : Env) : http_request → PgM response := createDeposit.

Lemma requests_routed_witness :
  let r := web "POST" "/api/deposits" "k" [] in
  demo_serve r = api (demo_deposit demo_env) (with_id r "").
Proof.
  intros r. unfold demo_serve, serve, demo_deposit. apply requests_routed; [by vm_compute | reflexivity].
Defined.

Lemma traffic_conserves_witness :
  total (pg_committed (pg_run (traffic busy_env demo_traffic) seed_world).2) = 0.
Proof.
  destruct (pg_run (traffic busy_env demo_traffic) seed_world) as [l w'] eqn:E.
  apply (traffic_conserves busy_env _ 0) in E as [H _]. exact H.
Defined.

Lemma traffic_appends_witness :
  evolves (pg_committed seed_world) (pg_committed (pg_run (traffic busy_env demo_traffic) seed_world).2).
Proof.
  destruct (pg_run (traffic busy_env demo_traffic) seed_world) as [l w'] eqn:E.
  apply (traffic_appends busy_env _ seed_world) in E as [H _]; [exact H | apply seed_idle].
Defined.

Lemma answers_sound_witness :
  let r := web "POST" "/api/transfers" "a" demo_body in
  let x := pg_run (serve busy_env r) seed_world in
  shape x.1 = inr 201 ∧ sound_answer r seed_world x.1 x.2.
Proof.
  split; [by vm_compute |].
  apply (answers_sound busy_env); [apply seed_idle | apply surjective_pairing].
Defined.

Lemma reads_write_nothing_witness :
  w_db (pg_run (serve demo_env (web "GET" "/api/transactions" "" [])) seed_world).2 = w_db seed_world.
Proof.
  destruct (pg_run _ seed_world) as [a w'] eqn:E.
  apply reads_write_nothing in E; [done | intros n db; reflexivity | done].
Defined.
