(* ===== verification/WebAnswers.v ===== *)
(** * What the handlers know and answer

    The handlers of the API among other sessions: which calls of the service a request
    asks for, that the handlers keep the lock discipline and move only what is asked,
    and what their answers tell: what a 201 acknowledges, why a request is refused, and
    what a 200 shows. *)

From Stdlib Require Import Ascii.
From S2P Require Import Prelude GoStd Decimal Money Uuid Ledger Schema Pgx Store Service LedgerSpec LedgerFacts StorerSpec ServiceSpec Numeric SchemaFacts StoreBlocks StoreRefines Guarantee Clients Migrations Prog Machine Locking Frames Serial Liveness Solo Trail Knowledge Answers Reads Books Scheduler Correctness Concurrent Json Http HttpFacts Mux Routes RoutesFacts WebFacts.
From stdpp Require Import options.
Import Ledger Schema LedgerSpec Migrations Http Mux Routes.
Open Scope Z_scope.

(** The program that serves a request. *)
Definition handle (r : web_request) : prog answer := ServeHTTP r.

Definition web_system (db : DB) (rs : list web_request) : system answer := start_system db (handle <$> rs).

(** ** What a request asks for *)

Definition posted (r : web_request) (segs : list bytes) : Prop :=
  r.(wr_Method) = "POST" ∧ cleanPath r.(wr_EscapedPath) = r.(wr_EscapedPath) ∧
  segments_of r.(wr_EscapedPath) = segs.

Definition idempotency_key (r : web_request) : string := get_first "Idempotency-Key" r.(wr_Header).

(** The calls of the service that a request can lead to; the request id is the
    client's or drawn by the server. *)
Inductive asks (r : web_request) : call → Prop :=
| asks_transfer body src dst req :
    posted r (s2b <$> ["api"; "transfers"]%string) →
    Decode transfer_fields (Json.parse r.(wr_Body)) (TransferBody "" "" Money.zero_value) = Ok body →
    Uuid.Parse body.(tb_SrcID) = Ok src → Uuid.Parse body.(tb_DstID) = Ok dst →
    asks r (CallTransfer src dst body.(tb_Amount) (idempotency_key r) req)
| asks_deposit body dst req :
    posted r (s2b <$> ["api"; "deposits"]%string) →
    Decode deposit_fields (Json.parse r.(wr_Body)) (DepositBody "" Money.zero_value) = Ok body →
    Uuid.Parse body.(db_DstID) = Ok dst →
    asks r (CallDeposit dst body.(db_Amount) (idempotency_key r) req)
| asks_reverse id orig req :
    posted r [s2b "api"; s2b "transfers"; id; s2b "reverse"] → Uuid.Parse (b2s id) = Ok orig →
    asks r (CallReverse orig (idempotency_key r) req).

(** The movements it can lead to. *)
Definition demands (r : web_request) (L : ledger) (rq : request) : Prop :=
  ∃ c, asks r c ∧ requested c L rq.

Lemma demands_well_requested r : well_requested (demands r).
Proof. intros L rq (c&_&Hrq). by eapply requested_well_formed. Qed.

(** ** The handlers keep the discipline *)

Lemma stays_answer r e : stays (mapError (M:=prog) r e) ∧ stays (internalError (M:=prog) r e).
Proof. unfold mapError, internalError. split; stays. Qed.

Lemma stays_resolveRequestID r : stays (resolveRequestID (M:=prog) r).
Proof. unfold resolveRequestID. stays. Qed.

Lemma stays_created r res : stays (created (M:=prog) r res).
Proof. destruct res as [[t es]|e]; [apply stays_ret | apply stays_answer]. Qed.

Ltac handler_stays :=
  repeat case_match; try apply stays_ret;
  (apply stays_bind; [|intros ?; repeat case_match; first [apply stays_ret | apply stays_answer]]).

Lemma stays_handlers r :
  stays (listAccounts (M:=prog) r) ∧ stays (createAccount (M:=prog) r) ∧ stays (getAccount (M:=prog) r) ∧
  stays (listTransactions (M:=prog) r) ∧ stays (listAudit (M:=prog) r) ∧ stays (listAllTransactions (M:=prog) r).
Proof.
  split_and!;
    unfold listAccounts, createAccount, getAccount, listTransactions, listAudit, listAllTransactions; handler_stays;
    cbv [ListAccounts CreateAccount GetAccount ListTransactionsForAccount ListAuditForAccount ListTransactions Store_queryer];
    unfold Store.CreateAccount, Store.GetAccount, Store.ListAccounts, Store.ListTransactionsForAccount,
      Store.ListTransactions, Store.ListAuditForAccount; stays.
Qed.

Lemma stays_money r :
  stays (createTransfer (M:=prog) r) ∧ stays (createDeposit (M:=prog) r) ∧ stays (reverseTransfer (M:=prog) r).
Proof.
  split_and!; unfold createTransfer, createDeposit, reverseTransfer;
    (case_match; [apply stays_ret |]); (apply stays_bind; [apply stays_resolveRequestID |]; intros req);
    repeat case_match; try apply stays_ret; (apply stays_bind; [|intros; apply stays_created]).
  - apply stays_Transfer.
  - apply stays_Deposit.
  - apply stays_Reverse.
Qed.

Lemma stays_handle r : stays (handle r).
Proof.
  unfold handle. rewrite serves_dispatch. unfold dispatch, route, get_route, get_account_route, post_route.
  destruct (stays_money (with_id r "")) as (?&?&?).
  repeat (case_match; try apply stays_ret); simplify_eq; try apply stays_ret;
    (apply stays_bind; [first [apply stays_handlers | apply stays_money] | intros; apply stays_ret]).
Qed.

(** ** The handlers move what is asked *)

Lemma quiet_answer r e : quiet (mapError (M:=prog) r e) ∧ quiet (internalError (M:=prog) r e).
Proof. unfold mapError, internalError. split; quiet. Qed.

Lemma quiet_resolveRequestID r : quiet (resolveRequestID (M:=prog) r).
Proof. unfold resolveRequestID. quiet. Qed.

Lemma quiet_created r res : quiet (created (M:=prog) r res).
Proof. destruct res as [[t es]|e]; [apply quiet_ret | apply quiet_answer]. Qed.

Lemma parseUUID_ok s id : parseUUID s = Ok id → Uuid.Parse s = Ok id.
Proof. unfold parseUUID. by destruct (Uuid.Parse s); intros [= <-]. Qed.

Lemma parseUUIDField_ok s f id : parseUUIDField s f = Ok id → Uuid.Parse s = Ok id.
Proof.
  unfold parseUUIDField. case_match; [intros Hp; discriminate Hp |].
  by destruct (Uuid.Parse s); intros [= <-].
Qed.

(** ** What the answers tell *)

(** What an answer acknowledges is in the ledger: the transaction, under the key of
    the request, or the user account. *)
Definition acknowledges (key : string) (L : ledger) (resp : response) : Prop :=
  match resp.(resp_body_) with
  | RTransaction t => recorded t key L
  | RAccount a => ∃ x, L.(accts) !! a.(acc_ID) = Some x ∧ x.(a_system) = false
  | _ => False
  end.

Lemma acknowledges_rely key L L' resp : rely L L' → acknowledges key L resp → acknowledges key L' resp.
Proof.
  intros Hr. unfold acknowledges. destruct (resp_body_ resp); try done; [|by apply recorded_rely].
  intros (x&Hx&Hs). destruct Hr as [Hev _]. destruct (ev_accts _ _ Hev _ _ Hx) as (x'&Hx'&Hs').
  exists x'. split; [done | congruence].
Qed.

(** A refusal that a call of the service justifies: the documented answer to an error
    that had its grounds at some moment. *)
Definition justified (r : web_request) (P : ledger → Prop) (resp : response) : Prop :=
  ∃ c e L st code, asks r c ∧ P L ∧ grounds c L e ∧ (e, (st, code)) ∈ documented ∧
    resp = MkResponse st (RError code (Some (Error e))).

(** The request reaches no operation of the service. *)
Definition no_call (r : web_request) : Prop := idempotency_key r = "" ∨ ∀ c, ¬ asks r c.

(** A request that reads. *)
Definition reading (r : web_request) (segs : list bytes) : Prop :=
  (r.(wr_Method) = "GET" ∨ r.(wr_Method) = "HEAD") ∧ cleanPath r.(wr_EscapedPath) = r.(wr_EscapedPath) ∧
  segments_of r.(wr_EscapedPath) = segs.

Definition limit_of (r : web_request) : Z := parseLimit (with_id r "") 50 200.
Definition offset_of (r : web_request) : Z := parse_offset (with_id r "").
Definition kind_of (r : web_request) : option TransactionKind := validKinds (get_first "kind" r.(wr_Query)).

(** What a read shows of the ledger [L] and of the tables [P] that have been: the
    account of the path as it was at one moment, the accounts of one moment, a page of
    the transactions of one moment with all their entries, of one kind or those that
    touch the account of the path, or a page of the audit lines of one moment that name
    that account. *)
Inductive shows (r : web_request) (P : Tables → Prop) (L : ledger) : resp_body → Prop :=
| shows_account c a t0 :
    reading r [s2b "api"; s2b "accounts"; c] → Uuid.Parse (b2s c) = Ok a.(acc_ID) →
    P t0 → account_is (abs t0) a → shows r P L (RAccount a)
| shows_accounts l :
    reading r [s2b "api"; s2b "accounts"] → accounts_shown P l → shows r P L (RAccounts l)
| shows_transactions l :
    reading r [s2b "api"; s2b "transactions"] →
    transactions_shown (of_kind (kind_of r)) (limit_of r) (offset_of r) P L l → shows r P L (RTransactions l)
| shows_history c id l :
    reading r [s2b "api"; s2b "accounts"; c; s2b "transactions"] → Uuid.Parse (b2s c) = Ok id →
    transactions_shown (touching id) (limit_of r) 0 P L l → shows r P L (RTransactions l)
| shows_audit c id l :
    reading r [s2b "api"; s2b "accounts"; c; s2b "audit"] → Uuid.Parse (b2s c) = Ok id →
    audits_shown id (limit_of r) P l → shows r P L (RAudit l).

Lemma shows_rely r (P P' : Tables → Prop) L L' b :
  (∀ t, P t → P' t) → rely L L' → shows r P L b → shows r P' L' b.
Proof.
  intros HP Hr. destruct 1 as [c a t0 ?? H0 ?|l ? Hl|l ? Hl|c id l ?? Hl|c id l ?? Hl].
  - eapply shows_account; [done | done | by apply HP | done].
  - apply shows_accounts; [done | by eapply accounts_shown_mono].
  - apply shows_transactions; [done | by eapply transactions_shown_rely].
  - eapply shows_history; [done | done | by eapply transactions_shown_rely].
  - eapply shows_audit; [done | done | by eapply audits_shown_mono].
Qed.

(** What is known when a handler answers: it committed at most one block, and none
    unless it answers 201 or 500; 201 acknowledges what is recorded; any other
    answer to a request that reached an operation is justified; and what a 200 shows
    is true. *)
Definition response_known (r : web_request) (K : known) (resp : response) : Prop :=
  (K.(kn_moved) <= 1)%nat ∧
  (resp.(resp_status) = 201 → acknowledges (idempotency_key r) K.(kn_ledger) resp) ∧
  (K.(kn_moved) ≠ 0%nat → resp.(resp_status) = 201 ∨ resp.(resp_status) = 500) ∧
  (no_call r ∨ resp.(resp_status) = 201 ∨ resp.(resp_status) = 500 ∨ justified r (kn_past K) resp) ∧
  (resp.(resp_status) = 200 → shows r K.(kn_moments) K.(kn_ledger) resp.(resp_body_)).

Definition refuses (resp : response) : Prop := resp.(resp_status) ≠ 201 ∧ resp.(resp_status) ≠ 200.

Lemma unmoved_known r K resp :
  no_call r → K.(kn_moved) = 0%nat → refuses resp → response_known r K resp.
Proof. intros Hno HK [??]. split_and!; [lia | done | done | by left | done]. Qed.

Lemma quiet_always {A} R K0 K (m : prog A) (P : A → Prop) :
  quiet m → always P m → still K0 K → knows R K m (λ K' a, still K0 K' ∧ P a).
Proof.
  revert K. induction m as [a|C q k IH|X q k IH|k IH|C q k IH|X q k IH|k IH|k IH|k IH|k IH|k IH|s k IH];
    intros K Hq Ha HK; simpl in *; try done; try (by intros r; apply IH).
  - destruct Hq as [Hn Hq]. split; [by apply no_success_vouches |]. intros t r t' Ht Ht' _.
    rewrite (answered_no_success q _ _ Hn). apply IH; [done..|]. etrans; [done | by apply (later_still _ t)].
  - destruct Hq as [Hn Hq]. split; [by apply no_success_vouches |]. intros t r t' c Ht Ht' _ _.
    rewrite (answered_no_success q _ _ Hn). apply IH; [done..|]. etrans; [done | by apply (later_still _ t)].
  - intros t r [Ht _ _] _. apply IH; [done..|]. etrans; [done | by apply at_tables_still].
  - intros t0 t1 c [Ht _ _] [Ht' _ _] _. apply IH; [done..|]. etrans; [done |].
    etrans; [by apply at_tables_still |]. by apply at_tables_still.
  - intros r _. by apply IH.
Qed.

Lemma knows_always {A} R K (m : prog A) (P : A → Prop) (Q : known → A → Prop) :
  quiet m → always P m → (∀ K' a, still K K' → P a → Q K' a) → knows R K m Q.
Proof.
  intros Hq Ha HQ. eapply knows_mono; [|by apply (quiet_always R K K)]. intros K' a []. by apply HQ.
Qed.

Lemma knows_unmoved R K r (m : prog response) :
  no_call r → K.(kn_moved) = 0%nat → quiet m → always refuses m → knows R K m (response_known r).
Proof.
  intros Hno HK Hq Ha. apply (knows_always _ _ _ refuses); [done | done |].
  intros K' a (_&E&_). apply unmoved_known; [done | lia].
Qed.

Lemma always_mapError r e :
  always refuses (mapError (M:=prog) r e) ∧
  (internal e → always (λ resp, resp.(resp_status) = 500) (mapError (M:=prog) r e)).
Proof.
  split; [unfold mapError, internalError; repeat case_match; try done; by intros u |].
  intros Hi. unfold mapError, ErrAccountNotFound, ErrTransactionNotFound, ErrAlreadyReversed, ErrIdempotencyConflict,
    ErrInsufficientFunds, ErrNotReversible, ErrSelfTransfer, ErrSystemAccount, ErrInvalidAmount.
  rewrite !internal_not_sentinel by done. by intros u.
Qed.

(** An error with grounds is one that the API documents. *)
Lemma grounds_documented c L e :
  grounds c L e → internal e ∨ ∃ st code, (e, (st, code)) ∈ documented.
Proof.
  assert (Hdoc : ∀ i e st code, documented !! i = Some (e, (st, code)) → ∃ st code, (e, (st, code)) ∈ documented).
  { intros i e' st code Hi. exists st, code. by eapply list_elem_of_lookup_2. }
  destruct 1 as [e Hc|rq id e _ Hr| |].
  - right. destruct c; try done; simpl in Hc; destruct_or!; destruct Hc as [_ ->];
      first [by eapply (Hdoc 8%nat) | by eapply (Hdoc 6%nat) | by eapply (Hdoc 7%nat)].
  - destruct Hr; [by left |..]; right;
      [by eapply (Hdoc 0%nat) | by eapply (Hdoc 4%nat) | by eapply (Hdoc 3%nat) | by eapply (Hdoc 2%nat)].
  - right. by eapply (Hdoc 1%nat).
  - right. by eapply (Hdoc 5%nat).
Qed.

Lemma mapError_documented r e st code :
  (e, (st, code)) ∈ documented → mapError (M:=prog) r e = mret (MkResponse st (RError code (Some (Error e)))).
Proof.
  unfold documented. rewrite !elem_of_cons, elem_of_nil. intros Hin. destruct_or!; by injection Hin as -> -> ->.
Qed.

Lemma knows_created R K r r' c res :
  asks r c → accounts_for c (idempotency_key r) K res →
  knows R K (created (M:=prog) r' res) (response_known r).
Proof.
  intros Hc [Hle Hres]. destruct res as [[t es]|e]; [split_and!; [done | done | by left | by right; left | done] |].
  destruct Hres as [Hm Hex].
  assert (Hint : internal e → knows R K (mapError (M:=prog) r' e) (response_known r)).
  { intros Hi. destruct (always_mapError r' e) as [_ H5].
    apply (knows_always _ _ _ (λ resp, resp.(resp_status) = 500)); [apply quiet_answer | by apply H5 |].
    intros K' resp (_&E&_) Hs. split_and!; [lia | rewrite Hs; lia | by right | by right; right; left | rewrite Hs; lia]. }
  destruct Hex as [Hi|(L&HL&Hg)]; [by apply Hint |].
  destruct (grounds_documented _ _ _ Hg) as [Hi|(st&code&Hdoc)]; [by apply Hint |].
  destruct Hm as [Hm|Hi]; [|by apply Hint]. simpl created. rewrite (mapError_documented _ _ _ _ Hdoc).
  assert (Hst : st ≠ 201 ∧ st ≠ 200).
  { unfold documented in Hdoc. rewrite !elem_of_cons, elem_of_nil in Hdoc.
    destruct_or!; by injection Hdoc as _ -> _. }
  destruct Hst. split_and!; [done | done | done | | done]. right; right; right. exists c, e, L, st, code. by split_and!.
Qed.

(** The checks of a handler that precede its operation. *)
Lemma parseUUIDField_refused s f resp : parseUUIDField s f = Err resp → refuses resp ∧ ∃ e, Uuid.Parse s = Err e.
Proof.
  unfold parseUUIDField. case_bool_decide as Hs; [intros [= <-]; split; [done |]; subst s; by eexists |].
  destruct (Uuid.Parse s); intros [= <-]. split; [done | by eexists].
Qed.

Lemma parseUUID_refused s resp : parseUUID s = Err resp → refuses resp ∧ ∃ e, Uuid.Parse s = Err e.
Proof. unfold parseUUID. destruct (Uuid.Parse s); intros [= <-]. split; [done | by eexists]. Qed.

Section money.
Context (r : web_request).

Abbreviation key := (idempotency_key r).

(** Nothing is committed, and time has a moment. *)
Definition ready (K : known) : Prop := K.(kn_moved) = 0%nat ∧ ∃ t, K.(kn_moments) t.

Lemma ready_still K K' : still K K' → ready K → ready K'.
Proof using Type. intros ([_ Hp]&Hm&_) [? [t Ht]]. split; [congruence | eauto]. Qed.

(** A request to a path asks only for the call of its route. *)
Lemma asks_inv segs c :
  posted r segs → asks r c →
  (segs = s2b <$> ["api"; "transfers"]%string ∧ ∃ body src dst,
     Decode transfer_fields (Json.parse r.(wr_Body)) (TransferBody "" "" Money.zero_value) = Ok body ∧
     Uuid.Parse body.(tb_SrcID) = Ok src ∧ Uuid.Parse body.(tb_DstID) = Ok dst) ∨
  (segs = s2b <$> ["api"; "deposits"]%string ∧ ∃ body dst,
     Decode deposit_fields (Json.parse r.(wr_Body)) (DepositBody "" Money.zero_value) = Ok body ∧
     Uuid.Parse body.(db_DstID) = Ok dst) ∨
  ∃ id orig, segs = [s2b "api"; s2b "transfers"; id; s2b "reverse"] ∧ Uuid.Parse (b2s id) = Ok orig.
Proof using Type.
  intros (_&_&<-). destruct 1 as [body src dst req (_&_&->) ???|body dst req (_&_&->) ??|id orig req (_&_&->) ?];
    eauto 10.
Qed.

(** A request that is refused before it reaches an operation. *)
Lemma knows_refused R K resp :
  no_call r → ready K → refuses resp → knows R K (mret resp) (response_known r).
Proof using Type. intros Hno [HK _]. by apply unmoved_known. Qed.

Lemma knows_keyless R K resp :
  key = "" → ready K → refuses resp → knows R K (mret resp) (response_known r).
Proof using Type. intros Hk. apply knows_refused. by left. Qed.

(** An operation that is asked for, and its answer. *)
Lemma knows_asked K (m : prog reply) r' c :
  asks r c → knows (requested c) K m (accounts_for c key) →
  knows (demands r) K (let! res := m in created r' res) (response_known r).
Proof using Type.
  intros Hc Hm. apply knows_bind. eapply knows_mono; [|eapply knows_weaken; [|apply Hm]].
  - intros K' res Hres. by eapply knows_created.
  - intros L' rq Hrq. by exists c.
Qed.

Lemma knows_createTransfer K id :
  ready K → posted r (s2b <$> ["api"; "transfers"]%string) →
  knows (demands r) K (createTransfer (M:=prog) (with_id r id)) (response_known r).
Proof using Type.
  intros HK Hp. unfold createTransfer. case_bool_decide; [by apply knows_keyless |].
  apply knows_after; [apply quiet_resolveRequestID |]. intros K1 req H1.
  pose proof (ready_still _ _ H1 HK) as HK1. cbn [req_Body with_id].
  assert (Hno : ∀ resp, refuses resp →
    (∀ body src dst, Decode transfer_fields (Json.parse r.(wr_Body)) (TransferBody "" "" Money.zero_value) = Ok body →
       Uuid.Parse body.(tb_SrcID) = Ok src → Uuid.Parse body.(tb_DstID) = Ok dst → False) →
    knows (demands r) K1 (mret resp) (response_known r)).
  { intros resp Hresp Hn. apply knows_refused; [right; intros c Hc | done | done].
    destruct (asks_inv _ _ Hp Hc) as [(_&body&src&dst&?&?&?)|[[[=] _]|(i&o&[=]&_)]]. by eapply Hn. }
  destruct (Decode transfer_fields _ _) as [b|] eqn:Hb; [|by apply Hno].
  pose proof (transfer_amount_proper _ _ Hb).
  destruct (parseUUIDField _ _) as [src|] eqn:Hsrc.
  2:{ apply parseUUIDField_refused in Hsrc as (?&?&Hsrc). apply Hno; [done |].
      intros body src dst [= <-] Hs. by rewrite Hsrc in Hs. }
  destruct (parseUUIDField (tb_DstID b) _) as [dst|] eqn:Hdst.
  2:{ apply parseUUIDField_refused in Hdst as (?&?&Hdst). apply Hno; [done |].
      intros body src' dst [= <-] _ Hd. by rewrite Hdst in Hd. }
  apply parseUUIDField_ok in Hsrc, Hdst. destruct HK1.
  eapply knows_asked; [by apply asks_transfer | by apply knows_Transfer].
Qed.

Lemma knows_createDeposit K id :
  ready K → posted r (s2b <$> ["api"; "deposits"]%string) →
  knows (demands r) K (createDeposit (M:=prog) (with_id r id)) (response_known r).
Proof using Type.
  intros HK Hp. unfold createDeposit. case_bool_decide; [by apply knows_keyless |].
  apply knows_after; [apply quiet_resolveRequestID |]. intros K1 req H1.
  pose proof (ready_still _ _ H1 HK) as HK1. cbn [req_Body with_id].
  assert (Hno : ∀ resp, refuses resp →
    (∀ body dst, Decode deposit_fields (Json.parse r.(wr_Body)) (DepositBody "" Money.zero_value) = Ok body →
       Uuid.Parse body.(db_DstID) = Ok dst → False) →
    knows (demands r) K1 (mret resp) (response_known r)).
  { intros resp Hresp Hn. apply knows_refused; [right; intros c Hc | done | done].
    destruct (asks_inv _ _ Hp Hc) as [[[=] _]|[(_&body&dst&?&?)|(i&o&[=]&_)]]. by eapply Hn. }
  destruct (Decode deposit_fields _ _) as [b|] eqn:Hb; [|by apply Hno].
  pose proof (deposit_amount_proper _ _ Hb).
  destruct (parseUUIDField _ _) as [dst|] eqn:Hdst.
  2:{ apply parseUUIDField_refused in Hdst as (?&?&Hdst). apply Hno; [done |].
      intros body dst [= <-] Hd. by rewrite Hdst in Hd. }
  apply parseUUIDField_ok in Hdst. destruct HK1.
  eapply knows_asked; [by apply asks_deposit | by apply knows_Deposit].
Qed.

Lemma knows_reverseTransfer K id :
  ready K → posted r [s2b "api"; s2b "transfers"; id; s2b "reverse"] →
  knows (demands r) K (reverseTransfer (M:=prog) (with_id r (b2s id))) (response_known r).
Proof using Type.
  intros HK Hp. unfold reverseTransfer. case_bool_decide; [by apply knows_keyless |].
  apply knows_after; [apply quiet_resolveRequestID |]. intros K1 req H1.
  pose proof (ready_still _ _ H1 HK) as HK1. cbn [req_PathID with_id].
  destruct (parseUUID _) as [orig|] eqn:Horig.
  2:{ apply parseUUID_refused in Horig as (?&?&Horig). apply knows_refused; [right; intros c Hc | done | done].
      destruct (asks_inv _ _ Hp Hc) as [[[=] _]|[[[=] _]|(i&o&[= <-]&Ho)]]. by rewrite Horig in Ho. }
  apply parseUUID_ok in Horig. destruct HK1.
  eapply knows_asked; [by eapply asks_reverse | by apply knows_Reverse].
Qed.

Lemma knows_createAccount R K r' :
  no_call r → ready K → knows R K (createAccount (M:=prog) r') (response_known r).
Proof using Type.
  intros Hno HK. unfold createAccount. repeat case_match; try by apply knows_refused. destruct HK as [HK _].
  apply knows_bind. eapply knows_mono; [|apply knows_CreateAccount]. intros K' [acc|e] [(_&E&_) Hacc].
  - split_and!; [lia | | intros; lia | by left | done]. intros _. by apply Hacc.
  - apply knows_unmoved; [done | congruence | apply quiet_answer | by intros u].
Qed.

(** The same of the answer to a web request. *)
Definition answer_known (K : known) (a : answer) : Prop :=
  (∀ resp, a = Api resp → response_known r K resp) ∧ (K.(kn_moved) ≠ 0%nat → ∃ resp, a = Api resp).

Lemma answer_known_lasting : lasting answer_known.
Proof.
  intros K K' a ([Hr Hp]&E&_) [Ha Hm]. split; rewrite ?E; [|done]. intros resp Hresp.
  destruct (Ha resp Hresp) as (H1&H2&H3&H4&H5). unfold response_known. rewrite E. split; [done |].
  split; [intros Hs; by eapply acknowledges_rely; [|apply H2] |]. split; [done |].
  split; [|intros Hs; by eapply shows_rely, H5].
  destruct H4 as [?|[?|[?|(c&e&L&st&code&Hc&HL&Hg)]]]; [tauto.. |]. right; right; right.
  exists c, e, L, st, code. split; [done |]. split; [by eapply past_mono | done].
Qed.

Lemma knows_api R K (m : prog response) :
  knows R K m (response_known r) → knows R K (let! x := m in mret (Api x)) answer_known.
Proof.
  intros Hm. apply knows_bind. eapply knows_mono, Hm. intros K' resp Hresp.
  split; [by intros ? [= <-] | by exists resp].
Qed.

Lemma knows_other R K (a : answer) :
  ready K → (∀ resp, a ≠ Api resp) → knows R K (mret a) answer_known.
Proof. intros [HK _] Ha. split; [by intros resp ?%Ha | by intros ?]. Qed.

Lemma knows_post_route K segs h id :
  ready K → posted r segs → post_route (M:=prog) segs = Some (h, id) →
  knows (demands r) K (h (with_id r id)) answer_known.
Proof.
  intros HK Hp Hr. unfold post_route in Hr.
  repeat (case_match; try done); simplify_eq; apply knows_api.
  - apply knows_createAccount; [right; intros c Hc | done].
    by destruct (asks_inv _ _ Hp Hc) as [[[=] _]|[[[=] _]|(i&o&[=]&_)]].
  - by apply knows_createTransfer.
  - by apply knows_createDeposit.
  - destruct_and!; subst. by apply knows_reverseTransfer.
Qed.

(** The handlers that read: an answer, or an error that is no 200. *)
Lemma knows_read {X} R K (m : prog (result error X)) (body : X → resp_body) (err : error → prog response)
    (Q : known → X → Prop) :
  no_call r → ready K → knows R K m (λ K' res, still K K' ∧ ∀ x, res = Ok x → Q K' x) →
  (∀ K' x, Q K' x → shows r K'.(kn_moments) K'.(kn_ledger) (body x)) →
  (∀ e, quiet (err e) ∧ always refuses (err e)) →
  knows R K (let! res := m in match res with Err e => err e | Ok x => mret (writeJSON StatusOK (body x)) end)
    (response_known r).
Proof using Type.
  intros Hno [HK _] Hm HQ Herr. apply knows_bind. eapply knows_mono, Hm. intros K' [x|e] [(_&E&_) Hx].
  - split_and!; [lia | done | intros; lia | by left |]. intros _. by apply HQ, Hx.
  - apply knows_unmoved; [done | congruence | apply Herr..].
Qed.

Lemma reads_err r' e :
  (quiet (internalError (M:=prog) r' e) ∧ always refuses (internalError (M:=prog) r' e)) ∧
  (quiet (mapError (M:=prog) r' e) ∧ always refuses (mapError (M:=prog) r' e)).
Proof using Type. destruct (quiet_answer r' e). split; (split; [done |]); [by intros u | apply always_mapError]. Qed.

Lemma knows_listAccounts R K r' :
  no_call r → ready K → reading r [s2b "api"; s2b "accounts"] →
  knows R K (listAccounts (M:=prog) r') (response_known r).
Proof using Type.
  intros Hno HK Hr. eapply knows_read; [done | done | apply knows_ListAccounts | | intros e; apply reads_err].
  intros K' l Hl. by apply shows_accounts.
Qed.

(** The id of the path. *)
Lemma knows_path_id R K c (f : UUID → prog response) :
  no_call r → ready K → (∀ id, Uuid.Parse (b2s c) = Ok id → knows R K (f id) (response_known r)) →
  knows R K (match parseUUID (b2s c) with Err resp => mret resp | Ok id => f id end) (response_known r).
Proof using Type.
  intros Hno HK Hf. destruct (parseUUID _) as [id|resp] eqn:Hp; [by apply Hf, parseUUID_ok |].
  apply parseUUID_refused in Hp as [? _]. by apply knows_refused.
Qed.

Lemma knows_getAccount R K c :
  no_call r → ready K → reading r [s2b "api"; s2b "accounts"; c] →
  knows R K (getAccount (M:=prog) (with_id r (b2s c))) (response_known r).
Proof using Type.
  intros Hno HK Hr. apply knows_path_id; [done | done |]. intros id Hid.
  eapply knows_read; [done | done | apply knows_GetAccount | | intros e; apply reads_err].
  intros K' a (<-&L&HL&Ha). by eapply shows_account.
Qed.

Lemma knows_listTransactions R K c :
  no_call r → ready K → reading r [s2b "api"; s2b "accounts"; c; s2b "transactions"] →
  knows R K (listTransactions (M:=prog) (with_id r (b2s c))) (response_known r).
Proof using Type.
  intros Hno HK Hr. apply knows_path_id; [done | done |]. intros id Hid.
  eapply knows_read; [done | done | apply knows_ListTransactionsForAccount | | intros e; apply reads_err].
  intros K' l Hl. by eapply shows_history.
Qed.

Lemma knows_listAudit R K c :
  no_call r → ready K → reading r [s2b "api"; s2b "accounts"; c; s2b "audit"] →
  knows R K (listAudit (M:=prog) (with_id r (b2s c))) (response_known r).
Proof using Type.
  intros Hno HK Hr. apply knows_path_id; [done | done |]. intros id Hid.
  eapply knows_read; [done | done | apply knows_ListAudit | | intros e; apply reads_err].
  intros K' l Hl. by eapply shows_audit.
Qed.

Lemma knows_listAllTransactions R K id :
  no_call r → ready K → reading r [s2b "api"; s2b "transactions"] →
  knows R K (listAllTransactions (M:=prog) (with_id r id)) (response_known r).
Proof using Type.
  intros Hno HK Hr. unfold listAllTransactions.
  assert (Hlist : ∀ k, k = kind_of r →
    knows R K (let! res := ListTransactions (Store.MkListOpts (limit_of r) (offset_of r) k) in
               match res with
               | Err err => internalError (with_id r id) err
               | Ok txns => mret (writeJSON StatusOK (RTransactions txns))
               end) (response_known r)).
  { intros k ->. eapply knows_read; [done | done | apply knows_ListTransactions | | intros e; apply reads_err].
    intros K' l Hl. by apply shows_transactions. }
  case_bool_decide as Hk; cbn [req_Query with_id] in *; [apply Hlist; unfold kind_of; by rewrite Hk |].
  destruct (validKinds _) as [tk|] eqn:Ev; [by apply Hlist | by apply knows_refused].
Qed.

Lemma knows_get_route R K segs h id :
  reading r segs → ready K → get_route (M:=prog) segs = Some (h, id) → knows R K (h (with_id r id)) answer_known.
Proof.
  intros Hr HK Hroute.
  assert (Hno : no_call r).
  { right. destruct Hr as [Hm _]. intros c [? ? ? ? [? _]|? ? ? [? _]|? ? ? [? _]]; destruct Hm; congruence. }
  unfold get_route, get_account_route in Hroute.
  repeat (case_match; try done); simplify_eq; try (by apply knows_other); apply knows_api;
    first [by apply knows_listAccounts | by apply knows_getAccount | by apply knows_listTransactions
          | by apply knows_listAudit | by apply knows_listAllTransactions].
Qed.

Lemma knows_handle K : ready K → knows (demands r) K (handle r) answer_known.
Proof.
  intros HK. unfold handle. rewrite serves_dispatch. unfold dispatch.
  case_decide; [case_match; by apply knows_other |]. case_decide; [by apply knows_other |].
  case_decide as Hclean; [by apply knows_other |].
  destruct (route _ _) as [[h id]|] eqn:Hr; [|case_match; by apply knows_other].
  unfold route in Hr. case_decide as Hget.
  { eapply knows_get_route; [|done | exact Hr]. split_and!; [done | done |]. by rewrite Hclean. }
  case_decide; [|done]. eapply knows_post_route; [done | | exact Hr]. split_and!; [done | done |]. by rewrite Hclean.
Qed.
End money.

(** What the requests demand, session by session, and what their answers tell. *)
Definition demanded (rs : list web_request) (p : nat) (L : ledger) (rq : request) : Prop :=
  ∃ r, rs !! p = Some r ∧ demands r L rq.

Lemma demanded_well_requested rs p : well_requested (demanded rs p).
Proof. intros L rq (r&_&Hrq). by eapply demands_well_requested. Qed.

Definition answered (rs : list web_request) (p : nat) (K : known) (a : answer) : Prop :=
  ∀ r, rs !! p = Some r → answer_known r K a.

Lemma answered_lasting rs p : lasting (answered rs p).
Proof. intros K K' a HK Ha r Hr. by eapply answer_known_lasting, Ha. Qed.

Lemma web_well_behaved rs : well_behaved (demanded rs) (answered rs) (handle <$> rs).
Proof.
  split; [apply Forall_fmap, Forall_forall; intros r _; apply stays_handle |].
  intros p m L Hm. rewrite list_lookup_fmap in Hm. apply fmap_Some in Hm as (r&Hr&->).
  eapply knows_mono; [|eapply knows_weaken; [|apply (knows_handle r); by split; [|exists L]]].
  - intros K a Ha r' Hr'. by simplify_eq.
  - intros L' rq Hrq. by exists r.
Qed.
