(* ===== verification/WebConcurrent.v ===== *)
(** * Requests served concurrently

    Any number of web requests are served at once by one server, each by a session
    of its own: the calls of their handlers to the database are interleaved in any
    way and fail at any time. *)

From Stdlib Require Import Ascii.
From S2P Require Import Prelude GoStd Decimal Money Uuid Ledger Schema Pgx Store Service LedgerSpec LedgerFacts StorerSpec ServiceSpec Numeric SchemaFacts StoreBlocks StoreRefines Guarantee Clients Migrations Prog Machine Locking Frames Serial Liveness Solo Trail Knowledge Answers Reads Books Scheduler Correctness Concurrent Json Http HttpFacts Mux Routes RoutesFacts WebFacts WebAnswers.
From stdpp Require Import options.
Import Ledger Schema LedgerSpec Migrations Http Mux Routes.
Open Scope Z_scope.

(** ** The books *)

(** C1: however the handlers of any number of concurrent requests are interleaved
    and whatever fails, the books are at every moment those of the committed
    movements one after the other, each one demanded by a request that was sent, with
    the accounts, amount and key of that request, and allowed by the ledger of that
    moment; the ledger stays correct, no money is made or lost, and nothing that was
    in the books is changed or removed. *)
Theorem concurrent_requests db rs tr y :
  sound_db db → ledger_inv (abs db.(tables)) → execution (web_system db rs) tr y →
  books (demanded rs) (abs db.(tables)) tr (abs y.(y_db).(tables)) ∧
  ledger_inv (abs y.(y_db).(tables)) ∧ total (abs y.(y_db).(tables)) = 0 ∧
  evolves (abs db.(tables)) (abs y.(y_db).(tables)).
Proof.
  intros Hok Hinv Hx.
  destruct (start_books _ (demanded_well_requested rs) _ (answered_lasting rs) db _ tr y (web_well_behaved rs) Hok Hinv Hx)
    as [Hb Hinv'].
  split; [done |]. split; [done |]. split; [by apply ledger_inv_total |].
  eapply books_rely; [apply demanded_well_requested | exact Hb].
Qed.

Lemma web_consistent db rs : sound_db db → consistent (web_system db rs).
Proof. intros Hok. apply start_consistent; [apply web_well_behaved | apply Hok]. Qed.

(** What the answer to request [p] tells of an execution that leaves the ledger [L] and
    in which the tables [P] have been. *)
Definition told (tr : list (nat * effect answer)) (L : ledger) (P : Tables → Prop) (p : nat) (r : web_request)
    (a : answer) : Prop :=
  (commits_of p tr <= 1)%nat ∧
  (commits_of p tr ≠ 0%nat → ∃ resp, a = Api resp ∧ (resp.(resp_status) = 201 ∨ resp.(resp_status) = 500)) ∧
  ∀ resp, a = Api resp →
    (resp.(resp_status) = 201 → acknowledges (idempotency_key r) L resp) ∧
    (no_call r ∨ resp.(resp_status) = 201 ∨ resp.(resp_status) = 500 ∨ justified r (past P) resp) ∧
    (resp.(resp_status) = 200 → shows r P L resp.(resp_body_)).

(** The answer of a session, if it has finished. *)
Definition answer_of (y : system answer) (p : nat) : option answer := s ← y.(y_sessions) !! p; finished s.(s_prog).

Lemma answers_told db rs tr y p r a :
  sound_db db → ledger_inv (abs db.(tables)) → execution (web_system db rs) tr y →
  rs !! p = Some r → answer_of y p = Some a →
  told tr (abs y.(y_db).(tables)) (was_at (web_system db rs) tr y) p r a.
Proof.
  intros Hok Hinv Hx Hr Ha. apply bind_Some in Ha as (s&Hp&Ha).
  destruct (start_answers _ (demanded_well_requested rs) _ (answered_lasting rs) db _ tr y p s a
              (web_well_behaved rs) Hok Hinv Hx Hp Ha) as (K&HL&HK&Hpast&HQ).
  destruct (HQ r Hr) as [Hresp Hm]. rewrite HK in Hm.
  assert (Hall : ∀ resp, a = Api resp →
    (resp.(resp_status) = 201 → acknowledges (idempotency_key r) (abs y.(y_db).(tables)) resp) ∧
    (no_call r ∨ resp.(resp_status) = 201 ∨ resp.(resp_status) = 500 ∨
     justified r (was (web_system db rs) tr y) resp) ∧
    (resp.(resp_status) = 200 → shows r (was_at (web_system db rs) tr y) (abs y.(y_db).(tables)) resp.(resp_body_))).
  { intros resp Ha'. destruct (Hresp resp Ha') as (_&H2&_&H4&H5). rewrite HL in H2, H5. split; [done |].
    split; [|intros Hs; by eapply shows_rely, H5].
    destruct H4 as [?|[?|[?|(c&e&L&st&code&Hc&HP&Hg)]]]; [tauto.. |]. right; right; right.
    exists c, e, L, st, code. split; [done |]. split; [by eapply past_mono | done]. }
  destruct (decide (commits_of p tr = 0%nat)) as [E|E]; [split; [lia | by split] |].
  destruct (Hm E) as [resp ->]. destruct (Hresp resp eq_refl) as (H1&_&H3&_&_). rewrite HK in H1, H3.
  split; [done |]. split; [eauto | done].
Qed.

(** C2: what a request is told is true, however the requests are interleaved and
    whatever fails.  A request commits at most one transaction block; it commits none
    when its answer is neither 201 nor 500, so that a refused request has moved no
    money; when it is answered 201, what the answer shows is in the books and stays
    there: the transaction, under the client's idempotency key, or the account; and
    when a request that asks for a transfer, deposit or reversal is answered neither
    201 nor 500, the answer is the documented one for an error that had its grounds in
    the ledger at some moment of the execution: an account or the original that was
    not there, a balance that did not cover the amount, a key or a reversal already
    recorded, a transaction that is no transfer, or a check that the call fails. *)
Theorem concurrent_answers db rs tr y p r a :
  sound_db db → ledger_inv (abs db.(tables)) → execution (web_system db rs) tr y →
  rs !! p = Some r → answer_of y p = Some a →
  (commits_of p tr <= 1)%nat ∧
  (commits_of p tr ≠ 0%nat → ∃ resp, a = Api resp ∧ (resp.(resp_status) = 201 ∨ resp.(resp_status) = 500)) ∧
  (∀ resp, a = Api resp → resp.(resp_status) = 201 →
     acknowledges (idempotency_key r) (abs y.(y_db).(tables)) resp) ∧
  ∀ resp c0, a = Api resp → asks r c0 → idempotency_key r ≠ "" →
    resp.(resp_status) ≠ 201 → resp.(resp_status) ≠ 500 →
    ∃ tr1 y1 tr2 c e st code,
      tr = tr1 ++ tr2 ∧ execution (web_system db rs) tr1 y1 ∧ execution y1 tr2 y ∧
      asks r c ∧ grounds c (abs y1.(y_db).(tables)) e ∧
      (e, (st, code)) ∈ documented ∧ resp = MkResponse st (RError code (Some (Error e))).
Proof.
  intros Hok Hinv Hx Hr Ha. destruct (answers_told db rs tr y p r a Hok Hinv Hx Hr Ha) as (H1&H2&H3).
  split; [done |]. split; [done |]. split; [intros resp Hresp; by apply H3 |].
  intros resp c0 Hresp Hc0 Hkey H201 H500. destruct (H3 resp Hresp) as (_&[[?|Hno]|[?|[?|Hj]]]&_); try done.
  { by destruct (Hno c0). }
  destruct Hj as (c&e&L&st&code&Hc&(t&(tr1&y1&tr2&->&Hx1&Hx2&->)&->)&Hg&Hdoc&->).
  by exists tr1, y1, tr2, c, e, st, code.
Qed.

(** C3: what a read shows is true, however the requests are interleaved and whatever
    fails.  When a GET is answered 200, there was a moment of the execution of whose
    committed tables it shows: the account of the path with its balance; all the user
    accounts, each once, with their balances, by name; a page of the transactions, all
    of them or those of the kind asked for, or those that touch the account of the path;
    or a page of the lines of the audit trail that name it.  A page is the slice that
    the limit and the offset ask for of the whole list, each row once, put in the order
    of creation with the most recent first.  Each transaction is shown with all of its
    legs, as it is recorded, never half of it, though its entries are read by a query of
    their own. *)
Theorem concurrent_reads db rs tr y p r resp :
  sound_db db → ledger_inv (abs db.(tables)) → execution (web_system db rs) tr y →
  rs !! p = Some r → answer_of y p = Some (Api resp) → resp.(resp_status) = 200 →
  shows r (was_at (web_system db rs) tr y) (abs y.(y_db).(tables)) resp.(resp_body_).
Proof.
  intros Hok Hinv Hx Hr Ha. by apply (answers_told db rs tr y p r (Api resp) Hok Hinv Hx Hr Ha).
Qed.

(** C8: READ COMMITTED with row locks is enough: the committed tables of any
    concurrent execution of requests are those of the committed transaction blocks
    run one at a time, each from its begin to its commit with nothing in between, in
    the order of the commits. *)
Theorem requests_serializable db rs tr y :
  sound_db db → execution (web_system db rs) tr y → serial db.(tables) tr y.(y_db).(tables).
Proof. intros Hok Hx. by apply (execution_consistent _ _ _ (web_consistent db rs Hok)). Qed.

(** C7: no schedule of the handlers of concurrent requests, whatever fails,
    deadlocks or runs for ever: until every request has its answer, some session can
    make its next database call without failing, and whichever session does so, the
    end comes closer. *)
Theorem every_request_answered db rs : sound_db db → inevitably all_finished (web_system db rs).
Proof. intros Hok. by apply consistent_answers, web_consistent. Qed.

(** ** A run *)

Definition post_body (src dst amount : string) : bytes :=
  (λ c, if decide (c = "'"%char) then quote else c) <$>
  s2b ("{'src_account_id':'" +:+ src +:+ "','dst_account_id':'" +:+ dst +:+ "','amount':'" +:+ amount +:+ "'}").

(** Two transfers in opposite directions, their calls alternating. *)
Definition first_request : web_request :=
  web "POST" "/api/transfers" "k1" (post_body (Uuid.String Alice) (Uuid.String Bob) "0.25").
Definition second_request : web_request :=
  web "POST" "/api/transfers" "k2" (post_body (Uuid.String Bob) (Uuid.String Alice) "0.05").
Definition opposite_requests : list web_request := [first_request; second_request].

Definition request_run : list (nat * effect answer) * system answer :=
  schedule demo_env 0 (mjoin (replicate 34 [0%nat; 1%nat])) (web_system (seed_db 0) opposite_requests).

Lemma request_run_execution : execution (web_system (seed_db 0) opposite_requests) request_run.1 request_run.2.
Proof. apply schedule_execution. Qed.

Example request_run_outcome :
  map (λ s, shape <$> finished s.(s_prog)) request_run.2.(y_sessions) = [Some (inr 201); Some (inr 201)] ∧
  omap (λ l : nat * effect answer, match l.2 with Commits _ _ => Some l.1 | _ => None end) request_run.1
    = [0%nat; 1%nat] ∧
  units_of Alice (abs request_run.2.(y_db).(tables)) = 100000000 - 2500 + 500 ∧
  units_of Bob (abs request_run.2.(y_db).(tables)) = 100000000 + 2500 - 500.
Proof. vm_compute. done. Qed.

Lemma concurrent_requests_witness :
  execution (web_system (seed_db 0) opposite_requests) request_run.1 request_run.2 ∧
  books (demanded opposite_requests) seed_ledger request_run.1 (abs request_run.2.(y_db).(tables)) ∧
  ledger_inv (abs request_run.2.(y_db).(tables)) ∧ total (abs request_run.2.(y_db).(tables)) = 0 ∧
  evolves seed_ledger (abs request_run.2.(y_db).(tables)).
Proof.
  split; [exact request_run_execution |]. rewrite <-(seed_abs 0).
  apply (concurrent_requests (seed_db 0) opposite_requests request_run.1 request_run.2).
  - apply seed_db_sound.
  - rewrite seed_abs. apply seed_ledger_inv.
  - exact request_run_execution.
Defined.

(** Two transfers of more than half of Alice's balance: the second waits for the rows,
    finds the balance that the first left, and is refused. *)
Definition large_request (k : string) : web_request :=
  web "POST" "/api/transfers" k (post_body (Uuid.String Alice) (Uuid.String Bob) "6000.00").
Definition large_requests : list web_request := [large_request "k1"; large_request "k2"].

Definition large_run : list (nat * effect answer) * system answer :=
  schedule demo_env 0 (mjoin (replicate 34 [0%nat; 1%nat])) (web_system (seed_db 0) large_requests).

Definition answer_at (y : system answer) (p : nat) : answer :=
  match answer_of y p with Some a => a | None => NotFound end.

Definition refusal_of (a : answer) : response :=
  match a with Api resp => resp | _ => MkResponse 0 (RError "" None) end.

Lemma large_run_execution : execution (web_system (seed_db 0) large_requests) large_run.1 large_run.2.
Proof. apply schedule_execution. Qed.

Example large_run_outcome :
  shape <$> [answer_at large_run.2 0; answer_at large_run.2 1] = [inr 201; inr 422] ∧
  refusal_of (answer_at large_run.2 1) = MkResponse 422 (RError "unprocessable" (Some (Error ErrInsufficientFunds))) ∧
  units_of Alice (abs large_run.2.(y_db).(tables)) = 100000000 - 60000000.
Proof. by vm_compute. Qed.

Lemma concurrent_answers_witness :
  (∀ resp, answer_at large_run.2 0 = Api resp → resp.(resp_status) = 201 →
     acknowledges "k1" (abs large_run.2.(y_db).(tables)) resp) ∧
  ∃ (y1 : system answer) c e, grounds c (abs y1.(y_db).(tables)) e ∧
    refusal_of (answer_at large_run.2 1) = MkResponse 422 (RError "unprocessable" (Some (Error e))).
Proof.
  assert (Hok := seed_db_sound 0). assert (Hinv : ledger_inv (abs (seed_db 0).(tables))) by (rewrite seed_abs; apply seed_ledger_inv).
  split.
  - destruct (concurrent_answers (seed_db 0) large_requests large_run.1 large_run.2 0%nat (large_request "k1")
                (answer_at large_run.2 0)) as (_&_&H&_);
      [exact Hok | exact Hinv | exact large_run_execution | reflexivity | by vm_compute | exact H].
  - destruct (concurrent_answers (seed_db 0) large_requests large_run.1 large_run.2 1%nat (large_request "k2")
                (answer_at large_run.2 1)) as (_&_&_&H);
      [exact Hok | exact Hinv | exact large_run_execution | reflexivity | by vm_compute |].
    destruct (H (refusal_of (answer_at large_run.2 1)) (CallTransfer Alice Bob (Money.of_units 60000000) "k2" ""))
      as (tr1&y1&tr2&c&e&st&code&_&_&_&_&Hg&Hdoc&Heq).
    + by vm_compute.
    + eapply (asks_transfer (large_request "k2") (TransferBody (Uuid.String Alice) (Uuid.String Bob) (Money.of_units 60000000)));
        [split_and!; reflexivity | by vm_compute | by vm_compute | by vm_compute].
    + by vm_compute.
    + by vm_compute.
    + by vm_compute.
    + exists y1, c, e. split; [exact Hg |]. rewrite Heq.
      pose proof (f_equal resp_status Heq) as Hst. vm_compute in Hst. simpl in Hst. subst st.
      unfold documented in Hdoc. rewrite !elem_of_cons, elem_of_nil in Hdoc.
      destruct_or!; try (by injection Hdoc as _ ? _); by injection Hdoc as _ ->.
Defined.

Lemma requests_serializable_witness :
  serial (seed_db 0).(tables) request_run.1 request_run.2.(y_db).(tables).
Proof.
  apply (requests_serializable (seed_db 0) opposite_requests); [apply seed_db_sound | exact request_run_execution].
Defined.

Lemma every_request_answered_witness : inevitably all_finished (web_system (seed_db 0) opposite_requests).
Proof. apply (every_request_answered (seed_db 0) opposite_requests), seed_db_sound. Defined.

(** A transfer, and reads that come while its block is open and after it: the first read
    of the account shows the balance before the transfer, though the row is already
    written. *)
Definition get (path : string) : web_request := web "GET" path "" [].
Definition account_path : string := "/api/accounts/" +:+ Uuid.String Alice.
Definition watched_requests : list web_request :=
  [first_request; get account_path; get account_path; get "/api/accounts";
   get (account_path +:+ "/transactions"); get (account_path +:+ "/audit")].

Definition watched_run : list (nat * effect answer) * system answer :=
  schedule demo_env 0
    (replicate 15 0%nat ++ replicate 5 1%nat ++ replicate 19 0%nat ++
     mjoin ((λ p, replicate 10 p) <$> [2; 3; 4; 5]%nat))
    (web_system (seed_db 0) watched_requests).

Lemma watched_run_execution : execution (web_system (seed_db 0) watched_requests) watched_run.1 watched_run.2.
Proof. apply schedule_execution. Qed.

(** What the reads of the run show, in short. *)
Definition gist (a : answer) : option (list Z) :=
  match a with
  | Api (MkResponse 200 (RAccount a)) => Some [Money.units a.(acc_Balance)]
  | Api (MkResponse 200 (RAccounts l)) => Some ((λ a, Money.units a.(acc_Balance)) <$> l)
  | Api (MkResponse 200 (RTransactions l)) => Some ((λ t, Z.of_nat (length t.(txn_Entries))) <$> l)
  | Api (MkResponse 200 (RAudit l)) => Some (omap (λ e, Money.units <$> e.(aud_Amount)) l)
  | _ => None
  end.

Example watched_run_outcome :
  gist <$> (answer_at watched_run.2 <$> [1; 2; 3; 4; 5]%nat)
  = [Some [100000000]; Some [100000000 - 2500]; Some [100000000 - 2500; 100000000 + 2500; 100000000];
     Some [2; 2]; Some [2500]].
Proof. by vm_compute. Qed.

Lemma concurrent_reads_witness :
  shows (get account_path) (was_at (web_system (seed_db 0) watched_requests) watched_run.1 watched_run.2)
    (abs watched_run.2.(y_db).(tables)) (refusal_of (answer_at watched_run.2 1)).(resp_body_).
Proof.
  apply (concurrent_reads (seed_db 0) watched_requests watched_run.1 watched_run.2 1%nat (get account_path)
           (refusal_of (answer_at watched_run.2 1)));
    [apply seed_db_sound | rewrite seed_abs; apply seed_ledger_inv | exact watched_run_execution | reflexivity
    | by vm_compute | by vm_compute].
Defined.
