(* ===== verification/Idempotency.v ===== *)
(** * One movement for each idempotency key

    Requests that carry the same key, sent at the same time or one after the other:
    at most one of them moves money, and all that are answered 201 are shown the
    same transaction. *)

From S2P Require Import Prelude GoStd Decimal Money Uuid Ledger Schema Pgx Store Service LedgerSpec LedgerFacts StorerSpec ServiceSpec Numeric SchemaFacts StoreBlocks StoreRefines Guarantee Clients Migrations Progress Prog Machine Locking Frames Serial Liveness Solo Knowledge Answers Reads Books Scheduler Correctness Concurrent Json Http HttpFacts Mux Routes RoutesFacts WebFacts WebAnswers WebConcurrent.
From stdpp Require Import options.
Import Ledger Schema LedgerSpec Migrations Http Mux Routes.
Open Scope Z_scope.

(** The blocks committed for requests with key [k]. *)
Fixpoint commits_under (rs : list web_request) (k : string) (tr : list (nat * effect answer)) : nat :=
  match tr with
  | [] => 0
  | (p, ev) :: tr =>
      (if decide (idempotency_key <$> rs !! p = Some k) then commits ev else 0) + commits_under rs k tr
  end.

(** A movement is made under the key of the request that demands it. *)
Lemma demands_key r L rq : demands r L rq → rq.(rq_key) = idempotency_key r.
Proof.
  intros (c&Hc&Hrq). destruct Hc; simpl in Hrq.
  - by destruct Hrq as (->&_).
  - by destruct Hrq as (->&_).
  - by destruct Hrq as (a&b&u&_&_&->).
Qed.

Lemma used_rely k L L' : rely L L' → ¬ key_fresh k L → ¬ key_fresh k L'.
Proof.
  intros [Hev _] Hu Hf. apply Hu. intros id x Hx. apply (Hf id).
  by eapply lookup_weaken, ev_txns.
Qed.

Lemma move_uses rq id L : ¬ key_fresh rq.(rq_key) (move rq id L).
Proof.
  intros Hf. unfold move in Hf.
  by apply (Hf id (Txn rq.(rq_kind) rq.(rq_key) rq.(rq_reverses) (rq_legs rq))); simpl; rewrite ?lookup_insert_eq.
Qed.

Lemma books_one_per_key rs k L tr L' :
  books (demanded rs) L tr L' →
  (commits_under rs k tr <= 1)%nat ∧ (¬ key_fresh k L → commits_under rs k tr = 0%nat).
Proof.
  induction 1 as [L|L p ev tr L1 L' Hst Hb [IH1 IH0]]; simpl; [split; [lia | done] |].
  pose proof (book_step_rely _ _ _ _ (demanded_well_requested rs p) Hst) as Hrely.
  destruct ev as [| |start stop]; simpl.
  1,2: case_decide; (split; [lia | intros Hu; apply IH0; by eapply used_rely]).
  destruct Hst as (id&rq&(r&Hr&Hrq)&Hcan&->). apply demands_key in Hrq.
  rewrite Hr. simpl. case_decide as Hk.
  - injection Hk as <-. rewrite <-Hrq in *. rewrite IH0 by apply move_uses.
    split; [lia |]. intros []. apply Hcan.
  - split; [lia |]. intros Hu. apply IH0. by eapply used_rely.
Qed.

(** A key that has moved money is used from then on. *)
Lemma books_use_key rs k L tr L' :
  books (demanded rs) L tr L' → commits_under rs k tr ≠ 0%nat → ¬ key_fresh k L'.
Proof.
  induction 1 as [L|L p ev tr L1 L' Hst Hb IH]; [done |]. simpl. intros Hne.
  destruct (decide (commits_under rs k tr = 0%nat)) as [Ez|?]; [|by apply IH].
  case_decide as Hk; [|lia]. destruct ev as [| |start stop]; simpl in Hne; [lia | lia |].
  eapply used_rely; [by eapply books_rely; [apply demanded_well_requested|] |].
  destruct Hst as (id&rq&(r&Hr&Hrq)&_&->). apply demands_key in Hrq.
  rewrite Hr in Hk. injection Hk as <-. rewrite <-Hrq. apply move_uses.
Qed.

(** an idempotency key moves money at most once, however the requests that
    carry it are interleaved and whatever fails, and not at all when it was used
    before; and all requests with one key that are answered 201 with a transaction
    are shown the same one. *)
Theorem one_movement_per_key db rs tr y k :
  sound_db db → ledger_inv (abs db.(tables)) → execution (web_system db rs) tr y →
  (commits_under rs k tr <= 1)%nat ∧
  (¬ key_fresh k (abs db.(tables)) → commits_under rs k tr = 0%nat) ∧
  ∀ p q r r' t u,
    rs !! p = Some r → idempotency_key r = k →
    answer_of y p = Some (Api (MkResponse 201 (RTransaction t))) →
    rs !! q = Some r' → idempotency_key r' = k →
    answer_of y q = Some (Api (MkResponse 201 (RTransaction u))) →
    t.(txn_ID) = u.(txn_ID) ∧ t.(txn_Kind) = u.(txn_Kind).
Proof.
  intros Hok Hinv Hx.
  destruct (start_books _ (demanded_well_requested rs) _ (answered_lasting rs) db _ tr y (web_well_behaved rs)
              Hok Hinv Hx) as [Hbooks Hinv'].
  destruct (books_one_per_key rs k _ _ _ Hbooks). split; [done |]. split; [done |].
  intros p q r r' t u Hp <- Hap Hq Hk Haq.
  destruct (answers_told db rs tr y p r _ Hok Hinv Hx Hp Hap) as (_&_&Ht).
  destruct (answers_told db rs tr y q r' _ Hok Hinv Hx Hq Haq) as (_&_&Hu).
  destruct (proj1 (Ht _ eq_refl) eq_refl) as [_ (x1&Hx1&Hk1&Hkind1)].
  destruct (proj1 (Hu _ eq_refl) eq_refl) as [_ (x2&Hx2&Hk2&Hkind2)].
  assert (Hid : txn_ID t = txn_ID u) by (eapply (inv_keys _ Hinv'); [done | done | congruence]).
  rewrite Hid in Hx1. split; [done |]. congruence.
Qed.

(** Two copies of one request, their calls alternating: both find the key unused,
    one moves the money, the other is refused by the unique index and answers with
    the transaction of the first. *)
Definition twin_requests : list web_request :=
  replicate 2 (web "POST" "/api/transfers" "k" (post_body (Uuid.String Alice) (Uuid.String Bob) "0.25")).

Definition twin_run : list (nat * effect answer) * system answer :=
  schedule demo_env 0 (mjoin (replicate 40 [0%nat; 1%nat])) (web_system (seed_db 0) twin_requests).

Lemma twin_run_execution : execution (web_system (seed_db 0) twin_requests) twin_run.1 twin_run.2.
Proof. apply schedule_execution. Qed.

Example twin_run_outcome :
  (λ s, shape <$> finished s.(s_prog)) <$> twin_run.2.(y_sessions) = [Some (inr 201); Some (inr 201)] ∧
  commits_under twin_requests "k" twin_run.1 = 1%nat ∧
  units_of Alice (abs twin_run.2.(y_db).(tables)) = 100000000 - 2500.
Proof. by vm_compute. Qed.

Definition shown (y : system answer) (p : nat) : Transaction :=
  match answer_of y p with
  | Some (Api (MkResponse _ (RTransaction t))) => t
  | _ => new_Transaction Uuid.Nil KindTransfer "" None
  end.

Lemma one_movement_per_key_witness :
  (commits_under twin_requests "k" twin_run.1 <= 1)%nat ∧
  (shown twin_run.2 0).(txn_ID) = (shown twin_run.2 1).(txn_ID).
Proof.
  destruct (one_movement_per_key (seed_db 0) twin_requests twin_run.1 twin_run.2 "k") as (Hle&_&Hsame);
    [apply seed_db_sound | rewrite seed_abs; apply seed_ledger_inv | exact twin_run_execution |].
  split; [exact Hle |].
  eapply (Hsame 0%nat 1%nat); [reflexivity | reflexivity | by vm_compute | reflexivity | reflexivity | by vm_compute].
Defined.
