(* ===== verification/Restart.v ===== *)
(** * Crashes and restarts

    The process of the server may die at any moment, with requests half served, and
    be started again on the same database; or it may only lose the connection of a
    session.  PostgreSQL rolls the open transaction blocks back: what is committed
    is all that is left.  Clients that did not hear retry with their idempotency
    key. *)

From S2P Require Import Prelude GoStd Decimal Money Uuid Ledger Schema Pgx Store Service LedgerSpec LedgerFacts StorerSpec ServiceSpec Numeric SchemaFacts StoreBlocks StoreRefines Guarantee Clients Migrations Progress Prog Machine Locking Frames Serial Liveness Solo Knowledge Answers Reads Books Scheduler Correctness Concurrent Json Http HttpFacts Mux Routes RoutesFacts WebFacts WebAnswers WebConcurrent Idempotency.
From stdpp Require Import options.
Import Ledger Schema LedgerSpec Migrations Http Mux Routes.
Open Scope Z_scope.

(** ** Generations *)

(** One life of the process: the requests that reached it, the steps of their
    sessions, and the state it was in when it ended. *)
Record life := MkLife {
  lf_requests : list web_request;
  lf_trace : list (nat * effect answer);
  lf_end : system answer }.

(** Lives of the process one after the other, each on the tables that the one
    before had committed when it ended, finished or not. *)
Inductive lives : DB → list life → DB → Prop :=
| lives_nil db : lives db [] db
| lives_cons db rs tr y ls db' :
    execution (web_system db rs) tr y → lives y.(y_db) ls db' →
    lives db (MkLife rs tr y :: ls) db'.

Definition moved_under (k : string) (f : life) : nat := commits_under f.(lf_requests) k f.(lf_trace).

(** What one life leaves to the next. *)
Lemma life_rely db rs tr y :
  sound_db db → ledger_inv (abs db.(tables)) → execution (web_system db rs) tr y →
  sound_db y.(y_db) ∧ ledger_inv (abs y.(y_db).(tables)) ∧ rely (abs db.(tables)) (abs y.(y_db).(tables)) ∧
  books (demanded rs) (abs db.(tables)) tr (abs y.(y_db).(tables)).
Proof.
  intros Hok Hinv Hx.
  destruct (start_books _ (demanded_well_requested rs) _ (answered_lasting rs) db _ tr y (web_well_behaved rs)
              Hok Hinv Hx) as [Hb Hinv'].
  split; [|split; [done |]].
  - by eapply (start_sound _ (demanded_well_requested rs) _ (answered_lasting rs)); [apply web_well_behaved | ..].
  - split; [|done]. eapply books_rely; [apply demanded_well_requested | done].
Qed.

Lemma lives_rely db ls db' :
  sound_db db → ledger_inv (abs db.(tables)) → lives db ls db' →
  ledger_inv (abs db'.(tables)) ∧ rely (abs db.(tables)) (abs db'.(tables)).
Proof.
  intros Hok Hinv Hl. induction Hl as [db|db rs tr y ls db' Hx Hl IH]; [by split |].
  destruct (life_rely _ _ _ _ Hok Hinv Hx) as (Hok'&Hinv'&Hr&_). destruct (IH Hok' Hinv') as [? ?].
  split; [done | by etrans].
Qed.

(** A key moves money in one life at most, and not once it is used. *)
Lemma lives_one_per_key db ls db' k :
  sound_db db → ledger_inv (abs db.(tables)) → lives db ls db' →
  (sum_list (moved_under k <$> ls) <= 1)%nat ∧
  (¬ key_fresh k (abs db.(tables)) → sum_list (moved_under k <$> ls) = 0%nat).
Proof.
  intros Hok Hinv Hl. induction Hl as [db|db rs tr y ls db' Hx Hl IH]; [by split; [simpl; lia|] |].
  destruct (life_rely _ _ _ _ Hok Hinv Hx) as (Hok'&Hinv'&Hr&Hb). destruct (IH Hok' Hinv') as [IH1 IH0].
  destruct (books_one_per_key _ k _ _ _ Hb) as [H1 H0]. rewrite fmap_cons. cbn [sum_list_with].
  change (id (moved_under k (MkLife rs tr y))) with (commits_under rs k tr). split.
  - destruct (decide (commits_under rs k tr = 0%nat)) as [E|E]; [lia |].
    rewrite IH0 by (by eapply books_use_key). lia.
  - intros Hu. rewrite H0, IH0; [done | by eapply used_rely | done].
Qed.

(** What was acknowledged in some life is still there at the end. *)
Lemma lives_acknowledged db ls db' f p r resp :
  sound_db db → ledger_inv (abs db.(tables)) → lives db ls db' → f ∈ ls →
  f.(lf_requests) !! p = Some r → answer_of f.(lf_end) p = Some (Api resp) → resp.(resp_status) = 201 →
  acknowledges (idempotency_key r) (abs db'.(tables)) resp.
Proof.
  intros Hok Hinv Hl. revert Hok Hinv.
  induction Hl as [db|db rs tr y ls db' Hx Hl IH]; intros Hok Hinv Hf Hp Ha Hs; [by apply not_elem_of_nil in Hf |].
  destruct (life_rely _ _ _ _ Hok Hinv Hx) as (Hok'&Hinv'&_&_).
  apply elem_of_cons in Hf as [->|Hf]; [|by apply IH]. simpl in *.
  eapply acknowledges_rely; [by eapply lives_rely |].
  destruct (answers_told db rs tr y p r _ Hok Hinv Hx Hp Ha) as (_&_&Ht). by apply (Ht resp eq_refl).
Qed.

(** ** Nothing acknowledged is lost, nothing is done twice *)

(** C4: whenever the process dies and however often it is started again on its
    database, with any number of requests served concurrently in each life and
    whatever fails: the ledger stays correct, no money is made or lost, nothing that
    was committed is changed or removed; what any life acknowledged with a 201 is in
    the books at the end; a key moves money at most once over all the lives, so that
    a client may retry after a crash, and not at all when it was used before; and all
    who are shown a transaction for a key are shown the same one. *)
Theorem crash_safe db ls db' :
  sound_db db → ledger_inv (abs db.(tables)) → lives db ls db' →
  ledger_inv (abs db'.(tables)) ∧ total (abs db'.(tables)) = 0 ∧
  evolves (abs db.(tables)) (abs db'.(tables)) ∧
  (∀ k, (sum_list (moved_under k <$> ls) <= 1)%nat ∧
        (¬ key_fresh k (abs db.(tables)) → sum_list (moved_under k <$> ls) = 0%nat)) ∧
  (∀ f p r resp, f ∈ ls → f.(lf_requests) !! p = Some r → answer_of f.(lf_end) p = Some (Api resp) →
     resp.(resp_status) = 201 → acknowledges (idempotency_key r) (abs db'.(tables)) resp) ∧
  ∀ f p r t g q r' u, f ∈ ls → f.(lf_requests) !! p = Some r →
    answer_of f.(lf_end) p = Some (Api (MkResponse 201 (RTransaction t))) →
    g ∈ ls → g.(lf_requests) !! q = Some r' →
    answer_of g.(lf_end) q = Some (Api (MkResponse 201 (RTransaction u))) →
    idempotency_key r = idempotency_key r' →
    t.(txn_ID) = u.(txn_ID) ∧ t.(txn_Kind) = u.(txn_Kind).
Proof.
  intros Hok Hinv Hl. destruct (lives_rely _ _ _ Hok Hinv Hl) as [Hinv' Hr].
  split; [done |]. split; [by apply ledger_inv_total |]. split; [apply Hr |].
  split; [intros k; by eapply lives_one_per_key |].
  split; [intros; by eapply lives_acknowledged |].
  intros f p r t g q r' u Hf Hp Ha Hg Hq Hb Hk.
  destruct (lives_acknowledged _ _ _ f p r _ Hok Hinv Hl Hf Hp Ha eq_refl) as [_ (x1&Hx1&Hk1&Hkind1)].
  destruct (lives_acknowledged _ _ _ g q r' _ Hok Hinv Hl Hg Hq Hb eq_refl) as [_ (x2&Hx2&Hk2&Hkind2)].
  assert (Hid : txn_ID t = txn_ID u) by (eapply (inv_keys _ Hinv'); [done | done | congruence]).
  rewrite Hid in Hx1. split; [done |]. congruence.
Qed.

(** ** Three lives *)

(** A client sends a transfer and retries it with its key.  The first process dies
    with the balances updated and the block open, the second between the commit and
    the answer, the third answers. *)
Definition one_request : list web_request :=
  [web "POST" "/api/transfers" "k" (post_body (Uuid.String Alice) (Uuid.String Bob) "0.25")].

(** A life of [n] turns, from tick [tick] of the environment on. *)
Definition live_for (tick n : nat) (db : DB) : life :=
  let run := schedule demo_env tick (replicate n 0%nat) (web_system db one_request) in
  MkLife one_request run.1 run.2.

Lemma live_for_lives tick n db ls db' :
  lives (live_for tick n db).(lf_end).(y_db) ls db' → lives db (live_for tick n db :: ls) db'.
Proof. apply lives_cons, schedule_execution. Qed.

Definition life_1 : life := live_for 0 15 (seed_db 0).
Definition life_2 : life := live_for 100 18 life_1.(lf_end).(y_db).
Definition life_3 : life := live_for 200 30 life_2.(lf_end).(y_db).

Lemma three_lives : lives (seed_db 0) [life_1; life_2; life_3] life_3.(lf_end).(y_db).
Proof.
  apply (live_for_lives 0 15 (seed_db 0)), (live_for_lives 100 18 life_1.(lf_end).(y_db)),
    (live_for_lives 200 30 life_2.(lf_end).(y_db)), lives_nil.
Qed.

Definition open_balances (f : life) : option nat :=
  s ← f.(lf_end).(y_sessions) !! 0%nat; b ← s.(s_block); Some (size b.(b_writes).(w_accounts)).

Example three_lives_outcome :
  (λ f, shape <$> answer_of f.(lf_end) 0) <$> [life_1; life_2; life_3] = [None; None; Some (inr 201)] ∧
  open_balances <$> [life_1; life_2; life_3] = [Some 2%nat; None; None] ∧
  moved_under "k" <$> [life_1; life_2; life_3] = [0; 1; 0]%nat ∧
  (λ f, units_of Alice (abs f.(lf_end).(y_db).(tables))) <$> [life_1; life_2; life_3]
    = [100000000; 100000000 - 2500; 100000000 - 2500].
Proof. by vm_compute. Qed.

Lemma crash_safe_witness :
  lives (seed_db 0) [life_1; life_2; life_3] life_3.(lf_end).(y_db) ∧
  total (abs life_3.(lf_end).(y_db).(tables)) = 0 ∧
  (sum_list (moved_under "k" <$> [life_1; life_2; life_3]) <= 1)%nat.
Proof.
  split; [exact three_lives |].
  destruct (crash_safe (seed_db 0) [life_1; life_2; life_3] life_3.(lf_end).(y_db)) as (_&Htot&_&Hkey&_);
    [apply seed_db_sound | rewrite seed_abs; apply seed_ledger_inv | exact three_lives |].
  split; [exact Htot | exact (proj1 (Hkey "k"))].
Defined.

(** ** A lost connection *)

(** Both transfers of [opposite_requests] are under way and the second waits for the
    rows that the first has locked, when the first loses its connection. *)
Definition before_loss : list (nat * effect answer) * system answer :=
  schedule demo_env 0 (replicate 15 0%nat ++ replicate 15 1%nat) (web_system (seed_db 0) opposite_requests).

Definition severed : system answer := default before_loss.2 (sever 0 before_loss.2).

Definition after_loss : list (nat * effect answer) * system answer :=
  schedule demo_env 100 (replicate 30 1%nat ++ replicate 30 0%nat) severed.

Lemma after_loss_execution :
  execution (web_system (seed_db 0) opposite_requests)
    (before_loss.1 ++ (if sever 0 before_loss.2 is Some _ then [(0%nat, Silent)] else []) ++ after_loss.1) after_loss.2.
Proof.
  eapply execution_app; [apply schedule_execution |].
  eapply execution_app; [apply sever_execution | apply schedule_execution].
Qed.

(** The second transfer goes through on what was committed; the first, whose client
    is told of an internal error, has moved nothing. *)
Example after_loss_outcome :
  waiting_for before_loss.2.(y_db) <$> before_loss.2.(y_sessions) = [None; Some (RowLock Alice)] ∧
  (λ s, shape <$> finished s.(s_prog)) <$> after_loss.2.(y_sessions) = [Some (inr 500); Some (inr 201)] ∧
  omap (λ l : nat * effect answer, match l.2 with Commits _ _ => Some l.1 | _ => None end) after_loss.1 = [1%nat] ∧
  units_of Alice (abs after_loss.2.(y_db).(tables)) = 100000000 + 500.
Proof. by vm_compute. Qed.
