(* ===== verification/AuditTrail.v ===== *)
(** * The audit trail is true

    The lines of the audit trail are not written in the transactions that they tell
    of.  Among any number of concurrent requests, whatever fails and however often the
    process dies, they still tell the truth: a success that is reported is in the
    books, as it is reported, and is reported once. *)

From S2P Require Import Prelude GoStd Decimal Money Uuid Ledger Schema Pgx Store Service LedgerSpec LedgerFacts StorerSpec ServiceSpec Numeric SchemaFacts StoreBlocks StoreRefines Guarantee Clients Migrations Progress Prog Machine Locking Frames Serial Liveness Solo Trail Knowledge Answers Reads Books Scheduler Correctness Concurrent Json Http HttpFacts Mux Routes RoutesFacts WebFacts WebAnswers WebConcurrent Idempotency Restart.
From stdpp Require Import options.
Import Ledger Schema LedgerSpec Migrations Http Mux Routes.
Open Scope Z_scope.

(** ** The invariant *)

(** The transactions whose success the trail reports, line by line. *)
Definition successes (L : ledger) : list UUID := omap reported L.(trail).

Record trail_ok (L : ledger) : Prop := {
  tr_true : Forall (truthful L) L.(trail);
  tr_once : NoDup (successes L) }.

(** The movements whose lines are due: each is in the books, is not reported yet, and
    is that of one session. *)
Definition owed (due : nat → option UUID) (L : ledger) : Prop :=
  ∀ p id, due p = Some id →
    is_Some (L.(txns) !! id) ∧ (id ∉ successes L) ∧ ∀ q, due q = Some id → q = p.

Lemma successes_recorded L id : trail_ok L → id ∈ successes L → is_Some (L.(txns) !! id).
Proof.
  intros [Ht _] (u&Hu&Hr)%list_elem_of_omap. rewrite Forall_forall in Ht. by eapply truthful_reported, Hr; auto.
Qed.

Lemma successes_add u L : successes (add_audit u L) = successes L ++ option_list (reported u).
Proof. unfold successes, add_audit. simpl. rewrite omap_app. simpl. by destruct (reported u). Qed.

(** More transactions and accounts leave the trail true. *)
Lemma trail_ok_rely L L' : rely L L' → L'.(trail) = L.(trail) → trail_ok L → trail_ok L'.
Proof.
  intros Hr He [Ht Hn]. split; unfold successes in *; rewrite He; [|done].
  eapply Forall_impl; [exact Ht |]. intros u. by apply truthful_rely.
Qed.

Lemma trail_ok_add u L :
  truthful L u → (∀ id, reported u = Some id → id ∉ successes L) → trail_ok L → trail_ok (add_audit u L).
Proof.
  intros Hu Hnew [Ht Hn]. split.
  - apply Forall_app_2; [|apply Forall_singleton]; [eapply Forall_impl; [exact Ht |]; intros v Hv|];
      (eapply truthful_rely; [apply add_audit_rely | done]).
  - rewrite successes_add. destruct (reported u) as [id|]; simpl; [|by rewrite app_nil_r].
    apply NoDup_app. split; [done |]. split; [|apply NoDup_singleton].
    intros i Hi. rewrite list_elem_of_singleton. intros ->. by eapply Hnew.
Qed.

(** What is owed when a session owes less than before, or nothing. *)
Lemma owed_less due due1 L L' p :
  rely L L' → successes L' = successes L → (due1 p = due p ∨ due1 p = None) → (∀ q, q ≠ p → due1 q = due q) →
  owed due L → owed due1 L'.
Proof.
  intros [[_ Htx _] _] He Hp Hother Ho.
  assert (Hsub : ∀ q id, due1 q = Some id → due q = Some id).
  { intros q id Hq. destruct (decide (q = p)) as [->|]; [|by rewrite <-Hother]. destruct Hp; congruence. }
  intros q id Hq. destruct (Ho q id (Hsub q id Hq)) as ([x Hx]&Hs&Hu). rewrite He.
  split_and!; [exists x; by eapply lookup_weaken | done | auto].
Qed.

(** A session reports the movement that it owes. *)
Lemma owed_report due due1 L u p id :
  reported u = Some id → due p = Some id → due1 p = None → (∀ q, q ≠ p → due1 q = due q) →
  owed due L → owed due1 (add_audit u L).
Proof.
  intros Hu Hp Hp1 Hother Ho q i Hq.
  assert (Hne : q ≠ p) by congruence. rewrite Hother in Hq by done.
  destruct (Ho q i Hq) as (Hx&Hs&Huniq). split; [done |]. split.
  - rewrite successes_add, Hu. simpl. rewrite elem_of_app, list_elem_of_singleton. intros [?| ->]; [done |]. apply Hne. symmetry. auto.
  - intros q' Hq'. assert (q' ≠ p) by congruence. rewrite Hother in Hq' by done. auto.
Qed.

(** A session owes the movement that it has made. *)
Lemma owed_move due due1 L rq id p :
  trail_ok L → can_move rq id L → rely L (move rq id L) →
  (due1 p = Some id ∨ due1 p = None) → (∀ q, q ≠ p → due1 q = due q) →
  owed due L → owed due1 (move rq id L).
Proof.
  intros Hok Hcan [[_ Htx _] _] Hp Hother Ho.
  assert (Hnone : L.(txns) !! id = None) by apply Hcan.
  assert (Hfresh : ∀ q, due q ≠ Some id) by (intros q Hq; destruct (Ho q id Hq) as ([x Hx]&_); congruence).
  intros q i Hq. change (successes (move rq id L)) with (successes L). destruct (decide (q = p)) as [->|Hne].
  - destruct Hp as [Hp|Hp]; rewrite Hp in Hq; [injection Hq as <- | done]. split_and!.
    + unfold move. simpl. rewrite lookup_insert_eq. eauto.
    + intros Hin%successes_recorded; [|done]. rewrite Hnone in Hin. by destruct Hin.
    + intros q' Hq'. destruct (decide (q' = p)) as [|Hne]; [done |]. rewrite Hother in Hq' by done. by apply Hfresh in Hq'.
  - rewrite Hother in Hq by done. destruct (Ho q i Hq) as ([x Hx]&Hsi&Hu).
    split_and!; [exists x; by eapply lookup_weaken | done |].
    intros q' Hq'. destruct (decide (q' = p)) as [->|]; [|apply Hu; by rewrite <-Hother].
    destruct Hp as [Hp|Hp]; rewrite Hp in Hq'; [injection Hq' as <-; by apply Hfresh in Hq | done].
Qed.

Lemma due_step_trail {A} R due due1 p L (ev : effect A) L' :
  well_requested R → due_step R (due p) L ev (due1 p) L' → (∀ q, q ≠ p → due1 q = due q) →
  trail_ok L → owed due L → trail_ok L' ∧ owed due1 L'.
Proof.
  intros HR Hst Hother Hok Ho. pose proof (book_step_rely _ _ _ _ HR (due_step_book _ _ _ _ _ _ Hst)) as Hrely.
  destruct ev as [| |st q]; simpl in Hst.
  - destruct Hst as [-> Hd]. split; [done |]. by eapply (owed_less due); [| | left | |].
  - destruct Hst as (Hbk&Hd&Hrep). destruct Hbk as [->|[(id&_&->)|(u&Hu&->)]].
    + split; [done |]. by eapply (owed_less due).
    + split; [by eapply trail_ok_rely |]. by eapply (owed_less due).
    + specialize (Hrep u). destruct (reported u) as [id|] eqn:Er.
      * destruct (Hrep id eq_refl eq_refl) as [Hp Hp1]. split; [|by eapply owed_report].
        apply trail_ok_add; [done | | done]. rewrite Er. intros i [= <-]. by apply (Ho p).
      * split; [apply trail_ok_add; [done | congruence | done] |].
        eapply (owed_less due); [done | | done | done | done]. by rewrite successes_add, Er, app_nil_r.
  - destruct Hst as (id&(rq&_&Hcan&->)&Hd). split; [by eapply trail_ok_rely | by eapply owed_move].
Qed.

Lemma due_books_trail {A} R due L (tr : list (nat * effect A)) L' :
  (∀ p, well_requested (R p)) → due_books R due L tr L' → trail_ok L → owed due L → trail_ok L'.
Proof.
  intros HR. induction 1 as [|due L p ev tr due1 L1 L' Hst Hother _ IH]; [done |]. intros Hok Ho.
  destruct (due_step_trail _ _ _ _ _ _ _ (HR p) Hst Hother Hok Ho). by apply IH.
Qed.

(** ** The claim *)

Lemma life_trail db rs tr y :
  sound_db db → ledger_inv (abs db.(tables)) → execution (web_system db rs) tr y →
  trail_ok (abs db.(tables)) → trail_ok (abs y.(y_db).(tables)).
Proof.
  intros Hok Hinv Hx Ht.
  destruct (start_due_books _ (demanded_well_requested rs) _ (answered_lasting rs) db _ tr y (web_well_behaved rs)
              Hok Hinv Hx) as [Hb _].
  by eapply due_books_trail; [apply demanded_well_requested | ..].
Qed.

(** The lines that a read shows. *)
Lemma life_audit_shown db rs tr y p r l :
  sound_db db → ledger_inv (abs db.(tables)) → trail_ok (abs db.(tables)) → execution (web_system db rs) tr y →
  rs !! p = Some r → answer_of y p = Some (Api (MkResponse 200 (RAudit l))) →
  Forall (truthful (abs y.(y_db).(tables))) (audit_of <$> l).
Proof.
  intros Hok Hinv Ht Hx Hr Ha.
  destruct (answers_told db rs tr y p r _ Hok Hinv Hx Hr Ha) as (_&_&Htold).
  destruct (Htold _ eq_refl) as (_&_&Hshows). specialize (Hshows eq_refl).
  inversion Hshows as [| | | |c id l' _ _ (_&t&all&HL&Hall&_&Hl&_)]; subst. rewrite Hl.
  assert (HtL : trail_ok (abs t)).
  { destruct HL as (tr1&y1&tr2&_&Hx1&_&->). by eapply life_trail. }
  pose proof (start_was _ (demanded_well_requested rs) _ (answered_lasting rs) db _ tr y (abs t) (web_well_behaved rs) Hok Hinv
                (ex_intro _ t (conj HL eq_refl))) as Hrely.
  apply Forall_forall. intros u Hu. eapply truthful_rely; [exact Hrely |].
  apply (proj1 (Forall_forall _ _) (tr_true _ HtL)). unfold page in Hu.
  apply subseteq_take, subseteq_drop, list_elem_of_fmap in Hu as (row&->&Hu). rewrite Hall in Hu.
  apply list_elem_of_filter in Hu as [_ Hu]. by apply list_elem_of_fmap_2.
Qed.

Lemma lives_trail db ls db' :
  sound_db db → ledger_inv (abs db.(tables)) → trail_ok (abs db.(tables)) → lives db ls db' →
  trail_ok (abs db'.(tables)) ∧
  ∀ f p r l, f ∈ ls → f.(lf_requests) !! p = Some r →
    answer_of f.(lf_end) p = Some (Api (MkResponse 200 (RAudit l))) →
    Forall (truthful (abs db'.(tables))) (audit_of <$> l).
Proof.
  intros Hok Hinv Ht Hl.
  induction Hl as [db|db rs tr y ls db' Hx Hl IH]; [split; [done | by intros ? ? ? ? ?%not_elem_of_nil] |].
  destruct (life_rely _ _ _ _ Hok Hinv Hx) as (Hok'&Hinv'&_&_).
  destruct (IH Hok' Hinv' (life_trail _ _ _ _ Hok Hinv Hx Ht)) as [Ht' Hshown]. split; [done |].
  intros f p r l [->|Hf]%elem_of_cons Hp Ha; [|by eapply Hshown]. simpl in *.
  eapply Forall_impl; [by eapply (life_audit_shown db rs tr y) |]. intros u.
  by apply truthful_rely; eapply lives_rely.
Qed.

(** C5: the audit trail tells the truth.  It is written outside of the transactions
    that it tells of; still, however many requests are served concurrently, whatever
    fails and however often the process dies and is started again: each line that
    reports a success names a transaction that is in the books, of the kind, between
    the accounts and of the amount that the line gives; no transaction is reported
    twice; a line that reports a failure names no transaction and has a reason; no
    line is ever changed or removed; and the lines that a client is shown are such
    lines. *)
Theorem audit_trail_true db ls db' :
  sound_db db → ledger_inv (abs db.(tables)) → trail_ok (abs db.(tables)) → lives db ls db' →
  trail_ok (abs db'.(tables)) ∧ (abs db.(tables)).(trail) `prefix_of` (abs db'.(tables)).(trail) ∧
  ∀ f p r l, f ∈ ls → f.(lf_requests) !! p = Some r →
    answer_of f.(lf_end) p = Some (Api (MkResponse 200 (RAudit l))) →
    Forall (truthful (abs db'.(tables))) (audit_of <$> l).
Proof.
  intros Hok Hinv Ht Hl. destruct (lives_trail _ _ _ Hok Hinv Ht Hl) as [? ?].
  split_and!; [done | | done]. by eapply lives_rely in Hl as [_ [[_ _ ?] _]].
Qed.

(** ** Two transfers, and a crash *)

(** The life of [request_run]: both transfers commit, and each reports its own. *)
Definition busy_life : life := MkLife opposite_requests request_run.1 request_run.2.

Lemma busy_life_lives : lives (seed_db 0) [busy_life] request_run.2.(y_db).
Proof. eapply lives_cons; [exact request_run_execution | constructor]. Qed.

Definition line (u : audit) : string * option Z * Outcome := (u.(u_operation), u.(u_units), u.(u_outcome)).

Example busy_life_trail :
  line <$> (abs request_run.2.(y_db).(tables)).(trail)
  = [("TRANSFER", Some 2500, OutcomeSuccess); ("TRANSFER", Some 500, OutcomeSuccess)].
Proof. by vm_compute. Qed.

Lemma seed_trail_ok : trail_ok seed_ledger.
Proof. split; constructor. Qed.

Lemma audit_trail_true_witness :
  lives (seed_db 0) [busy_life] request_run.2.(y_db) ∧
  length (successes (abs request_run.2.(y_db).(tables))) = 2%nat ∧
  trail_ok (abs request_run.2.(y_db).(tables)).
Proof.
  split; [exact busy_life_lives |]. split; [by vm_compute |].
  apply (audit_trail_true (seed_db 0) [busy_life] request_run.2.(y_db));
    [apply seed_db_sound | rewrite seed_abs; apply seed_ledger_inv | rewrite seed_abs; exact seed_trail_ok
    | exact busy_life_lives].
Defined.

(** What the trail does not tell: in the three lives of [three_lives] the process dies
    between the commit of the transfer and its line; the retry replays the transaction
    without writing one, and the transfer stays unreported though it is acknowledged
    with a 201. *)
Example replay_unreported :
  (λ f, shape <$> answer_of f.(lf_end) 0) <$> [life_2; life_3] = [None; Some (inr 201)] ∧
  size (abs life_3.(lf_end).(y_db).(tables)).(txns) = S (size (abs life_1.(lf_end).(y_db).(tables)).(txns)) ∧
  (abs life_3.(lf_end).(y_db).(tables)).(trail) = [].
Proof. by vm_compute. Qed.
