(* ===== verification/JsonFacts.v ===== *)
(** * What is written is read back

    The values the program writes as JSON are read back as they are: strings, with
    what is not UTF-8 replaced, integers, arrays and objects. *)

From Stdlib Require Import Ascii.
From S2P Require Import Prelude GoStd Uuid Json.
From stdpp Require Import options.
Import Json.
Open Scope Z_scope.

(** ** Strings *)

Lemma put_put p1 p2 r : put p1 (put p2 r) = put (p1 ++ p2) r.
Proof. destruct r as [[t r]|]; [|done]. unfold put. simpl. by rewrite app_assoc. Qed.

Lemma unquote_escaped c t : (code c <? 128)%N = true → unquote 0 (escaped c ++ t) = put [c] (unquote 0 t).
Proof. destruct c as [[] [] [] [] [] [] [] []]; intros Hc; first [discriminate Hc | reflexivity]. Qed.

Lemma unquote_replacement t : unquote 0 (s2b "\ufffd" ++ t) = put replacement (unquote 0 t).
Proof. reflexivity. Qed.

Lemma rune_len_length s n : rune_len s = Some n → (1 <= n <= length s)%nat.
Proof.
  unfold rune_len. destruct s as [|c0 [|c1 [|c2 [|c3 s]]]]; try done; intros H;
    repeat case_match; simplify_eq; simpl; lia.
Qed.

(** Only the sequence itself is looked at. *)
Lemma rune_len_prefix s n t : rune_len s = Some n → rune_len (take n s ++ t) = Some n.
Proof.
  unfold rune_len. destruct s as [|c0 s]; [done |]. destruct (code c0 <? 128)%N eqn:E0.
  { intros [= <-]. simpl. by rewrite E0. }
  destruct (within 194 223 c0) eqn:E1.
  { destruct s as [|c1 s]; [done |]. destruct (within 128 191 c1) eqn:E2; [|done]. intros [= <-].
    simpl. by rewrite E0, E1, E2. }
  destruct (within 224 239 c0) eqn:E2.
  { destruct s as [|c1 [|c2 s]]; try done. destruct (_ && _) eqn:E3; [|done]. intros [= <-].
    simpl. by rewrite E0, E1, E2, E3. }
  destruct (within 240 244 c0) eqn:E3; [|done].
  destruct s as [|c1 [|c2 [|c3 s]]]; try done. destruct (_ && _ && _) eqn:E4; [|done]. intros [= <-].
  simpl. by rewrite E0, E1, E2, E3, E4.
Qed.

Lemma quoted_keep k s : (k <= length s)%nat → quoted 0 k s = take k s ++ quoted 0 0 (drop k s).
Proof.
  revert s. induction k as [|k IH]; intros s Hk; [done |]. destruct s as [|c s]; simpl in Hk; [lia |].
  simpl. by rewrite IH by lia.
Qed.

Lemma coerced_keep k s : (k <= length s)%nat → coerced k s = take k s ++ coerced 0 (drop k s).
Proof.
  revert s. induction k as [|k IH]; intros s Hk; [done |]. destruct s as [|c s]; simpl in Hk; [lia |].
  simpl. by rewrite IH by lia.
Qed.

Lemma unquote_keep p t : unquote (length p) (p ++ t) = put p (unquote 0 t).
Proof.
  induction p as [|c p IH]; simpl; [by destruct (unquote 0 t) as [[]|] |]. by rewrite IH, put_put.
Qed.

(** A byte that starts a longer sequence. *)
Lemma unquote_high c t n :
  (code c <? 128)%N = false → rune_len (c :: t) = Some n → unquote 0 (c :: t) = put [c] (unquote (n - 1) t).
Proof.
  intros Hc Hn. cbn [unquote]. rewrite Hn.
  rewrite decide_False by (by intros ->). rewrite decide_False by (by intros ->).
  assert ((code c <? 32)%N = false) as -> by (apply N.ltb_ge; apply N.ltb_ge in Hc; lia). done.
Qed.

Lemma coerced_cons c s :
  coerced 0 (c :: s) = match rune_len (c :: s) with
                       | Some n => c :: coerced (n - 1) s
                       | None => replacement ++ coerced 0 s
                       end.
Proof. reflexivity. Qed.

Lemma unquote_quoted s r : unquote 0 (quoted 0 0 s ++ quote :: r) = Some (coerced 0 s, r).
Proof.
  remember (length s) as m eqn:Hm. revert s Hm. induction (lt_wf m) as [m _ IH]. intros s ->.
  destruct s as [|c s]; [done |]. 
  assert (IH' : ∀ s', (length s' <= length s)%nat → unquote 0 (quoted 0 0 s' ++ quote :: r) = Some (coerced 0 s', r)).
  { intros s' Hs. eapply IH; [|done]. simpl. lia. }
  clear IH. rewrite coerced_cons. cbn [quoted]. destruct (code c <? 128)%N eqn:Hc.
  { rewrite <-app_assoc, unquote_escaped, IH' by done. cbn [rune_len]. rewrite Hc. done. }
  destruct (separator (c :: s)) as [[d t]|] eqn:Hsep.
  { unfold separator in Hsep. destruct s as [|c1 [|c2 s]]; try done.
    case_decide as Hcc; [|done]. injection Hcc as Hc0 Hc1.
    apply (f_equal ascii_of_N) in Hc0, Hc1. unfold code in Hc0, Hc1. rewrite ascii_N_embedding in Hc0, Hc1.
    assert (Hc2 : c2 = ascii_of_N 168 ∧ d = "8"%char ∨ c2 = ascii_of_N 169 ∧ d = "9"%char).
    { rewrite <-(ascii_N_embedding c2). case_decide as E8; [left | case_decide as E9; [right | done]];
        injection Hsep as <- _; (split; [by apply f_equal | done]). }
    subst c c1. destruct Hc2 as [[-> ->]|[-> ->]].
    - trans (put (ascii_of_N <$> [226; 128; 168]%N) (unquote 0 (quoted 0 0 s ++ quote :: r))); [reflexivity |].
      rewrite IH' by (simpl; lia). reflexivity.
    - trans (put (ascii_of_N <$> [226; 128; 169]%N) (unquote 0 (quoted 0 0 s ++ quote :: r))); [reflexivity |].
      rewrite IH' by (simpl; lia). reflexivity. }
  destruct (rune_len (c :: s)) as [n|] eqn:Hn.
  - pose proof (rune_len_length _ _ Hn) as Hlen. simpl in Hlen.
    rewrite quoted_keep by lia. rewrite coerced_keep by lia. cbn [app].
    rewrite <-app_assoc. rewrite (unquote_high c _ n Hc).
    2:{ destruct n as [|n]; [lia |]. simpl. rewrite Nat.sub_0_r. exact (rune_len_prefix _ _ _ Hn). }
    assert (n - 1 = length (take (n - 1) s))%nat as Hk by (rewrite length_take; lia).
    rewrite Hk at 1. rewrite unquote_keep, IH' by (rewrite length_drop; lia). done.
  - rewrite <-app_assoc, unquote_replacement, IH' by done. done.
Qed.

(** ** Numbers *)

(** What may follow a value. *)
Definition ends (rest : bytes) : Prop :=
  match rest with [] => True | c :: _ => c ∈ [","%char; "}"%char; "]"%char; ascii_of_N 10] end.

Lemma span_digits_app ds rest :
  Forall (λ c, is_digit c = true) ds → ends rest → span_digits (ds ++ rest) = (ds, rest).
Proof.
  intros Hd Hr. induction Hd as [|c ds Hc Hd IH]; [|cbn [app span_digits]; by rewrite Hc, IH].
  destruct rest as [|c rest]; [done |]. cbn [app span_digits].
  assert (is_digit c = false) as -> by (simpl in Hr; set_unfold in Hr; by destruct_or!; subst). done.
Qed.

(** A natural number is not written with a leading zero. *)
Lemma dec_digits_lead f n c s :
  0 < n → n < 10 ^ Z.of_nat f → dec_digits f n [] = c :: s → c ≠ "0"%char.
Proof.
  revert n c s. induction f as [|f IH]; intros n c s Hn Hlt; [done |].
  rewrite Nat2Z.inj_succ, Z.pow_succ_r in Hlt by lia. cbn [dec_digits]. case_match eqn:Hc.
  - intros [= <- _] Heq. apply (f_equal digit_val) in Heq. rewrite Z.mod_small, digit_val_char in Heq by lia.
    injection Heq. lia.
  - rewrite dec_digits_acc. destruct (dec_digits f (n / 10) []) as [|c' s'] eqn:E.
    + pose proof (parse_dec_digits f (n / 10)) as Hp. rewrite E in Hp. simpl in Hp.
      assert (n / 10 < 10 ^ Z.of_nat f) by (apply Z.div_lt_upper_bound; lia).
      assert (Some 0 = Some (n / 10)) as Hz by (apply Hp; [apply Z.div_pos; lia | done]).
      injection Hz as Hz. apply Z.ltb_ge in Hc. assert (1 <= n / 10) by (apply Z.div_le_lower_bound; lia). lia.
    + intros [= <- _]. eapply IH; [| |exact E]; [apply Z.div_str_pos; apply Z.ltb_ge in Hc; lia |].
      apply Z.div_lt_upper_bound; lia.
Qed.

Lemma integer_nat n rest : 0 <= n → ends rest → integer (nat_String n ++ rest) = Some (nat_String n, rest).
Proof.
  intros Hn Hr. destruct (decide (n = 0)) as [->|Hz]; [done |].
  destruct (nat_String n) as [|c s] eqn:E; [by apply nat_String_nonempty in E |].
  assert (Hc : c ≠ "0"%char).
  { eapply (dec_digits_lead _ n); [lia | | exact E].
    rewrite Nat2Z.inj_succ, Z2Nat.id by apply Z.log2_nonneg.
    pose proof (Z.log2_spec n ltac:(lia)) as [_ Hlt].
    eapply Z.lt_le_trans; [exact Hlt | apply Z.pow_le_mono_l; lia]. }
  pose proof (nat_String_digits n Hn) as Hd. rewrite E in Hd.
  assert (integer ((c :: s) ++ rest) = digits_after [] ((c :: s) ++ rest)) as ->.
  { by destruct c as [[] [] [] [] [] [] [] []]. }
  unfold digits_after. by rewrite span_digits_app.
Qed.

Lemma no_fraction rest : ends rest → fraction rest = Some ([], rest) ∧ exponent rest = Some ([], rest).
Proof. destruct rest as [|c rest]; [done |]. intros Hc. set_unfold in Hc. by destruct_or!; subst. Qed.

Lemma number_int z rest : ends rest → number (big_String z ++ rest) = Some (big_String z, rest).
Proof.
  intros Hr. destruct (no_fraction rest Hr) as [Hf He]. unfold number, big_String. destruct (z <? 0) eqn:Hz.
  - cbn [app]. rewrite integer_nat by (lia || done). simpl. rewrite Hf. simpl. rewrite He. simpl.
    by rewrite app_nil_r.
  - apply Z.ltb_ge in Hz.
    assert (∀ n, 0 <= n → match nat_String n ++ rest with
              | "-"%char :: s' => (["-"%char], s') | _ => ([], nat_String n ++ rest) end = ([], nat_String n ++ rest)) as Hs.
    { intros n Hn. pose proof (nat_String_digits n Hn) as Hd.
      destruct (nat_String n) as [|c s] eqn:E; [by apply nat_String_nonempty in E |]. inversion_clear Hd.
      by destruct c as [[] [] [] [] [] [] [] []]. }
    rewrite Hs by done. rewrite integer_nat by done. simpl. rewrite Hf. simpl. rewrite He. simpl.
    by rewrite app_nil_r.
Qed.

(** ** Values *)

(** A value as the program writes it, nested to a depth of at most [d]; the names of
    members are UTF-8. *)
Definition utf8 (s : string) : Prop := coerced 0 (s2b s) = s2b s.

Inductive written : nat → json → Prop :=
| written_null d : written d JNull
| written_bool d b : written d (JBool b)
| written_int d z : written d (mk_int z)
| written_string d s : written d (mk_string s)
| written_array d l : Forall (written d) l → written (S d) (mk_array l)
| written_object d ms :
    Forall (λ m, utf8 m.1) ms → Forall (λ m, written d m.2) ms → written (S d) (mk_object ms).

Lemma consumed_app t rest : consumed (t ++ rest) rest = t.
Proof. unfold consumed. rewrite length_app, Nat.add_sub, take_app_length. done. Qed.

(** A written value starts with a byte of its own. *)
Lemma written_start d v : written d v →
  ∃ c s, raw_text v = c :: s ∧ is_space c = false ∧ c ≠ "]"%char ∧ c ≠ "}"%char.
Proof.
  destruct 1 as [|d []|d z|d s|d l|d ms]; try (by do 2 eexists).
  simpl. unfold big_String. destruct (z <? 0) eqn:Hz; [by do 2 eexists |]. apply Z.ltb_ge in Hz.
  pose proof (nat_String_digits z Hz) as Hd.
  destruct (nat_String z) as [|c s] eqn:E; [by apply nat_String_nonempty in E |]. inversion_clear Hd as [|? ? Hc _].
  exists c, s. split; [done |]. by destruct c as [[] [] [] [] [] [] [] []].
Qed.

Lemma written_skip d v rest : written d v → skip_space (raw_text v ++ rest) = raw_text v ++ rest.
Proof. intros (c&s&->&Hc&_)%written_start. simpl. by rewrite Hc. Qed.

Lemma separated_cons b l : separated (b :: l) = b ++ match l with [] => [] | _ => ","%char :: separated l end.
Proof. destruct l; [by rewrite app_nil_r | done]. Qed.

Definition reads_value (f : nat) : Prop := ∀ depth d v rest,
  written d v → (length (raw_text v) < f)%nat → (depth + N.of_nat d <= max_depth)%N → ends rest →
  value f depth (raw_text v ++ rest) = Some (v, rest).

Definition reads_elements (f : nat) : Prop := ∀ depth d l rest,
  l ≠ [] → Forall (written d) l → (S (length (separated (raw_text <$> l))) < f)%nat →
  (depth + N.of_nat d <= max_depth)%N →
  elements f depth (separated (raw_text <$> l) ++ "]"%char :: rest) = Some (l, rest).

Definition reads_members (f : nat) : Prop := ∀ depth d ms rest,
  ms ≠ [] → Forall (λ m, utf8 m.1) ms → Forall (λ m, written d m.2) ms →
  (S (length (separated (member_text <$> ms))) < f)%nat → (depth + N.of_nat d <= max_depth)%N →
  members f depth (separated (member_text <$> ms) ++ "}"%char :: rest) = Some (ms, rest).

Lemma ends_by c rest : c ∈ [","%char; "}"%char; "]"%char; ascii_of_N 10] → ends (c :: rest).
Proof. done. Qed.

Lemma written_list_skip d v l rest :
  written d v → skip_space (separated (raw_text <$> v :: l) ++ rest) = separated (raw_text <$> v :: l) ++ rest.
Proof. intros Hv. rewrite fmap_cons, separated_cons, <-app_assoc. by eapply written_skip. Qed.

Lemma elements_step f : reads_value f → reads_elements f → reads_elements (S f).
Proof.
  intros Hv He depth d [|v l] rest Hl Hw Hlen Hd; [done |]. inversion_clear Hw as [|? ? Hwv Hwl].
  destruct l as [|v' l].
  - simpl in Hlen. cbn [elements separated fmap list_fmap].
    by rewrite (Hv depth d v) by (done || lia || by apply ends_by; set_solver).
  - assert (Hsep : separated (raw_text <$> v :: v' :: l) = raw_text v ++ ","%char :: separated (raw_text <$> v' :: l)) by done.
    rewrite Hsep in *. rewrite length_app in Hlen. cbn [length] in Hlen.
    assert (Hskip : skip_space (separated (raw_text <$> v' :: l) ++ "]"%char :: rest)
              = separated (raw_text <$> v' :: l) ++ "]"%char :: rest).
    { inversion_clear Hwl. by eapply written_list_skip. }
    specialize (He depth d (v' :: l) rest). revert Hlen Hskip He. generalize (separated (raw_text <$> v' :: l)).
    intros T Hlen Hskip He. cbn [elements]. rewrite <-app_assoc. cbn [app].
    rewrite (Hv depth d v) by (done || lia || by apply ends_by; set_solver).
    cbn [mbind option_bind skip_space is_space]. simpl. rewrite Hskip, He by (done || lia). done.
Qed.

(** The text of a member is its quoted name and its value. *)
Lemma member_text_app m t :
  member_text m ++ t = quote :: quoted 0 0 (s2b m.1) ++ quote :: ":"%char :: raw_text m.2 ++ t.
Proof. unfold member_text, quote_text. simpl. rewrite <-!app_assoc. simpl. done. Qed.

Lemma member_read f depth d m t :
  reads_value f → utf8 m.1 → written d m.2 → (S (length (member_text m)) < S f)%nat →
  (depth + N.of_nat d <= max_depth)%N → ends t →
  members (S f) depth (member_text m ++ t) =
  match skip_space t with
  | "}"%char :: r => Some ([m], r)
  | ","%char :: s5 => '(ms, r) ← members f depth (skip_space s5); Some (m :: ms, r)
  | _ => None
  end.
Proof.
  intros Hv Hu Hw Hlen Hd Ht. rewrite member_text_app. cbn [members]. rewrite decide_True by done.
  rewrite unquote_quoted. cbn [mbind option_bind]. simpl skip_space. cbv iota beta.
  rewrite (written_skip d) by done.
  assert (Hlv : (length (raw_text m.2) < f)%nat).
  { unfold member_text, quote_text in Hlen. rewrite length_app in Hlen. simpl in Hlen. lia. }
  rewrite (Hv depth d m.2) by done. cbn [mbind option_bind]. unfold utf8 in Hu. rewrite Hu, b2s_s2b.
  by destruct m.
Qed.

Lemma members_step f : reads_value f → reads_members f → reads_members (S f).
Proof.
  intros Hv Hm depth d [|m ms] rest Hms Hu Hw Hlen Hd; [done |].
  inversion_clear Hu as [|? ? Hum Hums]. inversion_clear Hw as [|? ? Hwm Hwms].
  destruct ms as [|m' ms].
  - simpl in Hlen. cbn [separated fmap list_fmap].
    by rewrite (member_read f depth d) by (done || by apply ends_by; set_solver).
  - assert (Hsep : separated (member_text <$> m :: m' :: ms) = member_text m ++ ","%char :: separated (member_text <$> m' :: ms)) by done.
    rewrite Hsep in *. rewrite length_app in Hlen. cbn [length] in Hlen.
    assert (Hskip : skip_space (separated (member_text <$> m' :: ms) ++ "}"%char :: rest)
              = separated (member_text <$> m' :: ms) ++ "}"%char :: rest).
    { rewrite fmap_cons, separated_cons, <-app_assoc, member_text_app. done. }
    specialize (Hm depth d (m' :: ms) rest). revert Hlen Hskip Hm. generalize (separated (member_text <$> m' :: ms)).
    intros T Hlen Hskip Hm. rewrite <-app_assoc. cbn [app].
    rewrite (member_read f depth d) by (done || lia || by apply ends_by; set_solver).
    simpl skip_space. cbv iota beta. rewrite Hskip, Hm by (done || lia). done.
Qed.

Lemma value_number f depth c s :
  is_digit c = true ∨ c = "-"%char →
  value (S f) depth (c :: s) = ('(raw, r) ← number (c :: s); Some (JNumber raw, r)).
Proof. intros [Hc | ->]; [|done]. by destruct c as [[] [] [] [] [] [] [] []]. Qed.

Lemma value_int f depth z rest :
  ends rest → value (S f) depth (big_String z ++ rest) = Some (mk_int z, rest).
Proof.
  intros Hr. pose proof (number_int z rest Hr) as Hn.
  assert (∃ c s, big_String z = c :: s ∧ (is_digit c = true ∨ c = "-"%char)) as (c&s&Hz&Hc).
  { unfold big_String. destruct (z <? 0) eqn:Hz; [by eauto |]. apply Z.ltb_ge in Hz.
    pose proof (nat_String_digits z Hz) as Hd.
    destruct (nat_String z) as [|c s] eqn:E; [by apply nat_String_nonempty in E |]. inversion_clear Hd. eauto. }
  unfold mk_int. rewrite Hz in *. cbn [app] in *. by rewrite value_number, Hn.
Qed.

Lemma value_object f depth s1 ms r :
  (depth + 1 <= max_depth)%N →
  (∀ r', skip_space s1 ≠ "}"%char :: r') → members f (depth + 1) (skip_space s1) = Some (ms, r) →
  value (S f) depth ("{"%char :: s1) = Some (JObject (consumed ("{"%char :: s1) r) ms, r).
Proof.
  intros Hd Hs Hm. cbn [value]. rewrite decide_False, decide_True by done.
  assert ((max_depth <? depth + 1)%N = false) as -> by (by apply N.ltb_ge).
  destruct (skip_space s1) as [|c s2] eqn:E; [by rewrite Hm |].
  destruct c as [[] [] [] [] [] [] [] []]; first [by rewrite Hm | by destruct (Hs s2)].
Qed.

Lemma value_array f depth s1 l r :
  (depth + 1 <= max_depth)%N →
  (∀ r', skip_space s1 ≠ "]"%char :: r') → elements f (depth + 1) (skip_space s1) = Some (l, r) →
  value (S f) depth ("["%char :: s1) = Some (JArray (consumed ("["%char :: s1) r) l, r).
Proof.
  intros Hd Hs Hm. cbn [value]. do 2 rewrite decide_False by done. rewrite decide_True by done.
  assert ((max_depth <? depth + 1)%N = false) as -> by (by apply N.ltb_ge).
  destruct (skip_space s1) as [|c s2] eqn:E; [by rewrite Hm |].
  destruct c as [[] [] [] [] [] [] [] []]; first [by rewrite Hm | by destruct (Hs s2)].
Qed.

Lemma value_empty f depth rest :
  (depth + 1 <= max_depth)%N →
  value (S f) depth (s2b "{}" ++ rest) = Some (mk_object [], rest) ∧
  value (S f) depth (s2b "[]" ++ rest) = Some (mk_array [], rest).
Proof.
  intros Hd. assert (Hlt : (max_depth <? depth + 1)%N = false) by (by apply N.ltb_ge).
  pose proof (consumed_app ["{"%char; "}"%char] rest : consumed ("{"%char :: "}"%char :: rest) rest = _) as Hc1.
  pose proof (consumed_app ["["%char; "]"%char] rest : consumed ("["%char :: "]"%char :: rest) rest = _) as Hc2.
  split; cbn [value app s2b].
  - rewrite decide_False, decide_True by done. rewrite Hlt. simpl skip_space. cbv iota beta. by rewrite Hc1.
  - do 2 rewrite decide_False by done. rewrite decide_True by done. rewrite Hlt. simpl skip_space. cbv iota beta.
    by rewrite Hc2.
Qed.

Lemma value_step f : reads_elements f → reads_members f → reads_value (S f).
Proof.
  intros He Hm depth d v rest Hw Hlen Hd Hr. destruct Hw as [d|d b|d z|d s|d l Hl|d ms Hu Hms].
  - reflexivity.
  - by destruct b.
  - by apply value_int.
  - pose proof (consumed_app (quote_text (s2b s)) rest) as Hc. revert Hc.
    cbn [raw_text mk_string]. unfold quote_text. rewrite <-app_comm_cons, <-app_assoc. cbn [app]. intros Hc.
    cbn [value]. rewrite decide_True by done. rewrite unquote_quoted. cbn [mbind option_bind]. by rewrite Hc.
  - destruct l as [|v l]; [by apply value_empty; lia |].
    pose proof Hl as Hl'. inversion_clear Hl' as [|? ? Hv _].
    pose proof (consumed_app (raw_text (mk_array (v :: l))) rest) as Hc. revert Hlen Hc.
    cbn [raw_text mk_array length]. rewrite <-app_comm_cons, <-app_assoc, length_app. cbn [app length]. intros Hlen Hc.
    rewrite (value_array f depth _ (v :: l) rest); [by rewrite Hc | lia | |].
    + intros r'. rewrite (written_list_skip d) by done. rewrite fmap_cons, separated_cons.
      destruct (written_start d v Hv) as (c&s&->&_&Hb&_). simpl. congruence.
    + rewrite (written_list_skip d) by done. apply (He (depth + 1)%N d); [done | done | lia | lia].
  - destruct ms as [|m ms]; [by apply value_empty; lia |].
    pose proof (consumed_app (raw_text (mk_object (m :: ms))) rest) as Hc. revert Hlen Hc.
    cbn [raw_text mk_object length]. rewrite <-app_comm_cons, <-app_assoc, length_app. cbn [app length]. intros Hlen Hc.
    assert (Hskip : skip_space (separated (member_text <$> m :: ms) ++ "}"%char :: rest)
              = separated (member_text <$> m :: ms) ++ "}"%char :: rest).
    { rewrite fmap_cons, separated_cons, <-app_assoc, member_text_app. done. }
    rewrite (value_object f depth _ (m :: ms) rest); [by rewrite Hc | lia | |].
    + intros r'. rewrite Hskip, fmap_cons, separated_cons, <-app_assoc, member_text_app. done.
    + rewrite Hskip. apply (Hm (depth + 1)%N d); [done | done | done | lia | lia].
Qed.

Lemma reads_written f : reads_value f ∧ reads_elements f ∧ reads_members f.
Proof.
  induction f as [|f (Hv&He&Hm)]; [split_and!; repeat intros ?; lia |].
  split_and!; [by apply value_step | by apply elements_step | by apply members_step].
Qed.

(** A value the program writes, of strings, integers, booleans, nulls, arrays
    and objects, is read back as it is, whatever follows it on the next line. *)
Theorem written_parsed d v rest :
  written d v → (N.of_nat d <= max_depth)%N → ends rest → parse (raw_text v ++ rest) = Some v.
Proof.
  intros Hw Hd Hr. unfold parse. rewrite (written_skip d) by done.
  rewrite (proj1 (reads_written _) 0%N d v rest); [done | done | rewrite length_app; lia | lia | done].
Qed.
