(* ===== verification/Render.v ===== *)
(** * The bodies of the answers

    [writeJSON] encodes the ledger's records field by field, in the order they are
    declared; a nil pointer or slice is null, and a map is written in the order of
    its keys.  The text of a time depends on the time zone of the process, which is
    a parameter. *)

From Stdlib Require Import Ascii.
From S2P Require Import Prelude GoStd Decimal Money Uuid Json Ledger Pgx Store Service Http.
From stdpp Require Import options.
Import Ledger Http Json.

Module Render.

Section render.
Context (time_text : Time → string).

Definition direction_text (d : Direction) : string :=
  match d with DirectionDebit => "DEBIT" | DirectionCredit => "CREDIT" end.

Definition outcome_text (o : Outcome) : string :=
  match o with OutcomeSuccess => "SUCCESS" | OutcomeFailure => "FAILURE" end.

Definition json_uuid (u : Uuid.UUID) : json := mk_string (Uuid.String u).
Definition json_time (t : Time) : json := mk_string (time_text t).
Definition json_money (m : Money.Money) : json := mk_string (Money.String m).
Definition json_pointer {A} (f : A → json) (o : option A) : json := match o with Some a => f a | None => JNull end.

(** A slice that nothing was appended to is nil. *)
Definition json_slice {A} (f : A → json) (l : list A) : json :=
  match l with [] => JNull | _ => mk_array (f <$> l) end.

Definition json_account (a : Account) : json :=
  mk_object [("ID", json_uuid a.(acc_ID)); ("Name", mk_string a.(acc_Name)); ("Balance", json_money a.(acc_Balance));
             ("IsSystem", JBool a.(acc_IsSystem)); ("CreatedAt", json_time a.(acc_CreatedAt));
             ("UpdatedAt", json_time a.(acc_UpdatedAt))].

Definition json_entry (e : Entry) : json :=
  mk_object [("ID", mk_int e.(ent_ID)); ("TransactionID", json_uuid e.(ent_TransactionID));
             ("AccountID", json_uuid e.(ent_AccountID)); ("Direction", mk_string (direction_text e.(ent_Direction)));
             ("AccountName", mk_string e.(ent_AccountName)); ("Amount", json_money e.(ent_Amount));
             ("CreatedAt", json_time e.(ent_CreatedAt))].

Definition json_transaction (t : Transaction) : json :=
  mk_object [("ID", json_uuid t.(txn_ID)); ("Kind", mk_string (kind_text t.(txn_Kind)));
             ("IdempotencyKey", mk_string t.(txn_IdempotencyKey));
             ("ReversesTransactionID", json_pointer json_uuid t.(txn_ReversesTransactionID));
             ("CreatedAt", json_time t.(txn_CreatedAt)); ("Entries", json_slice json_entry t.(txn_Entries))].

Definition json_audit (a : AuditEntry) : json :=
  mk_object [("ID", mk_int a.(aud_ID)); ("Operation", mk_string a.(aud_Operation));
             ("FromAccount", json_pointer json_uuid a.(aud_FromAccount));
             ("ToAccount", json_pointer json_uuid a.(aud_ToAccount));
             ("Amount", json_pointer json_money a.(aud_Amount));
             ("Outcome", mk_string (outcome_text a.(aud_Outcome)));
             ("ErrorReason", json_pointer mk_string a.(aud_ErrorReason));
             ("TransactionID", json_pointer json_uuid a.(aud_TransactionID));
             ("RequestID", json_pointer mk_string a.(aud_RequestID)); ("CreatedAt", json_time a.(aud_CreatedAt))].

Definition json_body (b : resp_body) : json :=
  match b with
  | RError code None => mk_object [("error", mk_string code)]
  | RError code (Some message) => mk_object [("error", mk_string code); ("message", mk_string message)]
  | RAccount a => json_account a
  | RAccounts l => mk_array (json_account <$> l)
  | RTransaction t => json_transaction t
  | RTransactions l => mk_array (json_transaction <$> l)
  | RAudit l => mk_array (json_audit <$> l)
  end.

(** [Encoder.Encode] ends the text with a newline. *)
Definition body_text (r : response) : bytes := raw_text (json_body r.(resp_body_)) ++ [ascii_of_N 10].

(** ** What is read back *)

Lemma utf8_plain s : Forall (λ c, (code c <? 128)%N = true) (s2b s) → coerced 0 (s2b s) = s2b s.
Proof.
  induction 1 as [|c l Hc Hl IH]; [done |]. cbn [coerced rune_len]. rewrite Hc. simpl. by rewrite IH.
Qed.
End render.

End Render.
