(* ===== verification/RenderFacts.v ===== *)
(** * The answers are read back

    Every body the server writes is one JSON value, and a client that reads it
    finds the fields as they were written. *)

From Stdlib Require Import Ascii.
From S2P Require Import Prelude GoStd Decimal Money Uuid Json JsonFacts Ledger Pgx Store Service Http Render.
From stdpp Require Import options.
Import Ledger Http Json Render.

Lemma Forall_fmap_all {A B} (P : B → Prop) (f : A → B) l : (∀ x, P (f x)) → Forall P (f <$> l).
Proof. intros Hf. apply Forall_fmap, Forall_forall. intros x _. apply Hf. Qed.

Lemma written_S d v : written d v → written (S d) v.
Proof.
  revert v. induction d as [|d IH]; intros v Hv.
  - inversion Hv; subst; [apply written_null | apply written_bool | apply written_int | apply written_string].
  - inversion Hv; subst; [apply written_null | apply written_bool | apply written_int | apply written_string | |].
    + apply written_array. by eapply Forall_impl.
    + apply written_object; [done |]. eapply Forall_impl; [done |]. intros m. apply IH.
Qed.

Lemma written_le d d' v : (d <= d')%nat → written d v → written d' v.
Proof. induction 1; auto using written_S. Qed.

Section written.
Context (time_text : Time → string).

Lemma written_pointer {A} d (f : A → json) o : (∀ a, written d (f a)) → written d (json_pointer f o).
Proof. intros Hf. destruct o; [apply Hf | constructor]. Qed.

Lemma written_members d ms : Forall (λ m, utf8 m.1 ∧ written d m.2) ms → written (S d) (mk_object ms).
Proof. intros [Hu Hw]%Forall_and. by apply written_object. Qed.

(** An object of the program: its names are ASCII. *)
Ltac written_fields :=
  apply written_members;
  repeat match goal with
  | |- Forall _ [] => apply List.Forall_nil
  | |- Forall _ (_ :: _) => apply List.Forall_cons; [split; [by vm_compute |]|]
  | |- written _ (mk_string _) => apply written_string
  | |- written _ (JBool _) => apply written_bool
  | |- written _ (mk_int _) => apply written_int
  | |- written _ (json_pointer _ _) => apply written_pointer; intros ?
  | |- written _ (json_uuid _) => apply written_string
  | |- written _ (json_money _) => apply written_string
  | |- written _ (json_time _ _) => apply written_string
  | |- _ => progress cbn [fst snd]
  end.

Lemma written_account a : written 1 (json_account time_text a).
Proof. written_fields. Qed.

Lemma written_entry e : written 1 (json_entry time_text e).
Proof. written_fields. Qed.

Lemma written_transaction t : written 3 (json_transaction time_text t).
Proof.
  written_fields. unfold json_slice. destruct (txn_Entries t); [constructor |].
  apply written_array, Forall_fmap_all, written_entry.
Qed.

Lemma written_audit a : written 1 (json_audit time_text a).
Proof. written_fields. Qed.

Lemma written_body b : written 4 (json_body time_text b).
Proof.
  assert (Hone : ∀ v, written 1 v → written 4 v) by (intros v; apply written_le; lia).
  assert (Hthree : ∀ v, written 3 v → written 4 v) by (intros v; apply written_le; lia).
  destruct b as [code [message|]|a|l|t|l|l]; cbn [json_body].
  - written_fields.
  - written_fields.
  - apply Hone, written_account.
  - apply written_array, Forall_fmap_all. intros a. apply (written_le 1), written_account. lia.
  - apply Hthree, written_transaction.
  - apply written_array, Forall_fmap_all. intros t. apply written_transaction.
  - apply written_array, Forall_fmap_all. intros a. apply (written_le 1), written_audit. lia.
Qed.
End written.

Lemma body_parsed time_text r : parse (body_text time_text r) = Some (json_body time_text r.(resp_body_)).
Proof. apply (written_parsed 4); [apply written_body | done | by right; right; right; left]. Qed.

(** ** Texts that need no escape *)

Definition plain_char (c : ascii) : bool := (code c <? 128)%N && bool_decide (escaped c = [c]).

Definition plain (s : string) : Prop := Forall (λ c, plain_char c = true) (s2b s).

Lemma plain_bool s : forallb plain_char (s2b s) = true → plain s.
Proof. intros Hs. apply Forall_forall. intros c Hc. rewrite forallb_forall in Hs. by apply Hs, list_elem_of_In. Qed.

Lemma quoted_plain l : Forall (λ c, plain_char c = true) l → quoted 0 0 l = l ∧ coerced 0 l = l.
Proof.
  induction 1 as [|c l Hc Hl [IH1 IH2]]; [done |]. apply andb_true_iff in Hc as [Hc He%bool_decide_eq_true].
  cbn [quoted coerced rune_len]. rewrite Hc, He, IH1. simpl. by rewrite IH2.
Qed.

Lemma quote_plain s : plain s → quote_text (s2b s) = quote :: s2b s ++ [quote].
Proof. intros [Hq _]%quoted_plain. unfold quote_text. by rewrite Hq. Qed.

Lemma mk_string_plain s : plain s → mk_string s = JString (quote :: s2b s ++ [quote]) s.
Proof.
  intros Hs. unfold mk_string. rewrite (quote_plain s Hs). apply quoted_plain in Hs as [_ Hc].
  by rewrite Hc, b2s_s2b.
Qed.

Lemma digit_plain c : is_digit c = true → plain_char c = true.
Proof. by destruct c as [[] [] [] [] [] [] [] []]. Qed.

(** Amounts are written with digits, a point and a sign. *)
Lemma money_plain u : plain (Money.String (Money.of_units u)).
Proof.
  unfold plain. rewrite Money.String_of_units, s2b_b2s, Decimal.string_neg_exp by (simpl; lia).
  destruct (Decimal.int_frac _ _) as [ip frac] eqn:Hif. simpl in Hif.
  apply Decimal.int_frac_spec in Hif as (?&Hip&Hfr&_); [|lia|lia].
  repeat apply Forall_app_2.
  - unfold Decimal.sign_text. case_match; by repeat constructor.
  - eapply Forall_impl; [exact Hip | apply digit_plain].
  - destruct frac; [by constructor |]. apply Forall_cons. split; [done |].
    eapply Forall_impl; [exact Hfr | apply digit_plain].
Qed.


Lemma plain_utf8 s : plain s → utf8 s.
Proof. by intros [_ ?]%quoted_plain. Qed.

(** ** A client

    What a client makes of a body that it knows the kind of: members by their
    names, in the types of [types.go]. *)

Fixpoint member (name : string) (ms : list (string * json)) : option json :=
  match ms with
  | [] => None
  | (n, v) :: rest => if decide (n = name) then Some v else member name rest
  end.

Definition field {A} (name : string) (read : json → option A) (v : json) : option A :=
  match v with JObject _ ms => member name ms ≫= read | _ => None end.

Definition read_string (v : json) : option string := match v with JString _ t => Some t | _ => None end.
Definition read_bool (v : json) : option bool := match v with JBool b => Some b | _ => None end.
Definition read_int (v : json) : option Z := match v with JNumber raw => big_SetString raw | _ => None end.
Definition of_result {E A} (r : result E A) : option A := match r with Ok a => Some a | Err _ => None end.
Definition read_uuid (v : json) : option UUID := t ← read_string v; of_result (Uuid.Parse t).
Definition read_money (v : json) : option Money.Money := of_result (Money.UnmarshalJSON (raw_text v)).

Definition read_pointer {A} (read : json → option A) (v : json) : option (option A) :=
  match v with JNull => Some None | _ => Some <$> read v end.
Definition read_array {A} (read : json → option A) (v : json) : option (list A) :=
  match v with JArray _ l => mapM read l | _ => None end.
Definition read_slice {A} (read : json → option A) (v : json) : option (list A) :=
  match v with JNull => Some [] | _ => read_array read v end.

(** The name of one of finitely many values. *)
Definition read_name {A} (name : A → string) (values : list A) (v : json) : option A :=
  t ← read_string v; head (filter (λ a, name a = t) values).

Section client.
Context (time_of : string → option Time).

Definition read_time (v : json) : option Time := read_string v ≫= time_of.

Definition read_account (v : json) : option Account :=
  id ← field "ID" read_uuid v; name ← field "Name" read_string v; balance ← field "Balance" read_money v;
  sys ← field "IsSystem" read_bool v; created ← field "CreatedAt" read_time v;
  updated ← field "UpdatedAt" read_time v;
  Some (MkAccount id name balance sys created updated).

Definition read_entry (v : json) : option Entry :=
  id ← field "ID" read_int v; txn ← field "TransactionID" read_uuid v; acc ← field "AccountID" read_uuid v;
  dir ← field "Direction" (read_name direction_text [DirectionDebit; DirectionCredit]) v;
  name ← field "AccountName" read_string v; amount ← field "Amount" read_money v;
  created ← field "CreatedAt" read_time v;
  Some (MkEntry id txn acc dir name amount created).

Definition read_transaction (v : json) : option Transaction :=
  id ← field "ID" read_uuid v;
  kind ← field "Kind" (read_name kind_text [KindTransfer; KindReversal; KindDeposit; KindWithdrawal]) v;
  key ← field "IdempotencyKey" read_string v;
  rev ← field "ReversesTransactionID" (read_pointer read_uuid) v;
  created ← field "CreatedAt" read_time v; entries ← field "Entries" (read_slice read_entry) v;
  Some (MkTransaction id kind key rev created entries).

Definition read_audit (v : json) : option AuditEntry :=
  id ← field "ID" read_int v; op ← field "Operation" read_string v;
  from ← field "FromAccount" (read_pointer read_uuid) v; to ← field "ToAccount" (read_pointer read_uuid) v;
  amount ← field "Amount" (read_pointer read_money) v;
  outcome ← field "Outcome" (read_name outcome_text [OutcomeSuccess; OutcomeFailure]) v;
  reason ← field "ErrorReason" (read_pointer read_string) v;
  txn ← field "TransactionID" (read_pointer read_uuid) v; req ← field "RequestID" (read_pointer read_string) v;
  created ← field "CreatedAt" read_time v;
  Some (MkAuditEntry id op from to amount outcome reason txn req created).

(** The error object has no message when [mapError] gives none. *)
Definition read_error (v : json) : option resp_body :=
  code ← field "error" read_string v; Some (RError code (field "message" read_string v)).

Inductive form := FError | FAccount | FAccounts | FTransaction | FTransactions | FAudit.

Definition form_of (b : resp_body) : form :=
  match b with
  | RError _ _ => FError | RAccount _ => FAccount | RAccounts _ => FAccounts
  | RTransaction _ => FTransaction | RTransactions _ => FTransactions | RAudit _ => FAudit
  end.

Definition read_body (f : form) (v : json) : option resp_body :=
  match f with
  | FError => read_error v
  | FAccount => RAccount <$> read_account v
  | FAccounts => RAccounts <$> read_array read_account v
  | FTransaction => RTransaction <$> read_transaction v
  | FTransactions => RTransactions <$> read_array read_transaction v
  | FAudit => RAudit <$> read_array read_audit v
  end.
End client.

(** ** What the client reads is what was written *)

(** [read] undoes [write] on the values of [P]. *)
Definition reads {A} (P : A → Prop) (write : A → json) (read : json → option A) : Prop :=
  ∀ a, P a → read (write a) = Some a.

(** Every value of an optional field. *)
Definition of_option {A} (P : A → Prop) (o : option A) : Prop := from_option P True o.

Lemma of_option_all {A} (o : option A) : of_option (λ _, True) o.
Proof. by destruct o. Qed.

Lemma reads_string : reads utf8 mk_string read_string.
Proof. intros s Hs. unfold mk_string, read_string. unfold utf8 in Hs. by rewrite Hs, b2s_s2b. Qed.

Lemma reads_bool : reads (λ _, True) JBool read_bool.
Proof. done. Qed.

Lemma big_SetString_big_String z : big_SetString (big_String z) = Some z.
Proof.
  assert (Hn : ∀ neg n, (0 <= n)%Z → big_SetString (Decimal.sign_text neg ++ nat_String n) = Some (if neg then - n else n)%Z).
  { intros neg n Hn. apply Decimal.big_SetString_sign;
      [apply nat_String_nonempty | by apply nat_String_digits | by apply parse_nat_String]. }
  unfold big_String. destruct (z <? 0)%Z eqn:Hz.
  - apply Z.ltb_lt in Hz. trans (Some (- (- z)))%Z; [exact (Hn true (- z)%Z ltac:(lia)) | f_equal; lia].
  - apply Z.ltb_ge in Hz. exact (Hn false z Hz).
Qed.

Lemma big_String_plain z : Forall (λ c, plain_char c = true) (big_String z).
Proof.
  assert (Hn : ∀ n, (0 <= n)%Z → Forall (λ c, plain_char c = true) (nat_String n)).
  { intros n Hn. eapply Forall_impl; [by apply nat_String_digits | apply digit_plain]. }
  unfold big_String. destruct (z <? 0)%Z eqn:Hz; [apply Z.ltb_lt in Hz | apply Z.ltb_ge in Hz].
  - apply List.Forall_cons; [done | apply Hn; lia].
  - by apply Hn.
Qed.

Lemma reads_int : reads (λ _, True) mk_int read_int.
Proof. intros z _. apply big_SetString_big_String. Qed.

Lemma hex_plain b : Forall (λ c, plain_char c = true) (Uuid.hex_encode [b]).
Proof. destruct b as [[] [] [] [] [] [] [] []]; by repeat constructor. Qed.

Lemma hex_encode_plain l : Forall (λ c, plain_char c = true) (Uuid.hex_encode l).
Proof.
  induction l as [|b l IH]; [constructor |]. change (Uuid.hex_encode (b :: l)) with (Uuid.hex_encode [b] ++ Uuid.hex_encode l).
  apply Forall_app_2; [apply hex_plain | done].
Qed.

Lemma uuid_plain u : plain (Uuid.String u).
Proof.
  unfold plain, Uuid.String. rewrite s2b_b2s. unfold Uuid.encodeHex.
  repeat first [apply hex_encode_plain | apply Forall_app_2 | apply List.Forall_cons; [done |]].
Qed.

Lemma reads_uuid : reads (λ _, True) json_uuid read_uuid.
Proof.
  intros u _. unfold read_uuid, json_uuid. rewrite (reads_string _ (plain_utf8 _ (uuid_plain u))). simpl.
  by rewrite Uuid.Parse_String_u.
Qed.

Lemma reads_money : reads Money.scaled json_money read_money.
Proof.
  intros m Hm. rewrite (Money.scaled_of_units m Hm). unfold read_money, json_money.
  rewrite (mk_string_plain _ (money_plain _)). cbn [raw_text]. unfold Money.UnmarshalJSON.
  by rewrite Money.strip_quotes_quoted, b2s_s2b, Money.FromString_String.
Qed.

Lemma reads_name {A} (name : A → string) values :
  (∀ a, plain (name a)) → (∀ a, head (filter (λ x, name x = name a) values) = Some a) →
  reads (λ _, True) (λ a, mk_string (name a)) (read_name name values).
Proof.
  intros Hp Hv a _. unfold read_name. rewrite (reads_string _ (plain_utf8 _ (Hp a))). apply Hv.
Qed.

Lemma reads_pointer {A} P (write : A → json) read :
  (∀ a, write a ≠ JNull) → reads P write read → reads (of_option P) (json_pointer write) (read_pointer read).
Proof.
  intros Hn Hr [a|] Ha; [|done]. simpl. unfold read_pointer. rewrite (Hr a Ha).
  specialize (Hn a). by destruct (write a).
Qed.

Lemma reads_array {A} P (write : A → json) read :
  reads P write read → reads (Forall P) (λ l, mk_array (write <$> l)) (read_array read).
Proof.
  intros Hr l Hl. simpl. apply mapM_Some. apply Forall2_fmap_l, Forall_Forall2_diag.
  eapply Forall_impl; [exact Hl |]. intros a Ha. by apply Hr.
Qed.

Lemma reads_slice {A} P (write : A → json) read :
  reads P write read → reads (Forall P) (json_slice write) (read_slice read).
Proof. intros Hr [|a l] Hl; [done |]. by apply (reads_array P write read Hr (a :: l)). Qed.

(** A member of an object of the program, found by its name. *)
Lemma read_member {A} P (write : A → json) read a name ms :
  reads P write read → member name ms = Some (write a) → P a → field name read (mk_object ms) = Some a.
Proof. intros Hr Hm Ha. unfold field, mk_object. rewrite Hm. by apply Hr. Qed.

Lemma reads_uuid_pointer : reads (of_option (λ _, True)) (json_pointer json_uuid) (read_pointer read_uuid).
Proof. by apply reads_pointer, reads_uuid. Qed.

Lemma reads_money_pointer : reads (of_option Money.scaled) (json_pointer json_money) (read_pointer read_money).
Proof. by apply reads_pointer, reads_money. Qed.

Lemma reads_string_pointer : reads (of_option utf8) (json_pointer mk_string) (read_pointer read_string).
Proof. by apply reads_pointer, reads_string. Qed.

Create HintDb wire discriminated.

Section legible.
Context (time_text : Time → string) (time_of : string → option Time).

(** What a JSON text can carry: texts in UTF-8, amounts in ten-thousandths, times
    that the two sides agree on. *)
Definition legible_time (t : Time) : Prop := utf8 (time_text t) ∧ time_of (time_text t) = Some t.

Definition legible_account (a : Account) : Prop :=
  utf8 a.(acc_Name) ∧ Money.scaled a.(acc_Balance) ∧ legible_time a.(acc_CreatedAt) ∧ legible_time a.(acc_UpdatedAt).

Definition legible_entry (e : Entry) : Prop :=
  utf8 e.(ent_AccountName) ∧ Money.scaled e.(ent_Amount) ∧ legible_time e.(ent_CreatedAt).

Definition legible_transaction (t : Transaction) : Prop :=
  utf8 t.(txn_IdempotencyKey) ∧ legible_time t.(txn_CreatedAt) ∧ Forall legible_entry t.(txn_Entries).

Definition legible_audit (a : AuditEntry) : Prop :=
  utf8 a.(aud_Operation) ∧ of_option Money.scaled a.(aud_Amount) ∧ of_option utf8 a.(aud_ErrorReason) ∧
  of_option utf8 a.(aud_RequestID) ∧ legible_time a.(aud_CreatedAt).

Definition legible (b : resp_body) : Prop :=
  match b with
  | RError code message => utf8 code ∧ of_option utf8 message
  | RAccount a => legible_account a
  | RAccounts l => Forall legible_account l
  | RTransaction t => legible_transaction t
  | RTransactions l => Forall legible_transaction l
  | RAudit l => Forall legible_audit l
  end.

Lemma reads_time : reads legible_time (json_time time_text) (read_time time_of).
Proof. intros t [Hu Ht]. unfold read_time, json_time. by rewrite (reads_string _ Hu). Qed.

Lemma reads_direction :
  reads (λ _, True) (λ d, mk_string (direction_text d)) (read_name direction_text [DirectionDebit; DirectionCredit]).
Proof. apply reads_name; intros []; first [by apply plain_bool | done]. Qed.

Lemma reads_kind :
  reads (λ _, True) (λ k, mk_string (kind_text k))
    (read_name kind_text [KindTransfer; KindReversal; KindDeposit; KindWithdrawal]).
Proof. apply reads_name; intros []; first [by apply plain_bool | done]. Qed.

Lemma reads_outcome :
  reads (λ _, True) (λ o, mk_string (outcome_text o)) (read_name outcome_text [OutcomeSuccess; OutcomeFailure]).
Proof. apply reads_name; intros []; first [by apply plain_bool | done]. Qed.

#[local] Hint Resolve reads_string reads_bool reads_int reads_uuid reads_money reads_time reads_direction reads_kind
  reads_outcome reads_uuid_pointer reads_money_pointer reads_string_pointer reads_slice : wire.

(** Reads the fields of a record one after the other. *)
Ltac read_fields :=
  repeat (erewrite read_member; [cbn [mbind option_bind] | eauto with wire | reflexivity | eassumption || done || apply of_option_all]).

Lemma reads_account : reads legible_account (json_account time_text) (read_account time_of).
Proof. intros a (?&?&?&?). unfold read_account, json_account. read_fields. by destruct a. Qed.

Lemma reads_entry : reads legible_entry (json_entry time_text) (read_entry time_of).
Proof. intros a (?&?&?). unfold read_entry, json_entry. read_fields. by destruct a. Qed.

#[local] Hint Resolve reads_entry : wire.

Lemma reads_transaction : reads legible_transaction (json_transaction time_text) (read_transaction time_of).
Proof. intros a (?&?&?). unfold read_transaction, json_transaction. read_fields. by destruct a. Qed.

Lemma reads_audit : reads legible_audit (json_audit time_text) (read_audit time_of).
Proof. intros a (?&?&?&?&?). unfold read_audit, json_audit. read_fields. by destruct a. Qed.

Lemma reads_error code message :
  utf8 code → of_option utf8 message → read_error (json_body time_text (RError code message)) = Some (RError code message).
Proof.
  intros Hc Hm. unfold read_error. destruct message as [message|]; cbn [json_body of_option from_option] in *.
  - by read_fields.
  - by rewrite (read_member utf8 mk_string read_string code "error") by (done || apply reads_string).
Qed.

Lemma read_json_body b : legible b → read_body time_of (form_of b) (json_body time_text b) = Some b.
Proof.
  destruct b as [code message|a|l|t|l|l]; intros Hb.
  - destruct Hb. by apply reads_error.
  - simpl. by rewrite reads_account.
  - cbn [form_of read_body json_body]. by rewrite (reads_array _ _ _ reads_account).
  - simpl. by rewrite reads_transaction.
  - cbn [form_of read_body json_body]. by rewrite (reads_array _ _ _ reads_transaction).
  - cbn [form_of read_body json_body]. by rewrite (reads_array _ _ _ reads_audit).
Qed.
End legible.

(** C32: a client that reads the body of an answer by the names of its fields gets the
    answer back, record by record and list by list, entries of transactions included:
    an account with its balance, a transaction with its entries, the audit lines with
    their absent fields, an error with its code and message.  The texts must be UTF-8,
    the amounts of the scale the program keeps, and the two sides must agree on the
    text of the times. *)
Theorem body_read_back time_text time_of r :
  legible time_text time_of r.(resp_body_) →
  parse (body_text time_text r) ≫= read_body time_of (form_of r.(resp_body_)) = Some r.(resp_body_).
Proof. intros Hl. rewrite body_parsed. by apply read_json_body. Qed.

(** A listing of two transactions, a transfer with its entries and a reversal whose
    entries are not filled in. *)
Definition demo_time_text (t : Time) : string := b2s (big_String t).
Definition demo_time_of (s : string) : option Time := big_SetString (s2b s).

Definition demo_listing : response :=
  let u n := Uuid.MustParse ("00000000-0000-0000-0000-00000000000" +:+ n) in
  MkResponse 200 (RTransactions
    [MkTransaction (u "a") KindReversal "k2" (Some (u "9")) 1700000000000001 [];
     MkTransaction (u "9") KindTransfer "k1" None 1700000000000000
       [MkEntry 1 (u "9") (u "2") DirectionDebit "Alice" (Money.of_units 12345) 1700000000000000;
        MkEntry 2 (u "9") (u "3") DirectionCredit "Bob" (Money.of_units 12345) 1700000000000000]]).

Lemma body_read_back_witness :
  parse (body_text demo_time_text demo_listing) ≫= read_body demo_time_of FTransactions = Some (resp_body_ demo_listing).
Proof.
  apply (body_read_back demo_time_text demo_time_of demo_listing).
  assert (Ht : ∀ t, legible_time demo_time_text demo_time_of t).
  { intros t. split.
    - apply plain_utf8. unfold plain, demo_time_text. rewrite s2b_b2s. apply big_String_plain.
    - unfold demo_time_text, demo_time_of. rewrite s2b_b2s. apply big_SetString_big_String. }
  repeat first [apply List.Forall_nil | apply List.Forall_cons | split | apply Ht | done].
Defined.
