(* ===== verification/Server.v ===== *)
(** * cmd/server: the process

    [main] as the tree of the calls it makes to the operating system, the migration
    library, the connection pool and [net/http], and of its reactions to their
    answers; a process is its goroutines over what they share.  A step answers one
    call, or is something the process does not decide: a request arrives or is
    finished, a signal comes. *)

From S2P Require Import Prelude GoStd.
From stdpp Require Import options.

Module Server.

(** ** Calls *)

Inductive sys : Type → Type :=
| os_Getenv (key : string) : sys string
| migrate_New (source dsn : string) : sys (result error unit)
| migrate_Up : sys (result error unit)
| signal_NotifyContext : sys unit
| signal_stop : sys unit
| pgxpool_New (dsn : string) : sys (result error unit)
| pool_Ping : sys (result error unit)
| pool_Close : sys unit
| ListenAndServe (addr : string) : sys error
| ctx_Done : sys unit
| Shutdown : sys (result error unit)
| slog_Info (msg : string) : sys unit
| slog_Error (msg : string) : sys unit.

(** A goroutine: it returns, ends the process, makes a call or starts another. *)
Inductive proc (A : Type) : Type :=
| Return (a : A)
| os_Exit (code : Z)
| Sys {B : Type} (q : sys B) (k : B → proc A)
| Go (p : proc unit) (k : unit → proc A).

#[global] Arguments Return {A} a.
#[global] Arguments os_Exit {A} code.
#[global] Arguments Sys {A B} q k.
#[global] Arguments Go {A} p k.

#[global] Instance proc_ret : MRet proc := @Return.
#[global] Instance proc_bind : MBind proc := λ A B f,
  fix bind m :=
    match m with
    | Return a => f a
    | os_Exit code => os_Exit code
    | Sys q k => Sys q (λ r, bind (k r))
    | Go p k => Go p (λ r, bind (k r))
    end.

Definition sys_call {B} (q : sys B) : proc B := Sys q Return.

Definition ErrNoChange : error := Sentinel "no change".
Definition ErrServerClosed : error := Sentinel "http: Server closed".

(** ** internal/store/postgres.go *)

Definition New (dsn : string) : proc (result error unit) :=
  let! r := sys_call (pgxpool_New dsn) in
  match r with
  | Err err => mret (Err (Wrapf "store.New pgxpool.New" err))
  | Ok _ =>
      let! r := sys_call pool_Ping in
      match r with
      | Err err => let! _ := sys_call pool_Close in mret (Err (Wrapf "store.New ping" err))
      | Ok _ => mret (Ok tt)
      end
  end.

Definition Close : proc unit := sys_call pool_Close.

(** ** cmd/server/main.go *)

Definition fatal (msg : string) : proc unit :=
  let! _ := sys_call (slog_Error msg) in os_Exit 1.

(** The goroutine that serves. *)
Definition serve (addr : string) : proc unit :=
  let! _ := sys_call (slog_Info "banking-service listening") in
  let! err := sys_call (ListenAndServe addr) in
  if negb (errors_Is err ErrServerClosed) then fatal ("ListenAndServe failed: " +:+ Error err)
  else mret tt.

Definition shutdown : proc unit :=
  let! _ := sys_call (slog_Info "shutdown signal received") in
  let! r := sys_call Shutdown in
  let! _ := match r with
            | Err err => sys_call (slog_Error ("server shutdown error: " +:+ Error err))
            | Ok _ => mret tt
            end in
  sys_call (slog_Info "server stopped").

(** From the port to the end of [main], where its deferred calls run. *)
Definition serve_until_signal : proc unit :=
  let! env := sys_call (os_Getenv "PORT") in
  let port := if bool_decide (env = "") then "8080" else env in
  let! _ := Go (serve (":" +:+ port)) Return in
  let! _ := sys_call ctx_Done in
  let! _ := shutdown in
  let! _ := Close in
  sys_call signal_stop.

Definition main : proc unit :=
  let! dsn := sys_call (os_Getenv "DATABASE_URL") in
  if bool_decide (dsn = "") then fatal "DATABASE_URL is not set"
  else
    let! r := sys_call (migrate_New "file://migrations" dsn) in
    match r with
    | Err err => fatal ("migrate.New failed: " +:+ Error err)
    | Ok _ =>
        let! r := sys_call migrate_Up in
        let serving :=
          let! _ := sys_call (slog_Info "database migrations applied") in
          let! _ := sys_call signal_NotifyContext in
          let! r := New dsn in
          match r with
          | Err err => fatal ("store.New failed: " +:+ Error err)
          | Ok _ =>
              let! _ := sys_call (slog_Info "database connection pool ready") in
              serve_until_signal
          end in
        match r with
        | Err err => if negb (errors_Is err ErrNoChange) then fatal ("migrate.Up failed: " +:+ Error err)
                     else serving
        | Ok _ => serving
        end
    end.

(** ** Processes *)

Inductive pool := NoPool | Open | Closed.

#[global] Instance pool_eq_dec : EqDecision pool.
Proof. solve_decision. Defined.

(** What the calls of [main] have brought about. *)
Record progress := Progress {
  migrated : bool;      (* the migrations are applied *)
  conns : pool;
  pinged : bool;        (* the database has answered *)
  waited : bool;        (* the signal was received *)
  shut : bool;          (* Shutdown has returned *)
  notified : bool }.    (* signals go to the context of main *)

Record world := World {
  done : progress;
  signalled : bool;
  listening : bool;
  closing : bool;       (* Shutdown has been called *)
  late : bool;          (* Shutdown gave up waiting *)
  inflight : nat;       (* requests being handled *)
  errors : list string }.

Definition start : world := World (Progress false NoPool false false false false) false false false false 0 [].

Definition up_to_date (r : result error unit) : bool :=
  match r with Ok _ => true | Err e => errors_Is e ErrNoChange end.

(** What a call of [main] brings about when it is answered. *)
Definition after {B} (q : sys B) (d : progress) : B → progress :=
  match q in sys B return B → progress with
  | migrate_Up => λ r, Progress (migrated d || up_to_date r) (conns d) (pinged d) (waited d) (shut d) (notified d)
  | pgxpool_New _ => λ r, match r with
                          | Ok _ => Progress (migrated d) Open (pinged d) (waited d) (shut d) (notified d)
                          | Err _ => d
                          end
  | pool_Ping => λ r, match r with
                      | Ok _ => Progress (migrated d) (conns d) true (waited d) (shut d) (notified d)
                      | Err _ => d
                      end
  | pool_Close => λ _, Progress (migrated d) Closed (pinged d) (waited d) (shut d) (notified d)
  | ctx_Done => λ _, Progress (migrated d) (conns d) (pinged d) true (shut d) (notified d)
  | Shutdown => λ _, Progress (migrated d) (conns d) (pinged d) (waited d) true (notified d)
  | signal_NotifyContext => λ _, Progress (migrated d) (conns d) (pinged d) (waited d) (shut d) true
  | signal_stop => λ _, Progress (migrated d) (conns d) (pinged d) (waited d) (shut d) false
  | _ => λ _, d
  end.

Section process.
Context (getenv : string → string).

(** The answer of a call, given how it fares, if it can be answered now. *)
Definition answer {B} (q : sys B) (r : result error unit) (w : world) : option B :=
  match q in sys B return option B with
  | os_Getenv key => Some (getenv key)
  | migrate_New _ _ => Some r
  | migrate_Up => Some r
  | pgxpool_New _ => Some r
  | pool_Ping => Some r
  | ListenAndServe _ =>
      if closing w then Some ErrServerClosed
      else match r with Err e => Some e | Ok _ => None end
  | ctx_Done => if signalled w then Some tt else None
  | Shutdown =>
      if closing w then
        match r with
        | Ok _ => if decide (inflight w = 0%nat) then Some (Ok tt) else None
        | Err e => Some (Err e)
        end
      else None
  | signal_NotifyContext => Some tt
  | signal_stop => Some tt
  | pool_Close => Some tt
  | slog_Info _ => Some tt
  | slog_Error _ => Some tt
  end.

(** The effect of the answer on what is shared. *)
Definition effect {B} (q : sys B) (b : B) (w : world) : world :=
  let d := after q (done w) b in
  match q in sys B return B → world with
  | ListenAndServe _ => λ _, World d (signalled w) false (closing w) (late w) (inflight w) (errors w)
  | Shutdown => λ r, World d (signalled w) (listening w) (closing w)
                       (match r with Ok _ => late w | Err _ => true end) (inflight w) (errors w)
  | slog_Error msg => λ _, World d (signalled w) (listening w) (closing w) (late w) (inflight w) (errors w ++ [msg])
  | _ => λ _, World d (signalled w) (listening w) (closing w) (late w) (inflight w) (errors w)
  end b.

(** How a process ends: with a status, or by a signal nobody handles. *)
Inductive status := Code (code : Z) | Killed.

Record process := Process { threads : list (proc unit); shared : world; exited : option status }.

Definition boot : process := Process [main] start None.

(** A goroutine's next call is answered, given how it fares; [ListenAndServe] binds
    its port or [Shutdown] closes it; a request comes or is finished; an interrupt or a
    SIGTERM comes, which kills the process unless it goes to the context. *)
Inductive event := Run (i : nat) (r : result error unit) | Enter (i : nat) | Accept | Finish | Signal.

Definition set_shared (p : process) (w : world) : process := Process (threads p) w (exited p).

Definition run (i : nat) (r : result error unit) (p : process) : option process :=
  match threads p !! i with
  | Some (Sys q k) =>
      (λ b, Process (<[i := k b]> (threads p)) (effect q b (shared p)) None) <$> answer q r (shared p)
  | Some (os_Exit code) => Some (Process (threads p) (shared p) (Some (Code code)))
  | Some (Return _) => if decide (i = 0%nat) then Some (Process (threads p) (shared p) (Some (Code 0))) else None
  | Some (Go g k) => Some (Process (<[i := k tt]> (threads p) ++ [g]) (shared p) None)
  | None => None
  end.

Definition enter {B} (q : sys B) (w : world) : option world :=
  match q with
  | ListenAndServe _ =>
      if closing w then None
      else Some (World (done w) (signalled w) true false (late w) (inflight w) (errors w))
  | Shutdown => Some (World (done w) (signalled w) false true (late w) (inflight w) (errors w))
  | _ => None
  end.

Definition step (e : event) (p : process) : option process :=
  let w := shared p in
  match exited p with
  | Some _ => None
  | None =>
      match e with
      | Run i r => run i r p
      | Enter i =>
          match threads p !! i with
          | Some (Sys q _) => set_shared p <$> enter q w
          | _ => None
          end
      | Accept =>
          if listening w
          then Some (set_shared p (World (done w) (signalled w) (listening w) (closing w) (late w) (S (inflight w)) (errors w)))
          else None
      | Finish =>
          match inflight w with
          | O => None
          | S n => Some (set_shared p (World (done w) (signalled w) (listening w) (closing w) (late w) n (errors w)))
          end
      | Signal =>
          if notified (done w)
          then Some (set_shared p (World (done w) true (listening w) (closing w) (late w) (inflight w) (errors w)))
          else Some (Process (threads p) w (Some Killed))
      end
  end.

Fixpoint exec (es : list event) (p : process) : option process :=
  match es with
  | [] => Some p
  | e :: es' => p' ← step e p; exec es' p'
  end.

(** What the process can come to. *)
Definition reachable (p : process) : Prop := ∃ es, exec es boot = Some p.
End process.

End Server.
