(* ===== verification/ServerFacts.v ===== *)
(** * What the process guarantees

    A typestate of [main]: what it has brought about when it makes each of its
    calls.  From it, by invariance over the steps of the process: requests are only
    accepted over a migrated database that has answered, and the exit status tells
    how the process ended. *)

From S2P Require Import Prelude GoStd Server.
From stdpp Require Import options.
Import Server.

(** ** The typestate *)

Definition complains {B} (q : sys B) : bool := match q with slog_Error _ => true | _ => false end.

(** Calls that [main] may make, the serving goroutine being started or not. *)
Definition allowed {B} (spawned : bool) (d : progress) (q : sys B) : Prop :=
  match q with
  | ListenAndServe _ => False
  | Shutdown => spawned = true ∧ waited d = true
  | pool_Close => spawned = true → shut d = true
  | pgxpool_New _ => spawned = false
  | signal_stop => spawned = true → shut d = true
  | _ => True
  end.

(** The serving goroutine only logs and serves. *)
Fixpoint server_ok (complained : bool) (p : proc unit) : Prop :=
  match p with
  | Return _ => True
  | os_Exit code => code = 1%Z ∧ complained = true
  | Sys q k =>
      match q with slog_Info _ | slog_Error _ | ListenAndServe _ => True | _ => False end ∧
      ∀ b, server_ok (complained || complains q) (k b)
  | Go _ _ => False
  end.

Fixpoint main_ok (spawned complained : bool) (d : progress) (p : proc unit) : Prop :=
  match p with
  | Return _ => spawned = true ∧ shut d = true ∧ waited d = true ∧ conns d = Closed
  | os_Exit code => code = 1%Z ∧ complained = true
  | Sys q k => allowed spawned d q ∧ ∀ b, main_ok spawned (complained || complains q) (after q d b) (k b)
  | Go g k =>
      spawned = false ∧ migrated d = true ∧ pinged d = true ∧ conns d = Open ∧ notified d = true ∧
      server_ok false g ∧ main_ok true complained d (k tt)
  end.

Ltac typed :=
  repeat match goal with
  | |- _ ∧ _ => split
  | |- True => exact I
  | |- ?x = ?x => reflexivity
  | |- ∀ _, _ => intros ?
  | |- context [match ?r with Ok _ => _ | Err _ => _ end] => is_var r; destruct r
  | |- context [if ?b then _ else _] => destruct b eqn:?
  | |- _ => progress simpl
  end.

Lemma serve_ok addr : server_ok false (serve addr).
Proof. typed. Qed.

Lemma main_main_ok : main_ok false false (done start) main.
Proof. unfold main, New, fatal. typed; try done. all: by apply negb_false_iff. Qed.

(** ** The invariant *)

(** A goroutine is where its type says, its complaints logged. *)
Definition typed_thread (ok : bool → proc unit → Prop) (w : world) (p : proc unit) : Prop :=
  ∃ c, (c = true → errors w ≠ []) ∧ ok c p.

Record coherent (spawned : bool) (w : world) : Prop := {
  co_serving : listening w = true → spawned = true ∧ closing w = false;
  co_handling : inflight w ≠ 0%nat → spawned = true;
  co_ready : spawned = true → migrated (done w) = true ∧ pinged (done w) = true;
  co_pool : spawned = true → shut (done w) = false → conns (done w) = Open;
  co_notified : spawned = true → shut (done w) = false → notified (done w) = true;
  co_shut : shut (done w) = true → closing w = true ∧ (late w = true ∨ inflight w = 0%nat);
  co_waited : waited (done w) = true → signalled w = true }.

Definition ended (st : status) (w : world) : Prop :=
  match st with
  | Code code =>
      (code = 0%Z ∧ signalled w = true ∧ listening w = false ∧ conns (done w) = Closed ∧
       (late w = true ∨ inflight w = 0%nat)) ∨
      (code = 1%Z ∧ errors w ≠ [])
  | Killed => notified (done w) = false ∧ listening w = false ∧ (late w = true ∨ inflight w = 0%nat)
  end.

Definition spawned (p : process) : bool := bool_decide (length (threads p) ≠ 1%nat).

Record invariant (p : process) : Prop := {
  inv_coherent : coherent (spawned p) (shared p);
  inv_main : ∃ m, threads p !! 0%nat = Some m ∧
    typed_thread (λ c, main_ok (spawned p) c (done (shared p))) (shared p) m;
  inv_served : ∀ i g, threads p !! S i = Some g → typed_thread server_ok (shared p) g;
  inv_ended : ∀ st, exited p = Some st → ended st (shared p) }.

Lemma boot_invariant : invariant boot.
Proof.
  split; [split; simpl; done | | done | done].
  exists main. split; [done |]. exists false. split; [done | exact main_main_ok].
Qed.

Section steps.
Context (getenv : string → string).

(** What an answer changes for the others: nothing but the log. *)
Lemma effect_errors {B} (q : sys B) b w : errors w ≠ [] → errors (effect q b w) ≠ [].
Proof. destruct q; simpl; try done. by destruct (errors w). Qed.

Lemma effect_complains {B} (q : sys B) b w c :
  (c = true → errors w ≠ []) → c || complains q = true → errors (effect q b w) ≠ [].
Proof.
  intros Hc [->|Hq]%orb_true_iff; [by apply effect_errors, Hc |]. destruct q; try done. simpl.
  by destruct (errors w).
Qed.

Lemma effect_done {B} (q : sys B) b w : done (effect q b w) = after q (done w) b.
Proof. by destruct q. Qed.

(** The calls of the serving goroutine do not touch what [main] has brought about. *)
Lemma served_call {B} (q : sys B) b w sp :
  match q with slog_Info _ | slog_Error _ | ListenAndServe _ => True | _ => False end →
  coherent sp w → done (effect q b w) = done w ∧ coherent sp (effect q b w).
Proof. destruct q; try done; intros _ []; split; try done; by split. Qed.

Lemma main_call {B} (q : sys B) r b w sp :
  allowed sp (done w) q → answer getenv q r w = Some b → coherent sp w → coherent sp (effect q b w).
Proof.
  intros Hq Ha [H1 H2 H3 H4 H7 H5 H6]. destruct q; try by (split; simpl; auto).
  - split; simpl; auto. intros Hs. destruct (H3 Hs) as [-> ->]. done.
  - split; simpl; auto. intros Hs Hshut. by rewrite Hq in Hshut.
  - simpl in Hq. subst sp. destruct b; by split; simpl; auto.
  - destruct b; split; simpl; auto; intros Hs; by destruct (H3 Hs).
  - split; simpl; auto. intros Hs Hshut. by rewrite Hq in Hshut.
  - split; simpl; auto. intros _. simpl in Ha. by destruct (signalled w).
  - destruct Hq as [-> Hwait]. simpl in Ha. destruct (closing w) eqn:Hc; [|done].
    split; simpl; try done; auto; [by intros Hl; destruct (H1 Hl); congruence |].
    intros _. split; [done |]. destruct r as [u|e]; [|by injection Ha as <-; left].
    case_decide; [|done]. injection Ha as <-. by right.
Qed.

Lemma typed_thread_step ok ok' w w' p :
  (∀ c, ok c p → ok' c p) → (errors w ≠ [] → errors w' ≠ []) → typed_thread ok w p → typed_thread ok' w' p.
Proof. intros Hok He (c&Hc&Hp). exists c. split; [by intros Hct; apply He, Hc | by apply Hok]. Qed.

Lemma spawned_insert i p0 p w e : 
  spawned (Process (<[i := p0]> (threads p)) w e) = spawned p.
Proof. unfold spawned. simpl. by rewrite length_insert. Qed.

(** A call of a goroutine is answered. *)
Lemma call_invariant p i B (q : sys B) k r b :
  invariant p → exited p = None → threads p !! i = Some (Sys q k) → answer getenv q r (shared p) = Some b →
  invariant (Process (<[i := k b]> (threads p)) (effect q b (shared p)) None).
Proof.
  intros [Hco (m&Hm&Hmok) Hs _] He Hi Ha. destruct i as [|i].
  - rewrite Hm in Hi. injection Hi as ->. destruct Hmok as (c&Hc&Hq&Hk).
    split; try rewrite spawned_insert; [by eapply main_call | | |done].
    + exists (k b). cbn [threads]. split; [by rewrite list_lookup_insert_eq by (by eapply lookup_lt_Some) |].
      exists (c || complains q). split; [by apply effect_complains |].
      simpl. rewrite effect_done. apply Hk.
    + simpl. intros j g Hg. rewrite list_lookup_insert_ne in Hg by done.
      eapply typed_thread_step; [| |by apply (Hs j)]; [done |]. apply effect_errors.
  - destruct (Hs i _ Hi) as (c&Hc&Hq&Hk). destruct (served_call q b _ _ Hq Hco) as [Hd Hco'].
    split; try rewrite spawned_insert; [done | | |done].
    + exists m. simpl. rewrite list_lookup_insert_ne by done. split; [done |]. rewrite Hd.
      eapply typed_thread_step; [| |exact Hmok]; [done |]. apply effect_errors.
    + simpl. intros j g Hg. destruct (decide (i = j)) as [->|Hne].
      * rewrite list_lookup_insert_eq in Hg by (by eapply lookup_lt_Some). injection Hg as <-.
        exists (c || complains q). split; [by apply effect_complains | apply Hk].
      * rewrite list_lookup_insert_ne in Hg by congruence.
        eapply typed_thread_step; [| |by apply (Hs j)]; [done |]. apply effect_errors.
Qed.

(** A goroutine is started. *)
Lemma go_invariant p i g k :
  invariant p → exited p = None → threads p !! i = Some (Go g k) →
  invariant (Process (<[i := k tt]> (threads p) ++ [g]) (shared p) None).
Proof.
  intros [Hco (m&Hm&Hmok) Hs _] He Hi. destruct i as [|i]; [|by destruct (Hs i _ Hi) as (?&_&[])].
  rewrite Hm in Hi. injection Hi as ->. destruct Hmok as (c&Hc&Hsp&Hmig&Hping&Hpool&Hnot&Hg&Hk).
  assert (Hlen : length (threads p) = 1%nat) by (unfold spawned in Hsp; by apply bool_decide_eq_false, dec_stable in Hsp).
  destruct (threads p) as [|m' [|? ?]] eqn:Ht; try done. injection Hm as ->. simpl.
  split; simpl.
  - destruct Hco as [H1 H2 H3 H4 H7 H5 H6]. rewrite Hsp in *. split; simpl; auto.
    intros Hl. by destruct (H1 Hl).
  - exists (k tt). split; [done |]. by exists c.
  - intros [|j] g' Hg'; [|done]. injection Hg' as <-. by exists false.
  - done.
Qed.

(** The process ends. *)
Lemma exit_invariant p i code :
  invariant p → exited p = None →
  (threads p !! i = Some (os_Exit code) ∨ i = 0%nat ∧ code = 0%Z ∧ threads p !! i = Some (Return tt)) →
  invariant (Process (threads p) (shared p) (Some (Code code))).
Proof.
  intros [Hco (m&Hm&Hmok) Hs _] He Hi. split; [done | by exists m | done |].
  intros ? [= <-]. simpl. destruct Hi as [Hi | (->&->&Hi)].
  - assert (Htyped : typed_thread (λ c _, code = 1%Z ∧ c = true) (shared p) (os_Exit code)).
    { destruct i as [|i]; [|by apply (Hs i _ Hi)]. rewrite Hm in Hi. by injection Hi as ->. }
    destruct Htyped as (c&Hc&->&Hct). right. split; [done | by apply Hc].
  - rewrite Hm in Hi. injection Hi as ->. destruct Hmok as (c&_&Hsp&Hshut&Hw&Hpool).
    destruct Hco as [H1 H2 H3 H4 H7 H5 H6]. destruct (H5 Hshut) as [Hcl Hl].
    left. split_and!; auto. destruct (listening _) eqn:El; [|done]. destruct (H1 eq_refl). congruence.
Qed.

(** A signal comes before it is asked for, or when it is no longer. *)
Lemma killed_invariant p :
  invariant p → exited p = None → notified (done (shared p)) = false →
  invariant (Process (threads p) (shared p) (Some Killed)).
Proof.
  intros [Hco Hm Hs _] He Hn. split; [done | done | done |]. intros ? [= <-]. simpl.
  destruct Hco as [H1 H2 H3 H4 H7 H5 H6]. split; [done |].
  destruct (spawned p); [|split; [by destruct (listening _); [destruct (H1 eq_refl)|] |]].
  - destruct (shut (done (shared p))) eqn:Hshut; [|by rewrite H7 in Hn].
    destruct (H5 eq_refl) as [Hcl ?]. split; [|done].
    destruct (listening _); [|done]. destruct (H1 eq_refl). congruence.
  - right. destruct (inflight (shared p)); [done |]. by discriminate H2.
Qed.

(** What the process does not decide. *)
Lemma shared_invariant p w :
  invariant p → exited p = None → errors w = errors (shared p) → done w = done (shared p) →
  coherent (spawned p) w → invariant (set_shared p w).
Proof.
  intros [Hco (m&Hm&Hmok) Hs _] He Hew Hd Hc. split; [done | | | by simpl; rewrite He].
  - exists m. split; [done |]. unfold typed_thread in *. cbn [shared set_shared]. by rewrite Hew, Hd.
  - unfold typed_thread in *. cbn [shared set_shared]. by rewrite Hew.
Qed.

Lemma enter_invariant p i B (q : sys B) k w :
  invariant p → exited p = None → threads p !! i = Some (Sys q k) → enter q (shared p) = Some w →
  invariant (set_shared p w).
Proof.
  intros Hinv He Hi Hen. destruct (Hinv) as [[H1 H2 H3 H4 H7 H5 H6] (m&Hm&Hmok) Hs _].
  destruct q; try done; simpl in Hen.
  - destruct i as [|i]; [rewrite Hm in Hi; injection Hi as ->; by destruct Hmok as (?&_&[]&_) |].
    destruct (closing (shared p)) eqn:Hcl; [done |]. injection Hen as <-.
    assert (Hsp : spawned p = true).
    { unfold spawned. apply bool_decide_eq_true. apply lookup_lt_Some in Hi. lia. }
    apply shared_invariant; [done..|]. split; simpl; auto.
  - destruct i as [|i]; [|by destruct (Hs i _ Hi) as (?&_&[]&_)].
    injection Hen as <-. apply shared_invariant; [done..|]. split; simpl; try done; auto.
    intros Hshut. by destruct (H5 Hshut).
Qed.

Lemma step_invariant e p p' : invariant p → step getenv e p = Some p' → invariant p'.
Proof.
  intros Hinv Hstep. unfold step in Hstep. destruct (exited p) eqn:He; [done |].
  pose proof (inv_coherent p Hinv) as Hco. destruct e as [i r|i| | |].
  - unfold run in Hstep. destruct (threads p !! i) as [[u|code|B q k|g k]|] eqn:Hi; [..|done].
    + destruct (decide (i = 0%nat)) as [->|]; [|done]. injection Hstep as <-. destruct u.
      apply (exit_invariant p 0); auto.
    + injection Hstep as <-. apply (exit_invariant p i); auto.
    + destruct (answer getenv q r (shared p)) as [b|] eqn:Ha; [|done]. injection Hstep as <-.
      by eapply call_invariant.
    + injection Hstep as <-. by apply go_invariant.
  - destruct (threads p !! i) as [[u|code|B q k|g k]|] eqn:Hi; try done.
    destruct (enter q (shared p)) as [w|] eqn:Hen; [|done]. injection Hstep as <-.
    by eapply enter_invariant.
  - destruct (listening (shared p)) eqn:Hl; [|done]. injection Hstep as <-. apply shared_invariant; try done.
    destruct Hco as [H1 H2 H3 H4 H7 H5 H6]. destruct (H1 Hl) as [Hsp Hcl]. split; simpl; auto.
    intros Hshut. destruct (H5 Hshut). congruence.
  - destruct (inflight (shared p)) as [|n] eqn:Hn; [done |]. injection Hstep as <-. apply shared_invariant; try done.
    destruct Hco as [H1 H2 H3 H4 H7 H5 H6]. rewrite Hn in *. split; simpl; auto.
    intros Hshut. by destruct (H5 Hshut) as [? [?|?]]; auto.
  - destruct (notified (done (shared p))) eqn:Hn; injection Hstep as <-; [|by apply killed_invariant].
    apply shared_invariant; try done. by destruct Hco; split.
Qed.

Lemma reachable_invariant p : reachable getenv p → invariant p.
Proof.
  intros [es Hes]. revert Hes. generalize boot_invariant. generalize boot.
  induction es as [|e es IH]; intros p0 H0 Hes; simpl in Hes; [by injection Hes as <- |].
  destruct (step getenv e p0) as [p1|] eqn:Hp1; [|done]. apply (IH p1); [|done].
  by eapply step_invariant.
Qed.
End steps.

(** ** The guarantees *)

(** C14: in every state the process can be in, the port is open or a request is
    being handled only when the migrations are applied, the database has answered
    a ping and the connection pool is open; the pool is closed under a request only
    if [Shutdown] gave up waiting for it. *)
Theorem requests_need_database getenv p :
  reachable getenv p → listening (shared p) = true ∨ inflight (shared p) ≠ 0%nat →
  migrated (done (shared p)) = true ∧ pinged (done (shared p)) = true ∧
  (conns (done (shared p)) = Open ∨ late (shared p) = true).
Proof.
  intros [[H1 H2 H3 H4 H7 H5 H6] _ _ _]%reachable_invariant Hon.
  assert (Hsp : spawned p = true) by (destruct Hon as [Hl|Hn]; [apply H1, Hl | apply H2, Hn]).
  destruct (H3 Hsp). split_and!; [done | done |].
  destruct (shut (done (shared p))) eqn:Hs; [|left; by apply H4].
  destruct (H5 eq_refl) as [Hcl [?|?]]; [by right |].
  destruct Hon as [Hl|Hn]; [|done]. destruct (H1 Hl). congruence.
Qed.

(** C24: the exit status says how the process ended: 0 after a signal, with the
    port and the pool closed and no request cut off unless [Shutdown] gave up; 1
    after an error, which is logged.  There is no other status, and a signal kills the
    process only before it is registered for or once it no longer is, when the port
    is closed and no request is cut off unless [Shutdown] gave up. *)
Theorem exit_status getenv p st :
  reachable getenv p → exited p = Some st → ended st (shared p).
Proof. intros [_ _ _ H]%reachable_invariant. apply H. Qed.

(** ** Runs *)

Definition demo_getenv (key : string) : string := if decide (key = "DATABASE_URL") then "postgres://db" else "".

Definition ok : result error unit := Ok tt.

(** [main] up to the start of the serving goroutine, which binds the port. *)
Definition demo_boot : list event := replicate 10 (Run 0 ok) ++ [Run 1 ok; Enter 1].

Definition demo_serving : process := default boot (exec demo_getenv (demo_boot ++ [Accept]) boot).

Lemma requests_need_database_witness :
  listening (shared demo_serving) = true ∧ inflight (shared demo_serving) = 1%nat ∧
  migrated (done (shared demo_serving)) = true.
Proof.
  split; [by vm_compute |]. split; [by vm_compute |].
  destruct (requests_need_database demo_getenv demo_serving) as [H _].
  - exists (demo_boot ++ [Accept]). by vm_compute.
  - left. by vm_compute.
  - exact H.
Defined.

(** A signal, the request finished, the port and the pool closed. *)
Definition demo_end : list event :=
  demo_boot ++ [Accept; Signal; Run 0 ok; Run 0 ok; Enter 0; Run 1 ok; Finish] ++ replicate 5 (Run 0 ok).

(** A signal before the migrations are applied. *)
Definition demo_killed : list event := [Run 0 ok; Run 0 ok; Signal].

Lemma exit_status_witness :
  (∃ p, exec demo_getenv demo_end boot = Some p ∧ exited p = Some (Code 0) ∧ ended (Code 0) (shared p)) ∧
  (∃ p, exec demo_getenv demo_killed boot = Some p ∧ exited p = Some Killed ∧ ended Killed (shared p)).
Proof.
  split.
  - destruct (exec demo_getenv demo_end boot) as [p|] eqn:E; [|by vm_compute in E].
    exists p. assert (Hx : exited p = Some (Code 0)) by (vm_compute in E; by injection E as <-).
    split; [done |]. split; [exact Hx |]. apply (exit_status demo_getenv); [by exists demo_end | exact Hx].
  - destruct (exec demo_getenv demo_killed boot) as [p|] eqn:E; [|by vm_compute in E].
    exists p. assert (Hx : exited p = Some Killed) by (vm_compute in E; by injection E as <-).
    split; [done |]. split; [exact Hx |]. apply (exit_status demo_getenv); [by exists demo_killed | exact Hx].
Defined.
