(* ===== verification/Loadtest.v ===== *)
(** * cmd/loadtest

    The load test: it reads two balances, has a number of workers send transfers
    between the two accounts in both directions at once, reads the balances again
    and checks that their sum is what it was.  Written over any monad with an HTTP
    client; [%q] of [fmt], which quotes a text, its [%.2f] and [%.1f] of the measured
    time, and the order in which Go ranges over a map are parameters. *)

From Stdlib Require Import Ascii.
From S2P Require Import Prelude GoStd Decimal Money Uuid Json Ledger Pgx Store Service Http.
From stdpp Require Import options.
Import Http.

Module Loadtest.

Class Client (M : Type → Type) := {
  client_Get : string → M (result error (Z * bytes));
  client_Post : string → list (string * string) → bytes → M (result error (Z * bytes));
  new_key : M string;                                   (* uuid.New().String() *)
  ctx_expired : M bool;                                 (* ctx.Err() != nil *)
  time_elapsed : M Z;                                   (* time.Since(start) *)
  run_all : list (M (list string)) → M (list string) }. (* the workers, to the end; what they sent *)

Section loadtest.
Context {M : Type → Type} `{!MRet M, !MBind M, !Client M} (quote_go : string → bytes).
Context (seconds_text : Z → string) (rate_text : nat → Z → string)
  (range : gmap string nat → list (string * nat)).

Definition balance_fields : list (string * (Json.json → string → result error string)) :=
  [("Balance", store_string)].

(** The balance in an answer of the API. *)
Definition read_balance (status : Z) (body : bytes) : result error Decimal.Decimal :=
  if bool_decide (status ≠ StatusOK) then Err (Opaque "getBalance: status")
  else
    match Decode balance_fields (Json.parse body) "" with
    | Err err => Err (Wrapf "getBalance decode" err)
    | Ok balance =>
        match Decimal.NewFromString balance with
        | Err err => Err (Wrapf "getBalance parse" err)
        | Ok d => Ok d
        end
    end.

Definition getBalance (baseURL id : string) : M (result error Decimal.Decimal) :=
  let! r := client_Get (baseURL +:+ "/api/accounts/" +:+ id) in
  match r with
  | Err err => mret (Err (Wrapf "getBalance" err))
  | Ok (status, body) => mret (read_balance status body)
  end.

(** [Decode] with its error ignored: a member of another type is passed over. *)
Fixpoint error_member (members : list (string * Json.json)) (s : string) : string :=
  match members with
  | [] => s
  | (key, v) :: rest =>
      error_member rest
        (if equal_fold (s2b key) (s2b "error") then match store_string v s with Ok s' => s' | Err _ => s end else s)
  end.

(** The code of a refusal; empty for success. *)
Definition error_code (status : Z) (body : bytes) : string :=
  if bool_decide (status = StatusCreated) then ""
  else match Json.parse body with
       | Some (Json.JObject _ members) => error_member members ""
       | _ => ""
       end.

Definition transfer_text (src dst amount : string) : bytes :=
  let name s := quote :: s2b s ++ [quote; ":"%char] in
  "{"%char :: name "src_account_id" ++ quote_go src ++ [","%char] ++ name "dst_account_id" ++ quote_go dst ++
  [","%char] ++ name "amount" ++ quote_go amount ++ ["}"%char].

Definition postTransfer (baseURL src dst amount idemKey : string) : M (result error (Z * string)) :=
  let! r := client_Post (baseURL +:+ "/api/transfers")
              [("Content-Type", "application/json"); ("Idempotency-Key", idemKey)] (transfer_text src dst amount) in
  match r with
  | Err err => mret (Err (Wrapf "postTransfer do" err))
  | Ok (status, body) => mret (Ok (status, error_code status body))
  end.

(** What a worker sends to the channel from its iteration [i] on, [n] iterations
    before the end. *)
Fixpoint worker (baseURL src dst amount : string) (n i : nat) : M (list string) :=
  match n with
  | O => mret []
  | S n =>
      let! expired := ctx_expired in
      if expired : bool then mret []
      else
        let '(from, to) := if Nat.odd i then (dst, src) else (src, dst) in
        let! key := new_key in
        let! r := postTransfer baseURL from to amount key in
        let out := match r with Err _ => "http_error" | Ok (_, errCode) => errCode end in
        let! rest := worker baseURL src dst amount n (S i) in
        mret (out :: rest)
  end.

(** The successes and the number of failures of each code. *)
Fixpoint tally (results : list string) : nat * gmap string nat :=
  match results with
  | [] => (0%nat, ∅)
  | code :: rest =>
      let '(successes, errCounts) := tally rest in
      if bool_decide (code = "") then (S successes, errCounts)
      else (successes, partial_alter (λ n, Some (S (default 0%nat n))) code errCounts)
  end.

(** The exit status. *)
Definition verdict (startTotal endTotal : Decimal.Decimal) (results : list string) : Z :=
  let invariantOK := Decimal.Equal startTotal endTotal in
  if negb invariantOK || bool_decide ((tally results).2 ≠ ∅) then 1 else 0.

Definition number (n : nat) : string := b2s (nat_String (Z.of_nat n)).

(** The lines of the summary. *)
Definition summary (baseURL src dst : string) (workers iters : nat) (elapsed : Z)
    (startTotal endTotal : Decimal.Decimal) (results : list string) : list string :=
  let '(successes, errCounts) := tally results in
  let totalOps := (workers * iters)%nat in
  ["load test summary";
   "  target:                 " +:+ baseURL;
   "  src:                    " +:+ src;
   "  dst:                    " +:+ dst;
   "  workers x iters:        " +:+ number workers +:+ " x " +:+ number iters +:+ " = " +:+ number totalOps +:+ " ops";
   "  elapsed:                " +:+ seconds_text elapsed +:+ "s";
   "  throughput:             " +:+ rate_text totalOps elapsed +:+ " ops/s";
   "  successes:              " +:+ number successes] ++
  (if bool_decide (errCounts = ∅) then ["  failures by error_code: (none)"]
   else (λ p : string * nat, "  failures [" +:+ p.1 +:+ "]: " +:+ number p.2) <$> range errCounts) ++
  ["  start balance src+dst:  " +:+ Decimal.StringFixed startTotal 4;
   "  end balance src+dst:    " +:+ Decimal.StringFixed endTotal 4;
   if Decimal.Equal startTotal endTotal then "  invariant:              PASS"
   else "  invariant:              FAIL"].

(** What the process writes to its two streams, and its exit status. *)
Record report := Report { rp_stdout : list string; rp_stderr : list string; rp_status : Z }.

Definition failed (err : error) : report := Report [] ["error: " +:+ Error err] 1.

Definition main (baseURL src dst amount : string) (workers iters : nat) : M report :=
  let! r := getBalance baseURL src in
  match r with
  | Err err => mret (failed err)
  | Ok startSrc =>
      let! r := getBalance baseURL dst in
      match r with
      | Err err => mret (failed err)
      | Ok startDst =>
          let startTotal := Decimal.Add startSrc startDst in
          let! results := run_all (replicate workers (worker baseURL src dst amount iters 0)) in
          let! elapsed := time_elapsed in
          let! r := getBalance baseURL src in
          match r with
          | Err err => mret (failed err)
          | Ok endSrc =>
              let! r := getBalance baseURL dst in
              match r with
              | Err err => mret (failed err)
              | Ok endDst =>
                  let endTotal := Decimal.Add endSrc endDst in
                  mret (Report (summary baseURL src dst workers iters elapsed startTotal endTotal results) []
                          (verdict startTotal endTotal results))
              end
          end
      end
  end.

(** The flags when none is given. *)
Definition default_flags : string * nat * nat * string * string * string :=
  ("http://localhost:8080", 8, 50, "1.00", "00000000-0000-0000-0000-000000000002",
   "00000000-0000-0000-0000-000000000003")%nat.

End loadtest.

End Loadtest.
