(* ===== verification/LoadtestFacts.v ===== *)
(** * The load test

    The load test reads what the server writes, sends what it should, and its check
    passes: whatever the interleaving of the workers' transfers and whatever fails,
    the two balances sum to what they did. *)

From Stdlib Require Import Ascii.
From S2P Require Import Prelude GoStd Decimal Money Uuid Ledger Schema Pgx Store Service LedgerSpec LedgerFacts StorerSpec ServiceSpec Numeric SchemaFacts StoreBlocks StoreRefines Guarantee Clients Migrations Progress Prog Machine Locking Frames Serial Liveness Solo Knowledge Answers Reads Books Scheduler Correctness Concurrent Json JsonFacts Http HttpFacts Mux Routes RoutesFacts WebFacts WebAnswers WebConcurrent Render RenderFacts Loadtest.
From stdpp Require Import options.
Import Ledger Schema LedgerSpec Migrations Http Mux Routes Render Loadtest.
Open Scope Z_scope.

(** ** Answers *)

Section answers.
Context (time_text : Time → string).

(** The client reads the balance of the account in the server's answer. *)
Lemma balance_read a u :
  a.(acc_Balance) = Money.of_units u →
  read_balance 200 (body_text time_text (writeJSON 200 (RAccount a))) = Ok (Money.of_units u).(Money.d).
Proof.
  intros Hu. unfold read_balance. rewrite bool_decide_false by (by intros []). rewrite body_parsed.
  cbn [resp_body_ writeJSON json_body json_account Json.mk_object Decode].
  assert (Hm : Decode balance_fields (Some (json_account time_text a)) "" = Ok (Money.String (Money.of_units u))).
  { unfold json_account, Json.mk_object, json_money. rewrite Hu, (mk_string_plain _ (money_plain u)). reflexivity. }
  unfold json_account, Json.mk_object in Hm. cbn [Decode] in Hm. rewrite Hm.
  unfold Decimal.NewFromString. rewrite Money.String_of_units, s2b_b2s.
  by rewrite Decimal.NewFromBytes_string_false by (unfold Decimal.MinInt32; simpl; lia).
Qed.

(** C39: a refusal of the API is counted under its code; a refusal that is not a
    JSON object, such as those of the mux or of a proxy, is counted as a success. *)
Theorem refusals_counted status code message body :
  status ≠ 201 → utf8 code →
  error_code status (body_text time_text (writeJSON status (RError code message))) = code ∧
  ((∀ raw ms, Json.parse body ≠ Some (Json.JObject raw ms)) → error_code status body = "").
Proof.
  intros Hs Hc. unfold error_code. rewrite bool_decide_false by done. split.
  - rewrite body_parsed. cbn [resp_body_ writeJSON json_body].
    destruct message as [m|]; cbn [Json.mk_object error_member store_string Json.mk_string].
    + unfold utf8 in Hc. change (equal_fold (s2b "error") (s2b "error")) with true.
      change (equal_fold (s2b "message") (s2b "error")) with false. cbv iota. by rewrite Hc, b2s_s2b.
    + unfold utf8 in Hc. change (equal_fold (s2b "error") (s2b "error")) with true. cbv iota. by rewrite Hc, b2s_s2b.
  - intros Hb. destruct (Json.parse body) as [[]|]; try done. by destruct (Hb raw members).
Qed.
End answers.

(** ** Requests *)

Section requests.
Context (quote_go : string → bytes) (Hquote : ∀ s, plain s → quote_go s = quote :: s2b s ++ [quote]).

(** The server decodes what a worker sends. *)
Lemma transfer_text_decoded src dst amount m :
  plain src → plain dst → plain amount → Money.FromString amount = Ok m →
  Decode transfer_fields (Json.parse (transfer_text quote_go src dst amount)) (TransferBody "" "" Money.zero_value)
  = Ok (TransferBody src dst m).
Proof using Hquote.
  intros Hs Hd Ha Hm.
  assert (Ht : transfer_text quote_go src dst amount = Json.raw_text (Json.mk_object
    [("src_account_id", Json.mk_string src); ("dst_account_id", Json.mk_string dst); ("amount", Json.mk_string amount)])).
  { unfold transfer_text. rewrite !Hquote by done. unfold Json.mk_object. rewrite !mk_string_plain by done.
    cbn [Json.raw_text fmap list_fmap Json.separated]. unfold Json.member_text. cbn [fst snd Json.raw_text].
    rewrite (quote_plain "src_account_id"), (quote_plain "dst_account_id"), (quote_plain "amount") by (by apply plain_bool).
    simpl. repeat (rewrite <-app_assoc; simpl). done. }
  rewrite Ht, <-(app_nil_r (Json.raw_text _)), (written_parsed 1).
  - rewrite !mk_string_plain by done.
    trans (let^ b := (let^ m0 := store_money (Json.JString (quote :: s2b amount ++ [quote]) amount) in
                      Ok (TransferBody src dst m0)) in Ok b); [reflexivity |].
    unfold store_money, Money.UnmarshalJSON. cbn [Json.raw_text].
    by rewrite Money.strip_quotes_quoted, b2s_s2b, Hm.
  - apply written_members. repeat (apply List.Forall_cons; [split; [by vm_compute | apply written_string] |]).
    apply List.Forall_nil.
  - done.
  - done.
Qed.
End requests.

(** ** What a worker sends *)

Record post := Post { post_url : string; post_headers : list (string * string); post_body : bytes }.

(** A client that records what is posted, over any replies, keys and deadline. *)
Record weather := Weather { w_reply : nat → result error (Z * bytes); w_key : nat → string; w_expired : nat → bool }.

Definition Rec (A : Type) : Type := weather → list post * nat → A * (list post * nat).

#[global] Instance Rec_ret : MRet Rec := λ A a _ s, (a, s).
#[global] Instance Rec_bind : MBind Rec := λ A B f m w s, let '(a, s') := m w s in f a w s'.
#[global] Instance Rec_Client : Client Rec := {
  client_Get url := λ w s, (w.(w_reply) s.2, (s.1, S s.2));
  client_Post url hs b := λ w s, (w.(w_reply) s.2, (s.1 ++ [Post url hs b], S s.2));
  new_key := λ w s, (w.(w_key) s.2, (s.1, S s.2));
  ctx_expired := λ w s, (w.(w_expired) s.2, (s.1, S s.2));
  time_elapsed := λ w s, (Z.of_nat s.2, (s.1, S s.2));
  run_all ms := foldr (λ m acc, let! l := m in let! l' := acc in mret (l ++ l')) (mret []) ms }.

(** Runs the recorder through the client's calls. *)
Ltac rec_step :=
  match goal with Hr : _ = (_, _) |- _ =>
    cbn [worker] in Hr;
    cbv [postTransfer mbind Rec_bind mret Rec_ret ctx_expired new_key client_Post Rec_Client fst snd] in Hr
  end.

Section worker.
Context (quote_go : string → bytes).

(** The transfer from [from] to [to] under a key. *)
Definition transfer_post (baseURL from to amount key : string) : post :=
  Post (baseURL +:+ "/api/transfers") [("Content-Type", "application/json"); ("Idempotency-Key", key)]
       (transfer_text quote_go from to amount).

Definition direction (src dst : string) (i : nat) : string * string :=
  if Nat.odd i then (dst, src) else (src, dst).

(** a worker posts one transfer for each result it sends, and no more than it
    was asked for, so that the channel holds them all without a reader; the
    transfers alternate between the two directions. *)
Theorem worker_sends baseURL src dst amount n i w ps t l ps' t' :
  worker (M:=Rec) quote_go baseURL src dst amount n i w (ps, t) = (l, (ps', t')) →
  (length l <= n)%nat ∧ ∃ sent, ps' = ps ++ sent ∧ length sent = length l ∧
  ∀ j p, sent !! j = Some p → ∃ key,
    p = transfer_post baseURL (direction src dst (i + j)).1 (direction src dst (i + j)).2 amount key.
Proof.
  revert i ps t l. induction n as [|n IH]; intros i ps t l Hr.
  { cbv [worker mret Rec_ret] in Hr. injection Hr as <- <- <-. split; [done |]. exists []. by rewrite app_nil_r. }
  rec_step. destruct (w_expired w t).
  { cbv [mret Rec_ret] in Hr. injection Hr as <- <- <-. split; [simpl; lia |]. exists []. by rewrite app_nil_r. }
  set (dir := if Nat.odd i then (dst, src) else (src, dst)) in Hr.
  assert (Hdir : dir = direction src dst i) by done. clearbody dir. destruct dir as [from to].
  rec_step. set (p0 := Post _ _ _) in Hr.
  assert (∃ out, (let '(a, s') := worker (M:=Rec) quote_go baseURL src dst amount n (S i) w (ps ++ [p0], S (S (S t)))
                  in (out :: a, s')) = (l, (ps', t'))) as [out Hr'].
  { destruct (w_reply w (S (S t))) as [[st b]|e]; eexists; exact Hr. }
  clear Hr. destruct (worker (M:=Rec) _ _ _ _ _ n (S i) w _) as [a [ps1 t1]] eqn:E. injection Hr' as <- <- <-.
  apply IH in E as [Hlen (sent&->&Hsent&Hps)]. split; [simpl; lia |].
  exists (p0 :: sent). rewrite <-app_assoc. split; [done |]. split; [simpl; by rewrite Hsent |].
  intros [|j] p Hp.
  - injection Hp as <-. rewrite Nat.add_0_r, <-Hdir. by eexists.
  - replace (i + S j)%nat with (S i + j)%nat by lia. by apply Hps.
Qed.
End worker.

(** ** Conservation between two accounts *)

Definition between (a b : UUID) (rq : request) : Prop :=
  rq.(rq_from) = a ∧ rq.(rq_to) = b ∨ rq.(rq_from) = b ∧ rq.(rq_to) = a.

(** Both accounts exist, and their balances sum to [s]. *)
Definition pair_sum (a b : UUID) (s : Z) (L : ledger) : Prop :=
  is_Some (L.(accts) !! a) ∧ is_Some (L.(accts) !! b) ∧ units_of a L + units_of b L = s.

Lemma units_of_move rq id L x :
  rq.(rq_from) ≠ rq.(rq_to) → is_Some (L.(accts) !! x) →
  is_Some ((move rq id L).(accts) !! x) ∧
  units_of x (move rq id L) = units_of x L + (if decide (x = rq.(rq_to)) then rq.(rq_units)
                                              else if decide (x = rq.(rq_from)) then - rq.(rq_units) else 0).
Proof.
  intros Hne [y Hy]. unfold units_of, move. cbn [accts].
  destruct (decide (x = rq.(rq_to))) as [->|Ht]; [|destruct (decide (x = rq.(rq_from))) as [->|Hf]].
  - rewrite lookup_alter_eq, lookup_alter_ne, Hy by done. simpl. split; [by eexists | lia].
  - rewrite lookup_alter_ne, lookup_alter_eq, Hy by done. simpl. split; [by eexists | lia].
  - rewrite !lookup_alter_ne, Hy by done. split; [by eexists | lia].
Qed.

Lemma pair_sum_move a b s rq id L : a ≠ b → between a b rq → pair_sum a b s L → pair_sum a b s (move rq id L).
Proof.
  intros Hab Hbt (Ha&Hb&Hs). destruct Hbt as [[Hf Ht]|[Hf Ht]].
  all: assert (Hne : rq.(rq_from) ≠ rq.(rq_to)) by congruence.
  all: destruct (units_of_move rq id L a Hne Ha) as [Ha' Hua], (units_of_move rq id L b Hne Hb) as [Hb' Hub].
  all: split_and!; [done | done |]; rewrite Hua, Hub, Hf, Ht; repeat case_decide; try congruence; lia.
Qed.

Lemma pair_sum_step {A} R a b s L (ev : effect A) L' :
  a ≠ b → (∀ L rq, R L rq → between a b rq) → book_step R L ev L' → pair_sum a b s L → pair_sum a b s L'.
Proof.
  intros Hab HR Hst Hp. destruct ev as [| |st p]; simpl in Hst.
  - by subst.
  - destruct Hst as [->|[(id&Hid&->)|(u&_&->)]]; [done | | exact Hp].
    destruct Hp as (Ha&Hb&Hs). unfold pair_sum, units_of, add_acct in *. simpl.
    assert (id ≠ a ∧ id ≠ b) as [? ?] by (split; intros ->; rewrite Hid in *; by destruct Ha, Hb).
    by rewrite !lookup_insert_ne by done.
  - destruct Hst as (id&rq&Hrq&_&->). apply pair_sum_move; eauto.
Qed.

(** A session that has finished changes nothing. *)
Lemma finished_silent {A} (y y' : system A) tr p s a :
  execution y tr y' → y.(y_sessions) !! p = Some s → finished s.(s_prog) = Some a →
  ∀ ev, (p, ev) ∈ tr → ev = Silent.
Proof.
  intros Hx. revert s. induction Hx as [y|faulty y1 [q ev1] y2 tr y3 Hst Hx IH]; intros s Hs Ha ev; [by intros ?%not_elem_of_nil |].
  assert ((q = p → ev1 = Silent) ∧ ∃ s2, y2.(y_sessions) !! p = Some s2 ∧ s2.(s_prog) = s.(s_prog)) as [Hq (s2&Hs2&E)].
  { destruct (decide (q = p)) as [->|Hne].
    - inversion Hst as [db ss ? s0 db' s' ? Hs0 Hse|db ss ? prg b Hs0 _ _]; subst; simpl in *.
      + rewrite Hs in Hs0. injection Hs0 as <-. destruct s as [[] bo]; done.
      + split; [done |]. rewrite Hs in Hs0. injection Hs0 as ->. exists (MkSession prg (Some (cut b))). split; [|done].
        apply list_lookup_insert_eq. by eapply lookup_lt_Some.
    - split; [done |]. exists s. split; [|done]. inversion Hst; subst; simpl in *; by rewrite list_lookup_insert_ne. }
  intros [[= <- <-]|Hin]%elem_of_cons; [by apply Hq |]. eapply IH; [exact Hs2 | by rewrite E | done].
Qed.

Lemma units_of_still {A} R x L (tr : list (nat * effect A)) L' :
  (∀ p ev, (p, ev) ∈ tr → ev = Silent ∨ ∀ L rq, ¬ R p L rq) → books R L tr L' → is_Some (L.(accts) !! x) →
  is_Some (L'.(accts) !! x) ∧ units_of x L' = units_of x L.
Proof.
  intros Hno Hb. induction Hb as [L|L p ev tr L1 L' Hst Hb IH]; [done |]. intros Hx.
  assert (is_Some (L1.(accts) !! x) ∧ units_of x L1 = units_of x L) as [Hx1 <-].
  { destruct (Hno p ev ltac:(left)) as [->|Hn]; [by simpl in Hst; subst |].
    destruct ev as [| |st q]; simpl in Hst; [by subst | |by destruct Hst as (id&rq&Hrq&_); destruct (Hn L rq)].
    destruct Hst as [->|[(id&Hid&->)|(u&_&->)]]; [done | |done].
    unfold units_of, add_acct. simpl. rewrite lookup_insert_ne; [done |]. intros ->. rewrite Hid in Hx. by destruct Hx. }
  apply IH; [|done]. intros p' ev' Hin. apply Hno. by right.
Qed.

Lemma pair_sum_books {A} R a b s L (tr : list (nat * effect A)) L' :
  a ≠ b → (∀ p L rq, R p L rq → between a b rq) → books R L tr L' → pair_sum a b s L → pair_sum a b s L'.
Proof.
  intros Hab HR Hb. induction Hb as [L|L p ev tr L1 L' Hst Hb IH]; [done |].
  intros Hp. apply IH. by eapply pair_sum_step; [|apply HR| |].
Qed.

(** ** The check *)

Section check.
Context (quote_go : string → bytes) (Hquote : ∀ s, plain s → quote_go s = quote :: s2b s ++ [quote]).
Context (time_text : Time → string) (src dst amount : string) (a b : UUID) (m : Money.Money).
Context (Hsrc : plain src) (Hdst : plain dst) (Hamount : plain amount)
  (Ha : Uuid.Parse src = Ok a) (Hb : Uuid.Parse dst = Ok b) (Hm : Money.FromString amount = Ok m) (Hab : a ≠ b).
Set Default Proof Using "Type*".

(** What a worker posts, as the server receives it. *)
Definition transfer_request (from to key : string) : web_request :=
  let p := transfer_post quote_go "" from to amount key in
  MkWebRequest "POST" (post_url p) (s2b (post_url p)) (post_headers p) [] (post_body p).

Definition load_request (r : web_request) : Prop :=
  ∃ key, r = transfer_request src dst key ∨ r = transfer_request dst src key.

Lemma transfer_asks from to key c :
  plain from → plain to → asks (transfer_request from to key) c →
  ∃ f t req, Uuid.Parse from = Ok f ∧ Uuid.Parse to = Ok t ∧ c = CallTransfer f t m key req.
Proof.
  intros Hf Ht Hasks. destruct Hasks as [body f t req _ Hd Hpf Hpt|body t req (_&_&Hp)|id orig req (_&_&Hp)].
  - simpl in Hd. rewrite (transfer_text_decoded quote_go Hquote _ _ _ _ Hf Ht Hamount Hm) in Hd.
    injection Hd as <-. by exists f, t, req.
  - by vm_compute in Hp.
  - by vm_compute in Hp.
Qed.

Lemma load_request_between r L rq : load_request r → demands r L rq → between a b rq.
Proof.
  intros [key [-> | ->]] (c&Hc&Hrq).
  - apply transfer_asks in Hc as (f&t&req&Hf&Ht&->); [|done..]. destruct Hrq as (->&_). left. simpl. split; congruence.
  - apply transfer_asks in Hc as (f&t&req&Hf&Ht&->); [|done..]. destruct Hrq as (->&_). right. simpl. split; congruence.
Qed.

(** The sum the load test computes from two answers. *)
Definition reported_total (x y : Account) : option Decimal.Decimal :=
  match read_balance 200 (body_text time_text (writeJSON 200 (RAccount x))),
        read_balance 200 (body_text time_text (writeJSON 200 (RAccount y))) with
  | Ok dx, Ok dy => Some (Decimal.Add dx dy)
  | _, _ => None
  end.

(** What the server answers for an account of a ledger. *)
Definition shows (id : UUID) (L : ledger) (x : Account) : Prop := x.(acc_Balance) = Money.of_units (units_of id L).

Lemma reported_sum L x L' y :
  shows a L x → shows b L' y → reported_total x y = Some (Money.of_units (units_of a L + units_of b L')).(Money.d).
Proof using Type.
  intros Hx Hy. unfold reported_total. rewrite (balance_read _ _ _ Hx), (balance_read _ _ _ Hy).
  exact (f_equal (λ m, Some (Money.d m)) (Money.Add_of_units (units_of a L) (units_of b L'))).
Qed.

(** The requests that the server handles: those of the load, and any that do not
    post. *)
Definition in_load (r : web_request) : Prop := load_request r ∨ r.(wr_Method) ≠ "POST".

(** The load is answered. *)
Definition load_answered (rs : list web_request) (y : system answer) : Prop :=
  ∀ p r, rs !! p = Some r → load_request r → is_Some (answer_of y p).

Lemma get_demands_nothing r L rq : r.(wr_Method) ≠ "POST" → ¬ demands r L rq.
Proof using Type. intros Hp (c&Hc&_). by destruct Hc as [? ? ? ? [? _]|? ? ? [? _]|? ? ? [? _]]. Qed.

Lemma in_load_between rs p L rq : Forall in_load rs → demanded rs p L rq → between a b rq.
Proof.
  intros Hrs (r&Hr&Hd). destruct (proj1 (Forall_lookup _ _) Hrs _ _ Hr) as [Hl|Hg];
    [by eapply load_request_between | by destruct (get_demands_nothing r L rq)].
Qed.

Lemma load_requests_conserve rs db tr y :
  Forall in_load rs → sound_db db → ledger_inv (abs db.(tables)) →
  is_Some ((abs db.(tables)).(accts) !! a) → is_Some ((abs db.(tables)).(accts) !! b) →
  execution (web_system db rs) tr y →
  pair_sum a b (units_of a (abs db.(tables)) + units_of b (abs db.(tables))) (abs y.(y_db).(tables)).
Proof.
  intros Hrs Hok Hinv Hxa Hxb Hx.
  destruct (start_books _ (demanded_well_requested rs) _ (answered_lasting rs) db _ tr y (web_well_behaved rs) Hok Hinv Hx) as [Hbooks _].
  eapply pair_sum_books; [done | | exact Hbooks | by split_and!]. intros p L rq. by apply in_load_between.
Qed.

(** Once the load is answered the balances stay. *)
Lemma load_answered_still rs db tr y tr' y' x :
  Forall in_load rs → sound_db db → ledger_inv (abs db.(tables)) →
  execution (web_system db rs) tr y → load_answered rs y → execution y tr' y' →
  is_Some ((abs y.(y_db).(tables)).(accts) !! x) →
  units_of x (abs y'.(y_db).(tables)) = units_of x (abs y.(y_db).(tables)).
Proof using Type.
  intros Hrs Hok Hinv Hx Hans Hx' Hacc.
  pose proof (moment_books _ (demanded_well_requested rs) _ (answered_lasting rs) db _ tr y tr' y'
                (web_well_behaved rs) Hok Hinv Hx Hx') as Hbk.
  eapply (units_of_still _ x) in Hbk as [_ ?]; [done | | done]. intros p ev Hin.
  destruct (rs !! p) as [r|] eqn:Hr; [|right; intros L rq (r&?&_); congruence].
  destruct (proj1 (Forall_lookup _ _) Hrs _ _ Hr) as [Hl|Hg].
  - left. destruct (Hans p r Hr Hl) as [ans (s&Hs&Hfin)%bind_Some]. by eapply finished_silent.
  - right. intros L rq (r'&?&Hd). assert (r' = r) as -> by congruence. by eapply get_demands_nothing.
Qed.
End check.

Lemma tally_empty results : (tally results).2 = ∅ ↔ Forall (λ code, code = "") results.
Proof.
  induction results as [|code rest IH]; [by split; [constructor|] |]. simpl.
  destruct (tally rest) as [n errs]. simpl in IH. rewrite Forall_cons. case_bool_decide as Hc; simpl.
  - rewrite IH. by split; [|intros [_ ?]].
  - split; [|by intros [? _]]. intros He. apply (f_equal (lookup code)) in He.
    by rewrite lookup_partial_alter_eq, lookup_empty in He.
Qed.

(** C13: however the workers' transfers are interleaved and whatever fails, the sum
    of the two balances the load test reads at the end equals that of the start, so that
    its exit status is 0 unless some result was a failure.  The two balances are read
    one after the other, while other requests that do not post may run: it is enough
    that the transfers have been answered when the first is read, or that both are read
    of one committed state. *)
Theorem load_test_passes quote_go time_text src dst amount a b m rs db tr y tr' y' x0 z0 x1 z1 results :
  (∀ s, plain s → quote_go s = quote :: s2b s ++ [quote]) →
  plain src → plain dst → plain amount →
  Uuid.Parse src = Ok a → Uuid.Parse dst = Ok b → Money.FromString amount = Ok m → a ≠ b →
  Forall (in_load quote_go src dst amount) rs →
  sound_db db → ledger_inv (abs db.(tables)) →
  is_Some ((abs db.(tables)).(accts) !! a) → is_Some ((abs db.(tables)).(accts) !! b) →
  execution (web_system db rs) tr y → execution y tr' y' → y' = y ∨ load_answered quote_go src dst amount rs y →
  shows a (abs db.(tables)) x0 → shows b (abs db.(tables)) z0 →
  shows a (abs y.(y_db).(tables)) x1 → shows b (abs y'.(y_db).(tables)) z1 →
  ∃ startTotal endTotal,
    reported_total time_text x0 z0 = Some startTotal ∧ reported_total time_text x1 z1 = Some endTotal ∧
    verdict startTotal endTotal results = if decide (Forall (λ code, code = "") results) then 0 else 1.
Proof.
  intros Hq Hs Hd Ham Ha Hb Hm Hab Hrs Hok Hinv Hxa Hxb Hx Hx' Hend H0 H0' H1 H1'.
  destruct (load_requests_conserve quote_go Hq src dst amount a b m Hs Hd Ham Ha Hb Hm Hab rs db tr y
                Hrs Hok Hinv Hxa Hxb Hx) as (_&Hyb&Hsum).
  assert (Hstill : units_of b (abs y'.(y_db).(tables)) = units_of b (abs y.(y_db).(tables))).
  { destruct Hend as [->|Hans]; [done |]. by eapply load_answered_still. }
  rewrite (reported_sum _ _ _ _ _ _ _ H0 H0'), (reported_sum _ _ _ _ _ _ _ H1 H1'), Hstill, Hsum. do 2 eexists.
  split; [done |]. split; [done |]. unfold verdict.
  pose proof (Money.Equal_of_units) as He. unfold Money.Equal in He. rewrite He, Z.eqb_refl. simpl.
  case_decide as Hall.
  - by rewrite bool_decide_false by (intros Hne; by apply Hne, tally_empty).
  - rewrite bool_decide_true; [done |]. intros He'. by apply Hall, tally_empty.
Qed.

(** ** Runs *)

Definition demo_quote (s : string) : bytes := quote :: s2b s ++ [quote].
Definition demo_time (t : Time) : string := "2026-01-01T00:00:00Z".

Definition AliceText : string := "00000000-0000-0000-0000-000000000002".
Definition BobText : string := "00000000-0000-0000-0000-000000000003".

Definition demo_account (id : UUID) (L : ledger) : Account :=
  MkAccount id "demo" (Money.of_units (units_of id L)) false 0 0.

Lemma refusals_counted_witness :
  error_code 422 (body_text demo_time (writeJSON 422 (RError "unprocessable" (Some "insufficient funds")))) = "unprocessable" ∧
  error_code 405 (s2b "Method Not Allowed") = "".
Proof.
  destruct (refusals_counted demo_time 422 "unprocessable" (Some "insufficient funds") []) as [H _]; [done | done |].
  destruct (refusals_counted demo_time 405 "unprocessable" None (s2b "Method Not Allowed")) as [_ H2]; [done | done |].
  split; [exact H |]. apply H2. intros raw ms. by vm_compute.
Defined.

(** The second reply is a refusal, the third is lost. *)
Definition demo_weather : weather :=
  Weather (λ t, if decide (t = 8)%nat then Err (Opaque "timeout")
                else if decide (t = 5)%nat
                then Ok (422%Z, body_text demo_time (writeJSON 422 (RError "unprocessable" None)))
                else Ok (201%Z, [])) (λ t, b2s (nat_String (Z.of_nat t))) (λ _, false).

Lemma worker_sends_witness :
  ∃ ps t', worker (M:=Rec) demo_quote "http://localhost:8080" AliceText BobText "1.00" 3 0 demo_weather ([], 0%nat)
    = ([""; "unprocessable"; "http_error"], (ps, t')) ∧
  length ps = 3%nat ∧
  ∃ key, ps !! 1%nat = Some (transfer_post demo_quote "http://localhost:8080" BobText AliceText "1.00" key).
Proof.
  destruct (worker (M:=Rec) demo_quote "http://localhost:8080" AliceText BobText "1.00" 3 0 demo_weather ([], 0%nat))
    as [l [ps t']] eqn:E.
  assert (Hl : l = [""; "unprocessable"; "http_error"])
    by (by apply (f_equal fst) in E; vm_compute in E; rewrite E).
  apply (worker_sends demo_quote) in E as [_ (sent&Hps&Hlen&Hsent)].
  exists ps, t'. rewrite Hl in *. split; [done |]. simpl in Hps. subst ps. split; [done |].
  destruct sent as [|p0 [|p1 sent]]; try done. destruct (Hsent 1%nat p1 eq_refl) as [key ->]. by exists key.
Defined.

(** A whole run, with one worker: the balances, the three transfers above, and the
    balances again, of which the second is what it was less the one transfer done. *)
Definition demo_balance (amount : string) : bytes :=
  (λ c, if decide (c = "'"%char) then quote else c) <$> s2b ("{'ID':'x','Balance':'" +:+ amount +:+ "'}").

Definition report_weather : weather :=
  Weather (λ t, match t with
                | 0 => Ok (200%Z, demo_balance "7.5") | 1 => Ok (200%Z, demo_balance "2.5000")
                | 7 => Ok (422%Z, body_text demo_time (writeJSON 422 (RError "unprocessable" None)))
                | 10 => Err (Opaque "timeout")
                | 12 => Ok (200%Z, demo_balance "6.5") | 13 => Ok (200%Z, demo_balance "3.5000")
                | _ => Ok (201%Z, [])
                end)%nat (λ t, b2s (nat_String (Z.of_nat t))) (λ _, false).

Example demo_report :
  (main (M:=Rec) demo_quote (λ _, "0.01") (λ _ _, "300.0") map_to_list "http://localhost:8080" AliceText BobText "1.00" 1 3
     report_weather ([], 0%nat)).1 =
  Report ["load test summary";
          "  target:                 http://localhost:8080";
          "  src:                    00000000-0000-0000-0000-000000000002";
          "  dst:                    00000000-0000-0000-0000-000000000003";
          "  workers x iters:        1 x 3 = 3 ops";
          "  elapsed:                0.01s";
          "  throughput:             300.0 ops/s";
          "  successes:              1";
          "  failures [unprocessable]: 1";
          "  failures [http_error]: 1";
          "  start balance src+dst:  10.0000";
          "  end balance src+dst:    10.0000";
          "  invariant:              PASS"] [] 1.
Proof. by vm_compute. Qed.

(** Two transfers at once, and the balance of an account read afterwards. *)
Definition load_requests : list web_request :=
  [transfer_request demo_quote "1.00" AliceText BobText "k1"; transfer_request demo_quote "1.00" BobText AliceText "k2";
   get account_path].

Definition load_run : list (nat * effect answer) * system answer :=
  schedule demo_env 0 (mjoin (replicate 34 [0%nat; 1%nat])) (web_system (seed_db 0) load_requests).

Definition read_run : list (nat * effect answer) * system answer := schedule demo_env 100 [2; 2; 2]%nat load_run.2.

Lemma load_run_answers : bool_decide (is_Some (answer_of load_run.2 0)) && bool_decide (is_Some (answer_of load_run.2 1)) = true.
Proof. by vm_compute. Qed.

Lemma load_run_answered : load_answered demo_quote AliceText BobText "1.00" load_requests load_run.2.
Proof.
  pose proof load_run_answers as Hans. revert Hans. generalize load_run.2. intros y.
  rewrite andb_true_iff, !bool_decide_eq_true. intros [H0 H1] p r Hr Hl.
  destruct p as [|[|[|p]]]; [exact H0 | exact H1 | | discriminate Hr].
  injection Hr as <-. destruct Hl as [key [E|E]]; discriminate E.
Qed.

Lemma load_test_passes_witness :
  let L := abs load_run.2.(y_db).(tables) in let L' := abs read_run.2.(y_db).(tables) in
  ∃ t0 t1, reported_total demo_time (demo_account Alice (abs (seed_db 0).(tables))) (demo_account Bob (abs (seed_db 0).(tables))) = Some t0 ∧
    reported_total demo_time (demo_account Alice L) (demo_account Bob L') = Some t1 ∧ verdict t0 t1 [""; ""] = 0.
Proof.
  intros L L'. apply (load_test_passes demo_quote demo_time AliceText BobText "1.00" Alice Bob (Money.of_units 10000)
    load_requests (seed_db 0) load_run.1 load_run.2 read_run.1 read_run.2).
  - done.
  - by apply plain_bool.
  - by apply plain_bool.
  - by apply plain_bool.
  - by vm_compute.
  - by vm_compute.
  - by vm_compute.
  - by intros [=].
  - apply List.Forall_cons; [left; exists "k1"; by left |]. apply List.Forall_cons; [left; exists "k2"; by right |].
    apply List.Forall_cons; [by right | apply List.Forall_nil].
  - apply seed_db_sound.
  - rewrite seed_abs. apply seed_ledger_inv.
  - rewrite seed_abs. vm_compute. by eexists.
  - rewrite seed_abs. vm_compute. by eexists.
  - apply schedule_execution.
  - apply schedule_execution.
  - right. apply load_run_answered.
  - reflexivity.
  - reflexivity.
  - reflexivity.
  - reflexivity.
Defined.
